(* ===== verification/_CoqProject ===== *)
-Q . S2P
Prelude.v
Errors.v
GoLib.v
Event.v
Bound.v
Relay.v
Json.v
Envelope.v
Scenario.v
Notify.v
Leader.v
Lane.v
RelayCfg.v
Sequence.v
SequenceFacts.v
SequencePhases.v
SequenceProps.v
Safety.v
Steady.v
SequenceDelivery.v
TidbDb.v
TidbLog.v
TidbTx.v
Tidb.v
TidbProps.v
TidbContract.v
TidbDelivery.v
Group.v
Healthy.v
TidbDemo.v
TidbTxDemo.v
GroupDemo.v
HealthyDemo.v
Takeover.v
TakeoverDemo.v
Stream.v
StreamProps.v
StreamDelivery.v
Amqp.v
Publish.v
RabbitSend.v
Consume.v
RabbitProps.v
AmqpDemo.v
Binary.v
Structured.v
CodecDemo.v
Mongo.v
MongoProps.v
MongoDelivery.v
StreamGroup.v
StreamHealthy.v
MongoDemo.v
StreamGroupDemo.v
StreamHealthyDemo.v
StreamTakeover.v
StreamTakeoverDemo.v
Codec.v
Publisher.v
Subscriber.v
BusProps.v
OutboxBus.v
Gochan.v
GochanProps.v
Metrics.v
BusDemo.v
RabbitBus.v
RabbitBusDemo.v
Options.v
Migrate.v
Instances.v
