(* ===== verification/Prelude.v ===== *)
(** * protoevent-go: a verification library

    protoevent-go publishes CloudEvents from Go programs. A program publishes
    through an eventbus to a transport: directly to RabbitMQ or an in-process
    channel, or to a transactional outbox, a table written in the transaction of
    its business data, from which a relay hands the events to a broker in order.
    A subscriber gets them from the transport and dispatches them to handlers.
    This library models all of it but the client libraries and proves what it
    promises: an event is never passed over without having been delivered or
    handed to the poison handler, however many relays of its group run side by
    side, a healthy relay gets to the end of its log whatever others left behind, a relay that lost its lease touches nothing,
    the retention sweep deletes only what every group has consumed, what a batch
    reports as sent was confirmed, no delivery is left unsettled, and what was
    published is what a handler decodes.

    ** The parts, and the files that model them

    All paths are under src/pkg/. Definitions keep the names of the code.

    - event/ (content.go, metadata.go): [Event] has the metadata, content types
      and naming rules; [Json] what encoding/json does with the values of the
      repository; [Envelope] the JSON codec of the metadata.
    - encoding/: [Codec] has the registry and the two protobuf codecs.
    - eventbus/: [Publisher] (publisher.go, publisher_interceptor.go, and
      transport/outbox/factory.go), [Subscriber] (subscriber.go,
      subscriber_interceptor.go); errors.go is in [Errors]. [BusProps] has
      their properties, [OutboxBus] a publish through factory, outbox sender and
      MongoDB store, [RabbitBus] a delivery from the RabbitMQ receiver to a
      handler and back.
    - prometheus/: [Metrics].
    - transport/outbox/ (message.go, envelope.go, sender.go): [Envelope] has the
      persisted envelope and the outbox sender; [Relay] the message and the log
      of a relay's calls and signals.
    - transport/outbox/internal/: [Bound] (bound.go, the budget of a call, over
      Go contexts), [Notify] (notify.go and stuck.go, the reporter and the stuck
      tracker), [Leader] (leader.go, the elector), [Lane] (lane.go, the policy
      for one message and for a batch), [RelayCfg] (relaycfg.go, validation).
    - transport/outbox/relay/sequence/: [Sequence] has the sequenced-log relay,
      from NewRelay to Run; [SequenceFacts], [SequencePhases] and
      [SequenceProps] its lemmas and properties. [Safety] is what a store may
      claim of its state, and the logic of calls that keep the claim; [Steady]
      the calls that leave a store as it is;
      [SequenceDelivery] proves that a relay keeps it on any store whose calls
      do ([LogStore]).
    - transport/outbox/relay/stream/: [Stream] has the change-stream relay;
      [StreamProps] its properties; [StreamDelivery] the same for
      stores of changes ([ChangeLog]).
    - transport/outbox/tidb/: [TidbDb] has the tables and the statements;
      [TidbLog] the log they hold as a transition system with its invariant;
      [TidbTx] the sequencing transaction as a machine whose statements others
      run between;
      [Tidb] the methods of the store, over a session that other sessions
      interleave with; [TidbProps] the refinement of the log by the methods and
      the safety of the log; [TidbContract] what each method promises a relay;
      [TidbDelivery] the store as a [LogStore], [Group] any number of relays of one
      group on it, [Healthy] the run of a relay that nothing disturbs,
      [Takeover] the two together;
      [Instances] any number of outboxes in one schema; [Migrate] the embedded
      migrations (embed.go, tidbmigrate/).
    - transport/outbox/mongodb/: [Mongo] has the collections, the commands and
      both stores (store.go) and the change-stream cursor (watch.go);
      [MongoProps] what they promise; [MongoDelivery] the store as a
      [ChangeLog] over a driver whose cursors walk the server's log, and
      [StreamGroup] any number of relays of one group on it, [StreamHealthy]
      the run of a relay that nothing disturbs, [StreamTakeover] the two
      together. The fields [changes]
      and [cursors] stand for that log and for the driver's cursors.
    - transport/rabbitmq/: [Amqp] is the interface to the client library and the
      log of calls on it; [Publish] (internal/publish, the confirm handshake,
      also as a transition system of concurrent callers), [RabbitSend]
      (sender.go), [Consume] (internal/consume, receiver.go,
      parkinglot/receiver.go), [RabbitProps] their properties; [Binary] and
      [Structured] the two content modes (message/).
    - transport/gochan/: [Gochan] has the in-process transport as a transition
      system of concurrent Sends and Receives; [GochanProps] its properties.
    - [Options] has the functional options of relays and receivers.
    - [Prelude], [Errors] and [GoLib] are shared: computations and their logic,
      Go error values, the standard library. [Scenario], [TidbDemo], [TidbTxDemo],
      [GroupDemo], [HealthyDemo], [TakeoverDemo], [StreamTakeoverDemo], [AmqpDemo], [CodecDemo], [MongoDemo],
      [StreamGroupDemo], [StreamHealthyDemo], [BusDemo] and [RabbitBusDemo] are concrete environments: instances of the parameters, runs that are
      computed, and the theorems applied to them.

    The relays call the store, the sender and the hooks through records of
    operations ([Sequence.Store], [Stream.Store], [LeaderStore], [Lane], ...),
    the interfaces of the code, and every theorem on a relay holds for every
    value of those records. [Tidb.relay_store], [Tidb.relay_capabilities] and
    [Mongo.relay_store] are such values. [Subscriber.process] is the processor
    of the receivers, [Envelope.SenderSend] and [RabbitSend.Send] are senders of
    the eventbus.

    ** State, errors, time

    A stateful function is [M S A := S → A * S], total by construction. The
    state of a relay is [core] (the outside world, the log, the tracker, the
    leadership flags) with the fields of the relay that change. A Go error is
    [option err], the tree that errors.Is and errors.As walk. A context is the
    moment it ends and the errors it reports from then on; the clock is asked
    through [Host], and may run in any way. What a theorem says of a run it
    says of the log [list ev]: every call that left the relay with its answer.

    ** What the theorems show

    - At-least-once delivery (Group, StreamGroup, with Safety, SequenceDelivery,
      TidbDelivery, StreamDelivery, MongoDelivery): [group_run] is what may happen
      to an outbox in which any number of relays of a group run, each tick
      interleaved at every statement with the others, with publishers, other
      groups and sweeps, whoever leads and whatever replies are lost. Along every
      such run a row at or below the group's watermark, or a change covered by
      its stored token, was sent or parked by one of the relays, and no event
      past the position the group began at leaves the log otherwise.
    - Progress (Healthy, StreamHealthy, with Steady): a relay that is alone, with
      a sender that confirms, works off what the pages of a tick hold in each
      round of a run, until every row is numbered and delivered, however long the
      log; on MongoDB it stores after each window the token of the next
      TokenBatchSize changes.
    - Takeover (Takeover, StreamTakeover): at-least-once and progress together.
      Whatever the relays of a group did and wherever they stopped, one healthy
      relay that can take the lock (released, never taken, or run out) and runs
      for enough rounds leaves every event past the position the group began at
      delivered, under the number it was given.
    - Transactions (TidbTx): a sequencing transaction whose statements others run
      between leaves the tables as one that ran alone, followed by publishes.
    - Delivery order (SequenceProps, Lane): the watermark a tick commits covers
      only messages that were sent or parked in it, in log order; a message is
      given up without being parked or reported exactly when the run context is
      dead after its send; a batch advances over the prefix the sender confirmed,
      however it miscounts; the loops are bounded and end.
    - Leadership (SequenceProps, Leader, TidbContract): after a lost or failed
      renewal a tick lists, sends, commits and sweeps nothing; two sessions never
      hold an unexpired lock; the fenced commit applies only for the holder.
    - The log (TidbLog, TidbProps): every method, with any interleaving, refused
      statement or lost reply, is a sequence of steps of the log; no row gets a
      number at or below one that was ever assigned; watermarks only
      rise; only consumed rows are removed.
    - Instances (Instances): outboxes with different prefixes share no table, so
      each goes through steps of its own log in any company.
    - Store methods (TidbContract): the functional behaviour of each, every
      branch and error.
    - Change streams (StreamProps): a token is saved only after the events up to
      it were disposed of; a reopened cursor resumes after the last saved one.
    - Envelope (Event, Json, Envelope): round trips of content types and
      metadata, exactness of integer extensions, and the errors of validation.
    - MongoDB (MongoProps): a saved token is stored or the stored one is ahead,
      the key order is the order of the token bytes, the lock is exclusive on the
      server's clock and granted when it is free or run out, a publish adds its
      row to the running transaction only, and a cursor never skips a document.
    - RabbitMQ (RabbitSend, RabbitProps, Publish): each message of the sent prefix
      of a batch has its receipt, its own publish and the confirm of that publish;
      every delivery is settled once as its policy says, and returned to the queue
      only when its group is stopping or that failed; confirm mode is negotiated
      once per channel; the retry budget and the backoff.
    - Codecs (Binary, Structured, BusProps): what one side writes the other reads,
      and what is refused, and lost, of the rest.
    - Eventbus (BusProps, OutboxBus, RabbitBus): what a publish hands over, the
      memoised codec, interceptor chains, registration and dispatch, panics.
    - In-process transport (GochanProps): order and completeness, from the Send
      that was answered nil to the processor and the error handler, under every
      interleaving, how a subscription ends, and the send that races a close.
    - Budgets (Bound, RelayCfg): each call is bounded, and the configuration the
      constructor accepts fits a pass inside the lease, short of overflow.

    ** Bounds

    Loops of the code that have a bound keep it: [maxPagesPerTick] (64) for
    sequence, drain and sweep, TokenBatchSize for a drain window. The one loop
    without an explicit bound, [forwardBatched], runs on the length of its page,
    and [forwardBatched_terminates] shows that this is enough. Run
    takes the number of rounds it is observed for; its theorems hold for every
    number.

    ** What is a parameter

    Code that is not in the repository: unicode tables ([Unicode]), net/url
    ([UrlLib], [UrlStruct]), the float syntax of encoding/json ([GoJson]),
    google/uuid ([Uuid]), the row order an unordered SQL scan picks ([Planner]),
    the MongoDB driver's classification of errors and its raw tokens
    ([MongoDriver]) with its cursors and transactions as arguments, what its
    cursors guarantee ([ChangeStreams], and [LiveStreams] of one that works), that no error of a library is the
    relay's own ErrLaneStopped ([OrdinaryLibs]), that neither a context nor a
    refused command of the MongoDB driver answers ErrNoDocuments, which says that
    the document is absent ([plain_fault]), how TiDB compares table names
    ([NameFold]), the AMQP
    client ([Amqp], [AmqpLaws]) and its field encoding ([Wire]), json-iterator
    ([JsonIter], [JsonIterLaws]), protobuf ([Protobuf], [ProtobufLaws]),
    client_golang ([Prom], [PromLaws]), golang-migrate ([MigrateLib]), the clock
    ([Host]), and the user's sender, hooks, handlers and interceptors. Each is a
    class or an argument with the documented laws the proofs need, and the
    concrete environments give instances.

    ** What is not modelled

    The eviction of a closed channel's state among concurrent callers of the
    confirm handshake ([Publish.Handshake] follows one open channel; the eviction
    is part of the sequential reading). The text syntax of JSON in the outbox (a document is its value), the rounding
    of DATETIME columns, and the text of errors.
    A sequencing transaction of a relay's run is atomic to the others; that this
    loses nothing is what TidbTx shows, from the FOR UPDATE lock on the counter
    row. A publisher interceptor that publishes anew
    through the publisher it is handed, and Goexit inside a handler. The helpers
    that start containers for tests are left out: they only call other libraries.

    What the progress theorems ask of the surroundings (no other process at work,
    a sender that confirms, rows that decode) is a hypothesis of theirs: a relay
    that is disturbed for ever makes no progress it could promise.
*)

From Stdlib Require Export ZArith Lia String Ascii.
From stdpp Require Export base tactics option list numbers gmap strings.
#[global] Open Scope Z_scope.
#[global] Arguments String.append !_ _ / : simpl nomatch.

(** ** State-passing computations

    Every stateful Go function is a function from the state it reads to its
    result and the state it leaves. *)
Definition M (S A : Type) : Type := S → A * S.

#[global] Instance M_ret S : MRet (M S) := λ A a s, (a, s).
#[global] Instance M_bind S : MBind (M S) :=
  λ A B f m s, f (m s).1 (m s).2.
#[global] Instance M_fmap S : FMap (M S) :=
  λ A B f m s, (f (m s).1, (m s).2).

Definition get {S} : M S S := λ s, (s, s).
Definition gets {S A} (f : S → A) : M S A := λ s, (f s, s).
Definition modify {S} (f : S → S) : M S unit := λ s, (tt, f s).
Definition skip {S} : M S unit := λ s, (tt, s).

(** Run a computation on a component of the state. *)
Definition zoom {S T A} (g : S → T) (put : T → S → S) (m : M T A) : M S A :=
  λ s, ((m (g s)).1, put (m (g s)).2 s).

(** *** Reasoning about computations

    [wp m Q s]: running [m] from [s] ends in a result and a state that satisfy
    [Q]. Computations are total functions, so this is total correctness. *)
Definition wp {S A} (m : M S A) (Q : A → S → Prop) (s : S) : Prop :=
  Q (m s).1 (m s).2.

(** A relation every step of a computation respects. *)
Definition respects {S A} (R : relation S) (m : M S A) : Prop :=
  ∀ s, R s (m s).2.

(** A state predicate a computation keeps. *)
Definition keeps {S A} (P : S → Prop) (m : M S A) : Prop :=
  ∀ s, P s → P (m s).2.

Create HintDb mdb.

Section monad.
Context {S : Type}.

Lemma run_bind {A B} (m : M S A) (f : A → M S B) s :
  (m ≫= f) s = f (m s).1 (m s).2.
Proof. reflexivity. Qed.
Lemma run_ret {A} (a : A) (s : S) : (mret a : M S A) s = (a, s).
Proof. reflexivity. Qed.
Lemma run_gets {A} (f : S → A) s : gets f s = (f s, s).
Proof. reflexivity. Qed.
Lemma run_modify (f : S → S) s : modify f s = (tt, f s).
Proof. reflexivity. Qed.

Lemma wp_bind {A B} (m : M S A) (f : A → M S B) Q s :
  wp m (λ a, wp (f a) Q) s → wp (m ≫= f) Q s.
Proof. done. Qed.
Lemma wp_ret {A} (a : A) (Q : A → S → Prop) s : Q a s → wp (mret a) Q s.
Proof. done. Qed.
Lemma wp_mono {A} (m : M S A) (P Q : A → S → Prop) s :
  wp m P s → (∀ a s', P a s' → Q a s') → wp m Q s.
Proof. unfold wp. eauto. Qed.

Lemma keeps_ret {A} P (a : A) : keeps (S:=S) P (mret a).
Proof. by intros s ?. Qed.
Lemma keeps_bind {A B} P (m : M S A) (f : A → M S B) :
  keeps P m → (∀ a, keeps P (f a)) → keeps P (m ≫= f).
Proof. intros Hm Hf s Hs. apply Hf, Hm, Hs. Qed.
Lemma keeps_gets {A} P (f : S → A) : keeps P (gets f).
Proof. by intros s ?. Qed.
Lemma keeps_modify P (f : S → S) : (∀ s, P s → P (f s)) → keeps P (modify f).
Proof. intros Hf s Hs. by apply Hf. Qed.
Lemma keeps_skip P : keeps (S:=S) P skip.
Proof. by intros s ?. Qed.
Lemma keeps_if {A} P (b : bool) (m n : M S A) :
  keeps P m → keeps P n → keeps P (if b then m else n).
Proof. by destruct b. Qed.

Context (R : relation S) `{!PreOrder R}.
Lemma respects_ret {A} (a : A) : respects R (mret a).
Proof. intros s. reflexivity. Qed.
Lemma respects_bind {A B} (m : M S A) (f : A → M S B) :
  respects R m → (∀ a, respects R (f a)) → respects R (m ≫= f).
Proof. intros Hm Hf s. rewrite run_bind. etrans; [apply Hm|apply Hf]. Qed.
Lemma respects_gets {A} (f : S → A) : respects R (gets f).
Proof. intros s. reflexivity. Qed.
Lemma respects_modify (f : S → S) : (∀ s, R s (f s)) → respects R (modify f).
Proof. intros Hf s. apply Hf. Qed.
Lemma respects_skip : respects R skip.
Proof. intros s. reflexivity. Qed.
Lemma respects_if {A} (b : bool) (m n : M S A) :
  respects R m → respects R n → respects R (if b then m else n).
Proof. by destruct b. Qed.
End monad.

#[export] Hint Resolve keeps_ret keeps_gets keeps_skip keeps_bind keeps_modify keeps_if : mdb.
#[export] Hint Resolve respects_ret respects_gets respects_skip respects_bind
  respects_modify respects_if : mdb.

(** ** Tactics *)

(** Split the innermost [match] of the goal, remembering the equation. *)
Ltac case_match_goal :=
  match goal with
  | |- context [match ?x with _ => _ end] =>
      lazymatch x with
      | context [match _ with _ => _ end] => fail
      | _ => let E := fresh "E" in destruct x eqn:E
      end
  end.

(** Split a pair-valued call so that its two components get names. *)
Ltac split_run c r s :=
  let E := fresh "Erun" in destruct c as [r s] eqn:E.

(** Close goals that are Boolean comparisons on integers. *)
Ltac zbool :=
  repeat match goal with
  | H : andb _ _ = true |- _ => apply andb_true_iff in H as [? ?]
  | H : andb _ _ = false |- _ => apply andb_false_iff in H
  | H : orb _ _ = false |- _ => apply orb_false_iff in H as [? ?]
  | H : orb _ _ = true |- _ => apply orb_true_iff in H
  | H : negb _ = true |- _ => apply negb_true_iff in H
  | H : negb _ = false |- _ => apply negb_false_iff in H
  | H : Z.leb _ _ = true |- _ => apply Z.leb_le in H
  | H : Z.leb _ _ = false |- _ => apply Z.leb_gt in H
  | H : Z.ltb _ _ = true |- _ => apply Z.ltb_lt in H
  | H : Z.ltb _ _ = false |- _ => apply Z.ltb_ge in H
  | H : Z.eqb _ _ = true |- _ => apply Z.eqb_eq in H
  | H : Z.eqb _ _ = false |- _ => apply Z.eqb_neq in H
  | H : Z.geb _ _ = true |- _ => rewrite Z.geb_leb in H
  | H : Z.geb _ _ = false |- _ => rewrite Z.geb_leb in H
  | H : Z.gtb _ _ = true |- _ => rewrite Z.gtb_ltb in H
  | H : Z.gtb _ _ = false |- _ => rewrite Z.gtb_ltb in H
  | H : bool_decide _ = true |- _ => apply bool_decide_eq_true in H
  | H : bool_decide _ = false |- _ => apply bool_decide_eq_false in H
  end.

(** ** Machine integers *)

(** A 64-bit signed Go integer is a [Z]; arithmetic that can leave the range
    wraps around. *)
Definition wrap64 (z : Z) : Z := (z + 2^63) mod 2^64 - 2^63.
Definition in64 (z : Z) : Prop := - 2^63 <= z < 2^63.
Definition maxInt64 : Z := 2^63 - 1.

Lemma wrap64_id z : in64 z → wrap64 z = z.
Proof. unfold in64, wrap64. intros. rewrite Z.mod_small; lia. Qed.
Lemma wrap64_range z : in64 (wrap64 z).
Proof.
  unfold in64, wrap64. pose proof (Z.mod_pos_bound (z + 2^63) (2^64) ltac:(lia)). lia.
Qed.

(** ** Lists *)

(** [as_prefix n l]: the first [n] (a Go int, negative counts as none). *)
Definition ztake {A} (n : Z) (l : list A) : list A := take (Z.to_nat n) l.
Definition zdrop {A} (n : Z) (l : list A) : list A := drop (Z.to_nat n) l.
Definition zlen {A} (l : list A) : Z := Z.of_nat (length l).

Section lists.
Context {A : Type}.
Implicit Types l k : list A.

Lemma zlen_nil : zlen (@nil A) = 0. Proof. done. Qed.
Lemma zlen_cons x l : zlen (x :: l) = zlen l + 1.
Proof. unfold zlen. simpl. lia. Qed.
Lemma zlen_app l k : zlen (l ++ k) = zlen l + zlen k.
Proof. unfold zlen. rewrite length_app. lia. Qed.
Lemma zlen_nonneg l : 0 <= zlen l.
Proof. unfold zlen. lia. Qed.
Lemma zlen_zero l : zlen l = 0 ↔ l = [].
Proof. unfold zlen. destruct l; simpl; split; (done || lia). Qed.
Lemma ztake_zlen l : ztake (zlen l) l = l.
Proof. unfold ztake, zlen. rewrite Nat2Z.id. apply firstn_all. Qed.
Lemma ztake_app l k : ztake (zlen l) (l ++ k) = l.
Proof. unfold ztake, zlen. rewrite Nat2Z.id. apply take_app_length. Qed.
Lemma ztake_prefix n l : ztake n l `prefix_of` l.
Proof. unfold ztake. exists (drop (Z.to_nat n) l). by rewrite take_drop. Qed.
Lemma zlen_ztake n l : 0 <= n <= zlen l → zlen (ztake n l) = n.
Proof. unfold zlen, ztake. intros. rewrite length_take. lia. Qed.
End lists.
Create Rewrite HintDb zlen.
#[export] Hint Rewrite @zlen_nil @zlen_cons @zlen_app : zlen.
