(* ===== verification/Errors.v ===== *)
(** * Go error values

    [error] is [option err]: [None] is Go's nil. An [err] is the tree that
    [errors.Is] and [errors.As] walk: sentinels ([errors.New] at package level,
    compared by identity), [fmt.Errorf] values with the errors their [%w] verbs
    wrap, [errors.Join] values, and the typed errors of the repository and of
    the client libraries it inspects. The text of an error is kept as its
    constant part: no decision of the code reads it. *)
From S2P Require Import Prelude.

(** The package-level sentinels the code tests with [errors.Is]. *)
Inductive sentinel :=
| Canceled | DeadlineExceeded       (* context *)
| ErrNoRows | ErrTxDone             (* database/sql *)
| ErrNoDocuments                    (* mongo driver *)
| ErrUnsendable                     (* pkg/event/metadata.go *)
| ErrClosed                         (* transport/gochan *)
| ErrAlreadyPublished               (* transport/outbox/store.go *)
| ErrPoisonEnvelope                 (* transport/outbox/envelope.go *)
| errLostLeadership | errLeaseRenewFailed   (* relay/sequence/run.go *)
| ErrLaneStopped | ErrInvalidated | ErrHistoryLost   (* relay/stream *)
| errNilStore | errNilSender        (* internal/relaycfg *)
| ErrOther (name : string).

#[global] Instance sentinel_eq_dec : EqDecision sentinel.
Proof. solve_decision. Defined.

(** The dynamic types the code looks for with [errors.As]. *)
Inductive etype :=
| TUnprocessableEvent
| TSeqDecode (id : string) (seq : Z)                      (* sequence.DecodeError *)
| TStreamDecode (id token : string) (commitTime : Z)      (* stream.DecodeError *)
| TStuckLane (position id : string) (stuckFor : Z)        (* relay.StuckLaneError *)
| TMySQL (number : Z) (message : string)                   (* mysql.MySQLError *)
| TAmqp (code : Z) (recover : bool)
| TMongoCommand (code : Z) (labels : list string).

#[global] Instance etype_eq_dec : EqDecision etype.
Proof. solve_decision. Defined.

Unset Elimination Schemes.
Inductive err :=
| Sentinel (s : sentinel)
| Errorf (msg : string) (wrapped : list err)
| Joined (es : list err)
| Typed (t : etype) (inner : list err).
Set Elimination Schemes.

Definition error := option err.

Section err_ind.
Context (P : err → Prop)
  (HS : ∀ s, P (Sentinel s))
  (HF : ∀ m es, Forall P es → P (Errorf m es))
  (HJ : ∀ es, Forall P es → P (Joined es))
  (HT : ∀ t es, Forall P es → P (Typed t es)).
Fixpoint err_ind (e : err) : P e :=
  let fix go (es : list err) : Forall P es :=
    match es with
    | [] => Forall_nil_2 P
    | e :: es => Forall_cons_2 P e es (err_ind e) (go es)
    end in
  match e with
  | Sentinel s => HS s
  | Errorf m es => HF m es (go es)
  | Joined es => HJ es (go es)
  | Typed t es => HT t es (go es)
  end.
End err_ind.

(** The errors [Unwrap] exposes. *)
Definition unwrap (e : err) : list err :=
  match e with
  | Sentinel _ => []
  | Errorf _ es | Joined es | Typed _ es => es
  end.

(** [errors.Is] against a sentinel. *)
Fixpoint is_err (e : err) (t : sentinel) : bool :=
  match e with
  | Sentinel s => bool_decide (s = t)
  | Errorf _ es | Joined es | Typed _ es => existsb (λ e, is_err e t) es
  end.
Definition Is (e : error) (t : sentinel) : bool :=
  match e with None => false | Some e => is_err e t end.

(** [errors.As]: the first match in the depth-first walk of the tree. *)
Fixpoint find_err {A} (f : err → option A) (e : err) : option A :=
  match f e with
  | Some a => Some a
  | None =>
      let fix go (es : list err) : option A :=
        match es with
        | [] => None
        | e :: es => match find_err f e with Some a => Some a | None => go es end
        end in
      match e with
      | Sentinel _ => None
      | Errorf _ es | Joined es | Typed _ es => go es
      end
  end.
Definition As {A} (f : err → option A) (e : error) : option A := e ≫= find_err f.

(** The typed errors as the [errors.As] calls bind them: the error found, and
    the fields the code reads from it. *)
Definition asSeqDecode (e : err) : option (err * string * Z) :=
  match e with Typed (TSeqDecode i q) _ => Some (e, i, q) | _ => None end.
Definition asStreamDecode (e : err) : option (err * string * string * Z) :=
  match e with Typed (TStreamDecode i tok ct) _ => Some (e, i, tok, ct) | _ => None end.
Definition asUnprocessable (e : err) : option unit :=
  match e with Typed TUnprocessableEvent _ => Some tt | _ => None end.
Definition asMySQL (e : err) : option (Z * string) :=
  match e with Typed (TMySQL n m) _ => Some (n, m) | _ => None end.

(** eventbus/errors.go *)
Definition NewUnprocessableEventError (e : err) : err := Typed TUnprocessableEvent [e].
Definition IsUnprocessableEventError (e : error) : bool :=
  match As asUnprocessable e with Some _ => true | None => false end.

(** [errors.New] and [fmt.Errorf] with one [%w]. *)
Definition New (msg : string) : err := Errorf msg [].
Definition wrapf (msg : string) (e : err) : err := Errorf msg [e].

(** [errors.Join]: nil arguments are dropped, all-nil joins to nil. *)
Definition Join (es : list error) : error :=
  match omap id es with [] => None | es => Some (Joined es) end.

(** Go's [(T, error)] results where the value is meaningful only without error. *)
Definition ebind {A B} (x : A + err) (f : A → B + err) : B + err :=
  match x with inl a => f a | inr e => inr e end.
Definition emap {A B} (f : A → B) (x : A + err) : B + err :=
  match x with inl a => inl (f a) | inr e => inr e end.
(** [if err != nil { return fmt.Errorf(msg, err) }] *)
Definition ewrap {A} (msg : string) (x : A + err) : A + err :=
  match x with inl a => inl a | inr e => inr (wrapf msg e) end.

Definition isNil (e : error) : bool := match e with None => true | Some _ => false end.

Lemma Join_nil es : Join es = None ↔ Forall (λ e, e = None) es.
Proof.
  unfold Join. induction es as [|x es IH]; simpl; [split; constructor|].
  rewrite Forall_cons, <-IH. destruct x; simpl; split; try done; by intros [??].
Qed.

Lemma Is_Join es t : Is (Join es) t = existsb (λ e, Is e t) es.
Proof.
  assert (H : existsb (λ e, is_err e t) (omap id es) = existsb (λ e, Is e t) es).
  { induction es as [|[e|] es]; simpl; [done| |done]. f_equal. exact IHes. }
  rewrite <-H. unfold Join. by destruct (omap id es).
Qed.

Lemma Is_wrapf m e t : Is (Some (wrapf m e)) t = Is (Some e) t.
Proof. simpl. by rewrite orb_false_r. Qed.
