(* ===== verification/GoLib.v ===== *)
(** * The parts of Go's standard library the repository relies on

    Strings are byte strings ([string] of [ascii]), as in Go. [time.Time] is a
    [Z] of nanoseconds since Go's zero time, [time.Duration] a [Z] of
    nanoseconds. [any] is [goval]. *)
From S2P Require Import Prelude Errors.
From Stdlib Require Import SpecFloat.

(** ** package strings *)
Definition byte (c : ascii) : Z := Z.of_nat (nat_of_ascii c).
Definition len (s : string) : Z := Z.of_nat (String.length s).

(** [strings.HasPrefix] and [strings.CutPrefix]. *)
Fixpoint CutPrefix (s p : string) : option string :=
  match p, s with
  | EmptyString, _ => Some s
  | String c p, String d s => if Ascii.eqb c d then CutPrefix s p else None
  | _, EmptyString => None
  end.
Definition HasPrefix (s p : string) : bool :=
  match CutPrefix s p with Some _ => true | None => false end.

(** [before, _, _ := strings.Cut(s, c)] for a one-byte separator. *)
Fixpoint Cut (s : string) (c : ascii) : string :=
  match s with
  | EmptyString => EmptyString
  | String d s' => if Ascii.eqb d c then EmptyString else String d (Cut s' c)
  end.

(** [strings.LastIndex] for a one-byte separator, -1 when absent. *)
Fixpoint LastIndex (s : string) (c : ascii) : Z :=
  match s with
  | EmptyString => -1
  | String d s' =>
      let r := LastIndex s' c in
      if Z.leb 0 r then r + 1 else if Ascii.eqb d c then 0 else -1
  end.

(** Slicing: [s[:n]] and [s[n:]] for [0 <= n <= len(s)]. *)
Fixpoint sfirst (n : nat) (s : string) : string :=
  match n, s with
  | O, _ | _, EmptyString => EmptyString
  | S n, String c s => String c (sfirst n s)
  end.
Fixpoint sskip (n : nat) (s : string) : string :=
  match n, s with
  | O, _ => s
  | _, EmptyString => EmptyString
  | S n, String _ s => sskip n s
  end.

Fixpoint sforall (f : ascii → bool) (s : string) : bool :=
  match s with EmptyString => true | String c s => f c && sforall f s end.
Fixpoint smap (f : ascii → ascii) (s : string) : string :=
  match s with EmptyString => EmptyString | String c s => String (f c) (smap f s) end.
Fixpoint scontains (c : ascii) (s : string) : bool :=
  match s with EmptyString => false | String d s => Ascii.eqb c d || scontains c s end.

(** The code points [unicode.IsSpace] accepts, as their UTF-8 encodings. *)
Definition bytes (l : list Z) : string :=
  foldr (λ z s, String (ascii_of_nat (Z.to_nat z)) s) EmptyString l.
Definition spaces : list string :=
  map bytes ([[9]; [10]; [11]; [12]; [13]; [32]; [0xC2; 0x85]; [0xC2; 0xA0];
    [0xE1; 0x9A; 0x80]; [0xE2; 0x80; 0xA8]; [0xE2; 0x80; 0xA9]; [0xE2; 0x80; 0xAF];
    [0xE2; 0x81; 0x9F]; [0xE3; 0x80; 0x80]]
    ++ map (λ k, [0xE2; 0x80; 0x80 + k]) (seqZ 0 11)).

Fixpoint cut_any (ps : list string) (s : string) : option string :=
  match ps with
  | [] => None
  | p :: ps => match CutPrefix s p with Some r => Some r | None => cut_any ps s end
  end.
Fixpoint trim_left (fuel : nat) (ps : list string) (s : string) : string :=
  match fuel with
  | O => s
  | S n => match cut_any ps s with Some r => trim_left n ps r | None => s end
  end.
Definition srev (s : string) : string := string_of_list_ascii (rev (list_ascii_of_string s)).

(** [strings.TrimSpace]: UTF-8 is self-synchronising, so trimming runes on
    either side is trimming their encodings. *)
Definition TrimSpace (s : string) : string :=
  let l := trim_left (String.length s) spaces s in
  srev (trim_left (String.length l) (map srev spaces) (srev l)).

(** [strings.ToLower]. An ASCII string is lowered byte by byte. A string with a
    byte above 0x7f is mapped rune by rune through Go's Unicode tables, which
    are data of the Go distribution: [tolower_unicode] stands for that path and
    [tolower_unicode_ascii] is its documented effect on the ASCII letters. *)
Definition is_ascii (s : string) : bool := sforall (λ c, byte c <? 0x80) s.
Definition is_upper (c : ascii) : bool := (65 <=? byte c) && (byte c <=? 90).
Definition lower_byte (c : ascii) : ascii :=
  if is_upper c then ascii_of_nat (Z.to_nat (byte c + 32)) else c.
Class Unicode := {
  tolower_unicode : string → string;
  tolower_unicode_ascii : ∀ s, sforall (λ c, negb (is_upper c)) (tolower_unicode s) = true }.
Definition ToLower `{Unicode} (s : string) : string :=
  if is_ascii s then smap lower_byte s else tolower_unicode s.

(** ** any *)
#[warnings="-register-all"]
Inductive goval :=
| GString (s : string) | GBool (b : bool)
| GInt (z : Z) | GInt8 (z : Z) | GInt16 (z : Z) | GInt32 (z : Z) | GInt64 (z : Z)
| GUint8 (z : Z) | GUint16 (z : Z) | GUint32 (z : Z) | GUint64 (z : Z)
| GFloat32 (f : spec_float) | GFloat64 (f : spec_float)
| GBytes (b : string) | GTime (t : Z)
| GNil
| GOther (ty : string)
| GList (l : list goval)
| GTable (l : list (string * goval)).

(** [strconv.ParseInt(s, 10, 64)]: an optional sign and digits, in range. *)
Definition digit (c : ascii) : option Z :=
  if (48 <=? byte c) && (byte c <=? 57) then Some (byte c - 48) else None.
Fixpoint digits (acc : Z) (s : string) : option Z :=
  match s with
  | EmptyString => Some acc
  | String c s => match digit c with Some d => digits (10 * acc + d) s | None => None end
  end.
Definition number (s : string) : option Z :=
  match s with EmptyString => None | _ => digits 0 s end.
Definition ParseInt (s : string) : option Z :=
  let z := match s with
           | String "-" s => Z.opp <$> number s
           | String "+" s => number s
           | _ => number s
           end in
  match z with
  | Some z => if (- 2^63 <=? z) && (z <? 2^63) then Some z else None
  | None => None
  end.

(** The integer a floating-point value is, if it is one: [c == math.Trunc(c)]
    for a finite [c]. *)
Definition integral (f : spec_float) : option Z :=
  match f with
  | S754_zero _ => Some 0
  | S754_finite s m e =>
      let sgn z := if s then - z else z in
      if 0 <=? e then Some (sgn (Zpos m * 2 ^ e))
      else if Zpos m mod 2 ^ (- e) =? 0 then Some (sgn (Zpos m / 2 ^ (- e)))
      else None
  | _ => None
  end.

(** ** net/url, as far as this code sees it: a value with a text form *)
Class UrlLib := {
  url : Type;
  url_String : url → string;
  url_Parse : string → url + err;
  url_isZero : url → bool }.

(** ** Lemmas *)
Lemma CutPrefix_Some s p r : CutPrefix s p = Some r ↔ s = (p +:+ r).
Proof.
  revert s. induction p as [|c p IH]; intros s.
  - change (CutPrefix s "" = Some r ↔ s = r). destruct s; simpl; split; congruence.
  - change (String c p +:+ r) with (String c (p +:+ r)).
    destruct s as [|d s]; simpl; [split; discriminate|].
    destruct (Ascii.eqb_spec c d) as [<-|Hn]; [rewrite IH|]; split; congruence.
Qed.
Lemma sapp_nil_r s : (s +:+ "") = s.
Proof. induction s; simpl; congruence. Qed.
Lemma sapp_assoc s t u : (s +:+ t +:+ u) = ((s +:+ t) +:+ u).
Proof. induction s; simpl; congruence. Qed.
Lemma slength_app s t : String.length (s +:+ t) = (String.length s + String.length t)%nat.
Proof. induction s; simpl; lia. Qed.
Lemma sfirst_app s t : sfirst (String.length s) (s +:+ t) = s.
Proof. induction s; simpl; [by destruct t|]. congruence. Qed.
Lemma sskip_app s t : sskip (String.length s) (s +:+ t) = t.
Proof. induction s; simpl; [by destruct t|]. done. Qed.
Lemma sfirst_sskip n s : (sfirst n s +:+ sskip n s) = s.
Proof. revert s. induction n; intros [|c s]; simpl; try done. f_equal. apply IHn. Qed.
Lemma sforall_app f s t : sforall f (s +:+ t) = sforall f s && sforall f t.
Proof. induction s; simpl; [done|]. by rewrite IHs, andb_assoc. Qed.
Lemma slength_sfirst n s : (n <= String.length s)%nat → String.length (sfirst n s) = n.
Proof. revert s. induction n; intros [|c s]; simpl; intros; try lia. rewrite IHn; lia. Qed.
Lemma slength_sskip n s : String.length (sskip n s) = (String.length s - n)%nat.
Proof. revert s. induction n; intros [|c s]; simpl; intros; try lia. rewrite IHn; lia. Qed.

Lemma LastIndex_lower s c : -1 <= LastIndex s c.
Proof. induction s; simpl; [lia|]. repeat case_match; zbool; lia. Qed.
Lemma LastIndex_upper s c : LastIndex s c < len s.
Proof. unfold len. induction s; simpl; [lia|]. repeat case_match; zbool; lia. Qed.
Lemma LastIndex_absent s c : LastIndex s c = -1 ↔ scontains c s = false.
Proof.
  induction s as [|d s IH]; simpl; [done|].
  pose proof (LastIndex_lower s c). rewrite Ascii.eqb_sym.
  destruct (Z.leb_spec 0 (LastIndex s c)), (scontains c s);
    destruct (Ascii.eqb c d); simpl in *; split; intros; try done; try lia;
    exfalso; destruct IH as [IH1 IH2]; try (specialize (IH2 eq_refl); lia);
    assert (LastIndex s c = -1) by lia; naive_solver.
Qed.
(** A separator splits a string at its last occurrence. *)
Lemma LastIndex_app s t c :
  scontains c t = false → LastIndex (s +:+ String c t) c = len s.
Proof.
  intros Ht. apply LastIndex_absent in Ht. unfold len. induction s as [|d s IH]; simpl.
  - rewrite Ht. simpl. by rewrite Ascii.eqb_refl.
  - rewrite IH. case_match; zbool; lia.
Qed.
Lemma LastIndex_split s c n :
  LastIndex s c = n → 0 <= n →
  s = (sfirst (Z.to_nat n) s +:+ String c (sskip (S (Z.to_nat n)) s)) ∧
  scontains c (sskip (S (Z.to_nat n)) s) = false.
Proof.
  revert n. induction s as [|d s IH]; simpl; intros n Hn Hp; [lia|].
  destruct (Z.leb_spec 0 (LastIndex s c)).
  - destruct (IH _ eq_refl ltac:(done)) as [H1 H2].
    replace (Z.to_nat n) with (S (Z.to_nat (LastIndex s c))) by lia.
    simpl. split; [f_equal; exact H1|exact H2].
  - destruct (Ascii.eqb_spec d c) as [->|]; [|lia]. subst n.
    pose proof (LastIndex_lower s c).
    assert (scontains c s = false) by (apply LastIndex_absent; lia).
    by destruct s.
Qed.
Lemma Cut_sforall f s c : sforall f s = true → sforall f (Cut s c) = true.
Proof.
  induction s; simpl; [done|]. intros [??]%andb_true_iff. case_match; simpl; [done|].
  rewrite H. auto.
Qed.
Lemma Cut_scontains s c : scontains c (Cut s c) = false.
Proof.
  induction s as [|d s]; simpl; [done|]. destruct (Ascii.eqb d c) eqn:E; simpl; [done|].
  rewrite Ascii.eqb_sym, E. done.
Qed.
Lemma Cut_app s c t : scontains c s = false → Cut (s +:+ String c t) c = s.
Proof.
  induction s as [|d s IH]; simpl; [by rewrite Ascii.eqb_refl|].
  intros [Hd Hs]%orb_false_iff. rewrite Ascii.eqb_sym, Hd. by rewrite IH.
Qed.
(** A prefix without the separator ends before the separator. *)
Lemma HasPrefix_app s c t p :
  scontains c p = false → HasPrefix (s +:+ String c t) p = HasPrefix s p.
Proof.
  unfold HasPrefix. revert s. induction p as [|e p IH]; intros s; [by destruct s|].
  simpl. intros [He Hp]%orb_false_iff. destruct s as [|d s]; simpl.
  - by rewrite Ascii.eqb_sym, He.
  - destruct (Ascii.eqb e d); [by apply IH|done].
Qed.
