(* ===== verification/Event.v ===== *)
(** * pkg/event: the CloudEvents envelope, content types and naming rules

    [content.go] (content-type parsing, [SplitType]) and the rules of
    [metadata.go] that publish-time validation and the marshalers share. *)
From S2P Require Import Prelude Errors GoLib.

(** ** Data *)
Inductive ContentMode := BinaryMode | StructuredMode.
#[global] Instance ContentMode_eq_dec : EqDecision ContentMode.
Proof. solve_decision. Defined.

(** [Extensions] is a Go map, [None] the nil map. *)
Record Metadata `{UrlLib} := mkMetadata {
  SpecVersion : string;
  Type_ : string;
  Source : string;
  Subject : string;
  ID : string;
  Time : Z;
  Extensions : option (gmap string goval);
  DataSchema : option url;
  DataContentType : string }.
#[global] Arguments mkMetadata {_} _ _ _ _ _ _ _ _ _.

(** ** content.go *)
Definition baseContentType : string := "application".
Definition cloudeventsContentType : string := "application/cloudevents".

(** The tspecials of RFC 2045, by byte value. *)
Definition tspecials : list Z :=
  [40; 41; 60; 62; 64; 44; 59; 58; 92; 34; 47; 91; 93; 63; 61].

(** Every byte of a multi-byte rune, valid or not, belongs to a rune at or above
    0x7f, so the rune loop of the code is a byte test. *)
Definition isTokenByte (c : ascii) : bool :=
  negb ((byte c <=? 32) || (0x7f <=? byte c) || existsb (Z.eqb (byte c)) tspecials).
Definition isMediaTypeToken (s : string) : bool :=
  if String.eqb s "" then false else sforall isTokenByte s.

Definition trimMediaTypeParams (subtype : string) : string * bool :=
  let subtype := Cut subtype ";" in
  let subtype := TrimSpace subtype in
  if negb (isMediaTypeToken subtype) then (""%string, false) else (subtype, true).

Definition ParseContentType `{Unicode} (contentType : string) : ContentMode * string * bool :=
  let contentType := ToLower contentType in
  match CutPrefix contentType cloudeventsContentType with
  | None =>
      match CutPrefix contentType (baseContentType +:+ "/") with
      | None => (BinaryMode, ""%string, false)
      | Some subtype =>
          let '(s, ok) := trimMediaTypeParams subtype in (BinaryMode, s, ok)
      end
  | Some EmptyString => (StructuredMode, ""%string, false)
  | Some (String c rest) =>
      if (Ascii.eqb c "+" || Ascii.eqb c ";")%bool then
        let '(s, ok) := trimMediaTypeParams rest in (StructuredMode, s, ok)
      else (BinaryMode, ""%string, false)
  end.

Definition ContentSubtype `{Unicode} (contentType : string) : string * bool :=
  let '(_, subtype, ok) := ParseContentType contentType in (subtype, ok).

Definition ContentType (contentSubtype : string) : string :=
  baseContentType +:+ "/" +:+ contentSubtype.

Definition SplitType (eventType : string) : (string * string) + err :=
  let pos := LastIndex eventType "." in
  if (pos <=? 0) || (pos =? len eventType - 1)
  then inr (wrapf "malformed event type: want <service>.<event>" (Sentinel ErrUnsendable))
  else inl (sfirst (Z.to_nat pos) eventType, sskip (Z.to_nat (pos + 1)) eventType).

(** ** metadata.go *)
Definition coreAttributeNames : list string :=
  ["specversion"; "id"; "type"; "source"; "data"; "datacontenttype"; "dataschema";
   "subject"; "time"]%string.
Definition BinaryAttrPrefix : string := "cloudEvents:".

Definition ReservedExtensionName (name : string) : bool :=
  if HasPrefix name BinaryAttrPrefix then true
  else existsb (String.eqb name) coreAttributeNames.

Definition MaxShortStrLen : Z := 255.
Definition ShortStrTooLong (s : string) : bool := MaxShortStrLen <? len s.

Definition MaxInt32 : Z := 2^31 - 1.
Definition MinInt32 : Z := - 2^31.

Definition ValidExtensionValue (v : goval) : error :=
  match v with
  | GString _ | GBool _ | GInt8 _ | GInt16 _ | GInt32 _ | GInt64 _
  | GUint8 _ | GUint16 _ | GUint32 _ | GFloat32 _ | GFloat64 _ | GBytes _ | GTime _ => None
  | GInt v =>
      if (MaxInt32 <? v) || (v <? MinInt32)
      then Some (New "int value does not fit the 32-bit AMQP field; use an int64 value instead")
      else None
  | GNil => Some (New "value is nil; omit the extension instead")
  | _ => Some (New "value is not a CloudEvents extension value")
  end.

Definition NewMetadata `{UrlLib} (t : string) : Metadata :=
  mkMetadata "1.0" t "" "" "" 0 None None "".

(** Context values: the incoming metadata a handler's context carries. *)
Record context `{UrlLib} := mkContext { ctx_incoming : option Metadata }.
Definition NewIncomingContext `{UrlLib} (ctx : context) (md : Metadata) : context :=
  mkContext _ (Some md).
Definition MetadataFromIncomingContext `{UrlLib} (ctx : context) : option Metadata :=
  ctx_incoming ctx.

(** ** Lemmas *)
Lemma smap_lower_no_upper s : sforall (λ c, negb (is_upper c)) (smap lower_byte s) = true.
Proof.
  induction s as [|c s IH]; simpl; [done|]. rewrite IH, andb_true_r.
  by destruct c as [[] [] [] [] [] [] [] []].
Qed.
Lemma ToLower_no_upper `{Unicode} s : sforall (λ c, negb (is_upper c)) (ToLower s) = true.
Proof. unfold ToLower. case_match; [apply smap_lower_no_upper|apply tolower_unicode_ascii]. Qed.

(** Trimming removes bytes from the ends only. *)
Lemma CutPrefix_sforall f s p r :
  CutPrefix s p = Some r → sforall f s = true → sforall f r = true.
Proof. intros ->%CutPrefix_Some. rewrite sforall_app. by intros [??]%andb_true_iff. Qed.
Lemma cut_any_sforall f ps s r :
  cut_any ps s = Some r → sforall f s = true → sforall f r = true.
Proof.
  induction ps as [|p ps IH]; simpl; [done|]. case_match eqn:E; [|done].
  intros [= <-]. by eapply CutPrefix_sforall.
Qed.
Lemma trim_left_sforall f n ps s :
  sforall f s = true → sforall f (trim_left n ps s) = true.
Proof.
  revert s. induction n as [|n IH]; simpl; intros s Hs; [done|].
  case_match eqn:E; [|done]. eapply IH, cut_any_sforall; eauto.
Qed.
Lemma sforall_list f s : sforall f s = forallb f (list_ascii_of_string s).
Proof. induction s; simpl; congruence. Qed.
Lemma srev_sforall f s : sforall f (srev s) = sforall f s.
Proof.
  rewrite !sforall_list. unfold srev. rewrite list_ascii_of_string_of_list_ascii.
  induction (list_ascii_of_string s); simpl; [done|].
  rewrite forallb_app, IHl. simpl. rewrite andb_true_r. apply andb_comm.
Qed.
Lemma srev_involutive s : srev (srev s) = s.
Proof.
  unfold srev. by rewrite list_ascii_of_string_of_list_ascii, rev_involutive,
    string_of_list_ascii_of_string.
Qed.
Lemma TrimSpace_sforall f s : sforall f s = true → sforall f (TrimSpace s) = true.
Proof.
  intros Hs. unfold TrimSpace. rewrite srev_sforall. apply trim_left_sforall.
  rewrite srev_sforall. by apply trim_left_sforall.
Qed.

Lemma cut_any_head s c s' (ps : list string) :
  s = String c s' → Forall (λ p, ∃ d p', p = String d p' ∧ d ≠ c) ps → cut_any ps s = None.
Proof.
  intros -> Hps. induction Hps as [|p ps (d & p' & -> & Hd) _ IH]; simpl; [done|].
  destruct (Ascii.eqb_spec d c); [done|exact IH].
Qed.

Definition head_byte (p : string) : Z :=
  match p with EmptyString => 0 | String c _ => byte c end.
Lemma trim_left_token n ps s :
  forallb (λ p, (head_byte p <=? 32) || (0x7f <=? head_byte p)) ps = true →
  forallb (λ p, negb (String.eqb p "")) ps = true →
  sforall isTokenByte s = true → trim_left n ps s = s.
Proof.
  intros Hps Hne Hs. destruct n as [|n]; [done|]. simpl.
  destruct (cut_any ps s) as [r|] eqn:E; [|done]. exfalso.
  destruct s as [|c s].
  { clear Hps. induction ps as [|p ps IH]; simpl in *; [done|].
    apply andb_true_iff in Hne as [Hp Hne]. destruct p; [done|]. simpl in E. by apply IH. }
  rewrite cut_any_head with (c := c) (s' := s) in E; [done|done|].
  simpl in Hs. apply andb_true_iff in Hs as [Hc _].
  apply Forall_forall. intros p Hp%list_elem_of_In.
  rewrite forallb_forall in Hps, Hne. specialize (Hps _ Hp). specialize (Hne _ Hp).
  destruct p as [|d p]; [done|]. exists d, p. split; [done|]. intros ->. simpl in Hps.
  unfold isTokenByte in Hc. apply negb_true_iff, orb_false_iff in Hc as [Hc _].
  by rewrite Hps in Hc.
Qed.
Lemma TrimSpace_token s : sforall isTokenByte s = true → TrimSpace s = s.
Proof.
  intros Hs. unfold TrimSpace. rewrite (trim_left_token _ spaces s) by done.
  rewrite trim_left_token; [apply srev_involutive|done|done|by rewrite srev_sforall].
Qed.
Lemma Cut_absent s c : scontains c s = false → Cut s c = s.
Proof.
  induction s as [|d s IH]; simpl; [done|]. intros [Hd Hs]%orb_false_iff.
  rewrite Ascii.eqb_sym, Hd. by rewrite IH.
Qed.
Lemma token_no_semicolon s : sforall isTokenByte s = true → scontains ";" s = false.
Proof.
  induction s as [|c s IH]; [done|]. intros [Hc Hs]%andb_true_iff.
  cbn [scontains]. rewrite (IH Hs), orb_false_r.
  destruct (Ascii.eqb_spec ";" c) as [<-|]; [done|done].
Qed.
(** A bare token survives parameter trimming, with or without parameters after it. *)
Lemma trimMediaTypeParams_token s :
  isMediaTypeToken s = true → trimMediaTypeParams s = (s, true).
Proof.
  intros Hs. unfold trimMediaTypeParams.
  assert (sforall isTokenByte s = true) as Hb.
  { revert Hs. unfold isMediaTypeToken. by case_match. }
  rewrite Cut_absent by by apply token_no_semicolon.
  rewrite TrimSpace_token by done. by rewrite Hs.
Qed.
Lemma trimMediaTypeParams_ok s t :
  trimMediaTypeParams s = (t, true) → isMediaTypeToken t = true ∧ t = TrimSpace (Cut s ";").
Proof.
  unfold trimMediaTypeParams. destruct (isMediaTypeToken _) eqn:E; simpl; naive_solver.
Qed.
Lemma trimMediaTypeParams_sforall f s t :
  trimMediaTypeParams s = (t, true) → sforall f s = true → sforall f t = true.
Proof.
  intros [_ ->]%trimMediaTypeParams_ok ?. by apply TrimSpace_sforall, Cut_sforall.
Qed.

(** Lower-case ASCII is a fixed point of [ToLower]. *)
Definition lower_ascii (s : string) : bool :=
  sforall (λ c, (byte c <? 0x80) && negb (is_upper c)) s.
Lemma lower_ascii_fix `{Unicode} s : lower_ascii s = true → ToLower s = s.
Proof.
  intros Hs. unfold ToLower. assert (is_ascii s = true) as ->.
  { revert Hs. unfold is_ascii, lower_ascii. induction s; simpl; [done|].
    rewrite !andb_true_iff. naive_solver. }
  revert Hs. unfold lower_ascii. induction s as [|c s IH]; simpl; [done|].
  intros [[_ Hc]%andb_true_iff Hs]%andb_true_iff. f_equal; [|by apply IH].
  unfold lower_byte. by rewrite (proj1 (negb_true_iff _) Hc).
Qed.

(** Total specification of [SplitType]. *)
Definition split_of (t s n : string) : Prop :=
  t = (s +:+ String "." n) ∧ s ≠ ""%string ∧ n ≠ ""%string ∧ scontains "." n = false.

Lemma SplitType_intro s n :
  s ≠ ""%string → n ≠ ""%string → scontains "." n = false →
  SplitType (s +:+ String "." n) = inl (s, n).
Proof.
  intros Hs Hn Hd. unfold SplitType. rewrite LastIndex_app by done.
  unfold len. rewrite slength_app. simpl.
  destruct s as [|c s]; [done|]. destruct n as [|d n]; [done|].
  destruct ((_ <=? 0) || _) eqn:E.
  { exfalso. cbn [String.length] in E. apply orb_true_iff in E as [?|?]; zbool; lia. }
  do 2 f_equal.
  - rewrite Nat2Z.id. apply sfirst_app.
  - replace (Z.to_nat _) with (String.length (String c s +:+ ".")%string)
      by (rewrite slength_app; cbn [String.length]; lia).
    change (String "." (String d n)) with ("." +:+ String d n).
    rewrite sapp_assoc. apply sskip_app.
Qed.
Lemma SplitType_elim t s n : SplitType t = inl (s, n) → split_of t s n.
Proof.
  unfold SplitType. destruct (_ || _) eqn:E; [done|]. intros [= <- <-].
  apply orb_false_iff in E as [E1 E2]. zbool.
  destruct (LastIndex_split t "." (LastIndex t ".") eq_refl ltac:(lia)) as [H1 H2].
  pose proof (LastIndex_upper t "."). unfold len in *.
  rewrite Z2Nat.inj_add, Nat.add_1_r by lia.
  split_and!; [done| | |done].
  - intros Hz%(f_equal String.length). rewrite slength_sfirst in Hz by lia. simpl in Hz. lia.
  - intros Hz%(f_equal String.length). rewrite slength_sskip in Hz. simpl in Hz. lia.
Qed.

(** ** Properties *)

(** [SplitType] returns service and event name exactly when the type reads
    service, a dot, name, with both parts non-empty and the dot the last one;
    every other type is an error that wraps [ErrUnsendable]. It never panics:
    the slices are in range. *)
Theorem SplitType_spec t :
  match SplitType t with
  | inl (s, n) => split_of t s n
  | inr e => Is (Some e) ErrUnsendable = true ∧ ∀ s n, ¬ split_of t s n
  end.
Proof.
  destruct (SplitType t) as [[s n]|e] eqn:E; [by apply SplitType_elim|]. split.
  - revert E. unfold SplitType. case_match; [|done]. by intros [= <-].
  - intros s n (-> & ? & ? & ?). by rewrite SplitType_intro in E.
Qed.

(** Whatever bytes a producer sends, an accepted content type yields a
    non-empty RFC 2045 token without upper-case letters, the canonical form of
    the codec registry; a rejected one yields the empty name. *)
Theorem ParseContentType_canonical `{Unicode} ct :
  let '(mode, sub, ok) := ParseContentType ct in
  if ok then isMediaTypeToken sub = true ∧ sforall (λ c, negb (is_upper c)) sub = true
  else sub = ""%string.
Proof.
  assert (Htrim : ∀ s, sforall (λ c, negb (is_upper c)) s = true →
    let '(t, ok) := trimMediaTypeParams s in
    if ok then isMediaTypeToken t = true ∧ sforall (λ c, negb (is_upper c)) t = true
    else t = ""%string).
  { intros s Hs. destruct (trimMediaTypeParams s) as [t []] eqn:E.
    - split; [by eapply trimMediaTypeParams_ok|by eapply trimMediaTypeParams_sforall].
    - revert E. unfold trimMediaTypeParams. case_match; naive_solver. }
  pose proof (ToLower_no_upper ct) as Hl. unfold ParseContentType.
  destruct (CutPrefix (ToLower ct) cloudeventsContentType) as [[|c rest]|] eqn:E; [done| |].
  - pose proof (CutPrefix_sforall _ _ _ _ E Hl) as [_ Hr]%andb_true_iff.
    destruct (_ || _)%bool; [|done]. specialize (Htrim rest Hr). by destruct (trimMediaTypeParams rest).
  - destruct (CutPrefix (ToLower ct) (baseContentType +:+ "/")) as [s|] eqn:E'; [|done].
    specialize (Htrim s (CutPrefix_sforall _ _ _ _ E' Hl)). by destruct (trimMediaTypeParams s).
Qed.

(** Codec names that do not spell the structured family. *)
Definition plain_subtype (sub : string) : bool :=
  isMediaTypeToken sub && lower_ascii sub && negb (HasPrefix sub "cloudevents").

(** [ContentType] and [ParseContentType] are inverse on lower-case subtype
    tokens of the plain family (one that starts with cloudevents would spell the
    structured family); the structured spelling with a plus names the same
    subtype, and so do both with a parameter list after them. *)
Theorem ContentType_roundtrip `{Unicode} sub params :
  plain_subtype sub = true → lower_ascii params = true →
  let tail := (";" +:+ params)%string in
  ParseContentType (ContentType sub) = (BinaryMode, sub, true) ∧
  ParseContentType (ContentType sub +:+ tail) = (BinaryMode, sub, true) ∧
  ParseContentType (cloudeventsContentType +:+ "+" +:+ sub) = (StructuredMode, sub, true) ∧
  ParseContentType (cloudeventsContentType +:+ "+" +:+ sub +:+ tail)
    = (StructuredMode, sub, true).
Proof.
  intros [[Ht Hl]%andb_true_iff Hc%negb_true_iff]%andb_true_iff Hp tail.
  assert (Hlt : lower_ascii (sub +:+ tail) = true).
  { unfold lower_ascii in *. rewrite sforall_app, Hl. exact Hp. }
  assert (Hparse : ∀ p s, lower_ascii p = true → lower_ascii s = true →
            ToLower (p +:+ s) = (p +:+ s)).
  { intros p s ??. apply lower_ascii_fix. unfold lower_ascii in *. rewrite sforall_app.
    by apply andb_true_iff. }
  assert (Hplain : ∀ s, lower_ascii s = true → HasPrefix s "cloudevents" = false →
    trimMediaTypeParams s = (sub, true) →
    ParseContentType ("application/" +:+ s) = (BinaryMode, sub, true)).
  { intros s Hs Hn Htr. unfold ParseContentType. rewrite Hparse by done.
    change (CutPrefix ("application/" +:+ s) cloudeventsContentType)
      with (CutPrefix s "cloudevents").
    unfold HasPrefix in Hn. destruct (CutPrefix s "cloudevents"); [done|].
    change (CutPrefix ("application/" +:+ s) (baseContentType +:+ "/")) with (CutPrefix s "").
    replace (CutPrefix s "") with (Some s) by by destruct s. by rewrite Htr. }
  assert (Hstruct : ∀ s, lower_ascii s = true → trimMediaTypeParams s = (sub, true) →
    ParseContentType ("application/cloudevents+" +:+ s) = (StructuredMode, sub, true)).
  { intros s Hs Htr. unfold ParseContentType. rewrite Hparse by done.
    change (CutPrefix ("application/cloudevents+" +:+ s) cloudeventsContentType)
      with (CutPrefix (String "+" s) ""). simpl. by rewrite Htr. }
  pose proof (trimMediaTypeParams_token _ Ht) as Htr.
  assert (Htr' : trimMediaTypeParams (sub +:+ tail) = (sub, true)).
  { rewrite <-Htr. unfold trimMediaTypeParams.
    assert (scontains ";" sub = false) as Hsc.
    { apply token_no_semicolon. revert Ht. unfold isMediaTypeToken. by case_match. }
    unfold tail. change (";" +:+ params) with (String ";" params).
    rewrite Cut_app, Cut_absent by done. done. }
  split_and!.
  - by apply Hplain.
  - unfold ContentType. rewrite <-!sapp_assoc.
    apply (Hplain (sub +:+ tail)); [done| |done].
    change tail with (String ";" params). by rewrite HasPrefix_app.
  - by apply Hstruct.
  - by apply Hstruct.
Qed.
