(* ===== verification/Bound.v ===== *)
(** * internal/bound: operation budgets, over Go contexts

    A context is the moment it becomes done together with the errors [Err] and
    [Cause] report from then on. A running program learns of that moment only
    by asking ([ErrAt] at the current time), so the future cancellation of the
    run context is part of the value. Timers are exact: a goroutine that waits
    on a timer or a channel runs when it fires. *)
From S2P Require Import Prelude Errors.

(** ** package context *)
Record cx := Cx { cx_done : option Z; cx_err : err; cx_cause : err }.
Definition Background : cx := Cx None (Sentinel Canceled) (Sentinel Canceled).
Definition Second : Z := 1000000000.

(** [ctx.Err()] and [context.Cause(ctx)] asked at time [t]. *)
Definition doneAt (c : cx) (t : Z) : bool :=
  match cx_done c with Some d => d <=? t | None => false end.
Definition ErrAt (c : cx) (t : Z) : error := if doneAt c t then Some (cx_err c) else None.
Definition CauseAt (c : cx) (t : Z) : error := if doneAt c t then Some (cx_cause c) else None.

(** A child that is done at [d] at the latest, and with its parent before. *)
Definition earlier (c : cx) (d : Z) (e : sentinel) : cx :=
  match cx_done c with
  | Some p => if p <=? d then c else Cx (Some d) (Sentinel e) (Sentinel e)
  | None => Cx (Some d) (Sentinel e) (Sentinel e)
  end.
Definition WithTimeout (t : Z) (c : cx) (d : Z) : cx := earlier c (t + d) DeadlineExceeded.
Definition WithoutCancel (c : cx) : cx := Background.

(** ** The policies, entered at time [t] *)
Definition Shutdown : Z := 5 * Second.

Definition Call (t : Z) (ctx : cx) (ttl : Z) : cx := WithTimeout t ctx ttl.

(** The watchdog goroutine waits for the parent, then cancels the detached
    context one [Shutdown] later unless the call is over by then. *)
Definition Commit (t : Z) (ctx : cx) (ttl : Z) : cx :=
  if doneAt ctx t then WithTimeout t (WithoutCancel ctx) Shutdown
  else
    let out := WithTimeout t (WithoutCancel ctx) ttl in
    match cx_done ctx with
    | None => out
    | Some p => earlier out (p + Shutdown) Canceled
    end.

Definition ShutdownScope (t : Z) : cx := WithTimeout t Background Shutdown.

Definition Salvaged (t : Z) (ctx : cx) (ttl : Z) : cx :=
  if doneAt ctx t then WithTimeout t (WithoutCancel ctx) Shutdown
  else WithTimeout t ctx ttl.

Definition Fresh (t : Z) : cx := WithTimeout t Background Shutdown.

(** The two shutdown steps ([Elector.Release], [Relay.closeStream]) derive their
    context from the scope they are given by the same four lines. *)
Definition shutdownStep (t : Z) (ctx : cx) : cx :=
  if doneAt ctx t then Fresh t else WithTimeout t ctx Shutdown.

(** ** Lemmas *)
Lemma doneAt_Some d e e' t : doneAt (Cx (Some d) e e') t = (d <=? t).
Proof. done. Qed.
Lemma doneAt_earlier c d e t : doneAt (earlier c d e) t = doneAt c t || (d <=? t).
Proof.
  unfold doneAt, earlier. destruct c as [[p|] ce cc]; simpl; [|done].
  destruct (p <=? d) eqn:E1; simpl; destruct (p <=? t) eqn:E2, (d <=? t) eqn:E3;
    simpl; zbool; done || lia.
Qed.
Lemma doneAt_mono c t u : t <= u → doneAt c t = true → doneAt c u = true.
Proof.
  unfold doneAt. destruct (cx_done c); [|done]. intros ??. zbool. apply Z.leb_le. lia.
Qed.
Lemma doneAt_WithTimeout t c d u : doneAt (WithTimeout t c d) u = doneAt c u || (t + d <=? u).
Proof. apply doneAt_earlier. Qed.

(** When the commit context becomes done. *)
Lemma doneAt_Commit t ctx ttl u :
  doneAt (Commit t ctx ttl) u =
  if doneAt ctx t then t + Shutdown <=? u
  else (t + ttl <=? u) || (if cx_done ctx is Some p then p + Shutdown <=? u else false).
Proof.
  unfold Commit. destruct (doneAt ctx t); [by rewrite doneAt_WithTimeout|].
  destruct (cx_done ctx); [rewrite doneAt_earlier|rewrite orb_false_r];
    by rewrite doneAt_WithTimeout.
Qed.

(** ** Properties *)

(** A store write that records work already done is never aborted by
    cancellation at once: whenever the run context dies, before or during the
    call, the write keeps running for the whole of its timeout or for the
    shutdown grace, whichever is shorter; and it never outlives its timeout, nor
    the run context by more than the grace. *)
Theorem Commit_budget t ctx ttl u :
  (t <= u < t + Z.min ttl Shutdown → ErrAt (Commit t ctx ttl) u = None) ∧
  (Z.max ttl Shutdown <= u - t → ErrAt (Commit t ctx ttl) u ≠ None) ∧
  (∀ p, cx_done ctx = Some p → Z.max p t + Shutdown <= u →
        ErrAt (Commit t ctx ttl) u ≠ None).
Proof.
  unfold ErrAt. rewrite doneAt_Commit. unfold doneAt.
  destruct (cx_done ctx) as [p|]; [destruct (Z.leb_spec p t)|];
    (split_and!; [intros ?|intros ?|intros q Hq ?; simplify_eq Hq; intros]);
    repeat match goal with |- context [?a <=? ?b] => destruct (Z.leb_spec a b) end;
    simpl; try done; exfalso; lia.
Qed.
Lemma Commit_budget_witness :
  ErrAt (Commit 0 (Cx (Some 1) (Sentinel Canceled) (Sentinel Canceled)) (30 * Second))
    (4 * Second) = None.
Proof. apply (Commit_budget 0 _ (30 * Second) (4 * Second)). vm_compute; split; discriminate || reflexivity. Defined.

(** The salvaged read differs from the commit in exactly the case that
    matters: on a live run context it is aborted the moment the context dies,
    on a dead one it still gets the whole shutdown grace. *)
Theorem Salvaged_budget t ctx ttl u :
  doneAt (Salvaged t ctx ttl) u =
  if doneAt ctx t then t + Shutdown <=? u else doneAt ctx u || (t + ttl <=? u).
Proof. unfold Salvaged. destruct (doneAt ctx t); by rewrite doneAt_WithTimeout. Qed.

(** The shutdown scope is one budget for every shutdown step only while it
    lasts. A step that starts before the scope's deadline ends by that deadline,
    whatever the number of steps; a step that starts after it gets a whole fresh
    [Shutdown] of its own. Both relays create the scope when [Run] starts, not
    when shutdown starts, so after the first five seconds of a run every step is
    of the second kind and the tail is one [Shutdown] per step. *)
Theorem shutdown_tail t0 t :
  t0 <= t →
  cx_done (shutdownStep t (ShutdownScope t0)) =
  Some (if t <? t0 + Shutdown then t0 + Shutdown else t + Shutdown).
Proof.
  intros. unfold shutdownStep, ShutdownScope, Fresh, WithTimeout, earlier, doneAt. simpl.
  destruct (Z.leb_spec (t0 + Shutdown) t); simpl; destruct (Z.ltb_spec t (t0 + Shutdown));
    try lia; [done|]. destruct (Z.leb_spec (t0 + Shutdown) (t + Shutdown)); [done|lia].
Qed.
Lemma shutdown_tail_witness :
  cx_done (shutdownStep (60 * Second) (ShutdownScope 0)) = Some (65 * Second).
Proof. apply (shutdown_tail 0 (60 * Second)). vm_compute; discriminate. Defined.
