(* ===== verification/Relay.v ===== *)
(** * transport/outbox: messages, and what a relay's run leaves behind

    [Message] (message.go), the host clock, the signals of [relay.Observer]
    (relay/relay.go) and the [ev] log: every call a relay makes to code outside
    it, with the answer it got, and every signal it emits, in order. The log
    is how theorems speak of what a run did; the program never reads it. *)
From S2P Require Import Prelude Errors GoLib Event Bound.

Record Message `{UrlLib} := mkMessage {
  MsgID : string;
  Seq : Z;
  MsgMetadata : option Metadata;
  Data : option string;          (* None: a nil slice *)
  CreateTime : Z }.
#[global] Arguments mkMessage {_} _ _ _ _ _.

(** [time.Now()], which may read any later time than the call before it. *)
Class Host (W : Type) := now : M W Z.

(** [relay.Observer]: which callbacks are set. A callback runs synchronously
    and, by its contract, only records the values it is given. *)
Record Observer := mkObserver {
  hasOnDrained : bool; hasOnError : bool; hasOnSequenced : bool;
  hasOnSwept : bool; hasOnLeadership : bool }.

Inductive level := Info | Warn | LevelError.

Inductive ev `{UrlLib} :=
(* the sender and the poison handler *)
| ESend (ctx : cx) (m : Message) (r : error)
| ESendBatch (ctx : cx) (ms : list Message) (n : Z) (r : error)
| EPark (ctx : cx) (m : Message) (cause : err) (r : error)
(* the leader store *)
| EAcquire (ctx : cx) (r : bool + err)
| ERelease (ctx : cx) (r : error)
(* the sequenced log *)
| EOffset (r : (Z * bool) + err)
| EInitOffset (r : Z + err)
| EList (after : Z) (ms : list Message) (r : error)
| ECommit (ctx : cx) (seq : Z) (fenced : bool) (r : bool + err)
| ESequence (limit : Z) (r : Z + err)
| ESweep (limit : Z) (r : Z + err)
(* the change stream *)
| ELoadToken (r : (string * Z) + err)
| EWatch (token : string) (r : error)
| ENext (e : option (option Message * string * Z)) (ok : bool) (r : error)
| ESaveToken (ctx : cx) (token : string) (ct : Z) (r : bool + err)
| ECheckpoint (token : string) (ct : Z) (serverTime : bool)
| EClose (ctx : cx) (r : error)
(* signals *)
| EOnDrained (count age : Z) (more : bool)
| EOnError (e : err)
| EOnSequenced (count : Z)
| EOnSwept (count : Z)
| EOnLeadership (b : bool)
| ELog (l : level) (what : string).

(** Go's [(T, error)] results where the value is only meaningful without error. *)
Definition res (A : Type) : Type := A + err.
Definition resErr {A} (r : res A) : error := match r with inl _ => None | inr e => Some e end.

(** The messages a run disposed of: confirmed by the sender, or durably parked.
    A batch counts for as many messages as its sender confirmed, within the
    batch. *)
Definition clamp (n len : Z) : Z := Z.min (Z.max n 0) len.
Section disposed.
Context `{UrlLib}.
Definition disposed_ev (e : ev) : list Message :=
  match e with
  | ESend _ m None => [m]
  | ESendBatch _ ms n _ => ztake (clamp n (zlen ms)) ms
  | EPark _ m _ None => [m]
  | _ => []
  end.
Definition sent_ev (e : ev) : list Message :=
  match e with
  | ESend _ m None => [m]
  | ESendBatch _ ms n _ => ztake (clamp n (zlen ms)) ms
  | _ => []
  end.
Definition disposed (l : list ev) : list Message := l ≫= disposed_ev.
Definition sent_msgs (l : list ev) : list Message := l ≫= sent_ev.

Lemma disposed_app l k : disposed (l ++ k) = disposed l ++ disposed k.
Proof. apply bind_app. Qed.
Lemma sent_msgs_app l k : sent_msgs (l ++ k) = sent_msgs l ++ sent_msgs k.
Proof. apply bind_app. Qed.
Lemma disposed_nil : disposed [] = []. Proof. done. Qed.
Lemma disposed_cons e l : disposed (e :: l) = disposed_ev e ++ disposed l.
Proof. done. Qed.
Lemma sent_msgs_cons e l : sent_msgs (e :: l) = sent_ev e ++ sent_msgs l.
Proof. done. Qed.
End disposed.

Lemma clamp_bounds n len : 0 <= len → 0 <= clamp n len <= len.
Proof. unfold clamp. lia. Qed.

(** ** Reasoning about runs

    [del m s Q]: running [m] from [s] appends some events to the log, and [Q]
    holds of the result, those events and the state it ends in. *)
Class Traced `{UrlLib} (S : Type) := tr : S → list ev.
Definition del `{UrlLib} {S A} `{!Traced S} (m : M S A) (s : S)
    (Q : A → list ev → S → Prop) : Prop :=
  ∃ l, tr (m s).2 = tr s ++ l ∧ Q (m s).1 l (m s).2.

Section del.
Context `{UrlLib} {S : Type} `{!Traced S}.
Lemma del_ret {A} (a : A) s (Q : A → list ev → S → Prop) : Q a [] s → del (mret a) s Q.
Proof. intros HQ. exists []. by rewrite app_nil_r. Qed.
Lemma del_bind {A B} (m : M S A) (f : A → M S B) s Q :
  del m s (λ a l s', del (f a) s' (λ b k s'', Q b (l ++ k) s'')) → del (m ≫= f) s Q.
Proof.
  intros (l & Hl & k & Hk & HQ). exists (l ++ k). split; [|exact HQ].
  change ((m ≫= f) s) with (f (m s).1 (m s).2). by rewrite Hk, Hl, app_assoc.
Qed.
Lemma del_mono {A} (m : M S A) s (P Q : A → list ev → S → Prop) :
  del m s P → (∀ a l s', P a l s' → Q a l s') → del m s Q.
Proof. intros (l & Hl & HP) HPQ. exists l. auto. Qed.
Lemma del_skip s (Q : unit → list ev → S → Prop) : Q tt [] s → del skip s Q.
Proof. intros HQ. exists []. by rewrite app_nil_r. Qed.
Lemma del_gets {A} (f : S → A) s (Q : A → list ev → S → Prop) :
  Q (f s) [] s → del (gets f) s Q.
Proof. intros HQ. exists []. by rewrite app_nil_r. Qed.
Lemma del_elim {A} (m : M S A) s Q :
  del m s Q → ∃ l, tr (m s).2 = tr s ++ l ∧ Q (m s).1 l (m s).2.
Proof. done. Qed.
End del.

(** Step through a computation, by its head. *)
Ltac del_step :=
  lazymatch goal with
  | |- del (mbind _ _) _ _ => apply del_bind
  | |- del (mret _) _ _ => apply del_ret
  | |- del skip _ _ => apply del_skip
  | |- del (gets _) _ _ => apply del_gets
  end.
(** Continue after a call whose behaviour [lem] describes. *)
Tactic Notation "del_use" uconstr(lem) := eapply del_mono; [eapply lem|cbn beta].
