(* ===== verification/Json.v ===== *)
(** * encoding/json, as far as the repository uses it

    A JSON text is its value, [json]; a text that is no JSON is no value (the
    callers carry [option json]). Objects keep the order and the duplicates of
    their keys. Numbers are the integer, or the floating-point value, whose
    decimal form the text is. *)
From S2P Require Import Prelude Errors GoLib.
From Stdlib Require Import SpecFloat.
From stdpp Require Import sorting.
#[local] Open Scope Z_scope.

Unset Elimination Schemes.
Inductive json :=
| JNull
| JBool (b : bool)
| JInt (z : Z)
| JFloat64 (f : spec_float)
| JFloat32 (f : spec_float)
| JStr (s : string)
| JArr (l : list json)
| JObj (l : list (string * json)).
Set Elimination Schemes.

(** ** Strings: invalid UTF-8 becomes U+FFFD, byte by byte *)
Definition inr_ (lo hi : Z) (c : ascii) : bool := (lo <=? byte c) && (byte c <=? hi).
Definition cont : ascii → bool := inr_ 0x80 0xBF.
Definition utf8_2 (a b : ascii) : bool := inr_ 0xC2 0xDF a && cont b.
Definition utf8_3 (a b c : ascii) : bool :=
  ((inr_ 0xE0 0xE0 a && inr_ 0xA0 0xBF b) || (inr_ 0xED 0xED a && inr_ 0x80 0x9F b)
   || ((inr_ 0xE1 0xEC a || inr_ 0xEE 0xEF a) && cont b)) && cont c.
Definition utf8_4 (a b c d : ascii) : bool :=
  ((inr_ 0xF0 0xF0 a && inr_ 0x90 0xBF b) || (inr_ 0xF4 0xF4 a && inr_ 0x80 0x8F b)
   || (inr_ 0xF1 0xF3 a && cont b)) && cont c && cont d.
Definition replacement : string := bytes [0xEF; 0xBF; 0xBD].

Fixpoint coerce (s : string) : string :=
  match s with
  | EmptyString => EmptyString
  | String a s1 =>
      if byte a <? 0x80 then String a (coerce s1) else
      match s1 with
      | EmptyString => replacement
      | String b s2 =>
          if utf8_2 a b then String a (String b (coerce s2)) else
          match s2 with
          | EmptyString => replacement +:+ coerce s1
          | String c s3 =>
              if utf8_3 a b c then String a (String b (String c (coerce s3))) else
              match s3 with
              | EmptyString => replacement +:+ coerce s1
              | String d s4 =>
                  if utf8_4 a b c d then String a (String b (String c (String d (coerce s4))))
                  else replacement +:+ coerce s1
              end
          end
      end
  end.
Definition Valid (s : string) : Prop := coerce s = s.

(** ** Numbers: every JSON number is read as a float64 *)
Definition float64_of_Z (z : Z) : spec_float := binary_normalize 53 1024 z 0 false.
Definition is_finite (f : spec_float) : bool :=
  match f with S754_infinity _ | S754_nan => false | _ => true end.
(** The integer a finite float denotes, when it denotes one. *)
Definition Z_of_float (f : spec_float) : option Z :=
  match f with
  | S754_zero _ => Some 0
  | S754_finite s m e =>
      let v := if Z.leb 0 e then Some (Z.pos m * 2 ^ e)
               else if Z.eqb (Z.pos m mod 2 ^ (- e)) 0 then Some (Z.pos m / 2 ^ (- e)) else None in
      (if s then Z.opp else id) <$> v
  | _ => None
  end.

(** ** base64.StdEncoding *)
Definition b64char (n : Z) : ascii :=
  ascii_of_nat (Z.to_nat (if n <? 26 then 65 + n else if n <? 52 then 71 + n
    else if n <? 62 then n - 4 else if n =? 62 then 43 else 47)).
Fixpoint base64 (s : string) : string :=
  match s with
  | EmptyString => EmptyString
  | String a EmptyString =>
      let v := byte a * 16 in
      String (b64char (v / 64)) (String (b64char (v mod 64)) "==")
  | String a (String b EmptyString) =>
      let v := (byte a * 256 + byte b) * 4 in
      String (b64char (v / 4096)) (String (b64char (v / 64 mod 64)) (String (b64char (v mod 64)) "="))
  | String a (String b (String c s)) =>
      let v := (byte a * 256 + byte b) * 256 + byte c in
      String (b64char (v / 262144)) (String (b64char (v / 4096 mod 64))
        (String (b64char (v / 64 mod 64)) (String (b64char (v mod 64)) (base64 s))))
  end.

(** ** What the package takes from the rest of the library

    The text of a time (RFC 3339, years 0 to 9999), the float64 next to the
    shortest decimal form of a float32, and how values of further types
    marshal. *)
Definition day : Z := 86400 * 10^9.
Definition year_ok (t : Z) : bool := (- 366 * day <=? t) && (t <? 3652059 * day).
Class GoJson := {
  rfc3339 : Z → string;
  parse3339 : string → Z + err;
  widen32 : spec_float → spec_float;   (* every float32 is in the range of float64 *)
  widen32_finite f : is_finite f = true → is_finite (widen32 f) = true;
  marshalOther : string → json + err;
  parse_format t : year_ok t = true → parse3339 (rfc3339 t) = inl t;
  parse_empty t : parse3339 "" ≠ inl t }.

(** ** Marshalling of [any] *)
Definition sorted_keys {A} (l : list (string * A)) : list (string * A) :=
  merge_sort (λ x y, Is_true (String.leb x.1 y.1)) l.

Section marshal.
Context `{GoJson}.

Definition marshalFloat (mk : spec_float → json) (f : spec_float) : json + err :=
  if is_finite f then inl (mk f) else inr (New "json: unsupported value").
Definition marshalTime (t : Z) : json + err :=
  if year_ok t then inl (JStr (rfc3339 t))
  else inr (New "Time.MarshalJSON: year outside of range [0,9999]").

Fixpoint marshal (v : goval) : json + err :=
  match v with
  | GString s => inl (JStr (coerce s))
  | GBool b => inl (JBool b)
  | GInt z | GInt8 z | GInt16 z | GInt32 z | GInt64 z
  | GUint8 z | GUint16 z | GUint32 z | GUint64 z => inl (JInt z)
  | GFloat32 f => marshalFloat JFloat32 f
  | GFloat64 f => marshalFloat JFloat64 f
  | GBytes b => inl (JStr (base64 b))
  | GTime t => marshalTime t
  | GNil => inl JNull
  | GOther ty => marshalOther ty
  | GList l =>
      let fix go (l : list goval) : list json + err :=
        match l with
        | [] => inl []
        | v :: l =>
            match marshal v with
            | inr e => inr e
            | inl j => match go l with inr e => inr e | inl js => inl (j :: js) end
            end
        end in
      match go l with inr e => inr e | inl js => inl (JArr js) end
  | GTable l =>
      let fix go (l : list (string * goval)) : list (string * json) + err :=
        match l with
        | [] => inl []
        | (k, v) :: l =>
            match marshal v with
            | inr e => inr e
            | inl j => match go l with inr e => inr e | inl js => inl ((coerce k, j) :: js) end
            end
        end in
      match go l with inr e => inr e | inl js => inl (JObj (sorted_keys js)) end
  end.

(** A Go map with string keys: sorted by key; nil is null. *)
Fixpoint marshalEntries (l : list (string * goval)) : list (string * json) + err :=
  match l with
  | [] => inl []
  | (k, v) :: l =>
      match marshal v with
      | inr e => inr e
      | inl j =>
          match marshalEntries l with inr e => inr e | inl js => inl ((coerce k, j) :: js) end
      end
  end.
Definition marshalMap (m : option (gmap string goval)) : json + err :=
  match m with
  | None => inl JNull
  | Some m =>
      match marshalEntries (sorted_keys (map_to_list m)) with
      | inr e => inr e
      | inl js => inl (JObj js)
      end
  end.

(** ** Unmarshalling *)
Definition typeError (what : string) : err := New ("json: cannot unmarshal into Go value " +:+ what).

(** A number as a float64; out of its range it is an error. *)
Definition toFloat64 (f : spec_float) : goval + err :=
  if is_finite f then inl (GFloat64 f) else inr (typeError "number").

(** Storing a key of an object into a map keeps the last value. *)
Fixpoint tset (k : string) (v : goval) (l : list (string * goval)) : list (string * goval) :=
  match l with
  | [] => [(k, v)]
  | (k', v') :: l => if String.eqb k k' then (k, v) :: l else (k', v') :: tset k v l
  end.

(** Into [any]. *)
Fixpoint unmarshalAny (j : json) : goval + err :=
  match j with
  | JNull => inl GNil
  | JBool b => inl (GBool b)
  | JInt z => toFloat64 (float64_of_Z z)
  | JFloat64 f => toFloat64 f
  | JFloat32 f => toFloat64 (widen32 f)
  | JStr s => inl (GString s)
  | JArr l =>
      let fix go (l : list json) : list goval + err :=
        match l with
        | [] => inl []
        | j :: l =>
            match unmarshalAny j with
            | inr e => inr e
            | inl v => match go l with inr e => inr e | inl vs => inl (v :: vs) end
            end
        end in
      match go l with inr e => inr e | inl vs => inl (GList vs) end
  | JObj l =>
      let fix go (l : list (string * json)) (acc : list (string * goval)) :=
        match l with
        | [] => inl acc
        | (k, j) :: l =>
            match unmarshalAny j with inr e => inr e | inl v => go l (tset k v acc) end
        end in
      match go l [] with inr e => inr e | inl vs => inl (GTable vs) end
  end.

(** Into a struct's field: null leaves a string or a time as it is, and an
    object is added to the map already there. *)
Definition intoString (old : string) (j : json) : string + err :=
  match j with JNull => inl old | JStr s => inl s | _ => inr (typeError "string") end.
Definition intoTime (old : Z) (j : json) : Z + err :=
  match j with
  | JNull => inl old
  | JStr s => parse3339 s
  | _ => inr (New "Time.UnmarshalJSON: input is not a JSON string")
  end.
Fixpoint intoEntries (m : gmap string goval) (l : list (string * json)) :
    gmap string goval + err :=
  match l with
  | [] => inl m
  | (k, j) :: l =>
      match unmarshalAny j with inr e => inr e | inl v => intoEntries (<[k := v]> m) l end
  end.
Definition intoMap (old : option (gmap string goval)) (j : json) :
    option (gmap string goval) + err :=
  match j with
  | JNull => inl None
  | JObj l => match intoEntries (default ∅ old) l with inr e => inr e | inl m => inl (Some m) end
  | _ => inr (typeError "map")
  end.
End marshal.

(** *** Field names: exact first, then up to case folding *)
Fixpoint foldName (s : string) : string :=
  match s with
  | EmptyString => EmptyString
  | String a s1 =>
      let plain := String (lower_byte a) (foldName s1) in
      match s1 with
      | String b s2 =>
          (* U+017F folds to s, U+212A to k *)
          if (byte a =? 0xC5) && (byte b =? 0xBF) then String "s" (foldName s2) else
          match s2 with
          | String c s3 =>
              if (byte a =? 0xE2) && (byte b =? 0x84) && (byte c =? 0xAA)
              then String "k" (foldName s3) else plain
          | EmptyString => plain
          end
      | EmptyString => plain
      end
  end.
Definition field (names : list string) (k : string) : option string :=
  if existsb (String.eqb k) names then Some k
  else List.find (λ n, String.eqb (foldName n) (foldName k)) names.

(** ** Integers up to 2^53 are exact in a float64 *)
Lemma digits2_size p : digits2_pos p = Pos.size p.
Proof. induction p; simpl; congruence. Qed.
Lemma size_bound p n : 0 < n → Z.pos p < 2 ^ n → Z.pos (Pos.size p) <= n.
Proof.
  intros Hn Hp. pose proof (Pos.size_le p) as Hle.
  assert (2 ^ Z.pos (Pos.size p) <= 2 * Z.pos p) as Hz.
  { change (2 * Z.pos p) with (Z.pos (p~0)). rewrite <-(Pos2Z.inj_pow 2). exact Hle. }
  assert (2 ^ Z.pos (Pos.size p) < 2 ^ (n + 1)) as Hlt.
  { rewrite Z.pow_add_r by lia. lia. }
  apply Z.pow_lt_mono_r_iff in Hlt; lia.
Qed.
Definition shift_pos (n p : positive) : positive := Pos.iter xO p n.
Lemma size_shift_pos n p : Z.pos (Pos.size (shift_pos n p)) = Z.pos (Pos.size p) + Z.pos n.
Proof.
  unfold shift_pos. induction n as [|n IH] using Pos.peano_ind; [simpl; lia|].
  rewrite Pos.iter_succ. simpl Pos.size. lia.
Qed.
Lemma shift_pos_val n p : Z.pos (shift_pos n p) = Z.pos p * 2 ^ Z.pos n.
Proof.
  unfold shift_pos. induction n as [|n IH] using Pos.peano_ind; [simpl; lia|].
  rewrite Pos.iter_succ, Pos2Z.inj_xO, IH, Pos2Z.inj_succ, Z.pow_succ_r by lia. lia.
Qed.
Lemma shr_fexp_id m e :
  Z.pos (Pos.size m) = 53 → -1074 <= e →
  shr_fexp 53 1024 (Z.pos m) e loc_Exact = (Build_shr_record (Z.pos m) false false, e).
Proof.
  intros Hm He. unfold shr_fexp. simpl Zdigits2. rewrite digits2_size, Hm.
  unfold fexp, emin. replace (Z.max _ _ - e) with 0 by lia. done.
Qed.

(** The float64 of a positive below 2^53 is its 53-bit mantissa, shifted back. *)
Lemma binary_round_small s p :
  Z.pos p < 2 ^ 53 →
  ∃ m e, binary_round 53 1024 s p 0 = S754_finite s m e ∧ e <= 0 ∧ Z.pos m = Z.pos p * 2 ^ (- e).
Proof.
  intros Hp. pose proof (size_bound p 53 ltac:(lia) Hp) as Hd.
  pose proof (Pos2Z.is_pos (Pos.size p)).
  assert (Hal : ∃ m e, shl_align p 0 (fexp 53 1024 (Z.pos (digits2_pos p) + 0)) = (m, e) ∧ -1074 <= e <= 0 ∧
            Z.pos (Pos.size m) = 53 ∧ Z.pos m = Z.pos p * 2 ^ (- e)).
  { unfold shl_align, fexp, emin. rewrite digits2_size.
    replace (Z.max _ _ - 0) with (Z.pos (Pos.size p) - 53) by lia.
    replace (Z.max _ _) with (Z.pos (Pos.size p) - 53) by lia.
    destruct (Z.pos (Pos.size p) - 53) as [|q|q] eqn:E; [|lia|].
    - exists p, 0. split_and!; [done|lia..|]. by rewrite Z.mul_1_r.
    - exists (shift_pos q p), (Z.neg q). split_and!; [done|lia|lia|rewrite size_shift_pos; lia|].
      rewrite shift_pos_val. done. }
  destruct Hal as (m & e & Heq & He & Hm & Hv).
  exists m, e. split_and!; [|lia|done].
  unfold binary_round. rewrite Heq. unfold binary_round_aux.
  rewrite shr_fexp_id by lia. simpl round_nearest_even. rewrite shr_fexp_id by lia.
  cbn [shr_m]. by replace (e <=? 1024 - 53) with true by lia.
Qed.

(** Within the bound the envelope enforces, an integer is read back exactly. *)
Lemma float64_exact z : - 2 ^ 53 <= z <= 2 ^ 53 →
  is_finite (float64_of_Z z) = true ∧ Z_of_float (float64_of_Z z) = Some z.
Proof.
  intros Hz. destruct (decide (z = 2 ^ 53)) as [->|]; [done|].
  destruct (decide (z = - 2 ^ 53)) as [->|]; [done|].
  assert (Hpos : ∀ s p, Z.pos p < 2 ^ 53 →
    is_finite (binary_round 53 1024 s p 0) = true ∧
    Z_of_float (binary_round 53 1024 s p 0) = Some ((if s then Z.opp else id) (Z.pos p))).
  { intros s p Hp. destruct (binary_round_small s p Hp) as (m & e & -> & He & Hm).
    split; [done|]. unfold Z_of_float. destruct (Z.leb_spec 0 e) as [H0|Hneg].
    - assert (e = 0) as -> by lia. rewrite Hm. simpl. do 2 f_equal. lia.
    - rewrite Hm, Z.mod_mul, Z.div_mul by lia. done. }
  unfold float64_of_Z, binary_normalize. destruct z as [|p|p]; [done| |].
  - apply (Hpos false p). lia.
  - apply (Hpos true p). lia.
Qed.
