(* ===== verification/Envelope.v ===== *)
(** * The persisted envelope and the outbox sender

    The JSON codec of [event.Metadata] (pkg/event/metadata.go), the outbox's
    persistence contract (pkg/transport/outbox/envelope.go) and its sender
    (sender.go). A stored document is [option json]: [None] is a text that is
    no JSON. *)
From S2P Require Import Prelude Errors GoLib Event Json Bound Relay.
From stdpp Require Import sorting.
#[local] Open Scope Z_scope.

(** ** Metadata.MarshalJSON and UnmarshalJSON *)

(** What decoding the struct form of a [url.URL] yields, and its [User] field. *)
Class UrlStruct `{UrlLib} := {
  url_unmarshal : json → url + err;
  url_User : url → option string;
  url_dropUser : url → url }.

(** The read shape; the write shape has the schema as a string. *)
Record metadataJSON := mkMetadataJSON {
  in_SpecVersion : string; in_Type : string; in_Source : string; in_Subject : string;
  in_ID : string; in_Time : Z; in_Extensions : option (gmap string goval);
  in_DataSchema : option json; in_DataContentType : string }.

Definition fieldNames : list string :=
  ["SpecVersion"; "Type"; "Source"; "Subject"; "ID"; "Time"; "Extensions"; "DataSchema";
   "DataContentType"]%string.

Section codec.
Context `{UrlStruct} `{GoJson}.

Definition schemaURI (schema : option url) : string + err :=
  match schema with
  | None => inl ""%string
  | Some u =>
      let uri := url_String u in
      if String.eqb uri "" then inl uri
      else match url_Parse uri with
           | inr e => inr (wrapf "event: DataSchema does not round-trip through url.Parse" e)
           | inl parsed => inl (url_String parsed)
           end
  end.

Definition MarshalJSON (m : Metadata) : json + err :=
  ebind (schemaURI (DataSchema m)) (λ schema,
  ewrap "event: marshal metadata"
    (ebind (marshalTime (Time m)) (λ time,
     ebind (marshalMap (Extensions m)) (λ ext,
     let str k s := (k%string, JStr (coerce s)) in
     inl (JObj ([str "SpecVersion" (SpecVersion m); str "Type" (Type_ m);
                 str "Source" (Source m); str "Subject" (Subject m);
                 str "ID" (ID m); ("Time"%string, time); ("Extensions"%string, ext)]
                ++ (if String.eqb schema "" then [] else [str "DataSchema" schema])
                ++ [str "DataContentType" (DataContentType m)])))))).

(** One key of the object into the read shape; unknown keys are skipped. *)
Definition readField (d : metadataJSON) (k : string) (j : json) : metadataJSON + err :=
  let '(mkMetadataJSON sv ty src sub id t ext sch dct) := d in
  match field fieldNames k with
  | Some "SpecVersion" => emap (λ x, mkMetadataJSON x ty src sub id t ext sch dct) (intoString sv j)
  | Some "Type" => emap (λ x, mkMetadataJSON sv x src sub id t ext sch dct) (intoString ty j)
  | Some "Source" => emap (λ x, mkMetadataJSON sv ty x sub id t ext sch dct) (intoString src j)
  | Some "Subject" => emap (λ x, mkMetadataJSON sv ty src x id t ext sch dct) (intoString sub j)
  | Some "ID" => emap (λ x, mkMetadataJSON sv ty src sub x t ext sch dct) (intoString id j)
  | Some "Time" => emap (λ x, mkMetadataJSON sv ty src sub id x ext sch dct) (intoTime t j)
  | Some "Extensions" => emap (λ x, mkMetadataJSON sv ty src sub id t x sch dct) (intoMap ext j)
  | Some "DataSchema" => inl (mkMetadataJSON sv ty src sub id t ext (Some j) dct)
  | Some "DataContentType" => emap (λ x, mkMetadataJSON sv ty src sub id t ext sch x) (intoString dct j)
  | _ => inl d
  end%string.
Fixpoint readFields (d : metadataJSON) (l : list (string * json)) : metadataJSON + err :=
  match l with
  | [] => inl d
  | (k, j) :: l => ebind (readField d k j) (λ d, readFields d l)
  end.

Definition decodeDataSchema (raw : option json) : option url + err :=
  match raw with
  | None | Some JNull => inl None
  | Some (JStr s) =>
      if String.eqb s "" then inl None
      else emap Some (ewrap "event: parse dataschema" (url_Parse s))
  | Some j =>
      ebind (ewrap "event: unmarshal legacy dataschema" (url_unmarshal j)) (λ legacy,
      let legacy :=
        match url_User legacy with
        | Some u => if String.eqb u "" then url_dropUser legacy else legacy
        | None => legacy
        end in
      inl (if url_isZero legacy then None else Some legacy))
  end.

Definition UnmarshalJSON (b : json) : Metadata + err :=
  ebind (ewrap "event: unmarshal metadata"
    (let zero := mkMetadataJSON "" "" "" "" "" 0 None None "" in
     match b with
     | JNull => inl zero
     | JObj l => readFields zero l
     | _ => inr (typeError "event.metadataJSON")
     end)) (λ d,
  ebind (decodeDataSchema (in_DataSchema d)) (λ schema,
  inl (mkMetadata (in_SpecVersion d) (in_Type d) (in_Source d) (in_Subject d) (in_ID d)
         (in_Time d) (in_Extensions d) schema (in_DataContentType d)))).

(** ** envelope.go *)
Definition MarshalMetadata (md : option Metadata) : json + err :=
  ewrap "outbox: marshal metadata"
    (match md with None => inl JNull | Some m => MarshalJSON m end).

Definition poison (cause : list err) : err :=
  Errorf "outbox: persisted metadata" (Sentinel ErrPoisonEnvelope :: cause).
Definition UnmarshalMetadata (b : option json) : Metadata + err :=
  match b with
  | None => inr (poison [New "json: syntax error"])
  | Some JNull => inr (poison [])
  | Some j =>
      match UnmarshalJSON j with
      | inr e => inr (poison [e])
      | inl md => if Time md =? 0 then inr (poison []) else inl md
      end
  end.

Definition maxExactEnvelopeInt : Z := Z.shiftl 1 53.
Definition exactInEnvelope (v : goval) : error :=
  match v with
  | GInt64 n =>
      if (maxExactEnvelopeInt <? n) || (n <? - maxExactEnvelopeInt)
      then Some (New "int64 value cannot survive the outbox envelope; carry it as a string")
      else None
  | _ => None
  end.
Definition validExtension (v : goval) : error :=
  match ValidExtensionValue v with Some e => Some e | None => exactInEnvelope v end.

Definition checkExtension (k : string) (v : goval) : error :=
  if ReservedExtensionName k
  then Some (New "outbox: extension collides with a core CloudEvents attribute")
  else if ShortStrTooLong k then Some (New "outbox: extension name over the AMQP limit")
  else wrapf "outbox: extension" <$> validExtension v.
(** The loop over the map, in whatever order it is visited. *)
Fixpoint checkExtensions (l : list (string * goval)) : error :=
  match l with
  | [] => None
  | (k, v) :: l =>
      match checkExtension k v with Some e => Some e | None => checkExtensions l end
  end.
Definition ValidateMetadata (md : option Metadata) : error :=
  match md with
  | None => Some (New "outbox: message metadata is nil")
  | Some md =>
      if Time md =? 0 then Some (New "outbox: message metadata time is zero") else
      match SplitType (Type_ md) with
      | inr e => Some (wrapf "outbox: message metadata type" e)
      | inl _ =>
          if ShortStrTooLong (Type_ md)
          then Some (New "outbox: message metadata type over the AMQP limit")
          else checkExtensions (map_to_list (default ∅ (Extensions md)))
      end
  end.
End codec.

Definition MaxInstancePrefixLen : Z := 40.
Definition is_letter (c : ascii) : bool := inr_ 65 90 c || inr_ 97 122 c.
Definition is_word (c : ascii) : bool := is_letter c || inr_ 48 57 c || (byte c =? 95).
(** [^[A-Za-z][A-Za-z0-9_]*$] *)
Definition instancePrefixPattern (s : string) : bool :=
  match s with EmptyString => false | String c s => is_letter c && sforall is_word s end.
Definition ValidateInstancePrefix (prefix : string) : error :=
  if String.eqb prefix "" then Some (New "outbox: prefix must not be empty")
  else if MaxInstancePrefixLen <? len prefix then Some (New "outbox: prefix exceeds the limit")
  else if negb (instancePrefixPattern prefix)
  then Some (New "outbox: prefix is not a valid identifier fragment")
  else None.

(** ** sender.go *)
Section sender.
Context `{UrlLib} {W : Type} `{Host W}.

Definition RowIDGenerator : Type := Metadata → M W (string + err).
(** [newRandom] is github.com/google/uuid's [NewRandom], as text. *)
Definition GenerateUUIDv4 (newRandom : M W (string + err)) : RowIDGenerator := λ _,
  r ← newRandom;
  mret (ewrap "outbox: generate uuid v4 row id" (r : string + err)).
Definition ReuseMetadataID : RowIDGenerator := λ md,
  mret (inl (ID md)).
Definition senderOptions : Type := RowIDGenerator.
Definition defaultSenderOptions : senderOptions := ReuseMetadataID.
Definition WithRowIDGenerator (gen : option RowIDGenerator) (o : senderOptions) : senderOptions :=
  match gen with Some gen => gen | None => o end.

(** outbox.Store *)
Definition OutboxStore : Type := cx → Message → M W error.
Record Sender := mkSender { store : OutboxStore; idGenerator : senderOptions }.
Definition NewSender (store : OutboxStore) (opts : list (senderOptions → senderOptions)) : Sender :=
  mkSender store (foldl (λ o opt, opt o) defaultSenderOptions opts).

Definition SenderSend (s : Sender) (ctx : cx) (metadata : option Metadata)
    (data : option string) : M W error :=
  match metadata with
  | None => mret (Some (New "outbox: metadata must not be nil"))
  | Some md =>
      r ← idGenerator s md;
      match r : string + err with
      | inr e => mret (Some e)
      | inl id =>
          if String.eqb id ""
          then mret (Some (New "outbox: row ID generator returned an empty ID"))
          else t ← now; store s ctx (mkMessage id 0 metadata data t)
      end
  end.
End sender.

(** ** What survives the envelope *)
#[local] Arguments coerce : simpl never.
Section facts.
Context `{UrlStruct} `{GoJson}.

(** The range of the Go type a value has. *)
Definition typed (v : goval) : bool :=
  let rng lo hi z := (lo <=? z) && (z <=? hi) in
  match v with
  | GInt8 z => rng (- 2^7) (2^7 - 1) z
  | GInt16 z => rng (- 2^15) (2^15 - 1) z
  | GInt32 z => rng (- 2^31) (2^31 - 1) z
  | GInt z | GInt64 z => rng (- 2^63) (2^63 - 1) z
  | GUint8 z => rng 0 (2^8 - 1) z
  | GUint16 z => rng 0 (2^16 - 1) z
  | GUint32 z => rng 0 (2^32 - 1) z
  | GUint64 z => rng 0 (2^64 - 1) z
  | _ => true
  end.
(** Values with a JSON text that reads back: well-formed strings, finite
    floats, times of a four-digit year. *)
Definition textual (v : goval) : Prop :=
  match v with
  | GString s => Valid s
  | GFloat32 f | GFloat64 f => is_finite f = true
  | GTime t => year_ok t = true
  | _ => True
  end.
(** The value a reader of the row gets for a value written. *)
Definition read_back (v : goval) : goval :=
  match v with
  | GInt z | GInt8 z | GInt16 z | GInt32 z | GInt64 z
  | GUint8 z | GUint16 z | GUint32 z | GUint64 z => GFloat64 (float64_of_Z z)
  | GFloat32 f => GFloat64 (widen32 f)
  | GBytes b => GString (base64 b)
  | GTime t => GString (rfc3339 t)
  | v => v
  end.

Lemma maxExact : maxExactEnvelopeInt = 2 ^ 53. Proof. reflexivity. Qed.

Lemma read_int z : - 2^53 <= z <= 2^53 →
  toFloat64 (float64_of_Z z) = inl (GFloat64 (float64_of_Z z)).
Proof. intros Hz. unfold toFloat64. by rewrite (proj1 (float64_exact z Hz)). Qed.

(** An extension value publish-time validation accepts is written, and read
    back as [read_back] says. *)
Lemma marshal_read v :
  typed v = true → validExtension v = None → textual v →
  ∃ j, marshal v = inl j ∧ unmarshalAny j = inl (read_back v).
Proof.
  intros Ht Hv Hx. unfold validExtension, exactInEnvelope in Hv. rewrite maxExact in Hv.
  unfold ValidExtensionValue, MaxInt32, MinInt32 in Hv.
  destruct v as [s|b|z|z|z|z|z|z|z|z|z|f|f|b|t| | | |]; simpl in *; try done;
    try (eexists; split; [reflexivity|]; simpl; apply read_int;
         repeat case_match; try discriminate; zbool; lia).
  - rewrite Hx. eauto.
  - eauto.
  - unfold marshalFloat. rewrite Hx. eexists; split; [done|]. simpl. unfold toFloat64.
    by rewrite (widen32_finite _ Hx).
  - unfold marshalFloat. rewrite Hx. eexists; split; [done|]. simpl. unfold toFloat64. by rewrite Hx.
  - eauto.
  - unfold marshalTime. rewrite Hx. eauto.
Qed.

Definition carried_entry (kv : string * goval) : Prop :=
  Valid kv.1 ∧ typed kv.2 = true ∧ validExtension kv.2 = None ∧ textual kv.2.
Lemma marshalEntries_read l m :
  Forall carried_entry l →
  ∃ js, marshalEntries l = inl js ∧
    intoEntries m js = inl (foldl (λ m kv, <[kv.1 := read_back kv.2]> m) m l).
Proof.
  intros Hl. revert m. induction Hl as [|[k v] l (Hk & Ht & Hv & Hx) _ IH]; intros m; simpl.
  - eauto.
  - destruct (marshal_read v Ht Hv Hx) as (j & Hj & Hu).
    destruct (IH (<[k := read_back v]> m)) as (js & Hjs & Hm).
    simpl in *. rewrite Hj, Hjs. eexists. split; [reflexivity|]. simpl. rewrite Hu, Hk. done.
Qed.

Lemma foldl_inserts (f : goval → goval) (l : list (string * goval)) (m : gmap string goval) :
  NoDup l.*1 → (∀ k, k ∈ l.*1 → m !! k = None) →
  foldl (λ m kv, <[kv.1 := f kv.2]> m) m l = list_to_map (prod_map id f <$> l) ∪ m.
Proof.
  revert m. induction l as [|[k v] l IH]; simpl; intros m Hnd Hm.
  - by rewrite (left_id_L ∅ (∪)).
  - apply NoDup_cons in Hnd as [Hk Hnd]. rewrite IH; [|done|].
    + rewrite <-insert_union_l. symmetry. apply insert_union_r, not_elem_of_list_to_map_1.
      contradict Hk. by rewrite <-list_fmap_compose in Hk.
    + intros i Hi. rewrite lookup_insert_ne; [|by intros ->]. apply Hm. by right.
Qed.

Lemma marshalMap_read (ext : option (gmap string goval)) :
  map_Forall (λ k v, carried_entry (k, v)) (default ∅ ext) →
  ∃ j, marshalMap ext = inl j ∧ intoMap None j = inl ((λ m : gmap string goval, read_back <$> m) <$> ext).
Proof.
  destruct ext as [m|]; simpl; intros Hm; [|by exists JNull].
  set (l := sorted_keys (map_to_list m)).
  assert (Hp : l ≡ₚ map_to_list m) by apply merge_sort_Permutation.
  assert (Hnd : NoDup l.*1) by (rewrite Hp; apply NoDup_fst_map_to_list).
  assert (Hl : Forall carried_entry l).
  { rewrite Hp. apply Forall_forall. intros [k v] Hkv%elem_of_map_to_list. by apply Hm. }
  destruct (marshalEntries_read l ∅ Hl) as (js & Hjs & Hr).
  rewrite Hjs. eexists. split; [done|]. simpl. rewrite Hr. do 2 f_equal.
  rewrite foldl_inserts by (done || (intros; apply lookup_empty)).
  rewrite (right_id_L ∅ (∪)). rewrite list_to_map_fmap. f_equal.
  rewrite (list_to_map_proper _ (map_to_list m)) by done. apply list_to_map_to_list.
Qed.

(** ** Validation *)
Lemma checkExtensions_ok l :
  checkExtensions l = None ↔ Forall (λ kv, checkExtension kv.1 kv.2 = None) l.
Proof.
  induction l as [|[k v] l IH]; simpl; [done|]. rewrite Forall_cons. simpl.
  destruct (checkExtension k v); [by split; [|intros [? _]]|]. rewrite IH. naive_solver.
Qed.
Lemma checkExtension_ok k v :
  checkExtension k v = None ↔
  ReservedExtensionName k = false ∧ ShortStrTooLong k = false ∧ validExtension v = None.
Proof.
  unfold checkExtension. destruct (ReservedExtensionName k), (ShortStrTooLong k),
    (validExtension v); simpl; naive_solver.
Qed.
Lemma ValidateMetadata_ok md :
  ValidateMetadata (Some md) = None ↔
  Time md ≠ 0 ∧ (∃ sn, SplitType (Type_ md) = inl sn) ∧ len (Type_ md) <= MaxShortStrLen ∧
  map_Forall (λ k v, ReservedExtensionName k = false ∧ len k <= MaxShortStrLen ∧
                     validExtension v = None) (default ∅ (Extensions md)).
Proof.
  assert (Hlen : ∀ s, ShortStrTooLong s = false ↔ len s <= MaxShortStrLen).
  { intros s. unfold ShortStrTooLong. rewrite Z.ltb_ge. done. }
  assert (Hm : checkExtensions (map_to_list (default ∅ (Extensions md))) = None ↔
    map_Forall (λ k v, ReservedExtensionName k = false ∧ len k <= MaxShortStrLen ∧
                     validExtension v = None) (default ∅ (Extensions md))).
  { rewrite checkExtensions_ok, map_Forall_to_list. apply Forall_proper; [|done].
    intros [k v]. unfold uncurry. simpl. by rewrite checkExtension_ok, Hlen. }
  unfold ValidateMetadata. rewrite <-Hm, <-Hlen.
  destruct (Z.eqb_spec (Time md) 0); [naive_solver|].
  destruct (SplitType (Type_ md)) as [sn|]; [|naive_solver].
  destruct (ShortStrTooLong (Type_ md)); naive_solver.
Qed.

(** ** Round trip *)

(** Metadata with a textual form in every field. *)
Record carried (md : Metadata) : Prop := {
  ca_strings : Forall Valid [SpecVersion md; Type_ md; Source md; Subject md; ID md;
                             DataContentType md];
  ca_time : year_ok (Time md) = true;
  ca_ext : map_Forall (λ k v, Valid k ∧ typed v = true ∧ textual v)
             (default ∅ (Extensions md)) }.

(** What a schema is to be stored as: the text of the URL its own text parses
    to, and nothing for a schema without a text. *)
Definition canonical_text (schema : option url) : option string :=
  u ← schema;
  if decide (url_String u = ""%string) then None
  else match url_Parse (url_String u) with
       | inl q => if decide (url_String q = ""%string) then None else Some (url_String q)
       | inr _ => None
       end.
(** The schema a reader of the row is to get: the parse of that text. *)
Definition stored_schema (schema : option url) : option url :=
  t ← canonical_text schema;
  match url_Parse t with inl p => Some p | inr _ => None end.
(** A schema with a canonical text: its own text parses, and so does the text
    of what it parses to. *)
Definition parseable (schema : option url) : Prop :=
  ∀ u, schema = Some u → url_String u ≠ ""%string →
    ∃ q, url_Parse (url_String u) = inl q ∧ Valid (url_String q) ∧
      (url_String q ≠ ""%string → ∃ p, url_Parse (url_String q) = inl p).
Lemma schemaURI_canonical schema :
  parseable schema →
  schemaURI schema = inl (default ""%string (canonical_text schema)) ∧
  match canonical_text schema with
  | Some t => t ≠ ""%string ∧ Valid t ∧ ∃ p, url_Parse t = inl p ∧ stored_schema schema = Some p
  | None => stored_schema schema = None
  end.
Proof.
  unfold parseable, schemaURI, stored_schema, canonical_text. destruct schema as [u|]; simpl; [|done].
  intros Hp. destruct (decide (url_String u = ""%string)) as [E|E]; [by rewrite E|].
  destruct (Hp u eq_refl E) as (q & Hq & Hv & Hpq). rewrite (proj2 (String.eqb_neq _ _) E), Hq.
  destruct (decide (url_String q = ""%string)) as [Eq|Eq]; [by rewrite Eq|]. simpl.
  destruct (Hpq Eq) as [p Hpp]. split_and!; try done. exists p. by rewrite Hpp.
Qed.

Definition stored (md : Metadata) : Metadata :=
  mkMetadata (SpecVersion md) (Type_ md) (Source md) (Subject md) (ID md) (Time md)
    ((λ m : gmap string goval, read_back <$> m) <$> Extensions md)
    (stored_schema (DataSchema md)) (DataContentType md).

Lemma MarshalJSON_read md j :
  carried md → parseable (DataSchema md) →
  map_Forall (λ _ v, validExtension v = None) (default ∅ (Extensions md)) →
  MarshalJSON md = inl j → UnmarshalJSON j = inl (stored md).
Proof.
  intros [Hs Ht He] Hp Hx Hj. apply schemaURI_canonical in Hp as [Huri Hp].
  destruct (marshalMap_read (Extensions md)) as (je & Hje & Hre).
  { intros k v Hkv. destruct (He k v Hkv) as (?&?&?). specialize (Hx k v Hkv). by split_and!. }
  unfold MarshalJSON, marshalTime in Hj. rewrite Huri, Ht, Hje in Hj. simpl in Hj.
  rewrite !Forall_cons in Hs. destruct Hs as (H1s & H2s & H3s & H4s & H5s & H6s & _).
  unfold Valid in *. rewrite H1s, H2s, H3s, H4s, H5s, H6s in Hj. injection Hj as <-. unfold stored.
  destruct (canonical_text (DataSchema md)) as [t|]; simpl.
  - destruct Hp as (Hne & Hv & p & Hp & ->). rewrite (proj2 (String.eqb_neq _ _) Hne), Hv.
    unfold UnmarshalJSON. simpl. rewrite parse_format by done. simpl. rewrite Hre. simpl.
    by rewrite (proj2 (String.eqb_neq _ _) Hne), Hp.
  - rewrite Hp. unfold UnmarshalJSON. simpl. rewrite parse_format by done. simpl. by rewrite Hre.
Qed.


Lemma MarshalJSON_total md :
  carried md → parseable (DataSchema md) →
  map_Forall (λ _ v, validExtension v = None) (default ∅ (Extensions md)) →
  ∃ l, MarshalJSON md = inl (JObj l) ∧
    filter (λ kv, kv.1 = "DataSchema"%string) l =
      match canonical_text (DataSchema md) with Some t => [("DataSchema"%string, JStr t)] | None => [] end.
Proof.
  intros [Hs Ht He] Hp Hx. apply schemaURI_canonical in Hp as [Huri Hp].
  destruct (marshalMap_read (Extensions md)) as (je & Hje & _).
  { intros k v Hkv. destruct (He k v Hkv) as (?&?&?). specialize (Hx k v Hkv). by split_and!. }
  unfold MarshalJSON, marshalTime. rewrite Huri, Ht, Hje. eexists. split; [reflexivity|].
  destruct (canonical_text (DataSchema md)) as [t|]; [|done]. change (default ""%string (Some t)) with t.
  destruct Hp as (Hne & Hv & _). rewrite (proj2 (String.eqb_neq _ _) Hne). unfold Valid in Hv. by rewrite Hv.
Qed.

Lemma persisted md :
  ValidateMetadata (Some md) = None → carried md → parseable (DataSchema md) →
  ∃ l, MarshalMetadata (Some md) = inl (JObj l) ∧
    UnmarshalMetadata (Some (JObj l)) = inl (stored md) ∧
    filter (λ kv, kv.1 = "DataSchema"%string) l =
      match canonical_text (DataSchema md) with Some t => [("DataSchema"%string, JStr t)] | None => [] end.
Proof.
  intros (Ht & _ & _ & Hx)%ValidateMetadata_ok Hc Hp.
  assert (Hx' : map_Forall (λ _ v, validExtension v = None) (default ∅ (Extensions md))).
  { intros k v Hkv. by apply (Hx k v). }
  destruct (MarshalJSON_total md Hc Hp Hx') as (l & Hl & Hsch).
  exists l. unfold MarshalMetadata. rewrite Hl. split; [done|]. split; [|exact Hsch].
  unfold UnmarshalMetadata. rewrite (MarshalJSON_read _ _ Hc Hp Hx' Hl).
  simpl. by rewrite (proj2 (Z.eqb_neq _ _) Ht).
Qed.

(** C27: metadata that [ValidateMetadata] accepts and that has a textual form is
    persisted and read back: never a failed write, never poison, every core
    attribute unchanged and every extension as the value [encoding/json] gives
    back for it. The schema is written once, as the text of the URL its own text
    parses to (and left out when there is none, or it is empty), and read back as
    the parse of that text. *)
Theorem envelope_roundtrip md :
  ValidateMetadata (Some md) = None → carried md → parseable (DataSchema md) →
  ∃ l, MarshalMetadata (Some md) = inl (JObj l) ∧
    UnmarshalMetadata (Some (JObj l)) = inl (stored md) ∧
    filter (λ kv, kv.1 = "DataSchema"%string) l =
      match canonical_text (DataSchema md) with Some t => [("DataSchema"%string, JStr t)] | None => [] end.
Proof. apply persisted. Qed.

(** An int64 extension passes validation exactly when its magnitude is at
    most 2^53, and then the float64 a reader of the row gets denotes that very
    integer; the first integer past the bound would come back as another one. *)
Theorem extension_exact z :
  (validExtension (GInt64 z) = None ↔ Z.abs z <= 2 ^ 53) ∧
  (validExtension (GInt64 z) = None →
     ∃ f, ebind (marshal (GInt64 z)) unmarshalAny = inl (GFloat64 f) ∧ Z_of_float f = Some z) ∧
  Z_of_float (float64_of_Z (2 ^ 53 + 1)) = Some (2 ^ 53).
Proof.
  assert (Hv : validExtension (GInt64 z) = None ↔ Z.abs z <= 2 ^ 53).
  { unfold validExtension, exactInEnvelope. simpl. rewrite maxExact.
    destruct (_ || _) eqn:E; [apply orb_true_iff in E as [E|E]|]; zbool; split; intros; try done; lia. }
  split; [exact Hv|]. split; [|reflexivity]. intros Hz%Hv. eexists.
  simpl. rewrite read_int by lia. split; [done|]. apply float64_exact. lia.
Qed.

(** Whatever bytes a row holds, [UnmarshalMetadata] either yields metadata
    with a time, or an error that carries [ErrPoisonEnvelope]: JSON null, text
    that is no JSON, a value of another shape and metadata without a time are
    all poison, never an empty event. *)
Theorem UnmarshalMetadata_classifies b :
  match UnmarshalMetadata b with
  | inl md => Time md ≠ 0 ∧ ∃ l, b = Some (JObj l)
  | inr e => Is (Some e) ErrPoisonEnvelope = true
  end.
Proof.
  unfold UnmarshalMetadata.
  destruct b as [[| | | | | | |l]|]; simpl; try done.
  destruct (UnmarshalJSON (JObj l)) as [md|]; [|done].
  destruct (Z.eqb_spec (Time md) 0); [done|]. eauto.
Qed.

(** [ValidateMetadata] accepts exactly the metadata a transport can route
    and an AMQP frame can carry: a time, a type that splits into service and
    event within 255 bytes, and extensions with free names of at most 255 bytes
    and scalar values exact in the envelope. *)
Theorem ValidateMetadata_spec md :
  match ValidateMetadata md with
  | None => ∃ m, md = Some m ∧ Time m ≠ 0 ∧ (∃ sn, SplitType (Type_ m) = inl sn) ∧
      len (Type_ m) <= MaxShortStrLen ∧
      map_Forall (λ k v, ReservedExtensionName k = false ∧ len k <= MaxShortStrLen ∧
                         validExtension v = None) (default ∅ (Extensions m))
  | Some _ => ∀ m, md = Some m →
      ¬ (Time m ≠ 0 ∧ (∃ sn, SplitType (Type_ m) = inl sn) ∧ len (Type_ m) <= MaxShortStrLen ∧
         map_Forall (λ k v, ReservedExtensionName k = false ∧ len k <= MaxShortStrLen ∧
                            validExtension v = None) (default ∅ (Extensions m)))
  end.
Proof.
  destruct (ValidateMetadata md) eqn:E.
  - intros m -> Hok%ValidateMetadata_ok. congruence.
  - destruct md as [m|]; [|done]. exists m. split; [done|]. by apply ValidateMetadata_ok.
Qed.
End facts.
