(* ===== verification/Scenario.v ===== *)
(** * A concrete environment

    Instances of the interfaces the development is parametric in, small enough
    to compute with: URLs are their text, the outside world is a clock and a
    list of scripted answers. The witnesses run the definitions on it. *)
From S2P Require Import Prelude Errors GoLib Event Bound Relay Json Envelope.

#[export] Instance text_url : UrlLib := {|
  url := string;
  url_String u := u;
  url_Parse s := inl s;
  url_isZero := String.eqb "" |}.

#[export] Instance ascii_unicode : Unicode.
Proof. refine {| tolower_unicode _ := ""%string |}. done. Defined.

(** Each call takes one second and pops its answer; a world that ran out of
    answers confirms everything. *)
Record script := mkScript { clock : Z; answers : list error }.
#[export] Instance script_host : Host script := λ w, (clock w, w).
Definition answer : M script error := λ w,
  match answers w with
  | [] => (None, mkScript (clock w + Second) [])
  | a :: l => (a, mkScript (clock w + Second) l)
  end.

Definition message (seq : Z) (id : string) : Message :=
  mkMessage id seq (Some (NewMetadata "books.v1.BookCreated")) (Some "payload"%string) 0.
Definition all_signals : Observer := mkObserver true true true true true.

(** A sender whose every call gets the next answer, and its batch form: it
    stops at the first failure. *)
Definition scripted_send (ctx : cx) (md : option Metadata) (data : option string) :
    M script error := answer.
Fixpoint scripted_batch (ctx : cx) (out : list (option Metadata * option string)) :
    M script (Z * error) :=
  match out with
  | [] => mret (0, None)
  | (md, d) :: out =>
      r ← scripted_send ctx md d;
      match r with
      | Some e => mret (0, Some e)
      | None => nr ← scripted_batch ctx out; mret ((nr : Z * error).1 + 1, (nr : Z * error).2)
      end
  end.
Definition scripted_park (ctx : cx) (m : Message) (e : err) : M script error := answer.

(** URLs are never written as structs here. *)
#[export] Instance text_url_struct : UrlStruct := {|
  url_unmarshal _ := inr (typeError "url.URL");
  url_User _ := None;
  url_dropUser u := u |}.

(** Times are written as the bits of their nanosecond count. *)
Fixpoint bits (p : positive) : string :=
  match p with
  | xH => EmptyString
  | xO p => String "0" (bits p)
  | xI p => String "1" (bits p)
  end.
Fixpoint unbits (s : string) : option positive :=
  match s with
  | EmptyString => Some xH
  | String "0" s => xO <$> unbits s
  | String "1" s => xI <$> unbits s
  | _ => None
  end.
Definition time_text (t : Z) : string :=
  match t with Z0 => "Z" | Zpos p => String "+" (bits p) | Zneg p => String "-" (bits p) end.
Definition time_parse (s : string) : Z + err :=
  match s with
  | "Z"%string => inl 0
  | String "+" s => match unbits s with Some p => inl (Zpos p) | None => inr (New "time") end
  | String "-" s => match unbits s with Some p => inl (Zneg p) | None => inr (New "time") end
  | _ => inr (New "time")
  end.
Lemma unbits_bits p : unbits (bits p) = Some p.
Proof. induction p; simpl; by rewrite ?IHp. Qed.
#[export] Instance text_json : GoJson.
Proof.
  refine {| rfc3339 := time_text; parse3339 := time_parse; widen32 f := f;
            marshalOther _ := inr (New "json: unsupported type") |};
    [done| |done].
  intros [|p|p] _; simpl; by rewrite ?unbits_bits.
Defined.

(** ** Witnesses of the earlier files *)
Lemma ContentType_roundtrip_witness :
  plain_subtype "proto" = true ∧
  ParseContentType (ContentType "proto") = (BinaryMode, "proto"%string, true).
Proof.
  split; [reflexivity|].
  exact (proj1 (ContentType_roundtrip "proto" "charset=utf-8" eq_refl eq_refl)).
Defined.

Definition demo_metadata : Metadata :=
  mkMetadata "1.0" "books.v1.BookCreated" "books" "" "id-1" Second
    (Some {["tenant"%string := GString "acme"; "attempt"%string := GInt64 7]})
    (Some "urn:schema"%string) "application/json".
Lemma demo_carried : carried demo_metadata.
Proof.
  split; [repeat constructor|by vm_compute|].
  apply map_Forall_insert_2; [|apply map_Forall_singleton]; by split_and!; vm_compute.
Qed.
Lemma demo_parseable : parseable (DataSchema demo_metadata).
Proof. intros u [= <-] _. exists "urn:schema"%string. split_and!; [done|done|]. intros _. by eexists. Qed.
Lemma envelope_roundtrip_witness :
  ∃ l, MarshalMetadata (Some demo_metadata) = inl (JObj l) ∧
    UnmarshalMetadata (Some (JObj l)) = inl (stored demo_metadata) ∧
    filter (λ kv, kv.1 = "DataSchema"%string) l = [("DataSchema"%string, JStr "urn:schema")].
Proof. apply (envelope_roundtrip demo_metadata); [by vm_compute|apply demo_carried|apply demo_parseable]. Defined.
