(* ===== verification/Notify.v ===== *)
(** * internal/notify: signals, and the stuck-lane tracker

    [stuck.go]: [StuckTracker]; [notify.go]: [Reporter]. The relay state all
    runtime parts share, [core], is defined here: the outside world, the log,
    the tracker, and the two leadership flags ([Reporter.wasLeader],
    [Elector.isLeader]). *)
From S2P Require Import Prelude Errors GoLib Event Bound Relay.

(** ** stuck.go *)
Definition Minute : Z := 60 * Second.
Definition StuckEscalateAfter : Z := 15 * Minute.

Class GoZero (P : Type) := zero : P.
#[export] Instance GoZero_Z : GoZero Z := 0.
#[export] Instance GoZero_string : GoZero string := ""%string.

Record StuckTracker (P : Type) := mkTracker {
  position : P;
  active : bool;
  identified : bool;
  since : Z;
  escalated : bool }.
#[global] Arguments mkTracker {_} _ _ _ _ _.
#[global] Arguments position {_} _.
#[global] Arguments active {_} _.
#[global] Arguments identified {_} _.
#[global] Arguments since {_} _.
#[global] Arguments escalated {_} _.

Section tracker.
  Context {P : Type} `{GoZero P, EqDecision P}.

Definition freshTracker : StuckTracker P := mkTracker zero false false 0 false.

Definition Progress (s : StuckTracker P) (pos : P) : StuckTracker P :=
  if negb (active s) then s
  else if identified s && bool_decide (pos ≠ position s) then s
  else freshTracker.

(** [t] is the time [time.Now] and [time.Since] read. *)
Definition Stuck (t : Z) (s : StuckTracker P) (pos : P) (ident : bool) :
    (Z * bool) * StuckTracker P :=
  if negb (active s) || bool_decide (pos ≠ position s)
  then ((0, false), mkTracker pos true ident t false)
  else if escalated s || (since s =? 0) then ((0, false), s)
  else
    let stuckFor := t - since s in
    if stuckFor <? StuckEscalateAfter then ((0, false), s)
    else ((stuckFor, true),
          mkTracker (position s) (active s) (identified s) (since s) true).
End tracker.

(** ** The state a relay's parts share *)
Record core `{UrlLib} (W P : Type) := mkCore {
  world : W;
  trace : list ev;
  stuck : StuckTracker P;
  wasLeader : bool;
  isLeader : bool }.
#[global] Arguments mkCore {_ _ _} _ _ _ _ _.
#[global] Arguments world {_ _ _} _.
#[global] Arguments trace {_ _ _} _.
#[global] Arguments stuck {_ _ _} _.
#[global] Arguments wasLeader {_ _ _} _.
#[global] Arguments isLeader {_ _ _} _.

(** ** notify.go *)
Record Reporter := mkReporter { Obs : Observer; ParkTimeout : Z }.

Section reporter.
  Context `{UrlLib} {W P : Type} `{Host W}.
  #[local] Abbreviation C := (core W P).

Definition PoisonHandler : Type := cx → Message → err → M W error.

(** Calls to the outside, and the log. *)
Definition lift {A} (m : M W A) : M C A := λ s,
  ((m (world s)).1,
   mkCore (m (world s)).2 (trace s) (stuck s) (wasLeader s) (isLeader s)).
Definition emit (e : ev) : M C unit := λ s,
  (tt, mkCore (world s) (trace s ++ [e]) (stuck s) (wasLeader s) (isLeader s)).
Definition set_stuck (k : StuckTracker P) : M C unit := λ s,
  (tt, mkCore (world s) (trace s) k (wasLeader s) (isLeader s)).
Definition set_wasLeader (b : bool) : M C unit := λ s,
  (tt, mkCore (world s) (trace s) (stuck s) b (isLeader s)).
Definition set_isLeader (b : bool) : M C unit := λ s,
  (tt, mkCore (world s) (trace s) (stuck s) (wasLeader s) b).

(** [ctx.Err()] and [context.Cause(ctx)]. *)
Definition ctxErr (ctx : cx) : M C error := t ← lift now; mret (ErrAt ctx t).
Definition ctxCause (ctx : cx) : M C error := t ← lift now; mret (CauseAt ctx t).

(** The nil-safe dispatchers. *)
Definition Error (r : Reporter) (e : err) : M C unit :=
  if hasOnError (Obs r) then emit (EOnError e) else skip.
Definition Drained (r : Reporter) (count age : Z) (more : bool) : M C unit :=
  if hasOnDrained (Obs r) then emit (EOnDrained count age more) else skip.
Definition Sequenced (r : Reporter) (count : Z) : M C unit :=
  if hasOnSequenced (Obs r) then emit (EOnSequenced count) else skip.
Definition Swept (r : Reporter) (count : Z) : M C unit :=
  if hasOnSwept (Obs r) then emit (EOnSwept count) else skip.

Definition PassFailed (r : Reporter) (e : err) : M C unit :=
  Error r e ;; emit (ELog LevelError "pass failed").

Definition Leadership (r : Reporter) (leader : bool) : M C unit :=
  was ← gets wasLeader;
  if Bool.eqb leader was then skip
  else
    set_wasLeader leader ;;
    (if hasOnLeadership (Obs r) then emit (EOnLeadership leader) else skip) ;;
    emit (ELog Info (if leader then "became leader" else "lost leadership")).

(** The report that follows: one signal for the message, one for its park. *)
Definition reportFailure (r : Reporter) (e : err) (parkErr : error) : M C unit :=
  Error r e ;;
  emit (ELog LevelError "message failed") ;;
  match parkErr with
  | None => skip
  | Some pe => Error r pe ;; emit (ELog LevelError "poison park failed")
  end.

Definition MessageFailure (r : Reporter) (ctx : cx) (h : option PoisonHandler)
    (msg : Message) (e : err) : M C error :=
  parkErr ←
    match h with
    | None => mret None
    | Some h =>
        ctx ← (if 0 <? ParkTimeout r
               then t ← lift now; mret (Call t ctx (ParkTimeout r)) else mret ctx);
        pe ← lift (h ctx msg e);
        emit (EPark ctx msg e pe) ;;
        mret pe
    end;
  reportFailure r e parkErr ;;
  mret parkErr.

Definition StuckLane (r : Reporter) (pos id : string) (stuckFor : Z) (e : err) : M C unit :=
  emit (ELog LevelError "log wedged on one message") ;;
  Error r (Typed (TStuckLane pos id stuckFor) [e]).
End reporter.

(** ** Lemmas *)
#[export] Instance core_traced `{UrlLib} {W P} : Traced (core W P) := trace.

Section rules.
Context `{UrlLib} {W P : Type} `{Host W}.
#[local] Abbreviation C := (core W P).
Implicit Types (s : C).

(** The parts of the state that calls and signals leave alone. *)
Definition same s s' : Prop :=
  stuck s' = stuck s ∧ wasLeader s' = wasLeader s ∧ isLeader s' = isLeader s.
#[global] Instance same_preorder : PreOrder same.
Proof.
  split; [by intros ?|]. intros x y z (?&?&?) (?&?&?). unfold same.
  split_and!; congruence.
Qed.

Lemma del_emit e s (Q : unit → list ev → C → Prop) :
  (∀ s', same s s' → Q tt [e] s') → del (emit e) s Q.
Proof. intros HQ. exists [e]. split; [done|]. by apply HQ. Qed.
Lemma del_lift {A} (m : M W A) s (Q : A → list ev → C → Prop) :
  (∀ a s', m (world s) = (a, world s') → same s s' → Q a [] s') →
  del (lift m) s Q.
Proof.
  intros HQ. exists []. split; [symmetry; apply app_nil_r|].
  apply HQ; [apply surjective_pairing|done].
Qed.
Lemma del_set_stuck k s (Q : unit → list ev → C → Prop) :
  (∀ s', stuck s' = k → wasLeader s' = wasLeader s → isLeader s' = isLeader s →
         Q tt [] s') → del (set_stuck k) s Q.
Proof. intros HQ. exists []. split; [symmetry; apply app_nil_r|by apply HQ]. Qed.
Lemma del_set_wasLeader b s (Q : unit → list ev → C → Prop) :
  (∀ s', stuck s' = stuck s → wasLeader s' = b → isLeader s' = isLeader s →
         Q tt [] s') → del (set_wasLeader b) s Q.
Proof. intros HQ. exists []. split; [symmetry; apply app_nil_r|by apply HQ]. Qed.
Lemma del_set_isLeader b s (Q : unit → list ev → C → Prop) :
  (∀ s', stuck s' = stuck s → wasLeader s' = wasLeader s → isLeader s' = b →
         Q tt [] s') → del (set_isLeader b) s Q.
Proof. intros HQ. exists []. split; [symmetry; apply app_nil_r|by apply HQ]. Qed.
End rules.

(** The leaf rules of this file, by head; they give the new state a name and
    say what it kept. *)
Ltac del_leaf :=
  lazymatch goal with
  | |- del (emit _) _ _ => apply del_emit; intros ? ?
  | |- del (lift _) _ _ => apply del_lift; intros ? ? ? ?
  | |- del (set_stuck _) _ _ => apply del_set_stuck; intros ? ? ? ?
  | |- del (set_wasLeader _) _ _ => apply del_set_wasLeader; intros ? ? ? ?
  | |- del (set_isLeader _) _ _ => apply del_set_isLeader; intros ? ? ? ?
  | _ => del_step
  end.
Ltac del_run := repeat (del_leaf; cbn beta).
(** Solve a goal about what the state kept along a run. *)
Ltac solve_same := unfold same in *; destruct_and?; split_and?; congruence.

(** Signals dispose of nothing. *)
Definition is_signal `{UrlLib} (e : ev) : bool :=
  match e with
  | EOnDrained _ _ _ | EOnError _ | EOnSequenced _ | EOnSwept _ | EOnLeadership _
  | ELog _ _ => true
  | _ => false
  end.
Definition signals `{UrlLib} (l : list ev) : Prop := Forall (λ e, is_signal e = true) l.
Lemma signals_disposed `{UrlLib} l : signals l → disposed l = [].
Proof. induction 1 as [|e l He _ IH]; [done|]. rewrite disposed_cons, IH. by destruct e. Qed.
Lemma signals_sent `{UrlLib} l : signals l → sent_msgs l = [].
Proof. induction 1 as [|e l He _ IH]; [done|]. rewrite sent_msgs_cons, IH. by destruct e. Qed.

Lemma signals_nil `{UrlLib} : signals []. Proof. constructor. Qed.
Lemma signals_one `{UrlLib} e : is_signal e = true → signals [e].
Proof. by repeat constructor. Qed.
Lemma signals_app `{UrlLib} l k : signals l → signals k → signals (l ++ k).
Proof. apply Forall_app_2. Qed.
#[export] Hint Resolve signals_nil signals_one signals_app : mdb.
#[export] Hint Extern 1 (is_signal _ = true) => reflexivity : mdb.

Section specs.
Context `{UrlLib} {W P : Type} `{Host W} `{GoZero P, EqDecision P}.
#[local] Abbreviation C := (core W P).
Implicit Types (s : C).

(** A dispatcher appends signals and changes nothing else. *)
Definition dispatch (e : ev) (on : bool) : list ev := if on then [e] else [].

Lemma Error_spec r e s :
  del (Error r e) s (λ _ k s', same s s' ∧ k = dispatch (EOnError e) (hasOnError (Obs r))).
Proof. unfold Error. destruct (hasOnError (Obs r)); by del_run. Qed.

(** What one message failure leaves behind: at most one call of the poison
    handler, then the report, and a second report when the park failed. *)
Definition failure_report (r : Reporter) (e : err) (parkErr : error) : list ev :=
  dispatch (EOnError e) (hasOnError (Obs r)) ++ ELog LevelError "message failed" ::
  match parkErr with
  | None => []
  | Some pe => dispatch (EOnError pe) (hasOnError (Obs r)) ++
               [ELog LevelError "poison park failed"]
  end.
Lemma failure_report_signals r e pe : signals (failure_report r e pe).
Proof. unfold failure_report. destruct (hasOnError _), pe; by repeat constructor. Qed.

Lemma reportFailure_spec r e pe s :
  del (reportFailure r e pe) s (λ _ k s', same s s' ∧ k = failure_report r e pe).
Proof.
  unfold reportFailure, failure_report. del_step. del_use Error_spec.
  intros _ k s1 [? ->]. del_run. destruct pe as [pe|].
  - del_step. del_use Error_spec. intros _ k s2 [? ->]. del_run. split; [solve_same|done].
  - del_run. split; [solve_same|done].
Qed.

Lemma MessageFailure_spec r ctx (h : option PoisonHandler) msg e s :
  del (MessageFailure r ctx h msg e) s (λ pe k s',
    same s s' ∧
    match h with
    | None => pe = None ∧ k = failure_report r e None
    | Some _ => ∃ c, k = EPark c msg e pe :: failure_report r e pe
    end).
Proof.
  unfold MessageFailure. destruct h as [h|].
  - destruct (0 <? ParkTimeout r); del_run; del_use reportFailure_spec;
      intros _ k sx [? ->]; del_run; rewrite ?app_nil_r;
      (split; [solve_same|eexists; simpl; rewrite ?app_nil_r; reflexivity]).
  - del_run. del_use reportFailure_spec. intros _ k sx [? ->]. del_run.
    by rewrite app_nil_r.
Qed.

Lemma StuckLane_spec r pos id d e s :
  del (StuckLane r pos id d e) s (λ _ k s', same s s' ∧
    k = ELog LevelError "log wedged on one message" ::
        dispatch (EOnError (Typed (TStuckLane pos id d) [e])) (hasOnError (Obs r))).
Proof.
  unfold StuckLane. del_run. del_use Error_spec. intros _ k sx [? ->].
  split; [solve_same|done].
Qed.
End specs.

(** ** The tracker over whole histories *)
Section episodes.
Context {P : Type} `{GoZero P, EqDecision P}.
Implicit Types (k : StuckTracker P) (p q : P).

(** What a lane does to the tracker: dispose of a message at some position, or
    stop at position [p] at some time. *)
Inductive op := ODisposed (q : P) | OStopped (t : Z).
(** The escalations of a history: how long the lane had been stopped. *)
Fixpoint escalations (p : P) (k : StuckTracker P) (ops : list op) : list Z :=
  match ops with
  | [] => []
  | ODisposed q :: ops => escalations p (Progress k q) ops
  | OStopped t :: ops =>
      let '((d, esc), k') := Stuck t k p true in
      if esc then d :: escalations p k' ops else escalations p k' ops
  end.
Definition stop_times (ops : list op) : list Z :=
  omap (λ o, match o with OStopped t => Some t | ODisposed _ => None end) ops.
Definition not_at (p : P) (o : op) : bool :=
  match o with ODisposed q => bool_decide (q ≠ p) | OStopped _ => true end.

Lemma escalations_done p k ops :
  active k = true → position k = p → identified k = true → escalated k = true →
  forallb (not_at p) ops = true → escalations p k ops = [].
Proof.
  intros Ha Hp Hi He. induction ops as [|[q|t] ops IH]; simpl; [done| |].
  - intros [Hq Hops]%andb_true_iff. unfold Progress. rewrite Ha, Hi, Hp, Hq. auto.
  - intros Hops. unfold Stuck. rewrite Ha, Hp, bool_decide_eq_false_2, He by tauto. auto.
Qed.

Lemma escalations_open p k ops :
  active k = true → position k = p → identified k = true → escalated k = false →
  since k ≠ 0 → forallb (not_at p) ops = true →
  escalations p k ops =
    take 1 (filter (λ d, StuckEscalateAfter <= d) (map (λ t, t - since k) (stop_times ops))).
Proof.
  intros Ha Hp Hi He Hs. induction ops as [|[q|t] ops IH]; simpl; [done| |].
  - intros [Hq Hops]%andb_true_iff. unfold Progress. rewrite Ha, Hi, Hp, Hq. auto.
  - intros Hops. unfold Stuck. rewrite Ha, Hp, bool_decide_eq_false_2, He by tauto. simpl.
    rewrite (proj2 (Z.eqb_neq _ _) Hs), filter_cons.
    destruct (Z.ltb_spec (t - since k) StuckEscalateAfter); case_decide; try lia; [by apply IH|].
    simpl. f_equal. rewrite Hi. by apply escalations_done.
Qed.
End episodes.

(** One escalation per episode. A lane that stops at position [p] at time
    [t0], and then only disposes of messages at other positions (the prefix a
    failed offset save makes it deliver again) and stops at [p] again, reports
    the wedge exactly once: at its first stop that is at least fifteen minutes
    after [t0], or never when there is none. Re-delivery does not reset it. *)
Theorem stuck_escalates_once {P} `{GoZero P, EqDecision P} (p : P) k t0 ops :
  t0 ≠ 0 → active k = false ∨ position k ≠ p → forallb (not_at p) ops = true →
  escalations p k (OStopped t0 :: ops) =
    take 1 (filter (λ d, StuckEscalateAfter <= d) (map (λ t, t - t0) (stop_times ops))).
Proof.
  intros Ht Hk Hops. simpl. unfold Stuck.
  assert (negb (active k) || bool_decide (p ≠ position k) = true) as ->.
  { destruct Hk as [->|]; [done|]. rewrite bool_decide_eq_true_2 by congruence.
    apply orb_true_r. }
  by rewrite escalations_open.
Qed.
Lemma stuck_escalates_once_witness :
  escalations (5 : Z) freshTracker
    [OStopped 1; ODisposed 3; OStopped (1 + 14 * Minute); ODisposed 4;
     OStopped (1 + 16 * Minute); OStopped (1 + 60 * Minute)] = [16 * Minute].
Proof.
  rewrite (stuck_escalates_once 5 freshTracker 1); [reflexivity|discriminate|by left|reflexivity].
Defined.

(** A disposal ends the open episode exactly when it is the disposal of the
    message the lane was stopped at, or when that message could not be
    identified; and an ended episode leaves no trace, so the next stop opens a
    new one that can escalate again. *)
Theorem Progress_ends {P} `{GoZero P, EqDecision P} (k : StuckTracker P) q :
  Progress k q =
    if active k && negb (identified k && negb (bool_decide (q = position k)))
    then freshTracker else k.
Proof.
  unfold Progress. destruct (active k), (identified k); simpl; try done.
  destruct (decide (q = position k)) as [->|].
  - by rewrite bool_decide_eq_false_2, bool_decide_eq_true_2 by tauto.
  - by rewrite bool_decide_eq_true_2, bool_decide_eq_false_2 by tauto.
Qed.
