(* ===== verification/Leader.v ===== *)
(** * internal/leader: the elector

    Acquire and renew, and the graceful release. The lock store is an optional
    capability, given as a record of its two operations. *)
From S2P Require Import Prelude Errors GoLib Event Bound Relay Scenario Notify.

(** [relay.LeaderStore] *)
Record LeaderStore (W : Type) := mkLeaderStore {
  TryAcquireLeaderLock : cx → string → string → Z → M W (res bool);
  ReleaseLeaderLock : cx → string → string → M W error }.
#[global] Arguments mkLeaderStore {_} _ _.
#[global] Arguments TryAcquireLeaderLock {_} _.
#[global] Arguments ReleaseLeaderLock {_} _.

Record Elector (W : Type) := NewElector {
  ls : option (LeaderStore W); lockName : string; holderID : string; ttl : Z }.
#[global] Arguments NewElector {_} _ _ _ _.
#[global] Arguments ls {_} _.
#[global] Arguments lockName {_} _.
#[global] Arguments holderID {_} _.
#[global] Arguments ttl {_} _.

Section elector.
  Context `{UrlLib} {W P : Type} `{Host W}.
  #[local] Abbreviation C := (core W P).

Definition LockName (e : Elector W) : string := lockName e.
Definition HolderID (e : Elector W) : string := holderID e.

Definition TryAcquire (e : Elector W) (ctx : cx) : M C (res bool) :=
  match ls e with
  | None => set_isLeader true ;; mret (inl true)
  | Some st =>
      t ← lift now;
      let ctx := Call t ctx (ttl e) in
      r ← lift (TryAcquireLeaderLock st ctx (lockName e) (holderID e) (ttl e));
      emit (EAcquire ctx r) ;;
      match r with
      | inr er => mret (inr er)
      | inl held => set_isLeader held ;; mret (inl held)
      end
  end.

Definition Release (e : Elector W) (ctx : cx) : M C error :=
  was ← gets isLeader;
  set_isLeader false ;;
  match was, ls e with
  | true, Some st =>
      t ← lift now;
      let ctx := shutdownStep t ctx in
      r ← lift (ReleaseLeaderLock st ctx (lockName e) (holderID e));
      emit (ERelease ctx r) ;;
      mret r
  | _, _ => mret None
  end.

(** [Reporter.ReleaseLeadership] of internal/notify. *)
Definition ReleaseLeadership (r : Reporter) (ctx : cx) (e : Elector W) : M C unit :=
  er ← Release e ctx;
  match er with
  | Some _ => emit (ELog Warn "release leader lock")
  | None => skip
  end ;;
  Leadership r false.
End elector.

(** ** Lemmas *)
Section specs.
Context `{UrlLib} {W P : Type} `{Host W}.
#[local] Abbreviation C := (core W P).
Implicit Types (s : C) (e : Elector W).

Lemma TryAcquire_spec e ctx s :
  del (TryAcquire e ctx) s (λ r k s', stuck s' = stuck s ∧ wasLeader s' = wasLeader s ∧
    match ls e with
    | None => k = [] ∧ r = inl true ∧ isLeader s' = true
    | Some _ => ∃ t, k = [EAcquire (Call t ctx (ttl e)) r] ∧
        isLeader s' = (match r with inl b => b | inr _ => isLeader s end)
    end).
Proof.
  unfold TryAcquire. destruct (ls e).
  - del_run. destruct a0 as [b|er]; del_run; simpl; split_and!; try solve_same;
      eexists; (split; [done|solve_same]).
  - del_run. by split_and!.
Qed.

Lemma Release_spec e ctx s :
  del (Release e ctx) s (λ r k s', stuck s' = stuck s ∧ wasLeader s' = wasLeader s ∧
    isLeader s' = false ∧
    match isLeader s, ls e with
    | true, Some _ => ∃ t, k = [ERelease (shutdownStep t ctx) r]
    | _, _ => k = [] ∧ r = None
    end).
Proof.
  unfold Release. del_run. destruct (isLeader s), (ls e); del_run; simpl;
    split_and!; try solve_same; eauto.
Qed.

Lemma Leadership_spec r b s :
  del (Leadership r b) s (λ _ k s', stuck s' = stuck s ∧ wasLeader s' = b ∧
    isLeader s' = isLeader s ∧
    k = if Bool.eqb b (wasLeader s) then [] else
        dispatch (EOnLeadership b) (hasOnLeadership (Obs r)) ++
        [ELog Info (if b then "became leader" else "lost leadership")]).
Proof.
  unfold Leadership. del_run. destruct (Bool.eqb b (wasLeader s)) eqn:E.
  - apply Bool.eqb_prop in E. del_run. by split_and!.
  - del_run. destruct (hasOnLeadership (Obs r)); del_run; simpl; split_and!; try solve_same; done.
Qed.

Lemma ReleaseLeadership_spec r ctx e s :
  del (ReleaseLeadership r ctx e) s (λ _ k s',
    stuck s' = stuck s ∧ isLeader s' = false ∧ wasLeader s' = false).
Proof.
  unfold ReleaseLeadership. del_step. del_use Release_spec.
  intros er k s1 (Hs & _ & Hl & _). destruct er; del_run;
    (del_use Leadership_spec; intros _ k2 s2 (? & ? & ? & _); split_and!; solve_same).
Qed.
End specs.

(** Release is idempotent and always gives leadership up locally: after any
    release the flag is down, whatever the store answered, and the store is
    asked to delete the lock only by an elector that held it, so a second
    release calls nothing. *)
Theorem Release_once `{UrlLib} {W P} `{Host W} (e : Elector W) ctx ctx' (s : core W P) :
  let s1 := (Release e ctx s).2 in
  let '(r2, s2) := Release e ctx' s1 in
  isLeader s1 = false ∧ r2 = None ∧ trace s2 = trace s1 ∧
  (isLeader s = false → trace s1 = trace s).
Proof.
  destruct (Release_spec e ctx s) as (k & Hk & _ & _ & Hf & Hm). simpl.
  destruct (Release_spec e ctx' (Release e ctx s).2) as (k' & Hk' & _ & _ & _ & Hm').
  rewrite Hf in Hm'. destruct Hm' as [-> ?]. rewrite app_nil_r in Hk'.
  destruct (Release e ctx' (Release e ctx s).2) as [r2 s2]. simpl in *.
  split_and!; [done|done|done|]. intros Hs. rewrite Hs in Hm. destruct Hm as [-> _].
  by rewrite app_nil_r in Hk.
Qed.
Lemma Release_once_witness :
  let e := NewElector (Some (mkLeaderStore (λ _ _ _ _, mret (inl true)) (λ _ _ _, Scenario.answer)))
             "books" "holder" (60 * Second) in
  let s0 := mkCore (Scenario.mkScript 0 []) [] (freshTracker (P := Z)) false true in
  (Release e Background (Release e Background s0).2).1 = None.
Proof.
  intros e s0. pose proof (Release_once e Background Background s0) as Hw.
  destruct Hw as (_ & Hw & _). exact Hw.
Defined.
