(* ===== verification/Lane.v ===== *)
(** * internal/lane: the per-message delivery policy

    What happens to one message between the call of the sender and the moment
    the relay may advance past it, for one message ([Send]) and for a batch
    ([SendBatch]). The sender, the poison handler and the classifier are the
    user's; they are fields of the lane, as in the code. *)
From S2P Require Import Prelude Errors GoLib Event Bound Relay Scenario Notify.

Inductive Disposition := Sent | Parked | Stopped | Canceled.
#[global] Instance Disposition_eq_dec : EqDecision Disposition.
Proof. solve_decision. Defined.

(** eventbus.Outgoing *)
Definition Outgoing `{UrlLib} : Type := option Metadata * option string.

Record Lane `{UrlLib} (W P : Type) := mkLane {
  LReporter : Reporter;
  Sender : cx → option Metadata → option string → M W error;
  Batch : option (cx → list Outgoing → M W (Z * error));
  Poison : option (PoisonHandler (W := W));
  Unsendable : option (err → bool);
  Label : P → string → string;
  Identified : option (P → bool);
  SendTimeout : Z }.
#[global] Arguments mkLane {_ _ _} _ _ _ _ _ _ _ _.
#[global] Arguments LReporter {_ _ _} _.
#[global] Arguments Sender {_ _ _} _.
#[global] Arguments Batch {_ _ _} _.
#[global] Arguments Poison {_ _ _} _.
#[global] Arguments Unsendable {_ _ _} _.
#[global] Arguments Label {_ _ _} _.
#[global] Arguments Identified {_ _ _} _.
#[global] Arguments SendTimeout {_ _ _} _.

Section lane.
  Context `{UrlLib} {W P : Type} `{Host W} `{GoZero P, EqDecision P}.
  #[local] Abbreviation C := (core W P).
  Context (l : Lane W P).

Definition sendCtx (ctx : cx) : M C cx :=
  if 0 <? SendTimeout l then t ← lift now; mret (Call t ctx (SendTimeout l))
  else mret ctx.

Definition send (ctx : cx) (msg : Message) : M C error :=
  ctx ← sendCtx ctx;
  r ← lift (Sender l ctx (MsgMetadata msg) (Data msg));
  emit (ESend ctx msg r) ;;
  mret r.

Definition permanent (e : err) : bool :=
  if (match Poison l with Some _ => true | None => false end) && Is (Some e) ErrUnsendable
  then true
  else match Unsendable l with Some f => f e | None => false end.

Definition LProgress (pos : P) : M C unit :=
  k ← gets stuck; set_stuck (Progress k pos).

(** The clock is read whether or not the tracker needs it; only the tracker
    looks at the value. *)
Definition LStuck (pos : P) (id : string) (e : err) : M C unit :=
  let ident := match Identified l with Some f => f pos | None => true end in
  k ← gets stuck;
  t ← lift now;
  let '((stuckFor, escalate), k') := Stuck t k pos ident in
  set_stuck k' ;;
  if negb escalate then skip
  else StuckLane (LReporter l) (Label l pos id) id stuckFor e.

Definition failed (ctx : cx) (pos : P) (msg : Message) (sendErr : err) : M C Disposition :=
  dead ← ctxErr ctx;
  if negb (isNil dead) then mret Canceled
  else if permanent sendErr then
    parkErr ← MessageFailure (LReporter l) ctx (Poison l) msg sendErr;
    match parkErr with
    | None => LProgress pos ;; mret Parked
    | Some pe =>
        LStuck pos (MsgID msg) (Joined [sendErr; pe]) ;; mret Stopped
    end
  else
    MessageFailure (LReporter l) ctx None msg sendErr ;;
    LStuck pos (MsgID msg) sendErr ;;
    mret Stopped.

Definition Send (ctx : cx) (pos : P) (msg : Message) : M C Disposition :=
  sendErr ← send ctx msg;
  match sendErr with
  | None => LProgress pos ;; mret Sent
  | Some e => failed ctx pos msg e
  end.

Definition Batching : bool := match Batch l with Some _ => true | None => false end.

Fixpoint progressAll (ps : list P) : M C unit :=
  match ps with [] => skip | p :: ps => LProgress p ;; progressAll ps end.

(** The lane has a batch sender when the runtime calls this; a nil one panics
    in Go, and is given the answer of a sender that delivers nothing here. *)
Definition SendBatch (ctx : cx) (positions : list P) (msgs : list Message) :
    M C (Z * Z * Disposition) :=
  let out := map (λ m, (MsgMetadata m, Data m)) msgs in
  bctx ← sendCtx ctx;
  r ← match Batch l with
      | Some b => lift (b bctx out)
      | None => mret (0, Some (New "nil BatchSender"))
      end;
  let '(n0, sendErr) := r : Z * error in
  emit (ESendBatch bctx msgs n0 sendErr) ;;
  let n := Z.min (Z.max n0 0) (zlen msgs) in
  progressAll (ztake n positions) ;;
  if n =? zlen msgs then
    match sendErr with
    | Some _ => mret (n, n, Stopped)
    | None => mret (n, n, Sent)
    end
  else
    let sendErr :=
      match sendErr with
      | Some e => e
      | None => New "sender reported fewer messages delivered but returned no error"
      end in
    match msgs !! Z.to_nat n with
    | None => mret (n, n, Stopped)
    | Some m =>
        f ← failed ctx (nth (Z.to_nat n) positions zero) m sendErr;
        match f with
        | Parked => mret (n, n + 1, Parked)
        | f => mret (n, n, f)
        end
    end.

Definition Park (ctx : cx) (pos : P) (msg : Message) (cause : err) : M C error :=
  e ← MessageFailure (LReporter l) ctx (Poison l) msg cause;
  match e with
  | Some e => mret (Some e)
  | None => LProgress pos ;; mret None
  end.
End lane.

(** ** Lemmas *)
Section specs.
Context `{UrlLib} {W P : Type} `{Host W} `{GoZero P, EqDecision P}.
#[local] Abbreviation C := (core W P).
Context (l : Lane W P).
Implicit Types (s : C).

(** A classifier needs somewhere to park: the rule [Hooks.Validate] enforces. *)
Definition hooks_ok : Prop := Unsendable l ≠ None → Poison l ≠ None.

Lemma permanent_Poison e : hooks_ok → permanent l e = true → Poison l ≠ None.
Proof. unfold permanent, hooks_ok. destruct (Poison l), (Unsendable l); simpl; naive_solver. Qed.

Definition flags s s' : Prop := wasLeader s' = wasLeader s ∧ isLeader s' = isLeader s.
#[global] Instance flags_preorder : PreOrder flags.
Proof. split; [by intros ?|]. intros x y z (?&?) (?&?). unfold flags. split; congruence. Qed.

Lemma LProgress_spec pos s :
  del (LProgress pos) s (λ _ k s',
    k = [] ∧ stuck s' = Progress (stuck s) pos ∧ flags s s').
Proof. unfold LProgress, flags. del_run. split_and!; solve_same || done. Qed.

Definition ident pos : bool := match Identified l with Some f => f pos | None => true end.

Lemma LStuck_spec pos id e s :
  del (LStuck l pos id e) s (λ _ k s', flags s s' ∧
    ∃ t, stuck s' = (Stuck t (stuck s) pos (ident pos)).2 ∧
      k = if (Stuck t (stuck s) pos (ident pos)).1.2
          then ELog LevelError "log wedged on one message" ::
            dispatch (EOnError (Typed (TStuckLane (Label l pos id) id
              (Stuck t (stuck s) pos (ident pos)).1.1) [e])) (hasOnError (Obs (LReporter l)))
          else []).
Proof.
  unfold LStuck. del_run. fold (ident pos).
  destruct (Stuck a (stuck s) pos (ident pos)) as [[d esc] k'] eqn:E.
  del_run. destruct esc; simpl.
  - del_use StuckLane_spec. intros _ k s2 (? & ->).
    split; [unfold flags; solve_same|]. exists a. rewrite E. simpl. split; [solve_same|done].
  - del_run. split; [unfold flags; solve_same|]. exists a. rewrite E. simpl. split; [solve_same|done].
Qed.

Lemma sendCtx_spec ctx s :
  del (sendCtx l ctx) s (λ c k s', k = [] ∧ same s s' ∧
    if 0 <? SendTimeout l then ∃ t, c = Call t ctx (SendTimeout l) else c = ctx).
Proof. unfold sendCtx. destruct (0 <? SendTimeout l); del_run; split_and!; done || eauto. Qed.

(** What a failed message leaves behind, by disposition. *)
Definition failed_log (msg : Message) (e : err) (d : Disposition) (k : list ev) : Prop :=
  let rep := failure_report (LReporter l) e in
  match d with
  | Sent => False
  | Canceled => k = []
  | Parked =>
      permanent l e = true ∧
      match Poison l with
      | Some _ => ∃ c, k = EPark c msg e None :: rep None
      | None => k = rep None
      end
  | Stopped =>
      ∃ tail, signals tail ∧
        (permanent l e = false ∧ k = rep None ++ tail ∨
         permanent l e = true ∧ ∃ c pe, k = EPark c msg e (Some pe) :: rep (Some pe) ++ tail)
  end.
Definition tracker_after (pos : P) (d : Disposition) (k k' : StuckTracker P) : Prop :=
  match d with
  | Sent | Parked => k' = Progress k pos
  | Canceled => k' = k
  | Stopped => ∃ t, k' = (Stuck t k pos (ident pos)).2
  end.

Lemma tracker_after_eq pos d k1 k2 k' :
  k1 = k2 → tracker_after pos d k1 k' → tracker_after pos d k2 k'.
Proof. by intros ->. Qed.

Lemma stuck_log_signals (b : bool) e on :
  signals (if b then ELog LevelError "log wedged on one message" ::
    dispatch (EOnError e) on else []).
Proof. destruct b, on; by repeat constructor. Qed.

Lemma failed_spec ctx pos msg e s :
  del (failed l ctx pos msg e) s (λ d k s',
    flags s s' ∧ failed_log msg e d k ∧ tracker_after pos d (stuck s) (stuck s') ∧
    (d = Canceled → cx_done ctx ≠ None)).
Proof.
  unfold failed, ctxErr. del_run. unfold ErrAt.
  destruct (doneAt ctx a) eqn:Ed; simpl.
  { del_run. split_and!; [unfold flags; solve_same|done|solve_same|].
    intros _ Hc. unfold doneAt in Ed. by rewrite Hc in Ed. }
  destruct (permanent l e) eqn:Ep; del_step; del_use MessageFailure_spec; intros pe k s1.
  - intros (Hs1 & Hk). destruct pe as [pe|]; del_step.
    + destruct (Poison l) as [h|] eqn:Eh; [|by destruct Hk]. destruct Hk as [c ->].
      del_use LStuck_spec. intros _ k2 s2 (Hf & t & Ht & ->). del_run.
      split_and!; [unfold flags in *; solve_same| | |done].
      * rewrite app_nil_r. eexists. split; [apply stuck_log_signals|]. right. eauto.
      * exists t. unfold same in *. destruct_and?. congruence.
    + del_use LProgress_spec. intros _ k2 s2 (-> & Hs2 & Hf). del_run.
      rewrite !app_nil_r. split_and!; [unfold flags in *; solve_same| | |done].
      * simpl. split; [done|]. destruct (Poison l); [done|by destruct Hk].
      * unfold same in *. destruct_and?. simpl. congruence.
  - intros (Hs1 & -> & ->). del_step. del_use LStuck_spec.
    intros _ k2 s2 (Hf & t & Ht & ->). del_run. rewrite app_nil_r.
    split_and!; [unfold flags in *; solve_same| | |done].
    + eexists. split; [apply stuck_log_signals|]. by left.
    + exists t. unfold same in *. destruct_and?. congruence.
Qed.

(** The effect of the three moves on the disposed messages. *)
Lemma failed_log_disposed msg e d k :
  hooks_ok → failed_log msg e d k →
  disposed k = (if decide (d = Parked) then [msg] else []) ∧ sent_msgs k = [].
Proof.
  intros Hok. pose proof (failure_report_signals (LReporter l) e) as Hsig.
  assert (Hs : ∀ k, signals k → disposed k = [] ∧ sent_msgs k = [])
    by eauto using signals_disposed, signals_sent.
  destruct d; simpl; [done| | |].
  - intros [Hp Hk]. pose proof (permanent_Poison e Hok Hp).
    destruct (Poison l); [|done]. destruct Hk as [c ->].
    rewrite disposed_cons, sent_msgs_cons. destruct (Hs _ (Hsig None)) as [-> ->]. done.
  - intros (tail & Ht & [[_ ->]|(_ & c & pe & ->)]).
    + apply Hs. by apply signals_app.
    + rewrite disposed_cons, sent_msgs_cons.
      destruct (Hs _ (signals_app _ _ (Hsig (Some pe)) Ht)) as [-> ->]. done.
  - by intros ->.
Qed.

Lemma Send_spec ctx pos msg s :
  del (Send l ctx pos msg) s (λ d k s',
    flags s s' ∧ tracker_after pos d (stuck s) (stuck s') ∧
    (d = Canceled → cx_done ctx ≠ None) ∧
    ∃ c r rest, k = ESend c msg r :: rest ∧
      match r with
      | None => d = Sent ∧ rest = []
      | Some e => failed_log msg e d rest
      end).
Proof.
  unfold Send, send. del_step. del_step. del_use sendCtx_spec. intros c k0 s0 (-> & ? & _).
  del_run. destruct a as [e|].
  - del_use failed_spec. intros d k s1 (? & ? & ? & ?).
    split_and!; [unfold flags in *; solve_same| |done|].
    + eapply tracker_after_eq; [|done]. solve_same.
    + eexists _, _, k. by split.
  - del_step. del_use LProgress_spec. intros _ k s1 (-> & ? & ?). del_run.
    split_and!; [unfold flags in *; solve_same|simpl; solve_same|done|].
    eexists _, _, []. by split_and!.
Qed.

(** The sender is called once, with the run context or with one of its own
    that ends [SendTimeout] after the call at the latest. *)
Definition given (ctx c : cx) : Prop :=
  if 0 <? SendTimeout l then ∃ t, c = Call t ctx (SendTimeout l) else c = ctx.
Lemma send_spec ctx msg s :
  del (send l ctx msg) s (λ r k s', stuck s' = stuck s ∧ ∃ c, k = [ESend c msg r] ∧ given ctx c).
Proof.
  unfold send. del_step. del_use sendCtx_spec. intros c k0 s0 (-> & ? & Hc). del_run.
  split; [solve_same|]. by exists c.
Qed.
(** The lane gives a failed message up exactly when the run context is found
    dead right after the send. *)
Lemma failed_canceled ctx pos msg e s :
  (failed l ctx pos msg e s).1 = Canceled ↔ ErrAt ctx (now (world s)).1 ≠ None.
Proof.
  unfold failed. rewrite run_bind.
  change (ctxErr ctx s).1 with (ErrAt ctx (now (world s)).1).
  destruct (ErrAt ctx (now (world s)).1) as [er|]; simpl; [done|].
  assert (∀ (d : Disposition), d ≠ Canceled → (d = Canceled ↔ None ≠ @None err)) as Hno by (intros; naive_solver).
  destruct (permanent l e); rewrite run_bind; destruct (MessageFailure _ _ _ _ _ _) as [[pe|] s1]; simpl;
    rewrite ?run_bind; simpl; by apply Hno.
Qed.

(** The disposition says exactly whether the message was disposed of. *)
Lemma Send_disposed ctx pos msg s :
  hooks_ok →
  del (Send l ctx pos msg) s (λ d k s', flags s s' ∧
    disposed k = (if decide (d = Sent ∨ d = Parked) then [msg] else []) ∧
    sent_msgs k = (if decide (d = Sent) then [msg] else []) ∧
    (d = Canceled → cx_done ctx ≠ None)).
Proof.
  intros Hok. del_use Send_spec. intros d k s1 (? & _ & ? & c & r & rest & -> & Hr).
  rewrite disposed_cons, sent_msgs_cons. destruct r as [e|].
  - destruct (failed_log_disposed _ _ _ _ Hok Hr) as [-> ->].
    split_and!; [done| | |done]; by destruct d.
  - destruct Hr as [-> ->]. by split_and!.
Qed.

Lemma progressAll_spec ps s :
  del (progressAll ps) s (λ _ k s',
    k = [] ∧ stuck s' = foldl Progress (stuck s) ps ∧ flags s s').
Proof.
  revert s. induction ps as [|p ps IH]; intros s; simpl; [by del_run|].
  del_step. del_use LProgress_spec. intros _ k s1 (-> & Hs1 & ?).
  del_use IH. intros _ k2 s2 (-> & -> & ?). rewrite Hs1. split_and!; [done..|].
  by transitivity s1.
Qed.

(** What one batch leaves behind. *)
Definition batch_log (ctx : cx) (msgs : list Message) (sent advanced : Z)
    (d : Disposition) (k : list ev) : Prop :=
  ∃ c n r rest, k = ESendBatch c msgs n r :: rest ∧ sent = clamp n (zlen msgs) ∧
    if sent =? zlen msgs then
      rest = [] ∧ advanced = sent ∧ d = (if r is Some _ then Stopped else Sent)
    else ∃ m e, msgs !! Z.to_nat sent = Some m ∧ failed_log m e d rest ∧
      (∀ e', r = Some e' → e = e') ∧
      advanced = sent + (if decide (d = Parked) then 1 else 0).

Lemma SendBatch_spec ctx ps msgs s :
  del (SendBatch l ctx ps msgs) s (λ r k s', flags s s' ∧
    batch_log ctx msgs r.1.1 r.1.2 r.2 k ∧
    (r.2 = Canceled → cx_done ctx ≠ None)).
Proof.
  unfold SendBatch. del_step. del_use sendCtx_spec. intros c k0 s0 (-> & ? & _).
  del_step. set (m := match Batch l with Some _ => _ | None => _ end).
  assert (Hm : del m s0 (λ _ k s', same s0 s' ∧ k = [])).
  { subst m. destruct (Batch l); by del_run. }
  del_use Hm. clear Hm m. intros [n0 r] k1 s1 [? ->]. del_run. del_use progressAll_spec.
  intros _ k2 s2 (-> & _ & ?).
  set (n := Z.min (Z.max n0 0) (zlen msgs)).
  assert (Hn : 0 <= n <= zlen msgs) by (subst n; pose proof (zlen_nonneg msgs); lia).
  unfold batch_log. destruct (n =? zlen msgs) eqn:En.
  { destruct r; del_run; (split_and!; [unfold flags in *; solve_same| |done]);
      eexists _, _, _, []; simpl; rewrite En; by split_and!. }
  zbool. destruct (msgs !! Z.to_nat n) as [m|] eqn:Em; cycle 1.
  { apply lookup_ge_None in Em. unfold zlen in *. lia. }
  del_step. del_use failed_spec. intros d k s3 (? & Hlog & _ & ?).
  assert (Hgoal : ∃ c' n' r' rest, ESendBatch c msgs n0 r :: k = ESendBatch c' msgs n' r' :: rest ∧
    n = clamp n' (zlen msgs) ∧ if n =? zlen msgs then False else
    ∃ m e, msgs !! Z.to_nat n = Some m ∧ failed_log m e d rest ∧ (∀ e', r' = Some e' → e = e')).
  { eexists _, _, _, _. split_and!; [done|done|]. rewrite (proj2 (Z.eqb_neq _ _) En).
    eexists _, _. split_and!; [done|done|]. intros e' ->. done. }
  destruct Hgoal as (c' & n' & r' & rest & Hk & Hn' & Hrest).
  destruct d; simpl in Hlog; [done| | |]; del_run; simpl; rewrite app_nil_r;
    (split_and!; [unfold flags in *; solve_same| |done]);
    eexists c', n', r', rest; simpl; rewrite (proj2 (Z.eqb_neq _ _) En) in *;
    (split_and!; [done|done|]); destruct Hrest as (? & ? & ? & ? & ?);
    eexists _, _; (split; [done|]); (split; [done|]); (split; [done|]);
    repeat case_decide; done || lia.
Qed.

Lemma SendBatch_disposed ctx ps msgs s :
  hooks_ok →
  del (SendBatch l ctx ps msgs) s (λ r k s', flags s s' ∧
    let '(sent, advanced, d) := r in
    0 <= sent <= advanced ∧ advanced <= zlen msgs ∧
    disposed k = ztake advanced msgs ∧ sent_msgs k = ztake sent msgs ∧
    match d with
    | Sent => advanced = zlen msgs
    | Parked => advanced = sent + 1
    | Stopped => advanced = sent
    | Canceled => advanced = sent ∧ cx_done ctx ≠ None
    end).
Proof.
  intros Hok. del_use SendBatch_spec. intros [[sent adv] d] k s1 (? & Hb & Hc).
  simpl in *. split; [done|]. destruct Hb as (c & n & r & rest & -> & Hs & Hrest).
  pose proof (clamp_bounds n (zlen msgs) (zlen_nonneg _)) as Hb. rewrite <-Hs in Hb.
  rewrite disposed_cons, sent_msgs_cons. simpl. rewrite <-Hs.
  destruct (sent =? zlen msgs) eqn:En; zbool.
  - destruct Hrest as (-> & -> & ->). rewrite !app_nil_r.
    split_and!; try (done || lia). by destruct r.
  - destruct Hrest as (m & e & Hm & Hlog & _ & ->).
    destruct (failed_log_disposed _ _ _ _ Hok Hlog) as [-> ->]. rewrite app_nil_r.
    split_and!; try (done || lia); [destruct (decide _); lia..| |].
    + destruct (decide (d = Parked)) as [->|]; [|by rewrite app_nil_r, Z.add_0_r].
      unfold ztake. replace (Z.to_nat (sent + 1)) with (S (Z.to_nat sent)) by lia.
      by rewrite (take_S_r _ _ _ Hm).
    + destruct d; repeat case_decide; try done; try lia.
      split; [lia|by apply Hc].
Qed.
End specs.

(** Events of the lane: sends, parks, and signals. *)
Definition is_lane `{UrlLib} (e : ev) : bool :=
  match e with ESend _ _ _ | ESendBatch _ _ _ _ | EPark _ _ _ _ => true | _ => is_signal e end.
Definition lane_log `{UrlLib} (k : list ev) : Prop := Forall (λ e, is_lane e = true) k.

Lemma signals_lane `{UrlLib} k : signals k → lane_log k.
Proof. intros Hk. eapply Forall_impl; [exact Hk|]. by intros []. Qed.
Lemma lane_log_app `{UrlLib} k k' : lane_log k → lane_log k' → lane_log (k ++ k').
Proof. apply Forall_app_2. Qed.
Lemma failed_log_lane `{UrlLib} {W P} (l : Lane W P) m e d k :
  failed_log l m e d k → lane_log k.
Proof.
  pose proof (λ pe, signals_lane _ (failure_report_signals (LReporter l) e pe)) as Hr.
  destruct d; simpl; [done| | |by intros ->; constructor].
  - intros [_ Hk]. destruct (Poison l).
    + destruct Hk as [c ->]. constructor; [done|apply Hr].
    + subst k. apply Hr.
  - intros (tail & Ht & [[_ ->]|(_ & c & pe & ->)]).
    + apply lane_log_app; [apply Hr|by apply signals_lane].
    + constructor; [done|]. apply lane_log_app; [apply Hr|by apply signals_lane].
Qed.

(** The lane's two moves, with the kind of events they leave. *)
Section lanes.
Context `{UrlLib} {W P : Type} `{Host W} `{GoZero P, EqDecision P}.

Lemma Send_disposed_lane (l : Lane W P) ctx pos msg s :
  hooks_ok l →
  del (Send l ctx pos msg) s (λ d k s', lane_log k ∧
    disposed k = (if decide (d = Sent ∨ d = Parked) then [msg] else []) ∧
    sent_msgs k = (if decide (d = Sent) then [msg] else []) ∧
    (d = Canceled → cx_done ctx ≠ None)).
Proof.
  intros Hok. destruct (Send_disposed l ctx pos msg s Hok) as (k & Hk & _ & Hd).
  exists k. split; [done|]. split; [|done].
  destruct (Send_spec l ctx pos msg s) as (k' & Hk' & _ & _ & _ & c & x & rest & -> & Hx).
  rewrite Hk in Hk'. apply app_inv_head in Hk' as ->. constructor; [done|].
  destruct x; [by eapply failed_log_lane|]. destruct Hx as [_ ->]. constructor.
Qed.

Lemma SendBatch_disposed_lane (l : Lane W P) ctx ps msgs s :
  hooks_ok l →
  del (SendBatch l ctx ps msgs) s (λ r k s', lane_log k ∧
    let '(sent, advanced, d) := r in
    0 <= sent <= advanced ∧ advanced <= zlen msgs ∧
    disposed k = ztake advanced msgs ∧ sent_msgs k = ztake sent msgs ∧
    match d with
    | Sent => advanced = zlen msgs
    | Parked => advanced = sent + 1
    | Stopped => advanced = sent
    | Canceled => advanced = sent ∧ cx_done ctx ≠ None
    end).
Proof.
  intros Hok. destruct (SendBatch_disposed l ctx ps msgs s Hok) as (k & Hk & _ & Hd).
  exists k. split; [done|]. split; [|done].
  destruct (SendBatch_spec l ctx ps msgs s) as (k' & Hk' & _ & Hb & _).
  rewrite Hk in Hk'. apply app_inv_head in Hk' as ->.
  destruct Hb as (c & n & x & rest & -> & _ & Hrest). constructor; [done|].
  destruct (_ =? _); [destruct Hrest as [-> _]; constructor|].
  destruct Hrest as (m & e & _ & Hf & _). by eapply failed_log_lane.
Qed.
End lanes.

(** ** Properties *)
Section properties.
  Context `{UrlLib} {W P : Type} `{Host W} `{GoZero P, EqDecision P}.
  Implicit Types (l : Lane W P).

(** A failure is permanent for a lane when the transport marked the event
    unsendable and a handler is there to take it, or the classifier says so. *)
Definition hopeless l (e : err) : Prop :=
  Poison l ≠ None ∧ Is (Some e) ErrUnsendable = true ∨ ∃ f, Unsendable l = Some f ∧ f e = true.
Lemma permanent_hopeless l e : if permanent l e then hopeless l e else ¬ hopeless l e.
Proof.
  unfold permanent, hopeless. destruct (Poison l), (Is (Some e) ErrUnsendable), (Unsendable l) as [f|]; simpl;
    try (left; split; [congruence|done]); try destruct (f e) eqn:E;
    solve [right; eauto|intros [[? [=]]|(? & [= <-] & ?)]; congruence|intros [[? ?]|(? & ? & ?)]; done].
Qed.
(** Progress at a position ends the stuck episode there, and an episode of a lane
    that does not tell its messages apart; one of another message goes on. *)
Definition episode_ends (pos : P) (k k' : StuckTracker P) : Prop :=
  if decide (active k = true ∧ (identified k = true → position k = pos)) then k' = freshTracker else k' = k.
Lemma Progress_episode pos k : episode_ends pos k (Progress k pos).
Proof.
  unfold episode_ends, Progress.
  destruct (decide _) as [[-> Hi]|Hn]; cbn [negb].
  - destruct (identified k); [|done]. by rewrite Hi, bool_decide_eq_false_2 by auto.
  - destruct (active k); [|done]. destruct (identified k); [|by destruct Hn].
    case_bool_decide; [done|]. destruct Hn. split; [done|]. intros _. by destruct (decide (position k = pos)).
Qed.
(** A stop is an episode of its position: the one that was running, or a new one. *)
Definition episode_at (pos : P) (ident : bool) (k k' : StuckTracker P) : Prop :=
  active k' = true ∧ position k' = pos ∧
  if decide (active k = true ∧ position k = pos)
  then identified k' = identified k ∧ since k' = since k ∧ (escalated k = true → escalated k' = true)
  else identified k' = ident ∧ escalated k' = false.
Lemma Stuck_episode t pos i k : episode_at pos i k (Stuck t k pos i).2.
Proof.
  unfold episode_at, Stuck. destruct (decide _) as [[Ha Hp]|Hn].
  - rewrite Ha, bool_decide_eq_false_2 by (intros ?; auto). cbn [negb orb].
    repeat case_match; cbn [fst snd active position identified since escalated]; by split_and!.
  - destruct (active k); cbn [negb orb]; [|done].
    rewrite bool_decide_eq_true_2 by naive_solver. by split_and!.
Qed.

(** C30: the whole policy for one message, for any sender, handler and
    classifier. The sender is called once, with the run context or a time limit of
    its own under it. A delivered message ends its stuck episode. A failed one is
    given up exactly when the run context is dead at the clock's reading right
    after the send: then, whatever the failure, nothing is parked or reported and
    the stuck episode stays as it is. While the context is alive a failed message
    is parked when the failure is permanent for it and the handler confirms, and
    only then counts as progress, and stops the lane otherwise, after being
    reported, as an episode of its position. A failure that is not permanent
    never reaches the handler; one that is permanent by the classifier alone, on
    a lane without a handler, is taken for parked. *)
Theorem Send_policy l ctx pos msg (s : core W P) :
  let dead := ErrAt ctx (now (world (send l ctx msg s).2)).1 in
  del (Send l ctx pos msg) s (λ d k s', ∃ c r rest,
    k = ESend c msg r :: rest ∧ given l ctx c ∧
    match r, dead with
    | None, _ => d = Sent ∧ rest = [] ∧ episode_ends pos (stuck s) (stuck s')
    | Some _, Some _ => d = Canceled ∧ rest = [] ∧ stuck s' = stuck s
    | Some e, None =>
        (d = Parked ∧ hopeless l e ∧ episode_ends pos (stuck s) (stuck s') ∧
         match Poison l with
         | Some _ => ∃ cp, rest = EPark cp msg e None :: failure_report (LReporter l) e None
         | None => rest = failure_report (LReporter l) e None
         end) ∨
        (d = Stopped ∧ episode_at pos (ident l pos) (stuck s) (stuck s') ∧
         ∃ tail, signals tail ∧
           (hopeless l e ∧ (∃ cp pe, rest = EPark cp msg e (Some pe) ::
                              failure_report (LReporter l) e (Some pe) ++ tail) ∨
            ¬ hopeless l e ∧ rest = failure_report (LReporter l) e None ++ tail))
    end).
Proof.
  destruct (send_spec l ctx msg s) as (k1 & Hk1 & Hs1 & c & -> & Hc). cbv zeta. unfold Send.
  apply del_bind. exists [ESend c msg (send l ctx msg s).1]. split; [exact Hk1|].
  destruct (send l ctx msg s) as [[e|] s1]; cbn [fst snd] in *.
  - pose proof (failed_canceled l ctx pos msg e s1) as Hcan. pose proof (permanent_hopeless l e) as Hh.
    destruct (failed_spec l ctx pos msg e s1) as (k2 & Hk2 & _ & Hlog & Htr & _).
    exists k2. split; [exact Hk2|]. exists c, (Some e), k2. split_and!; [done|done|].
    destruct (failed l ctx pos msg e s1) as [d s2]; cbn [fst snd] in *. rewrite Hs1 in Htr.
    destruct (ErrAt ctx (now (world s1)).1) as [er|].
    { rewrite (proj2 Hcan) in *; done. }
    destruct d; simpl in *; [done|left|right|by destruct (proj1 Hcan eq_refl)].
    + destruct Hlog as [Hp Hlog]. rewrite Hp in Hh. rewrite Htr. pose proof (Progress_episode pos (stuck s)). by split_and!.
    + destruct Htr as [t ->]. split_and!; [done|apply Stuck_episode|].
      destruct Hlog as (tail & Ht & [[Hp ->]|(Hp & cp & pe & ->)]); rewrite Hp in Hh; exists tail; split; [done| |done|];
        [right|left]; eauto.
  - del_step. del_use LProgress_spec. intros _ k s2 (-> & Hst & _). del_run.
    eexists c, None, []. rewrite Hst, Hs1. pose proof (Progress_episode pos (stuck s)). by split_and!.
Qed.

(** A lane never lets its runtime advance past a message that was not
    disposed of, and always lets it advance past one that was: a message is
    reported [Sent] or [Parked] exactly when the sender confirmed it or the
    poison handler confirmed its park, and [Sent] exactly when it was delivered.
    This needs a handler wherever there is a classifier: without one, a park is
    "confirmed" by nobody. *)
Theorem Send_advances_disposed l ctx pos msg (s : core W P) :
  hooks_ok l →
  del (Send l ctx pos msg) s (λ d k s',
    disposed k = (if decide (d = Sent ∨ d = Parked) then [msg] else []) ∧
    sent_msgs k = (if decide (d = Sent) then [msg] else [])).
Proof. intros Hok. del_use Send_disposed; [done|]. naive_solver. Qed.

(** C14: the batch form keeps to the same rule for a whole batch: the positions
    it allows to advance past are those of a contiguous prefix of the batch, the
    messages of that prefix are exactly the ones disposed of, and the delivered
    ones are the prefix itself, short of one message when that one was parked.
    An over- or under-counting sender cannot move it outside the batch, and a
    batch is complete exactly when the lane says so. *)
Theorem SendBatch_prefix l ctx ps msgs (s : core W P) :
  hooks_ok l →
  del (SendBatch l ctx ps msgs) s (λ r k s',
    let '(sent, advanced, d) := r in
    0 <= sent <= advanced ∧ advanced <= zlen msgs ∧
    disposed k = ztake advanced msgs ∧ sent_msgs k = ztake sent msgs ∧
    match d with
    | Sent => advanced = zlen msgs
    | Parked => advanced = sent + 1
    | Stopped => advanced = sent
    | Canceled => advanced = sent ∧ cx_done ctx ≠ None
    end).
Proof. intros Hok. del_use SendBatch_disposed; [done|]. by intros [[??]?] ?? [_ ?]. Qed.
End properties.

Definition demo_lane (unsendable : option (err → bool)) : Lane Scenario.script Z :=
  mkLane (mkReporter Scenario.all_signals (30 * Second)) Scenario.scripted_send
    (Some Scenario.scripted_batch) (Some Scenario.scripted_park) unsendable
    (λ _ id, id) None (30 * Second).
Definition demo_state (answers : list error) : core Scenario.script Z :=
  mkCore (Scenario.mkScript 1000 answers) [] freshTracker false true.
Lemma Send_advances_disposed_witness :
  let r := Send (demo_lane None) Background 1 (Scenario.message 1 "a")
    (demo_state [Some (Sentinel ErrUnsendable); None]) in
  r.1 = Parked ∧ ∃ k, trace r.2 = k ∧ disposed k = [Scenario.message 1 "a"].
Proof.
  intros r. destruct (Send_advances_disposed (demo_lane None) Background 1 (Scenario.message 1 "a")
    (demo_state [Some (Sentinel ErrUnsendable); None])) as (k & Hk & Hd & _); [done|].
  split; [reflexivity|]. exists k. split; [exact Hk|exact Hd].
Defined.
Lemma SendBatch_prefix_witness :
  ∃ k, disposed k = ztake 2 [Scenario.message 1 "a"; Scenario.message 2 "b"; Scenario.message 3 "c"].
Proof.
  destruct (SendBatch_prefix (demo_lane None) Background [1; 2; 3]
    [Scenario.message 1 "a"; Scenario.message 2 "b"; Scenario.message 3 "c"]
    (demo_state [None; Some (Sentinel ErrUnsendable); None])) as (k & Hk & Hr); [done|].
  exists k. exact (proj1 (proj2 (proj2 Hr))).
Defined.
