(* ===== verification/RelayCfg.v ===== *)
(** * internal/relaycfg: the configuration both relay runtimes share

    Durations are 64-bit integers of nanoseconds: the sum of two of them wraps
    around, their comparison and their halving do not. *)
From S2P Require Import Prelude Errors GoLib Event Bound Relay Notify Leader.

Definition MaxNameLen : Z := 64.

Record Lease := mkLease {
  LeaseTTL : Z; LeaderLockName : string; LeaderElectionDisabled : bool }.
Record Ops := mkOps { OpTimeout : Z }.
Record Hooks `{UrlLib} (W : Type) := mkHooks {
  HObserver : Observer;
  HPoisonHandler : option (PoisonHandler (W := W));
  HUnsendable : option (err → bool) }.
#[global] Arguments mkHooks {_ _} _ _ _.
#[global] Arguments HObserver {_ _} _.
#[global] Arguments HPoisonHandler {_ _} _.
#[global] Arguments HUnsendable {_ _} _.

Definition DefaultLease : Lease := mkLease (60 * Second) "" false.
Definition DefaultOps : Ops := mkOps (30 * Second).
Definition no_signals : Observer := mkObserver false false false false false.
Definition DefaultHooks `{UrlLib} {W} : Hooks W := mkHooks no_signals None None.

(** Validation returns the error and the lease with its lock name filled in. *)
Definition Lease_Validate (l : Lease) (name : string) (tick : Z) : Lease * error :=
  let l := if String.eqb (LeaderLockName l) ""
           then mkLease (LeaseTTL l) name (LeaderElectionDisabled l) else l in
  let e :=
    if MaxNameLen <? len (LeaderLockName l) then Some (New "LeaderLockName exceeds 64 bytes")
    else if LeaseTTL l <=? 0 then Some (New "LeaseTTL must be > 0")
    else if Z.quot (LeaseTTL l) 2 <=? tick then Some (New "tick must be < LeaseTTL/2")
    else None in
  (l, e).

Definition Ops_Validate (o : Ops) (tick leaseTTL : Z) : error :=
  if OpTimeout o <=? 0 then Some (New "OpTimeout must be > 0")
  else if OpTimeout o <=? tick then Some (New "tick must be < OpTimeout")
  else if leaseTTL <=? wrap64 (tick + OpTimeout o)
  then Some (New "tick + OpTimeout must be < LeaseTTL")
  else None.

Definition Hooks_Validate `{UrlLib} {W} (h : Hooks W) : error :=
  match HUnsendable h, HPoisonHandler h with
  | Some _, None => Some (New "WithUnsendableClassifier requires WithPoisonHandler")
  | _, _ => None
  end.

Definition ValidateName (name : string) : error :=
  if String.eqb name "" then Some (New "name must not be empty")
  else if MaxNameLen <? len name then Some (New "name exceeds 64 bytes")
  else None.

(** [store] is the store's leader capability, when its method set has one;
    [holder] the fresh identity [uuid.NewString] returns. *)
Definition ElectorOf {W} (l : Lease) (store : option (LeaderStore W)) (holder : string) :
    Elector W + err :=
  if LeaderElectionDisabled l
  then inl (NewElector None (LeaderLockName l) holder (LeaseTTL l))
  else match store with
       | None => inr (New "store does not implement relay.LeaderStore")
       | Some st => inl (NewElector (Some st) (LeaderLockName l) holder (LeaseTTL l))
       end.

Definition Hooks_Reporter `{UrlLib} {W} (h : Hooks W) (parkTimeout : Z) : Reporter :=
  mkReporter (HObserver h) parkTimeout.

Definition ValidateDeps (hasStore hasSender : bool) : error :=
  if negb hasStore then Some (wrapf "" (Sentinel errNilStore))
  else if negb hasSender then Some (wrapf "" (Sentinel errNilSender))
  else None.

(** ** Lemmas *)
Lemma Ops_Validate_accepts o tick leaseTTL :
  Ops_Validate o tick leaseTTL = None ↔
  0 < OpTimeout o ∧ tick < OpTimeout o ∧ wrap64 (tick + OpTimeout o) < leaseTTL.
Proof.
  unfold Ops_Validate. repeat case_match; zbool; split; try done; try lia; naive_solver lia.
Qed.
Lemma Lease_Validate_accepts l name tick :
  (Lease_Validate l name tick).2 = None ↔
  let lock := if String.eqb (LeaderLockName l) "" then name else LeaderLockName l in
  len lock <= MaxNameLen ∧ 0 < LeaseTTL l ∧ tick < Z.quot (LeaseTTL l) 2.
Proof.
  unfold Lease_Validate. destruct (String.eqb _ _); simpl; repeat case_match; zbool;
    split; try done; try lia; naive_solver lia.
Qed.

(** What validation and construction keep. *)
Lemma Lease_Validate_fields l n tick :
  LeaseTTL (Lease_Validate l n tick).1 = LeaseTTL l ∧
  LeaderElectionDisabled (Lease_Validate l n tick).1 = LeaderElectionDisabled l.
Proof. unfold Lease_Validate. by destruct (String.eqb _ _). Qed.
Lemma ElectorOf_fields {W} lease (st : option (LeaderStore W)) holder el :
  ElectorOf lease st holder = inl el →
  (∀ l, ls el = Some l → st = Some l) ∧ ttl el = LeaseTTL lease ∧
  (ls el = None → LeaderElectionDisabled lease = true).
Proof. unfold ElectorOf. destruct (LeaderElectionDisabled lease), st; intros; by simplify_eq/=. Qed.

(** ** Properties *)

(** An accepted pair of budgets lets the lease contain a pass: as long as
    the sum of tick and operation timeout is a representable duration, the two
    validations accept exactly when the tick is below half the lease and below
    the operation timeout, and tick plus operation timeout is below the lease.
    The shipped defaults are accepted. *)
Theorem budgets_contain_pass l o name tick :
  in64 (tick + OpTimeout o) →
  ((Lease_Validate l name tick).2 = None ∧ Ops_Validate o tick (LeaseTTL l) = None ↔
   len (LeaderLockName (Lease_Validate l name tick).1) <= MaxNameLen ∧
   0 < LeaseTTL l ∧ tick < Z.quot (LeaseTTL l) 2 ∧
   0 < OpTimeout o ∧ tick < OpTimeout o ∧ tick + OpTimeout o < LeaseTTL l).
Proof.
  intros Hin. rewrite Ops_Validate_accepts, Lease_Validate_accepts, wrap64_id by done.
  unfold Lease_Validate. simpl. destruct (String.eqb _ _); simpl; naive_solver.
Qed.
Lemma budgets_contain_pass_witness :
  (Lease_Validate DefaultLease "books" Second).2 = None ∧
  Ops_Validate DefaultOps Second (LeaseTTL DefaultLease) = None.
Proof.
  apply (budgets_contain_pass DefaultLease DefaultOps "books" Second);
    vm_compute; repeat split; discriminate.
Defined.

(** The containment check is lost to overflow for a very long operation
    timeout: an operation timeout of [math.MaxInt64], the usual spelling of no
    timeout, is accepted with any positive tick and any lease longer than two
    ticks, although one store call may then outlast every lease. *)
Theorem budgets_overflow l name tick :
  0 < tick < maxInt64 → tick < Z.quot (LeaseTTL l) 2 → len name <= MaxNameLen →
  LeaderLockName l = ""%string →
  (Lease_Validate l name tick).2 = None ∧
  Ops_Validate (mkOps maxInt64) tick (LeaseTTL l) = None.
Proof.
  intros Ht Hq Hn Hl. rewrite Ops_Validate_accepts, Lease_Validate_accepts, Hl. simpl.
  assert (0 < LeaseTTL l) by (destruct (Z.leb_spec (LeaseTTL l) 0); [|done];
    pose proof (Z.quot_le_mono (LeaseTTL l) 0 2 ltac:(lia) ltac:(done)) as Hm;
    change (Z.quot 0 2) with 0 in Hm; lia).
  split_and!; try (done || unfold maxInt64 in *; lia).
  unfold wrap64, maxInt64 in *.
  replace (tick + (2^63 - 1) + 2^63) with (tick - 1 + 1 * 2^64) by lia.
  rewrite Z_mod_plus_full, Z.mod_small by lia. lia.
Qed.
Lemma budgets_overflow_witness :
  Ops_Validate (mkOps maxInt64) Second (10 * Second) = None.
Proof.
  apply (budgets_overflow (mkLease (10 * Second) "" false) "books" Second);
    vm_compute; try (split; reflexivity); try reflexivity; discriminate.
Defined.
