(* ===== verification/Sequence.v ===== *)
(** * relay/sequence: the sequenced-log relay

    [sequence.go] (options, construction), [bounded.go] (the operation budget
    every store call runs under) and [run.go] (one tick: elect, prime, sequence,
    drain, sweep; and the run loop). The store and its optional capabilities are
    arguments; every theorem holds for any of them. *)
From S2P Require Import Prelude Errors GoLib Event Bound Relay Scenario Notify Leader Lane RelayCfg.

(** ** Interfaces *)

(** [sequence.Store]; a slice result comes with its error. *)
Record Store `{UrlLib} (W : Type) := mkStore {
  ListMessages : cx → Z → Z → M W (list Message * error);
  Offset : cx → string → M W (res (Z * bool));
  CommitOffset : cx → string → Z → M W error;
  InitOffsetLatest : cx → string → M W (res Z) }.
#[global] Arguments mkStore {_ _} _ _ _ _.
#[global] Arguments ListMessages {_ _} _.
#[global] Arguments Offset {_ _} _.
#[global] Arguments CommitOffset {_ _} _.
#[global] Arguments InitOffsetLatest {_ _} _.

(** The optional capabilities: [Sequencer], [FencedCommitter], [Sweeper],
    [Clock], as the one method each has. *)
Definition Sequencer (W : Type) : Type := cx → Z → M W (res Z).
Definition FencedCommitter (W : Type) : Type :=
  cx → string → string → string → Z → M W (res bool).
Definition Sweeper (W : Type) : Type := cx → Z → M W (res Z).
Definition StoreClock (W : Type) : Type := cx → M W (res Z).

Record options `{UrlLib} (W : Type) := mkOptions {
  oLease : Lease; oOps : Ops; oHooks : Hooks W;
  BatchSize : Z; SequenceBatchSize : Z; PollInterval : Z;
  SequencerDisabled : bool; FencedCommitWaived : bool; StartFromBeginning : bool;
  RetentionConfigured : bool; RetentionDisabled : bool;
  RetentionSweepInterval : Z; RetentionSweepBatch : Z }.
#[global] Arguments mkOptions {_ _} _ _ _ _ _ _ _ _ _ _ _ _ _.
#[global] Arguments oLease {_ _} _.
#[global] Arguments oOps {_ _} _.
#[global] Arguments oHooks {_ _} _.
#[global] Arguments BatchSize {_ _} _.
#[global] Arguments SequenceBatchSize {_ _} _.
#[global] Arguments PollInterval {_ _} _.
#[global] Arguments SequencerDisabled {_ _} _.
#[global] Arguments FencedCommitWaived {_ _} _.
#[global] Arguments StartFromBeginning {_ _} _.
#[global] Arguments RetentionConfigured {_ _} _.
#[global] Arguments RetentionDisabled {_ _} _.
#[global] Arguments RetentionSweepInterval {_ _} _.
#[global] Arguments RetentionSweepBatch {_ _} _.

Definition Hour : Z := 60 * Minute.
Definition defaultRetentionSweepInterval : Z := Hour.
Definition defaultRetentionSweepBatch : Z := 1000.
Definition defaultOptions `{UrlLib} {W} : options W :=
  mkOptions DefaultLease DefaultOps DefaultHooks 100 1000 Second
    false false false false false defaultRetentionSweepInterval defaultRetentionSweepBatch.

(** A relay as constructed; what its run changes is [seqst]. *)
Record Relay `{UrlLib} (W : Type) := mkRelay {
  name : string;
  store : Store W;
  opts : options W;
  leader : Elector W;
  reporter : Reporter;
  lane : Lane W Z;
  sequencer : option (Sequencer W);
  fenced : option (FencedCommitter W);
  retention : option (Sweeper W);
  clock : option (StoreClock W) }.
#[global] Arguments mkRelay {_ _} _ _ _ _ _ _ _ _ _ _.
#[global] Arguments name {_ _} _.
#[global] Arguments store {_ _} _.
#[global] Arguments opts {_ _} _.
#[global] Arguments leader {_ _} _.
#[global] Arguments reporter {_ _} _.
#[global] Arguments lane {_ _} _.
#[global] Arguments sequencer {_ _} _.
#[global] Arguments fenced {_ _} _.
#[global] Arguments retention {_ _} _.
#[global] Arguments clock {_ _} _.

Record seqst `{UrlLib} (W : Type) := mkSeqst {
  base : core W Z;
  lastSweep : Z;
  passStoreNow : Z;
  passSkewWarned : bool }.
#[global] Arguments mkSeqst {_ _} _ _ _ _.
#[global] Arguments base {_ _} _.
#[global] Arguments lastSweep {_ _} _.
#[global] Arguments passStoreNow {_ _} _.
#[global] Arguments passSkewWarned {_ _} _.

Definition maxPagesPerTick : nat := 64.

Inductive pageOutcome := pageDone | pageFull | pageStopped | pageCanceled.
#[global] Instance pageOutcome_eq_dec : EqDecision pageOutcome.
Proof. solve_decision. Defined.

(** ** Construction *)
Section construction.
  Context `{UrlLib} {W : Type}.

(** What a store and a sender offer beyond their interfaces. *)
Record capabilities := mkCapabilities {
  capLeader : option (LeaderStore W);
  capSequencer : option (Sequencer W);
  capFenced : option (FencedCommitter W);
  capSweeper : option (Sweeper W);
  capClock : option (StoreClock W);
  capBatch : option (cx → list Outgoing → M W (Z * error)) }.

Definition stuckLabel (render : Z → string) (seq : Z) (_ : string) : string :=
  "seq " +:+ render seq.

(** [strconv.FormatInt] is the argument [render]; [holder] is the elector's
    fresh UUID. A nil store or sender is [None]. *)
Definition NewRelay (render : Z → string) (holder name : string) (st : option (Store W))
    (sender : option (cx → option Metadata → option string → M W error))
    (caps : capabilities) (o : options W) : Relay W + err :=
  match ValidateName name with Some e => inr e | None =>
  match ValidateDeps (if st is Some _ then true else false)
          (if sender is Some _ then true else false) with Some e => inr e | None =>
  match st, sender with
  | Some st, Some sender =>
  if PollInterval o <=? 0 then inr (New "PollInterval must be > 0")
  else if BatchSize o <=? 0 then inr (New "BatchSize must be > 0")
  else if SequenceBatchSize o <=? 0 then inr (New "SequenceBatchSize must be > 0")
  else
  let '(lease, lerr) := Lease_Validate (oLease o) name (PollInterval o) in
  match lerr with Some e => inr e | None =>
  match Ops_Validate (oOps o) (PollInterval o) (LeaseTTL lease) with Some e => inr e | None =>
  match Hooks_Validate (oHooks o) with Some e => inr e | None =>
  if RetentionConfigured o && RetentionDisabled o
  then inr (New "WithRetention and WithoutRetention are mutually exclusive")
  else if negb (RetentionDisabled o) &&
          ((RetentionSweepInterval o <=? 0) || (RetentionSweepBatch o <=? 0))
  then inr (New "the retention sweep requires RetentionSweepInterval > 0 and RetentionSweepBatch > 0")
  else
  match ElectorOf lease (capLeader caps) holder with inr e => inr e | inl elector =>
  let rep := Hooks_Reporter (oHooks o) (OpTimeout (oOps o)) in
  let ln := mkLane rep sender (capBatch caps) (HPoisonHandler (oHooks o))
              (HUnsendable (oHooks o)) (stuckLabel render) None (OpTimeout (oOps o)) in
  let seqr := if SequencerDisabled o then inl None else
    match capSequencer caps with
    | None => inr (New "store does not implement sequence.Sequencer")
    | Some q => inl (Some q)
    end in
  match seqr with inr e => inr e | inl q =>
  let retn := if RetentionDisabled o then inl None else
    match capSweeper caps with
    | Some w => inl (Some w)
    | None => if RetentionConfigured o
              then inr (New "WithRetention is set but store does not implement sequence.Sweeper")
              else inl None
    end in
  match retn with inr e => inr e | inl w =>
  let fen := if negb (FencedCommitWaived o) && negb (LeaderElectionDisabled (oLease o)) then
      match capFenced caps with
      | None => inr (New "store does not implement sequence.FencedCommitter")
      | Some f => inl (Some f)
      end
    else inl None in
  match fen with inr e => inr e | inl f =>
  inl (mkRelay name st
    (mkOptions lease (oOps o) (oHooks o) (BatchSize o) (SequenceBatchSize o) (PollInterval o)
       (SequencerDisabled o) (FencedCommitWaived o) (StartFromBeginning o)
       (RetentionConfigured o) (RetentionDisabled o)
       (RetentionSweepInterval o) (RetentionSweepBatch o))
    elector rep ln q f w (capClock caps))
  end end end end end end end
  | _, _ => inr (New "unreachable")
  end end end.
End construction.

(** ** run.go *)
Section run.
  Context `{UrlLib} {W : Type} `{Host W}.
  #[local] Abbreviation S := (seqst W).
  Context (r : Relay W).

(** A computation of a shared part, on this state. *)
Definition up {A} (m : M (core W Z) A) : M S A := λ s,
  ((m (base s)).1, mkSeqst (m (base s)).2 (lastSweep s) (passStoreNow s) (passSkewWarned s)).
Definition set_lastSweep (t : Z) : M S unit := λ s,
  (tt, mkSeqst (base s) t (passStoreNow s) (passSkewWarned s)).
Definition set_pass (t : Z) (b : bool) : M S unit := λ s,
  (tt, mkSeqst (base s) (lastSweep s) t b).

Definition optimeout : Z := OpTimeout (oOps (opts r)).

(** bounded.go: the decorators [boundedStore], [boundedFencedCommitter],
    [boundedSequencer], [boundedRetention], [boundedClock]. *)
Definition bounded {A} (budget : Z → cx → Z → cx) (ctx : cx) (call : cx → M W A) :
    M S (cx * A) :=
  t ← up (lift now);
  let c := budget t ctx optimeout in
  a ← up (lift (call c));
  mret (c, a).

Definition bListMessages (ctx : cx) (after limit : Z) : M S (list Message * error) :=
  x ← bounded Call ctx (λ c, ListMessages (store r) c after limit);
  up (emit (EList after x.2.1 x.2.2)) ;; mret x.2.
Definition bOffset (ctx : cx) : M S (res (Z * bool)) :=
  x ← bounded Call ctx (λ c, Offset (store r) c (name r));
  up (emit (EOffset x.2)) ;; mret x.2.
Definition bInitOffsetLatest (ctx : cx) : M S (res Z) :=
  x ← bounded Call ctx (λ c, InitOffsetLatest (store r) c (name r));
  up (emit (EInitOffset x.2)) ;; mret x.2.
Definition bCommitOffset (ctx : cx) (seq : Z) : M S error :=
  x ← bounded Commit ctx (λ c, CommitOffset (store r) c (name r) seq);
  up (emit (ECommit x.1 seq false (match x.2 with None => inl true | Some e => inr e end))) ;;
  mret x.2.
Definition bCommitOffsetFenced (f : FencedCommitter W) (ctx : cx) (seq : Z) : M S (res bool) :=
  x ← bounded Commit ctx (λ c, f c (name r) (LockName (leader r)) (HolderID (leader r)) seq);
  up (emit (ECommit x.1 seq true x.2)) ;; mret x.2.
Definition bSequenceMessages (q : Sequencer W) (ctx : cx) (limit : Z) : M S (res Z) :=
  x ← bounded Call ctx (λ c, q c limit);
  up (emit (ESequence limit x.2)) ;; mret x.2.
Definition bSweepMessages (w : Sweeper W) (ctx : cx) (limit : Z) : M S (res Z) :=
  x ← bounded Call ctx (λ c, w c limit);
  up (emit (ESweep limit x.2)) ;; mret x.2.
Definition bStoreNow (k : StoreClock W) (ctx : cx) : M S (res Z) :=
  x ← bounded Salvaged ctx k; mret x.2.

Definition commitOffset (ctx : cx) (seq : Z) : M S error :=
  match fenced r with
  | None => bCommitOffset ctx seq
  | Some f =>
      x ← bCommitOffsetFenced f ctx seq;
      match x with
      | inr e => mret (Some e)
      | inl false =>
          up (Error (reporter r)
            (wrapf "the watermark commit was rejected" (Sentinel errLostLeadership))) ;;
          mret (Some (Sentinel errLostLeadership))
      | inl true => mret None
      end
  end.

Definition renewLease (ctx : cx) : M S error :=
  x ← up (TryAcquire (leader r) ctx);
  match x with
  | inr e => mret (Some (Errorf "" [Sentinel errLostLeadership; Sentinel errLeaseRenewFailed; e]))
  | inl false => mret (Some (Sentinel errLostLeadership))
  | inl true => mret None
  end.

(** [sequence]: the loop over [maxPagesPerTick], as many pages as are left. *)
Fixpoint sequenceLoop (q : Sequencer W) (pages : nat) (ctx : cx) : M S error :=
  match pages with
  | O => mret None
  | Datatypes.S pages =>
      x ← bSequenceMessages q ctx (SequenceBatchSize (opts r));
      match x with
      | inr e => mret (Some e)
      | inl n =>
          (if 0 <? n then up (Sequenced (reporter r) n) else skip) ;;
          if n <? SequenceBatchSize (opts r) then mret None
          else
            dead ← up (ctxErr ctx);
            match dead with
            | Some e => mret (Some e)
            | None =>
                lost ← renewLease ctx;
                match lost with
                | Some e => mret (Some e)
                | None => sequenceLoop q pages ctx
                end
            end
      end
  end.
Definition sequence (ctx : cx) : M S error :=
  match sequencer r with
  | None => mret None
  | Some q => sequenceLoop q maxPagesPerTick ctx
  end.

Definition primeOffset (ctx : cx) : M S (res Z) :=
  x ← bOffset ctx;
  match x with
  | inr e => mret (inr e)
  | inl (offset, true) => mret (inl offset)
  | inl (offset, false) =>
      if StartFromBeginning (opts r) then
        e ← commitOffset ctx 0;
        match e with Some e => mret (inr e) | None => mret (inl offset) end
      else bInitOffsetLatest ctx
  end.

(** The serial loop of [forward], from the messages left and the results so far. *)
Fixpoint forwardSerial (ctx : cx) (msgs : list Message) (maxSeq sent : Z) :
    M S (Z * Z * pageOutcome) :=
  match msgs with
  | [] => mret (maxSeq, sent, pageDone)
  | m :: rest =>
      dead ← up (ctxErr ctx);
      if negb (isNil dead) then mret (maxSeq, sent, pageCanceled)
      else
        d ← up (Send (lane r) ctx (Seq m) m);
        match d with
        | Sent => forwardSerial ctx rest (Seq m) (sent + 1)
        | Parked => forwardSerial ctx rest (Seq m) sent
        | Canceled => mret (maxSeq, sent, pageCanceled)
        | Stopped => mret (maxSeq, sent, pageStopped)
        end
  end.

(** The loop of [forwardBatched] over the suffix that is left; every round
    advances or returns, so the page's length is fuel enough, and [None] is
    never the result (theorem [forwardBatched_terminates]). *)
Fixpoint forwardBatchedLoop (fuel : nat) (ctx : cx) (msgs : list Message) (maxSeq sent : Z) :
    M S (option (Z * Z * pageOutcome)) :=
  match msgs, fuel with
  | [], _ => mret (Some (maxSeq, sent, pageDone))
  | _, O => mret None
  | _, Datatypes.S fuel =>
      dead ← up (ctxErr ctx);
      if negb (isNil dead) then mret (Some (maxSeq, sent, pageCanceled))
      else
        x ← up (SendBatch (lane r) ctx (map Seq msgs) msgs);
        let '(n, advanced, d) := x : Z * Z * Disposition in
        let sent := sent + n in
        let maxSeq :=
          if 0 <? advanced
          then match msgs !! Z.to_nat (advanced - 1) with Some m => Seq m | None => maxSeq end
          else maxSeq in
        match d with
        | Sent | Parked => forwardBatchedLoop fuel ctx (zdrop advanced msgs) maxSeq sent
        | Canceled => mret (Some (maxSeq, sent, pageCanceled))
        | Stopped => mret (Some (maxSeq, sent, pageStopped))
        end
  end.
Definition forwardBatched (ctx : cx) (msgs : list Message) (offset : Z) :
    M S (Z * Z * pageOutcome) :=
  x ← forwardBatchedLoop (length msgs) ctx msgs offset 0;
  mret (default (offset, 0, pageStopped) x).

Definition forward (ctx : cx) (msgs : list Message) (offset : Z) : M S (Z * Z * pageOutcome) :=
  if Batching (lane r) then forwardBatched ctx msgs offset
  else forwardSerial ctx msgs offset 0.

Definition oldestAge (ctx : cx) (createTime : Z) : M S Z :=
  if negb (hasOnDrained (Obs (reporter r))) then mret 0
  else
    nowT ← up (lift now);
    nowT ← match clock r with
           | None => mret nowT
           | Some k =>
               cached ← gets passStoreNow;
               (if cached =? 0 then
                  x ← bStoreNow k ctx;
                  storeNow ← match x with
                             | inl t => mret t
                             | inr _ => up (emit (ELog Warn "store clock read failed")) ;; mret nowT
                             end;
                  w ← gets passSkewWarned;
                  set_pass storeNow w
                else skip) ;;
               gets passStoreNow
           end;
    let age := nowT - createTime in
    warned ← gets passSkewWarned;
    (if (age <? 0) && negb warned then
       c ← gets passStoreNow;
       set_pass c true ;;
       up (emit (ELog Warn "negative event age"))
     else skip) ;;
    mret age.

(** The parking of a poison row that follows a fully disposed prefix: whether it
    was parked, and the handler's error. *)
Definition parkPoison (ctx : cx) (poison : option (err * string * Z)) (outcome : pageOutcome) :
    M S (bool * error) :=
  match poison, outcome, Poison (lane r) with
  | Some (cause, id, seq), pageDone, Some _ =>
      dead ← up (ctxErr ctx);
      if negb (isNil dead) then mret (false, None)
      else
        e ← up (Park (lane r) ctx seq (mkMessage id seq None None 0) cause);
        mret (isNil e, e)
  | _, _, _ => mret (false, None)
  end.

(** [drainPage], in its three parts: the report and the outcome of a page whose
    deliveries are committed; deliveries, park and commit; the page itself. *)
Definition finishPage (ctx : cx) (msgs : list Message) (listErr : error)
    (poison : option (err * string * Z)) (offset sent : Z) (outcome : pageOutcome)
    (parkedPoison : bool) (parkErr : error) : M S (Z * pageOutcome * error) :=
  let full := zlen msgs =? BatchSize (opts r) in
  (if (0 <? zlen msgs) || parkedPoison then
     let more := negb (bool_decide (outcome = pageDone)) || full ||
                 (if poison is Some _ then true else false) in
     age ← match msgs with
           | [] => mret 0
           | m :: _ => oldestAge ctx (CreateTime m)
           end;
     up (Drained (reporter r) sent age more)
   else skip) ;;
  if negb (bool_decide (outcome = pageDone)) then mret (offset, outcome, None)
  else match poison with
  | Some (_, rowID, seq) =>
      if negb parkedPoison then
        let joined := Join [listErr; parkErr] in
        match joined with
        | Some e => up (LStuck (lane r) seq rowID e)
        | None => skip
        end ;;
        mret (offset, pageDone, joined)
      else mret (offset, pageFull, None)
  | None =>
      if negb full then mret (offset, pageDone, None) else mret (offset, pageFull, None)
  end.

Definition deliverPage (ctx : cx) (offset : Z) (msgs : list Message) (listErr : error) :
    M S (Z * pageOutcome * error) :=
  let poison := As asSeqDecode listErr in
  f ← forward ctx msgs offset;
  let '(maxSeq, sent, outcome) := f : Z * Z * pageOutcome in
  p ← parkPoison ctx poison outcome;
  let '(parkedPoison, parkErr) := p : bool * error in
  let maxSeq := match poison with
                | Some (_, _, seq) => if parkedPoison then Z.max maxSeq seq else maxSeq
                | None => maxSeq
                end in
  c ← (if offset <? maxSeq then commitOffset ctx maxSeq else mret None);
  match c with
  | Some e => mret (offset, pageDone, Some e)
  | None =>
      let offset := if offset <? maxSeq then maxSeq else offset in
      finishPage ctx msgs listErr poison offset sent outcome parkedPoison parkErr
  end.

Definition drainPage (ctx : cx) (offset : Z) : M S (Z * pageOutcome * error) :=
  x ← bListMessages ctx offset (BatchSize (opts r));
  let '(msgs, listErr) := x : list Message * error in
  match listErr, As asSeqDecode listErr with
  | Some e, None =>
      dead ← up (ctxErr ctx);
      (if isNil dead then up (LStuck (lane r) offset "" e) else skip) ;;
      mret (offset, pageDone, Some e)
  | _, poison =>
      if (zlen msgs =? 0) && (if poison is Some _ then false else true)
      then mret (offset, pageDone, None)
      else deliverPage ctx offset msgs listErr
  end.

(** [drain]: pages until the log is drained, the lane stops, or the budget of
    pages is spent. *)
Fixpoint drainLoop (pages : nat) (ctx : cx) (offset : Z) : M S error :=
  match pages with
  | O => mret None
  | Datatypes.S pages =>
      x ← drainPage ctx offset;
      let '(next, outcome, err) := x : Z * pageOutcome * error in
      match err with
      | Some e => mret (Some e)
      | None =>
          match outcome with
          | pageCanceled => up (ctxCause ctx)
          | pageStopped | pageDone => mret None
          | pageFull =>
              dead ← up (ctxErr ctx);
              match dead with
              | Some e => mret (Some e)
              | None =>
                  lost ← renewLease ctx;
                  match lost with
                  | Some e => mret (Some e)
                  | None => drainLoop pages ctx next
                  end
              end
          end
      end
  end.
Definition drain (ctx : cx) (offset : Z) : M S error :=
  set_pass 0 false ;; drainLoop maxPagesPerTick ctx offset.

Fixpoint sweepLoop (w : Sweeper W) (pages : nat) (ctx : cx) : M S error :=
  match pages with
  | O => mret None
  | Datatypes.S pages =>
      x ← bSweepMessages w ctx (RetentionSweepBatch (opts r));
      match x with
      | inr e => mret (Some e)
      | inl n =>
          up (Swept (reporter r) n) ;;
          if n <? RetentionSweepBatch (opts r) then
            t ← up (lift now);
            set_lastSweep t ;;
            mret None
          else
            dead ← up (ctxErr ctx);
            match dead with
            | Some e => mret (Some e)
            | None => sweepLoop w pages ctx
            end
      end
  end.
Definition maybeSweep (ctx : cx) : M S error :=
  match retention r with
  | None => mret None
  | Some w =>
      last ← gets lastSweep;
      t ← up (lift now);
      if negb (last =? 0) && (t - last <? RetentionSweepInterval (opts r)) then mret None
      else sweepLoop w maxPagesPerTick ctx
  end.

(** The three phases of a tick whose errors are joined in phase order. *)
Definition phases (ctx : cx) : M S error :=
  prime ← primeOffset ctx;
  seqErr ← sequence ctx;
  drainErr ←
    match prime with
    | inl offset => if negb (Is seqErr errLostLeadership) then drain ctx offset else mret None
    | inr _ => mret None
    end;
  mret (Join [resErr prime; seqErr; drainErr]).

Definition RunOnce (ctx : cx) : M S error :=
  x ← up (TryAcquire (leader r) ctx);
  match x with
  | inr e => mret (Some e)
  | inl isLeader =>
      up (Leadership (reporter r) isLeader) ;;
      if negb isLeader then mret None
      else
        passErr ← phases ctx;
        if Is passErr errLostLeadership then
          up (Leadership (reporter r) false) ;;
          if Is passErr errLeaseRenewFailed then mret passErr else mret None
        else
          dead ← up (ctxErr ctx);
          if negb (isNil dead) then mret passErr
          else
            sweepErr ← maybeSweep ctx;
            mret (Join [passErr; sweepErr])
  end.

(** [Run]. [wait] is the select on the ticker and the context: true when the
    ticker's arm was chosen. [None]: still running after [ticks] rounds. The
    deferred release runs on every return, under the scope made at the start. *)
Definition pass (ctx : cx) : M S unit :=
  e ← RunOnce ctx;
  match e with
  | None => skip
  | Some e =>
      dead ← up (ctxErr ctx);
      if isNil dead then up (PassFailed (reporter r) e) else skip
  end.
Fixpoint runLoop (wait : cx → M W bool) (ticks : nat) (ctx : cx) : M S (option error) :=
  match ticks with
  | O => mret None
  | Datatypes.S ticks =>
      ticked ← up (lift (wait ctx));
      if negb ticked then c ← up (ctxCause ctx); mret (Some c)
      else
        dead ← up (ctxErr ctx);
        if negb (isNil dead) then c ← up (ctxCause ctx); mret (Some c)
        else pass ctx ;; runLoop wait ticks ctx
  end.
Definition Run (wait : cx → M W bool) (ticks : nat) (ctx : cx) : M S (option error) :=
  t0 ← up (lift now);
  let shutdown := ShutdownScope t0 in
  dead ← up (ctxErr ctx);
  res ← (if negb (isNil dead) then c ← up (ctxCause ctx); mret (Some c)
         else pass ctx ;; runLoop wait ticks ctx);
  match res with
  | None => mret None
  | Some c =>
      up (ReleaseLeadership (reporter r) shutdown (leader r)) ;;
      mret (Some c)
  end.
End run.
