(* ===== verification/SequenceFacts.v ===== *)
(** * relay/sequence: what a run does, phase by phase

    The lemmas on [Sequence]: the events each operation appends to the log.
    The properties built on them are in [SequenceProps]. *)
From S2P Require Import Prelude Errors GoLib Event Bound Relay Scenario Notify Leader Lane RelayCfg Sequence.
From Stdlib Require Import Sorting.Sorted.

#[export] Instance seqst_traced `{UrlLib} {W} : Traced (seqst W) := λ s, trace (base s).

Section rules.
Context `{UrlLib} {W : Type} `{Host W}.
#[local] Abbreviation S := (seqst W).
Context (r : Relay W).
Implicit Types (s : S).

(** The sweep clock moves only where the code sets it. *)
Definition swept_same s s' : Prop := lastSweep s' = lastSweep s.
#[global] Instance swept_same_preorder : PreOrder swept_same.
Proof. split; [by intros ?|]. unfold swept_same. intros ???. congruence. Qed.

Lemma del_up {A} (m : M (core W Z) A) s (Q : A → list ev → S → Prop) :
  del m (base s) (λ a k b, ∀ s', base s' = b → swept_same s s' → Q a k s') →
  del (up m) s Q.
Proof. intros (k & Hk & HQ). exists k. split; [exact Hk|]. by apply HQ. Qed.
Lemma del_up_lift {A} (m : M W A) s (Q : A → list ev → S → Prop) :
  (∀ a s', swept_same s s' → Q a [] s') → del (up (lift m)) s Q.
Proof. intros HQ. apply del_up, del_lift. auto. Qed.
Lemma del_up_emit e s (Q : unit → list ev → S → Prop) :
  (∀ s', swept_same s s' → Q tt [e] s') → del (up (emit e)) s Q.
Proof. intros HQ. apply del_up, del_emit. auto. Qed.
Lemma del_up_ctxErr ctx s (Q : error → list ev → S → Prop) :
  (∀ e s', swept_same s s' → (e ≠ None → cx_done ctx ≠ None) → Q e [] s') →
  del (up (ctxErr ctx)) s Q.
Proof.
  intros HQ. apply del_up. unfold ctxErr. del_run. intros s2 Hb ?. apply HQ; [done|].
  unfold ErrAt, doneAt. by destruct (cx_done ctx).
Qed.
Lemma del_up_ctxCause ctx s (Q : error → list ev → S → Prop) :
  (∀ e s', swept_same s s' → Q e [] s') → del (up (ctxCause ctx)) s Q.
Proof. intros HQ. apply del_up. unfold ctxCause. del_run. auto. Qed.
Lemma del_set_pass t b s (Q : unit → list ev → S → Prop) :
  (∀ s', swept_same s s' → Q tt [] s') → del (set_pass t b) s Q.
Proof. intros HQ. exists []. split; [symmetry; apply app_nil_r|]. by apply HQ. Qed.
Lemma del_set_lastSweep t s (Q : unit → list ev → S → Prop) :
  (∀ s', lastSweep s' = t → Q tt [] s') → del (set_lastSweep t) s Q.
Proof. intros HQ. exists []. split; [symmetry; apply app_nil_r|]. by apply HQ. Qed.
Lemma del_up_Error e s (Q : unit → list ev → S → Prop) :
  (∀ k s', signals k → swept_same s s' → Q tt k s') → del (up (Error (reporter r) e)) s Q.
Proof.
  intros HQ. apply del_up. del_use Error_spec. intros [] k b [Hb ->] s2 Hs ?. apply HQ; [|done].
  destruct (hasOnError _); by repeat constructor.
Qed.
End rules.

Ltac sdel_leaf :=
  lazymatch goal with
  | |- del (up (lift _)) _ _ => apply del_up_lift; intros ? ? ?
  | |- del (up (emit _)) _ _ => apply del_up_emit; intros ? ?
  | |- del (up (ctxErr _)) _ _ => apply del_up_ctxErr; intros ? ? ? ?
  | |- del (up (ctxCause _)) _ _ => apply del_up_ctxCause; intros ? ? ?
  | |- del (set_pass _ _) _ _ => apply del_set_pass; intros ? ?
  | |- del (set_lastSweep _) _ _ => apply del_set_lastSweep; intros ? ?
  | |- del (up (Error _ _)) _ _ => apply del_up_Error; intros ? ? ? ?
  | _ => del_step
  end.
(** The same, splitting the conditionals on the way. *)
Ltac sdel_branch :=
  lazymatch goal with
  | |- del (if ?b then _ else _) _ _ => destruct b
  | |- del (match ?x with _ => _ end) _ _ => destruct x
  | _ => sdel_leaf; cbn beta zeta
  end.
Ltac sdel_run := repeat (sdel_leaf; cbn beta).
Ltac solve_swept := unfold swept_same in *; congruence.

Section facts.
Context `{UrlLib} {W : Type} `{Host W}.
#[local] Abbreviation S := (seqst W).
Context (r : Relay W).
Implicit Types (s : S).

Lemma bounded_spec {A} budget ctx (call : cx → M W A) s :
  del (bounded r budget ctx call) s (λ x k s', k = [] ∧ swept_same s s' ∧
    ∃ t, x.1 = budget t ctx (optimeout r)).
Proof. unfold bounded. sdel_run. split_and!; [done|solve_swept|eauto]. Qed.

Lemma bListMessages_spec ctx after limit s :
  del (bListMessages r ctx after limit) s (λ x k s',
    k = [EList after x.1 x.2] ∧ swept_same s s').
Proof.
  unfold bListMessages. del_step. del_use bounded_spec. intros x k s1 (-> & ? & _).
  sdel_run. split; [done|solve_swept].
Qed.
Lemma bOffset_spec ctx s :
  del (bOffset r ctx) s (λ x k s', k = [EOffset x] ∧ swept_same s s').
Proof.
  unfold bOffset. del_step. del_use bounded_spec. intros x k s1 (-> & ? & _).
  sdel_run. split; [done|solve_swept].
Qed.
Lemma bInitOffsetLatest_spec ctx s :
  del (bInitOffsetLatest r ctx) s (λ x k s', k = [EInitOffset x] ∧ swept_same s s').
Proof.
  unfold bInitOffsetLatest. del_step. del_use bounded_spec. intros x k s1 (-> & ? & _).
  sdel_run. split; [done|solve_swept].
Qed.
Lemma bSequenceMessages_spec q ctx limit s :
  del (bSequenceMessages r q ctx limit) s (λ x k s',
    k = [ESequence limit x] ∧ swept_same s s').
Proof.
  unfold bSequenceMessages. del_step. del_use bounded_spec. intros x k s1 (-> & ? & _).
  sdel_run. split; [done|solve_swept].
Qed.
Lemma bSweepMessages_spec w ctx limit s :
  del (bSweepMessages r w ctx limit) s (λ x k s', k = [ESweep limit x] ∧ swept_same s s').
Proof.
  unfold bSweepMessages. del_step. del_use bounded_spec. intros x k s1 (-> & ? & _).
  sdel_run. split; [done|solve_swept].
Qed.

(** A commit: one call under the detached budget; a rejected fenced commit is
    reported, and is the loss of leadership. *)
Definition commit_log (ctx : cx) (seq : Z) (e : error) (k : list ev) : Prop :=
  ∃ t f x rest, k = ECommit (Commit t ctx (optimeout r)) seq f x :: rest ∧ signals rest ∧
    f = (if fenced r is Some _ then true else false) ∧
    match x with
    | inl true => e = None
    | inl false => e = Some (Sentinel errLostLeadership) ∧ f = true
    | inr er => e = Some er
    end.
Lemma commitOffset_spec ctx seq s :
  del (commitOffset r ctx seq) s (λ e k s', commit_log ctx seq e k ∧ swept_same s s').
Proof.
  unfold commitOffset, commit_log. destruct (fenced r) as [f|].
  - unfold bCommitOffsetFenced. sdel_run. del_use bounded_spec.
    intros x k s1 (-> & ? & t & Ht). sdel_run. rewrite Ht. destruct x as [c x]; simpl in *.
    destruct x as [[]|er]; sdel_run; (split; [|solve_swept]); simpl.
    + eexists t, true, (inl true), []. by split_and!; try constructor.
    + eexists t, true, (inl false), k. rewrite app_nil_r. by split_and!.
    + eexists t, true, (inr er), []. by split_and!; try constructor.
  - unfold bCommitOffset. sdel_run. del_use bounded_spec.
    intros x k s1 (-> & ? & t & Ht). sdel_run. rewrite Ht. (split; [|solve_swept]).
    eexists t, false, _, []. split_and!; [done|constructor|done|]. by destruct x as [? []].
Qed.

(** A renewal: at most one call, and an error exactly when it did not confirm
    the lock. *)
Definition renew_log (e : error) (k : list ev) : Prop :=
  match ls (leader r) with
  | None => k = [] ∧ e = None
  | Some _ => ∃ c x, k = [EAcquire c x] ∧
      match x with
      | inl true => e = None
      | inl false => e = Some (Sentinel errLostLeadership)
      | inr er => e = Some (Errorf "" [Sentinel errLostLeadership; Sentinel errLeaseRenewFailed; er])
      end
  end.
Lemma renewLease_spec ctx s :
  del (renewLease r ctx) s (λ e k s', renew_log e k ∧ swept_same s s').
Proof.
  unfold renewLease, renew_log. del_step. apply del_up. del_use TryAcquire_spec.
  intros x k b (_ & _ & Hx) s1 _ ?. destruct (ls (leader r)).
  - destruct Hx as (t & -> & _). destruct x as [[]|er]; sdel_run;
      (split; [eexists _, _; by split|done]).
  - destruct Hx as (-> & -> & _). sdel_run. done.
Qed.
Lemma renew_log_lost e k : renew_log e k → e ≠ None → Is e errLostLeadership = true.
Proof.
  unfold renew_log. destruct (ls _); [|naive_solver]. intros (c & x & _ & Hx).
  destruct x as [[]|]; subst; done.
Qed.

(** The serial and the batched page, by the position they reach. *)
Definition last_seq (offset : Z) (l : list Message) : Z :=
  match last l with Some m => Seq m | None => offset end.
Lemma last_seq_app offset l k : last_seq offset (l ++ k) = last_seq (last_seq offset l) k.
Proof. unfold last_seq. rewrite last_app. by destruct (last k). Qed.

Definition forward_log (ctx : cx) (msgs : list Message) (offset sent0 : Z)
    (x : Z * Z * pageOutcome) (k : list ev) : Prop :=
  let '(maxSeq, sent, outcome) := x in
  lane_log k ∧ ∃ j, (j <= length msgs)%nat ∧ disposed k = take j msgs ∧
    maxSeq = last_seq offset (take j msgs) ∧ sent = sent0 + zlen (sent_msgs k) ∧
    outcome ≠ pageFull ∧ (outcome = pageDone → j = length msgs) ∧
    (outcome = pageCanceled → cx_done ctx ≠ None).

Lemma forward_log_stop ctx msgs offset sent0 outcome k :
  lane_log k → disposed k = [] → sent_msgs k = [] →
  outcome ≠ pageFull → outcome ≠ pageDone → (outcome = pageCanceled → cx_done ctx ≠ None) →
  forward_log ctx msgs offset sent0 (offset, sent0, outcome) k.
Proof.
  intros Hl Hd Hs ???. split; [done|]. exists 0%nat. rewrite Hd, Hs, take_0.
  split_and!; try done; [lia|by rewrite Z.add_0_r].
Qed.
Lemma forward_log_app ctx j msgs offset sent0 x k k' :
  (j <= length msgs)%nat → lane_log k → disposed k = take j msgs →
  forward_log ctx (drop j msgs) (last_seq offset (take j msgs))
    (sent0 + zlen (sent_msgs k)) x k' →
  forward_log ctx msgs offset sent0 x (k ++ k').
Proof.
  intros Hj Hl Hd. destruct x as [[maxSeq sent] outcome].
  intros (Hl' & i & Hi & Hdi & -> & -> & ? & Hdone & ?).
  rewrite length_drop in *. split; [by apply lane_log_app|]. exists (j + i)%nat.
  rewrite disposed_app, sent_msgs_app, Hd, Hdi, take_take_drop, zlen_app, <-last_seq_app,
    take_take_drop. split_and!; try done; [lia|lia|]. intros Ho. specialize (Hdone Ho). lia.
Qed.

Lemma forwardSerial_spec ctx msgs offset sent s :
  hooks_ok (lane r) →
  del (forwardSerial r ctx msgs offset sent) s (λ x k s',
    forward_log ctx msgs offset sent x k ∧ swept_same s s').
Proof.
  intros Hok. revert offset sent s. induction msgs as [|m msgs IH]; intros; simpl.
  { del_step. split; [|done]. split; [constructor|]. exists 0%nat.
    split_and!; try done. by rewrite Z.add_0_r. }
  sdel_run. destruct (isNil e) eqn:Ee; simpl; cycle 1.
  { del_step. split; [|done]. destruct e; [|done].
    apply forward_log_stop; try done; [constructor|auto]. }
  del_step. apply del_up. del_use Send_disposed_lane; [done|].
  intros d k b (Hl & Hd & Hs & Hc) s2 _ ?.
  destruct d; cbn [decide] in *.
  - del_use IH. intros x k2 s3 [Hx ?]. split; [|solve_swept]. rewrite ?app_nil_l.
    eapply (forward_log_app ctx 1); [simpl; lia|done|done|].
    rewrite Hs. exact Hx.
  - del_use IH. intros x k2 s3 [Hx ?]. split; [|solve_swept]. rewrite ?app_nil_l.
    eapply (forward_log_app ctx 1); [simpl; lia|done|done|].
    rewrite Hs. change (zlen []) with 0. rewrite Z.add_0_r. exact Hx.
  - del_step. split; [|solve_swept]. rewrite app_nil_r. by apply forward_log_stop.
  - del_step. split; [|solve_swept]. rewrite app_nil_r. by apply forward_log_stop; auto.
Qed.

Lemma last_seq_advanced offset advanced msgs :
  0 <= advanced <= zlen msgs →
  (if 0 <? advanced
   then match msgs !! Z.to_nat (advanced - 1) with Some m => Seq m | None => offset end
   else offset) = last_seq offset (ztake advanced msgs).
Proof.
  intros Ha. unfold last_seq, ztake, zlen in *. destruct (Z.ltb_spec 0 advanced).
  - destruct (lookup_lt_is_Some_2 msgs (Z.to_nat (advanced - 1))) as [m Hm]; [lia|].
    rewrite Hm. replace (Z.to_nat advanced) with (Datatypes.S (Z.to_nat (advanced - 1))) by lia.
    by rewrite (take_S_r _ _ _ Hm), last_snoc.
  - replace advanced with 0 by lia. done.
Qed.

Lemma forwardBatchedLoop_spec fuel ctx msgs offset sent s :
  hooks_ok (lane r) → (length msgs <= fuel)%nat →
  del (forwardBatchedLoop r fuel ctx msgs offset sent) s (λ x k s', swept_same s s' ∧
    ∃ y, x = Some y ∧ forward_log ctx msgs offset sent y k).
Proof.
  intros Hok. revert msgs offset sent s. induction fuel as [|fuel IH]; intros msgs offset sent s.
  all: destruct msgs as [|m0 ms]; simpl length; intros Hlen; try lia; cbn [forwardBatchedLoop].
  1, 2: del_step; split; [done|]; eexists; split; [done|]; split; [constructor|]; exists 0%nat;
    (split_and!; try done); by rewrite Z.add_0_r.
  set (msgs := m0 :: ms) in *.
  sdel_run. destruct (isNil e) eqn:Ee; simpl negb; cbn iota; cycle 1.
  { del_step. split; [done|]. eexists; split; [done|]. destruct e; [|done].
    apply forward_log_stop; try done; [constructor|auto]. }
  del_step. apply del_up. del_use SendBatch_disposed_lane; [done|].
  intros [[n adv] d] k b (Hl & [Hn1 Hn2] & Hadv & Hd & Hs & Hc) s2 _ ?.
  cbv zeta. rewrite last_seq_advanced by lia.
  assert (Hz : zlen (sent_msgs k) = n) by (rewrite Hs; apply zlen_ztake; lia).
  assert (Hrec : 1 <= adv → d ≠ Canceled → d ≠ Stopped →
    del (forwardBatchedLoop r fuel ctx (zdrop adv msgs)
           (last_seq offset (ztake adv msgs)) (sent + n)) s2
      (λ x k2 s', swept_same s s' ∧ ∃ y, x = Some y ∧ forward_log ctx msgs offset sent y (k ++ k2))).
  { intros Ha _ _. del_use IH.
    { unfold zdrop, zlen, msgs in *. rewrite length_drop. simpl in *. lia. }
    intros x k2 s3 (? & y & -> & Hy). split; [solve_swept|]. eexists; split; [done|].
    eapply (forward_log_app ctx (Z.to_nat adv)); [unfold zlen in *; lia|done|done|].
    rewrite Hz. exact Hy. }
  assert (Hstop : ∀ o, o = pageCanceled ∧ d = Canceled ∨ o = pageStopped ∧ d = Stopped →
    forward_log ctx msgs offset sent (last_seq offset (ztake adv msgs), sent + n, o) (k ++ [])).
  { intros o Ho. rewrite app_nil_r. split; [done|]. exists (Z.to_nat adv).
    rewrite Hz. unfold zlen in *. split_and!; try done; [lia|naive_solver|naive_solver|].
    intros ->. destruct Ho as [[_ ->]|[? _]]; [|done]. by destruct Hc. }
  destruct d.
  - apply Hrec; try done. rewrite Hc. unfold msgs. autorewrite with zlen.
    pose proof (zlen_nonneg ms). lia.
  - apply Hrec; try done. lia.
  - del_step. split; [solve_swept|]. eexists; split; [done|]. apply Hstop. by right.
  - del_step. split; [solve_swept|]. eexists; split; [done|]. apply Hstop. by left.
Qed.

Lemma forward_spec ctx msgs offset s :
  hooks_ok (lane r) →
  del (forward r ctx msgs offset) s (λ x k s',
    forward_log ctx msgs offset 0 x k ∧ swept_same s s').
Proof.
  intros Hok. unfold forward, forwardBatched. destruct (Batching (lane r)).
  - del_step. del_use forwardBatchedLoop_spec; [done|done|].
    intros x k s1 (? & y & -> & Hy). del_step. by rewrite app_nil_r.
  - by apply forwardSerial_spec.
Qed.

Lemma oldestAge_spec ctx createTime s :
  del (oldestAge r ctx createTime) s (λ _ k s', signals k ∧ swept_same s s').
Proof.
  unfold oldestAge, bStoreNow. repeat sdel_branch;
    try (del_use bounded_spec; intros ? ? ? (-> & ? & _); repeat sdel_branch);
    simpl; (split; [by repeat constructor|solve_swept]).
Qed.

(** The stub of a poison row. *)
Definition stub (id : string) (seq : Z) : Message := mkMessage id seq None None 0.

Definition park_log (poison : option (err * string * Z)) (outcome : pageOutcome)
    (x : bool * error) (k : list ev) : Prop :=
  lane_log k ∧ sent_msgs k = [] ∧
  (x.2 ≠ None → ∃ c m e, EPark c m e x.2 ∈ k) ∧
  if x.1 then x.2 = None ∧ outcome = pageDone ∧
    ∃ cause id seq, poison = Some (cause, id, seq) ∧ disposed k = [stub id seq]
  else disposed k = [].
Lemma parkPoison_spec ctx poison outcome s :
  del (parkPoison r ctx poison outcome) s (λ x k s', park_log poison outcome x k ∧ swept_same s s').
Proof.
  assert (Hno : park_log poison outcome (false, None) []).
  { split_and!; try done. constructor. }
  unfold parkPoison.
  destruct poison as [[[cause id] seq]|], outcome, (Poison (lane r)) as [h|] eqn:Eh;
    sdel_run; try done.
  destruct (negb _); [by del_step|]. del_step. apply del_up. unfold Park. del_step.
  del_use MessageFailure_spec. rewrite Eh. intros pe k b [_ [c ->]].
  assert (Hrep : ∀ pe, lane_log (EPark c (stub id seq) cause pe ::
      failure_report (LReporter (lane r)) cause pe)).
  { intros pe'. constructor; [done|]. apply signals_lane, failure_report_signals. }
  destruct pe as [pe|].
  - del_step. intros s3 _ ?. del_step. split; [|solve_swept]. rewrite !app_nil_r.
    split; [apply Hrep|]. cbn [fst snd isNil app].
    rewrite disposed_cons, sent_msgs_cons, (signals_disposed _ (failure_report_signals _ _ _)),
      (signals_sent _ (failure_report_signals _ _ _)).
    split_and!; [done| |done]. intros _. exists c, (stub id seq), cause. apply list_elem_of_here.
  - del_step. del_use LProgress_spec. intros _ k2 b2 (-> & _ & _). del_step.
    intros s3 _ ?. del_step. split; [|solve_swept]. rewrite !app_nil_r.
    split; [apply Hrep|]. cbn [fst snd isNil app].
    rewrite disposed_cons, sent_msgs_cons, (signals_disposed _ (failure_report_signals _ _ _)),
      (signals_sent _ (failure_report_signals _ _ _)).
    split_and!; try done. by eexists cause, id, seq.
Qed.

(** ** One page

    The events of a page: the list call, the deliveries, at most one commit,
    and signals. [mx] is the position its deliveries reach. *)
Definition reach (offset : Z) (msgs : list Message) (lerr : error) (lk : list ev)
    (mx : Z) (whole : Prop) : Prop :=
  ∃ j pk, (j <= length msgs)%nat ∧ disposed lk = take j msgs ++ pk ∧
    (whole → j = length msgs) ∧
    (pk = [] ∧ mx = last_seq offset (take j msgs) ∨
     j = length msgs ∧ ∃ cause id seq, As asSeqDecode lerr = Some (cause, id, seq) ∧
       pk = [stub id seq] ∧ mx = Z.max (last_seq offset msgs) seq).

Definition page_log (ctx : cx) (offset : Z) (x : Z * pageOutcome * error) (k : list ev) : Prop :=
  let '(next, outcome, err) := x in
  ∃ msgs lerr lk ck tl mx,
    k = EList offset msgs lerr :: lk ++ ck ++ tl ∧ lane_log lk ∧ signals tl ∧
    reach offset msgs lerr lk mx (outcome = pageFull) ∧
    (outcome = pageFull → err = None) ∧
    (outcome = pageCanceled → cx_done ctx ≠ None) ∧
    ((ck = [] ∧ mx <= offset ∧ next = offset ∧
        (err ≠ None → err = lerr ∨ ∃ pe, err = Join [lerr; pe] ∧
           (pe ≠ None → ∃ c m e, EPark c m e pe ∈ lk))) ∨
     offset < mx ∧ ∃ ce, commit_log ctx mx ce ck ∧
       match ce with
       | None => next = mx ∧ (err ≠ None → ∃ pe, err = Join [lerr; pe] ∧
           (pe ≠ None → ∃ c m e, EPark c m e pe ∈ lk))
       | Some _ => next = offset ∧ err = ce ∧ tl = []
       end).

(** A page the relay cannot read, or an empty one. *)
Lemma page_log_none ctx offset msgs lerr err tl :
  signals tl → err = lerr →
  page_log ctx offset (offset, pageDone, err) (EList offset msgs lerr :: tl).
Proof.
  intros Htl ->. exists msgs, lerr, [], [], tl, offset. split_and!; try done.
  - constructor.
  - exists 0%nat, []. split_and!; try done; [lia|]. by left.
  - left. split_and!; try done. naive_solver.
Qed.

Lemma up_Drained_spec count age more s :
  del (up (Drained (reporter r) count age more)) s (λ _ k s', signals k ∧ swept_same s s').
Proof.
  apply del_up. unfold Drained. destruct (hasOnDrained _); del_run; intros; split;
    by repeat constructor.
Qed.
Lemma up_LStuck_spec pos id e s :
  del (up (LStuck (lane r) pos id e)) s (λ _ k s', signals k ∧ swept_same s s').
Proof.
  apply del_up. del_use LStuck_spec. intros _ k b (_ & t & _ & ->) s' _ ?.
  split; [apply stuck_log_signals|done].
Qed.

Lemma finishPage_spec ctx msgs listErr poison offset sent outcome parked perr s :
  outcome ≠ pageFull →
  del (finishPage r ctx msgs listErr poison offset sent outcome parked perr) s (λ x k s',
    signals k ∧ swept_same s s' ∧ x.1.1 = offset ∧
    (x.1.2 = pageFull → outcome = pageDone ∧ x.2 = None) ∧
    (x.1.2 = pageCanceled → outcome = pageCanceled) ∧
    (x.2 ≠ None → x.2 = Join [listErr; perr])).
Proof.
  intros Hof. unfold finishPage. del_step.
  assert (Hd : ∀ age more s0, swept_same s s0 →
    del (up (Drained (reporter r) sent age more)) s0 (λ _ k s', signals k ∧ swept_same s s')).
  { intros. del_use up_Drained_spec. intros _ k s1 [? ?]. split; [done|solve_swept]. }
  set (report := if _ || _ then _ else _).
  assert (Hrep : del report s (λ _ k s', signals k ∧ swept_same s s')).
  { subst report. destruct (_ || _); [|by del_step; split; [constructor|]]. cbv zeta. del_step.
    destruct msgs as [|m ms]; [by del_step; apply Hd|].
    del_use oldestAge_spec. intros age k s1 [Hk ?]. del_use Hd; [done|].
    intros _ k2 s2 [? ?]. split; [by apply signals_app|done]. }
  clearbody report. clear Hd. del_use Hrep. intros _ k s1 [Hk ?]. cbv zeta.
  destruct (bool_decide_reflect (outcome = pageDone)) as [->|Ho]; simpl negb; cbn iota; cycle 1.
  { del_step. rewrite app_nil_r. split_and!; done. }
  destruct poison as [[[cause id] seq]|].
  - destruct parked; simpl negb; cbn iota; [by del_step; rewrite app_nil_r|].
    destruct (Join [listErr; perr]) as [e|] eqn:Ej; del_step.
    + del_use up_LStuck_spec. intros _ k2 s2 [? ?]. del_step. rewrite app_nil_r.
      split_and!; try done; [by apply signals_app|solve_swept].
    + del_step. del_step. rewrite !app_nil_r. by split_and!.
  - destruct (negb _); del_step; rewrite app_nil_r; by split_and!.
Qed.


(** From a forwarded page and a poison park to what the page reached. *)
Lemma reach_intro ctx offset msgs lerr f p k1 k2 :
  let poison := As asSeqDecode lerr in
  forward_log ctx msgs offset 0 f k1 → park_log poison f.2 p k2 →
  reach offset msgs lerr (k1 ++ k2)
    (match poison with
     | Some (_, _, seq) => if p.1 then Z.max f.1.1 seq else f.1.1
     | None => f.1.1
     end) (f.2 = pageDone).
Proof.
  intros poison. destruct f as [[mx sent] outcome], p as [parked perr]. cbn [fst snd].
  intros (_ & j & Hj & Hd & -> & _ & _ & Hdone & _) (_ & _ & _ & Hp).
  unfold reach. rewrite disposed_app, Hd. cbn [fst snd] in Hp. destruct parked.
  - destruct Hp as (_ & Ho & cause & id & seq & Hpo & ->).
    exists j, [stub id seq]. split_and!; [done|done|done|]. right. split; [by apply Hdone|].
    exists cause, id, seq. rewrite Hpo, (Hdone Ho), firstn_all. done.
  - rewrite Hp. exists j, []. split_and!; [done|done|done|]. left.
    by destruct poison as [[[??]?]|].
Qed.

Lemma deliverPage_spec ctx offset msgs lerr s :
  hooks_ok (lane r) →
  del (deliverPage r ctx offset msgs lerr) s (λ x k s',
    page_log ctx offset x (EList offset msgs lerr :: k) ∧ swept_same s s').
Proof.
  intros Hok. unfold deliverPage. cbv zeta. del_step. del_use forward_spec; [done|].
  intros f k1 s1 [Hf ?]. pose proof Hf as Hf'. destruct f as [[mx0 sent] outcome].
  del_step. del_use parkPoison_spec. intros p k2 s2 [Hp ?].
  pose proof (reach_intro _ _ _ _ _ _ _ _ Hf Hp) as Hr. cbn [fst snd] in Hr.
  destruct Hf' as (Hl1 & _ & _ & _ & _ & _ & Hnf & _ & Hcan).
  destruct p as [parked perr]. destruct Hp as (Hl2 & _ & Hpe & _). cbn [fst snd] in *.
  set (mx := match As asSeqDecode lerr with Some _ => _ | None => _ end) in *.
  assert (Hl : lane_log (k1 ++ k2)) by by apply lane_log_app.
  assert (Hpe' : perr ≠ None → ∃ c m e, EPark c m e perr ∈ k1 ++ k2).
  { intros Hn. destruct (Hpe Hn) as (c & m & e & ?). exists c, m, e. set_solver. }
  assert (Hreach : ∀ o, (o = pageFull → outcome = pageDone) →
    reach offset msgs lerr (k1 ++ k2) mx (o = pageFull)).
  { intros o Ho. destruct Hr as (j & pk & ? & ? & Hw & ?). exists j, pk.
    split_and!; try done. auto. }
  clearbody mx. clear Hr. del_step. destruct (Z.ltb_spec offset mx).
  - del_use commitOffset_spec. intros ce k3 s3 [Hc ?]. destruct ce as [e|].
    + del_step. split; [|solve_swept]. exists msgs, lerr, (k1 ++ k2), k3, [], mx.
      rewrite ?app_nil_r, <-?app_assoc. split_and!; try done; [constructor|by apply Hreach|].
      right. split; [done|]. by eexists.
    + del_use finishPage_spec; [done|]. intros [[n o] er] k4 s4 (Htl & ? & Hn & Ho & Hcn & Her).
      cbn [fst snd] in *. split; [|solve_swept]. exists msgs, lerr, (k1 ++ k2), k3, k4, mx.
      rewrite ?app_nil_r, <-?app_assoc. split_and!; try done;
        [apply Hreach; naive_solver|naive_solver|naive_solver|].
      right. split; [done|]. exists None. split; [done|]. split; [done|].
      intros He. exists perr. auto.
  - del_step. del_use finishPage_spec; [done|].
    intros [[n o] er] k4 s4 (Htl & ? & Hn & Ho & Hcn & Her).
    cbn [fst snd] in *. split; [|solve_swept]. exists msgs, lerr, (k1 ++ k2), [], k4, mx.
    rewrite ?app_nil_r, <-?app_assoc. split_and!; try done;
      [apply Hreach; naive_solver|naive_solver|naive_solver|].
    left. split_and!; try done. intros He. right. exists perr. auto.
Qed.

Lemma drainPage_spec ctx offset s :
  hooks_ok (lane r) →
  del (drainPage r ctx offset) s (λ x k s', page_log ctx offset x k ∧ swept_same s s').
Proof.
  intros Hok. unfold drainPage. del_step. del_use bListMessages_spec.
  intros [msgs lerr] k0 s0 [-> ?]. cbn [fst snd].
  assert (Hgo : ∀ x : option (err * string * Z), (lerr = None ∨ x ≠ None) → del (
    if (zlen msgs =? 0) && (if x is Some _ then false else true)
    then mret (offset, pageDone, None) else deliverPage r ctx offset msgs lerr) s0
    (λ y k s', page_log ctx offset y ([EList offset msgs lerr] ++ k) ∧ swept_same s s')).
  { intros x Hx. destruct (_ && _) eqn:E.
    - apply andb_true_iff in E as [_ E]. destruct Hx as [->|Hx]; [|by destruct x].
      del_step. split; [|done]. by apply page_log_none; [constructor|].
    - del_use deliverPage_spec; [done|]. intros y k s1 [??]. split; [done|solve_swept]. }
  destruct lerr as [e|]; [|apply (Hgo None); by left].
  destruct (As asSeqDecode (Some e)) as [p|]; [apply (Hgo (Some p)); by right|].
  sdel_run.
  assert (Hst : del (if isNil e0 then up (LStuck (lane r) offset "" e) else skip) s'
    (λ _ k s1, signals k ∧ swept_same s' s1)).
  { destruct (isNil e0); [apply up_LStuck_spec|]. del_step. split; [constructor|done]. }
  del_use Hst. intros _ k s1 [??]. del_step. split; [|solve_swept]. rewrite app_nil_r.
  by apply page_log_none.
Qed.
End facts.

(** ** Reading a tick's events *)
Section events.
Context `{UrlLib}.
Implicit Types (k : list ev).

(** The store or the elector said that another instance may lead. *)
Definition superseded (e : ev) : bool :=
  match e with
  | EAcquire _ (inl true) => false
  | EAcquire _ _ => true
  | ECommit _ _ true (inl false) => true
  | _ => false
  end.
(** Work only a leader may do: read a page, deliver, park, commit, sweep. *)
Definition is_work (e : ev) : bool :=
  match e with
  | EList _ _ _ | ESend _ _ _ | ESendBatch _ _ _ _ | EPark _ _ _ _
  | ECommit _ _ _ _ | ESweep _ _ => true
  | _ => false
  end.
(** A foreign error that carries the runtime's unexported sentinel. *)
Definition tainted (e : ev) : bool :=
  match e with
  | EList _ _ x | EPark _ _ _ x => Is x errLostLeadership
  | ECommit _ _ _ (inr x) | EOffset (inr x) | EInitOffset (inr x) | ESequence _ (inr x) =>
      is_err x errLostLeadership
  | _ => false
  end.
Definition has_super k : bool := existsb superseded k.
Definition no_work k : bool := forallb (λ e, negb (is_work e)) k.
Definition is_sweep (e : ev) : bool := match e with ESweep _ _ => true | _ => false end.
Definition is_list (e : ev) : bool := match e with EList _ _ _ => true | _ => false end.
Definition is_sequence (e : ev) : bool := match e with ESequence _ _ => true | _ => false end.
Definition count (f : ev → bool) k : nat := length (List.filter f k).

Definition quiet k : Prop :=
  ∀ l1 e l2, k = l1 ++ e :: l2 → superseded e = true → no_work l2 = true.

Definition listed k : list Message :=
  k ≫= λ e, match e with EList _ ms _ => ms | _ => [] end.
Definition commit_safe k : Prop :=
  ∀ l1 c mx f x l2, k = l1 ++ ECommit c mx f x :: l2 →
    ∀ m, m ∈ listed l1 → Seq m <= mx → m ∈ disposed l1.
Definition settled k : Prop := ∀ m, m ∈ listed k → m ∈ disposed k.
Definition in_order (ms : list Message) : Prop := StronglySorted (λ a b, Seq a < Seq b) ms.
Definition pages_in_order k : Prop := ∀ after ms e, EList after ms e ∈ k → in_order ms.

Lemma listed_app k k' : listed (k ++ k') = listed k ++ listed k'.
Proof. apply bind_app. Qed.
Lemma listed_cons e k :
  listed (e :: k) = (match e with EList _ ms _ => ms | _ => [] end) ++ listed k.
Proof. done. Qed.
Lemma tainted_in e k : e ∈ k → tainted e = true → existsb tainted k = true.
Proof. intros He%list_elem_of_In Ht. apply existsb_exists. eauto. Qed.
Lemma has_super_app k k' : has_super (k ++ k') = has_super k || has_super k'.
Proof. apply existsb_app. Qed.
Lemma no_work_app k k' : no_work (k ++ k') = no_work k && no_work k'.
Proof. apply forallb_app. Qed.
Lemma count_app f k k' : count f (k ++ k') = (count f k + count f k')%nat.
Proof. unfold count. by rewrite List.filter_app, length_app. Qed.
Lemma count_0 f k : Forall (λ e, f e = false) k → count f k = 0%nat.
Proof. unfold count. induction 1 as [|e k He _ IH]; simpl; [done|]. by rewrite He. Qed.

(** The two ways to split an append in front of one event. *)
Lemma app_split k k' l1 (e : ev) l2 :
  k ++ k' = l1 ++ e :: l2 →
  (∃ l, k = l1 ++ e :: l ∧ l2 = l ++ k') ∨ (∃ l, l1 = k ++ l ∧ k' = l ++ e :: l2).
Proof.
  revert l1. induction k as [|x k IH]; intros [|y l1]; simpl.
  - intros ->. right. by exists [].
  - intros ->. right. by exists (y :: l1).
  - intros [= -> <-]. left. by exists k.
  - intros [= -> Hk]. destruct (IH _ Hk) as [(l & -> & ->)|(l & -> & ->)]; [left|right]; eauto.
Qed.

Lemma quiet_app k k' :
  quiet k → quiet k' → has_super k = false ∨ no_work k' = true → quiet (k ++ k').
Proof.
  intros Hk Hk' Hs l1 e l2 [(l & -> & ->)|(l & -> & ->)]%app_split He.
  - destruct Hs as [Hs|Hs].
    + rewrite has_super_app in Hs. simpl in Hs. rewrite He, orb_true_r in Hs. done.
    + rewrite no_work_app, Hs, andb_true_r. by eapply Hk.
  - by eapply Hk'.
Qed.
Lemma quiet_no_super k : has_super k = false → quiet k.
Proof.
  intros Hs l1 e l2 -> He. rewrite has_super_app in Hs. simpl in Hs.
  by rewrite He, orb_true_r in Hs.
Qed.
Lemma quiet_no_work k : no_work k = true → quiet k.
Proof.
  intros Hs l1 e l2 -> _. rewrite no_work_app in Hs. simpl in Hs.
  by apply andb_true_iff in Hs as [_ [_ ?]%andb_true_iff].
Qed.

Lemma commit_safe_app k k' :
  commit_safe k → settled k → commit_safe k' → commit_safe (k ++ k').
Proof.
  intros Hk Hs Hk' l1 c mx f x l2 [(l & -> & ->)|(l & -> & ->)]%app_split m.
  - by apply (Hk l1 c mx f x l).
  - rewrite listed_app, disposed_app, !elem_of_app. intros [Hm|Hm] ?; [left; by apply Hs|].
    right. by apply (Hk' l c mx f x l2).
Qed.
Definition is_commit (e : ev) : bool := match e with ECommit _ _ _ _ => true | _ => false end.
Lemma commit_safe_none k : Forall (λ e, is_commit e = false) k → commit_safe k.
Proof.
  intros Hk l1 c mx f x l2 ->. apply Forall_app in Hk as [_ [? _]%Forall_cons]. done.
Qed.
Lemma commit_safe_snoc k k' :
  commit_safe k → Forall (λ e, is_commit e = false) k' → commit_safe (k ++ k').
Proof.
  intros Hk Hk' l1 c mx f x l2 [(l & -> & ->)|(l & -> & ->)]%app_split.
  - by apply (Hk l1 c mx f x l).
  - apply Forall_app in Hk' as [_ [? _]%Forall_cons]. done.
Qed.

Lemma lane_log_plain k :
  lane_log k →
  has_super k = false ∧ listed k = [] ∧
  count is_list k = 0%nat ∧ count is_sweep k = 0%nat ∧ count is_sequence k = 0%nat ∧
  Forall (λ e, is_commit e = false) k.
Proof.
  unfold has_super, listed, count. induction 1 as [|e k He _ IH]; [by repeat split|].
  destruct IH as (? & ? & ? & ? & ? & ?). by destruct e; simpl in *; split_and?; auto.
Qed.
Lemma signals_plain k : signals k → no_work k = true.
Proof. unfold no_work. induction 1 as [|e k He _ IH]; [done|]. by destruct e. Qed.
End events.
