(* ===== verification/SequencePhases.v ===== *)
(** * relay/sequence: the phases of a tick

    What each phase of [RunOnce] may leave in the log, and how the phases
    compose: nothing is done for the group after the relay learned that it may
    have been superseded, and no watermark passes an undisposed message. *)
From S2P Require Import Prelude Errors GoLib Event Bound Relay Scenario Notify Leader Lane RelayCfg Sequence SequenceFacts.
From Stdlib Require Import Sorting.Sorted.

(** A context that is never done never reports an error. *)
Ltac dead_ctx :=
  exfalso; match goal with
  | Hx : _ → cx_done ?c ≠ None, Hc : cx_done ?c = None |- _ => by apply Hx
  end.

Section phases.
Context `{UrlLib} {W : Type} `{Host W}.
#[local] Abbreviation S := (seqst W).
Context (r : Relay W).
Implicit Types (s : S).

(** A phase that returns [e] after the events [k]: quiet once superseded, and
    its error says so; and, on a context that is never done, it says so for
    no other reason. *)
Record phase (ctx : cx) (k : list ev) (e : error) : Prop := mkPhase {
  ph_quiet : quiet k;
  ph_lost : has_super k = true → Is e errLostLeadership = true;
  ph_only : cx_done ctx = None → Is e errLostLeadership = true →
    has_super k = true ∨ existsb tainted k = true }.

Lemma phase_calm ctx k e :
  has_super k = false →
  (cx_done ctx = None → Is e errLostLeadership = true → existsb tainted k = true) →
  phase ctx k e.
Proof.
  intros Hs He. split; [by apply quiet_no_super|by rewrite Hs|]. intros. right. auto.
Qed.
(** A phase ends, or goes on after a part that was not superseded. *)
Lemma phase_app ctx k k' e :
  has_super k = false → phase ctx k' e → phase ctx (k ++ k') e.
Proof.
  intros Hs [Hq Hl Ho]. split.
  - apply quiet_app; [by apply quiet_no_super|done|by left].
  - rewrite has_super_app, Hs. exact Hl.
  - intros Hc He. rewrite has_super_app, existsb_app, Hs. simpl.
    destruct (Ho Hc He) as [->| ->]; rewrite ?orb_true_r; auto.
Qed.
Lemma phase_snoc ctx k k' e :
  phase ctx k e → has_super k' = false → no_work k' = true → phase ctx (k ++ k') e.
Proof.
  intros [Hq Hl Ho] Hs Hw. split.
  - apply quiet_app; [done|by apply quiet_no_work|by right].
  - rewrite has_super_app, Hs, orb_false_r. exact Hl.
  - intros Hc He. rewrite has_super_app, existsb_app, Hs, orb_false_r.
    destruct (Ho Hc He) as [->| ->]; auto.
Qed.
Lemma phase_None ctx k : phase ctx k None → has_super k = false.
Proof. intros [_ Hl _]. destruct (has_super k); [|done]. by specialize (Hl eq_refl). Qed.

Lemma renew_phase ctx e k :
  renew_log r e k → phase ctx k e ∧ no_work k = true ∧
  count is_sequence k = 0%nat ∧ count is_list k = 0%nat ∧ count is_sweep k = 0%nat ∧
  listed k = [] ∧ Forall (λ e, is_commit e = false) k.
Proof.
  unfold renew_log. destruct (ls (leader r)).
  - intros (c & x & -> & Hx). split; [|by repeat constructor].
    destruct x as [[]|er]; subst e; split; try done;
      try (by apply quiet_no_work); intros; by left.
  - intros (-> & ->). split; [|by repeat constructor]. by apply phase_calm.
Qed.

(** *** The drain *)
Lemma commit_phase ctx mx ce k :
  commit_log r ctx mx ce k → phase ctx k ce ∧ listed k = [] ∧ disposed k = [] ∧
  count is_list k = 0%nat ∧ count is_sweep k = 0%nat ∧ count is_sequence k = 0%nat.
Proof.
  intros (t & f & x & rest & -> & Hr & _ & Hx).
  pose proof (signals_disposed _ Hr) as Hd. pose proof (signals_plain _ Hr) as Hw.
  pose proof (lane_log_plain _ (signals_lane _ Hr)) as (Hs & Hl & ? & ? & ? & _).
  assert (Hq : quiet (ECommit (Commit t ctx (optimeout r)) mx f x :: rest)).
  { intros l1 e l2 Heq He. destruct l1 as [|e1 l1]; simplify_eq/=; [done|].
    rewrite has_super_app in Hs. simpl in Hs. by rewrite He, orb_true_r in Hs. }
  split; [split; [done| |]|split_and!; done].
  - unfold has_super in *. simpl. rewrite Hs, orb_false_r.
    destruct x as [[]|er]; [by destruct f| |by destruct f]. destruct Hx as [-> ->]. done.
  - intros _. destruct x as [[]|er]; [by subst ce| |].
    + destruct Hx as [-> ->]. intros _. by left.
    + subst ce. simpl. intros ->. by right.
Qed.

Lemma in_order_prefix j (ms : list Message) m mx :
  in_order ms → m ∈ ms → last (take j ms) = Some mx → Seq m <= Seq mx → m ∈ take j ms.
Proof.
  intros Ho Hm Hl Hle. rewrite <-(take_drop j ms) in Hm.
  apply elem_of_app in Hm as [?|Hm]; [done|]. exfalso.
  rewrite <-(take_drop j ms) in Ho. apply last_Some in Hl as [l Hl]. rewrite Hl in Ho.
  rewrite <-app_assoc in Ho. clear Hl. induction l as [|y l IH]; simpl in Ho.
  - apply StronglySorted_inv in Ho as [_ Ho]. rewrite Forall_forall in Ho.
    specialize (Ho m Hm). lia.
  - apply StronglySorted_inv in Ho as [Ho _]. auto.
Qed.

Lemma page_facts ctx offset next outcome err k :
  page_log r ctx offset (next, outcome, err) k →
  phase ctx k err ∧ (outcome = pageFull → err = None) ∧
  count is_list k = 1%nat ∧ count is_sweep k = 0%nat ∧ count is_sequence k = 0%nat ∧
  (outcome = pageFull → settled k) ∧ (pages_in_order k → commit_safe k).
Proof.
  intros (msgs & lerr & lk & ck & tl & mx & -> & Hl & Ht & Hr & Hfull & _ & Hc).
  destruct (lane_log_plain _ Hl) as (Hls & Hll & Hl1 & Hl2 & Hl3 & Hlc).
  destruct (lane_log_plain _ (signals_lane _ Ht)) as (Hts & Htl & Ht1 & Ht2 & Ht3 & Htc).
  assert (Hck : ∃ ce, phase ctx ck ce ∧ (has_super ck = true → ce = err) ∧
    listed ck = [] ∧ disposed ck = [] ∧
    count is_list ck = 0%nat ∧ count is_sweep ck = 0%nat ∧ count is_sequence ck = 0%nat ∧
    (has_super ck = true → tl = []) ∧
    (ck = [] ∨ offset < mx ∧ ∃ c f x rest, ck = ECommit c mx f x :: rest ∧ signals rest) ∧
    (Is err errLostLeadership = true → ce = err ∨
       Is lerr errLostLeadership = true ∨ ∃ c m e pe, EPark c m e pe ∈ lk ∧ Is pe errLostLeadership = true)).
  { assert (Hj : ∀ pe, err = Join [lerr; pe] → (pe ≠ None → ∃ c m e, EPark c m e pe ∈ lk) →
      Is err errLostLeadership = true → Is lerr errLostLeadership = true ∨
      ∃ c m e pe, EPark c m e pe ∈ lk ∧ Is pe errLostLeadership = true).
    { intros pe -> Hpe. rewrite Is_Join. simpl. rewrite orb_false_r.
      intros [?|Hi]%orb_true_iff; [by left|right].
      destruct pe as [pe|]; [|done]. destruct Hpe as (c & m & e & ?); [done|]. eauto 6. }
    destruct Hc as [(-> & _ & _ & He)|(Hmx & ce & Hcl & Hce)].
    - exists None. split; [by apply phase_calm|]. split_and!; try done; [by left|].
      intros Hi. right. destruct err as [er|]; [|done].
      destruct He as [<-|(pe & Hpe & Hp)]; [done|by left|by eapply Hj].
    - destruct (commit_phase _ _ _ _ Hcl) as (Hph & ? & ? & ? & ? & ?).
      exists ce. split; [done|]. destruct Hcl as (t & f & x & rest & -> & Hsig & Hx).
      destruct ce as [ce|].
      + destruct Hce as (_ & -> & ->). split_and!; try done; [right; eauto 8|by left].
      + apply phase_None in Hph. destruct Hce as [_ He].
        split_and!; try done; [by rewrite Hph|by rewrite Hph|right; eauto 8|].
        intros Hi. right. destruct err as [er|]; [|done].
        destruct He as (pe & Hpe & Hp); [done|by eapply Hj]. }
  destruct Hck as (ce & [Hq Hlo Hon] & Hsup & Hcl & Hcd & Hc1 & Hc2 & Hc3 & Htn & Hshape & Hwhy).
  split_and!; try done.
  - assert (Hs1 : has_super (EList offset msgs lerr :: lk) = false) by exact Hls.
    change (EList offset msgs lerr :: lk ++ ck ++ tl)
      with ((EList offset msgs lerr :: lk) ++ ck ++ tl). split.
    + apply quiet_app; [by apply quiet_no_super| |by left].
      apply quiet_app; [done|apply quiet_no_super, Hts|right; by apply signals_plain].
    + rewrite !has_super_app, Hs1, Hts, orb_false_r. simpl. intros Hx.
      rewrite <-(Hsup Hx). auto.
    + intros Hcx Hi. rewrite has_super_app, has_super_app, !existsb_app, Hs1, Hts. simpl.
      rewrite orb_false_r. destruct (Hwhy Hi) as [<-|[Hi'|(c & m & e & pe & Hin & Hi')]].
      * destruct (Hon Hcx Hi) as [->| ->]; [by left|right]. by rewrite !orb_true_r.
      * right. by rewrite Hi'.
      * right. by rewrite (tainted_in _ _ Hin Hi'), orb_true_r.
  - unfold count in *. simpl. rewrite !List.filter_app, !length_app. lia.
  - unfold count in *. simpl. rewrite !List.filter_app, !length_app. lia.
  - unfold count in *. simpl. rewrite !List.filter_app, !length_app. lia.
  - intros Ho m. destruct Hr as (j & pk & _ & Hd & Hw & _). rewrite (Hw Ho), firstn_all in Hd.
    rewrite listed_cons, !listed_app, Hll, Hcl, Htl, !app_nil_r, disposed_cons, disposed_app, Hd.
    set_solver.
  - intros Hord. destruct Hshape as [->|(Hmx & c0 & f0 & x0 & rest & -> & Hsig)].
    { apply commit_safe_none. constructor; [done|]. by apply Forall_app. }
    intros l1 c mx' f x l2 Hk m.
    apply (app_split (EList offset msgs lerr :: lk)) in Hk as [(l & Hk & _)|(l & -> & Hk)].
    { destruct l1 as [|e1 l1]; simplify_eq/=. apply Forall_app in Hlc as [_ [Hlc _]%Forall_cons]. done. }
    assert (l = [] ∧ mx' = mx) as [-> ->].
    { destruct l as [|e1 l]; [by injection Hk|]. exfalso. injection Hk as _ Hk.
      assert (Forall (λ e, is_commit e = false) (rest ++ tl)) as Hf.
      { apply Forall_app. split; [|done]. by apply lane_log_plain, signals_lane. }
      rewrite Hk in Hf. by apply Forall_app in Hf as [_ [? _]%Forall_cons]. }
    rewrite app_nil_r, listed_cons, Hll, app_nil_r, disposed_cons. simpl. intros Hm Hle.
    assert (Ho : in_order msgs) by (eapply Hord, list_elem_of_here).
    destruct Hr as (j & pk & _ & -> & _ & [(-> & ->)|(-> & _)]); [|rewrite firstn_all; set_solver].
    rewrite app_nil_r. unfold last_seq in *.
    destruct (last (take j msgs)) as [ml|] eqn:El; [|lia].
    by eapply in_order_prefix.
Qed.

(** What a phase contributes: how many calls of each kind, nothing listed
    without being disposed of before a commit. *)
Record share (k : list ev) (lists sweeps sequences : nat) : Prop := mkShare {
  sh_lists : (count is_list k <= lists)%nat;
  sh_sweeps : (count is_sweep k <= sweeps)%nat;
  sh_sequences : (count is_sequence k <= sequences)%nat;
  sh_safe : pages_in_order k → commit_safe k }.

Lemma pages_in_order_app k k' :
  pages_in_order (k ++ k') → pages_in_order k ∧ pages_in_order k'.
Proof. unfold pages_in_order. 
  intros Hk. split; intros after ms e ?; apply (Hk after ms e), elem_of_app; auto.
Qed.
Lemma share_app k k' a b c a' b' c' :
  settled k → share k a b c → share k' a' b' c' →
  share (k ++ k') (a + a') (b + b') (c + c').
Proof.
  intros Hs [] []. split; rewrite ?count_app; try lia.
  intros [? ?]%pages_in_order_app. apply commit_safe_app; auto.
Qed.
Lemma share_snoc k k' a b c a' b' c' :
  Forall (λ e, is_commit e = false) k' →
  share k a b c → share k' a' b' c' →
  share (k ++ k') (a + a') (b + b') (c + c').
Proof.
  intros Hs [] []. split; rewrite ?count_app; try lia.
  intros [? ?]%pages_in_order_app. apply commit_safe_snoc; auto.
Qed.
Lemma share_mono k a b c a' b' c' :
  share k a b c → (a <= a')%nat → (b <= b')%nat → (c <= c')%nat → share k a' b' c'.
Proof. intros []. split; try lia. auto. Qed.
Lemma settled_nil k : listed k = [] → settled k.
Proof. intros Hl m. rewrite Hl. set_solver. Qed.
Lemma settled_app k k' : settled k → settled k' → settled (k ++ k').
Proof.
  intros Hk Hk' m. rewrite listed_app, disposed_app, !elem_of_app.
  intros [?|?]; [left; auto|right; auto].
Qed.
Lemma share_lane k : lane_log k → share k 0 0 0.
Proof.
  intros (_ & _ & ? & ? & ? & ?)%lane_log_plain. split; try lia. intros _.
  by apply commit_safe_none.
Qed.
Lemma share_renew e k : renew_log r e k → share k 0 0 0.
Proof.
  intros (_ & _ & ? & ? & ? & _ & ?)%(renew_phase Background). split; try lia.
  intros _. by apply commit_safe_none.
Qed.
Lemma share_commit ctx mx ce k : commit_log r ctx mx ce k → share k 0 0 0.
Proof.
  intros Hc. destruct (commit_phase _ _ _ _ Hc) as (_ & _ & _ & ? & ? & ?).
  destruct Hc as (t & f & x & rest & -> & Hr & _). split; try lia. intros _.
  intros l1 c mx' f' x' l2 Hk m Hm. destruct l1 as [|e1 l1]; [set_solver|]. exfalso.
  injection Hk as _ Hk. pose proof (lane_log_plain _ (signals_lane _ Hr)) as (_&_&_&_&_&Hf).
  rewrite Hk in Hf. by apply Forall_app in Hf as [_ [? _]%Forall_cons].
Qed.

Lemma drainLoop_spec pages ctx offset s :
  hooks_ok (lane r) →
  del (drainLoop r pages ctx offset) s (λ e k s', phase ctx k e ∧ swept_same s s' ∧
    share k pages 0 0).
Proof.
  intros Hok. revert offset s. induction pages as [|pages IH]; intros offset s.
  { cbn [drainLoop]. del_step. split_and!; [by apply phase_calm|done|]. by apply share_lane; constructor. }
  cbn [drainLoop]. del_step. del_use drainPage_spec; [done|].
  intros [[next outcome] err] k1 s1 [Hp ?].
  destruct (page_facts _ _ _ _ _ _ Hp) as (Hph & Hfull & Hn1 & Hn2 & Hn3 & Hset & Hsafe).
  assert (Hsh : share k1 1 0 0) by (split; lia || done).
  assert (Hsh' : share k1 (Datatypes.S pages) 0 0) by (eapply share_mono; [done|lia..]).
  destruct err as [e|].
  { del_step. split_and!; rewrite ?app_nil_r; [done|solve_swept|done]. }
  pose proof (phase_None _ _ Hph) as Hs1.
  destruct outcome; try (del_step; rewrite ?app_nil_r; split_and!; [done|solve_swept|done]).
  - sdel_run. destruct e as [e|].
    { del_step. rewrite ?app_nil_r. split_and!; [|solve_swept|done].
      apply phase_calm; [done|]. intros Hc. dead_ctx. }
    del_step. del_use renewLease_spec. intros lost k2 s2 [Hr ?].
    pose proof (share_renew _ _ Hr) as Hsr.
    destruct (renew_phase ctx _ _ Hr) as (Hrp & _ & _ & _ & _ & Hrl & Hrc).
    destruct lost as [e|].
    + del_step. rewrite ?app_nil_l, ?app_nil_r. split_and!; [|solve_swept|].
      * by apply phase_app.
      * eapply share_mono; [exact (share_snoc k1 k2 1 0 0 0 0 0 Hrc Hsh Hsr)|lia..].
    + del_use IH. intros e k3 s3 (Hp3 & ? & Hs3). rewrite ?app_nil_l.
      split_and!; [|solve_swept|].
      * apply phase_app; [done|]. apply phase_app; [by eapply phase_None|done].
      * assert (Hset1 : settled k1) by by apply Hset.
        assert (Hset2 : settled (k1 ++ k2)) by (apply settled_app; [done|by apply settled_nil]).
        rewrite app_assoc. eapply share_mono;
          [exact (share_app (k1 ++ k2) k3 _ _ _ pages 0 0 Hset2
                    (share_app k1 k2 1 0 0 0 0 0 Hset1 Hsh Hsr) Hs3)|lia..].
  - sdel_run. rewrite ?app_nil_r. split_and!; [|solve_swept|done].
    apply phase_calm; [done|]. intros Hc.
    destruct Hp as (? & ? & ? & ? & ? & ? & _ & _ & _ & _ & _ & Hcan & _). exfalso.
    by apply Hcan.
Qed.

(** *** Sequencing and priming *)
Lemma up_Sequenced_spec n s :
  del (up (Sequenced (reporter r) n)) s (λ _ k s', signals k ∧ swept_same s s').
Proof.
  apply del_up. unfold Sequenced. destruct (hasOnSequenced _); del_run; intros; split;
    by repeat constructor.
Qed.
Lemma up_Swept_spec n s :
  del (up (Swept (reporter r) n)) s (λ _ k s', signals k ∧ swept_same s s').
Proof.
  apply del_up. unfold Swept. destruct (hasOnSwept _); del_run; intros; split;
    by repeat constructor.
Qed.
Lemma up_Leadership_spec b s :
  del (up (Leadership (reporter r) b)) s (λ _ k s', signals k ∧ swept_same s s').
Proof.
  apply del_up. del_use Leadership_spec. intros _ k b' (_ & _ & _ & ->) s' _ ?.
  split; [|done]. unfold dispatch. repeat case_match; by repeat constructor.
Qed.

(** Events that neither list nor commit nor are work. *)
Definition idle (k : list ev) : Prop :=
  no_work k = true ∧ listed k = [] ∧ Forall (λ e, is_commit e = false) k.
Lemma idle_signals k : signals k → idle k.
Proof.
  intros Hk. destruct (lane_log_plain _ (signals_lane _ Hk)) as (? & ? & ? & ? & ? & ?).
  split_and!; [by apply signals_plain|done|done].
Qed.
Lemma idle_app k k' : idle k → idle k' → idle (k ++ k').
Proof.
  intros (? & ? & ?) (? & ? & ?). split_and!.
  - rewrite no_work_app. by apply andb_true_iff.
  - rewrite listed_app. by apply app_nil.
  - by apply Forall_app.
Qed.

Lemma sequenceLoop_spec q pages ctx s :
  del (sequenceLoop r q pages ctx) s (λ e k s', phase ctx k e ∧ swept_same s s' ∧
    share k 0 0 pages ∧ idle k ∧ (pages ≠ 0%nat → count is_sequence k ≠ 0%nat)).
Proof.
  revert s. induction pages as [|pages IH]; intros s; cbn [sequenceLoop].
  { del_step. split_and!; [by apply phase_calm|done| |by apply idle_signals; constructor|done].
    by apply share_lane; constructor. }
  del_step. del_use bSequenceMessages_spec. intros x k1 s1 [-> ?].
  assert (Hi1 : idle [ESequence (SequenceBatchSize (opts r)) x])
    by (split_and!; [done|done|by repeat constructor]).
  assert (Hs1 : share [ESequence (SequenceBatchSize (opts r)) x] 0 0 1).
  { split; [vm_compute; lia..|]. intros _. apply commit_safe_none. by repeat constructor. }
  destruct x as [n|er].
  2: { del_step. rewrite app_nil_r. split_and!; [|solve_swept| |done|done].
       - apply phase_calm; [done|]. intros _ He. simpl in *. by rewrite He.
       - eapply share_mono; [done|lia..]. }
  del_step. set (m := if 0 <? n then _ else _).
  assert (Hm : del m s1 (λ _ k s', signals k ∧ swept_same s1 s')).
  { subst m. destruct (0 <? n); [apply up_Sequenced_spec|del_step; split; [constructor|done]]. }
  clearbody m. del_use Hm. intros _ k2 s2 [Hk2 ?].
  set (a := [ESequence (SequenceBatchSize (opts r)) (inl n)] ++ k2).
  assert (Ha : idle a) by by apply idle_app; [|apply idle_signals].
  assert (Hsa : has_super a = false).
  { unfold a. rewrite has_super_app. by apply (lane_log_plain _ (signals_lane _ Hk2)). }
  assert (Hsh : share a 0 0 1).
  { exact (share_snoc _ k2 0 0 1 0 0 0 (proj2 (proj2 (idle_signals _ Hk2))) Hs1
             (share_lane _ (signals_lane _ Hk2))). }
  assert (Hsh' : share a 0 0 (Datatypes.S pages)) by (eapply share_mono; [done|lia..]).
  destruct (n <? _).
  { del_step. rewrite app_nil_r, <-?app_assoc. fold a. split_and!; [|solve_swept|done|done|done].
    by apply phase_calm. }
  sdel_run. destruct e as [e|].
  { del_step. rewrite ?app_nil_r, ?app_nil_l. fold a.
    split_and!; [|solve_swept|done|done|done]. apply phase_calm; [done|]. intros. dead_ctx. }
  del_step. del_use renewLease_spec. intros lost k3 s3 [Hr ?].
  pose proof (share_renew _ _ Hr) as Hsr.
  destruct (renew_phase ctx _ _ Hr) as (Hrp & Hrw & _ & _ & _ & Hrl & Hrc).
  assert (Hri : idle k3) by by split_and!.
  destruct lost as [e|].
  - del_step. rewrite ?app_nil_l, ?app_nil_r, (app_assoc _ k2). fold a.
    split_and!; [by apply phase_app|solve_swept| |by apply idle_app|done].
    eapply share_mono; [exact (share_snoc a k3 0 0 1 0 0 0 Hrc Hsh Hsr)|lia..].
  - del_use IH. intros e k4 s4 (Hp4 & ? & Hs4 & Hi4 & _).
    rewrite ?app_nil_l, (app_assoc _ k2). fold a.
    split_and!; [|solve_swept| |apply idle_app; [done|by apply idle_app]|done].
    + apply phase_app; [done|]. apply phase_app; [by eapply phase_None|done].
    + rewrite app_assoc. eapply share_mono;
        [exact (share_snoc (a ++ k3) k4 _ _ _ 0 0 pages (proj2 (proj2 Hi4))
           (share_snoc a k3 0 0 1 0 0 0 Hrc Hsh Hsr) Hs4)|lia..].
Qed.

Lemma sequence_spec ctx s :
  del (sequence r ctx) s (λ e k s', phase ctx k e ∧ swept_same s s' ∧
    share k 0 0 maxPagesPerTick ∧ idle k ∧
    (sequencer r ≠ None → count is_sequence k ≠ 0%nat)).
Proof.
  unfold sequence. destruct (sequencer r).
  { del_use sequenceLoop_spec. naive_solver. }
  del_step. split_and!; [by apply phase_calm|done| |by apply idle_signals; constructor|done].
  eapply share_mono; [by apply share_lane; constructor|lia..].
Qed.

Lemma primeOffset_spec ctx s :
  del (primeOffset r ctx) s (λ x k s', phase ctx k (resErr x) ∧ swept_same s s' ∧
    share k 0 0 0 ∧ listed k = []).
Proof.
  assert (Hone : ∀ e x, is_work e = false → superseded e = false →
    is_sequence e = false → tainted e = is_err x errLostLeadership →
    phase ctx [e] (Some x) ∧ share [e] 0 0 0 ∧ listed [e] = []).
  { intros e x Hw Hs Hq Ht. split_and!.
    - apply phase_calm; [unfold has_super; simpl; by rewrite Hs|].
      intros _ Hx. simpl in *. by rewrite Ht, Hx.
    - destruct e; try done; (split; [vm_compute; lia..|]); intros _;
        apply commit_safe_none; by repeat constructor.
    - by destruct e. }
  assert (Hok : ∀ e, is_work e = false → superseded e = false → is_sequence e = false →
    has_super [e] = false ∧ share [e] 0 0 0 ∧ listed [e] = []).
  { intros e Hw Hs Hq. split_and!; [unfold has_super; simpl; by rewrite Hs| |by destruct e].
    destruct e; try done; (split; [vm_compute; lia..|]); intros _;
      apply commit_safe_none; by repeat constructor. }
  unfold primeOffset. del_step. del_use bOffset_spec. intros x k1 s1 [-> ?].
  destruct x as [[offset ex]|er].
  2: { del_step. rewrite app_nil_r. destruct (Hone (EOffset (inr er)) er) as (? & ? & ?); auto. }
  destruct (Hok (EOffset (inl (offset, ex)))) as (Hs1 & Hsh1 & Hl1); [done..|].
  destruct ex; [del_step; rewrite app_nil_r; split_and!; auto; by apply phase_calm|].
  destruct (StartFromBeginning (opts r)).
  - del_step. del_use commitOffset_spec. intros ce k2 s2 [Hc ?].
    destruct (commit_phase _ _ _ _ Hc) as (Hp & Hl & _). pose proof (share_commit _ _ _ _ Hc) as Hsh2.
    assert (Hall : phase ctx ([EOffset (inl (offset, false))] ++ k2) ce ∧
      share ([EOffset (inl (offset, false))] ++ k2) 0 0 0 ∧
      listed ([EOffset (inl (offset, false))] ++ k2) = []).
    { split_and!; [by apply phase_app| |by rewrite listed_app, Hl1].
      exact (share_app _ k2 0 0 0 0 0 0 (settled_nil _ Hl1) Hsh1 Hsh2). }
    destruct Hall as (? & ? & ?).
    destruct ce; del_step; rewrite app_nil_r; split_and!; done || solve_swept.
  - del_use bInitOffsetLatest_spec. intros x k2 s2 [-> ?]. destruct x as [z|er].
    + destruct (Hok (EInitOffset (inl z))) as (? & Hsh2 & ?); [done..|].
      split_and!; [by apply phase_calm|solve_swept| |done].
      exact (share_app _ _ 0 0 0 0 0 0 (settled_nil _ Hl1) Hsh1 Hsh2).
    + destruct (Hone (EInitOffset (inr er)) er) as (? & Hsh2 & ?); [done..|].
      split_and!; [by apply phase_app|solve_swept| |done].
      exact (share_app _ _ 0 0 0 0 0 0 (settled_nil _ Hl1) Hsh1 Hsh2).
Qed.

(** *** The phases together *)
Lemma drain_spec ctx offset s :
  hooks_ok (lane r) →
  del (drain r ctx offset) s (λ e k s', phase ctx k e ∧ swept_same s s' ∧
    share k maxPagesPerTick 0 0).
Proof.
  intros Hok. unfold drain. sdel_run. del_use drainLoop_spec; [done|].
  intros e k s1 (? & ? & ?). split_and!; [done|solve_swept|done].
Qed.

Lemma Is_Join3 a b c t : Is (Join [a; b; c]) t = Is a t || Is b t || Is c t.
Proof. rewrite Is_Join. simpl. by rewrite orb_false_r, orb_assoc. Qed.

Lemma phase_join ctx k1 k2 k3 e1 e2 e3 :
  phase ctx k1 e1 → phase ctx k2 e2 → phase ctx k3 e3 → no_work k2 = true →
  (has_super (k1 ++ k2) = true → k3 = []) →
  phase ctx (k1 ++ k2 ++ k3) (Join [e1; e2; e3]).
Proof.
  intros [Hq1 Hl1 Ho1] [Hq2 Hl2 Ho2] [Hq3 Hl3 Ho3] Hw Hk. split.
  - rewrite app_assoc. apply quiet_app; [by apply quiet_app; auto|done|].
    destruct (has_super (k1 ++ k2)); [right|by left]. by rewrite Hk.
  - rewrite !has_super_app, Is_Join3. intros Hs.
    apply orb_true_iff in Hs as [Hs|[Hs|Hs]%orb_true_iff].
    + by rewrite (Hl1 Hs).
    + by rewrite (Hl2 Hs), orb_true_r.
    + by rewrite (Hl3 Hs), orb_true_r.
  - intros Hc. rewrite Is_Join3, !has_super_app, !existsb_app, !orb_true_iff.
    specialize (Ho1 Hc). specialize (Ho2 Hc). specialize (Ho3 Hc). tauto.
Qed.

Lemma phases_spec ctx s :
  hooks_ok (lane r) →
  del (Sequence.phases r ctx) s (λ e k s', phase ctx k e ∧ swept_same s s' ∧
    share k maxPagesPerTick 0 maxPagesPerTick ∧
    (sequencer r ≠ None → count is_sequence k ≠ 0%nat)).
Proof.
  intros Hok. unfold Sequence.phases. del_step. del_use primeOffset_spec.
  intros x k1 s1 (Hp1 & ? & Hs1 & Hl1). del_step. del_use sequence_spec.
  intros e2 k2 s2 (Hp2 & ? & Hs2 & Hi2 & Hc2). del_step.
  set (m := match x with inl _ => _ | inr _ => _ end).
  assert (Hm : del m s2 (λ e k s', phase ctx k e ∧ swept_same s2 s' ∧
    share k maxPagesPerTick 0 0 ∧ (has_super (k1 ++ k2) = true → k = []))).
  { assert (Hnone : del (mret None : M S error) s2 (λ e k s', phase ctx k e ∧ swept_same s2 s' ∧
      share k maxPagesPerTick 0 0 ∧ (has_super (k1 ++ k2) = true → k = []))).
    { del_step. split_and!; [by apply phase_calm|done| |done].
      eapply share_mono; [by apply share_lane; constructor|lia..]. }
    subst m. destruct x as [offset|er]; [|done].
    destruct (Is e2 errLostLeadership) eqn:E2; [done|]. simpl negb. cbn iota.
    del_use drain_spec; [done|]. intros e k s3 (? & ? & ?). split_and!; try done.
    rewrite has_super_app. rewrite (phase_None _ _ Hp1). simpl.
    intros Hs. rewrite (ph_lost _ _ _ Hp2 Hs) in E2. done. }
  clearbody m. del_use Hm. intros e3 k3 s3 (Hp3 & ? & Hs3 & Hk3). del_step.
  rewrite app_nil_r. split_and!; [|solve_swept| |].
  - apply phase_join; try done. apply Hi2.
  - assert (Hset : settled (k1 ++ k2)).
    { apply settled_nil. rewrite listed_app, Hl1. apply Hi2. }
    rewrite app_assoc. eapply share_mono;
      [exact (share_app (k1 ++ k2) k3 _ _ _ maxPagesPerTick 0 0 Hset
         (share_app k1 k2 0 0 0 0 0 maxPagesPerTick (settled_nil _ Hl1) Hs1 Hs2) Hs3)|lia..].
  - intros Hq. specialize (Hc2 Hq). rewrite !count_app. lia.
Qed.

(** *** The sweep *)
Definition latched (k : list ev) (s s' : S) : Prop :=
  swept_same s s' ∨
  ∃ n, ESweep (RetentionSweepBatch (opts r)) (inl n) ∈ k ∧ n < RetentionSweepBatch (opts r).
Lemma sweepLoop_spec w pages ctx s :
  del (sweepLoop r w pages ctx) s (λ e k s', has_super k = false ∧ listed k = [] ∧
    Forall (λ e, is_commit e = false) k ∧ share k 0 pages 0 ∧ latched k s s' ∧
    ((0 < pages)%nat → count is_sweep k ≠ 0%nat)).
Proof.
  revert s. induction pages as [|pages IH]; intros s; cbn [sweepLoop].
  { del_step. split_and!; try done; [by apply share_lane; constructor|by left|lia]. }
  set (batch := RetentionSweepBatch (opts r)).
  del_step. del_use bSweepMessages_spec. intros x k1 s1 [-> ?]. fold batch.
  assert (Hs1 : share [ESweep batch x] 0 1 0).
  { split; [vm_compute; lia..|]. intros _. apply commit_safe_none. by repeat constructor. }
  destruct x as [n|er].
  2: { del_step. rewrite app_nil_r. split_and!; try done; [by repeat constructor| |by left].
       eapply share_mono; [done|lia..]. }
  del_step. del_use up_Swept_spec. intros _ k2 s2 [Hk2 ?].
  destruct (lane_log_plain _ (signals_lane _ Hk2)) as (Hs2 & Hl2 & Hc1 & Hc2 & Hc3 & Hcc).
  assert (Hsh : share ([ESweep batch (inl n)] ++ k2) 0 1 0).
  { exact (share_snoc _ k2 0 1 0 0 0 0 Hcc Hs1 (share_lane _ (signals_lane _ Hk2))). }
  assert (Hne : ∀ k3, count is_sweep ([ESweep batch (inl n)] ++ k2 ++ k3) ≠ 0%nat) by done.
  assert (Hf : Forall (λ e, is_commit e = false) ([ESweep batch (inl n)] ++ k2))
    by (by constructor).
  destruct (Z.ltb_spec n batch).
  { sdel_run. rewrite ?app_nil_r. split_and!; try done; [eapply share_mono; [done|lia..]|].
    right. exists n. split; [set_solver|done]. }
  sdel_run. destruct e as [e|].
  { del_step. rewrite ?app_nil_r. split_and!; try done; [eapply share_mono; [done|lia..]|].
    left. solve_swept. }
  del_use IH. intros e k3 s3 (Hs3 & Hl3 & Hf3 & Hsh3 & Hla & _). rewrite ?app_nil_l.
  split_and!; try done.
  - rewrite !has_super_app, Hs2, Hs3. done.
  - by rewrite !listed_app, Hl2, Hl3.
  - rewrite app_assoc. by apply Forall_app.
  - rewrite app_assoc. eapply share_mono;
      [exact (share_snoc _ k3 0 1 0 0 pages 0 Hf3 Hsh Hsh3)|lia..].
  - destruct Hla as [?|(m & Hm & ?)]; [left; solve_swept|right]. exists m. split; [set_solver|done].
Qed.

Lemma maybeSweep_spec ctx s :
  del (maybeSweep r ctx) s (λ e k s', has_super k = false ∧ listed k = [] ∧
    Forall (λ e, is_commit e = false) k ∧ share k 0 maxPagesPerTick 0 ∧ latched k s s' ∧
    (retention r ≠ None → lastSweep s = 0 → count is_sweep k ≠ 0%nat)).
Proof.
  unfold maybeSweep.
  assert (Hnone : ∀ s1, swept_same s s1 → del (mret None : M S error) s1 (λ e k s', has_super k = false ∧ listed k = [] ∧
    Forall (λ e, is_commit e = false) k ∧ share k 0 maxPagesPerTick 0 ∧ latched k s s')).
  { intros. del_step. split_and!; try done; [|by left].
    eapply share_mono; [by apply share_lane; constructor|lia..]. }
  destruct (retention r) as [w|].
  2: { del_use Hnone; [done|]. naive_solver. }
  sdel_run. destruct (lastSweep s =? 0) eqn:El; simpl negb; cbn [andb].
  - del_use sweepLoop_spec. intros e k s1 (? & ? & ? & ? & Hla & Hc). split_and!; try done.
    + destruct Hla as [?|?]; [left; solve_swept|by right].
    + intros _ _. apply Hc. unfold maxPagesPerTick. lia.
  - zbool. destruct (_ <? _).
    + del_use Hnone; [done|]. intros e k s1 (? & ? & ? & ? & ?). by split_and!.
    + del_use sweepLoop_spec. intros e k s1 (? & ? & ? & ? & Hla & Hc). split_and!; try done.
      destruct Hla as [?|?]; [left; solve_swept|by right].
Qed.
End phases.
