(* ===== verification/SequenceProps.v ===== *)
(** * relay/sequence: properties of a tick and of a run *)
From S2P Require Import Prelude Errors GoLib Event Bound Relay Scenario Notify Leader Lane RelayCfg Sequence SequenceFacts SequencePhases.
From Stdlib Require Import Sorting.Sorted.

Section tick.
Context `{UrlLib} {W : Type} `{Host W}.
#[local] Abbreviation S := (seqst W).
Context (r : Relay W).
Implicit Types (s : S).

(** What a tick may leave in the log. *)
Record tick_log (ctx : cx) (s s' : S) (k : list ev) : Prop := mkTick {
  tk_quiet : quiet k;
  tk_share : share k maxPagesPerTick maxPagesPerTick maxPagesPerTick;
  tk_latch : latched r k s s';
  tk_sweep : cx_done ctx = None → retention r ≠ None → lastSweep s = 0 →
    count is_sweep k ≠ 0%nat ∨ has_super k = true ∨ existsb tainted k = true }.

(** A tick that stops after [k]. *)
Lemma tick_stop ctx s s' k k' n :
  quiet k → share k maxPagesPerTick 0 n → (n <= maxPagesPerTick)%nat → signals k' →
  swept_same s s' → (cx_done ctx = None → has_super k = true ∨ existsb tainted k = true) →
  tick_log ctx s s' (k ++ k').
Proof.
  intros Hq Hs Hn Hk' ? Hc.
  destruct (lane_log_plain _ (signals_lane _ Hk')) as (? & ? & ? & ? & ? & Hcc). split.
  - apply quiet_app; [done|by apply quiet_no_super|right; by apply signals_plain].
  - eapply share_mono;
      [exact (share_snoc k k' _ _ _ 0 0 0 Hcc Hs (share_lane _ (signals_lane _ Hk')))|lia..].
  - by left.
  - intros Hcx _ _. right. rewrite has_super_app, existsb_app.
    destruct (Hc Hcx) as [->| ->]; auto.
Qed.

(** The election that opens a tick. *)
Definition elect_log (x : res bool) (k : list ev) : Prop :=
  no_work k = true ∧ listed k = [] ∧ share k 0 0 0 ∧
  (has_super k = false ↔ x = inl true).
Lemma elect_spec ctx s :
  del (up (TryAcquire (leader r) ctx)) s (λ x k s', elect_log x k ∧ swept_same s s').
Proof.
  apply del_up. del_use TryAcquire_spec. intros x k b (_ & _ & Hx) s1 _ ?.
  split; [|done]. destruct (ls (leader r)).
  - destruct Hx as (t & -> & _). split_and!; try done.
    + split; [vm_compute; lia..|]. intros _. apply commit_safe_none. by repeat constructor.
    + destruct x as [[]|]; naive_solver.
  - destruct Hx as (-> & -> & _). split_and!; try done. by apply share_lane; constructor.
Qed.

Lemma tick_go ctx s s0 k1 k2 k3 s' passErr sweep :
  has_super k1 = false → listed k1 = [] → share k1 0 0 0 →
  phase ctx k2 passErr → share k2 maxPagesPerTick 0 maxPagesPerTick →
  Is passErr errLostLeadership = false →
  has_super k3 = false → Forall (λ e, is_commit e = false) k3 →
  share k3 0 maxPagesPerTick 0 → latched r k3 s0 s' → swept_same s s0 →
  (cx_done ctx = None → sweep = true) →
  (sweep = true → retention r ≠ None → lastSweep s0 = 0 → count is_sweep k3 ≠ 0%nat) →
  tick_log ctx s s' (k1 ++ k2 ++ k3).
Proof.
  intros Hs1 Hl1 Hsh1 Hp2 Hsh2 Hlost Hs3 Hf3 Hsh3 Hla ? Hsw Hc.
  assert (Hs2 : has_super k2 = false).
  { destruct (has_super k2) eqn:E; [|done]. by rewrite (ph_lost _ _ _ Hp2 E) in Hlost. }
  split.
  - apply quiet_no_super. by rewrite !has_super_app, Hs1, Hs2, Hs3.
  - rewrite app_assoc. eapply share_mono;
      [exact (share_snoc (k1 ++ k2) k3 _ _ _ 0 maxPagesPerTick 0 Hf3
         (share_app k1 k2 0 0 0 _ _ _ (settled_nil _ Hl1) Hsh1 Hsh2) Hsh3)|lia..].
  - destruct Hla as [?|(n & Hn & ?)]; [left; solve_swept|right]. exists n. split; [set_solver|done].
  - intros Hcx Hr Hz. left. rewrite !count_app.
    assert (lastSweep s0 = 0) as Hz0 by solve_swept.
    specialize (Hc (Hsw Hcx) Hr Hz0). lia.
Qed.

Lemma RunOnce_spec ctx s :
  hooks_ok (lane r) → del (RunOnce r ctx) s (λ e k s', tick_log ctx s s' k).
Proof.
  intros Hok. unfold RunOnce. del_step. del_use elect_spec.
  intros x k1 s1 [(Hw1 & Hl1 & Hsh1 & Hsup1) ?].
  assert (Hstop : ∀ k' s', x ≠ inl true → swept_same s s' → signals k' →
    tick_log ctx s s' (k1 ++ k')).
  { intros k' s' Hx ??. eapply (tick_stop _ _ _ _ _ 0); try done;
      [by apply quiet_no_work|eapply share_mono; [done|lia..]|lia|].
    intros _. left. destruct (has_super k1); [done|]. exfalso. apply Hx. by apply Hsup1. }
  destruct x as [b|e]; [|del_step; apply Hstop; [done|done|constructor]].
  del_step. del_use up_Leadership_spec. intros _ k2 s2 [Hk2 ?].
  destruct b; simpl negb; cbn iota.
  2: { del_step. rewrite app_nil_r. by apply Hstop; [|solve_swept|]. }
  assert (Hs1 : has_super k1 = false) by by apply Hsup1.
  destruct (lane_log_plain _ (signals_lane _ Hk2)) as (Hs2 & Hl2 & _ & _ & _ & Hc2).
  assert (Hpre : has_super (k1 ++ k2) = false ∧ listed (k1 ++ k2) = [] ∧ share (k1 ++ k2) 0 0 0).
  { rewrite has_super_app, listed_app, Hs1, Hs2, Hl1, Hl2. split_and!; try done.
    exact (share_snoc k1 k2 0 0 0 0 0 0 Hc2 Hsh1 (share_lane _ (signals_lane _ Hk2))). }
  destruct Hpre as (Hps & Hpl & Hpsh).
  del_step. del_use phases_spec; [done|]. intros passErr k3 s3 (Hp3 & ? & Hsh3 & _).
  destruct (Is passErr errLostLeadership) eqn:El.
  - del_step. del_use up_Leadership_spec. intros _ k4 s4 [Hk4 ?].
    assert (Htick : tick_log ctx s s4 ((k1 ++ k2 ++ k3) ++ k4)).
    { rewrite (app_assoc k1). eapply (tick_stop _ _ _ _ _ maxPagesPerTick); try done.
      - apply quiet_app; [by apply quiet_no_super|by apply Hp3|by left].
      - exact (share_app (k1 ++ k2) k3 0 0 0 _ _ _ (settled_nil _ Hpl) Hpsh Hsh3).
      - solve_swept.
      - intros Hcx. rewrite has_super_app, existsb_app, Hps.
        destruct (ph_only _ _ _ Hp3 Hcx El) as [->| ->]; rewrite ?orb_true_r; auto. }
    rewrite <-!app_assoc in Htick.
    destruct (Is passErr errLeaseRenewFailed); del_step; by rewrite app_nil_r.
  - sdel_run. destruct (isNil e) eqn:Ee; simpl negb; cbn iota.
    + del_step. del_use maybeSweep_spec. intros se k4 s5 (? & _ & ? & ? & ? & ?).
      del_step. rewrite app_nil_r, ?app_nil_l, (app_assoc k1).
      eapply (tick_go ctx s _ (k1 ++ k2) k3 k4 s5 passErr true); try done. solve_swept.
    + del_step. rewrite ?app_nil_l, (app_assoc k1).
      lazymatch goal with |- tick_log _ _ ?sx _ =>
        apply (tick_go ctx s sx (k1 ++ k2) k3 [] sx passErr false); try done end.
      * eapply share_mono; [by apply share_lane; constructor|lia..].
      * by left.
      * solve_swept.
      * intros Hc. destruct e; [|done]. dead_ctx.
Qed.
End tick.

(** ** Properties of a tick *)
(** A positive count is an occurrence. *)
Lemma count_elem `{UrlLib} f (k : list ev) : count f k ≠ 0%nat → ∃ e, e ∈ k ∧ f e = true.
Proof.
  unfold count. intros Hn. destruct (List.filter f k) as [|e l] eqn:E; [done|].
  assert (In e (List.filter f k)) as [Hin He]%filter_In by (rewrite E; by left).
  exists e. by rewrite list_elem_of_In.
Qed.

Section properties.
  Context `{UrlLib} {W : Type} `{Host W}.
  Implicit Types (r : Relay W) (s : seqst W).

(** C8: no watermark passes an undisposed message. In every tick, against any
    store, sender and handler: when the relay commits a position, every message
    the store had listed at or below that position has been confirmed by the
    sender or durably parked before the commit is sent. The store owes the relay
    pages in ascending order. *)
Theorem RunOnce_commits_after_disposal r ctx s :
  hooks_ok (lane r) →
  del (RunOnce r ctx) s (λ _ k _, pages_in_order k →
    ∀ l1 c seq f x l2, k = l1 ++ ECommit c seq f x :: l2 →
      ∀ m, m ∈ listed l1 → Seq m <= seq → m ∈ disposed l1).
Proof. intros Hok. del_use RunOnce_spec; [done|]. intros ? k ? [_ [_ _ _ Hsafe] _ _]. exact Hsafe. Qed.

(** C9: a superseded relay stops. In every tick, once the elector failed to
    confirm the lock, or the store rejected a fenced commit, the tick lists,
    delivers, parks, commits and sweeps nothing more. *)
Theorem RunOnce_quiet_once_superseded r ctx s :
  hooks_ok (lane r) →
  del (RunOnce r ctx) s (λ _ k _,
    ∀ l1 e l2, k = l1 ++ e :: l2 → superseded e = true →
      Forall (λ e', is_work e' = false) l2).
Proof.
  intros Hok. del_use RunOnce_spec; [done|]. intros ? k ? [Hq _ _ _] l1 e l2 Hk He.
  apply Forall_forall. intros e' He'%list_elem_of_In.
  pose proof (Hq _ _ _ Hk He) as Hw. unfold no_work in Hw. rewrite forallb_forall in Hw.
  by apply negb_true_iff, Hw.
Qed.

(** C38: a tick is bounded: whatever the producer's rate, one tick reads, sweeps
    and sequences at most [maxPagesPerTick] pages each, so no phase starves the
    next. *)
Theorem RunOnce_bounded r ctx s :
  hooks_ok (lane r) →
  del (RunOnce r ctx) s (λ _ k _,
    (count is_list k <= maxPagesPerTick)%nat ∧
    (count is_sweep k <= maxPagesPerTick)%nat ∧
    (count is_sequence k <= maxPagesPerTick)%nat).
Proof. intros Hok. del_use RunOnce_spec; [done|]. by intros ? k ? [_ [? ? ? _] _ _]. Qed.

(** Retention does not depend on delivery: on a live context, a tick of a
    relay whose sweep is due calls the sweeper, whatever happened to the prime,
    the sequencer and the drain, unless the relay was superseded (or a foreign
    error carried the runtime's own unexported sentinel). *)
Theorem RunOnce_sweeps_despite_faults r ctx s :
  hooks_ok (lane r) → cx_done ctx = None → retention r ≠ None → lastSweep s = 0 →
  del (RunOnce r ctx) s (λ _ k _,
    (∃ limit x, ESweep limit x ∈ k) ∨ has_super k = true ∨ existsb tainted k = true).
Proof.
  intros Hok Hc Hr Hz. del_use RunOnce_spec; [done|]. intros ? k ? [_ _ _ Hs].
  destruct (Hs Hc Hr Hz) as [(e & He & Hf)%count_elem|?]; [left|by right].
  destruct e; try done. eauto.
Qed.

(** The sweep interval is a cadence, not a ration: a tick moves the sweep
    clock only when a sweep page came back short, that is when nothing deletable
    was left; a failed sweep, a spent page budget and every other way to end the
    tick leave it, so the next tick sweeps again. *)
Theorem RunOnce_sweep_latch r ctx s :
  hooks_ok (lane r) →
  del (RunOnce r ctx) s (λ _ k s',
    lastSweep s' = lastSweep s ∨
    ∃ n, ESweep (RetentionSweepBatch (opts r)) (inl n) ∈ k ∧ n < RetentionSweepBatch (opts r)).
Proof. intros Hok. del_use RunOnce_spec; [done|]. by intros ? k ? [_ _ Hl _]. Qed.

(** A page is disposed of in order, as a contiguous prefix, by both the
    serial and the batched shape: the messages confirmed or parked are the first
    ones of the page, the position reached is the last of them, the count is the
    number actually delivered, and the page is reported done only when it is
    disposed of entirely. *)
Theorem forward_contiguous r ctx msgs offset s :
  hooks_ok (lane r) →
  del (forward r ctx msgs offset) s (λ x k _,
    let '(maxSeq, sent, outcome) := x in
    ∃ j, (j <= length msgs)%nat ∧ disposed k = take j msgs ∧
      maxSeq = last_seq offset (take j msgs) ∧ sent = zlen (sent_msgs k) ∧
      (outcome = pageDone → j = length msgs)).
Proof.
  intros Hok. del_use forward_spec; [done|].
  intros [[mx sent] o] k s' [(_ & j & Hj & Hd & Hm & Hs & _ & Hdone & _) _].
  exists j. by split_and!.
Qed.

(** C39: the batched loop terminates: each round advances past at least one
    message or returns, so a round per message is enough, whatever the sender
    answers. *)
Theorem forwardBatched_terminates r fuel ctx msgs maxSeq sent s :
  hooks_ok (lane r) → (length msgs <= fuel)%nat →
  (forwardBatchedLoop r fuel ctx msgs maxSeq sent s).1 ≠ None.
Proof.
  intros Hok Hf. destruct (forwardBatchedLoop_spec r fuel ctx msgs maxSeq sent s Hok Hf)
    as (k & _ & _ & y & -> & _). done.
Qed.

(** What construction promises. A relay [NewRelay] returns has a poison
    handler wherever it has a classifier; holds an election, and a fenced commit,
    unless each was waived in so many words; runs a sequencer unless told not
    to, and a sweeper if one was asked for; and its name, lock name and budgets
    are in the ranges the schema and the lease allow. *)
Theorem NewRelay_contract render holder name st sender caps (o : options W) r :
  NewRelay render holder name st sender caps o = inl r →
  hooks_ok (lane r) ∧
  (ls (leader r) = None → LeaderElectionDisabled (oLease o) = true) ∧
  (fenced r = None → FencedCommitWaived o = true ∨ LeaderElectionDisabled (oLease o) = true) ∧
  (sequencer r = None → SequencerDisabled o = true) ∧
  (retention r = None → RetentionConfigured o = false) ∧
  0 < len name <= MaxNameLen ∧ len (lockName (leader r)) <= MaxNameLen ∧
  0 < BatchSize (opts r) ∧ 0 < SequenceBatchSize (opts r) ∧
  0 < PollInterval (opts r) < optimeout r ∧
  PollInterval (opts r) < Z.quot (LeaseTTL (oLease (opts r))) 2.
Proof.
  unfold NewRelay, ValidateName. destruct (String.eqb_spec name ""); [done|].
  assert (0 < len name) by (destruct name; [done|unfold len; simpl; lia]).
  destruct (Z.ltb_spec MaxNameLen (len name)); [done|].
  destruct st as [st|], sender as [sd|]; try done. simpl ValidateDeps. cbn iota.
  destruct (Z.leb_spec (PollInterval o) 0); [done|].
  destruct (Z.leb_spec (BatchSize o) 0); [done|].
  destruct (Z.leb_spec (SequenceBatchSize o) 0); [done|].
  destruct (Lease_Validate (oLease o) name (PollInterval o)) as [lease lerr] eqn:El.
  destruct lerr; [done|].
  assert (Hl : (Lease_Validate (oLease o) name (PollInterval o)).2 = None) by by rewrite El.
  apply Lease_Validate_accepts in Hl.
  assert (Hle : LeaderElectionDisabled lease = LeaderElectionDisabled (oLease o) ∧
    LeaseTTL lease = LeaseTTL (oLease o) ∧
    LeaderLockName lease = (if String.eqb (LeaderLockName (oLease o)) "" then name
                            else LeaderLockName (oLease o))).
  { unfold Lease_Validate in El. destruct (String.eqb _ _); by simplify_eq/=. }
  clear El. destruct Hle as (He1 & He2 & He3).
  destruct (Ops_Validate (oOps o) (PollInterval o) (LeaseTTL lease)) eqn:Eo; [done|].
  apply Ops_Validate_accepts in Eo.
  destruct (Hooks_Validate (oHooks o)) eqn:Eh; [done|].
  destruct (RetentionConfigured o && RetentionDisabled o) eqn:E1; [done|].
  destruct (negb _ && _); [done|].
  destruct (ElectorOf lease (capLeader caps) holder) as [el|] eqn:Eel; [|done].
  assert (Hel : (ls el = None → LeaderElectionDisabled (oLease o) = true) ∧
    lockName el = LeaderLockName lease).
  { revert Eel. unfold ElectorOf. rewrite He1.
    destruct (LeaderElectionDisabled (oLease o)), (capLeader caps); intros; by simplify_eq/=. }
  cbv zeta. destruct (if SequencerDisabled o then _ else _) as [q|] eqn:Eq; [|done].
  assert (Hq : q = None → SequencerDisabled o = true).
  { revert Eq. destruct (SequencerDisabled o), (capSequencer caps); intros; by simplify_eq/=. }
  destruct (if RetentionDisabled o then _ else _) as [w|] eqn:Er; [|done].
  assert (Hw : w = None → RetentionConfigured o = false).
  { revert Er E1. destruct (RetentionDisabled o), (capSweeper caps), (RetentionConfigured o);
      intros; by simplify_eq/=. }
  destruct (if negb (FencedCommitWaived o) && _ then _ else _) as [f|] eqn:Ef; [|done].
  assert (Hf : f = None → FencedCommitWaived o = true ∨ LeaderElectionDisabled (oLease o) = true).
  { revert Ef. destruct (FencedCommitWaived o), (LeaderElectionDisabled (oLease o)),
      (capFenced caps); intros; simplify_eq/=; auto. }
  intros [= <-]. unfold hooks_ok, optimeout. simpl. destruct Hel as [Hel ->].
  rewrite He2, He3. cbv zeta in Hl. destruct Hl as (? & ? & ?), Eo as (? & ? & ?).
  split_and!; try done; try lia.
  intros Hu. unfold Hooks_Validate in Eh.
  by destruct (HUnsendable (oHooks o)), (HPoisonHandler (oHooks o)).
Qed.

(** A relay never leaves its loop holding leadership: whenever [Run] returns,
    the elector's flag is down and the observer's last word is that this instance
    does not lead. *)
Theorem Run_releases r wait ticks ctx s :
  match Run r wait ticks ctx s with
  | (Some _, s') => isLeader (base s') = false ∧ wasLeader (base s') = false
  | (None, _) => True
  end.
Proof.
  unfold Run. cbv zeta. rewrite !run_bind.
  match goal with |- context [match (?m ?s0).1 with None => _ | Some _ => _ end] =>
    generalize (m s0).1 (m s0).2 end.
  intros [c|] s1; [|done].
  match goal with |- context [ReleaseLeadership (reporter r) ?scope (leader r)] =>
    destruct (ReleaseLeadership_spec (reporter r) scope (leader r) (base s1))
      as (k & _ & _ & Hl & Hw) end.
  by split.
Qed.
End properties.

(** Every pass that gets past the election runs the sequencer, if the relay
    has one: a failed prime skips only the drain. That holds also when the prime
    failed because the store rejected its fenced commit, so a relay that was
    just told it is superseded still sequences once. *)
Theorem phases_always_sequence `{UrlLib} {W} `{Host W} (r : Relay W) ctx (s : seqst W) :
  hooks_ok (lane r) → sequencer r ≠ None →
  del (Sequence.phases r ctx) s (λ _ k _, ∃ limit x, ESequence limit x ∈ k).
Proof.
  intros Hok Hq. del_use phases_spec; [done|]. intros e k s' (_ & _ & _ & Hc).
  destruct (count_elem _ _ (Hc Hq)) as (ev & ? & ?). destruct ev; try done. eauto.
Qed.

(** ** A relay to run: a store that holds two messages and accepts commits *)
Definition demo_pages : list Message := [Scenario.message 1 "a"; Scenario.message 2 "b"].
Definition demo_store : Store Scenario.script := mkStore
  (λ _ after limit, mret (filter (λ m, after < Seq m) demo_pages, None))
  (λ _ _, mret (inl (0, true)))
  (λ _ _ _, mret None)
  (λ _ _, mret (inl 0)).
Definition demo_caps : capabilities (W := Scenario.script) := mkCapabilities
  (Some (mkLeaderStore (λ _ _ _ _, mret (inl true)) (λ _ _ _, mret None)))
  (Some (λ _ _, mret (inl 2))) (Some (λ _ _ _ _ _, mret (inl true)))
  (Some (λ _ _, mret (inl 0))) None (Some Scenario.scripted_batch).
Definition demo_render (z : Z) : string := "n"%string.
Definition demo_relay : Relay Scenario.script :=
  match NewRelay demo_render "holder" "books" (Some demo_store) (Some Scenario.scripted_send)
          demo_caps defaultOptions with
  | inl r => r
  | inr _ => mkRelay "" demo_store defaultOptions (NewElector None "" "" 0)
               (mkReporter no_signals 0) (demo_lane None) None None None None
  end.
Definition demo_seqst (answers : list error) : seqst Scenario.script :=
  mkSeqst (demo_state answers) 0 0 false.

(** The tick of that relay delivers both messages and commits position 2. *)
Example demo_tick :
  disposed (trace (base (RunOnce demo_relay Background (demo_seqst [])).2)) = demo_pages ∧
  List.filter is_commit (trace (base (RunOnce demo_relay Background (demo_seqst [])).2)) =
    [ECommit (Commit (1000 + Second + Second) Background (30 * Second)) 2 true (inl true)].
Proof. split; reflexivity. Qed.

(** The second send fails: position 1 is committed, nothing beyond it. *)
Lemma RunOnce_commits_after_disposal_witness :
  del (RunOnce demo_relay Background) (demo_seqst [None; Some (New "down")])
    (λ _ k _, pages_in_order k →
      ∀ l1 c seq f x l2, k = l1 ++ ECommit c seq f x :: l2 →
        ∀ m, m ∈ listed l1 → Seq m <= seq → m ∈ disposed l1).
Proof. apply (RunOnce_commits_after_disposal demo_relay). by vm_compute. Defined.
Lemma RunOnce_quiet_once_superseded_witness :
  del (RunOnce demo_relay Background) (demo_seqst []) (λ _ k _,
    ∀ l1 e l2, k = l1 ++ e :: l2 → superseded e = true →
      Forall (λ e', is_work e' = false) l2).
Proof. apply (RunOnce_quiet_once_superseded demo_relay). by vm_compute. Defined.
Lemma RunOnce_bounded_witness :
  del (RunOnce demo_relay Background) (demo_seqst []) (λ _ k _,
    (count is_list k <= 64)%nat ∧ (count is_sweep k <= 64)%nat ∧ (count is_sequence k <= 64)%nat).
Proof. apply (RunOnce_bounded demo_relay). by vm_compute. Defined.
Lemma RunOnce_sweeps_despite_faults_witness :
  del (RunOnce demo_relay Background) (demo_seqst [Some (New "down")]) (λ _ k _,
    (∃ limit x, ESweep limit x ∈ k) ∨ has_super k = true ∨ existsb tainted k = true).
Proof. apply (RunOnce_sweeps_despite_faults demo_relay); by vm_compute. Defined.
Lemma RunOnce_sweep_latch_witness :
  del (RunOnce demo_relay Background) (demo_seqst []) (λ _ k s',
    lastSweep s' = 0 ∨ ∃ n, ESweep 1000 (inl n) ∈ k ∧ n < 1000).
Proof. apply (RunOnce_sweep_latch demo_relay). by vm_compute. Defined.
Lemma forward_contiguous_witness :
  del (forward demo_relay Background demo_pages 0) (demo_seqst [None; Some (New "down")])
    (λ x k _, let '(maxSeq, sent, outcome) := x in
      ∃ j, (j <= 2)%nat ∧ disposed k = take j demo_pages ∧
        maxSeq = last_seq 0 (take j demo_pages) ∧ sent = zlen (sent_msgs k) ∧
        (outcome = pageDone → j = 2%nat)).
Proof. apply (forward_contiguous demo_relay). by vm_compute. Defined.
Lemma forwardBatched_terminates_witness :
  (forwardBatchedLoop demo_relay 2 Background demo_pages 0 0 (demo_seqst [])).1 ≠ None.
Proof.
  apply (forwardBatched_terminates demo_relay 2 Background demo_pages); [by vm_compute|].
  simpl. lia.
Defined.
Lemma NewRelay_contract_witness :
  hooks_ok (lane demo_relay) ∧ 0 < len (name demo_relay) <= MaxNameLen.
Proof.
  destruct (NewRelay_contract demo_render "holder" "books" (Some demo_store)
    (Some Scenario.scripted_send) demo_caps defaultOptions demo_relay)
    as (Hh & _ & _ & _ & _ & Hn & _); [reflexivity|]. by split.
Defined.
Lemma phases_always_sequence_witness :
  del (Sequence.phases demo_relay Background) (demo_seqst [])
    (λ _ k _, ∃ limit x, ESequence limit x ∈ k).
Proof. apply (phases_always_sequence demo_relay); by vm_compute. Defined.
