(* ===== verification/Safety.v ===== *)
(** * What a store promises a relay, and what a relay keeps of it

    A relay moves a position through a log. [Safe p w] is a log's claim that, in
    the world [w], everything up to [p] has been accounted for. The class below
    leaves open what accounting means; a store gives the instance, and a relay's
    theorems are proved against the class. This file has the part both relays
    share: the calls of the lane, the reporter and the elector keep every claim
    that the user's sender and handlers keep. *)
From S2P Require Import Prelude Errors GoLib Event Bound Relay Scenario Notify Leader Lane.

(** Every result of a computation. *)
Definition yields {S A} (m : M S A) (V : A → Prop) : Prop := ∀ s, V (m s).1.
Section yields.
Context {S : Type}.
Lemma yields_ret {A} (a : A) (V : A → Prop) : V a → yields (S := S) (mret a) V.
Proof. intros HV s. exact HV. Qed.
Lemma yields_bind {A B} (m : M S A) (f : A → M S B) U V :
  yields m U → (∀ a, U a → yields (f a) V) → yields (m ≫= f) V.
Proof. intros Hm Hf s. apply Hf, Hm. Qed.
Lemma yields_after {A B} (m : M S A) (f : A → M S B) V :
  (∀ a, yields (f a) V) → yields (m ≫= f) V.
Proof. intros Hf s. apply Hf. Qed.
End yields.

(** ** The interface *)
Class Safety (Pos W : Type) := Safe : Pos → W → Prop.
(** A state that holds an outside world. *)
Class Situated (W S : Type) := situation : S → W.

Section safety.
Context `{UrlLib} {Pos W : Type} `{!Safety Pos W}.

(** A call to the outside that keeps every claim. *)
Definition harmless {A} (m : M W A) : Prop := ∀ p, keeps (Safe p) m.
Lemma harmless_ret {A} (a : A) : harmless (mret a).
Proof. intros p. apply keeps_ret. Qed.
Lemma harmless_bind {A B} (m : M W A) (f : A → M W B) :
  harmless m → (∀ a, harmless (f a)) → harmless (m ≫= f).
Proof. intros Hm Hf p. apply keeps_bind; [apply Hm|intros a; apply Hf]. Qed.

(** On the state of a relay: the log grows and no claim is lost. *)
Section state.
Context {S : Type} `{!Traced S, !Situated W S}.
Definition SafeAt (p : Pos) (s : S) : Prop := Safe p (situation s).
Definition calm : relation S := λ s s',
  (∃ l, tr s' = tr s ++ l) ∧ ∀ p, SafeAt p s → SafeAt p s'.
#[global] Instance calm_preorder : PreOrder calm.
Proof.
  split; [intros s; split; [exists []; by rewrite app_nil_r|done]|].
  intros s1 s2 s3 [[l1 E1] H1] [[l2 E2] H2]. split; [|auto].
  exists (l1 ++ l2). by rewrite E2, E1, app_assoc.
Qed.

(** What a calm computation appends, with what it keeps. *)
Lemma del_calm {A} (m : M S A) s Q :
  respects calm m → del m s Q → del m s (λ a k s', Q a k s' ∧ calm s s').
Proof. intros Hm (k & Hk & HQ). exists k. auto. Qed.

(** [guards P m Q]: from [P], once every message [m] disposed of is in [D],
    [m] ends in [Q]. *)
Context (D : Message → Prop).
Definition guards {A} (P : S → Prop) (m : M S A) (Q : A → S → Prop) : Prop :=
  ∀ s, del m s (λ a k s', Forall D (disposed k) → P s → Q a s').
Lemma guards_bind {A B} (m : M S A) (f : A → M S B) P R Q :
  guards P m R → (∀ a, guards (R a) (f a) Q) → guards P (m ≫= f) Q.
Proof.
  intros Hm Hf s. del_step. del_use Hm. intros a k s1 H1. del_use Hf. intros b k2 s2 H2.
  rewrite disposed_app, Forall_app. intros [? ?] ?. auto.
Qed.
Lemma guards_ret {A} (a : A) (P : S → Prop) Q : (∀ s, P s → Q a s) → guards P (mret a) Q.
Proof. intros HQ s. del_step. auto. Qed.
Lemma guards_calm {A} (m : M S A) (P : S → Prop) :
  respects calm m → (∀ s s', calm s s' → P s → P s') → guards P m (λ _, P).
Proof. intros Hm HP s. destruct (Hm s) as [[l Hl] Hs]. exists l. split; [done|]. intros _. by apply HP. Qed.
Lemma guards_conseq {A} (m : M S A) (P P' : S → Prop) (Q Q' : A → S → Prop) :
  guards P' m Q' → (∀ s, P s → P' s) → (∀ a s, Q' a s → Q a s) → guards P m Q.
Proof. intros Hm HP HQ s. del_use Hm. auto. Qed.
Lemma guards_pre {A} (m : M S A) (P P' : S → Prop) (Q : A → S → Prop) :
  guards P' m Q → (∀ s, P s → P' s) → guards P m Q.
Proof. intros Hm HP. by eapply guards_conseq. Qed.
Lemma SafeAt_calm p s s' : calm s s' → SafeAt p s → SafeAt p s'.
Proof. intros [_ Hs]. apply Hs. Qed.
(** A condition known beforehand does not stand in the way. *)
Lemma SafeAt_calm_if (C : Prop) p s s' : calm s s' → (C → SafeAt p s) → C → SafeAt p s'.
Proof. intros [_ Hs] HC ?. apply Hs. auto. Qed.
End state.
End safety.

#[export] Hint Resolve harmless_ret harmless_bind : safe.
#[export] Hint Resolve SafeAt_calm SafeAt_calm_if : safe.

(** ** The parts both relays share *)
Section core.
Context `{UrlLib} {Pos W P : Type} `{!Safety Pos W} `{Host W} `{GoZero P, EqDecision P}.
#[local] Abbreviation C := (core W P).
#[export] Instance core_situated : Situated W C := world.
Context (Hnow : harmless now).

Lemma calm_lift {A} (m : M W A) : harmless m → respects (calm (S := C)) (lift m).
Proof. intros Hm s. split; [exists []; symmetry; apply app_nil_r|]. intros p. apply Hm. Qed.
Lemma calm_emit e : respects (calm (S := C)) (emit e).
Proof. intros s. split; [by exists [e]|done]. Qed.
Lemma calm_set_stuck k : respects (calm (S := C)) (set_stuck k).
Proof. intros s. split; [exists []; symmetry; apply app_nil_r|done]. Qed.
Lemma calm_set_wasLeader b : respects (calm (S := C)) (set_wasLeader b).
Proof. intros s. split; [exists []; symmetry; apply app_nil_r|done]. Qed.
Lemma calm_set_isLeader b : respects (calm (S := C)) (set_isLeader b).
Proof. intros s. split; [exists []; symmetry; apply app_nil_r|done]. Qed.
End core.

(** Walks down a computation, by its head: binds and branches are opened, leaves
    closed by their rules or by the lemmas of [safe]. *)
Ltac calm_step :=
  lazymatch goal with
  | |- respects _ (mbind _ _) => apply respects_bind; [apply _| |intros ?]
  | |- respects _ (mret _) => apply respects_ret; apply _
  | |- respects _ (gets _) => apply respects_gets; apply _
  | |- respects _ skip => apply respects_skip; apply _
  | |- respects _ (emit _) => apply calm_emit
  | |- respects _ (set_stuck _) => apply calm_set_stuck
  | |- respects _ (set_wasLeader _) => apply calm_set_wasLeader
  | |- respects _ (set_isLeader _) => apply calm_set_isLeader
  | |- respects _ (lift _) => apply calm_lift; solve [eauto with safe]
  | |- respects _ (match _ with _ => _ end) => case_match
  | |- respects _ (let _ := _ in _) => cbv zeta
  end.
Ltac calm_run := repeat calm_step; try solve [eauto with safe].

Section lane.
Context `{UrlLib} {Pos W P : Type} `{!Safety Pos W} `{Host W} `{GoZero P, EqDecision P}.
#[local] Abbreviation C := (core W P).
Implicit Types (l : Lane W P) (e : Elector W) (rep : Reporter).

(** What the user's code and the lock store owe. *)
Record harmless_lane l : Prop := mkHarmlessLane {
  hl_now : harmless now;
  hl_send c md d : harmless (Sender l c md d);
  hl_batch b c ms : Batch l = Some b → harmless (b c ms);
  hl_poison h c m x : Poison l = Some h → harmless (h c m x) }.
Record harmless_elector e : Prop := mkHarmlessElector {
  he_now : harmless now;
  he_acquire st c n h t : ls e = Some st → harmless (TryAcquireLeaderLock st c n h t);
  he_release st c n h : ls e = Some st → harmless (ReleaseLeaderLock st c n h) }.

Lemma ctxErr_calm ctx : harmless now → respects (calm (S := C)) (ctxErr ctx).
Proof. intros. unfold ctxErr. calm_run. Qed.
Lemma ctxCause_calm ctx : harmless now → respects (calm (S := C)) (ctxCause ctx).
Proof. intros. unfold ctxCause. calm_run. Qed.
Lemma Error_calm rep x : respects (calm (S := C)) (Error rep x).
Proof. unfold Error. calm_run. Qed.
#[local] Hint Resolve ctxErr_calm ctxCause_calm Error_calm : safe.
Lemma reportFailure_calm rep x pe : respects (calm (S := C)) (reportFailure rep x pe).
Proof. unfold reportFailure. calm_run. Qed.
Lemma LProgress_calm (pos : P) : respects (calm (S := C)) (LProgress pos).
Proof. unfold LProgress. calm_run. Qed.
Lemma LStuck_calm l pos id x : harmless now → respects (calm (S := C)) (LStuck l pos id x).
Proof. intros. unfold LStuck, StuckLane. calm_run. Qed.
#[local] Hint Resolve reportFailure_calm LProgress_calm LStuck_calm : safe.
Lemma MessageFailure_calm rep ctx (h : option PoisonHandler) m x :
  harmless now → (∀ f c m x, h = Some f → harmless (f c m x)) →
  respects (calm (S := C)) (MessageFailure rep ctx h m x).
Proof. intros ? Hh. unfold MessageFailure. calm_run. Qed.

Section one.
Context (l : Lane W P) (Hl : harmless_lane l).
#[local] Definition poison_calm rep ctx m x : respects (calm (S := C)) _ :=
  MessageFailure_calm rep ctx (Poison l) m x (hl_now l Hl) (hl_poison l Hl).
#[local] Definition silent_calm rep ctx m x : respects (calm (S := C)) _ :=
  MessageFailure_calm rep ctx None m x (hl_now l Hl) ltac:(done).
#[local] Hint Resolve poison_calm silent_calm : safe.
Lemma failed_calm ctx pos m x : respects (calm (S := C)) (failed l ctx pos m x).
Proof. pose proof (hl_now l Hl). unfold failed. calm_run. Qed.
Lemma sendCtx_calm ctx : respects (calm (S := C)) (sendCtx l ctx).
Proof. pose proof (hl_now l Hl). unfold sendCtx. calm_run. Qed.
Lemma progressAll_calm ps : respects (calm (S := C)) (progressAll ps).
Proof. induction ps; simpl; calm_run. Qed.
#[local] Hint Resolve failed_calm sendCtx_calm progressAll_calm : safe.
Lemma Send_calm ctx pos m : respects (calm (S := C)) (Send l ctx pos m).
Proof. pose proof (hl_send l Hl). unfold Send, send. calm_run. Qed.
Lemma SendBatch_calm ctx ps ms : respects (calm (S := C)) (SendBatch l ctx ps ms).
Proof. pose proof (hl_batch l Hl). unfold SendBatch. calm_run. Qed.
Lemma Park_calm ctx pos m x : respects (calm (S := C)) (Park l ctx pos m x).
Proof. unfold Park. calm_run. Qed.
End one.

Lemma TryAcquire_calm e ctx : harmless_elector e → respects (calm (S := C)) (TryAcquire e ctx).
Proof. intros [? Ha _]. unfold TryAcquire. calm_run. Qed.
Lemma Release_calm e ctx : harmless_elector e → respects (calm (S := C)) (Release e ctx).
Proof. intros [? _ Hr]. unfold Release. calm_run. Qed.
Lemma Leadership_calm rep b : respects (calm (S := C)) (Leadership rep b).
Proof. unfold Leadership. calm_run. Qed.
#[local] Hint Resolve Release_calm Leadership_calm : safe.
Lemma ReleaseLeadership_calm rep ctx e :
  harmless_elector e → respects (calm (S := C)) (ReleaseLeadership rep ctx e).
Proof. intros. unfold ReleaseLeadership. calm_run. Qed.
Lemma PassFailed_calm rep x : respects (calm (S := C)) (PassFailed rep x).
Proof. unfold PassFailed. calm_run. Qed.
Lemma Drained_calm rep n a b : respects (calm (S := C)) (Drained rep n a b).
Proof. unfold Drained. calm_run. Qed.
Lemma Sequenced_calm rep n : respects (calm (S := C)) (Sequenced rep n).
Proof. unfold Sequenced. calm_run. Qed.
Lemma Swept_calm rep n : respects (calm (S := C)) (Swept rep n).
Proof. unfold Swept. calm_run. Qed.
End lane.

#[export] Hint Resolve ctxErr_calm ctxCause_calm Error_calm LProgress_calm LStuck_calm Send_calm
  SendBatch_calm Park_calm TryAcquire_calm Release_calm Leadership_calm ReleaseLeadership_calm
  PassFailed_calm Drained_calm Sequenced_calm Swept_calm hl_now he_now : safe.
