(* ===== verification/Steady.v ===== *)
(** * A relay that nothing disturbs: the part both relays share

    [idle] is a store's relation between worlds that differ in nothing the
    relay depends on (time passes, its data stay). [still]: a computation that
    keeps its world so; [settled]: one that also has a single answer. The
    reporter is still, and the lane of a sender that confirms is settled. *)
From S2P Require Import Prelude Errors GoLib Event Bound Relay Scenario Notify Leader Lane Safety.

Class Steady (W : Type) `{Host W} := {
  idle : relation W;
  idle_preorder :: PreOrder idle;
  idle_now : respects idle now }.

(** A call's budget is alive when the call starts. *)
Lemma live_Call t ttl : 0 < ttl → ErrAt (Call t Background ttl) t = None.
Proof.
  intros. unfold ErrAt, Call, WithTimeout, earlier, doneAt. simpl.
  destruct (Z.leb_spec (t + ttl) t); [lia|done].
Qed.

(** ** Still computations *)
Section still.
Context {W S : Type} `{Steady W} `{!Situated W S}.
Definition still : relation S := λ s s', idle (situation s) (situation s').
#[global] Instance still_preorder : PreOrder still.
Proof. split; [by intros s; unfold still|]. intros s1 s2 s3. unfold still. by etrans. Qed.

Definition settled {A} (m : M S A) (a : A) : Prop := respects still m ∧ yields m (λ b, b = a).
Lemma settled_ret {A} (a : A) : settled (mret a) a.
Proof. split; [apply respects_ret; apply _|by intros s]. Qed.
Lemma settled_bind {A B} (m : M S A) (f : A → M S B) a b :
  settled m a → settled (f a) b → settled (m ≫= f) b.
Proof.
  intros [Hm Ha] [Hf Hb]. split; intros s; rewrite run_bind, (Ha s); [|apply Hb].
  etrans; [apply Hm|apply Hf].
Qed.
Lemma settled_after {A B} (m : M S A) (f : A → M S B) b :
  respects still m → (∀ a, settled (f a) b) → settled (m ≫= f) b.
Proof.
  intros Hm Hf. split; [apply respects_bind; [apply _|done|apply Hf]|].
  apply yields_after. apply Hf.
Qed.
End still.

Create HintDb still.
Section core.
Context `{UrlLib} {W P : Type} `{Steady W}.
#[local] Abbreviation C := (core W P).
Lemma still_lift {A} (m : M W A) : respects idle m → respects (still (S := C)) (lift m).
Proof. intros Hm s. apply Hm. Qed.
Lemma still_same (m : M C unit) : (∀ s, world (m s).2 = world s) → respects (still (S := C)) m.
Proof. intros Hm s. unfold still, situation, core_situated. by rewrite Hm. Qed.
End core.
#[export] Hint Resolve idle_now : still.

(** Walks down a computation; leaves are closed by the lemmas of [still]. *)
Ltac still_step :=
  lazymatch goal with
  | |- respects _ (mbind _ _) => apply respects_bind; [apply _| |intros ?]
  | |- respects _ (mret _) => apply respects_ret; apply _
  | |- respects _ (gets _) => apply respects_gets; apply _
  | |- respects _ skip => apply respects_skip; apply _
  | |- respects _ (emit _) => by apply still_same
  | |- respects _ (set_stuck _) => by apply still_same
  | |- respects _ (set_wasLeader _) => by apply still_same
  | |- respects _ (set_isLeader _) => by apply still_same
  | |- respects _ (lift _) => apply still_lift; solve [eauto with still]
  | |- respects _ (match _ with _ => _ end) => case_match
  | |- respects _ (let _ := _ in _) => cbv zeta
  end.
Ltac still_run := repeat still_step; try solve [eauto with still].

(** ** The reporter and the lane *)
Section parts.
Context `{UrlLib} {W P : Type} `{Steady W} `{GoZero P, EqDecision P}.
#[local] Abbreviation C := (core W P).
#[local] Abbreviation quiet := (still (S := C)).
Implicit Types (l : Lane W P) (rep : Reporter).

Lemma still_ctxErr ctx : respects quiet (ctxErr ctx).
Proof. unfold ctxErr. still_run. Qed.
Lemma still_LProgress (pos : P) : respects quiet (LProgress pos).
Proof. unfold LProgress. still_run. Qed.
Lemma still_Leadership rep b : respects quiet (Leadership rep b).
Proof. unfold Leadership. still_run. Qed.
Lemma still_Error rep e : respects quiet (Error rep e).
Proof. unfold Error. still_run. Qed.
Lemma still_Drained rep n a b : respects quiet (Drained rep n a b).
Proof. unfold Drained. still_run. Qed.
Lemma still_Sequenced rep n : respects quiet (Sequenced rep n).
Proof. unfold Sequenced. still_run. Qed.
Lemma still_Swept rep n : respects quiet (Swept rep n).
Proof. unfold Swept. still_run. Qed.
Lemma still_progressAll (ps : list P) : respects quiet (progressAll ps).
Proof. pose proof still_LProgress. induction ps; simpl; still_run. Qed.
Lemma still_sendCtx l ctx : respects quiet (sendCtx l ctx).
Proof. unfold sendCtx. still_run. Qed.
#[local] Hint Resolve still_LProgress still_progressAll still_sendCtx : still.

(** The sender confirms everything and has no business with the store. *)
Record confirming l : Prop := mkConfirming {
  cf_send c md d w : (Sender l c md d w).1 = None;
  cf_send_idle c md d : respects idle (Sender l c md d);
  cf_batch b c out w : Batch l = Some b → (b c out w).1 = (zlen out, None);
  cf_batch_idle b c out : Batch l = Some b → respects idle (b c out) }.

Lemma settled_Send l ctx pos m : confirming l → settled (S := C) (Send l ctx pos m) Sent.
Proof.
  intros Hl. unfold Send, send. apply (settled_bind _ _ None).
  - apply settled_after; [still_run|]. intros c. apply (settled_bind _ _ None).
    + split; [apply still_lift, (cf_send_idle _ Hl)|]. intros k. apply (cf_send _ Hl).
    + apply settled_after; [still_run|intros ?; apply settled_ret].
  - apply settled_after; [still_run|intros ?; apply settled_ret].
Qed.
Lemma settled_SendBatch l b ctx ps msgs :
  confirming l → Batch l = Some b →
  settled (S := C) (SendBatch l ctx ps msgs) (zlen msgs, zlen msgs, Sent).
Proof.
  intros Hl Eb. unfold SendBatch. rewrite Eb.
  apply settled_after; [still_run|]. intros c. apply (settled_bind _ _ (zlen msgs, None)).
  - split; [apply still_lift; by apply (cf_batch_idle _ Hl)|]. intros k. unfold lift. simpl.
    rewrite (cf_batch _ Hl b) by done. unfold zlen. by rewrite length_map.
  - apply settled_after; [still_run|]. intros _. cbv zeta.
    rewrite Z.max_l, Z.min_l by (pose proof (zlen_nonneg msgs); lia). rewrite Z.eqb_refl.
    apply settled_after; [still_run|intros ?; apply settled_ret].
Qed.
End parts.
#[export] Hint Resolve still_ctxErr still_LProgress still_Leadership still_Error still_Drained
  still_Sequenced still_Swept still_progressAll still_sendCtx : still.
