(* ===== verification/SequenceDelivery.v ===== *)
(** * relay/sequence: at-least-once delivery, against any log

    [LogStore] is what the store, the sender and the hooks owe the relay, in
    terms of the store's [Safe]: no call loses a claim, a listed page extends the
    claim by whatever prefix of it was disposed of, and a commit keeps every
    claim provided the position it commits is one. In return every tick and
    every run of the relay keeps the log safe: the relay never commits a position
    that is not one. *)
From S2P Require Import Prelude Errors GoLib Event Bound Relay Scenario Notify Leader Lane RelayCfg Sequence SequenceFacts Safety.

Section relay.
Context `{UrlLib} {W : Type} `{!Safety Z W} `{Host W}.
#[local] Abbreviation S := (seqst W).
#[export] Instance seqst_situated : Situated W S := λ s, world (base s).
Context (r : Relay W) (D : Message → Prop).
Implicit Types (s : S).

(** ** The interface *)
Record LogStore : Prop := mkLogStore {
  lg_lane : harmless_lane (lane r);
  lg_leader : harmless_elector (leader r);
  lg_sequencer q c : sequencer r = Some q → harmless (q c (SequenceBatchSize (opts r)));
  lg_sweeper w c n : retention r = Some w → harmless (w c n);
  lg_clock k c : clock r = Some k → harmless (k c);
  lg_zero p w : Safe p w → Safe 0 w;
  lg_offset c : harmless (Offset (store r) c (name r));
  lg_offset_at c p w o b : Safe p w → (Offset (store r) c (name r) w).1 = inl (o, b) →
    Safe o (Offset (store r) c (name r) w).2;
  lg_init c : StartFromBeginning (opts r) = false → harmless (InitOffsetLatest (store r) c (name r));
  lg_init_at c p w o : StartFromBeginning (opts r) = false → Safe p w →
    (InitOffsetLatest (store r) c (name r) w).1 = inl o →
    Safe o (InitOffsetLatest (store r) c (name r) w).2;
  lg_list c a n : harmless (ListMessages (store r) c a n);
  lg_page c a n w msgs e w' : As asSeqDecode (Some (cx_err c)) = None → Safe a w → ListMessages (store r) c a n w = ((msgs, e), w') →
    (∀ j, Forall D (take j msgs) → Safe (last_seq a (take j msgs)) w') ∧
    (∀ cause id seq, As asSeqDecode e = Some (cause, id, seq) → Forall D msgs → D (stub id seq) →
       Safe (Z.max (last_seq a msgs) seq) w');
  lg_commit c q p w : Safe q w → Safe p w → Safe p (CommitOffset (store r) c (name r) q w).2;
  lg_fenced f c q p w : fenced r = Some f → Safe q w → Safe p w →
    Safe p (f c (name r) (LockName (leader r)) (HolderID (leader r)) q w).2 }.

(** ** Calm calls *)
Lemma up_calm {A} (m : M (core W Z) A) : respects calm m → respects (calm (S := S)) (up m).
Proof. intros Hm s. exact (Hm (base s)). Qed.
Lemma set_pass_calm t b : respects (calm (S := S)) (set_pass t b).
Proof. intros s. split; [exists []; symmetry; apply app_nil_r|done]. Qed.
Lemma set_lastSweep_calm t : respects (calm (S := S)) (set_lastSweep t).
Proof. intros s. split; [exists []; symmetry; apply app_nil_r|done]. Qed.
End relay.

Ltac seq_calm_step :=
  lazymatch goal with
  | |- respects _ (up (lift _)) => apply up_calm, calm_lift; solve [eauto with safe]
  | |- respects _ (up (emit _)) => apply up_calm, calm_emit
  | |- respects _ (up _) => apply up_calm; solve [eauto with safe]
  | |- respects _ (set_pass _ _) => apply set_pass_calm
  | |- respects _ (set_lastSweep _) => apply set_lastSweep_calm
  | _ => calm_step
  end.
Ltac seq_calm := repeat seq_calm_step; try solve [eauto with safe].

Section calm.
Context `{UrlLib} {W : Type} `{!Safety Z W} `{Host W}.
#[local] Abbreviation S := (seqst W).
Context (r : Relay W) (D : Message → Prop) (Hr : LogStore r D).
Implicit Types (s : S).

#[local] Definition lane_ok := lg_lane r D Hr.
#[local] Definition leader_ok := lg_leader r D Hr.
#[local] Definition now_ok : harmless now := hl_now _ lane_ok.
#[local] Definition sequencer_ok := lg_sequencer r D Hr.
#[local] Definition sweeper_ok := lg_sweeper r D Hr.
#[local] Definition clock_ok := lg_clock r D Hr.
#[local] Definition list_ok := lg_list r D Hr.
#[local] Definition offset_ok := lg_offset r D Hr.
#[local] Definition init_ok := lg_init r D Hr.
#[local] Hint Resolve lane_ok leader_ok now_ok sequencer_ok sweeper_ok clock_ok list_ok offset_ok
  init_ok : safe.

Lemma bounded_calm {A} budget ctx (call : cx → M W A) :
  (∀ c, harmless (call c)) → respects (calm (S := S)) (bounded r budget ctx call).
Proof. intros. unfold bounded. seq_calm. Qed.
#[local] Hint Resolve bounded_calm : safe.

Lemma renewLease_calm ctx : respects (calm (S := S)) (renewLease r ctx).
Proof. unfold renewLease. seq_calm. Qed.
Lemma bSequenceMessages_calm q ctx :
  sequencer r = Some q →
  respects (calm (S := S)) (bSequenceMessages r q ctx (SequenceBatchSize (opts r))).
Proof.
  intros Hq. unfold bSequenceMessages. seq_calm.
Qed.
Lemma bSweepMessages_calm w ctx n :
  retention r = Some w → respects (calm (S := S)) (bSweepMessages r w ctx n).
Proof. intros. unfold bSweepMessages. seq_calm. Qed.
Lemma bStoreNow_calm k ctx : clock r = Some k → respects (calm (S := S)) (bStoreNow r k ctx).
Proof. intros. unfold bStoreNow. seq_calm. Qed.
#[local] Hint Resolve renewLease_calm bSequenceMessages_calm bSweepMessages_calm bStoreNow_calm : safe.

Lemma sequence_calm ctx : respects (calm (S := S)) (sequence r ctx).
Proof.
  unfold sequence. destruct (sequencer r) as [q|] eqn:E; [|seq_calm].
  induction maxPagesPerTick; simpl; seq_calm.
Qed.
Lemma maybeSweep_calm ctx : respects (calm (S := S)) (maybeSweep r ctx).
Proof.
  unfold maybeSweep. destruct (retention r) as [w|] eqn:E; [|seq_calm].
  assert (respects (calm (S := S)) (sweepLoop r w maxPagesPerTick ctx)).
  { induction maxPagesPerTick; simpl; seq_calm. }
  seq_calm.
Qed.
Lemma oldestAge_calm ctx t : respects (calm (S := S)) (oldestAge r ctx t).
Proof. unfold oldestAge. seq_calm. Qed.
Lemma parkPoison_calm ctx po o : respects (calm (S := S)) (parkPoison r ctx po o).
Proof. unfold parkPoison. seq_calm. Qed.
#[local] Hint Resolve oldestAge_calm : safe.
Lemma finishPage_calm ctx ms e po off n o b pe :
  respects (calm (S := S)) (finishPage r ctx ms e po off n o b pe).
Proof. unfold finishPage. seq_calm. Qed.
Lemma forwardSerial_calm ctx ms mx n : respects (calm (S := S)) (forwardSerial r ctx ms mx n).
Proof. revert mx n. induction ms; intros; simpl; seq_calm. Qed.
Lemma forwardBatchedLoop_calm fuel ctx ms mx n :
  respects (calm (S := S)) (forwardBatchedLoop r fuel ctx ms mx n).
Proof. revert ms mx n. induction fuel; intros [|? ?] ??; cbn [forwardBatchedLoop]; seq_calm. Qed.
#[local] Hint Resolve forwardSerial_calm forwardBatchedLoop_calm : safe.
Lemma forward_calm ctx ms off : respects (calm (S := S)) (forward r ctx ms off).
Proof. unfold forward, forwardBatched. seq_calm. Qed.

(** ** The calls that move the claim *)
Lemma guards_up_lift {A} (m : M W A) (P : S → Prop) (Q : A → S → Prop) :
  (∀ s s' a, P s → m (world (base s)) = (a, world (base s')) → Q a s') →
  guards D P (up (lift m)) Q.
Proof.
  intros HQ s. apply del_up. exists []. split; [symmetry; apply app_nil_r|].
  intros s' Hb _ _ HP. apply (HQ s s' _ HP). rewrite Hb. apply surjective_pairing.
Qed.
Lemma guards_up_emit e (P : S → Prop) :
  (∀ s s', world (base s') = world (base s) → P s → P s') → guards D P (up (emit e)) (λ _, P).
Proof.
  intros HP s. apply del_up. exists [e]. split; [done|]. intros s' Hb _ _. apply HP. by rewrite Hb.
Qed.
Lemma guards_bounded {A} budget ctx (call : cx → M W A) (P : S → Prop) (Q : A → S → Prop) :
  (∀ s s', calm s s' → P s → P s') →
  (∀ t s s' a, P s → call (budget t ctx (optimeout r)) (world (base s)) = (a, world (base s')) →
     Q a s') →
  guards D P (bounded r budget ctx call) (λ x, Q x.2).
Proof.
  intros HP HQ. unfold bounded. eapply guards_bind.
  { apply guards_calm; [|exact HP]. apply up_calm, calm_lift, now_ok. }
  intros t. cbv beta. eapply guards_bind; [apply guards_up_lift, (HQ t)|].
  intros a. apply guards_ret. done.
Qed.

Lemma bOffset_guards ctx p :
  guards D (SafeAt p) (bOffset r ctx) (λ x s,
    SafeAt p s ∧ ∀ o b, x = inl (o, b) → SafeAt o s).
Proof.
  unfold bOffset. eapply guards_bind.
  { eapply (guards_bounded _ _ _ _ (λ x s, SafeAt p s ∧ ∀ o b, x = inl (o, b) → SafeAt o s));
      [apply SafeAt_calm|].
    intros t s s' x Hs Hc. set (c := Call t ctx _) in Hc. unfold SafeAt, situation, seqst_situated in *. split.
    - pose proof (lg_offset r D Hr c p (world (base s)) Hs) as Ho. by rewrite Hc in Ho.
    - intros o b ->. pose proof (lg_offset_at r D Hr c p (world (base s)) o b Hs) as Ho.
      rewrite Hc in Ho. by apply Ho. }
  intros x. eapply guards_bind; [apply guards_up_emit|intros ?; apply guards_ret; done].
  unfold SafeAt, situation, seqst_situated. by intros s s' ->.
Qed.
Lemma bInitOffsetLatest_guards ctx p :
  StartFromBeginning (opts r) = false →
  guards D (SafeAt p) (bInitOffsetLatest r ctx) (λ x s,
    SafeAt p s ∧ ∀ o, x = inl o → SafeAt o s).
Proof.
  intros Hsfb. unfold bInitOffsetLatest. eapply guards_bind.
  { eapply (guards_bounded _ _ _ _ (λ x s, SafeAt p s ∧ ∀ o, x = inl o → SafeAt o s));
      [apply SafeAt_calm|].
    intros t s s' x Hs Hc. set (c := Call t ctx _) in Hc. unfold SafeAt, situation, seqst_situated in *. split.
    - pose proof (lg_init r D Hr c Hsfb p (world (base s)) Hs) as Ho. by rewrite Hc in Ho.
    - intros o ->. pose proof (lg_init_at r D Hr c p (world (base s)) o Hsfb Hs) as Ho.
      rewrite Hc in Ho. by apply Ho. }
  intros x. eapply guards_bind; [apply guards_up_emit|intros ?; apply guards_ret; done].
  unfold SafeAt, situation, seqst_situated. by intros s s' ->.
Qed.

(** What a listed page is good for. *)
Definition page_claims (offset : Z) (msgs : list Message) (e : error) (s : S) : Prop :=
  SafeAt offset s ∧
  (∀ j, Forall D (take j msgs) → SafeAt (last_seq offset (take j msgs)) s) ∧
  (∀ cause id seq, As asSeqDecode e = Some (cause, id, seq) → Forall D msgs → D (stub id seq) →
     SafeAt (Z.max (last_seq offset msgs) seq) s).
Lemma page_claims_calm offset msgs e s s' :
  calm s s' → page_claims offset msgs e s → page_claims offset msgs e s'.
Proof.
  intros Hc (H1 & H2 & H3). split_and!; [by eapply SafeAt_calm| |].
  - intros j Hj. eapply SafeAt_calm; eauto.
  - intros cause id seq ???. eapply SafeAt_calm; eauto.
Qed.
(** The budget of a call reports the errors of its parent, or the clock's. *)
Lemma foreign_Call t ctx ttl :
  As asSeqDecode (Some (cx_err ctx)) = None → As asSeqDecode (Some (cx_err (Call t ctx ttl))) = None.
Proof. intros Hc. unfold Call, WithTimeout, earlier. repeat case_match; done. Qed.
Definition plain_cx (ctx : cx) : Prop := As asSeqDecode (Some (cx_err ctx)) = None.
Lemma bListMessages_guards ctx offset n :
  plain_cx ctx →
  guards D (SafeAt offset) (bListMessages r ctx offset n) (λ x, page_claims offset x.1 x.2).
Proof.
  intros Hctx. unfold bListMessages. eapply guards_bind.
  { eapply (guards_bounded _ _ _ _ (λ x, page_claims offset x.1 x.2)); [apply SafeAt_calm|].
    intros t s s' [msgs e] Hs Hc. unfold page_claims, SafeAt, situation, seqst_situated in *.
    destruct (lg_page r D Hr (Call t ctx (optimeout r)) offset n _ _ _ _ (foreign_Call t _ _ Hctx) Hs Hc). split_and!; try done.
    pose proof (lg_list r D Hr (Call t ctx (optimeout r)) offset n offset _ Hs) as Ho. by rewrite Hc in Ho. }
  intros x. eapply guards_bind; [apply guards_up_emit|intros ?; apply guards_ret; done].
  unfold page_claims, SafeAt, situation, seqst_situated. by intros s s' ->.
Qed.

(** A commit of a claimed position. *)
Lemma commitOffset_guards ctx (C : Prop) q p :
  guards D (λ s, C ∧ SafeAt p s ∧ SafeAt q s) (commitOffset r ctx q)
    (λ _ s, C ∧ SafeAt p s ∧ SafeAt q s).
Proof.
  set (K := λ s, C ∧ SafeAt p s ∧ SafeAt q s).
  assert (Hcalm : ∀ s s', calm s s' → K s → K s').
  { intros s s' Hc (? & ? & ?). split_and!; [done|by eapply SafeAt_calm..]. }
  assert (Hw : ∀ s s', world (base s') = world (base s) → K s → K s').
  { unfold K, SafeAt, situation, seqst_situated. by intros s s' ->. }
  unfold commitOffset. destruct (fenced r) as [f|] eqn:Ef.
  - eapply (guards_bind _ _ _ _ (λ _, K)); [|intros x; apply guards_calm; [seq_calm|done]].
    unfold bCommitOffsetFenced. eapply guards_bind.
    { eapply (guards_bounded _ _ _ _ (λ _, K)); [exact Hcalm|].
      intros t s s' a (? & Hp & Hq) Hc. set (c := Commit t ctx _) in Hc. unfold K, SafeAt, situation, seqst_situated in *.
      pose proof (lg_fenced r D Hr f c q p _ Ef Hq Hp) as Ho.
      pose proof (lg_fenced r D Hr f c q q _ Ef Hq Hq) as Ho'. by rewrite Hc in Ho, Ho'. }
    intros x. cbv beta. eapply guards_bind; [apply guards_up_emit, Hw|intros ?; by apply guards_ret].
  - unfold bCommitOffset. eapply guards_bind.
    { eapply (guards_bounded _ _ _ _ (λ _, K)); [exact Hcalm|].
      intros t s s' a (? & Hp & Hq) Hc. set (c := Commit t ctx _) in Hc. unfold K, SafeAt, situation, seqst_situated in *.
      pose proof (lg_commit r D Hr c q p _ Hq Hp) as Ho.
      pose proof (lg_commit r D Hr c q q _ Hq Hq) as Ho'. by rewrite Hc in Ho, Ho'. }
    intros x. cbv beta. eapply guards_bind; [apply guards_up_emit, Hw|intros ?; by apply guards_ret].
Qed.

(** ** A page, a drain, a tick *)
Context (Hok : hooks_ok (lane r)).
Lemma SafeAt_zero p s : SafeAt p s → SafeAt 0 s.
Proof. apply (lg_zero r D Hr). Qed.

Lemma forward_guards ctx msgs offset e :
  guards D (page_claims offset msgs e) (forward r ctx msgs offset) (λ f s,
    page_claims offset msgs e s ∧ SafeAt f.1.1 s ∧
    f.2 ≠ pageFull ∧ (f.2 = pageDone → Forall D msgs ∧ f.1.1 = last_seq offset msgs)).
Proof.
  intros s. eapply del_mono; [apply (del_calm (S := S)); [apply forward_calm|by apply forward_spec]|].
  intros [[mx sent] o] k s' [[Hf _] Hc] Hk Hs. cbn [fst snd].
  pose proof (page_claims_calm _ _ _ _ _ Hc Hs) as Hs'.
  destruct Hf as (_ & j & _ & Hd & -> & _ & Hnf & Hdone & _). rewrite Hd in Hk.
  split; [done|]. split; [by apply Hs'|]. split; [done|]. intros Ho. rewrite (Hdone Ho), firstn_all in *. done.
Qed.
Lemma parkPoison_guards ctx msgs offset e (f : Z * Z * pageOutcome) :
  let poison := As asSeqDecode e in
  guards D (λ s, page_claims offset msgs e s ∧ SafeAt f.1.1 s ∧
      f.2 ≠ pageFull ∧ (f.2 = pageDone → Forall D msgs ∧ f.1.1 = last_seq offset msgs))
    (parkPoison r ctx poison f.2) (λ p s, f.2 ≠ pageFull ∧ SafeAt offset s ∧
      SafeAt (match poison with
              | Some (_, _, seq) => if p.1 then Z.max f.1.1 seq else f.1.1
              | None => f.1.1
              end) s).
Proof.
  intros poison s. eapply del_mono;
    [apply (del_calm (S := S)); [apply parkPoison_calm|apply parkPoison_spec]|].
  intros [parked perr] k s' [[(_ & _ & _ & Hp) _] Hc] Hk (Hpc & Hf & Hnf & Hdone). cbn [fst snd] in *.
  apply (page_claims_calm _ _ _ _ _ Hc) in Hpc. split; [done|]. split; [by apply Hpc|].
  apply (SafeAt_calm _ _ _ Hc) in Hf. destruct parked; [|by destruct poison as [[[??]?]|]].
  destruct Hp as (_ & Ho & cause & id & seq & Hpo & Hd). rewrite Hpo.
  destruct (Hdone Ho) as [Hall ->]. rewrite Hd in Hk. apply Forall_inv in Hk.
  destruct Hpc as (_ & _ & Hst). exact (Hst _ _ _ Hpo Hall Hk).
Qed.

Lemma deliverPage_guards ctx offset msgs e :
  guards D (page_claims offset msgs e) (deliverPage r ctx offset msgs e) (λ x, SafeAt x.1.1).
Proof.
  unfold deliverPage. cbv zeta. eapply guards_bind; [apply forward_guards|].
  intros [[mx0 sent] o]. eapply guards_bind; [apply (parkPoison_guards _ _ _ _ (mx0, sent, o))|].
  intros [parked perr]. cbn [fst snd]. set (mx := match As asSeqDecode e with Some _ => _ | None => _ end).
  assert (Hfin : ∀ off, guards D (λ s, o ≠ pageFull ∧ SafeAt off s)
    (finishPage r ctx msgs e (As asSeqDecode e) off sent o parked perr) (λ x, SafeAt x.1.1)).
  { intros off s. destruct (decide (o = pageFull)) as [->|Ho].
    - destruct (finishPage_calm ctx msgs e (As asSeqDecode e) off sent pageFull parked perr s) as [[k Hk] _].
      exists k. split; [done|]. by intros _ [? _].
    - eapply del_mono; [apply (del_calm (S := S)); [apply finishPage_calm|by apply finishPage_spec]|].
      intros x k s' [(_ & _ & -> & _) Hc] _ [_ ?]. by eapply SafeAt_calm. }
  destruct (Z.ltb_spec offset mx).
  - eapply guards_bind; [apply (commitOffset_guards ctx (o ≠ pageFull) mx offset)|].
    intros [er|]; [apply guards_ret; by intros s (_ & ? & _)|].
    eapply guards_pre; [apply (Hfin mx)|by intros s (? & _ & ?)].
  - eapply (guards_bind _ _ _ _ (λ _ s, o ≠ pageFull ∧ SafeAt offset s)).
    { apply guards_ret. by intros s (? & ? & _). }
    intros [er|]; [apply guards_ret; by intros s [_ ?]|apply Hfin].
Qed.

Lemma drainPage_guards ctx offset :
  plain_cx ctx → guards D (SafeAt offset) (drainPage r ctx offset) (λ x, SafeAt x.1.1).
Proof.
  intros Hctx. unfold drainPage. eapply guards_bind; [by apply bListMessages_guards|].
  intros [msgs e]. cbn [fst snd].
  assert (Hgo : ∀ b, guards D (page_claims offset msgs e)
    (if b : bool then mret (offset, pageDone, None) else deliverPage r ctx offset msgs e)
    (λ x, SafeAt x.1.1)).
  { intros []; [apply guards_ret; by intros s [? _]|apply deliverPage_guards]. }
  destruct e as [e|]; [|apply Hgo]. destruct (As asSeqDecode (Some e)) as [p|]; [apply Hgo|].
  eapply guards_pre with (P' := SafeAt offset); [|by intros s [? _]].
  eapply guards_bind; [apply guards_calm; [seq_calm|apply SafeAt_calm]|]. intros dead.
  eapply guards_bind; [apply guards_calm; [seq_calm|apply SafeAt_calm]|]. intros ?.
  by apply guards_ret.
Qed.
Lemma drainLoop_guards pages ctx offset :
  plain_cx ctx → guards D (SafeAt offset) (drainLoop r pages ctx offset) (λ _, SafeAt 0).
Proof.
  intros Hctx. revert offset. induction pages as [|pages IH]; intros offset; cbn [drainLoop].
  { apply guards_ret, SafeAt_zero. }
  eapply guards_bind; [by apply drainPage_guards|]. intros [[next o] [er|]]; cbn [fst snd].
  { apply guards_ret, SafeAt_zero. }
  destruct o; try apply guards_ret, SafeAt_zero.
  - eapply guards_bind; [apply guards_calm; [seq_calm|apply SafeAt_calm]|].
    intros [er|]; [apply guards_ret, SafeAt_zero|].
    eapply guards_bind; [apply guards_calm; [seq_calm|apply SafeAt_calm]|].
    intros [er|]; [apply guards_ret, SafeAt_zero|apply IH].
  - eapply guards_conseq with (Q' := λ _, SafeAt next); [|done|intros _; apply SafeAt_zero].
    apply guards_calm; [seq_calm|apply SafeAt_calm].
Qed.
Lemma primeOffset_guards ctx :
  guards D (SafeAt 0) (primeOffset r ctx) (λ x s, SafeAt 0 s ∧ ∀ o, x = inl o → SafeAt o s).
Proof.
  unfold primeOffset. eapply guards_bind; [apply bOffset_guards|].
  intros [[o [|]]|er].
  - apply guards_ret. intros s [? Ho]. split; [done|]. intros ? [= <-]. by eapply Ho.
  - destruct (StartFromBeginning (opts r)) eqn:E.
    + eapply guards_bind with (R := λ _ s, True ∧ SafeAt o s ∧ SafeAt 0 s).
      { eapply guards_pre; [apply (commitOffset_guards ctx True 0 o)|].
        intros s [? Ho]. split_and!; [done|by eapply Ho|done]. }
      intros [er|]; apply guards_ret; intros s (_ & ? & ?); (split; [done|]); [done|].
      by intros ? [= <-].
    + eapply guards_pre; [by apply (bInitOffsetLatest_guards ctx 0)|by intros s [? _]].
  - apply guards_ret. by intros s [? _].
Qed.
Lemma phases_guards ctx : plain_cx ctx → guards D (SafeAt 0) (phases r ctx) (λ _, SafeAt 0).
Proof.
  intros Hctx. unfold phases. eapply guards_bind; [apply primeOffset_guards|]. intros prime.
  eapply guards_bind.
  { apply guards_calm; [seq_calm; by eapply sequence_calm|].
    intros s s' Hc [? Ho]. split; [by eapply SafeAt_calm|]. intros o ?.
    eapply SafeAt_calm; [done|auto]. }
  intros seqErr. eapply guards_bind with (R := λ _, SafeAt 0); [|intros ?; by apply guards_ret]. cbn beta.
  destruct prime as [o|er]; [|apply guards_ret; by intros s [? _]].
  destruct (negb _); [|apply guards_ret; by intros s [? _]].
  unfold drain. eapply guards_pre with (P' := SafeAt o); [|intros s [_ Ho]; by apply Ho].
  eapply guards_bind; [apply guards_calm; [seq_calm|apply SafeAt_calm]|].
  intros ?. by apply drainLoop_guards.
Qed.
Lemma RunOnce_guards ctx : plain_cx ctx → guards D (SafeAt 0) (RunOnce r ctx) (λ _, SafeAt 0).
Proof.
  intros Hctx. assert (Hm : ∀ {A} (m : M S A), respects calm m → guards D (SafeAt 0) m (λ _, SafeAt 0))
    by (intros; apply guards_calm; [done|apply SafeAt_calm]).
  unfold RunOnce. eapply guards_bind; [apply Hm; seq_calm|].
  intros [leads|er]; [|by apply guards_ret].
  eapply guards_bind; [apply Hm; seq_calm|]. intros ?.
  destruct (negb leads); [by apply guards_ret|].
  eapply guards_bind; [by apply phases_guards|]. intros passErr.
  pose proof (maybeSweep_calm ctx). destruct (Is passErr errLostLeadership); apply Hm; seq_calm.
Qed.
Lemma pass_guards ctx : plain_cx ctx → guards D (SafeAt 0) (pass r ctx) (λ _, SafeAt 0).
Proof.
  intros Hctx. unfold pass. eapply guards_bind; [by apply RunOnce_guards|].
  intros e. apply guards_calm; [seq_calm|apply SafeAt_calm].
Qed.
Lemma runLoop_guards wait ticks ctx :
  (∀ c, harmless (wait c)) → plain_cx ctx → guards D (SafeAt 0) (runLoop r wait ticks ctx) (λ _, SafeAt 0).
Proof.
  intros Hw Hctx. induction ticks as [|ticks IH]; cbn [runLoop]; [by apply guards_ret|].
  eapply guards_bind; [apply guards_calm; [seq_calm|apply SafeAt_calm]|]. intros ticked.
  destruct (negb ticked); [apply guards_calm; [seq_calm|apply SafeAt_calm]|].
  eapply guards_bind; [apply guards_calm; [seq_calm|apply SafeAt_calm]|]. intros dead.
  destruct (negb _); [apply guards_calm; [seq_calm|apply SafeAt_calm]|].
  eapply guards_bind; [by apply pass_guards|]. intros ?. exact IH.
Qed.
Lemma Run_guards wait ticks ctx :
  (∀ c, harmless (wait c)) → plain_cx ctx → guards D (SafeAt 0) (Run r wait ticks ctx) (λ _, SafeAt 0).
Proof.
  intros Hw Hctx. unfold Run. eapply guards_bind; [apply guards_calm; [seq_calm|apply SafeAt_calm]|].
  intros t0. cbv zeta. eapply guards_bind; [apply guards_calm; [seq_calm|apply SafeAt_calm]|].
  intros dead. eapply guards_bind with (R := λ _, SafeAt 0).
  { destruct (negb _); [apply guards_calm; [seq_calm|apply SafeAt_calm]|].
    eapply guards_bind; [by apply pass_guards|]. intros ?. by apply runLoop_guards. }
  intros res. apply guards_calm; [seq_calm|apply SafeAt_calm].
Qed.
End calm.

(** ** Claims are never lost

    A [LogStore] for a log is one for the log together with any claim that holds
    already, so the theorems above keep every claim, not only the first. *)
Section every_claim.
Context `{UrlLib} {W : Type} `{Sf : !Safety Z W} `{Host W}.
Context (r : Relay W) (D : Message → Prop).

Definition with_claim (p0 : Z) : Safety Z W := λ p w, Sf p w ∧ Sf p0 w.
Lemma harmless_with p0 {A} (m : M W A) : harmless m → harmless (Safety0 := with_claim p0) m.
Proof. intros Hm p s [? ?]. split; by apply Hm. Qed.
#[local] Hint Resolve harmless_with : safe.

Lemma log_store_with p0 : LogStore r D → LogStore (Safety0 := with_claim p0) r D.
Proof.
  intros [[] [] ????????????]. split; try (intros; apply harmless_with; by eauto).
  - split; intros; apply harmless_with; eauto.
  - split; intros; apply harmless_with; eauto.
  - intros p w [? ?]. split; [by eapply lg_zero0|done].
  - intros c p w o b [? ?] ?. split; [by eapply lg_offset_at0|by apply lg_offset0].
  - intros c p w o ? [? ?] ?. split; [by eapply lg_init_at0|by apply lg_init0].
  - intros c a n w msgs e w' Hc [Ha H0'] Hl.
    assert (Sf p0 w') by (pose proof (lg_list0 c a n p0 w H0') as Hs; by rewrite Hl in Hs).
    destruct (lg_page0 c a n w msgs e w' Hc Ha Hl) as [Hpre Hst].
    split; intros; (split; [|done]); [by apply Hpre|by eapply Hst].
  - intros c q p w [??] [??]. split; by apply lg_commit0.
  - intros f c q p w ? [??] [??]. split; by eapply lg_fenced0.
Qed.
Lemma Run_keeps p wait ticks ctx :
  LogStore r D → hooks_ok (lane r) → (∀ c, harmless (wait c)) → plain_cx ctx →
  guards D (SafeAt p) (Run r wait ticks ctx) (λ _, SafeAt p).
Proof.
  intros Hr Hok Hw Hctx s.
  del_use (Run_guards (Safety0 := with_claim p) r D (log_store_with p Hr) Hok wait ticks ctx); [|done|].
  { intros c. by apply harmless_with. }
  intros a k s' Hk HD Hs. apply Hk; [done|]. split; [by eapply (lg_zero r D Hr)|done].
Qed.
End every_claim.
