(* ===== verification/TidbDb.v ===== *)
(** * The TiDB tables of one outbox instance and the statements on them

    The four tables of tidb/migrations/000001_create_outbox.up.sql and, for each
    statement text of tidb/store.go ([insertQuery] and the fields of
    [relayQueries]), the function it is on the committed tables: the new tables
    and what the client reads from the reply, or the server's error, which
    changes nothing. A [db] is one instance, so the table prefix is not part of
    it. DATETIME(6) values keep the precision they are bound with. *)
From S2P Require Import Prelude Errors GoLib Event Json.
From stdpp Require Import sorting.
#[local] Open Scope Z_scope.

(** ** Tables *)
Record row := mkRow {
  r_id : Z;                  (* AUTO_INCREMENT primary key *)
  r_seq : option Z;          (* NULL until sequenced; unique uk_outbox_seq *)
  r_ts : Z;                  (* tx_start_ts *)
  r_event : string;          (* event_id, unique uk_outbox_event *)
  r_meta : json;
  r_data : string;
  r_create : Z;
  r_occur : Z }.

Record db := mkDb {
  messages : list row;                     (* in primary-key order *)
  next_id : Z;                             (* the AUTO_INCREMENT counter *)
  sequencers : gmap string Z;              (* name ↦ next_seq *)
  offsets : gmap string (Z * Z);           (* name ↦ last_seq, update_time *)
  locks : gmap string (string * Z) }.      (* name ↦ holder_id, expire_time *)

(** The state the migration leaves: the counter row seeded at 1. *)
Definition migrated : db := mkDb [] 1 {["default"%string := 1]} ∅ ∅.

Definition with_messages (d : db) (l : list row) : db :=
  mkDb l (next_id d) (sequencers d) (offsets d) (locks d).
Definition with_offsets (d : db) (o : gmap string (Z * Z)) : db :=
  mkDb (messages d) (next_id d) (sequencers d) o (locks d).
Definition with_locks (d : db) (l : gmap string (string * Z)) : db :=
  mkDb (messages d) (next_id d) (sequencers d) (offsets d) l.
Definition with_sequencers (d : db) (q : gmap string Z) : db :=
  mkDb (messages d) (next_id d) q (offsets d) (locks d).

(** ** Replies *)
Definition mysql (n : Z) (msg : string) : err := Typed (TMySQL n msg) [].
(** [database/sql]'s answer to a [QueryRow] without rows. *)
Definition noRows : err := Sentinel ErrNoRows.
Definition stmt (A : Type) : Type := db → (db * A) + err.
Definition negLimit : err := mysql 1064 "You have an error in your SQL syntax".
Definition outOfRange : err := mysql 1264 "Out of range value for column".

(** The flags of the client's connection that change what a reply says:
    [foundRows] is the DSN's clientFoundRows, [lidLost] a proxy or server that
    does not pass LAST_INSERT_ID(expr) on. *)
Record conn := mkConn { foundRows : bool; lidLost : bool }.

(** ** Publishing *)

(** [insertQuery], on a connection whose [@@tidb_current_ts] is [ts] (0 outside
    a transaction). *)
Definition q_insert (ts : Z) (event : string) (meta : json) (data : option string)
    (create occur : Z) : stmt unit := λ d,
  match data with
  | None => inr (mysql 1048 "Column 'data' cannot be null")
  | Some data =>
      if ts =? 0 then inr (mysql 1048 "Column 'tx_start_ts' cannot be null")
      else if existsb (λ r, String.eqb (r_event r) event) (messages d)
      then inr (mysql 1062 "Duplicate entry for key 'outbox_messages.uk_outbox_event'")
      else inl (mkDb (messages d ++ [mkRow (next_id d) None ts event meta data create occur])
                  (next_id d + 1) (sequencers d) (offsets d) (locks d), tt)
  end.

(** ** Reading the log *)
Definition seq_of (r : row) : Z := default 0 (r_seq r).
Definition sequenced (r : row) : bool := if r_seq r is Some _ then true else false.
Definition by_seq (x y : row) : Prop := seq_of x <= seq_of y.
#[global] Instance by_seq_dec x y : Decision (by_seq x y).
Proof. unfold by_seq. apply _. Defined.

(** [list]: SELECT ... WHERE seq > ? ORDER BY seq LIMIT ? *)
Definition above (after : Z) (d : db) : list row :=
  merge_sort by_seq (filter (λ r, sequenced r ∧ after < seq_of r) (messages d)).
Definition q_list (after limit : Z) : stmt (list row) := λ d,
  if limit <? 0 then inr negLimit else inl (d, ztake limit (above after d)).

(** [offset] *)
Definition q_offset (name : string) : stmt Z := λ d,
  match offsets d !! name with Some (s, _) => inl (d, s) | None => inr noRows end.

(** ** Offsets *)

(** The upsert of [commitOffset] on one row, with the affected-rows count. *)
Definition upsert (c : conn) (d : db) (name : string) (seq t : Z) : db * Z :=
  match offsets d !! name with
  | None => (with_offsets d (<[name := (seq, t)]> (offsets d)), 1)
  | Some (l, u) =>
      if (Z.max l seq =? l) && (t =? u) then (d, if foundRows c then 1 else 0)
      else (with_offsets d (<[name := (Z.max l seq, t)]> (offsets d)), 2)
  end.
Definition q_commitOffset (c : conn) (name : string) (seq t : Z) : stmt Z := λ d,
  if seq <? 0 then inr outOfRange else inl (upsert c d name seq t).

(** [commitFenced]: the rows inserted are those of the SELECT over the lock. *)
Definition holds (d : db) (lockName holder : string) : bool :=
  match locks d !! lockName with Some (h, _) => String.eqb h holder | None => false end.
Definition q_commitFenced (c : conn) (name lockName holder : string) (seq t : Z) : stmt Z := λ d,
  if holds d lockName holder then q_commitOffset c name seq t d else inl (d, 0).

Definition maxSeq (d : db) : Z := foldr Z.max 0 (omap r_seq (messages d)).
Definition q_initOffset (name : string) (t : Z) : stmt unit := λ d,
  match offsets d !! name with
  | Some _ => inr (mysql 1062 "Duplicate entry for key 'outbox_offsets.PRIMARY'")
  | None => inl (with_offsets d (<[name := (maxSeq d, t)]> (offsets d)), tt)
  end.
Definition q_deleteOffset (name : string) : stmt unit := λ d,
  inl (with_offsets d (delete name (offsets d)), tt).

(** ** The sequencer *)
Definition pending (r : row) : bool := negb (sequenced r).
Definition q_probePending : stmt unit := λ d,
  if existsb pending (messages d) then inl (d, tt) else inr noRows.
Definition q_lockSequencer : stmt Z := λ d,
  match sequencers d !! "default"%string with Some n => inl (d, n) | None => inr noRows end.

(** ORDER BY tx_start_ts, id *)
Definition emit_order (x y : row) : Prop := r_ts x < r_ts y ∨ (r_ts x = r_ts y ∧ r_id x <= r_id y).
#[global] Instance emit_order_dec x y : Decision (emit_order x y).
Proof. unfold emit_order. apply _. Defined.
Definition page (limit : Z) (d : db) : list row :=
  ztake limit (merge_sort emit_order (filter pending (messages d))).

(** [SET o.seq = ? + b.rn - 1], [rn] the 1-based position on the page. *)
Fixpoint numbered (next : Z) (l : list row) : list (Z * Z) :=
  match l with [] => [] | r :: l => (r_id r, next) :: numbered (next + 1) l end.
Definition set_seq (ns : list (Z * Z)) (r : row) : row :=
  match List.find (λ n, n.1 =? r_id r) ns with
  | Some (_, s) => mkRow (r_id r) (Some s) (r_ts r) (r_event r) (r_meta r) (r_data r)
                     (r_create r) (r_occur r)
  | None => r
  end.
Definition q_assignSeq (limit next : Z) : stmt Z := λ d,
  let ns := numbered next (page limit d) in
  if limit <? 0 then inr negLimit
  else if existsb (λ n, existsb (λ s, s =? n.2) (omap r_seq (messages d))) ns
  then inr (mysql 1062 "Duplicate entry for key 'outbox_messages.uk_outbox_seq'")
  else inl (with_messages d (set_seq ns <$> messages d), zlen ns).
Definition q_bumpSequencer (next : Z) : stmt unit := λ d,
  if next <? 0 then inr outOfRange
  else inl (with_sequencers d (match sequencers d !! "default"%string with
                               | Some _ => <["default"%string := next]> (sequencers d)
                               | None => sequencers d
                               end), tt).

(** ** Leader locks *)
Definition lockUnreported : Z := 0.
Definition lockTaken : Z := 1.
Definition lockLost : Z := 2.

(** [acquireLock], with the LastInsertId of its reply. The assignments run left
    to right: the second one sees the new [holder_id] and the old
    [expire_time]. *)
Definition q_acquireLock (c : conn) (name holder : string) (deadline now : Z) : stmt Z := λ d,
  match locks d !! name with
  | None => inl (with_locks d (<[name := (holder, deadline)]> (locks d)), lockUnreported)
  | Some (h, expire) =>
      let h' := if (expire <? now) || String.eqb h holder then holder else h in
      let lid := if (expire <? now) || String.eqb h' holder then lockTaken else lockLost in
      let expire' := if lid =? lockTaken then deadline else expire in
      inl (with_locks d (<[name := (h', expire')]> (locks d)),
           if lidLost c then lockUnreported else lid)
  end.
Definition q_readLockHold (name : string) : stmt string := λ d,
  match locks d !! name with Some (h, _) => inl (d, h) | None => inr noRows end.
Definition q_releaseLock (name holder : string) : stmt unit := λ d,
  inl (if holds d name holder then with_locks d (delete name (locks d)) else d, tt).

(** ** Retention *)

(** DELETE ... LIMIT has no ORDER BY: which rows the limit keeps is the
    planner's, [scan] is the order it visits them in. *)
Class Planner := { scan : list row → list row; scan_perm l : scan l ≡ₚ l }.
(** [seq <= (SELECT MIN(last_seq) FROM offsets)]; no row makes it NULL. *)
Definition consumed (d : db) (seq : Z) : bool :=
  match map_to_list (offsets d) with
  | [] => false
  | os => forallb (λ o, seq <=? o.2.1) os
  end.
Definition sweepable (d : db) (cutoff : Z) (r : row) : bool :=
  match r_seq r with
  | Some s => consumed d s && (r_create r <? cutoff)
  | None => false
  end.
Definition q_sweep `{Planner} (cutoff limit : Z) : stmt Z := λ d,
  if limit <? 0 then inr negLimit else
  let gone := ztake limit (scan (filter (sweepable d cutoff) (messages d))) in
  inl (with_messages d
         (filter (λ r, negb (existsb (λ g, r_id g =? r_id r) gone)) (messages d)), zlen gone).
