(* ===== verification/TidbLog.v ===== *)
(** * The outbox log as a transition system

    [step]: one statement (or sequencing transaction) committed by whichever
    process. The invariant of the log and what never changes about it, by
    induction over the steps. *)
From S2P Require Import Prelude Errors GoLib Event Json TidbDb.
From stdpp Require Import sorting.
#[local] Open Scope Z_scope.

(** ** Steps *)
(** The statements of one sequencing transaction, run to its COMMIT. *)
Definition sthen {A B} (q : stmt A) (k : A → stmt B) : stmt B := λ d,
  match q d with inl (d, a) => k a d | inr e => inr e end.
Definition q_sequence (limit : Z) : stmt Z :=
  sthen q_lockSequencer (λ next,
  sthen (q_assignSeq limit next) (λ assigned,
  if 0 <? assigned
  then sthen (q_bumpSequencer (wrap64 (next + assigned))) (λ _ d, inl (d, assigned))
  else λ d, inl (d, assigned))).

Inductive action :=
| APublish (ts : Z) (event : string) (meta : json) (data : option string) (create occur : Z)
| ACommit (name : string) (seq t : Z)
| AFenced (name lockName holder : string) (seq t : Z)
| AInit (name : string) (t : Z)
| ADelete (name : string)
| ASequence (limit : Z)
| AAcquire (name holder : string) (deadline now : Z)
| ARelease (name holder : string)
| ASweep (cutoff limit : Z).

Section steps.
Context `{Planner}.

Inductive step : action → db → db → Prop :=
| step_publish ts event meta data create occur d d' :
    q_insert ts event meta data create occur d = inl (d', tt) →
    step (APublish ts event meta data create occur) d d'
| step_commit c name seq t d d' n :
    q_commitOffset c name seq t d = inl (d', n) → step (ACommit name seq t) d d'
| step_fenced c name lockName holder seq t d d' n :
    q_commitFenced c name lockName holder seq t d = inl (d', n) →
    step (AFenced name lockName holder seq t) d d'
| step_init name t d d' :
    q_initOffset name t d = inl (d', tt) → step (AInit name t) d d'
| step_delete name d d' :
    q_deleteOffset name d = inl (d', tt) → step (ADelete name) d d'
| step_sequence limit d d' n :
    in64 limit → q_sequence limit d = inl (d', n) → step (ASequence limit) d d'
| step_acquire c name holder deadline now d d' n :
    q_acquireLock c name holder deadline now d = inl (d', n) →
    step (AAcquire name holder deadline now) d d'
| step_release name holder d d' :
    q_releaseLock name holder d = inl (d', tt) → step (ARelease name holder) d d'
| step_sweep cutoff limit d d' n :
    q_sweep cutoff limit d = inl (d', n) → step (ASweep cutoff limit) d d'.

Definition steps : relation db := rtc (λ d d', ∃ a, step a d d').
Definition reachable (d : db) : Prop := steps migrated d.
End steps.

(** ** The invariant *)
Definition seqs (d : db) : list Z := omap r_seq (messages d).
Definition counter (d : db) : option Z := sequencers d !! "default"%string.

Record log_ok (d : db) : Prop := {
  lo_ids : NoDup (r_id <$> messages d);
  lo_fresh : Forall (λ r, r_id r < next_id d) (messages d);
  lo_events : NoDup (r_event <$> messages d);
  lo_seqs : NoDup (seqs d);
  lo_counter : ∃ n, counter d = Some n ∧ 1 <= n < 2^63 ∧ Forall (λ s, 1 <= s < n) (seqs d) }.

Lemma NoDup_fmap_sublist {A B} (f : A → B) (k l : list A) :
  k `sublist_of` l → NoDup (f <$> l) → NoDup (f <$> k).
Proof.
  intros Hs. induction Hs as [|x k l Hs IH|x k l Hs IH]; simpl; [done| |].
  - rewrite !NoDup_cons. intros [Hx Hl]. split; [|auto]. contradict Hx.
    rewrite list_elem_of_fmap in Hx |- *. destruct Hx as (y & -> & Hy).
    exists y. split; [done|]. by eapply elem_of_sublist.
  - rewrite NoDup_cons. intros [_ ?]. auto.
Qed.
Lemma NoDup_fmap_eq {A B} (f : A → B) (l : list A) x y :
  NoDup (f <$> l) → x ∈ l → y ∈ l → f x = f y → x = y.
Proof.
  intros Hnd [i Hi]%list_elem_of_lookup [j Hj]%list_elem_of_lookup E.
  assert (i = j) as ->; [|congruence].
  eapply NoDup_lookup; [exact Hnd| |]; rewrite list_lookup_fmap, ?Hi, ?Hj; simpl; [done|by rewrite E].
Qed.
Lemma NoDup_omap_sublist {A B} (f : A → option B) (k l : list A) :
  k `sublist_of` l → NoDup (omap f l) → NoDup (omap f k).
Proof.
  intros Hs. induction Hs as [|x k l Hs IH|x k l Hs IH]; simpl; [done| |]; destruct (f x); auto;
    rewrite ?NoDup_cons; [|tauto].
  intros [Hx Hl]. split; [|auto]. contradict Hx.
  apply list_elem_of_omap in Hx as (y & Hy & Hf). apply list_elem_of_omap. exists y.
  split; [|done]. by eapply elem_of_sublist.
Qed.

Lemma NoDup_omap_eq {A B} (f : A → option B) (l : list A) x y b :
  NoDup (omap f l) → x ∈ l → y ∈ l → f x = Some b → f y = Some b → x = y.
Proof.
  induction l as [|a l IH]; simpl; [by intros _ ?%elem_of_nil|].
  intros Hnd Hx Hy Ex Ey. apply elem_of_cons in Hx as [->|Hx]; apply elem_of_cons in Hy as [->|Hy].
  - done.
  - rewrite Ex in Hnd. apply NoDup_cons in Hnd as [Hn _]. destruct Hn. apply list_elem_of_omap. eauto.
  - rewrite Ey in Hnd. apply NoDup_cons in Hnd as [Hn _]. destruct Hn. apply list_elem_of_omap. eauto.
  - apply IH; auto. destruct (f a); [by apply NoDup_cons in Hnd as [_ ?]|done].
Qed.

(** *** Numbering a page *)
Lemma numbered_fst next l : (numbered next l).*1 = r_id <$> l.
Proof. revert next. induction l; intros next; simpl; [done|]. by rewrite IHl. Qed.
Lemma numbered_length next l : zlen (numbered next l) = zlen l.
Proof. revert next. induction l; intros next; simpl; [done|]. by rewrite !zlen_cons, IHl. Qed.
Lemma numbered_snd next l : (numbered next l).*2 = seqZ next (zlen l).
Proof.
  revert next. induction l as [|r l IH]; intros next; simpl; [done|].
  rewrite zlen_cons, seqZ_cons by (pose proof (zlen_nonneg l); lia).
  rewrite IH. do 2 f_equal. lia.
Qed.
Lemma numbered_bounds next l n :
  n ∈ numbered next l → next <= n.2 < next + zlen l.
Proof.
  intros Hn. assert (n.2 ∈ (numbered next l).*2) as Hs by (apply list_elem_of_fmap; eauto).
  rewrite numbered_snd, elem_of_seqZ in Hs. lia.
Qed.
Lemma page_perm limit d : ∃ rest, filter pending (messages d) ≡ₚ page limit d ++ rest.
Proof.
  unfold page. set (l := merge_sort _ _).
  exists (zdrop limit l). unfold ztake, zdrop. rewrite take_drop. unfold l.
  by rewrite merge_sort_Permutation.
Qed.
Lemma page_elem limit d r : r ∈ page limit d → r ∈ messages d ∧ pending r = true.
Proof.
  intros Hr. destruct (page_perm limit d) as [rest Hp].
  assert (r ∈ filter pending (messages d)) as Hf by (rewrite Hp, elem_of_app; auto).
  apply list_elem_of_filter in Hf as [Hp' ?]. split; [done|]. by apply Is_true_true.
Qed.
Lemma page_ids limit d : NoDup (r_id <$> messages d) → NoDup (r_id <$> page limit d).
Proof.
  intros Hnd. destruct (page_perm limit d) as [rest Hp].
  assert (NoDup (r_id <$> filter pending (messages d))) as Hf.
  { eapply NoDup_fmap_sublist; [apply sublist_filter|done]. }
  rewrite Hp, fmap_app in Hf. by apply NoDup_app in Hf as [? _].
Qed.

(** *** What assigning does to one row *)
Lemma find_numbered next l id :
  List.find (λ n, n.1 =? id) (numbered next l) = None ↔ id ∉ r_id <$> l.
Proof.
  revert next. induction l as [|r l IH]; intros next; simpl; [split; [by intros _ ?%elem_of_nil|done]|].
  rewrite not_elem_of_cons. destruct (Z.eqb_spec (r_id r) id); [naive_solver|].
  rewrite IH. naive_solver.
Qed.
Lemma find_numbered_Some next l id n :
  List.find (λ n, n.1 =? id) (numbered next l) = Some n → n ∈ numbered next l ∧ n.1 = id.
Proof.
  intros Hn%List.find_some. destruct Hn as [Hn He]. split; [by apply list_elem_of_In|lia].
Qed.

(** A row keeps everything but its seq, and a sequenced row keeps that too. *)
Definition same_row (r r' : row) : Prop :=
  r_id r = r_id r' ∧ r_ts r = r_ts r' ∧ r_event r = r_event r' ∧ r_meta r = r_meta r' ∧
  r_data r = r_data r' ∧ r_create r = r_create r' ∧ r_occur r = r_occur r'.
Lemma set_seq_same ns r : same_row (set_seq ns r) r.
Proof. unfold set_seq. repeat case_match; by repeat split. Qed.
Lemma set_seq_ids ns (l : list row) : r_id <$> (set_seq ns <$> l) = r_id <$> l.
Proof. rewrite <-list_fmap_compose. apply list_fmap_ext. intros _ r _. apply set_seq_same. Qed.
Lemma set_seq_events ns (l : list row) : r_event <$> (set_seq ns <$> l) = r_event <$> l.
Proof. rewrite <-list_fmap_compose. apply list_fmap_ext. intros _ r _. apply set_seq_same. Qed.

(** The seqs after numbering are the old ones and the new ones, once each. *)
Lemma seqs_set_seq next (ms pg : list row) :
  NoDup (r_id <$> ms) → NoDup (r_id <$> pg) →
  (∀ r, r ∈ pg → r ∈ ms ∧ r_seq r = None) →
  omap r_seq (set_seq (numbered next pg) <$> ms) ≡ₚ omap r_seq ms ++ seqZ next (zlen pg).
Proof.
  revert next ms. induction pg as [|r pg IH]; intros next ms Hms Hpg Hin; simpl.
  - rewrite app_nil_r. by rewrite list_fmap_id.
  - apply NoDup_cons in Hpg as [Hr Hpg].
    destruct (Hin r) as [Hrm Hrs]; [left|].
    apply list_elem_of_split in Hrm as (l1 & l2 & ->).
    rewrite zlen_cons, seqZ_cons by (pose proof (zlen_nonneg pg); lia).
    replace (Z.pred (zlen pg + 1)) with (zlen pg) by lia.
    rewrite fmap_app in Hms. simpl in Hms. apply NoDup_app in Hms as (H1 & H12 & H2).
    apply NoDup_cons in H2 as [Hr2 H2].
    assert (Hskip : ∀ l : list row, r_id r ∉ r_id <$> l →
      set_seq ((r_id r, next) :: numbered (next + 1) pg) <$> l = set_seq (numbered (next + 1) pg) <$> l).
    { intros l Hl. apply list_fmap_ext. intros i x Hx. unfold set_seq. simpl.
      destruct (Z.eqb_spec (r_id r) (r_id x)) as [E|]; [|done]. exfalso. apply Hl. rewrite E.
      apply list_elem_of_fmap. exists x. split; [done|]. by eapply list_elem_of_lookup_2. }
    rewrite fmap_app. simpl. rewrite !Hskip; [|done|].
    2: { intros Hx. apply (H12 _ Hx). left. }
    rewrite !omap_app. simpl. unfold set_seq at 2. simpl. rewrite Z.eqb_refl. simpl. rewrite Hrs.
    transitivity (next :: omap r_seq (set_seq (numbered (next + 1) pg) <$> (l1 ++ l2))).
    { rewrite fmap_app, omap_app. symmetry. apply Permutation_middle. }
    rewrite IH; [|rewrite fmap_app; apply NoDup_app; split_and!; [done|set_solver|done]|done|].
    2: { intros x Hx. destruct (Hin x) as [Hxm ?]; [by right|]. split; [|done].
         rewrite elem_of_app, elem_of_cons in Hxm. rewrite elem_of_app.
         destruct Hxm as [?|[->|?]]; [auto| |auto]. exfalso. apply Hr.
         apply list_elem_of_fmap. eauto. }
    rewrite omap_app, <-!app_assoc. replace (Z.succ next) with (next + 1) by lia.
    rewrite (app_assoc (omap r_seq l1)), (app_assoc (omap r_seq l1)).
    apply Permutation_middle.
Qed.

(** *** The sequencing transaction *)
Lemma page_length limit d : 0 <= limit → 0 <= zlen (page limit d) <= limit.
Proof.
  intros. split; [apply zlen_nonneg|]. unfold page, ztake, zlen. rewrite length_take. lia.
Qed.
(** Its effect on the tables. *)
Definition assigned_db (next : Z) (pg : list row) (d : db) : db :=
  mkDb (set_seq (numbered next pg) <$> messages d) (next_id d)
    (<["default"%string := next + zlen pg]> (sequencers d)) (offsets d) (locks d).

(** A sum of two numbers that does not wrap to a negative one did not overflow. *)
Lemma wrap64_no_overflow a b :
  0 <= a < 2^63 → 0 <= b < 2^63 → 0 <= wrap64 (a + b) → a + b < 2^63.
Proof.
  unfold wrap64. intros. destruct (decide (a + b < 2^63)); [done|].
  assert ((a + b + 2^63) mod 2^64 = a + b - 2^63) as E by (symmetry; apply (Z.mod_unique_pos _ _ 1); lia).
  lia.
Qed.
Lemma q_sequence_elim limit d d' k :
  in64 limit → log_ok d → q_sequence limit d = inl (d', k) →
  ∃ next, counter d = Some next ∧ k = zlen (page limit d) ∧ next + k < 2^63 ∧
          d' = assigned_db next (page limit d) d.
Proof.
  intros Hl [_ _ _ _ (next & Hc & Hn & _)] Hq. exists next. split; [done|].
  unfold q_sequence, sthen, q_lockSequencer in Hq. unfold counter in Hc. rewrite Hc in Hq.
  unfold q_assignSeq in Hq. destruct (Z.ltb_spec limit 0); [done|].
  pose proof (page_length limit d ltac:(lia)) as Hpl. unfold in64 in Hl.
  destruct (existsb _ _); [done|]. rewrite numbered_length in Hq.
  unfold assigned_db. destruct (Z.ltb_spec 0 (zlen (page limit d))) as [Hp|Hp].
  - unfold q_bumpSequencer in Hq. destruct (Z.ltb_spec (wrap64 (next + zlen (page limit d))) 0); [done|].
    assert (next + zlen (page limit d) < 2^63) as Hlt by (apply wrap64_no_overflow; lia).
    rewrite wrap64_id in Hq by (unfold in64; lia). simpl in Hq. rewrite Hc in Hq.
    injection Hq as <- <-. done.
  - assert (zlen (page limit d) = 0) as E by lia. rewrite E in *. injection Hq as <- <-.
    split_and!; [done|lia|]. rewrite Z.add_0_r, insert_id by done. done.
Qed.

(** A sound log never makes the transaction fail: the counter is there and no
    number it hands out is taken. *)
Lemma q_sequence_intro limit d next :
  0 <= limit < 2^63 → log_ok d → counter d = Some next → next + zlen (page limit d) < 2^63 →
  q_sequence limit d = inl (assigned_db next (page limit d) d, zlen (page limit d)).
Proof.
  intros Hl [_ _ _ _ (next' & Hc' & Hn & Hs)] Hc Hb. rewrite Hc in Hc'. injection Hc' as <-.
  unfold q_sequence, sthen, q_lockSequencer, counter in *. rewrite Hc.
  pose proof (page_length limit d ltac:(lia)) as Hpl.
  unfold q_assignSeq. destruct (Z.ltb_spec limit 0); [lia|].
  destruct (existsb _ _) eqn:E.
  { exfalso. apply existsb_exists in E as (n & Hin%list_elem_of_In%numbered_bounds & E).
    apply existsb_exists in E as (s & Hs'%list_elem_of_In & E).
    rewrite Forall_forall in Hs. specialize (Hs s Hs'). lia. }
  rewrite numbered_length. unfold assigned_db.
  destruct (Z.ltb_spec 0 (zlen (page limit d))).
  - rewrite wrap64_id by (unfold in64; lia). unfold q_bumpSequencer.
    destruct (Z.ltb_spec (next + zlen (page limit d)) 0); [lia|]. simpl. by rewrite Hc.
  - assert (zlen (page limit d) = 0) as -> by lia. rewrite Z.add_0_r, insert_id by done. done.
Qed.

Lemma page_ok limit d r : r ∈ page limit d → r ∈ messages d ∧ r_seq r = None.
Proof.
  intros [Hr Hp]%page_elem. split; [done|]. unfold pending, sequenced in Hp. by destruct (r_seq r).
Qed.
Lemma seqs_assigned next limit d :
  NoDup (r_id <$> messages d) →
  seqs (assigned_db next (page limit d) d) ≡ₚ seqs d ++ seqZ next (zlen (page limit d)).
Proof. intros Hd. apply seqs_set_seq; [done|by apply page_ids|apply page_ok]. Qed.

Lemma log_ok_assigned limit d next :
  log_ok d → counter d = Some next → next + zlen (page limit d) < 2^63 →
  log_ok (assigned_db next (page limit d) d).
Proof.
  intros [Hi Hf He Hs (next' & Hc' & Hn & Hb)] Hc Hk. rewrite Hc in Hc'. injection Hc' as <-.
  pose proof (seqs_assigned next limit d Hi) as Hseqs.
  pose proof (zlen_nonneg (page limit d)). rewrite Forall_forall in Hb.
  split.
  - simpl. by rewrite set_seq_ids.
  - simpl. apply Forall_fmap. eapply Forall_impl; [exact Hf|]. intros r Hr. simpl.
    by destruct (set_seq_same (numbered next (page limit d)) r) as [-> _].
  - simpl. by rewrite set_seq_events.
  - rewrite Hseqs. apply NoDup_app. split_and!; [done| |apply NoDup_seqZ].
    intros s Hs1%Hb Hs2%elem_of_seqZ. lia.
  - exists (next + zlen (page limit d)). split_and!; [apply lookup_insert_eq|lia|lia|].
    rewrite Hseqs. apply Forall_app. split.
    + apply Forall_forall. intros s Hs'%Hb. lia.
    + apply Forall_forall. intros s Hs'%elem_of_seqZ. lia.
Qed.

(** *** Every step keeps the invariant *)
Lemma log_ok_sublist d l :
  log_ok d → l `sublist_of` messages d → log_ok (with_messages d l).
Proof.
  intros [Hi Hf He Hs (n & Hc & Hn & Hb)] Hl. split; simpl.
  - by eapply NoDup_fmap_sublist.
  - rewrite Forall_forall in Hf |- *. intros r Hr. by eapply Hf, elem_of_sublist.
  - by eapply NoDup_fmap_sublist.
  - by eapply NoDup_omap_sublist.
  - exists n. split_and!; [done|lia|lia|]. rewrite Forall_forall in Hb |- *.
    unfold seqs. simpl. intros s (r & Hr & Hrs)%list_elem_of_omap. apply Hb, list_elem_of_omap.
    exists r. split; [|done]. by eapply elem_of_sublist.
Qed.
Lemma log_ok_same d d' :
  messages d' = messages d → next_id d' = next_id d → sequencers d' = sequencers d →
  log_ok d → log_ok d'.
Proof.
  intros Hm Hi Hq [H1 H2 H3 H4 H5]. unfold seqs, counter in *.
  split; unfold seqs, counter; by rewrite ?Hm, ?Hi, ?Hq.
Qed.

Lemma q_insert_elim ts ev meta data cr oc d d' :
  q_insert ts ev meta data cr oc d = inl (d', tt) →
  ∃ x, data = Some x ∧ ts ≠ 0 ∧ ev ∉ r_event <$> messages d ∧
    d' = mkDb (messages d ++ [mkRow (next_id d) None ts ev meta x cr oc]) (next_id d + 1)
           (sequencers d) (offsets d) (locks d).
Proof.
  unfold q_insert. destruct data as [x|]; [|done]. destruct (Z.eqb_spec ts 0); [done|].
  destruct (existsb _ _) eqn:E; [done|]. intros [= <-]. exists x. split_and!; try done.
  intros (r & -> & Hr)%list_elem_of_fmap. apply not_true_iff_false in E. apply E.
  apply existsb_exists. exists r. split; [by apply list_elem_of_In|]. apply String.eqb_refl.
Qed.
Lemma log_ok_insert ts ev meta data cr oc d d' :
  q_insert ts ev meta data cr oc d = inl (d', tt) → log_ok d → log_ok d'.
Proof.
  intros (x & -> & Hts & Hev & ->)%q_insert_elim [Hi Hf He Hs (n & Hc & Hn & Hb)].
  rewrite Forall_forall in Hf. split; simpl.
  - rewrite fmap_app. apply NoDup_app. split_and!; [done| |apply NoDup_singleton].
    intros i (r & -> & Hr)%list_elem_of_fmap Hx%list_elem_of_singleton. specialize (Hf r Hr). simpl in *. lia.
  - apply Forall_app. split; [|repeat constructor; simpl; lia].
    apply Forall_forall. intros r Hr%Hf. lia.
  - rewrite fmap_app. apply NoDup_app. split_and!; [done| |apply NoDup_singleton].
    intros e He' Hx%list_elem_of_singleton. simpl in Hx. by subst.
  - unfold seqs. simpl. rewrite omap_app. simpl. by rewrite app_nil_r.
  - exists n. split_and!; [done|lia|lia|]. unfold seqs. simpl. rewrite omap_app. simpl.
    by rewrite app_nil_r.
Qed.

Lemma q_upsert_log c d name seq t :
  let d' := (upsert c d name seq t).1 in
  messages d' = messages d ∧ next_id d' = next_id d ∧ sequencers d' = sequencers d ∧ locks d' = locks d.
Proof. unfold upsert. repeat case_match; by repeat split. Qed.

Section invariant.
Context `{Planner}.

(** The steps that leave the log alone, and the three that change it. *)
Inductive log_effect (a : action) (d d' : db) : Prop :=
| eff_same : messages d' = messages d → next_id d' = next_id d → sequencers d' = sequencers d →
    log_effect a d d'
| eff_publish ts ev meta x cr oc :
    a = APublish ts ev meta (Some x) cr oc → ts ≠ 0 → ev ∉ r_event <$> messages d →
    d' = mkDb (messages d ++ [mkRow (next_id d) None ts ev meta x cr oc]) (next_id d + 1)
           (sequencers d) (offsets d) (locks d) →
    log_effect a d d'
| eff_sequence limit next :
    a = ASequence limit → counter d = Some next → next + zlen (page limit d) < 2^63 →
    d' = assigned_db next (page limit d) d → log_effect a d d'
| eff_sweep cutoff limit l :
    a = ASweep cutoff limit → l `sublist_of` messages d → d' = with_messages d l →
    log_effect a d d'.

Lemma step_effect a d d' : log_ok d → step a d d' → log_effect a d d'.
Proof.
  intros Hok Hs. destruct Hs as [ts ev meta data cr oc d d' Hq|c name seq t d d' n Hq
    |c name lk h seq t d d' n Hq|name t d d' Hq|name d d' Hq|limit d d' n Hl Hq
    |c name h dl nw d d' n Hq|name h d d' Hq|cut limit d d' n Hq].
  - apply q_insert_elim in Hq as (x & -> & ? & ? & ->). by eapply eff_publish.
  - unfold q_commitOffset in Hq. case_match; [done|]. injection Hq as Hq.
    pose proof (q_upsert_log c d name seq t) as Hu. rewrite Hq in Hu.
    destruct Hu as (?&?&?&?). by apply eff_same.
  - unfold q_commitFenced, q_commitOffset in Hq. case_match; [|by injection Hq as <- <-; apply eff_same].
    case_match; [done|]. injection Hq as Hq.
    pose proof (q_upsert_log c d name seq t) as Hu. rewrite Hq in Hu.
    destruct Hu as (?&?&?&?). by apply eff_same.
  - unfold q_initOffset in Hq. case_match; [done|]. injection Hq as <-. by apply eff_same.
  - injection Hq as <-. by apply eff_same.
  - destruct (q_sequence_elim _ _ _ _ Hl Hok Hq) as (next & ? & -> & ? & ->). by eapply eff_sequence.
  - unfold q_acquireLock in Hq. destruct (locks d !! name) as [[h' ex]|]; injection Hq as <- <-;
      by apply eff_same.
  - unfold q_releaseLock in Hq. case_match; injection Hq as <-; by apply eff_same.
  - unfold q_sweep in Hq. case_match; [done|]. injection Hq as <- <-.
    eapply eff_sweep; [done| |done]. apply sublist_filter.
Qed.

Lemma step_log_ok a d d' : log_ok d → step a d d' → log_ok d'.
Proof.
  intros Hok Hs. destruct (step_effect a d d' Hok Hs) as
    [|ts ev meta x cr oc -> Hts Hev Hd|limit next _ Hc Hk ->|c l sub _ Hsub ->].
  - by eapply log_ok_same.
  - eapply (log_ok_insert ts ev meta (Some x) cr oc d); [|done].
    inversion Hs; subst; done.
  - by apply log_ok_assigned.
  - by apply log_ok_sublist.
Qed.
Lemma migrated_ok : log_ok migrated.
Proof.
  split; simpl; try constructor. exists 1. split_and!; [done|lia|lia|constructor].
Qed.
Lemma steps_log_ok d d' : log_ok d → steps d d' → log_ok d'.
Proof. intros Hd Hs. induction Hs as [|d d1 d2 [a Ha] _ IH]; [done|]. by eapply IH, step_log_ok. Qed.

(** *** What steps never do to a row *)
Definition cnt (d : db) : Z := default 1 (counter d).
Definition origin (d : db) (r' : row) : Prop :=
  (∃ r, r ∈ messages d ∧ same_row r r' ∧
     (r_seq r = r_seq r' ∨ (r_seq r = None ∧ ∃ s, r_seq r' = Some s ∧ cnt d <= s))) ∨
  (next_id d <= r_id r' ∧ ∀ s, r_seq r' = Some s → cnt d <= s).
Record grown (d d' : db) : Prop := {
  gr_ids : next_id d <= next_id d';
  gr_cnt : cnt d <= cnt d';
  gr_rows : ∀ r', r' ∈ messages d' → origin d r' }.

Lemma same_row_refl r : same_row r r. Proof. by repeat split. Qed.
Lemma same_row_trans r1 r2 r3 : same_row r1 r2 → same_row r2 r3 → same_row r1 r3.
Proof. unfold same_row. intuition congruence. Qed.
Lemma grown_refl d : grown d d.
Proof. split; [lia|lia|]. intros r Hr. left. exists r. eauto using same_row_refl. Qed.
Lemma grown_trans d1 d2 d3 : grown d1 d2 → grown d2 d3 → grown d1 d3.
Proof.
  intros [Hi1 Hc1 H1] [Hi2 Hc2 H2]. split; [lia|lia|]. intros r3 Hr3.
  destruct (H2 r3 Hr3) as [(r2 & Hr2 & Hsame & Hseq)|[Hid Hseq]].
  - destruct (H1 r2 Hr2) as [(r1 & Hr1 & Hsame1 & Hseq1)|[Hid1 Hseq1]].
    + left. exists r1. split; [done|]. split; [by eapply same_row_trans|].
      destruct Hseq as [E|(E & s & Es & Hs)].
      * destruct Hseq1 as [E1|(E1 & s & Es & Hs)]; [left; congruence|].
        right. split; [done|]. exists s. split; [congruence|done].
      * destruct Hseq1 as [E1|(E1 & s' & Es' & Hs')]; [|congruence].
        right. split; [congruence|]. exists s. split; [done|lia].
    + right. destruct Hsame as [Hide _]. split; [lia|]. intros s Hs.
      destruct Hseq as [E|(E & s' & Es & Hs')]; [apply Hseq1; congruence|].
      assert (s = s') by congruence. lia.
  - right. split; [lia|]. intros s Hs%Hseq. lia.
Qed.
Lemma step_grown a d d' : log_ok d → step a d d' → grown d d'.
Proof.
  intros Hok Hs. destruct (step_effect a d d' Hok Hs) as
    [Hm Hi Hq|ts ev meta x cr oc _ Hts Hev ->|limit next _ Hc Hk ->|c l sub _ Hsub ->].
  - split; [lia|unfold cnt, counter; rewrite Hq; lia|]. rewrite Hm. intros r Hr. left. exists r.
    eauto using same_row_refl.
  - split; simpl; [lia|unfold cnt, counter; simpl; lia|].
    intros r [Hr|Hr%list_elem_of_singleton]%elem_of_app.
    + left. exists r. eauto using same_row_refl.
    + right. subst r. simpl. split; [lia|done].
  - assert (cnt d = next) as Ec by (unfold cnt; by rewrite Hc).
    split; simpl; [lia| |].
    + unfold cnt at 2, counter. simpl. rewrite lookup_insert_eq. simpl.
      pose proof (zlen_nonneg (page limit d)). lia.
    + intros r' (r & -> & Hr)%list_elem_of_fmap. left. exists r. split; [done|].
      destruct (set_seq_same (numbered next (page limit d)) r) as (?&?&?&?&?&?&?).
      split; [by repeat split|]. unfold set_seq. destruct (List.find _ _) as [[i s]|] eqn:E; [|by left].
      apply find_numbered_Some in E as [Hin Hid]. pose proof (numbered_bounds _ _ _ Hin) as Hb. simpl in *.
      right. split; [|exists s; split; [done|lia]].
      assert (i ∈ (numbered next (page limit d)).*1) as Hi by (apply list_elem_of_fmap; exists (i, s); eauto).
      rewrite numbered_fst in Hi. apply list_elem_of_fmap in Hi as (p & Hp & Hpp).
      apply page_ok in Hpp as [Hpm Hps]. assert (r = p) as ->; [|done].
      eapply (NoDup_fmap_eq r_id (messages d)); eauto using lo_ids. congruence.
  - split; simpl; [lia|unfold cnt, counter; simpl; lia|]. intros r Hr. left. exists r.
    split; [by eapply elem_of_sublist|]. eauto using same_row_refl.
Qed.
End invariant.
