(* ===== verification/TidbTx.v ===== *)
(** * The sequencing transaction, statement by statement

    [Tidb] runs the statements of a sequencing transaction on the tables as they
    were at its BEGIN. Here they are steps of their own, between which any other
    process may commit, as the database has it: the FOR UPDATE lock on the
    counter row keeps other sequencers out until COMMIT, each statement sees what
    is committed when it runs and the transaction's own writes, and those become
    visible together. The transaction is then one that ran alone, after what the
    others did meanwhile but for their publishes, and before these. *)
From S2P Require Import Prelude Errors GoLib Event Json TidbDb TidbLog.
From stdpp Require Import sorting.
#[local] Open Scope Z_scope.

(** ** The transaction *)

(** Its writes: numbers for rows, and the counter. *)
Record writes := mkWrites { w_seqs : list (Z * Z); w_counter : option Z }.
(** What it sees of the committed tables, and what COMMIT makes of them. *)
Definition sees (t : writes) (d : db) : db :=
  mkDb (set_seq (w_seqs t) <$> messages d) (next_id d)
    (match w_counter t with Some n => <["default"%string := n]> (sequencers d) | None => sequencers d end)
    (offsets d) (locks d).

Inductive phase :=
| Begun
| Locked (next : Z)
| Assigned (next k : Z) (ns : list (Z * Z))
| Ready (k : Z) (t : writes)
| Committed (k : Z).

(** The counter row is locked from the SELECT ... FOR UPDATE on; the transaction
    is followed to its COMMIT. *)
Definition admits (p : phase) (a : action) : Prop :=
  match p, a with
  | (Locked _ | Assigned _ _ _ | Ready _ _), ASequence _ => False
  | Committed _, _ => False
  | _, _ => True
  end.

Section transaction.
Context `{Planner} (limit : Z).

Inductive tx_step : db * phase → db * phase → Prop :=
| tx_other a d d' p :
    step a d d' → admits p a → tx_step (d, p) (d', p)
| tx_lock d v next :
    q_lockSequencer d = inl (v, next) → tx_step (d, Begun) (d, Locked next)
| tx_assign d v next k :
    q_assignSeq limit next d = inl (v, k) →
    tx_step (d, Locked next) (d, Assigned next k (numbered next (page limit d)))
| tx_bump d v next k ns :
    0 < k → q_bumpSequencer (wrap64 (next + k)) (sees (mkWrites ns None) d) = inl (v, tt) →
    tx_step (d, Assigned next k ns) (d, Ready k (mkWrites ns (Some (wrap64 (next + k)))))
| tx_none d next k ns :
    k <= 0 → tx_step (d, Assigned next k ns) (d, Ready k (mkWrites ns None))
| tx_commit d k t :
    tx_step (d, Ready k t) (sees t d, Committed k).
End transaction.

(** ** What the others do meanwhile *)
Definition quiet (a : action) : Prop :=
  match a with APublish _ _ _ _ _ _ | ASequence _ => False | _ => True end.
Definition published (x : row) (d : db) : db :=
  mkDb (messages d ++ [x]) (next_id d + 1) (sequencers d) (offsets d) (locks d).

Section others.
Context `{Planner}.
Definition publications : relation db := rtc (λ d d', ∃ ts ev meta data cr oc, step (APublish ts ev meta data cr oc) d d').
Definition quietly : relation db := rtc (λ d d', ∃ a, step a d d' ∧ quiet a).

(** A publish adds a fresh pending row. *)
Definition publishable (x : row) (d : db) : Prop :=
  r_id x = next_id d ∧ r_seq x = None ∧ r_ts x ≠ 0 ∧ r_event x ∉ r_event <$> messages d.
Lemma publish_published ts ev meta data cr oc d d' :
  step (APublish ts ev meta data cr oc) d d' → ∃ x, publishable x d ∧ d' = published x d.
Proof.
  intros Hs. inversion Hs as [? ? ? ? ? ? ? ? Hq| | | | | | | |]; subst.
  apply q_insert_elim in Hq as (x & -> & Hts & Hev & ->). eexists. split; [|reflexivity]. done.
Qed.
Lemma published_publish x d : publishable x d → publications d (published x d).
Proof.
  intros (Hid & Hseq & Hts & Hev). apply rtc_once.
  exists (r_ts x), (r_event x), (r_meta x), (Some (r_data x)), (r_create x), (r_occur x).
  constructor. unfold q_insert. destruct (Z.eqb_spec (r_ts x) 0); [done|].
  destruct (existsb _ _) eqn:E.
  - exfalso. apply Hev. apply existsb_exists in E as (y & Hy%list_elem_of_In & E%String.eqb_eq).
    rewrite <-E. by apply list_elem_of_fmap_2.
  - unfold published. rewrite <-Hid. by destruct x; simpl in *; subst.
Qed.

(** A statement that does not see a pending row at the end of the table. *)
Definition overlooks {A} (q : stmt A) : Prop := ∀ x d d' a,
  log_ok d → publishable x d → q (published x d) = inl (d', a) →
  ∃ d0, q d = inl (d0, a) ∧ d' = published x d0.
Lemma overlooks_commit c n s t : overlooks (q_commitOffset c n s t).
Proof.
  intros x d d' a _ _. unfold q_commitOffset, upsert. cbn [offsets published].
  repeat case_match; intros [= <- <-]; eexists; (split; [done|done]).
Qed.
Lemma overlooks_fenced c n lk h s t : overlooks (q_commitFenced c n lk h s t).
Proof.
  intros x d d' a Hok Hx. unfold q_commitFenced, holds. cbn [locks published].
  case_match; [case_match|]; try (intros [= <- <-]; by eexists). all: by apply overlooks_commit.
Qed.
Lemma overlooks_init n t : overlooks (q_initOffset n t).
Proof.
  intros x d d' a _ (_ & Hseq & _). unfold q_initOffset. cbn [offsets published]. case_match; [done|].
  intros [= <- <-]. eexists. split; [done|]. unfold maxSeq. cbn [messages published].
  rewrite omap_app. cbn [omap list_omap]. by rewrite Hseq, app_nil_r.
Qed.
Lemma overlooks_delete n : overlooks (q_deleteOffset n).
Proof. intros x d d' a _ _ [= <- <-]. by eexists. Qed.
Lemma overlooks_acquire c n h dl t : overlooks (q_acquireLock c n h dl t).
Proof.
  intros x d d' a _ _. unfold q_acquireLock. cbn [locks published].
  case_match; [case_match|]; intros [= <- <-]; by eexists.
Qed.
Lemma overlooks_release n h : overlooks (q_releaseLock n h).
Proof.
  intros x d d' a _ _. unfold q_releaseLock, holds. cbn [locks published].
  intros [= <- <-]. eexists. split; [done|]. by repeat case_match.
Qed.
(** The rows a sweep removes are sequenced. *)
Lemma swept_rows cut limit d g :
  g ∈ ztake limit (scan (filter (sweepable d cut) (messages d))) → g ∈ messages d ∧ r_seq g ≠ None.
Proof.
  intros Hg. eapply elem_of_prefix in Hg; [|apply ztake_prefix]. rewrite scan_perm in Hg.
  apply list_elem_of_filter in Hg as [Hs ?]. split; [done|]. unfold sweepable in Hs.
  by destruct (r_seq g).
Qed.
Lemma overlooks_sweep cut limit : overlooks (q_sweep cut limit).
Proof.
  intros x d d' a Hok (Hid & Hseq & _). unfold q_sweep. case_match; [done|]. cbn [messages published].
  change (sweepable (published x d) cut) with (sweepable d cut).
  assert (filter (sweepable d cut) (messages d ++ [x]) = filter (sweepable d cut) (messages d)) as ->.
  { rewrite filter_app, filter_cons, filter_nil. case_decide as Hx; [|by rewrite app_nil_r].
    unfold sweepable in Hx. by rewrite Hseq in Hx. }
  set (gone := ztake _ _). intros [= <- <-]. eexists. split; [done|].
  unfold with_messages, published. cbn. f_equal. rewrite filter_app. f_equal.
  rewrite filter_cons_True; [done|]. apply Is_true_true, negb_true_iff, not_true_iff_false.
  intros (g & Hg%list_elem_of_In & E%Z.eqb_eq)%existsb_exists. apply swept_rows in Hg as [Hg _].
  pose proof (lo_fresh _ Hok) as Hf. rewrite Forall_forall in Hf. specialize (Hf g Hg). simpl in *. lia.
Qed.

(** *** A statement of the others that is no publish *)
Lemma filter_kept {A} (P Q : A → Prop) `{∀ x, Decision (P x)} `{∀ x, Decision (Q x)} (l : list A) :
  (∀ x, x ∈ l → P x → Q x) → filter P (filter Q l) = filter P l.
Proof.
  intros Hk. induction l as [|x l IH]; [done|].
  specialize (IH ltac:(intros y Hy; apply Hk; by right)). rewrite !filter_cons.
  destruct (decide (P x)) as [Hx|Hx].
  - rewrite decide_True by (apply Hk; [left|done]). rewrite filter_cons_True by done. by rewrite IH.
  - case_decide; [|done]. by rewrite filter_cons_False.
Qed.
(** leaves the counter, the pending rows and all that is committed. *)
Record untouched (d d' : db) : Prop := mkUntouched {
  un_next : next_id d' = next_id d;
  un_counter : sequencers d' = sequencers d;
  un_pending : filter pending (messages d') = filter pending (messages d);
  un_rows : messages d' `sublist_of` messages d }.
Lemma quiet_untouched a d d' : log_ok d → step a d d' → quiet a → untouched d d'.
Proof.
  intros Hok Hs Hq. destruct (step_effect a d d' Hok Hs) as
    [Em ? ?|ts ev meta x cr oc -> _ _ _|limit next -> _ _ _|c l sub -> Hsub Ed]; [|done|done|].
  - split; [done|done|by rewrite Em|by rewrite Em].
  - split; [by rewrite Ed..| |by rewrite Ed].
    inversion Hs as [| | | | | | | |? ? ? ? ? Hsw]; subst. unfold q_sweep in Hsw. case_match; [done|].
    injection Hsw as Hsw _. simpl. rewrite <-Hsw. apply filter_kept. intros r Hr Hp.
    apply Is_true_true, negb_true_iff, not_true_iff_false.
    intros (g & Hg%list_elem_of_In & E%Z.eqb_eq)%existsb_exists.
    apply swept_rows in Hg as [Hg Hgs]. assert (r = g) as ->; [|].
    { eapply (NoDup_fmap_eq r_id (messages d)); eauto using lo_ids. }
    unfold pending, sequenced in Hp. by destruct (r_seq g).
Qed.

(** A publish before it might as well come after it. *)
Lemma quiet_published a x d d2 :
  log_ok d → publishable x d → step a (published x d) d2 → quiet a →
  ∃ d1, step a d d1 ∧ d2 = published x d1 ∧ publishable x d1.
Proof.
  intros Hok Hx Hs Hq.
  assert (∃ d1, step a d d1 ∧ d2 = published x d1) as (d1 & Hs1 & ->).
  { inversion Hs as [|c n s t ? ? k E|c n lk h s t ? ? k E|n t ? ? E|n ? ? E|
      |c n h dl t ? ? k E|n h ? ? E|cut limit ? ? k E]; subst; try done.
    - apply overlooks_commit in E as (d0 & ? & ?); eauto using step.
    - apply overlooks_fenced in E as (d0 & ? & ?); eauto using step.
    - apply overlooks_init in E as (d0 & ? & ?); eauto using step.
    - apply overlooks_delete in E as (d0 & ? & ?); eauto using step.
    - apply overlooks_acquire in E as (d0 & ? & ?); eauto using step.
    - apply overlooks_release in E as (d0 & ? & ?); eauto using step.
    - apply overlooks_sweep in E as (d0 & ? & ?); eauto using step. }
  exists d1. split_and!; [done|done|]. destruct (quiet_untouched a d d1 Hok Hs1 Hq) as [En _ _ Hsub].
  destruct Hx as (? & ? & ? & Hev). split_and!; [congruence|done|done|]. contradict Hev.
  rewrite list_elem_of_fmap in Hev |- *. destruct Hev as (y & ? & Hy). exists y. split; [done|].
  by eapply elem_of_sublist.
Qed.
Lemma publications_quiet a d d1 d2 :
  log_ok d → publications d d1 → step a d1 d2 → quiet a → ∃ d0, step a d d0 ∧ publications d0 d2.
Proof.
  intros Hok Hp Hs Hq. induction Hp as [d|d dm d1 (ts & ev & meta & data & cr & oc & Hpub) Hp IH].
  { exists d2. split; [done|constructor]. }
  destruct IH as (d0' & Hs' & Hp'); [by eapply step_log_ok|done|].
  destruct (publish_published _ _ _ _ _ _ _ _ Hpub) as (x & Hx & ->).
  destruct (quiet_published a x d d0' Hok Hx Hs' Hq) as (d0 & ? & -> & Hx0).
  exists d0. split; [done|]. etrans; [by apply published_publish|done].
Qed.
Lemma publications_log_ok d d' : log_ok d → publications d d' → log_ok d'.
Proof.
  intros Hok Hp. induction Hp as [|d dm d' (ts & ev & meta & data & cr & oc & Hs) _ IH]; [done|].
  by eapply IH, step_log_ok.
Qed.

(** *** The writes of the transaction under the publishes of others *)
Definition old_rows (t : writes) (d : db) : Prop := Forall (λ n, n.1 < next_id d) (w_seqs t).
Lemma sees_published t x d :
  old_rows t d → publishable x d →
  sees t (published x d) = published x (sees t d) ∧ publishable x (sees t d).
Proof.
  unfold old_rows. rewrite Forall_forall. intros Hold (Hid & Hseq & Hts & Hev). split.
  - unfold sees, published. cbn. f_equal. rewrite fmap_app. f_equal. cbn. f_equal. unfold set_seq.
    destruct (List.find _ _) as [[i s]|] eqn:E; [|done]. exfalso.
    apply List.find_some in E as [Hin%list_elem_of_In E%Z.eqb_eq]. specialize (Hold _ Hin). simpl in *. lia.
  - split_and!; [done|done|done|]. cbn. by rewrite set_seq_events.
Qed.
Lemma sees_publications t d d' :
  old_rows t d → publications d d' → publications (sees t d) (sees t d').
Proof.
  intros Hold Hp. induction Hp as [|d dm d' (ts & ev & meta & data & cr & oc & Hs) _ IH]; [constructor|].
  destruct (publish_published _ _ _ _ _ _ _ _ Hs) as (x & Hx & ->).
  destruct (sees_published t x d Hold Hx) as [E Hx'].
  etrans; [by apply published_publish|]. rewrite <-E. apply IH. unfold old_rows in *. eapply Forall_impl; [exact Hold|].
  intros n Hn. simpl in *. lia.
Qed.
End others.

(** ** Serialising it *)
Section serialised.
Context `{Planner} (limit : Z) (Hlimit : in64 limit).
Context (d0 : db) (Hok0 : log_ok d0).

(** The tables are what publishes made of a state in which the transaction's
    page, and the counter it read, are what they were. *)
Definition rests_on (next k : Z) (ns : list (Z * Z)) (d : db) : Prop :=
  ∃ dq, steps d0 dq ∧ publications dq d ∧ 0 <= limit ∧ counter dq = Some next ∧
    ns = numbered next (page limit dq) ∧ k = zlen (page limit dq).
Lemma rests_on_step next k ns a d d' :
  rests_on next k ns d → step a d d' → (∀ l, a ≠ ASequence l) → rests_on next k ns d'.
Proof.
  intros (dq & Hs & Hp & Hl & Hc & -> & ->) Ha Hns. pose proof (steps_log_ok _ _ Hok0 Hs) as Hok.
  assert ((∃ ts ev meta data cr oc, a = APublish ts ev meta data cr oc) ∨ quiet a)
    as [(ts & ev & meta & data & cr & oc & ->)|Hq].
  { destruct a; simpl; eauto 10. by destruct (Hns limit0). }
  - exists dq. split_and!; try done.
    eapply rtc_r; [exact Hp|]. eauto 10.
  - destruct (publications_quiet a dq d d' Hok Hp Ha Hq) as (dq' & Hs' & Hp').
    destruct (quiet_untouched a dq dq' Hok Hs' Hq) as [_ Ec Epend _].
    assert (page limit dq' = page limit dq) as Epg by (unfold page; by rewrite Epend).
    exists dq'. rewrite Epg. split_and!; try done.
    + eapply rtc_r; [exact Hs|eauto].
    + unfold counter. by rewrite Ec.
Qed.

Definition serial (d : db) (p : phase) : Prop :=
  match p with
  | Begun => steps d0 d
  | Locked next => steps d0 d ∧ counter d = Some next
  | Assigned next k ns => rests_on next k ns d
  | Ready k t => ∃ next ns, rests_on next k ns d ∧ next + k < 2^63 ∧
      (t = mkWrites ns (Some (next + k)) ∨ k = 0 ∧ t = mkWrites ns None)
  | Committed k => ∃ d1 d2, steps d0 d1 ∧ q_sequence limit d1 = inl (d2, k) ∧ publications d2 d
  end.
Lemma counter_bounds d next : log_ok d → counter d = Some next → 1 <= next < 2^63.
Proof. intros Hok Hc. destruct (lo_counter _ Hok) as (n & Hn & Hb & _). congruence. Qed.

Lemma serial_other a d d' p : serial d p → step a d d' → admits p a → serial d' p.
Proof.
  intros Hp Hs Ha. destruct p as [|next|next k ns|k t|k]; simpl in *.
  - eapply rtc_r; eauto.
  - destruct Hp as [Hst Hc]. split; [eapply rtc_r; eauto|]. pose proof (steps_log_ok _ _ Hok0 Hst) as Hok.
    destruct (step_effect a d d' Hok Hs) as [_ _ Eq|ts ev meta x cr oc _ _ _ ->|l n -> _ _ _|c l sub _ _ ->]; [|done|done|done].
    unfold counter. by rewrite Eq.
  - eapply rests_on_step; [done..|]. by intros l ->.
  - destruct Hp as (next & ns & Hr & ?). exists next, ns. split; [|done].
    eapply rests_on_step; [done..|]. by intros l ->.
  - by destruct a.
Qed.
Lemma serial_commit d k t : serial d (Ready k t) → serial (sees t d) (Committed k).
Proof.
  intros (next & ns & (dq & Hs & Hp & Hl & Hc & -> & ->) & Hb & Ht).
  pose proof (steps_log_ok _ _ Hok0 Hs) as Hok. set (pg := page limit dq) in *.
  exists dq, (assigned_db next pg dq). split_and!; [done|apply q_sequence_intro; [unfold in64 in *; lia|done..]|].
  assert (Eseqs : w_seqs t = numbered next pg) by (by destruct Ht as [->|[_ ->]]).
  assert (sees t dq = assigned_db next pg dq) as <-.
  { unfold sees, assigned_db. rewrite Eseqs. f_equal. destruct Ht as [->|[-> ->]]; [done|]. simpl.
    rewrite Z.add_0_r. by rewrite insert_id. }
  apply sees_publications; [|done]. unfold old_rows. rewrite Eseqs. apply Forall_forall. intros n Hn.
  assert (n.1 ∈ r_id <$> pg) as (x & -> & Hx)%list_elem_of_fmap.
  { rewrite <-(numbered_fst next). by apply list_elem_of_fmap_2. }
  apply page_elem in Hx as [Hx _]. pose proof (lo_fresh _ Hok) as Hf. rewrite Forall_forall in Hf. by apply Hf.
Qed.
Lemma serial_step x y : tx_step limit x y → serial x.1 x.2 → serial y.1 y.2.
Proof.
  intros Hs. destruct Hs as [a d d' p Hs Ha|d v next Hq|d v next k Hq|d v next k ns Hk Hq|d next k ns Hk|d k t];
    cbn [fst snd]; intros Hser.
  - by eapply serial_other.
  - split; [done|]. unfold q_lockSequencer in Hq. unfold counter. by destruct (_ !! _); simplify_eq.
  - destruct Hser as [Hs Hc]. unfold q_assignSeq in Hq. destruct (Z.ltb_spec limit 0); [done|].
    case_match; [done|]. injection Hq as _ <-. rewrite numbered_length.
    exists d. split_and!; [done|constructor|done..].
  - exists next, ns. split; [done|]. pose proof Hser as (dq & Hs & _ & Hl & Hc & _ & Ek).
    pose proof (counter_bounds dq next (steps_log_ok _ _ Hok0 Hs) Hc).
    pose proof (page_length limit dq Hl). unfold in64 in Hlimit.
    unfold q_bumpSequencer in Hq. destruct (Z.ltb_spec (wrap64 (next + k)) 0); [done|].
    assert (next + k < 2^63) by (apply wrap64_no_overflow; lia). split; [done|left].
    by rewrite wrap64_id by (unfold in64; lia).
  - exists next, ns. split; [done|]. pose proof Hser as (dq & Hs & _ & Hl & Hc & _ & Ek).
    pose proof (counter_bounds dq next (steps_log_ok _ _ Hok0 Hs) Hc).
    pose proof (page_length limit dq Hl). split; [lia|right]. split; [lia|done].
  - by apply serial_commit.
Qed.
Lemma serial_run x y : rtc (tx_step limit) x y → serial x.1 x.2 → serial y.1 y.2.
Proof. induction 1 as [|x y z Hs _ IH]; [done|]. intros Hx. by eapply IH, serial_step. Qed.
End serialised.

(** C12: sequencing serialises. Between the statements of a sequencing transaction
    any other process may commit, as far as the lock on the counter row admits.
    If it commits, the tables are what they would be had it run alone: in a
    state that the log reaches without it, followed by publishes. So every row
    it numbers was committed and pending then, in (tx_start_ts, id) order, no
    number is given twice, and a row it does not see waits for the next pass. *)
Theorem sequencing_serializes `{Planner} limit d d' k :
  log_ok d → in64 limit → rtc (tx_step limit) (d, Begun) (d', Committed k) →
  ∃ d1 d2, steps d d1 ∧ q_sequence limit d1 = inl (d2, k) ∧ publications d2 d'.
Proof.
  intros Hok Hl Hrun. exact (serial_run limit Hl d Hok _ _ Hrun (rtc_refl _ _)).
Qed.
