(* ===== verification/Tidb.v ===== *)
(** * tidb/store.go: the TiDB publish store and relay store

    Every method over a session: the committed tables, the clock, and for each
    statement to come what other sessions commit before it and how it fares.
    Statements are atomic, as the server runs them; between two of them anything
    may be committed by others. *)
From S2P Require Import Prelude Errors GoLib Event Json Envelope Bound Relay Leader Lane Sequence TidbDb.
#[local] Open Scope Z_scope.

(** ** Sessions *)

(** How one statement fares: the reply arrives; the server never runs it; or it
    runs and its reply is lost. *)
Inductive fate := Reply | Refused (e : err) | Lost (e : err).
Record turn := mkTurn { others : db → db; how : fate; elapsed : Z }.
Record sess := mkSess {
  tables : db; time : Z; link : conn;
  turns : list turn }.        (* none left: alone, and every reply arrives *)

Definition with_tables (s : sess) (d : db) : sess := mkSess d (time s) (link s) (turns s).
(** The next turn begins: others have committed, time has passed. *)
Definition begin_turn (s : sess) : fate * sess :=
  match turns s with
  | [] => (Reply, s)
  | t :: ts => (how t, mkSess (others t (tables s)) (time s + elapsed t) (link s) ts)
  end.

(** One statement on the pool. A context that is done is refused by
    [database/sql] before anything is sent. *)
Definition exec {A} (ctx : cx) (q : conn → stmt A) : M sess (A + err) := λ s,
  match ErrAt ctx (time s) with
  | Some e => (inr e, s)
  | None =>
      let '(f, s) := begin_turn s in
      match f with
      | Refused e => (inr e, s)
      | Reply =>
          match q (link s) (tables s) with
          | inl (d, a) => (inl a, with_tables s d)
          | inr e => (inr e, s)
          end
      | Lost e =>
          match q (link s) (tables s) with
          | inl (d, _) => (inr e, with_tables s d)
          | inr _ => (inr e, s)
          end
      end
  end.

(** The store's clock ([WithClock]). *)
Definition rsNow : M sess Z := gets time.
#[export] Instance sess_host : Host sess := rsNow.

(** ** Configuration *)
Definition defaultRetentionWindow : Z := 7 * 24 * Hour.
Record config := mkConfig { prefix : string; window : Z }.
Definition newConfig (opts : list (config → config)) : config :=
  foldl (λ c opt, opt c) (mkConfig "" defaultRetentionWindow) opts.
(** The options panic on a bad value: [None]. *)
Definition WithTablePrefix (p : string) : option (config → config) :=
  match ValidateInstancePrefix p with
  | Some _ => None
  | None => Some (λ c, mkConfig p (window c))
  end.
Definition WithRetentionWindow (d : Z) : option (config → config) :=
  if d <=? 0 then None else Some (λ c, mkConfig (prefix c) d).

(** ** github.com/google/uuid: a UUID is its 16 bytes *)
Class Uuid := {
  uuid_Parse : string → string + err;
  uuid_String : string → string;
  uuid_FromBytes : string → string + err;
  uuid_Parse_len s b : uuid_Parse s = inl b → len b = 16;
  uuid_FromBytes_len b : len b = 16 → uuid_FromBytes b = inl b }.

(** [strings.Contains] *)
Fixpoint Contains (s sub : string) : bool :=
  HasPrefix s sub || match s with EmptyString => false | String _ s => Contains s sub end.

Definition isDuplicateKeyOn (e : err) (index : string) : bool :=
  match As asMySQL (Some e) with Some (n, m) => (n =? 1062) && Contains m index | None => false end.
Definition isDuplicateKey (e : err) : bool :=
  match As asMySQL (Some e) with Some (n, _) => n =? 1062 | None => false end.
Definition isNullColumn (e : err) (col : string) : bool :=
  match As asMySQL (Some e) with Some (n, m) => (n =? 1048) && Contains m col | None => false end.

Section store.
Context `{UrlStruct} `{GoJson} `{Uuid} `{Planner}.

(** ** The publish store: [ts] is its transaction's start timestamp *)
Definition CreateOutboxMessage (ts : Z) (ctx : cx) (m : Message) : M sess error :=
  match ValidateMetadata (MsgMetadata m) with
  | Some e => mret (Some e)
  | None =>
  match MsgMetadata m, uuid_Parse (MsgID m) with
  | Some md, inl id =>
      match MarshalMetadata (Some md) with
      | inr e => mret (Some e)
      | inl meta =>
          let data := Some (default ""%string (Data m)) in
          t ← rsNow;
          r ← exec ctx (λ _, q_insert ts id meta data t (Event.Time md));
          mret (match r : unit + err with
                | inl _ => None
                | inr e =>
                    if isNullColumn e "tx_start_ts"
                    then Some (wrapf "outbox: CreateOutboxMessage must run inside a transaction" e)
                    else if isDuplicateKeyOn e "uk_outbox_event"
                    then Some (Errorf "event is already in the outbox"
                                 [Sentinel ErrAlreadyPublished; e])
                    else Some (wrapf "outbox: insert" e)
                end)
      end
  | _, inr e => mret (Some (wrapf "outbox: message ID is not a UUID" e))
  | None, _ => mret (Some (New "outbox: message metadata is nil"))
  end end.

(** ** The relay store *)

(** The loop over the rows: the decoded prefix, and where it stopped. *)
Fixpoint decodeRows (buf : list Message) (rows : list row) : list Message * error :=
  match rows with
  | [] => (buf, None)
  | r :: rows =>
      match uuid_FromBytes (r_event r) with
      | inr e => ([], Some (wrapf "outbox: event_id not a uuid" e))
      | inl id =>
          match UnmarshalMetadata (Some (r_meta r)) with
          | inr e => (buf, Some (Typed (TSeqDecode (uuid_String id) (seq_of r)) [e]))
          | inl md =>
              decodeRows (buf ++ [mkMessage (uuid_String id) (seq_of r) (Some md)
                                    (Some (r_data r)) (r_create r)]) rows
          end
      end
  end.
Definition ListMessages (ctx : cx) (afterSeq limit : Z) : M sess (list Message * error) :=
  rows ← exec ctx (λ _, q_list afterSeq limit);
  mret (match rows : list row + err with
        | inr e => ([], Some (wrapf "outbox: list" e))
        | inl rows => decodeRows [] rows
        end).

Definition Offset (ctx : cx) (name : string) : M sess (res (Z * bool)) :=
  r ← exec ctx (λ _, q_offset name);
  mret (match r : Z + err with
        | inl seq => inl (seq, true)
        | inr e => if is_err e ErrNoRows then inl (0, false) else inr (wrapf "outbox: offset" e)
        end).

Definition CommitOffset (ctx : cx) (name : string) (seq : Z) : M sess error :=
  t ← rsNow;
  r ← exec ctx (λ c, q_commitOffset c name seq t);
  mret (match r : Z + err with inl _ => None | inr e => Some (wrapf "outbox: commit offset" e) end).

Definition holdsLeaderLock (ctx : cx) (name holderID : string) : M sess (res bool) :=
  r ← exec ctx (λ _, q_readLockHold name);
  mret (match r : string + err with
        | inl holder => inl (String.eqb holder holderID)
        | inr e => if is_err e ErrNoRows then inl false else inr (wrapf "outbox: read lock holder" e)
        end).

Definition CommitOffsetFenced (ctx : cx) (name lockName holderID : string) (seq : Z) :
    M sess (res bool) :=
  t ← rsNow;
  r ← exec ctx (λ c, q_commitFenced c name lockName holderID seq t);
  match r : Z + err with
  | inr e => mret (inr (wrapf "outbox: commit offset (fenced)" e))
  | inl n => if 0 <? n then mret (inl true) else holdsLeaderLock ctx lockName holderID
  end.

Definition StoreNow (ctx : cx) : M sess (res Z) := t ← rsNow; mret (inl t).

Definition InitOffsetLatest (ctx : cx) (name : string) : M sess (res Z) :=
  t ← rsNow;
  r ← exec ctx (λ _, q_initOffset name t);
  let readBack :=
    v ← exec ctx (λ _, q_offset name);
    mret (ewrap "outbox: init offset latest read back" (v : Z + err)) in
  match r : unit + err with
  | inr e => if isDuplicateKey e then readBack else mret (inr (wrapf "outbox: init offset latest" e))
  | inl _ => readBack
  end.

Definition DeleteOffset (ctx : cx) (name : string) : M sess error :=
  r ← exec ctx (λ _, q_deleteOffset name);
  mret (match r : unit + err with inl _ => None | inr e => Some (wrapf "outbox: delete offset" e) end).

(** *** The sequencing transaction

    The counter row stays locked from [q_lockSequencer] to the end, so no other
    sequencer runs in between; what publishers, relays and sweepers commit
    meanwhile can be moved before or after the transaction ([TidbTx] proves it,
    over transactions whose statements are interleaved with the others), so here
    the others have their turns outside it. The writes become visible together at COMMIT:
    [view] is what the transaction sees. A failed ROLLBACK discards the
    connection, and the server rolls back with it. *)
Definition txfate (f : fate) : option err :=
  match f with Reply => None | Refused e | Lost e => Some e end.
Definition pop : M sess fate := λ s,
  match turns s with
  | [] => (Reply, s)
  | t :: ts => (how t, mkSess (tables s) (time s + elapsed t) (link s) ts)
  end.
(** A statement inside the transaction. *)
Definition within {A} (ctx : cx) (q : stmt A) (view : db) : M sess ((db * A) + err) :=
  t ← rsNow;
  match ErrAt ctx t with
  | Some e => mret (inr e)
  | None =>
      f ← pop;
      mret (match txfate f with Some e => inr e | None => q view end)
  end.
(** COMMIT: the one statement whose lost reply leaves the writes in place. *)
Definition commit (ctx : cx) (view : db) : M sess error :=
  t ← rsNow;
  match ErrAt ctx t with
  | Some e => mret (Some e)
  | None =>
      f ← pop;
      match f with
      | Reply => _ ← modify (λ s, with_tables s view); mret None
      | Refused e => mret (Some e)
      | Lost e => _ ← modify (λ s, with_tables s view); mret (Some e)
      end
  end.

Definition sequenceLocked (ctx : cx) (limit : Z) : M sess (res Z) :=
  view0 ← gets tables;
  r ← within ctx q_lockSequencer view0;
  match r : (db * Z) + err with
  | inr e =>
      mret (inr (if is_err e ErrNoRows then wrapf "outbox: the sequencer counter row is missing" e
                 else wrapf "outbox: lock sequencer" e))
  | inl (view, next) =>
      r ← within ctx (q_assignSeq limit next) view;
      match r : (db * Z) + err with
      | inr e => mret (inr (wrapf "outbox: assign seq" e))
      | inl (view, assigned) =>
          r ← (if 0 <? assigned
               then within ctx (q_bumpSequencer (wrap64 (next + assigned))) view
               else mret (inl (view, tt)));
          match r : (db * unit) + err with
          | inr e => mret (inr (wrapf "outbox: bump sequencer" e))
          | inl (view, _) =>
              e ← commit ctx view;
              mret (match e : error with
                    | Some e => inr (wrapf "outbox: commit sequence tx" e)
                    | None => inl assigned
                    end)
          end
      end
  end.

Definition SequenceMessages (ctx : cx) (limit : Z) : M sess (res Z) :=
  r ← exec ctx (λ _, q_probePending);
  match r : unit + err with
  | inr e => mret (if is_err e ErrNoRows then inl 0 else inr (wrapf "outbox: probe pending" e))
  | inl _ =>
      (* [db.Conn] and BEGIN PESSIMISTIC *)
      r ← exec ctx (λ _ d, inl (d, tt));
      match r : unit + err with
      | inr e => mret (inr (wrapf "outbox: begin sequence tx" e))
      | inl _ => sequenceLocked ctx limit
      end
  end.

Definition TryAcquireLeaderLock (ctx : cx) (name holderID : string) (ttl : Z) : M sess (res bool) :=
  now ← rsNow;
  r ← exec ctx (λ c, q_acquireLock c name holderID (now + ttl) now);
  match r : Z + err with
  | inr e => mret (inr (wrapf "outbox: acquire lock" e))
  | inl outcome =>
      if outcome =? lockTaken then mret (inl true)
      else if outcome =? lockLost then mret (inl false)
      else if outcome =? lockUnreported then holdsLeaderLock ctx name holderID
      else mret (inr (New "outbox: acquire lock: unexpected outcome"))
  end.

Definition ReleaseLeaderLock (ctx : cx) (name holderID : string) : M sess error :=
  r ← exec ctx (λ _, q_releaseLock name holderID);
  mret (match r : unit + err with inl _ => None | inr e => Some (wrapf "outbox: release lock" e) end).

Definition SweepMessages (retention : Z) (ctx : cx) (limit : Z) : M sess (res Z) :=
  t ← rsNow;
  r ← exec ctx (λ _, q_sweep (t - retention) limit);
  mret (match r : Z + err with inl n => inl n | inr e => inr (wrapf "outbox: sweep" e) end).

(** ** What the relay is given *)
Definition relay_store : Sequence.Store sess :=
  mkStore ListMessages Offset CommitOffset InitOffsetLatest.
Definition relay_leader : LeaderStore sess := mkLeaderStore TryAcquireLeaderLock ReleaseLeaderLock.
Definition relay_capabilities (retention : Z)
    (batch : option (cx → list Outgoing → M sess (Z * error))) : capabilities :=
  mkCapabilities (Some relay_leader) (Some SequenceMessages) (Some CommitOffsetFenced)
    (Some (SweepMessages retention)) (Some StoreNow) batch.
End store.
