(* ===== verification/TidbProps.v ===== *)
(** * What the TiDB store guarantees

    The methods of tidb/store.go against the transition system of the log: each
    is a sequence of its steps whatever other sessions do and whichever replies
    get lost; and the contract each gives the relay. *)
From S2P Require Import Prelude Errors GoLib Event Json Envelope Bound Relay Leader Lane Scenario Sequence TidbDb TidbLog Tidb.
From stdpp Require Import sorting.
#[local] Open Scope Z_scope.

(** ** Methods are sequences of steps

    The development of this part is for any preorder [R] on the tables, which the
    other sessions keep to; [steps] is the first such relation. *)
Section generic.
Context `{UrlStruct} `{GoJson} `{Uuid} `{Planner}.
Context (R : relation db) `{!PreOrder R}.

(** Other sessions commit nothing but changes in [R]. *)
Definition others_in (s : sess) : Prop := Forall (λ t, ∀ d, R d (others t d)) (turns s).
Definition within_rel {A} (m : M sess A) : Prop :=
  ∀ s, others_in s → R (tables s) (tables (m s).2) ∧ others_in (m s).2.
(** A statement whose effect is in [R]. *)
Definition effect_in {A} (q : conn → stmt A) : Prop :=
  ∀ c d d' a, q c d = inl (d', a) → R d d'.

Lemma within_rel_ret {A} (a : A) : within_rel (mret a).
Proof. intros s Hs. split; [reflexivity|done]. Qed.
Lemma within_rel_gets {A} (f : sess → A) : within_rel (gets f).
Proof. intros s Hs. split; [reflexivity|done]. Qed.
Lemma within_rel_bind {A B} (m : M sess A) (f : A → M sess B) :
  within_rel m → (∀ a, within_rel (f a)) → within_rel (m ≫= f).
Proof.
  intros Hm Hf s Hs. destruct (Hm s Hs) as [St1 Fr1]. destruct (Hf (m s).1 (m s).2 Fr1) as [St2 Fr2].
  split; [|exact Fr2]. etrans; [exact St1|exact St2].
Qed.
Lemma begin_turn_in s :
  others_in s → R (tables s) (tables (begin_turn s).2) ∧ others_in (begin_turn s).2.
Proof.
  intros Hs. unfold begin_turn. destruct (turns s) as [|t ts] eqn:E; [split; [reflexivity|done]|].
  unfold others_in in *. rewrite E in Hs. apply Forall_cons in Hs as [Ht Hts]. simpl. auto.
Qed.
Lemma exec_in {A} ctx (q : conn → stmt A) : effect_in q → within_rel (exec ctx q).
Proof.
  intros Hq s Hs. unfold exec. destruct (ErrAt ctx (time s)); [split; [reflexivity|done]|].
  destruct (begin_turn_in s Hs) as [St1 Fr1]. destruct (begin_turn s) as [f s']. simpl in *.
  destruct f; [|done|]; destruct (q (link s') (tables s')) as [[d a]|] eqn:E; simpl; try done;
    (split; [etrans; [exact St1|by eapply Hq]|done]).
Qed.
Lemma effect_read {A} (q : conn → stmt A) :
  (∀ c d d' a, q c d = inl (d', a) → d' = d) → effect_in q.
Proof. intros Hq c d d' a ->%Hq. reflexivity. Qed.

Lemma within_state {A} ctx (q : stmt A) view s :
  tables (within ctx q view s).2 = tables s ∧
  (others_in s → others_in (within ctx q view s).2).
Proof.
  unfold within. rewrite run_bind. unfold rsNow. rewrite run_gets. simpl.
  destruct (ErrAt ctx (time s)); [done|]. rewrite run_bind. unfold pop.
  destruct (turns s) as [|t ts] eqn:E; simpl; [done|]. split; [done|].
  unfold others_in. rewrite E. simpl. by intros [_ ?]%Forall_cons.
Qed.
Lemma within_result {A} ctx (q : stmt A) view s d a :
  (within ctx q view s).1 = inl (d, a) → q view = inl (d, a).
Proof.
  unfold within. rewrite run_bind. unfold rsNow. rewrite run_gets. simpl.
  destruct (ErrAt ctx (time s)); [done|]. rewrite run_bind. unfold pop.
  destruct (turns s) as [|t ts]; simpl; [done|]. by destruct (how t).
Qed.

(** The sequencing transaction leaves the tables alone or commits all of its
    effect. *)
Lemma sequenceLocked_atomic ctx limit s :
  let '(r, s') := sequenceLocked ctx limit s in
  (others_in s → others_in s') ∧
  (tables s' = tables s ∧ (∃ e, r = inr e) ∨
   ∃ k, q_sequence limit (tables s) = inl (tables s', k) ∧ (r = inl k ∨ ∃ e, r = inr e)).
Proof.
  destruct (sequenceLocked ctx limit s) as [r s'] eqn:E. unfold sequenceLocked in E.
  rewrite run_bind, run_gets in E. cbn [fst snd] in E.
  rewrite run_bind in E.
  pose proof (within_state ctx q_lockSequencer (tables s) s) as [Ht1 Hf1].
  pose proof (within_result ctx q_lockSequencer (tables s) s) as Hr1.
  destruct (within ctx q_lockSequencer (tables s) s) as [[[v1 next]|e] s1]; simpl in *.
  2: { injection E as <- <-. split; [done|]. left. eauto. }
  specialize (Hr1 _ _ eq_refl). rewrite run_bind in E.
  pose proof (within_state ctx (q_assignSeq limit next) v1 s1) as [Ht2 Hf2].
  pose proof (within_result ctx (q_assignSeq limit next) v1 s1) as Hr2.
  destruct (within ctx (q_assignSeq limit next) v1 s1) as [[[v2 k]|e] s2]; simpl in *.
  2: { injection E as <- <-. split; [auto|]. left. split; [congruence|eauto]. }
  specialize (Hr2 _ _ eq_refl). rewrite run_bind in E.
  set (bump := if 0 <? k then _ else _) in E.
  assert (Hb : tables (bump s2).2 = tables s2 ∧ (others_in s2 → others_in (bump s2).2) ∧
    ∀ v3 u, (bump s2).1 = inl (v3, u) → q_sequence limit (tables s) = inl (v3, k)).
  { unfold q_sequence, sthen. rewrite Hr1, Hr2. subst bump. destruct (0 <? k).
    - pose proof (within_state ctx (q_bumpSequencer (wrap64 (next + k))) v2 s2) as [Ht3 Hf3].
      pose proof (within_result ctx (q_bumpSequencer (wrap64 (next + k))) v2 s2) as Hr3.
      split_and!; [done|done|]. intros v3 u Hu. by rewrite (Hr3 _ _ Hu).
    - split_and!; [done|done|]. intros v3 u [= <- <-]. done. }
  destruct Hb as (Ht3 & Hf3 & Hr3). destruct (bump s2) as [[[v3 u]|e] s3]; simpl in *.
  2: { injection E as <- <-. split; [auto|]. left. split; [congruence|eauto]. }
  specialize (Hr3 _ _ eq_refl). rewrite run_bind in E. unfold commit in E.
  rewrite run_bind in E. unfold rsNow in E. rewrite run_gets in E. simpl in E.
  destruct (ErrAt ctx (time s3)); simpl in E.
  { injection E as <- <-. split; [auto|]. left. split; [congruence|eauto]. }
  rewrite run_bind in E. unfold pop in E.
  assert (Hfr : ∀ t ts, turns s3 = t :: ts → others_in s3 →
                Forall (λ t, ∀ d, R d (others t d)) ts).
  { unfold others_in. intros t ts -> [_ ?]%Forall_cons. done. }
  destruct (turns s3) as [|t ts] eqn:Et; simpl in E.
  - injection E as <- <-. simpl. split.
    + intros Hs. unfold others_in. simpl. by rewrite Et.
    + right. eauto.
  - destruct (how t); simpl in E; injection E as <- <-; simpl.
    + split; [intros Hs; unfold others_in; simpl; eauto|]. right. eauto.
    + split; [intros Hs; unfold others_in; simpl; eauto|]. left. split; [congruence|eauto].
    + split; [intros Hs; unfold others_in; simpl; eauto|]. right. eauto.
Qed.


(** Reads leave the tables alone. *)
Lemma effect_reads :
  (∀ a l, effect_in (λ _, q_list a l)) ∧ (∀ n, effect_in (λ _, q_offset n)) ∧
  (∀ n, effect_in (λ _, q_readLockHold n)) ∧ effect_in (λ _, q_probePending) ∧
  effect_in (λ _ d, inl (d, tt)).
Proof.
  split_and!; intros; apply effect_read; intros c d d' a';
    unfold q_list, q_offset, q_readLockHold, q_probePending; repeat case_match; congruence.
Qed.
Lemma sequenceLocked_in ctx limit :
  (∀ d d' k, q_sequence limit d = inl (d', k) → R d d') → within_rel (sequenceLocked ctx limit).
Proof.
  intros Hl s Hs. pose proof (sequenceLocked_atomic ctx limit s) as Ha.
  destruct (sequenceLocked ctx limit s) as [r s']. destruct Ha as [Hf Ha]. split; [|auto].
  cbn [snd]. destruct Ha as [[-> _]|(k & Hq & _)]; [reflexivity|by eapply Hl].
Qed.
End generic.

(** Runs down a method to its statements; what is left are their effects. *)
Ltac run_statements :=
  repeat first
    [ eassumption | apply within_rel_ret; apply _ | apply within_rel_gets; apply _
    | apply exec_in; [apply _|first [apply effect_reads; apply _|idtac]]
    | apply within_rel_bind; [apply _| |intros ?] | case_match ].

(** ** The steps of the log *)
Section refinement.
Context `{UrlStruct} `{GoJson} `{Uuid} `{Planner}.
Definition friendly : sess → Prop := others_in steps.

(** The methods a process may call, in any order. *)
Inductive call :=
| CCreate (ts : Z) (m : Message)
| CList (after limit : Z)
| COffset (name : string)
| CCommit (name : string) (seq : Z)
| CFenced (name lockName holder : string) (seq : Z)
| CInit (name : string)
| CDelete (name : string)
| CSequence (limit : Z)
| CTryAcquire (name holder : string) (ttl : Z)
| CRelease (name holder : string)
| CSweep (retention limit : Z).
Definition ignore {A} (m : M sess A) : M sess unit := _ ← m; mret tt.
Definition perform (ctx : cx) (c : call) : M sess unit :=
  match c with
  | CCreate ts m => ignore (CreateOutboxMessage ts ctx m)
  | CList after limit => ignore (ListMessages ctx after limit)
  | COffset name => ignore (Offset ctx name)
  | CCommit name seq => ignore (CommitOffset ctx name seq)
  | CFenced name lockName holder seq => ignore (CommitOffsetFenced ctx name lockName holder seq)
  | CInit name => ignore (InitOffsetLatest ctx name)
  | CDelete name => ignore (DeleteOffset ctx name)
  | CSequence limit => ignore (SequenceMessages ctx limit)
  | CTryAcquire name holder ttl => ignore (TryAcquireLeaderLock ctx name holder ttl)
  | CRelease name holder => ignore (ReleaseLeaderLock ctx name holder)
  | CSweep retention limit => ignore (SweepMessages retention ctx limit)
  end.
Fixpoint performs (ctx : cx) (cs : list call) : M sess unit :=
  match cs with [] => mret tt | c :: cs => _ ← perform ctx c; performs ctx cs end.
(** A batch limit is a Go int. *)
Definition call_ok (c : call) : Prop := match c with CSequence limit => in64 limit | _ => True end.

(** Every statement that is not a read is one step. *)
Lemma step_effects :
  (∀ ts e m x cr oc, effect_in steps (λ _, q_insert ts e m x cr oc)) ∧
  (∀ n q t, effect_in steps (λ c, q_commitOffset c n q t)) ∧
  (∀ n lk h q t, effect_in steps (λ c, q_commitFenced c n lk h q t)) ∧
  (∀ n t, effect_in steps (λ _, q_initOffset n t)) ∧ (∀ n, effect_in steps (λ _, q_deleteOffset n)) ∧
  (∀ n h dl t, effect_in steps (λ c, q_acquireLock c n h dl t)) ∧
  (∀ n h, effect_in steps (λ _, q_releaseLock n h)) ∧ (∀ cut l, effect_in steps (λ _, q_sweep cut l)).
Proof.
  split_and!; intros; intros c d d' r;
    try match type of r with unit => destruct r end; intros Hq; apply rtc_once; eexists.
  - exact (step_publish _ _ _ _ _ _ _ _ Hq).
  - exact (step_commit _ _ _ _ _ _ _ Hq).
  - exact (step_fenced _ _ _ _ _ _ _ _ _ Hq).
  - exact (step_init _ _ _ _ Hq).
  - exact (step_delete _ _ _ Hq).
  - exact (step_acquire _ _ _ _ _ _ _ _ Hq).
  - exact (step_release _ _ _ _ Hq).
  - exact (step_sweep _ _ _ _ _ Hq).
Qed.
#[local] Instance steps_preorder : PreOrder steps.
Proof. unfold steps. apply _. Qed.
Lemma perform_steps ctx c : call_ok c → within_rel steps (perform ctx c).
Proof.
  intros Hc. assert (Hsl : ∀ l, in64 l → within_rel steps (sequenceLocked ctx l)).
  { intros l Hl. apply sequenceLocked_in; [apply _|]. intros. apply rtc_once. eexists.
    by eapply step_sequence. }
  destruct c as [| | | | | | |limit| | |]; simpl; try specialize (Hsl limit Hc);
    unfold SequenceMessages, ignore, CreateOutboxMessage, ListMessages, Offset, CommitOffset, CommitOffsetFenced,
      InitOffsetLatest, DeleteOffset, TryAcquireLeaderLock, ReleaseLeaderLock, SweepMessages,
      holdsLeaderLock; run_statements; apply step_effects.
Qed.
Lemma performs_steps ctx cs : Forall call_ok cs → within_rel steps (performs ctx cs).
Proof.
  induction 1 as [|c cs Hc _ IH]; simpl; [apply within_rel_ret; apply _|].
  apply within_rel_bind; [apply _|by apply perform_steps|done].
Qed.

(** C10: any run of publish-store and relay-store calls, interleaved with other
    processes at every statement and with any of its replies lost, is a sequence
    of steps of the log; so from the migrated schema on, the log is always
    sound: row ids, event ids and seqs are unique, and every seq is below the
    sequencer's counter. *)
Theorem calls_refine_log ctx cs s :
  Forall call_ok cs → friendly s → reachable (tables s) →
  let s' := (performs ctx cs s).2 in
  steps (tables s) (tables s') ∧ reachable (tables s') ∧ log_ok (tables s').
Proof.
  intros Hcs Hs Hr s'. destruct (performs_steps ctx cs Hcs s Hs) as [Hst _].
  split; [done|]. assert (reachable (tables s')) as Hr' by (unfold reachable, steps in *; by etrans).
  split; [done|]. eapply steps_log_ok, Hr'. apply migrated_ok.
Qed.
End refinement.

(** ** The log *)
Section log.
Context `{Planner}.

(** C11: nothing is ever sequenced behind a number already handed out: whatever
    is committed later, a row whose seq lies below today's counter is a row that
    is in the log today, unchanged, with that seq. A relay that has read up to a
    seq has therefore read everything up to it, for good. *)
Theorem no_row_behind d d' r s :
  reachable d → steps d d' → r ∈ messages d' → r_seq r = Some s → s < cnt d → r ∈ messages d.
Proof.
  intros Hd Hs Hr Hrs Hlt. pose proof (steps_log_ok _ _ migrated_ok Hd) as Hok.
  assert (grown d d') as [_ _ Hg].
  { clear -Hs Hok. induction Hs as [|d d1 d2 [a Ha] _ IH]; [apply grown_refl|].
    eapply grown_trans; [by eapply step_grown|]. by eapply IH, step_log_ok. }
  destruct (Hg r Hr) as [(r0 & Hr0 & (?&?&?&?&?&?&?) & [E|(E & s' & Es & Hle)])|[_ Hle]].
  - assert (r = r0) as ->; [|done]. destruct r, r0; simpl in *; congruence.
  - assert (s = s') by congruence. lia.
  - specialize (Hle s Hrs). lia.
Qed.

(** What one step does to a row. *)
Lemma step_row a d d' r :
  log_ok d → step a d d' → r ∈ messages d →
  (∃ r', r' ∈ messages d' ∧ same_row r' r ∧ (r_seq r ≠ None → r_seq r' = r_seq r)) ∨
  (∃ cutoff limit s, a = ASweep cutoff limit ∧ r_seq r = Some s ∧ r_create r < cutoff ∧
     offsets d ≠ ∅ ∧ ∀ name l u, offsets d !! name = Some (l, u) → s <= l).
Proof.
  intros Hok Hs Hr. pose proof (step_effect a d d' Hok Hs) as He.
  destruct He as [Hm _ _|ts ev meta x cr oc _ _ _ ->|limit next _ Hc Hk ->|cut limit l -> Hsub ->].
  - left. exists r. rewrite Hm. eauto using same_row_refl.
  - left. exists r. simpl. rewrite elem_of_app. eauto using same_row_refl.
  - left. exists (set_seq (numbered next (page limit d)) r). simpl. split; [apply list_elem_of_fmap; eauto|].
    split; [apply set_seq_same|]. intros Hseq. unfold set_seq.
    destruct (List.find _ _) as [[i s]|] eqn:E; [|done]. exfalso. apply Hseq.
    apply find_numbered_Some in E as [Hin Hid].
    assert (i ∈ (numbered next (page limit d)).*1) as Hi by (apply list_elem_of_fmap; exists (i, s); eauto).
    rewrite numbered_fst in Hi. apply list_elem_of_fmap in Hi as (p & Hp & [Hpm Hps]%page_ok).
    assert (r = p) as ->; [|done].
    apply (NoDup_fmap_eq r_id (messages d)); eauto using lo_ids. simpl in Hid. congruence.
  - inversion Hs as [| | | | | | | |cut' limit' d0 d0' n Hq]; subst. unfold q_sweep in Hq.
    destruct (limit <? 0); [done|]. injection Hq as Hl _. set (gone := ztake _ _) in Hl.
    destruct (existsb (λ g, r_id g =? r_id r) gone) eqn:E.
    + right. apply existsb_exists in E as (g & Hg%list_elem_of_In & Heq%Z.eqb_eq).
      assert (g ∈ filter (sweepable d cut) (messages d)) as Hgf.
      { rewrite <-(scan_perm (filter _ _)). eapply elem_of_prefix; [exact Hg|apply ztake_prefix]. }
      apply list_elem_of_filter in Hgf as [Hsw Hgm].
      assert (r = g) as -> by (apply (NoDup_fmap_eq r_id (messages d)); eauto using lo_ids).
      unfold sweepable in Hsw. destruct (r_seq g) as [s|] eqn:Egs; [|done].
      apply Is_true_true, andb_true_iff in Hsw as [Hcon Hcr]. exists cut, limit, s. zbool.
      unfold consumed in Hcon. destruct (map_to_list (offsets d)) as [|o os] eqn:Eo; [done|].
      split_and!; try done.
      * intros Hempty. rewrite Hempty, map_to_list_empty in Eo. done.
      * intros name l' u Hl'. apply elem_of_map_to_list in Hl'. rewrite Eo in Hl'.
        rewrite forallb_forall in Hcon. specialize (Hcon _ (proj1 (list_elem_of_In _ _) Hl')).
        simpl in Hcon. lia.
    + left. exists r. split; [|eauto using same_row_refl]. simpl. rewrite <-Hl. simpl.
      apply list_elem_of_filter. rewrite E. done.
Qed.

(** C16: the only statement that removes a row is the sweep, and it removes only
    rows that carry a seq at or below every registered group's watermark (of
    which there is one at least) and are older than the cutoff; every other row
    survives every step, and loses neither its content nor its seq. *)
Theorem only_consumed_removed a d d' r :
  log_ok d → step a d d' → r ∈ messages d →
  (∃ r', r' ∈ messages d' ∧ same_row r' r ∧ (r_seq r ≠ None → r_seq r' = r_seq r)) ∨
  (∃ cutoff limit s, a = ASweep cutoff limit ∧ r_seq r = Some s ∧ r_create r < cutoff ∧
     offsets d ≠ ∅ ∧ ∀ name l u, offsets d !! name = Some (l, u) → s <= l).
Proof. apply step_row. Qed.

(** Steps other than the removal of a group. *)
Definition keeping : relation db := rtc (λ d d', ∃ a, step a d d' ∧ ∀ n, a ≠ ADelete n).
Lemma upsert_monotone c d name seq t n l u :
  offsets d !! n = Some (l, u) →
  ∃ l' u', offsets (upsert c d name seq t).1 !! n = Some (l', u') ∧ l <= l'.
Proof.
  intros Hl. unfold upsert. destruct (offsets d !! name) as [[l0 u0]|] eqn:E.
  - case_match; simpl; [eauto with lia|]. destruct (decide (n = name)) as [->|].
    + rewrite lookup_insert_eq. rewrite Hl in E. injection E as <- <-. eauto with lia.
    + rewrite lookup_insert_ne by done. eauto with lia.
  - simpl. rewrite lookup_insert_ne by congruence. eauto with lia.
Qed.

(** A group's watermark never moves back: not by a plain commit, a fenced
    commit, a stale one, an initialisation or any step of another process, save
    the removal of a group. *)
Theorem watermark_monotone d d' name l u :
  keeping d d' → offsets d !! name = Some (l, u) →
  ∃ l' u', offsets d' !! name = Some (l', u') ∧ l <= l'.
Proof.
  intros Hk. revert l u. induction Hk as [d|d d1 d2 (a & Ha & Hnd) _ IH]; intros l u Hl; [eauto with lia|].
  assert (∃ l1 u1, offsets d1 !! name = Some (l1, u1) ∧ l <= l1) as (l1 & u1 & H1 & Hle).
  { pose proof (λ c n q t, upsert_monotone c d n q t name l u Hl) as Hup.
    destruct Ha as [? ? ? ? ? ? d d' Hq|c n q t d d' k Hq|c n lk h q t d d' k Hq|n t d d' Hq|n d d' Hq
      |limit d d' k Hlim Hq|c n h dl nw d d' k Hq|n h d d' Hq|cut limit d d' k Hq].
    - apply q_insert_elim in Hq as (x & -> & _ & _ & ->). eauto with lia.
    - unfold q_commitOffset in Hq. case_match; [done|]. injection Hq as Hq.
      specialize (Hup c n q t). by rewrite Hq in Hup.
    - unfold q_commitFenced, q_commitOffset in Hq. case_match; [|injection Hq as <- <-; eauto with lia].
      case_match; [done|]. injection Hq as Hq. specialize (Hup c n q t). by rewrite Hq in Hup.
    - unfold q_initOffset in Hq. destruct (offsets d !! n) eqn:E; [done|]. injection Hq as <-. simpl.
      rewrite lookup_insert_ne by congruence. eauto with lia.
    - by destruct (Hnd n).
    - unfold q_sequence, sthen, q_lockSequencer, q_assignSeq, q_bumpSequencer in Hq.
      repeat case_match; simplify_eq; simpl; eauto with lia.
    - unfold q_acquireLock in Hq. destruct (locks d !! n) as [[h' ex]|]; injection Hq as <- <-; simpl; eauto with lia.
    - unfold q_releaseLock in Hq. injection Hq as <-. case_match; simpl; eauto with lia.
    - unfold q_sweep in Hq. case_match; [done|]. injection Hq as <- <-. simpl. eauto with lia. }
  destruct (IH l1 u1 H1) as (l2 & u2 & ? & ?). exists l2, u2. split; [done|lia].
Qed.
End log.
