(* ===== verification/TidbContract.v ===== *)
(** * The contract the TiDB store gives the relay, method by method *)
From S2P Require Import Prelude Errors GoLib Event Json Envelope Bound Relay Leader Lane Scenario Sequence TidbDb TidbLog Tidb TidbProps.
From stdpp Require Import sorting.
#[local] Open Scope Z_scope.

(** The tables as the next statement finds them: others went first. *)
Definition found (s : sess) : db := tables (begin_turn s).2.

Lemma exec_cases {A} ctx (q : conn → stmt A) s :
  ErrAt ctx (time s) = None →
  let s0 := (begin_turn s).2 in
  match q (link s) (found s) with
  | inl (d, a) =>
      exec ctx q s = (inl a, with_tables s0 d) ∨
      ∃ e, exec ctx q s = (inr e, with_tables s0 d) ∨ exec ctx q s = (inr e, s0)
  | inr e => ∃ e', exec ctx q s = (inr e', s0) ∧ (turns s = [] → e' = e)
  end.
Proof.
  intros Hc s0. unfold exec. rewrite Hc. unfold found, begin_turn in *.
  destruct (turns s) as [|t ts]; simpl in *.
  - destruct (q (link s) (tables s)) as [[d a]|e]; eauto.
  - destruct (q (link s) (others t (tables s))) as [[d a]|e]; destruct (how t);
      try (left; reflexivity); eauto; try (eexists; split; [reflexivity|done]).
Qed.
Lemma exec_alone {A} ctx (q : conn → stmt A) s :
  ErrAt ctx (time s) = None → turns s = [] →
  exec ctx q s = match q (link s) (tables s) with
                 | inl (d, a) => (inl a, with_tables s d)
                 | inr e => (inr e, s)
                 end.
Proof. intros Hc Ht. unfold exec, begin_turn. by rewrite Hc, Ht. Qed.

Section contract.
Context `{UrlStruct} `{GoJson} `{Uuid} `{Planner}.

(** ** Leadership *)

(** Nobody else takes the lock in this holder's name. *)
Definition own_name (lk h : string) (s : sess) : Prop :=
  Forall (λ t, ∀ d, holds (others t d) lk h = true → holds d lk h = true) (turns s).

Lemma own_name_begin lk h s : own_name lk h s → own_name lk h (begin_turn s).2.
Proof.
  unfold begin_turn, own_name. destruct (turns s) as [|t ts] eqn:E; simpl; [by rewrite E|].
  by intros [_ ?]%Forall_cons.
Qed.
Lemma holdsLeaderLock_true ctx lk h s :
  own_name lk h s → (holdsLeaderLock ctx lk h s).1 = inl true → holds (tables s) lk h = true.
Proof.
  intros Hown Hr. unfold holdsLeaderLock in Hr. rewrite run_bind in Hr. revert Hr.
  unfold exec. destruct (ErrAt ctx (time s)) as [e|]; [simpl; by case_match|].
  assert (Hback : holds (found s) lk h = true → holds (tables s) lk h = true).
  { unfold found, begin_turn, own_name in *. destruct (turns s); [done|].
    apply Forall_cons in Hown as [Ht _]. simpl. apply Ht. }
  unfold found in Hback. destruct (begin_turn s) as [f s']. simpl in Hback.
  assert (Hq : ∀ d a, q_readLockHold lk (tables s') = inl (d, a) →
            String.eqb a h = true → holds (tables s') lk h = true).
  { unfold q_readLockHold, holds. intros d a. destruct (locks _ !! lk) as [[h' ?]|]; [|done].
    by intros [= _ <-]. }
  destruct f; [|simpl; by case_match|];
    destruct (q_readLockHold lk (tables s')) as [[d a]|e'] eqn:E; simpl; try (by case_match).
  intros [= Ha]. apply Hback. by eapply Hq.
Qed.

(** C15: the fenced commit. While another holder has the lock it writes nothing,
    however its reply fares. It answers true only when this holder had the lock
    at the moment of the write and the group's watermark is at the committed
    position or past it, and false only when it wrote nothing. *)
Theorem CommitOffsetFenced_contract ctx name lk h q s :
  ErrAt ctx (time s) = None → own_name lk h s →
  let r := (CommitOffsetFenced ctx name lk h q s).1 in
  let wrote := tables (exec ctx (λ c, q_commitFenced c name lk h q (time s)) s).2 in
  (holds (found s) lk h = false → wrote = found s ∧ r ≠ inl true) ∧
  (r = inl true → holds (found s) lk h = true ∧
     ∃ l u, offsets wrote !! name = Some (l, u) ∧ q <= l) ∧
  (r = inl false → wrote = found s).
Proof.
  intros Hc Hown r wrote.
  pose proof (own_name_begin lk h s Hown) as Hown'.
  unfold r, CommitOffsetFenced, rsNow. rewrite run_bind, run_gets. cbn [fst snd].
  rewrite run_bind. set (qf := λ c, q_commitFenced c name lk h q (time s)) in *.
  pose proof (exec_cases ctx qf s Hc) as Hx.
  change (qf (link s) (found s)) with (q_commitFenced (link s) name lk h q (time s) (found s)) in Hx.
  unfold q_commitFenced, q_commitOffset in Hx. clearbody qf.
  destruct (holds (found s) lk h) eqn:Hh.
  - destruct (q <? 0).
    { destruct Hx as (e & Hx & _). unfold wrote. rewrite Hx. by split_and!. }
    destruct (upsert (link s) (found s) name q (time s)) as [d n] eqn:Eu.
    assert (Hw : (∃ l u, offsets d !! name = Some (l, u) ∧ q <= l) ∧ (n <= 0 → d = found s)).
    { revert Eu. unfold upsert. destruct (offsets (found s) !! name) as [[l u]|] eqn:E.
      - destruct (_ && _) eqn:Eb; intros [= <- <-]; zbool; (split; [|done || lia]).
        + exists l, u. split; [done|lia].
        + simpl. rewrite lookup_insert_eq. eauto with lia.
      - intros [= <- <-]. simpl. rewrite lookup_insert_eq. eauto with lia. }
    destruct Hw as [Hw1 Hw2]. unfold wrote.
    destruct Hx as [Hx|(e & [Hx|Hx])]; rewrite Hx; cbn [fst snd]; [|by split_and!..].
    destruct (Z.ltb_spec 0 n); [by split_and!|]. rewrite Hw2 in * by lia.
    split_and!; [done|done|done].
  - unfold wrote. destruct Hx as [Hx|(e & [Hx|Hx])]; rewrite Hx; cbn [fst snd]; [|by split_and!..].
    simpl. assert (Hnt : (holdsLeaderLock ctx lk h (with_tables (begin_turn s).2 (found s))).1 ≠ inl true).
    { intros Ht%holdsLeaderLock_true; [|done]. simpl in Ht. congruence. }
    split_and!; [done|done|done].
Qed.

(** The leader election on an undisturbed statement, for every setting of
    the client's flags: a lock that is free, expired or already this holder's is
    taken with a fresh deadline and the answer is true; a live lock of another
    holder is left exactly as it is and the answer is false. *)
Theorem TryAcquireLeaderLock_spec ctx name h ttl s :
  ErrAt ctx (time s) = None → turns s = [] →
  let free := match locks (tables s) !! name with
              | None => true
              | Some (h', expire) => (expire <? time s) || String.eqb h' h
              end in
  TryAcquireLeaderLock ctx name h ttl s =
    (inl free, if free then with_tables s (with_locks (tables s)
                              (<[name := (h, time s + ttl)]> (locks (tables s)))) else s).
Proof.
  intros Hc Ht free. unfold TryAcquireLeaderLock, rsNow. rewrite run_bind, run_gets. cbn [fst snd].
  rewrite run_bind, exec_alone by done.
  assert (Hread : ∀ d h' ex, locks d !! name = Some (h', ex) →
    holdsLeaderLock ctx name h (with_tables s d) = (inl (String.eqb h' h), with_tables s d)).
  { intros d h' ex Hd. unfold holdsLeaderLock. rewrite run_bind, exec_alone by done.
    simpl. unfold q_readLockHold. by rewrite Hd. }
  assert (Hid : with_tables s (tables s) = s) by by destruct s.
  unfold free, q_acquireLock. destruct (locks (tables s) !! name) as [[h' ex]|] eqn:E.
  - destruct ((ex <? time s) || String.eqb h' h) eqn:Et; cbn [fst snd].
    + rewrite String.eqb_refl, orb_true_r. simpl. destruct (lidLost (link s)); simpl; [|done].
      erewrite Hread by (simpl; apply lookup_insert_eq). by rewrite String.eqb_refl.
    + rewrite Et. simpl. rewrite (insert_id (locks (tables s))) by done.
      assert (with_locks (tables s) (locks (tables s)) = tables s) as -> by by destruct (tables s).
      destruct (lidLost (link s)); simpl; [|by rewrite Hid].
      erewrite Hread by done. apply orb_false_iff in Et as [_ ->]. by rewrite Hid.
  - simpl. erewrite Hread by (simpl; apply lookup_insert_eq). by rewrite String.eqb_refl.
Qed.

(** C32: while a lock is live no other holder gets it, whatever other sessions
    commit around the election (short of electing this holder themselves) and
    however its replies fare. *)
Theorem lock_exclusive ctx name h h' expire ttl s :
  ErrAt ctx (time s) = None → own_name name h s →
  locks (found s) !! name = Some (h', expire) → h' ≠ h → time s <= expire →
  (TryAcquireLeaderLock ctx name h ttl s).1 ≠ inl true ∧
  locks (tables (exec ctx (λ c, q_acquireLock c name h (time s + ttl) (time s)) s).2)
    = locks (found s).
Proof.
  intros Hc Hown Hl Hne Hexp.
  pose proof (own_name_begin name h s Hown) as Hown'.
  unfold TryAcquireLeaderLock, rsNow. rewrite run_bind, run_gets. cbn [fst snd]. rewrite run_bind.
  set (qf := λ c, q_acquireLock c name h (time s + ttl) (time s)) in *.
  pose proof (exec_cases ctx qf s Hc) as Hx.
  change (qf (link s) (found s))
    with (q_acquireLock (link s) name h (time s + ttl) (time s) (found s)) in Hx.
  unfold q_acquireLock in Hx. rewrite Hl in Hx. clearbody qf.
  assert ((expire <? time s) || String.eqb h' h = false) as E.
  { apply orb_false_iff. split; [lia|by apply String.eqb_neq]. }
  rewrite !E in Hx. simpl in Hx. rewrite (insert_id (locks (found s))) in Hx by done.
  set (d := with_locks (found s) (locks (found s))) in Hx.
  assert (holds d name h = false) as Hh.
  { unfold holds, d. simpl. rewrite Hl. by apply String.eqb_neq. }
  destruct Hx as [Hx|(e & [Hx|Hx])]; rewrite Hx; cbn [fst snd]; (split; [|done]); [|done|done].
  destruct (lidLost (link s)); simpl; [|done].
  intros Ht%holdsLeaderLock_true; [|done]. simpl in Ht. congruence.
Qed.

(** ** Sequencing *)
#[local] Instance emit_order_total : Total emit_order.
Proof. intros x y. unfold emit_order. lia. Qed.
#[local] Instance emit_order_trans : Transitive emit_order.
Proof. intros x y z. unfold emit_order. lia. Qed.

Lemma StronglySorted_app_inv {A} (R : relation A) (l k : list A) :
  StronglySorted R (l ++ k) → StronglySorted R l ∧ ∀ x y, x ∈ l → y ∈ k → R x y.
Proof.
  induction l as [|a l IH]; simpl; intros Hs; [split; [constructor|by intros ?? ?%elem_of_nil]|].
  apply StronglySorted_inv in Hs as [Hs Ha]. destruct (IH Hs) as [IH1 IH2].
  apply Forall_app in Ha as [Ha1 Ha2]. split; [by constructor|].
  rewrite Forall_forall in Ha2. intros x y [->|Hx]%elem_of_cons Hy; auto.
Qed.
(** The page is the front of the pending rows in emission order. *)
Lemma page_front limit d :
  StronglySorted emit_order (page limit d) ∧
  ∀ x y, x ∈ page limit d → y ∈ messages d → pending y = true → y ∉ page limit d → emit_order x y.
Proof.
  unfold page. set (l := merge_sort emit_order (filter pending (messages d))).
  assert (StronglySorted emit_order l) as Hs by (apply StronglySorted_merge_sort; apply _).
  rewrite <-(take_drop (Z.to_nat limit) l) in Hs. apply StronglySorted_app_inv in Hs as [H1' H2'].
  split; [done|]. intros x y Hx Hy Hp Hn. apply H2'; [done|].
  assert (y ∈ l) as Hl.
  { unfold l. rewrite merge_sort_Permutation. apply list_elem_of_filter. by rewrite Hp. }
  rewrite <-(take_drop (Z.to_nat limit) l), elem_of_app in Hl. by destruct Hl.
Qed.
Lemma numbered_lookup next l i r :
  l !! i = Some r → numbered next l !! i = Some (r_id r, next + Z.of_nat i).
Proof.
  revert next i. induction l as [|x l IH]; intros next [|i] Hi; simpl in *; [done..| |].
  - injection Hi as ->. do 2 f_equal. lia.
  - rewrite (IH (next + 1) i Hi). do 2 f_equal. lia.
Qed.
Lemma page_nil limit d : existsb pending (messages d) = false → page limit d = [].
Proof.
  intros Hp. destruct (page limit d) as [|r l] eqn:E; [done|]. exfalso.
  destruct (page_elem limit d r) as [Hr Hpr]; [rewrite E; left|].
  apply not_true_iff_false in Hp. apply Hp, existsb_exists. exists r.
  split; [by apply list_elem_of_In|done].
Qed.
Lemma assigned_nil next d : counter d = Some next → assigned_db next [] d = d.
Proof.
  intros Hc. unfold assigned_db. simpl. rewrite Z.add_0_r, insert_id by done.
  rewrite list_fmap_id. by destruct d.
Qed.

Lemma within_alone {A} ctx (q : stmt A) view s :
  ErrAt ctx (time s) = None → turns s = [] → within ctx q view s = (q view, s).
Proof.
  intros Hc Ht. unfold within, rsNow, pop. rewrite run_bind, run_gets. cbn [fst snd].
  rewrite Hc, run_bind, Ht. done.
Qed.
Lemma sequenceLocked_alone ctx limit s d k :
  ErrAt ctx (time s) = None → turns s = [] → q_sequence limit (tables s) = inl (d, k) →
  sequenceLocked ctx limit s = (inl k, with_tables s d).
Proof.
  intros Hc Ht Hq. unfold q_sequence, sthen in Hq. unfold sequenceLocked.
  rewrite run_bind, run_gets. cbn [fst snd]. rewrite run_bind, within_alone by done. cbn [fst snd].
  destruct (q_lockSequencer (tables s)) as [[v1 n1]|]; [|done].
  rewrite run_bind, within_alone by done. cbn [fst snd].
  destruct (q_assignSeq limit n1 v1) as [[v2 k']|]; [|done]. rewrite run_bind.
  assert (Hcommit : ∀ v, commit ctx v s = (None, with_tables s v)).
  { intros v. unfold commit, rsNow, pop. rewrite run_bind, run_gets. cbn [fst snd].
    rewrite Hc, run_bind, Ht. done. }
  destruct (0 <? k'); [rewrite within_alone by done; cbn [fst snd];
    destruct (q_bumpSequencer _ v2) as [[v3 u]|]; [|done]|rewrite run_ret; cbn [fst snd]];
    injection Hq as -> ->; rewrite run_bind, Hcommit; done.
Qed.

(** C18: a sequencing pass on a sound log never fails on the log's account: it
    numbers the front of the pending rows, in order of transaction start and
    then insertion, densely from the counter on, advances the counter past them
    and changes nothing else; it reports how many it numbered. *)
Theorem SequenceMessages_assigns ctx limit s next :
  ErrAt ctx (time s) = None → turns s = [] → log_ok (tables s) → 0 <= limit < 2^63 →
  counter (tables s) = Some next → next + zlen (page limit (tables s)) < 2^63 →
  let pg := page limit (tables s) in
  SequenceMessages ctx limit s = (inl (zlen pg), with_tables s (assigned_db next pg (tables s))) ∧
  zlen pg = Z.min limit (zlen (filter pending (messages (tables s)))) ∧
  StronglySorted emit_order pg ∧
  (∀ x y, x ∈ pg → y ∈ messages (tables s) → pending y = true → y ∉ pg → emit_order x y) ∧
  (∀ i r, pg !! i = Some r → ∃ r', r' ∈ messages (assigned_db next pg (tables s)) ∧
     same_row r' r ∧ r_seq r' = Some (next + Z.of_nat i)).
Proof.
  intros Hc Ht Hok Hlim Hcnt Hroom pg.
  assert (Hid : with_tables s (tables s) = s) by by destruct s.
  split_and!.
  - unfold SequenceMessages. rewrite run_bind, exec_alone by done. unfold q_probePending.
    destruct (existsb pending (messages (tables s))) eqn:Ep; cbn [fst snd].
    + rewrite Hid, run_bind, exec_alone by done. cbn [fst snd]. rewrite Hid.
      pose proof (q_sequence_intro limit (tables s) next Hlim Hok Hcnt Hroom) as Hq. fold pg in Hq.
      by rewrite (sequenceLocked_alone ctx limit s _ _ Hc Ht Hq).
    + unfold pg. rewrite page_nil by done. rewrite assigned_nil by done. by rewrite Hid.
  - unfold pg, page, ztake, zlen. rewrite length_take, merge_sort_Permutation. lia.
  - apply page_front.
  - apply page_front.
  - intros i r Hi. pose proof (list_elem_of_lookup_2 _ _ _ Hi) as Hr.
    destruct (page_ok _ _ _ Hr) as [Hrm _].
    exists (set_seq (numbered next pg) r). simpl. split; [apply list_elem_of_fmap; eauto|].
    split; [apply set_seq_same|]. unfold set_seq.
    pose proof (numbered_lookup next pg i r Hi) as Hn.
    destruct (List.find _ _) as [[j n]|] eqn:E.
    + apply find_numbered_Some in E as [Hj Hje]. simpl in Hje. subst j. simpl. f_equal.
      enough ((r_id r, n) = (r_id r, next + Z.of_nat i)) by congruence.
      apply (NoDup_fmap_eq fst (numbered next pg)); [|done|by eapply list_elem_of_lookup_2|done].
      rewrite numbered_fst. by apply page_ids, lo_ids.
    + exfalso. apply find_numbered in E. apply E, list_elem_of_fmap. eauto.
Qed.

(** ** Reading the log *)
#[local] Instance by_seq_total : Total by_seq.
Proof. intros x y. unfold by_seq. lia. Qed.
#[local] Instance by_seq_trans : Transitive by_seq.
Proof. intros x y z. unfold by_seq. lia. Qed.
Lemma above_sorted a d : StronglySorted by_seq (above a d).
Proof. apply StronglySorted_merge_sort; apply _. Qed.

(** The message a readable row is delivered as. *)
Definition decodes (m : Message) (r : row) : Prop :=
  ∃ md, UnmarshalMetadata (Some (r_meta r)) = inl md ∧
    m = mkMessage (uuid_String (r_event r)) (seq_of r) (Some md) (Some (r_data r)) (r_create r).
Definition poison_at (e : error) (rest : list row) : Prop :=
  ∃ r rest' cause, rest = r :: rest' ∧ UnmarshalMetadata (Some (r_meta r)) = inr cause ∧
    e = Some (Typed (TSeqDecode (uuid_String (r_event r)) (seq_of r)) [cause]).

Lemma decodeRows_prefix buf rows :
  Forall (λ r, len (r_event r) = 16) rows →
  ∃ ms front rest, decodeRows buf rows = (buf ++ ms, (decodeRows buf rows).2) ∧
    rows = front ++ rest ∧ Forall2 decodes ms front ∧
    ((decodeRows buf rows).2 = None ∧ rest = [] ∨ poison_at (decodeRows buf rows).2 rest).
Proof.
  intros Hl. revert buf. induction Hl as [|r rows Hr Hrows IH]; intros buf; cbn [decodeRows].
  - exists [], [], []. rewrite app_nil_r. split_and!; auto.
  - rewrite uuid_FromBytes_len by done.
    destruct (UnmarshalMetadata (Some (r_meta r))) as [md|e] eqn:E.
    + set (m := mkMessage (uuid_String (r_event r)) (seq_of r) (Some md) (Some (r_data r)) (r_create r)).
      destruct (IH (buf ++ [m])) as (ms & front & rest & E1 & E2 & E3 & E4).
      exists (m :: ms), (r :: front), rest. split_and!.
      * etrans; [exact E1|]. by rewrite <-app_assoc.
      * simpl. by rewrite <-E2.
      * constructor; [|done]. by exists md.
      * done.
    + exists [], [], (r :: rows). rewrite app_nil_r. split_and!; [done|done|constructor|].
      right. by exists r, rows, e.
Qed.

Lemma elem_of_above after d r :
  r ∈ above after d ↔ r ∈ messages d ∧ ∃ q, r_seq r = Some q ∧ after < q.
Proof.
  unfold above. rewrite merge_sort_Permutation, list_elem_of_filter.
  unfold sequenced, seq_of. destruct (r_seq r); simpl; naive_solver.
Qed.

(** C19: a page of the log: the rows past the position in seq order, each as the
    message it decodes to, up to the limit; an unreadable row ends the page with
    a typed error that names it, after everything before it. The page has no
    holes: a row of the log past the position and at or below any row of the
    page is on the page. *)
Theorem ListMessages_page ctx after limit s :
  ErrAt ctx (time s) = None → turns s = [] → 0 <= limit →
  log_ok (tables s) → Forall (λ r, len (r_event r) = 16) (messages (tables s)) →
  let d := tables s in
  let '(ms, e) := (ListMessages ctx after limit s).1 in
  ∃ front rest, ztake limit (above after d) = front ++ rest ∧ Forall2 decodes ms front ∧
    StronglySorted by_seq front ∧
    (e = None ∧ rest = [] ∧ (zlen ms = limit ∨ Forall2 decodes ms (above after d)) ∨ poison_at e rest) ∧
    ∀ r q m, r ∈ messages d → r_seq r = Some q → after < q → m ∈ ms → q <= Seq m → r ∈ front.
Proof.
  intros Hc Ht Hlim Hok Hlen d. unfold ListMessages. rewrite run_bind, exec_alone by done.
  unfold q_list. destruct (Z.ltb_spec limit 0); [lia|]. cbn [fst snd].
  assert (Forall (λ r, len (r_event r) = 16) (ztake limit (above after d))) as Hl.
  { rewrite Forall_forall in Hlen |- *. intros r Hr. apply Hlen.
    eapply elem_of_prefix in Hr; [|apply ztake_prefix]. by apply elem_of_above in Hr as [? _]. }
  destruct (decodeRows_prefix [] _ Hl) as (ms & front & rest & E1 & E2 & E3 & E4).
  rewrite run_ret. cbn [fst snd]. fold d. rewrite E1. simpl.
  pose proof (above_sorted after d) as Hs.
  assert (Habove : above after d = front ++ (rest ++ zdrop limit (above after d))).
  { rewrite app_assoc, <-E2. unfold ztake, zdrop. by rewrite take_drop. }
  rewrite Habove in Hs. apply StronglySorted_app_inv in Hs as [Hs1 Hs2].
  exists front, rest. split_and!; [done|done|done| |].
  - destruct E4 as [[-> ->]|Hp]; [left|by right]. split_and!; [done|done|].
    rewrite app_nil_r in E2. destruct (decide (zlen ms = limit)) as [|Hne]; [by left|right].
    replace (above after d) with front; [done|]. rewrite <-E2. unfold ztake. apply take_ge.
    apply Forall2_length in E3. rewrite <-E2 in E3. unfold zlen, ztake in *.
    rewrite length_take in E3. lia.
  - intros r q m Hr Hq Ha Hm Hle.
    assert (r ∈ above after d) as Hra by (apply elem_of_above; eauto).
    rewrite Habove, elem_of_app in Hra. destruct Hra as [|Hra]; [done|].
    apply list_elem_of_lookup in Hm as [i Hi].
    destruct (Forall2_lookup_l _ _ _ _ _ E3 Hi) as (f & Hf & md & _ & ->). simpl in Hle.
    pose proof (list_elem_of_lookup_2 _ _ _ Hf) as Hff. pose proof (Hs2 _ _ Hff Hra) as Hby.
    assert (f ∈ above after d) as (Hfm & qf & Hqf & _)%elem_of_above by (rewrite Habove; set_solver).
    unfold by_seq, seq_of in Hby, Hle. rewrite Hq, Hqf in *. simpl in *.
    assert (q = qf) as -> by lia.
    assert (f = r) as <-; [|done].
    eapply NoDup_omap_eq; eauto using lo_seqs.
Qed.

(** ** Publishing *)

(** What a publish of valid metadata under a UUID does. In a transaction, a
    new event becomes one pending row that decodes again to the stored form of
    its metadata, with an empty payload for a missing one; an event already in
    the outbox is reported as such and changes nothing; a publish outside a
    transaction is an error and changes nothing. *)
Theorem CreateOutboxMessage_spec ts ctx m md id s :
  ErrAt ctx (time s) = None → turns s = [] →
  MsgMetadata m = Some md → ValidateMetadata (Some md) = None →
  carried md → parseable (Event.DataSchema md) → uuid_Parse (MsgID m) = inl id →
  ∃ doc, UnmarshalMetadata (Some doc) = inl (stored md) ∧
  let d := tables s in
  let new := mkRow (next_id d) None ts id doc (default ""%string (Data m)) (time s) (Event.Time md) in
  let '(r, s') := CreateOutboxMessage ts ctx m s in
  if bool_decide (ts = 0) then r ≠ None ∧ Is r ErrAlreadyPublished = false ∧ s' = s
  else if existsb (λ x, String.eqb (r_event x) id) (messages d)
  then Is r ErrAlreadyPublished = true ∧ s' = s
  else r = None ∧
       s' = with_tables s (mkDb (messages d ++ [new]) (next_id d + 1) (sequencers d) (offsets d) (locks d)).
Proof.
  intros Hc Ht Hm Hv Hca Hpa Hu.
  destruct (persisted md Hv Hca Hpa) as (doc & Hdoc & Hback & _). exists (JObj doc). split; [done|].
  intros d new. unfold CreateOutboxMessage. rewrite Hm, Hv, Hu. rewrite Hdoc.
  rewrite run_bind. unfold rsNow. rewrite run_gets. cbn [fst snd].
  rewrite run_bind, exec_alone by done. cbn [fst snd]. unfold q_insert. fold d.
  destruct (Z.eqb_spec ts 0) as [->|Hts].
  - rewrite bool_decide_eq_true_2 by done. rewrite run_ret. simpl. by split_and!.
  - rewrite bool_decide_eq_false_2 by done. destruct (existsb _ _); rewrite run_ret; simpl; [by split|done].
Qed.

(** ** Joining a group *)

(** Initialising a group's offset never touches a row that exists, at
    whatever position; the first initialisation starts the group at the end of
    the log; and the answer is the position the group then has. *)
Theorem InitOffsetLatest_spec ctx name s :
  ErrAt ctx (time s) = None → turns s = [] →
  let d := tables s in
  InitOffsetLatest ctx name s =
    match offsets d !! name with
    | Some (l, _) => (inl l, s)
    | None => (inl (maxSeq d), with_tables s (with_offsets d (<[name := (maxSeq d, time s)]> (offsets d))))
    end ∧ Forall (λ q, q <= maxSeq d) (seqs d).
Proof.
  intros Hc Ht d. split.
  - unfold InitOffsetLatest, rsNow. rewrite run_bind, run_gets. cbn [fst snd].
    rewrite run_bind, exec_alone by done. unfold q_initOffset. fold d.
    destruct (offsets d !! name) as [[l u]|] eqn:E; cbn [fst snd].
    + simpl. rewrite run_bind, exec_alone by done. unfold q_offset. fold d. rewrite E. simpl.
      rewrite run_ret. f_equal. by destruct s.
    + rewrite run_bind, exec_alone by done. unfold q_offset. simpl. rewrite lookup_insert_eq. done.
  - unfold maxSeq, seqs. induction (omap r_seq (messages d)) as [|q l IH]; constructor; simpl; [lia|].
    eapply Forall_impl; [exact IH|]. simpl. lia.
Qed.
End contract.
