(* ===== verification/TidbDelivery.v ===== *)
(** * At-least-once delivery over the TiDB store

    The instance of [Safety] for one consumer group of the TiDB log, the proof
    that the relay store is a [LogStore] for it, and the consequence for any
    number of relays of one group that run side by side. *)
From S2P Require Import Prelude Errors GoLib Event Json Envelope Bound Relay Scenario Notify Leader Lane RelayCfg Sequence SequenceFacts Safety SequenceDelivery TidbDb TidbLog Tidb TidbProps TidbContract.
From stdpp Require Import sorting.
#[local] Open Scope Z_scope.

(** ** What a group's log promises *)
Section claims.
Context `{UrlStruct} `{GoJson} `{Uuid} `{Planner}.

(** A group, and how to read its log: what was disposed of; the position the
    group began at; whether it has its row in the offsets table; and the rows
    whose fate is followed. *)
Record account := mkAccount {
  group : string;
  began : Z;
  joined : bool;
  delivered : Message → Prop;
  followed : row → Prop }.
Context (G : account).

(** A row is accounted for by the message it decodes to, or, when it does not
    decode, by the stub it is parked as. *)
Definition accounts_for (m : Message) (r : row) : Prop :=
  decodes m r ∨ m = stub (uuid_String (r_event r)) (seq_of r) ∧
    ∃ cause, UnmarshalMetadata (Some (r_meta r)) = inr cause.
Definition accounted (r : row) : Prop := ∃ m, delivered G m ∧ accounts_for m r.

(** Everything of the log in (began, p] is accounted for, and nothing can be
    assigned a number there any more. *)
Definition claimed (p : Z) (d : db) : Prop :=
  p < cnt d ∧ ∀ r s, r ∈ messages d → r_seq r = Some s → began G < s <= p → accounted r.
(** A row that is not behind the position the group began at: it has no number
    yet, or one above. *)
Definition beyond (r : row) : Prop := ∀ s, r_seq r = Some s → began G < s.
(** A followed row that was ahead is in the log, ahead still, or it left the log
    with a number, after it was accounted for under that number. *)
Definition kept (d : db) : Prop :=
  ∀ r0, followed G r0 → beyond r0 →
    (∃ r, r ∈ messages d ∧ same_row r r0 ∧ beyond r) ∨
    ∃ r s, same_row r r0 ∧ r_seq r = Some s ∧ began G < s ∧ accounted r.

Record log_safe (p : Z) (d : db) : Prop := mkLogSafe {
  sf_ok : log_ok d;
  sf_ids : Forall (λ r, len (r_event r) = 16) (messages d);
  sf_claim : claimed p d;
  sf_watermark : ∀ l u, offsets d !! group G = Some (l, u) → claimed l d;
  sf_joined : joined G = true → ∃ l u, offsets d !! group G = Some (l, u) ∧ began G <= l;
  sf_kept : joined G = true → kept d }.

(** *** Steps that leave the group's offset alone *)
Definition spares (a : action) : Prop :=
  match a with
  | APublish _ event _ _ _ _ => len event = 16
  | ACommit name _ _ | AFenced name _ _ _ _ | AInit name _ | ADelete name => name ≠ group G
  | _ => True
  end.

Lemma claimed_step a p d d' : log_ok d → step a d d' → claimed p d → claimed p d'.
Proof.
  intros Hok Hs [Hp Hc]. destruct (step_grown a d d' Hok Hs) as [_ Hcnt Hrows]. split; [lia|].
  intros r s Hr Hrs Hb.
  destruct (Hrows r Hr) as [(r0 & Hr0 & (?&?&?&?&?&?&?) & [E|(E & s' & Es & Hle)])|[_ Hle]].
  - assert (r = r0) as -> by (destruct r, r0; simpl in *; congruence). by eapply Hc.
  - assert (s = s') by congruence. lia.
  - specialize (Hle s Hrs). lia.
Qed.
Lemma ids_step a d d' :
  log_ok d → step a d d' → spares a → Forall (λ r, len (r_event r) = 16) (messages d) →
  Forall (λ r, len (r_event r) = 16) (messages d').
Proof.
  intros Hok Hs Ha Hl. rewrite Forall_forall in Hl.
  destruct (step_effect a d d' Hok Hs) as
    [-> _ _|ts ev meta x cr oc -> _ _ ->|limit next _ _ _ ->|c l sub _ Hsub ->]; simpl.
  - by apply Forall_forall.
  - apply Forall_app. split; [by apply Forall_forall|]. by repeat constructor.
  - apply Forall_fmap, Forall_forall. intros r Hr. simpl.
    destruct (set_seq_same (numbered next (page limit d)) r) as (_ & _ & -> & _). auto.
  - apply Forall_forall. intros r Hr. apply Hl. by eapply elem_of_sublist.
Qed.

(** The offset of a group after a step that is not about it. *)
Lemma upsert_other c d name seq t n :
  name ≠ n → offsets (upsert c d name seq t).1 !! n = offsets d !! n.
Proof.
  intros Hn. unfold upsert. repeat case_match; simpl; rewrite ?lookup_insert_ne by done; done.
Qed.
Lemma spares_offset a d d' :
  step a d d' → spares a → offsets d' !! group G = offsets d !! group G.
Proof.
  intros Hs Ha. destruct Hs as [? ? ? ? ? ? d d' Hq|c n q t d d' k Hq|c n lk h q t d d' k Hq|n t d d' Hq
    |n d d' Hq|limit d d' k Hlim Hq|c n h dl nw d d' k Hq|n h d d' Hq|cut limit d d' k Hq]; simpl in Ha.
  - by apply q_insert_elim in Hq as (x & -> & _ & _ & ->).
  - unfold q_commitOffset in Hq. case_match; [done|]. injection Hq as Hq.
    pose proof (upsert_other c d n q t _ Ha) as Hu. by rewrite Hq in Hu.
  - unfold q_commitFenced, q_commitOffset in Hq. case_match; [|by injection Hq as <- <-].
    case_match; [done|]. injection Hq as Hq.
    pose proof (upsert_other c d n q t _ Ha) as Hu. by rewrite Hq in Hu.
  - unfold q_initOffset in Hq. case_match; [done|]. injection Hq as <-. simpl.
    by rewrite lookup_insert_ne.
  - unfold q_deleteOffset in Hq. injection Hq as <-. simpl. by rewrite lookup_delete_ne.
  - unfold q_sequence, sthen, q_lockSequencer, q_assignSeq, q_bumpSequencer in Hq.
    by repeat case_match; simplify_eq.
  - unfold q_acquireLock in Hq. by destruct (locks d !! n) as [[h' ex]|]; injection Hq as <- <-.
  - unfold q_releaseLock in Hq. injection Hq as <-. by case_match.
  - unfold q_sweep in Hq. case_match; [done|]. by injection Hq as <- <-.
Qed.

(** A number given by a step is the counter's or above it, so a row stays ahead
    of a position the group's watermark has reached. *)
Lemma beyond_step a d d' r r' :
  log_ok d → step a d d' → began G < cnt d → r ∈ messages d → r' ∈ messages d' → same_row r' r →
  beyond r → beyond r'.
Proof.
  intros Hok Hs Hb Hr Hr' Hsame Ha s Hrs. destruct (step_grown a d d' Hok Hs) as [_ _ Hrows].
  destruct (Hrows r' Hr') as [(r1 & Hr1 & Hsame1 & Hseq)|[_ Hle]]; [|specialize (Hle s Hrs); lia].
  assert (r1 = r) as ->.
  { eapply (NoDup_fmap_eq r_id (messages d)); eauto using lo_ids.
    destruct Hsame as (Hid & _), Hsame1 as (Hid1 & _). congruence. }
  destruct Hseq as [E|(_ & s' & E & Hle)]; [apply Ha; congruence|]. assert (s' = s) by congruence. lia.
Qed.
Lemma kept_step a d d' :
  log_ok d → step a d d' → (∀ l u, offsets d !! group G = Some (l, u) → claimed l d) →
  (∃ l u, offsets d !! group G = Some (l, u) ∧ began G <= l) → kept d → kept d'.
Proof.
  intros Hok Hs Hw (l & u & Hg & Hbl) Hk r0 Hr0 Ha0. destruct (Hw _ _ Hg) as [Hl Hc].
  destruct (Hk r0 Hr0 Ha0) as [(r & Hr & Hsame & Ha)|?]; [|by right].
  destruct (step_row a d d' r Hok Hs Hr) as [(r' & Hr' & Hs' & _)|(cut & lim & s & _ & Hrs & _ & _ & Hall)].
  - left. exists r'. split_and!; [done|by eapply same_row_trans|].
    eapply (beyond_step a d d' r); eauto. lia.
  - right. exists r, s. specialize (Hall _ _ _ Hg). specialize (Ha s Hrs). split_and!; try done.
    eapply Hc; [done|done|lia].
Qed.

Lemma log_safe_step a p d d' : step a d d' → spares a → log_safe p d → log_safe p d'.
Proof.
  intros Hs Ha [Hok Hids Hc Hw Hj Hk]. pose proof (spares_offset a d d' Hs Ha) as Ho. split.
  - by eapply step_log_ok.
  - by eapply ids_step.
  - by eapply claimed_step.
  - rewrite Ho. intros l u Hl. eapply claimed_step; eauto.
  - rewrite Ho. exact Hj.
  - intros Hjt. eapply kept_step; eauto.
Qed.

(** *** The group's own commits *)
Lemma log_safe_upsert c p q t d :
  log_safe q d → log_safe p d → log_safe p (upsert c d (group G) q t).1.
Proof.
  intros [_ _ Hq _ _ _] [Hok Hids Hc Hw Hj Hk].
  destruct (q_upsert_log c d (group G) q t) as (Hm & Hn & Hsq & _).
  set (d' := (upsert c d (group G) q t).1) in *.
  assert (Hcl : ∀ x, claimed x d → claimed x d').
  { unfold claimed, cnt, counter. by rewrite Hm, Hsq. }
  split.
  - by eapply log_ok_same.
  - by rewrite Hm.
  - auto.
  - intros l u Hl. apply Hcl. unfold d', upsert in Hl.
    destruct (offsets d !! group G) as [[l0 u0]|] eqn:E.
    + assert (l = Z.max l0 q) as ->.
      { destruct (_ && _) eqn:Eb; simpl in Hl; zbool; [congruence|].
        rewrite lookup_insert_eq in Hl. congruence. }
      specialize (Hw _ _ eq_refl). destruct Hw as [? Hw], Hq as [? Hq].
      split; [lia|]. intros r s Hr Hrs Hb. destruct (decide (s <= l0)); [eapply Hw|eapply Hq]; eauto with lia.
    + simpl in Hl. rewrite lookup_insert_eq in Hl. by injection Hl as <- _.
  - intros Hjt. destruct (Hj Hjt) as (l & u & Hl & Hbl).
    destruct (upsert_monotone c d (group G) q t (group G) l u Hl) as (l' & u' & Hl' & ?). exists l', u'.
    split; [done|lia].
  - intros Hjt. unfold kept. rewrite Hm. exact (Hk Hjt).
Qed.
Lemma log_safe_commit c p q t d d' n :
  q_commitOffset c (group G) q t d = inl (d', n) → log_safe q d → log_safe p d → log_safe p d'.
Proof.
  unfold q_commitOffset. case_match; [done|]. intros [= Hu] Hq Hp.
  pose proof (log_safe_upsert c p q t d Hq Hp) as Hs. by rewrite Hu in Hs.
Qed.
Lemma log_safe_fenced c p lk h q t d d' n :
  q_commitFenced c (group G) lk h q t d = inl (d', n) → log_safe q d → log_safe p d → log_safe p d'.
Proof.
  unfold q_commitFenced. case_match; [apply log_safe_commit|]. by intros [= <- _] _.
Qed.
Lemma log_safe_lower p q d : q <= p → log_safe p d → log_safe q d.
Proof.
  intros Hq [Hok Hids [Hp Hc] Hw Hj Hk]. split; try done. split; [lia|].
  intros r s ???. eapply Hc; [done..|lia].
Qed.
Lemma log_safe_zero p d : 0 <= began G → log_safe p d → log_safe 0 d.
Proof.
  intros Hb [Hok Hids _ Hw Hj Hk]. split; try done. split; [|intros; lia].
  destruct Hok as [_ _ _ _ (n & Hn & ? & _)]. unfold cnt. rewrite Hn. simpl. lia.
Qed.
End claims.

(** ** A page of the log *)
Section page.
Context `{UrlStruct} `{GoJson} `{Uuid} `{Planner}.
Context (G : account).

Definition last_row (a : Z) (l : list row) : Z :=
  match last l with Some r => seq_of r | None => a end.


(** Accounting for the front of what lies above a claimed position extends the
    claim to the last of it: the rows below that are all in the front. *)
Lemma claimed_front a d pre rest :
  log_ok d → claimed G a d → above a d = pre ++ rest → Forall (accounted G) pre →
  claimed G (last_row a pre) d.
Proof.
  intros Hok [Ha Hc] Hab Hacc. unfold last_row. destruct (last pre) as [f|] eqn:El; [|done].
  assert (f ∈ pre) as Hfp.
  { apply last_Some in El as [l ->]. set_solver. }
  assert (f ∈ above a d) as (Hfm & q & Hq & Hgt)%elem_of_above by (rewrite Hab; set_solver).
  unfold seq_of. rewrite Hq. simpl. split.
  - destruct Hok as [_ _ _ _ (n & Hn & _ & Hb)]. unfold cnt. rewrite Hn. simpl.
    rewrite Forall_forall in Hb. apply Hb, list_elem_of_omap. eauto.
  - intros r s Hr Hrs Hb. destruct (decide (s <= a)); [eapply Hc; eauto with lia|].
    assert (r ∈ above a d) as Hra by (apply elem_of_above; eauto with lia).
    rewrite Hab, elem_of_app in Hra. rewrite Forall_forall in Hacc.
    destruct Hra as [Hra|Hra]; [by apply Hacc|].
    pose proof (above_sorted a d) as Hs. rewrite Hab in Hs. apply StronglySorted_app_inv in Hs as [_ Hs].
    specialize (Hs f r Hfp Hra). unfold by_seq, seq_of in Hs. rewrite Hq, Hrs in Hs. simpl in Hs.
    assert (s = q) as -> by lia.
    assert (r = f) as ->; [|by apply Hacc].
    eapply NoDup_omap_eq; eauto using lo_seqs.
Qed.
Lemma log_safe_front a d pre rest :
  log_safe G a d → above a d = pre ++ rest → Forall (accounted G) pre →
  log_safe G (last_row a pre) d.
Proof. intros [Hok ? Hc ???] Hab Hacc. split; try done. by eapply claimed_front. Qed.

Lemma decodes_last a ms rows : Forall2 decodes ms rows → last_seq a ms = last_row a rows.
Proof.
  intros Hd. unfold last_seq, last_row. apply Forall2_reverse in Hd.
  rewrite <-(reverse_involutive ms), <-(reverse_involutive rows).
  destruct Hd as [|m r ms' rows' (md & _ & ->) _]; [done|].
  by rewrite !reverse_cons, !last_snoc.
Qed.
Lemma decodes_accounted ms rows :
  Forall2 decodes ms rows → Forall (delivered G) ms → Forall (accounted G) rows.
Proof.
  intros Hd. induction Hd as [|m r ms rows Hm _ IH]; [constructor|].
  intros [? ?]%Forall_cons. constructor; [|auto]. exists m. split; [done|by left].
Qed.
(** What a listed page is good for. *)
Lemma listed_claims a d n msgs e :
  log_safe G a d → decodeRows [] (ztake n (above a d)) = (msgs, e) →
  (∀ j, Forall (delivered G) (take j msgs) → log_safe G (last_seq a (take j msgs)) d) ∧
  (∀ cause id seq, As asSeqDecode e = Some (cause, id, seq) → Forall (delivered G) msgs →
     delivered G (stub id seq) → log_safe G (Z.max (last_seq a msgs) seq) d).
Proof.
  intros Hs Hdec.
  assert (Hl : Forall (λ r, len (r_event r) = 16) (ztake n (above a d))).
  { apply Forall_forall. intros r Hr. eapply elem_of_prefix in Hr; [|apply ztake_prefix].
    apply elem_of_above in Hr as [Hr _]. pose proof (sf_ids _ _ _ Hs) as Hids.
    rewrite Forall_forall in Hids. by apply Hids. }
  destruct (decodeRows_prefix [] _ Hl) as (ms & front & rest & E1 & E2 & E3 & E4).
  rewrite Hdec in E1, E4. simpl in E1, E4. injection E1 as <-.
  assert (Hab : ∃ tl, above a d = front ++ rest ++ tl).
  { exists (zdrop n (above a d)). rewrite app_assoc, <-E2. unfold ztake, zdrop. by rewrite take_drop. }
  destruct Hab as [tl Hab]. split.
  - intros j Hj. assert (Forall2 decodes (take j msgs) (take j front)) as Hd by by apply Forall2_take.
    rewrite (decodes_last a _ _ Hd). eapply log_safe_front; [done| |by eapply decodes_accounted].
    rewrite Hab, <-(take_drop j front) at 1. by rewrite <-app_assoc.
  - intros cause id seq He Hall Hst.
    destruct E4 as [[-> _]|(r & rest' & cs & -> & Hbad & ->)]; [done|]. simpl in He.
    injection He as <- <- <-.
    assert (Hr : r ∈ above a d) by (rewrite Hab; set_solver).
    assert (Hle : last_seq a msgs <= seq_of r).
    { rewrite (decodes_last a _ _ E3). unfold last_row. apply elem_of_above in Hr as (_ & q & Hq & ?).
      destruct (last front) as [f|] eqn:El; [|unfold seq_of; rewrite Hq; simpl; lia].
      apply last_Some in El as [l ->]. pose proof (above_sorted a d) as Hsrt. rewrite Hab in Hsrt.
      apply StronglySorted_app_inv in Hsrt as [_ Hsrt]. apply (Hsrt f r); set_solver. }
    rewrite Z.max_r by done. replace (seq_of r) with (last_row a (front ++ [r])) by
      (unfold last_row; by rewrite last_snoc).
    eapply log_safe_front; [done|by rewrite Hab, <-app_assoc|].
    apply Forall_app. split; [by eapply decodes_accounted|]. constructor; [|constructor].
    exists (stub (uuid_String (r_event r)) (seq_of r)). split; [done|]. right. eauto.
Qed.
End page.

(** ** The instance *)
Section instance.
Context `{UrlStruct} `{GoJson} `{Uuid} `{Planner}.
Context (G : account).

(** The errors a driver or a context reports are not the relay's own. *)
Definition foreign (e : err) : Prop := As asSeqDecode (Some e) = None.
Definition decent (t : turn) : Prop :=
  (∀ p d, log_safe G p d → log_safe G p (others t d)) ∧
  match how t with Refused e | Lost e => foreign e | Reply => True end.
#[local] Instance tidb_safety : Safety Z sess := λ p s,
  log_safe G p (tables s) ∧ Forall decent (turns s).

(** The changes that keep a claim. *)
Definition keeping_claim (p : Z) : relation db := λ d d', log_safe G p d → log_safe G p d'.
#[local] Instance keeping_claim_preorder p : PreOrder (keeping_claim p).
Proof. split; unfold keeping_claim; [by intros ?|auto]. Qed.

(** What is left of the turns only shrinks. *)
Definition later : relation sess := λ s s', turns s' `suffix_of` turns s.
#[local] Instance later_preorder : PreOrder later.
Proof. split; unfold later; [intros s; reflexivity|intros s1 s2 s3 ??; by etrans]. Qed.
Lemma exec_later {A} ctx (q : conn → stmt A) : respects later (exec ctx q).
Proof.
  intros s. unfold exec, later, begin_turn. destruct (ErrAt ctx (time s)); [done|].
  destruct (turns s) as [|t ts] eqn:E; simpl.
  - destruct (q _ _) as [[? ?]|]; simpl; by rewrite E.
  - assert (ts `suffix_of` t :: ts) by (by apply suffix_cons_r).
    destruct (how t); [|done|]; by destruct (q _ _) as [[? ?]|].
Qed.
Lemma pop_later : respects later pop.
Proof.
  intros s. unfold pop, later. destruct (turns s) as [|t ts] eqn:E; simpl; [by rewrite E|].
  by apply suffix_cons_r.
Qed.
Lemma set_tables_later d : respects later (modify (λ s, with_tables s d)).
Proof. intros s. unfold later. simpl. reflexivity. Qed.
Lemma sequenceLocked_later ctx limit : respects later (sequenceLocked ctx limit).
Proof.
  unfold sequenceLocked, within, commit, rsNow.
  repeat first [apply pop_later|apply set_tables_later|apply respects_ret; apply _|
    apply respects_gets; apply _|apply respects_bind; [apply _| |intros ?]|case_match].
Qed.

Lemma harmless_in {A} (m : M sess A) :
  (∀ p, within_rel (keeping_claim p) m) → respects later m → harmless m.
Proof.
  intros Hm Hl p s [Hs Ht]. destruct (Hm p s) as [Hk _].
  { eapply Forall_impl; [exact Ht|]. intros t [Hd _] d. exact (Hd p d). }
  split; [by apply Hk|]. destruct (Hl s) as [l E]. unfold Tidb.turns in *.
  rewrite E in Ht. by apply Forall_app in Ht as [_ ?].
Qed.
Lemma harmless_exec {A} ctx (q : conn → stmt A) :
  (∀ p, effect_in (keeping_claim p) q) → harmless (exec ctx q).
Proof. intros Hq. apply harmless_in; [|apply exec_later]. intros p. by apply exec_in; [apply _|]. Qed.
Lemma harmless_gets {A} (f : sess → A) : harmless (gets f).
Proof. intros p. apply keeps_gets. Qed.

(** Statements that are steps sparing the group, and the reads. *)
Lemma effect_spared {A} (q : conn → stmt A) p :
  (∀ c d d' a, q c d = inl (d', a) → ∃ act, step act d d' ∧ spares G act) →
  effect_in (keeping_claim p) q.
Proof. intros Hq c d d' a (act & Hs & Hsp)%Hq Hsafe. by eapply log_safe_step. Qed.
Lemma effect_acquire p n h dl t : effect_in (keeping_claim p) (λ c, q_acquireLock c n h dl t).
Proof. apply effect_spared. intros c d d' a Hq. eexists. split; [by eapply step_acquire|done]. Qed.
Lemma effect_release p n h : effect_in (keeping_claim p) (λ _, q_releaseLock n h).
Proof. apply effect_spared. intros c d d' [] Hq. eexists. split; [by eapply step_release|done]. Qed.
Lemma effect_sweep p cut l : effect_in (keeping_claim p) (λ _, q_sweep cut l).
Proof. apply effect_spared. intros c d d' a Hq. eexists. split; [by eapply step_sweep|done]. Qed.
Lemma effect_init p t : joined G = true → effect_in (keeping_claim p) (λ _, q_initOffset (group G) t).
Proof.
  intros Hj c d d' [] Hq Hs. destruct (sf_joined _ _ _ Hs Hj) as (l & u & Hl & _).
  unfold q_initOffset in Hq. by rewrite Hl in Hq.
Qed.

Ltac harmless_run :=
  repeat first
    [ eassumption | apply harmless_ret | apply harmless_gets
    | apply harmless_exec; intros ?; first [apply effect_reads; apply _|apply effect_acquire|
        apply effect_release|apply effect_sweep|by apply effect_init]
    | apply harmless_bind; [|intros ?] | case_match ].

Lemma now_harmless : harmless (now : M sess Z).
Proof. unfold now, sess_host, rsNow. harmless_run. Qed.
Lemma StoreNow_harmless c : harmless (StoreNow c).
Proof. unfold StoreNow, rsNow. harmless_run. Qed.
Lemma Offset_harmless c : harmless (Offset c (group G)).
Proof. unfold Offset. harmless_run. Qed.
Lemma ListMessages_harmless c a n : harmless (ListMessages c a n).
Proof. unfold ListMessages. harmless_run. Qed.
Lemma holdsLeaderLock_harmless c n h : harmless (holdsLeaderLock c n h).
Proof. unfold holdsLeaderLock. harmless_run. Qed.
Lemma TryAcquire_harmless c n h t : harmless (TryAcquireLeaderLock c n h t).
Proof. pose proof holdsLeaderLock_harmless. unfold TryAcquireLeaderLock, rsNow. harmless_run; eauto. Qed.
Lemma Release_harmless c n h : harmless (ReleaseLeaderLock c n h).
Proof. unfold ReleaseLeaderLock. harmless_run. Qed.
Lemma Sweep_harmless ret c n : harmless (SweepMessages ret c n).
Proof. unfold SweepMessages, rsNow. harmless_run. Qed.
Lemma Init_harmless c : joined G = true → harmless (InitOffsetLatest c (group G)).
Proof. intros. unfold InitOffsetLatest, rsNow. harmless_run. Qed.
Lemma Sequence_harmless c n : in64 n → harmless (SequenceMessages c n).
Proof.
  intros Hn. assert (harmless (sequenceLocked c n)).
  { apply harmless_in; [|apply sequenceLocked_later]. intros p. apply sequenceLocked_in; [apply _|].
    intros d d' k Hq Hs. eapply log_safe_step; [by eapply step_sequence|done|done]. }
  unfold SequenceMessages. harmless_run.
Qed.

(** *** The statements that read or move the claim *)

(** One statement under a claim: whatever the turn, it ran on tables where the
    claim holds, if it ran. *)
Lemma exec_claim {A} ctx (q : conn → stmt A) p s (J : db → Prop) :
  (∀ t d, decent t → log_safe G p d → J d → J (others t d)) →
  Safe p s → J (tables s) →
  let '(r, s') := exec ctx q s in
  Forall decent (turns s') ∧
  ((∃ c d a, log_safe G p d ∧ J d ∧ q c d = inl (tables s', a) ∧ (r = inl a ∨ ∃ e, r = inr e ∧ foreign e)) ∨
   log_safe G p (tables s') ∧ J (tables s') ∧ ∃ e, r = inr e ∧
     (foreign e ∨ e = cx_err ctx ∨ ∃ c d, q c d = inr e)).
Proof.
  intros HJ [Hs Ht] Hj. pose proof (exec_later ctx q s) as [l El].
  assert (Ht' : Forall decent (turns (exec ctx q s).2)).
  { rewrite El in Ht. by apply Forall_app in Ht as [_ ?]. }
  unfold exec in *. destruct (ErrAt ctx (time s)) as [e|] eqn:Ee.
  { split; [done|]. right. split_and!; try done. exists e. split; [done|]. right. left.
    unfold ErrAt in Ee. by case_match; simplify_eq. }
  unfold begin_turn in *. destruct (turns s) as [|t ts] eqn:E; simpl in *.
  - destruct (q (link s) (tables s)) as [[d a]|e] eqn:Eq; simpl in *; (split; [done|]).
    + left. eauto 10.
    + right. eauto 10.
  - apply Forall_cons in Ht as [[Hd Hf] _].
    assert (log_safe G p (others t (tables s))) by by apply Hd.
    assert (J (others t (tables s))) by (by apply HJ).
    destruct (how t) as [|e|e]; simpl in *.
    + destruct (q (link s) (others t (tables s))) as [[d a]|e] eqn:Eq; simpl in *; (split; [done|]);
        [left|right]; eauto 10.
    + split; [done|]. right. eauto 10.
    + destruct (q (link s) (others t (tables s))) as [[d a]|e'] eqn:Eq; simpl in *; (split; [done|]);
        [left|right]; eauto 12.
Qed.

Lemma Offset_claim c p s o b :
  0 <= began G → Safe p s → (Offset c (group G) s).1 = inl (o, b) → Safe o (Offset c (group G) s).2.
Proof.
  intros Hb Hs. unfold Offset. rewrite run_bind.
  pose proof (exec_claim c (λ _, q_offset (group G)) p s (λ _, True) ltac:(done) Hs I) as Hx.
  destruct (exec _ _ s) as [r s']. destruct Hx as [Ht Hx]. rewrite run_ret. cbn [fst snd].
  destruct Hx as [(cn & d & a & Hd & _ & Hq & Hr)|(Hd & _ & e & -> & _)].
  - assert (∃ u, d = tables s' ∧ offsets d !! group G = Some (a, u)) as (u & -> & Ho).
    { unfold q_offset in Hq. destruct (offsets d !! group G) as [[l u]|]; [|done].
      injection Hq as -> ->. eauto. }
    intros Hres. split; [|done]. destruct Hr as [->|(e & -> & _)].
    + injection Hres as <- <-. destruct Hd as [Hok Hids Hc Hw Hj Hk]. split; try done. by eapply Hw.
    + case_match; [|done]. injection Hres as <- <-. by eapply log_safe_zero.
  - intros Hres. case_match; [|done]. injection Hres as <- <-. split; [|done]. by eapply log_safe_zero.
Qed.
Lemma Init_claim c p s o :
  0 <= began G → joined G = true → Safe p s → (InitOffsetLatest c (group G) s).1 = inl o →
  Safe o (InitOffsetLatest c (group G) s).2.
Proof.
  intros Hb Hj Hs. unfold InitOffsetLatest, rsNow. rewrite run_bind, run_gets. cbn [fst snd].
  rewrite run_bind.
  pose proof (harmless_exec c (λ _, q_initOffset (group G) (time s)) (λ p, effect_init p (time s) Hj) p s Hs) as Hs1.
  destruct (exec _ _ s) as [r s1]. cbn [fst snd] in *.
  assert (Hrb : ∀ o, (v ← exec c (λ _, q_offset (group G));
      mret (ewrap "outbox: init offset latest read back" (v : Z + err)) : M sess (res Z)) s1 =
      (inl o, (exec c (λ _, q_offset (group G)) s1).2) →
      Safe o (exec c (λ _, q_offset (group G)) s1).2).
  { intros o' Hrun. rewrite run_bind, run_ret in Hrun. injection Hrun as Hv.
    pose proof (Offset_claim c p s1 o' true Hb Hs1) as Ho. unfold Offset in Ho.
    rewrite run_bind, run_ret in Ho. cbn [fst snd] in Ho. apply Ho.
    destruct (exec _ _ s1).1; simpl in *; by simplify_eq. }
  rewrite run_bind, run_ret in Hrb. cbn [fst snd] in Hrb.
  destruct r as [u|e]; [|destruct (isDuplicateKey e); [|done]]; rewrite run_bind, run_ret;
    cbn [fst snd]; intros Hres; apply Hrb; by rewrite Hres.
Qed.
Lemma List_claim c a n s msgs e s' :
  foreign (cx_err c) → Safe a s → ListMessages c a n s = ((msgs, e), s') →
  (∀ j, Forall (delivered G) (take j msgs) → Safe (last_seq a (take j msgs)) s') ∧
  (∀ cause id seq, As asSeqDecode e = Some (cause, id, seq) → Forall (delivered G) msgs →
     delivered G (stub id seq) → Safe (Z.max (last_seq a msgs) seq) s').
Proof.
  intros Hc Hs Hrun. unfold ListMessages in Hrun. rewrite run_bind, run_ret in Hrun.
  pose proof (exec_claim c (λ _, q_list a n) a s (λ _, True) ltac:(done) Hs I) as Hx.
  destruct (exec _ _ s) as [r s1]. destruct Hx as [Ht Hx]. cbn [fst snd] in Hrun.
  assert (Hbad : ∀ er, foreign er → log_safe G a (tables s1) →
    (([], Some (wrapf "outbox: list" er)), s1) = ((msgs, e), s') →
    (∀ j, Forall (delivered G) (take j msgs) → Safe (last_seq a (take j msgs)) s') ∧
    (∀ cause id seq, As asSeqDecode e = Some (cause, id, seq) → Forall (delivered G) msgs →
       delivered G (stub id seq) → Safe (Z.max (last_seq a msgs) seq) s')).
  { intros er Hf Hd [= <- <- <-]. split; [intros j _; by rewrite take_nil|].
    intros cause id seq He. exfalso. unfold foreign, As in Hf. simpl in Hf, He. by rewrite Hf in He. }
  destruct Hx as [(cn & d & rows & Hd & _ & Hq & Hr)|(Hd & _ & er & -> & Hf)].
  - assert (d = tables s1 ∧ rows = ztake n (above a d)) as [-> ->].
    { unfold q_list in Hq. destruct (n <? 0); [done|]. by injection Hq as -> <-. }
    destruct Hr as [->|(er & -> & Hf)]; [|by apply (Hbad er)].
    injection Hrun as Hdec <-. destruct (listed_claims G a _ n msgs e Hd Hdec) as [H1' H2'].
    split; intros; (split; [|done]); eauto.
  - apply (Hbad er); [|done|done]. destruct Hf as [?|[->|(cn & d & Hq)]]; [done|done|].
    unfold q_list in Hq. destruct (n <? 0); [|done]. by injection Hq as <-.
Qed.
Lemma Commit_claim c q p s : Safe q s → Safe p s → Safe p (CommitOffset c (group G) q s).2.
Proof.
  intros Hq Hp. unfold CommitOffset, rsNow. rewrite run_bind, run_gets. cbn [fst snd].
  rewrite run_bind, run_ret. cbn [snd].
  pose proof (exec_claim c (λ cn, q_commitOffset cn (group G) q (time s)) p s (log_safe G q)
    ltac:(intros t d [Ho _] _; apply Ho) Hp (proj1 Hq)) as Hx.
  destruct (exec _ _ s) as [r s1]. destruct Hx as [Ht Hx]. cbn [snd]. split; [|done].
  destruct Hx as [(cn & d & a & Hd & Hdq & Hq' & _)|(Hd & _)]; [|done]. by eapply log_safe_commit.
Qed.
Lemma Fenced_claim c lk h q p s :
  Safe q s → Safe p s → Safe p (CommitOffsetFenced c (group G) lk h q s).2.
Proof.
  intros Hq Hp. unfold CommitOffsetFenced, rsNow. rewrite run_bind, run_gets. cbn [fst snd].
  rewrite run_bind.
  pose proof (exec_claim c (λ cn, q_commitFenced cn (group G) lk h q (time s)) p s (log_safe G q)
    ltac:(intros t d [Ho _] _; apply Ho) Hp (proj1 Hq)) as Hx.
  destruct (exec _ _ s) as [r s1]. destruct Hx as [Ht Hx]. cbn [fst snd].
  assert (Hs1 : Safe p s1).
  { split; [|done]. destruct Hx as [(cn & d & a & Hd & Hdq & Hq' & _)|(Hd & _)]; [|done].
    by eapply log_safe_fenced. }
  destruct r as [k|e]; [|done]. destruct (0 <? k); [done|]. by apply holdsLeaderLock_harmless.
Qed.

(** ** The relay on the store *)

(** A relay whose store and capabilities are those of this package. *)
Record on_tidb (r : Relay sess) : Prop := mkOnTidb {
  ot_name : name r = group G;
  ot_store : store r = relay_store;
  ot_leader st : ls (leader r) = Some st → st = relay_leader;
  ot_sequencer q : sequencer r = Some q → q = SequenceMessages;
  ot_fenced f : fenced r = Some f → f = CommitOffsetFenced;
  ot_retention w : retention r = Some w → ∃ window, w = SweepMessages window;
  ot_clock k : clock r = Some k → k = StoreNow;
  ot_batch : in64 (SequenceBatchSize (opts r));
  ot_start : StartFromBeginning (opts r) = false → joined G = true }.

Lemma tidb_log_store (r : Relay sess) :
  0 <= began G → on_tidb r → harmless_lane (lane r) → LogStore r (delivered G).
Proof.
  intros Hb Hr Hl. split.
  - done.
  - split; [apply now_harmless| |]; intros st c n h; [intros t|]; intros Hst;
      rewrite (ot_leader r Hr _ Hst); [apply TryAcquire_harmless|apply Release_harmless].
  - intros q c Hq. rewrite (ot_sequencer r Hr _ Hq). by apply Sequence_harmless, ot_batch.
  - intros w c n Hw. destruct (ot_retention r Hr _ Hw) as [win ->]. apply Sweep_harmless.
  - intros k c Hk. rewrite (ot_clock r Hr _ Hk). apply StoreNow_harmless.
  - intros p w [Hs ?]. split; [|done]. by eapply log_safe_zero.
  - intros c. rewrite (ot_name r Hr), (ot_store r Hr). apply Offset_harmless.
  - intros c p w o b. rewrite (ot_name r Hr), (ot_store r Hr). by apply Offset_claim.
  - intros c Hj%(ot_start r Hr). rewrite (ot_name r Hr), (ot_store r Hr). by apply Init_harmless.
  - intros c p w o Hj%(ot_start r Hr). rewrite (ot_name r Hr), (ot_store r Hr). by apply Init_claim.
  - intros c a n. rewrite (ot_store r Hr). apply ListMessages_harmless.
  - intros c a n w msgs e w' Hc. rewrite (ot_store r Hr). by apply List_claim.
  - intros c q p w. rewrite (ot_name r Hr), (ot_store r Hr). apply Commit_claim.
  - intros f c q p w Hf. rewrite (ot_name r Hr), (ot_fenced r Hr _ Hf). apply Fenced_claim.
Qed.
End instance.
