(* ===== verification/Group.v ===== *)
(** * Relays of one group side by side

    [group_run]: what may happen to the tables of an outbox in which any number
    of relays of one consumer group run, each tick of each interleaved at every
    statement with the others, with publishers, with the relays of other groups
    and with the sweeps. Nothing is assumed of leadership: two relays that both
    believe to lead are covered. Whatever happens, a row at or below the group's
    watermark was sent or parked by one of them, and so was a row past the
    position the group began at that left the log. *)
From S2P Require Import Prelude Errors GoLib Event Json Envelope Bound Relay Scenario Notify Leader Lane RelayCfg Sequence SequenceFacts Safety SequenceDelivery TidbDb TidbLog Tidb TidbProps TidbContract TidbDelivery.
#[local] Open Scope Z_scope.

(** The user's code and the ticker have no business with the store's session;
    time may pass in them. *)
Definition detached {A} (m : M sess A) : Prop :=
  ∀ w, tables (m w).2 = tables w ∧ turns (m w).2 = turns w.
Record detached_lane `{UrlLib} (l : Lane sess Z) : Prop := mkDetachedLane {
  dl_send c md d : detached (Sender l c md d);
  dl_batch b c ms : Batch l = Some b → detached (b c ms);
  dl_poison h c m x : Poison l = Some h → detached (h c m x) }.

(** What [NewRelay] builds from the store of this package is on it. *)
Section construction.
Context `{UrlStruct} `{GoJson} `{Uuid} `{Planner}.
Context (G : account).
Lemma NewRelay_parts {W} render holder n st sender (caps : capabilities (W := W)) (o : options W) r :
  NewRelay render holder n (Some st) sender caps o = inl r →
  name r = n ∧ store r = st ∧
  (∀ l, ls (leader r) = Some l → capLeader caps = Some l) ∧
  (∀ q, sequencer r = Some q → capSequencer caps = Some q) ∧
  (∀ f, fenced r = Some f → capFenced caps = Some f) ∧
  (∀ w, retention r = Some w → capSweeper caps = Some w) ∧
  clock r = capClock caps ∧
  SequenceBatchSize (opts r) = SequenceBatchSize o ∧
  StartFromBeginning (opts r) = StartFromBeginning o ∧
  (∃ sd, sender = Some sd ∧ Sender (lane r) = sd) ∧ Batch (lane r) = capBatch caps ∧
  Poison (lane r) = HPoisonHandler (oHooks o) ∧ hooks_ok (lane r) ∧
  (ls (leader r) = None → fenced r = None) ∧
  0 < BatchSize (opts r) ∧ 0 < SequenceBatchSize (opts r) ∧ 0 < optimeout r ∧ 0 < ttl (leader r) ∧
  (∀ w, retention r = Some w → 0 < RetentionSweepBatch (opts r)).
Proof.
  unfold NewRelay. destruct (ValidateName n); [done|]. destruct sender as [sd|]; [|done]. simpl ValidateDeps. cbn iota.
  destruct (PollInterval o <=? 0); [done|].
  destruct (Z.leb_spec (BatchSize o) 0); [done|]. destruct (Z.leb_spec (SequenceBatchSize o) 0); [done|].
  pose proof (Lease_Validate_accepts (oLease o) n (PollInterval o)) as [Hlease _].
  destruct (Lease_Validate_fields (oLease o) n (PollInterval o)) as [Ettl Edis].
  destruct (Lease_Validate _ _ _) as [lease [er|]]; [done|]. destruct (Hlease eq_refl) as (_ & Httl & _).
  simpl in Ettl, Edis. destruct (Ops_Validate _ _ _) eqn:Eops; [done|]. apply Ops_Validate_accepts in Eops as (Hop & _).
  destruct (Hooks_Validate _) eqn:Eh; [done|].
  destruct (_ && _); [done|]. destruct (negb _ && _) eqn:Esw; [done|].
  destruct (ElectorOf lease (capLeader caps) holder) as [el|] eqn:Eel; [|done].
  destruct (ElectorOf_fields _ _ _ _ Eel) as (Hel & Htt & Hdis).
  cbv zeta. destruct (if SequencerDisabled o then _ else _) as [q|] eqn:Eq; [|done].
  assert (Hq : ∀ q', q = Some q' → capSequencer caps = Some q').
  { revert Eq. destruct (SequencerDisabled o), (capSequencer caps); intros; by simplify_eq/=. }
  destruct (if RetentionDisabled o then _ else _) as [w|] eqn:Er; [|done].
  assert (Hw : ∀ w', w = Some w' → capSweeper caps = Some w').
  { revert Er. destruct (RetentionDisabled o), (capSweeper caps), (RetentionConfigured o);
      intros; by simplify_eq/=. }
  assert (Hsw : ∀ w', w = Some w' → 0 < RetentionSweepBatch o).
  { destruct (RetentionDisabled o); [by injection Er as <-|]. zbool. simpl in Esw. zbool. lia. }
  destruct (if negb (FencedCommitWaived o) && _ then _ else _) as [f|] eqn:Ef; [|done].
  assert (Hf : ∀ f', f = Some f' → capFenced caps = Some f').
  { revert Ef. destruct (FencedCommitWaived o), (LeaderElectionDisabled (oLease o)), (capFenced caps);
      intros; by simplify_eq/=. }
  assert (Hff : ls el = None → f = None).
  { intros Hno%Hdis. revert Ef. rewrite <-Edis, Hno, andb_false_r. by intros [= <-]. }
  intros [= <-]. unfold optimeout. simpl. rewrite Htt, Ettl. split_and!; eauto.
  intros Hu. unfold Hooks_Validate in Eh. simpl in *.
  by destruct (HUnsendable (oHooks o)), (HPoisonHandler (oHooks o)).
Qed.
Lemma NewRelay_on_tidb render holder sender window batch o r :
  NewRelay render holder (group G) (Some relay_store) sender (relay_capabilities window batch) o = inl r →
  in64 (SequenceBatchSize o) → (StartFromBeginning o = false → joined G = true) → on_tidb G r.
Proof.
  intros (En & Es & Hl & Hq & Hf & Hw & Hk & Eb & Est & _)%NewRelay_parts Hb Hj. split.
  - done.
  - done.
  - intros st Hst%Hl. by injection Hst.
  - intros q Hq'%Hq. by injection Hq'.
  - intros f Hf'%Hf. by injection Hf'.
  - intros w Hw'%Hw. injection Hw' as <-. eauto.
  - intros k. rewrite Hk. by intros [= <-].
  - by rewrite Eb.
  - by rewrite Est.
Qed.
End construction.

Section group.
Context `{UrlStruct} `{GoJson} `{Uuid} `{Planner}.
Context (G : account).
#[local] Instance group_safety : Safety Z sess := tidb_safety G.

(** A statement's turn: the others do what the group may do, and the driver's
    errors are the driver's. *)
Inductive group_run : db → db → Prop :=
| run_nil d : group_run d d
| run_step a d d1 d2 :
    step a d d1 → spares G a → group_run d1 d2 → group_run d d2
| run_relay (r : Relay sess) wait rounds ctx s k d2 :
    on_tidb G r → hooks_ok (lane r) → detached_lane (lane r) → (∀ c, detached (wait c)) →
    plain_cx ctx →
    (∀ t, t ∈ turns (world (base s)) →
       match how t with Refused e | Lost e => foreign e | Reply => True end) →
    (∀ t d, t ∈ turns (world (base s)) → group_run d (others t d)) →
    trace (base (Run r wait rounds ctx s).2) = trace (base s) ++ k →
    Forall (delivered G) (disposed k) →
    group_run (tables (world (base (Run r wait rounds ctx s).2))) d2 →
    group_run (tables (world (base s))) d2.

Lemma detached_harmless {A} (m : M sess A) : detached m → harmless m.
Proof.
  intros Hm p w [Hs Ht]. destruct (Hm w) as [E1 E2]. split; [by rewrite E1|by rewrite E2].
Qed.
Lemma detached_lane_harmless (l : Lane sess Z) : detached_lane l → harmless_lane l.
Proof.
  intros [Hs Hb Hp]. split.
  - apply detached_harmless. done.
  - intros. by apply detached_harmless.
  - intros. eapply detached_harmless, Hb. done.
  - intros. eapply detached_harmless, Hp. done.
Qed.

Lemma group_run_safe d d' p : 0 <= began G → group_run d d' → log_safe G p d → log_safe G p d'.
Proof.
  intros Hb Hrun. revert p.
  induction Hrun as [d|a d d1 d2 Hs Ha _ IH|r wait rounds ctx s k d2 Hr Hok Hl Hw Hctx Hf _ Hoth Hk HD _ IH];
    intros p Hsafe; [done|by eapply IH, log_safe_step|].
  apply IH. clear IH.
  destruct (Run_keeps r (delivered G) p wait rounds ctx) with (s := s) as (k' & Hk' & Hpost).
  - apply tidb_log_store; [done..|]. by apply detached_lane_harmless.
  - done.
  - intros c. by apply detached_harmless.
  - done.
  - assert (k' = k) as ->.
    { apply (app_inv_head (trace (base s))). rewrite <-Hk. symmetry. exact Hk'. }
    destruct (Hpost HD) as [? _]; [|done]. split; [done|].
    apply Forall_forall. intros t Ht. split; [by intros; eapply Hoth|by apply Hf].
Qed.

(** The account is opened on a sound log: at the group's watermark, or, for a
    group that is not registered yet and will read from the start, at zero. The
    rows it follows are in the log. *)
Definition opened (d : db) : Prop :=
  log_ok d ∧ Forall (λ r, len (r_event r) = 16) (messages d) ∧
  match offsets d !! group G with
  | Some (l, _) => 0 <= began G ∧ l = began G ∧ l < cnt d
  | None => began G = 0 ∧ joined G = false
  end ∧
  ∀ r, followed G r → r ∈ messages d.
Lemma opened_safe d : opened d → 0 <= began G ∧ log_safe G 0 d.
Proof.
  intros (Hok & Hids & Hg & Hf). split; [by destruct (offsets d !! group G) as [[??]|]; lia|].
  assert (0 < cnt d) by (destruct Hok as [_ _ _ _ (n & Hn & ? & _)]; unfold cnt; rewrite Hn; simpl; lia).
  assert (Hcl : ∀ l, l <= began G → l < cnt d → claimed G l d) by (split; [done|intros; lia]).
  split; [done|done| | | |].
  - apply Hcl; [|done]. by destruct (offsets d !! group G) as [[??]|]; lia.
  - intros l u E. rewrite E in Hg. apply Hcl; lia.
  - intros Hj. destruct (offsets d !! group G) as [[l u]|]; [|destruct Hg; congruence].
    exists l, u. split; [done|lia].
  - intros _ r Hr Ha. left. exists r. split_and!; [auto|apply same_row_refl|done].
Qed.

(** C1: at-least-once delivery. In any run of the group on a sound log, every row of
    the log that carries a number above the position where the account was opened
    and at or below the group's watermark was disposed of by one of the relays:
    the message sent is the one the row decodes to, or the row does not decode
    and was parked. *)
Theorem watermark_delivered d d' l u r s :
  opened d → group_run d d' →
  offsets d' !! group G = Some (l, u) → r ∈ messages d' → r_seq r = Some s → began G < s <= l →
  ∃ m, delivered G m ∧ accounts_for m r.
Proof.
  intros [Hb Hs]%opened_safe Hrun Hl Hr Hrs Hle.
  destruct (group_run_safe d d' 0 Hb Hrun Hs) as [_ _ _ Hw _ _].
  destruct (Hw _ _ Hl) as [_ Hc]. by eapply Hc.
Qed.

(** C2: no event is lost. Take an event of the log when the account of a
    registered group was opened, past the position the group began at. After any
    run of the group's relays it is still in the log with its content, or one of
    the relays disposed of it: the message sent is the one the row decodes to
    under the number it was given, which lies past that position, or the row
    does not decode and was parked under that number. *)
Theorem no_event_lost d d' r0 :
  opened d → joined G = true → followed G r0 → beyond G r0 → group_run d d' →
  (∃ r, r ∈ messages d' ∧ same_row r r0) ∨
  ∃ r s m, same_row r r0 ∧ r_seq r = Some s ∧ began G < s ∧ delivered G m ∧ accounts_for m r.
Proof.
  intros [Hb Hs]%opened_safe Hj Hf Ha Hrun.
  destruct (group_run_safe d d' 0 Hb Hrun Hs) as [_ _ _ _ _ Hk].
  destruct (Hk Hj r0 Hf Ha) as [(r & Hr & Hsame & _)|(r & s & ? & ? & ? & m & ? & ?)].
  - left. eauto.
  - right. exists r, s, m. done.
Qed.
End group.
