(* ===== verification/Healthy.v ===== *)
(** * A healthy relay catches up

    At-least-once delivery says that nothing is passed over; this file says that
    the relay gets there. Alone with a log whose rows decode, with a sender that
    confirms and a lock it can take, a tick of a relay on the TiDB store numbers
    the pending rows, delivers the log and commits the positions without an
    error, as far as the pages of a tick go; a run of enough ticks reaches the
    end of any log. *)
From S2P Require Import Prelude Errors GoLib Event Json Envelope Bound Relay Scenario Notify Leader Lane RelayCfg Sequence SequenceFacts SequenceProps Safety Steady SequenceDelivery TidbDb TidbLog Tidb TidbProps TidbContract TidbDelivery Group.
From stdpp Require Import sorting.
#[local] Open Scope Z_scope.

(** ** The log *)
Definition npending (d : db) : nat := length (filter pending (messages d)).

Section log.
Lemma filter_all {A} (P : A → Prop) `{∀ x, Decision (P x)} (l : list A) :
  (∀ x, x ∈ l → P x) → filter P l = l.
Proof.
  induction l as [|x l IH]; intros Hl; [done|]. rewrite filter_cons_True by (apply Hl; left).
  f_equal. apply IH. intros y Hy. apply Hl. by right.
Qed.
Lemma filter_none {A} (P : A → Prop) `{∀ x, Decision (P x)} (l : list A) :
  (∀ x, x ∈ l → ¬ P x) → filter P l = [].
Proof.
  induction l as [|x l IH]; intros Hl; [done|]. rewrite filter_cons_False by (apply Hl; left).
  apply IH. intros y Hy. apply Hl. by right.
Qed.
Lemma seqs_pending d : (length (seqs d) + npending d = length (messages d))%nat.
Proof.
  unfold seqs, npending. induction (messages d) as [|x l IH]; [done|].
  rewrite filter_cons. unfold pending, sequenced in *. cbn [omap list_omap].
  destruct (r_seq x); simpl in *; lia.
Qed.
Lemma npending_assigned next limit d :
  log_ok d → counter d = Some next →
  Z.of_nat (npending (assigned_db next (page limit d) d)) = Z.of_nat (npending d) - zlen (page limit d).
Proof.
  intros Hok Hc. pose proof (seqs_pending d) as Hd.
  pose proof (seqs_pending (assigned_db next (page limit d) d)) as Hd'.
  pose proof (Permutation_length (seqs_assigned next limit d (lo_ids _ Hok))) as Hs.
  rewrite length_app, length_seqZ in Hs. simpl messages in Hd'. rewrite length_fmap in Hd'.
  unfold zlen in *. lia.
Qed.
Lemma page_all limit d :
  0 <= limit → zlen (page limit d) = Z.min limit (Z.of_nat (npending d)).
Proof. intros. unfold page, ztake, zlen, npending. rewrite length_take, merge_sort_Permutation. lia. Qed.
Lemma npending_zero d : npending d = 0%nat → ∀ x, x ∈ messages d → ∃ q, r_seq x = Some q.
Proof.
  intros Hn%length_zero_iff_nil x Hx. destruct (r_seq x) as [q|] eqn:E; [eauto|]. exfalso.
  assert (x ∈ filter pending (messages d)) as Hin; [|rewrite Hn in Hin; by apply elem_of_nil in Hin].
  apply list_elem_of_filter. split; [|done]. unfold pending, sequenced. by rewrite E.
Qed.

(** The log past a page. *)
Lemma above_nodup o d : log_ok d → NoDup (seq_of <$> above o d).
Proof.
  intros Hok. assert (NoDup (above o d)) as Hnd.
  { unfold above. rewrite merge_sort_Permutation. apply NoDup_filter.
    eapply NoDup_fmap_1, (lo_ids _ Hok). }
  apply NoDup_fmap_2_strong; [|done].
  intros x y (Hx & q & Hq & _)%elem_of_above (Hy & q' & Hq' & _)%elem_of_above.
  unfold seq_of. rewrite Hq, Hq'. simpl. intros <-. eapply NoDup_omap_eq; eauto using lo_seqs.
Qed.
Lemma above_past o d front rest x :
  log_ok d → above o d = (front ++ [x]) ++ rest → above (seq_of x) d ≡ₚ rest.
Proof.
  intros Hok E. pose proof (above_sorted o d) as Hs. pose proof (above_nodup o d Hok) as Hnd.
  rewrite E in Hs, Hnd. apply StronglySorted_app_inv in Hs as [Hs1 Hs2].
  apply StronglySorted_app_inv in Hs1 as [_ Hs1].
  rewrite fmap_app, NoDup_app in Hnd. destruct Hnd as (_ & Hnd & _).
  assert (Hx : o < seq_of x).
  { assert (x ∈ above o d) as (_ & q & Hq & ?)%elem_of_above by (rewrite E; set_solver).
    unfold seq_of. by rewrite Hq. }
  assert (Hp : above (seq_of x) d ≡ₚ filter (λ y, seq_of x < seq_of y) (above o d)).
  { unfold above. rewrite !merge_sort_Permutation, list_filter_filter.
    erewrite list_filter_iff; [reflexivity|]. intros y. simpl. split; [|tauto]. intros [??]. split; [done|].
    split; [done|lia]. }
  rewrite Hp, E, filter_app. clear Hp.
  assert (filter (λ y, seq_of x < seq_of y) (front ++ [x]) = []) as ->.
  { apply filter_none. intros y Hy%elem_of_app. destruct Hy as [Hy|Hy%list_elem_of_singleton].
    - specialize (Hs1 y x Hy ltac:(left)). unfold by_seq in Hs1. lia.
    - subst. lia. }
  simpl. assert (filter (λ y, seq_of x < seq_of y) rest = rest) as ->; [|done].
  apply filter_all. intros y Hy. pose proof (Hs2 x y ltac:(set_solver) Hy) as Hle. unfold by_seq in Hle.
  assert (seq_of x ≠ seq_of y); [|lia]. intros Heq.
  apply (Hnd (seq_of x)); [|rewrite Heq]; apply list_elem_of_fmap_2; set_solver.
Qed.
End log.

(** ** Running alone *)

(** The session is as it was but for the time. *)
#[export] Instance sess_steady : Steady sess.
Proof.
  refine {| idle w w' := tables w' = tables w ∧ turns w' = turns w |}.
  - split; [by intros w|]. intros w1 w2 w3 [E1 E2] [E3 E4]. split; congruence.
  - by intros w.
Defined.
Section tick.
Context `{UrlStruct} `{GoJson} `{Uuid} `{Planner}.
#[local] Abbreviation S := (seqst sess).

(** What a call does to the tables when no other session has a turn. *)
Definition alone {A} (P : db → Prop) (m : M S A) (Q : A → db → Prop) : Prop := ∀ s,
  turns (world (base s)) = [] → P (tables (world (base s))) →
  turns (world (base (m s).2)) = [] ∧ Q (m s).1 (tables (world (base (m s).2))).
Lemma alone_bind {A B} (m : M S A) (f : A → M S B) P R Q :
  alone P m R → (∀ a, alone (R a) (f a) Q) → alone P (m ≫= f) Q.
Proof. intros Hm Hf s Ht HP. rewrite run_bind. destruct (Hm s Ht HP). by apply Hf. Qed.
Lemma alone_ret {A} (a : A) (P : db → Prop) Q : (∀ d, P d → Q a d) → alone P (mret a) Q.
Proof. intros HQ s Ht HP. split; [done|]. by apply HQ. Qed.
Lemma alone_pre {A} (m : M S A) (P P' : db → Prop) Q :
  alone P' m Q → (∀ d, P d → P' d) → alone P m Q.
Proof. intros Hm HP s Ht Hs. apply Hm; auto. Qed.
Lemma alone_post {A} (m : M S A) P (Q Q' : A → db → Prop) :
  alone P m Q' → (∀ a d, Q' a d → Q a d) → alone P m Q.
Proof. intros Hm HQ s Ht Hs. destruct (Hm s Ht Hs). auto. Qed.
(** A fact that does not depend on the tables. *)
Lemma alone_pure {A} (C : Prop) (m : M S A) P Q : (C → alone P m Q) → alone (λ d, C ∧ P d) m Q.
Proof. intros Hm s Ht [HC HP]. by apply Hm. Qed.
Lemma alone_some {A B} (P : B → db → Prop) (m : M S A) Q :
  (∀ b, alone (P b) m Q) → alone (λ d, ∃ b, P b d) m Q.
Proof. intros Hm s Ht [b HP]. by apply (Hm b). Qed.
Lemma alone_end {A} (m : M S A) P a (K : db → Prop) s :
  alone P m (λ x d, x = a ∧ K d) → turns (world (base s)) = [] → P (tables (world (base s))) →
  (m s).1 = a ∧ turns (world (base (m s).2)) = [] ∧ K (tables (world (base (m s).2))).
Proof. intros Hm Ht HP. destruct (Hm s Ht HP) as (? & ? & ?). done. Qed.

Lemma alone_still {A} (m : M S A) P : respects still m → alone P m (λ _, P).
Proof. intros Hm s Ht HP. destruct (Hm s) as [E1 E2]. unfold situation, seqst_situated in *. by rewrite E1, E2. Qed.
Lemma settled_alone {A} (m : M S A) P (a : A) : settled m a → alone P m (λ x d, x = a ∧ P d).
Proof. intros [Hm Ha] s Ht HP. destruct (alone_still m P Hm s Ht HP). by rewrite (Ha s). Qed.
Lemma still_up {A} (m : M (core sess Z) A) : respects still m → respects (still (S := S)) (up m).
Proof. intros Hm s. exact (Hm (base s)). Qed.
Lemma settled_up {A} (m : M (core sess Z) A) a : settled m a → settled (S := S) (up m) a.
Proof. intros [Hm Ha]. split; [by apply still_up|]. intros s. apply Ha. Qed.
Lemma still_set_pass t b : respects (still (S := S)) (set_pass t b).
Proof. intros s. unfold still. by apply reflexivity. Qed.
Lemma still_set_lastSweep t : respects (still (S := S)) (set_lastSweep t).
Proof. intros s. unfold still. by apply reflexivity. Qed.
End tick.
#[export] Hint Resolve still_set_pass still_set_lastSweep : still.
Ltac quiet_run := repeat first [lazymatch goal with |- respects _ (up _) => apply still_up end|still_step];
  try solve [eauto with still].

(** ** The tick *)

Section healthy.
Context `{UrlStruct} `{GoJson} `{Uuid} `{Planner}.
#[local] Abbreviation S := (seqst sess).
Context (r : Relay sess).

(** A relay on the store of this package, as [NewRelay] makes it. *)
Record on_store : Prop := mkOnStore {
  os_store : store r = relay_store;
  os_leader : (ls (leader r) = None ∧ fenced r = None) ∨ ls (leader r) = Some relay_leader;
  os_sequencer q : sequencer r = Some q → q = SequenceMessages;
  os_fenced f : fenced r = Some f → f = CommitOffsetFenced;
  os_retention w : retention r = Some w → ∃ window, w = SweepMessages window ∧ 0 <= RetentionSweepBatch (opts r);
  os_clock k : clock r = Some k → k = StoreNow;
  os_timeout : 0 < optimeout r;
  os_ttl : 0 < ttl (leader r);
  os_batch : 0 < BatchSize (opts r);
  os_sequence : 0 < SequenceBatchSize (opts r) < 2^63 }.
Context (Hr : on_store) (Hl : confirming (lane r)).

Definition readable (d : db) : Prop :=
  Forall (λ x, len (r_event x) = 16 ∧ ∃ md, UnmarshalMetadata (Some (r_meta x)) = inl md) (messages d).
(** This relay has the lock, where it is elected. *)
Definition elected (d : db) : Prop :=
  (ls (leader r) = None ∧ fenced r = None) ∨
  ls (leader r) = Some relay_leader ∧ ∃ e, locks d !! LockName (leader r) = Some (HolderID (leader r), e).
(** A sound log at whose position [o] the group is; [F] is what is known of the
    rows and the counter. *)
Definition sound (F : list row → option Z → Prop) (o : Z) (d : db) : Prop :=
  elected d ∧ log_ok d ∧ readable d ∧ (∃ u, offsets d !! name r = Some (o, u)) ∧
  F (messages d) (counter d).
Implicit Types (F : list row → option Z → Prop).

Lemma live_Commit t ttl : 0 < ttl → ErrAt (Commit t Background ttl) t = None.
Proof. apply live_Call. Qed.
Lemma alone_bounded {A} budget (call : cx → M sess A) P (Q : A → db → Prop) :
  (∀ t, ErrAt (budget t Background (optimeout r)) t = None) →
  (∀ c w, ErrAt c (time w) = None → turns w = [] → P (tables w) →
     turns (call c w).2 = [] ∧ Q (call c w).1 (tables (call c w).2)) →
  alone P (bounded r budget Background call) (λ x, Q x.2).
Proof.
  intros Hb Hc s Ht HP. unfold bounded. rewrite run_bind.
  change ((up (lift now) s).1) with (time (world (base s))).
  set (c := budget (time (world (base s))) Background (optimeout r)).
  apply (Hc c (world (base s))); [apply Hb|done|done].
Qed.
Lemma alone_tail {A} (m : M S unit) (a : A) (P : db → Prop) (Q : A → db → Prop) :
  respects still m → (∀ d, P d → Q a d) → alone P (m ;; mret a) Q.
Proof.
  intros Hm HQ. eapply alone_bind; [by apply alone_still|]. intros ?. by apply alone_ret.
Qed.

(** *** Leadership *)
Lemma lock_alone c w :
  ErrAt c (time w) = None → turns w = [] →
  (locks (tables w) !! LockName (leader r) = None ∨
   ∃ h e, locks (tables w) !! LockName (leader r) = Some (h, e) ∧ (e < time w ∨ h = HolderID (leader r))) →
  let n := LockName (leader r) in let h := HolderID (leader r) in
  TryAcquireLeaderLock c n h (ttl (leader r)) w =
    (inl true, with_tables w (with_locks (tables w) (<[n := (h, time w + ttl (leader r))]> (locks (tables w))))).
Proof.
  intros Hc Ht Hf n h. rewrite TryAcquireLeaderLock_spec by done.
  destruct Hf as [E|(h' & e & E & Hf)]; fold n in E; rewrite E; [done|].
  assert ((e <? time w) || String.eqb h' h = true) as ->; [|done].
  apply orb_true_iff. destruct Hf as [?| ->]; [left; lia|right; apply String.eqb_refl].
Qed.
Definition electable (w : sess) : Prop :=
  (ls (leader r) = None ∧ fenced r = None) ∨
  ls (leader r) = Some relay_leader ∧
  (locks (tables w) !! LockName (leader r) = None ∨
   ∃ h e, locks (tables w) !! LockName (leader r) = Some (h, e) ∧ (e < time w ∨ h = HolderID (leader r))).
Definition unlocked (K : db → Prop) : Prop := ∀ d l, K d → K (with_locks d l).
Lemma TryAcquire_alone K s :
  unlocked K → turns (world (base s)) = [] → electable (world (base s)) → K (tables (world (base s))) →
  let '(x, s') := up (TryAcquire (leader r) Background) s in
  x = inl true ∧ turns (world (base s')) = [] ∧ elected (tables (world (base s'))) ∧
  K (tables (world (base s'))).
Proof.
  intros HK Ht He Hs. unfold TryAcquire, up. destruct He as [[Els Ef]|(Els & Hf)]; rewrite Els.
  - simpl. split_and!; [done|done|by left|done].
  - rewrite !run_bind. set (w := world (base s)) in *.
    change ((lift now (base s)).1) with (time w). change ((lift now (base s)).2) with (mkCore w
      (trace (base s)) (stuck (base s)) (wasLeader (base s)) (isLeader (base s))).
    pose proof (lock_alone (Call (time w) Background (ttl (leader r))) w
      (live_Call _ _ (os_ttl Hr)) Ht Hf) as E. cbv zeta in E.
    unfold lift. simpl in E |- *. unfold LockName, HolderID in E. rewrite !E. simpl.
    split_and!; [done|done| |by apply HK].
    right. split; [done|]. simpl. rewrite lookup_insert_eq. eauto.
Qed.
Lemma elected_electable w : elected (tables w) → electable w.
Proof. intros [?|(? & e & ?)]; [by left|right]. split; [done|]. right. eauto 6. Qed.
Lemma unlocked_sound F o : unlocked (λ d, log_ok d ∧ readable d ∧ (∃ u, offsets d !! name r = Some (o, u)) ∧
  F (messages d) (counter d)).
Proof. intros d l (Hok & ? & ? & ?). split_and!; try done. by apply (log_ok_same d). Qed.
Lemma renewLease_alone F o :
  alone (sound F o) (renewLease r Background) (λ e d, e = None ∧ sound F o d).
Proof.
  unfold renewLease. intros s Ht (He & HK). rewrite run_bind.
  pose proof (TryAcquire_alone _ s (unlocked_sound F o) Ht (elected_electable _ He) HK) as Hx.
  destruct (up _ s) as [x s']. destruct Hx as (-> & ? & ? & ?). simpl. by split_and!.
Qed.

(** *** The store's calls *)
Lemma bOffset_alone F o :
  alone (sound F o) (bOffset r Background) (λ x d, x = inl (o, true) ∧ sound F o d).
Proof.
  unfold bOffset. rewrite (os_store Hr). eapply alone_bind.
  - apply (alone_bounded _ _ _ (λ x d, x = inl (o, true) ∧ sound F o d));
      [intros t; apply live_Call, (os_timeout Hr)|].
    intros c w Hc Ht Hs. pose proof Hs as (_ & _ & _ & (u & Ho) & _). cbn [Sequence.Offset relay_store]. unfold Offset.
    rewrite run_bind, exec_alone, run_ret by done. unfold q_offset. rewrite Ho. simpl. by destruct w.
  - intros x. apply alone_tail; [quiet_run|done].
Qed.
Lemma sound_offset F o q d u0 t :
  sound F o d → offsets d !! name r = Some (o, u0) → o < q →
  sound F q (with_offsets d (<[name r := (Z.max o q, t)]> (offsets d))).
Proof.
  intros (He & Hok & Hrd & _ & HF) Ho Hq. split_and!; [done|by apply (log_ok_same d)|done| |done].
  simpl. rewrite lookup_insert_eq, Z.max_r by lia. eauto.
Qed.
Lemma commitOffset_alone F o q :
  0 <= q → o < q →
  alone (sound F o) (commitOffset r Background q) (λ e d, e = None ∧ sound F q d).
Proof.
  intros Hq0 Hq. unfold commitOffset.
  assert (Hup : ∀ w u, offsets (tables w) !! name r = Some (o, u) →
    upsert (link w) (tables w) (name r) q (time w) =
      (with_offsets (tables w) (<[name r := (Z.max o q, time w)]> (offsets (tables w))), 2)).
  { intros w u Ho. unfold upsert. rewrite Ho. destruct (Z.eqb_spec (Z.max o q) o); [lia|done]. }
  destruct (fenced r) as [f|] eqn:Ef.
  - rewrite (os_fenced Hr f Ef). unfold bCommitOffsetFenced. eapply (alone_bind _ _ _ (λ x d, x = inl true ∧ sound F q d)).
    + eapply alone_bind.
      * apply (alone_bounded _ _ _ (λ x d, x = inl true ∧ sound F q d)); [intros t; apply live_Commit, (os_timeout Hr)|].
        intros c w Hc Ht Hs. pose proof Hs as (He & _ & _ & (u & Ho) & _).
        destruct He as [[_ E]|(_ & e & He)]; [congruence|].
        unfold CommitOffsetFenced, rsNow. rewrite run_bind, run_gets. cbn [fst snd].
        rewrite run_bind, exec_alone by done. unfold q_commitFenced, q_commitOffset, holds.
        rewrite He, String.eqb_refl. destruct (Z.ltb_spec q 0); [lia|].
        rewrite (Hup w u Ho). simpl. split_and!; [done|done|]. by eapply sound_offset.
      * intros x. apply alone_tail; [quiet_run|done].
    + intros [[]|e]; [|by intros ? ? [[=] _]..]. apply alone_ret. by intros d [_ ?].
  - unfold bCommitOffset. rewrite (os_store Hr). eapply alone_bind.
    + apply (alone_bounded _ _ _ (λ x d, x = None ∧ sound F q d)); [intros t; apply live_Commit, (os_timeout Hr)|].
      intros c w Hc Ht Hs. pose proof Hs as (_ & _ & _ & (u & Ho) & _). cbn [Sequence.CommitOffset relay_store].
      unfold CommitOffset, rsNow. rewrite run_bind, run_gets. cbn [fst snd].
      rewrite run_bind, exec_alone by done. unfold q_commitOffset. destruct (Z.ltb_spec q 0); [lia|].
      rewrite (Hup w u Ho). simpl. split_and!; [done|done|]. by eapply sound_offset.
    + intros x. apply alone_tail; [quiet_run|done].
Qed.

(** *** Sequencing *)

(** [n] rows wait for a number, and no more than [M] wait for delivery past [o]. *)
Definition todo (o n M : Z) (rows : list row) (c : option Z) : Prop :=
  zlen (filter pending rows) = n ∧ zlen (filter (Z.lt o) (omap r_seq rows)) + n <= M ∧
  ∃ next, c = Some next ∧ next + n < 2^63.
Lemma todo_assigned o n M limit next d :
  log_ok d → counter d = Some next → todo o n M (messages d) (counter d) →
  let d' := assigned_db next (page limit d) d in
  todo o (n - zlen (page limit d)) M (messages d') (counter d').
Proof.
  intros Hok Hc (Hn & HM & next' & Hc' & Hb) d'. rewrite Hc in Hc'. injection Hc' as <-.
  pose proof (npending_assigned next limit d Hok Hc) as Hp. unfold npending in Hp. fold d' in Hp.
  split_and!; [unfold zlen in *; lia| |].
  - pose proof (seqs_assigned next limit d (lo_ids _ Hok)) as Hs. fold d' in Hs. unfold seqs in Hs.
    apply (filter_Permutation (Z.lt o)), Permutation_length in Hs.
    rewrite filter_app, length_app in Hs.
    pose proof (length_filter (Z.lt o) (seqZ next (zlen (page limit d)))) as Hle.
    rewrite length_seqZ in Hle. unfold zlen in *. lia.
  - exists (next + zlen (page limit d)). split; [apply lookup_insert_eq|unfold zlen; lia].
Qed.
Lemma readable_assigned next pg d : readable d → readable (assigned_db next pg d).
Proof.
  unfold readable. rewrite !Forall_forall. simpl. intros Hd x (y & -> & Hy)%list_elem_of_fmap.
  destruct (set_seq_same (numbered next pg) y) as (? & ? & -> & -> & ?). by apply Hd.
Qed.
Lemma SequenceMessages_alone c limit w :
  ErrAt c (time w) = None → turns w = [] → log_ok (tables w) → 0 <= limit < 2^63 →
  (∀ next, counter (tables w) = Some next → next + zlen (page limit (tables w)) < 2^63) →
  ∃ next, counter (tables w) = Some next ∧
  SequenceMessages c limit w = (inl (zlen (page limit (tables w))),
    with_tables w (assigned_db next (page limit (tables w)) (tables w))).
Proof.
  intros Hc Ht Hok Hlim Hroom. destruct (lo_counter _ Hok) as (next & Hn & _). exists next. split; [done|].
  assert (Hid : with_tables w (tables w) = w) by by destruct w.
  unfold SequenceMessages. rewrite run_bind, exec_alone by done. unfold q_probePending.
  destruct (existsb pending (messages (tables w))) eqn:Ep; cbn [fst snd].
  - rewrite Hid, run_bind, exec_alone by done. cbn [fst snd]. rewrite Hid.
    apply sequenceLocked_alone; [done..|]. apply q_sequence_intro; auto.
  - rewrite page_nil, assigned_nil by done. by rewrite Hid.
Qed.
Lemma bSequence_alone o n M :
  alone (sound (todo o n M) o) (bSequenceMessages r SequenceMessages Background (SequenceBatchSize (opts r)))
    (λ x d, x = inl (Z.min (SequenceBatchSize (opts r)) n) ∧
       sound (todo o (n - Z.min (SequenceBatchSize (opts r)) n) M) o d).
Proof.
  pose proof (os_sequence Hr) as Hsz. set (size := SequenceBatchSize (opts r)) in *.
  unfold bSequenceMessages. eapply alone_bind.
  - apply (alone_bounded _ _ _ (λ x d, x = inl (Z.min size n) ∧ sound (todo o (n - Z.min size n) M) o d));
      [intros t; apply live_Call, (os_timeout Hr)|].
    intros c w Hc Ht (He & Hok & Hrd & (u & Ho) & Htd).
    assert (Hpg : zlen (page size (tables w)) = Z.min size n).
    { rewrite page_all by lia. by destruct Htd as (<- & _). }
    destruct (SequenceMessages_alone c size w Hc Ht Hok ltac:(lia)) as (next & Hn & E).
    { intros next Hn. destruct Htd as (_ & _ & next' & Hn' & ?). rewrite Hn in Hn'. injection Hn' as <-. lia. }
    rewrite E, Hpg. split_and!; [done|done|].
    pose proof (todo_assigned o n M size next _ Hok Hn Htd) as Htd'. rewrite Hpg in Htd'.
    split_and!; [done| |by apply readable_assigned|by exists u|done].
    apply log_ok_assigned; [done|done|]. destruct Htd as (_ & _ & next' & Hn' & ?). rewrite Hn in Hn'.
    injection Hn' as <-. lia.
  - intros x. apply alone_tail; [quiet_run|done].
Qed.
Lemma ctxErr_alone P : alone P (up (ctxErr Background)) (λ e d, e = None ∧ P d).
Proof. by intros s Ht HP. Qed.
Lemma sequenceLoop_alone o M pages : ∀ n,
  0 <= n →
  alone (sound (todo o n M) o) (sequenceLoop r SequenceMessages pages Background)
    (λ e d, e = None ∧ sound (todo o (Z.max 0 (n - Z.of_nat pages * SequenceBatchSize (opts r))) M) o d).
Proof.
  pose proof (os_sequence Hr) as Hsz. set (size := SequenceBatchSize (opts r)) in *.
  induction pages as [|pages IH]; intros n Hn; cbn [sequenceLoop].
  { rewrite Z.mul_0_l, Z.sub_0_r, Z.max_r by done. by apply alone_ret. }
  fold size. assert (0 <= Z.of_nat pages * size) as Hp by nia. rewrite Nat2Z.inj_succ, Z.mul_succ_l.
  eapply alone_bind; [apply bSequence_alone|]. intros x. apply alone_pure. intros ->. fold size.
  eapply alone_bind; [apply alone_still; case_match; quiet_run|]. intros [].
  destruct (Z.ltb_spec (Z.min size n) size).
  - replace (Z.max 0 _) with (n - Z.min size n) by lia. by apply alone_ret.
  - rewrite Z.min_l by lia. eapply alone_bind; [apply ctxErr_alone|]. intros ?. apply alone_pure. intros ->.
    eapply alone_bind; [apply renewLease_alone|]. intros ?. apply alone_pure. intros ->.
    eapply alone_post; [apply IH; lia|]. intros e d [-> Hd]. split; [done|].
    by replace (Z.max 0 (n - (Z.of_nat pages * size + size))) with (Z.max 0 (n - size - Z.of_nat pages * size)) by lia.
Qed.
Lemma sequence_alone o n M :
  0 <= n → (sequencer r = None → n = 0) →
  alone (sound (todo o n M) o) (sequence r Background) (λ e d, e = None ∧
    sound (todo o (Z.max 0 (n - Z.of_nat maxPagesPerTick * SequenceBatchSize (opts r))) M) o d).
Proof.
  intros Hn H0'. pose proof (os_sequence Hr). unfold sequence. destruct (sequencer r) as [q|] eqn:E.
  - rewrite (os_sequencer Hr q E). by apply sequenceLoop_alone.
  - rewrite H0', Z.max_l by (done || nia). by apply alone_ret.
Qed.

(** *** Delivery *)
Lemma forwardSerial_alone P msgs : ∀ mx n,
  alone P (forwardSerial r Background msgs mx n)
    (λ x d, (x.1.1 = last_seq mx msgs ∧ x.2 = pageDone) ∧ P d).
Proof.
  induction msgs as [|m msgs IH]; intros mx n; cbn [forwardSerial]; [by apply alone_ret|].
  eapply alone_bind; [apply ctxErr_alone|]. intros ?. apply alone_pure. intros ->. cbn [isNil negb].
  eapply alone_bind; [by apply settled_alone, settled_up, settled_Send|].
  intros ?. apply alone_pure. intros ->. change (last_seq mx (m :: msgs)) with (last_seq mx ([m] ++ msgs)). rewrite last_seq_app. apply IH.
Qed.
Lemma forward_alone P msgs o :
  alone P (forward r Background msgs o) (λ x d, (x.1.1 = last_seq o msgs ∧ x.2 = pageDone) ∧ P d).
Proof.
  unfold forward, Batching. destruct (Batch (lane r)) as [b|] eqn:Eb; [|apply forwardSerial_alone].
  unfold forwardBatched. destruct msgs as [|m msgs]; [by intros s Ht HP|].
  set (l := m :: msgs) in *. assert (0 < zlen l) as Hlen by (unfold l, zlen; simpl; lia).
  eapply alone_bind with (R := λ x d, x = Some (last_seq o l, 0 + zlen l, pageDone) ∧ P d).
  - change (length l) with (Datatypes.S (length msgs)). unfold l at 1. cbn [forwardBatchedLoop].
    fold l. eapply alone_bind; [apply ctxErr_alone|]. intros ?. apply alone_pure. intros ->. cbn [isNil negb].
    eapply alone_bind; [by eapply settled_alone, settled_up, settled_SendBatch|]. intros ?. apply alone_pure. intros ->.
    destruct (Z.ltb_spec 0 (zlen l)); [|lia].
    assert (zdrop (zlen l) l = []) as -> by (unfold zdrop, zlen; rewrite Nat2Z.id; apply drop_all).
    assert (l !! Z.to_nat (zlen l - 1) = last l) as -> by (rewrite last_lookup; f_equal; unfold zlen; lia).
    fold (last_seq o l).
    destruct (length msgs); by apply alone_ret.
  - intros ?. apply alone_pure. intros ->. by apply alone_ret.
Qed.

(** *** A page *)
Lemma exists_last_or_nil {A} (l : list A) : l = [] ∨ ∃ front x, l = front ++ [x].
Proof. destruct l as [|x front] using rev_ind; [by left|right; eauto]. Qed.
Lemma decodeRows_all rows :
  Forall (λ x, len (r_event x) = 16 ∧ ∃ md, UnmarshalMetadata (Some (r_meta x)) = inl md) rows →
  ∃ ms, decodeRows [] rows = (ms, None) ∧ Forall2 decodes ms rows.
Proof.
  intros Hrows. assert (Forall (λ x, len (r_event x) = 16) rows) as Hlen by (eapply Forall_impl; [exact Hrows|by intros x [? _]]).
  destruct (decodeRows_prefix [] rows Hlen) as (ms & front & rest & E & Er & Hd & [[Ee ->]|Hp]).
  - rewrite app_nil_r in Er. subst. exists ms. rewrite E, Ee. by split.
  - exfalso. destruct Hp as (x & rest' & cause & -> & Hx & _). subst.
    rewrite Forall_app, Forall_cons in Hrows. destruct Hrows as (_ & (_ & md & Hmd) & _). congruence.
Qed.
Lemma bList_alone F o d0 :
  (∀ ms c, F ms c → ms = messages d0) →
  alone (sound F o) (bListMessages r Background o (BatchSize (opts r)))
    (λ x d, (∃ ms, x = (ms, None) ∧ Forall2 decodes ms (ztake (BatchSize (opts r)) (above o d0))) ∧ sound F o d).
Proof.
  intros HF. pose proof (os_batch Hr) as Hb. unfold bListMessages. rewrite (os_store Hr). eapply alone_bind.
  - apply (alone_bounded _ _ _ (λ x d,
      (∃ ms, x = (ms, None) ∧ Forall2 decodes ms (ztake (BatchSize (opts r)) (above o d0))) ∧ sound F o d));
      [intros t; apply live_Call, (os_timeout Hr)|].
    intros c w Hc Ht Hs. pose proof Hs as (_ & _ & Hrd & _ & HFw).
    assert (above o (tables w) = above o d0) as Ea by (unfold above; by rewrite (HF _ _ HFw)).
    cbn [Sequence.ListMessages relay_store]. unfold ListMessages. rewrite run_bind, exec_alone by done.
    unfold q_list. destruct (Z.ltb_spec (BatchSize (opts r)) 0); [lia|]. cbn [fst snd].
    destruct (decodeRows_all (ztake (BatchSize (opts r)) (above o (tables w)))) as (ms & E & Hd).
    { unfold readable in Hrd. rewrite Forall_forall in Hrd |- *. intros x Hx. apply Hrd.
      eapply elem_of_prefix in Hx; [|apply ztake_prefix]. by apply elem_of_above in Hx as [? _]. }
    rewrite run_ret. cbn [fst snd]. rewrite E. split_and!; [by destruct w| |by destruct w].
    exists ms. rewrite <-Ea. by split.
  - intros x. apply alone_tail; [quiet_run|done].
Qed.
Lemma idle_StoreNow c : respects idle (StoreNow c).
Proof. by intros w. Qed.
Lemma still_oldestAge t : respects still (oldestAge r Background t).
Proof.
  pose proof idle_StoreNow. unfold oldestAge. quiet_run.
  rewrite (os_clock Hr _ ltac:(eassumption)). unfold bStoreNow, bounded. quiet_run.
Qed.
Lemma finishPage_alone P m msgs o n :
  alone P (finishPage r Background (m :: msgs) None None o n pageDone false None)
    (λ x d, x = (o, if zlen (m :: msgs) =? BatchSize (opts r) then pageFull else pageDone, None) ∧ P d).
Proof.
  pose proof still_oldestAge. unfold finishPage. eapply alone_bind.
  - apply alone_still. quiet_run.
  - intros ?. rewrite bool_decide_eq_true_2 by done. cbn [negb]. cbn iota. by destruct (zlen (m :: msgs) =? BatchSize (opts r)); apply alone_ret.
Qed.
(** The rows of [d0] stay; the position moves on. *)
Definition kept (d0 : db) (rows : list row) (c : option Z) : Prop :=
  rows = messages d0 ∧ c = counter d0.
Lemma last_decoded o ms front x :
  Forall2 decodes ms (front ++ [x]) → last_seq o ms = seq_of x ∧ ∃ m ms', ms = m :: ms'.
Proof.
  intros Hd. apply Forall2_app_inv_r in Hd as (ms1 & ms2 & _ & H2' & ->).
  apply Forall2_cons_inv_r in H2' as (m & ms3 & (md & _ & ->) & ->%Forall2_nil_inv_r & ->).
  rewrite last_seq_app. split; [done|]. destruct ms1; eauto.
Qed.
Lemma deliverPage_alone d0 o ms front x :
  Forall2 decodes ms (front ++ [x]) → o < seq_of x → 0 <= seq_of x →
  alone (sound (kept d0) o) (deliverPage r Background o ms None)
    (λ y d, y = (seq_of x, if zlen ms =? BatchSize (opts r) then pageFull else pageDone, None) ∧
       sound (kept d0) (seq_of x) d).
Proof.
  intros Hd Ho Hx. destruct (last_decoded o ms front x Hd) as [Hlast (m & ms' & Ems)].
  unfold deliverPage. change (As asSeqDecode None) with (@None (err * string * Z)). cbn iota zeta.
  eapply alone_bind; [apply forward_alone|].
  intros [[mx n] out]. apply alone_pure. cbn [fst snd]. intros [-> ->]. rewrite Hlast.
  eapply alone_bind with (R := λ p d, p = (false, None) ∧ sound (kept d0) o d); [by apply alone_ret|].
  intros ?. apply alone_pure. intros ->. cbn iota zeta. destruct (Z.ltb_spec o (seq_of x)); [|lia].
  eapply alone_bind; [by apply commitOffset_alone|]. intros ?. apply alone_pure. intros ->. rewrite Ems.
  apply finishPage_alone.
Qed.
Lemma drainPage_alone d0 o :
  log_ok d0 → let pg := ztake (BatchSize (opts r)) (above o d0) in
  alone (sound (kept d0) o) (drainPage r Background o)
    (λ y d, ∃ o', y = (o', if zlen pg =? BatchSize (opts r) then pageFull else pageDone, None) ∧
       sound (kept d0) o' d ∧ (pg = [] ∧ o' = o ∨ ∃ front x, pg = front ++ [x] ∧ o' = seq_of x ∧ o < o')).
Proof.
  intros Hd0 pg. unfold drainPage. pose proof (os_batch Hr) as Hb.
  eapply alone_bind; [apply (bList_alone (kept d0) o d0); by intros ? ? []|].
  intros [ms e]. apply alone_pure. intros (ms' & [= -> ->] & Hd). fold pg in Hd.
  change (As asSeqDecode None) with (@None (err * string * Z)). cbn iota.
  assert (zlen pg = zlen ms') as Elen by (unfold zlen; by rewrite (Forall2_length _ _ _ Hd)).
  destruct (exists_last_or_nil pg) as [Epg|(front & x & Epg)].
  - rewrite Epg in *. apply Forall2_nil_inv_r in Hd as ->. apply alone_ret. intros d Hs. exists o.
    destruct (Z.eqb_spec (zlen (@nil row)) (BatchSize (opts r))) as [E|_]; [unfold zlen in E; simpl in E; lia|].
    split_and!; [done..|by left].
  - rewrite Epg in Hd. destruct (last_decoded o _ _ _ Hd) as [_ (m & ms1 & ->)].
    assert (x ∈ above o d0) as (Hx & q & Hq & Hoq)%elem_of_above.
    { eapply elem_of_prefix; [|apply (ztake_prefix (BatchSize (opts r)))]. fold pg. rewrite Epg. set_solver. }
    assert (seq_of x = q) as Eq by (unfold seq_of; by rewrite Hq).
    assert (0 < q) as Hq0.
    { destruct (lo_counter _ Hd0) as (n & _ & _ & Hs). rewrite Forall_forall in Hs.
      destruct (Hs q); [|lia]. apply list_elem_of_omap. eauto. }
    eapply alone_post; [eapply deliverPage_alone; [exact Hd|lia..]|].
    intros y d [-> Hs]. exists (seq_of x). rewrite Elen. split_and!; [done..|right].
    exists front, x. split_and!; [done|done|lia].
Qed.
Lemma drainLoop_alone d0 pages : log_ok d0 → ∀ o,
  alone (sound (kept d0) o) (drainLoop r pages Background o)
    (λ e d, e = None ∧ ∃ o', sound (kept d0) o' d ∧ o <= o' ∧
       zlen (above o' d0) = Z.max 0 (zlen (above o d0) - Z.of_nat pages * BatchSize (opts r))).
Proof.
  intros Hd0. pose proof (os_batch Hr) as Hb.
  induction pages as [|pages IH]; intros o; pose proof (zlen_nonneg (above o d0)) as Hpos0.
  { apply alone_ret. intros d Hd. split; [done|]. exists o. split_and!; [done|lia|lia]. }
  assert (0 <= Z.of_nat pages * BatchSize (opts r)) as Hcap by nia. rewrite Nat2Z.inj_succ, Z.mul_succ_l.
  cbn [drainLoop]. eapply alone_bind; [by apply drainPage_alone|]. cbn beta zeta.
  set (size := BatchSize (opts r)) in *. set (pg := ztake size (above o d0)).
  assert (above o d0 = pg ++ zdrop size (above o d0)) as Eab by (unfold pg, ztake, zdrop; by rewrite take_drop).
  assert (zlen pg = Z.min size (zlen (above o d0))) as Epg by (unfold pg, ztake, zlen; rewrite length_take; lia).
  intros y s Ht (o' & -> & Hs & Hpos).
  assert (o <= o' ∧ zlen (above o' d0) = zlen (above o d0) - zlen pg) as [Hoo Hleft].
  { destruct Hpos as [[Enil ->]|(front & x & Ex & -> & Ho)].
    - split; [lia|]. rewrite Enil. unfold zlen. simpl. lia.
    - split; [lia|]. rewrite Ex in Eab. pose proof (above_past _ _ _ _ _ Hd0 Eab) as Hp.
      apply Permutation_length in Hp. rewrite <-Ex in Eab. apply (f_equal length) in Eab.
      rewrite length_app in Eab. unfold zlen in *. lia. }
  destruct (Z.eqb_spec (zlen pg) size) as [Efull|Hne]; cbn iota.
  - revert s Ht Hs. change (alone (sound (kept d0) o')
      (dead ← up (ctxErr Background); match dead with Some e => mret (Some e) | None =>
         lost ← renewLease r Background; match lost with Some e => mret (Some e) | None =>
         drainLoop r pages Background o' end end)
      (λ e d, e = None ∧ ∃ o', sound (kept d0) o' d ∧ o <= o' ∧
         zlen (above o' d0) = Z.max 0 (zlen (above o d0) - (Z.of_nat pages * size + size)))).
    eapply alone_bind; [apply ctxErr_alone|]. intros ?. apply alone_pure. intros ->.
    eapply alone_bind; [apply renewLease_alone|]. intros ?. apply alone_pure. intros ->.
    eapply alone_post; [apply IH|]. intros e d (-> & o2 & ? & ? & Ha2). split; [done|].
    exists o2. fold size in Ha2. split_and!; [done|lia|lia].
  - simpl. split_and!; [done|done|]. exists o'. split_and!; [done|done|lia].
Qed.
(** *** The whole tick *)

(** What the group still has ahead of it: the rows without a number and the rows
    numbered past its position. *)
Definition backlog (o : Z) (d : db) : Z := Z.of_nat (npending d) + zlen (above o d).
(** What a tick works off. *)
Definition tickCapacity : Z :=
  Z.of_nat maxPagesPerTick * Z.min (BatchSize (opts r)) (SequenceBatchSize (opts r)).
(** At most [M] rows are ahead, there are numbers for them, and a relay that does
    not sequence has none to number. *)
Definition ahead (o M : Z) (rows : list row) (c : option Z) : Prop :=
  ∃ n, todo o n M rows c ∧ (sequencer r = None → n = 0).
(** The log can be numbered by this relay. *)
Definition numberable (d : db) : Prop :=
  (∃ next, counter d = Some next ∧ next + Z.of_nat (npending d) < 2^63) ∧
  (sequencer r = None → npending d = 0%nat).

Lemma above_length o d : zlen (above o d) = zlen (filter (Z.lt o) (seqs d)).
Proof.
  unfold above, zlen. rewrite merge_sort_Permutation. f_equal. unfold seqs, sequenced, seq_of.
  induction (messages d) as [|x l IH]; [done|]. rewrite filter_cons. cbn [omap list_omap].
  destruct (r_seq x) as [q|]; simpl in *.
  - rewrite filter_cons. destruct (decide (o < q)); repeat case_decide; simpl; try lia; tauto.
  - done.
Qed.
Lemma backlog_ahead o M d : ahead o M (messages d) (counter d) → backlog o d <= M.
Proof. intros (n & (Hn & HM & _) & _). unfold backlog. rewrite above_length. unfold npending, zlen, seqs in *. lia. Qed.
Lemma ahead_backlog o d :
  numberable d → ahead o (backlog o d) (messages d) (counter d).
Proof.
  intros [Hn Hq]. exists (Z.of_nat (npending d)). split; [|by intros ->%Hq].
  unfold todo, backlog. rewrite above_length. unfold seqs. split_and!; [done|lia|done].
Qed.
(** Rows that leave the log are not ahead of anybody. *)
Lemma ahead_sublist o M rows rows' c : rows' `sublist_of` rows → ahead o M rows c → ahead o M rows' c.
Proof.
  intros Hs (n & (<- & HM & next & Hc & Hb) & Hq). exists (zlen (filter pending rows')).
  assert (zlen (filter pending rows') <= zlen (filter pending rows) ∧
    zlen (filter (Z.lt o) (omap r_seq rows')) <= zlen (filter (Z.lt o) (omap r_seq rows))) as [Hp Ha].
  { clear -Hs. unfold zlen. induction Hs as [|x l1 l2 _ IH|x l1 l2 _ IH]; [done| |];
      rewrite !filter_cons; cbn [omap list_omap]; unfold pending, sequenced in *;
      destruct (r_seq x); rewrite ?filter_cons; repeat case_decide; simpl in *; lia. }
  split; [|intros Hno%Hq; pose proof (zlen_nonneg (filter pending rows')); lia].
  split_and!; [done|lia|]. exists next. split; [done|lia].
Qed.
Lemma phases_alone o n M :
  0 <= n <= M → (sequencer r = None → n = 0) →
  alone (sound (todo o n M) o) (phases r Background)
    (λ e d, e = None ∧ ∃ o', o <= o' ∧ sound (ahead o' (Z.max 0 (M - tickCapacity))) o' d).
Proof.
  intros Hn Hq. pose proof (os_batch Hr) as Hb. pose proof (os_sequence Hr) as Hsz. unfold phases.
  eapply alone_bind with (R := λ p d, p = inl o ∧ sound (todo o n M) o d).
  { unfold primeOffset. eapply alone_bind; [apply bOffset_alone|]. intros ?. apply alone_pure.
    intros ->. by apply alone_ret. }
  intros ?. apply alone_pure. intros ->.
  eapply alone_bind; [apply sequence_alone; [lia|done]|]. intros ?. apply alone_pure. intros ->.
  change (negb (Is None errLostLeadership)) with true. cbn iota.
  eapply alone_bind with (R := λ e d, e = None ∧ ∃ o', o <= o' ∧ sound (ahead o' (Z.max 0 (M - tickCapacity))) o' d).
  - unfold drain. eapply alone_bind; [apply alone_still; quiet_run|]. intros _ s Ht Hs.
    pose proof Hs as (He & Hok & Hrd & Ho & Htd). set (d0 := tables (world (base s))) in *.
    destruct (drainLoop_alone d0 maxPagesPerTick Hok o) with s as (Ht' & He' & o' & Hs' & Hoo & Ha);
      [done|by split_and!|].
    split_and!; [done|done|]. exists o'. split; [done|].
    destruct Hs' as (? & ? & ? & ? & Hrows & Hcnt). split_and!; [done..|].
    cut (ahead o' (Z.max 0 (M - tickCapacity)) (messages d0) (counter d0)); [by rewrite <-Hrows, <-Hcnt|].
    destruct Htd as (Hpend & HM & Hnum). rewrite above_length in Ha. unfold tickCapacity.
    rewrite above_length in Ha. unfold seqs in Ha.
    exists (Z.max 0 (n - Z.of_nat maxPagesPerTick * SequenceBatchSize (opts r))). split; [|intros Hno; rewrite (Hq Hno); nia]. split_and!; [exact Hpend| |exact Hnum]. rewrite Ha.
    pose proof (zlen_nonneg (filter (Z.lt o) (omap r_seq (messages d0)))). rewrite <-Z.mul_min_distr_nonneg_l by lia.
    lia.
  - intros ?. apply alone_pure. intros ->. by apply alone_ret.
Qed.
Lemma SweepMessages_alone window limit o M c w :
  ErrAt c (time w) = None → turns w = [] → 0 <= limit → sound (ahead o M) o (tables w) →
  let '(x, w') := SweepMessages window c limit w in
  (∃ n, x = inl n) ∧ turns w' = [] ∧ sound (ahead o M) o (tables w').
Proof.
  intros Hc Ht Hlim (He & Hok & Hrd & Ho & Hah). unfold SweepMessages, rsNow.
  rewrite run_bind, run_gets. cbn [fst snd]. rewrite run_bind, exec_alone by done. unfold q_sweep.
  destruct (Z.ltb_spec limit 0); [lia|]. cbn [fst snd]. rewrite run_ret. split_and!; [eauto|done|].
  simpl. split_and!; [done|apply log_ok_sublist; [done|apply sublist_filter]| |done|].
  - unfold readable in *. rewrite Forall_forall in *. intros x [_ Hx]%list_elem_of_filter. by apply Hrd.
  - eapply ahead_sublist; [apply sublist_filter|done].
Qed.
Lemma maybeSweep_alone o M :
  alone (sound (ahead o M) o) (maybeSweep r Background) (λ e d, e = None ∧ sound (ahead o M) o d).
Proof.
  unfold maybeSweep. destruct (retention r) as [swp|] eqn:E; [|by apply alone_ret].
  destruct (os_retention Hr swp E) as (window & -> & Hlim).
  eapply alone_bind; [apply alone_still; quiet_run|]. intros lst.
  eapply alone_bind; [apply alone_still; quiet_run|]. intros t. cbn beta.
  destruct (_ && _); [by apply alone_ret|].
  generalize maxPagesPerTick as pages. induction pages as [|pages IH]; [by apply alone_ret|].
  cbn [sweepLoop].
  eapply alone_bind with (R := λ x d, (∃ n, x = inl n) ∧ sound (ahead o M) o d).
  { unfold bSweepMessages. eapply alone_bind.
    - apply (alone_bounded _ _ _ (λ x d, (∃ n, x = inl n) ∧ sound (ahead o M) o d));
        [intros k; apply live_Call, (os_timeout Hr)|].
      intros c w Hc Ht Hw. pose proof (SweepMessages_alone window _ o M c w Hc Ht Hlim Hw) as Hx.
      by destruct (SweepMessages _ _ _ w) as [x w'], Hx as (? & ? & ?).
    - intros x. apply alone_tail; [quiet_run|done]. }
  intros x. apply alone_pure. intros [n ->]. eapply alone_bind; [apply alone_still; quiet_run|]. intros ?.
  destruct (n <? _).
  - eapply alone_bind; [apply alone_still; quiet_run|]. intros t'.
    eapply alone_bind; [apply alone_still; quiet_run|]. intros ?. by apply alone_ret.
  - eapply alone_bind; [apply ctxErr_alone|]. intros ?. apply alone_pure. intros ->. exact IH.
Qed.

(** Everything in the log is numbered, at or below [o]. *)
Definition caught_up (o : Z) (d : db) : Prop :=
  ∀ x, x ∈ messages d → ∃ q, r_seq x = Some q ∧ q <= o.
Lemma backlog_nonneg o d : 0 <= backlog o d.
Proof. unfold backlog. pose proof (zlen_nonneg (above o d)). lia. Qed.
Lemma backlog_zero o d : backlog o d <= 0 → caught_up o d.
Proof.
  unfold backlog. intros Hb x Hx. pose proof (zlen_nonneg (above o d)).
  destruct (npending_zero d ltac:(lia) x Hx) as [q Hq]. exists q. split; [done|]. apply Z.nlt_ge. intros Hlt.
  assert (x ∈ above o d) as Hin by (apply elem_of_above; eauto).
  rewrite (proj1 (zlen_zero (above o d))) in Hin by lia. by apply elem_of_nil in Hin.
Qed.

(** Between ticks: the group's position has come from [o] to [o'], and at most
    [M] rows are ahead. *)
Definition reached (o M : Z) (d : db) : Prop := ∃ o', o <= o' ∧ sound (ahead o' M) o' d.
Lemma RunOnce_alone o M s :
  let w := world (base s) in let d := tables w in
  turns w = [] → electable w → log_ok d → readable d → (∃ u, offsets d !! name r = Some (o, u)) →
  ahead o M (messages d) (counter d) →
  let s' := (RunOnce r Background s).2 in
  (RunOnce r Background s).1 = None ∧ turns (world (base s')) = [] ∧
  reached o (Z.max 0 (M - tickCapacity)) (tables (world (base s'))).
Proof.
  intros w d Ht He Hok Hrd Ho (n & Htd & Hq) s'. unfold s'. clear s'.
  assert (0 <= n <= M) as HnM.
  { destruct Htd as (<- & HM & _). pose proof (zlen_nonneg (filter (Z.lt o) (omap r_seq (messages d)))).
    pose proof (zlen_nonneg (filter pending (messages d))). lia. }
  unfold RunOnce. rewrite run_bind.
  pose proof (TryAcquire_alone _ s (unlocked_sound (todo o n M) o) Ht He) as Hx.
  specialize (Hx ltac:(by split_and!)). destruct (up (TryAcquire _ _) s) as [x s1].
  destruct Hx as (-> & Ht1 & He1 & Hs1). cbn [fst snd].
  set (M' := Z.max 0 (M - tickCapacity)).
  apply (alone_end _ (sound (todo o n M) o) None (reached o M')); [|exact Ht1|exact (conj He1 Hs1)].
  eapply alone_bind; [apply alone_still; quiet_run|]. intros ?.
  eapply alone_bind; [by apply (phases_alone o n M)|].
  intros ?. apply alone_pure. intros ->. change (Is None errLostLeadership) with false. cbn iota.
  eapply alone_bind; [apply ctxErr_alone|]. intros ?. apply alone_pure. intros ->. cbn [isNil negb].
  apply alone_some. intros o'. apply alone_pure. intros Hoo.
  eapply alone_bind; [apply maybeSweep_alone|]. intros ?. apply alone_pure. intros ->.
  apply alone_ret. intros d' Hd'. split; [done|]. by exists o'.
Qed.
(** *** A run *)

(** The select of the loop takes the ticker's arm; time may pass. *)
Definition ticking (wait : cx → M sess bool) : Prop :=
  ∀ c, respects idle (wait c) ∧ yields (wait c) (λ b, b = true).
Lemma reached_weaken o o1 M M' d : o <= o1 → M <= M' → reached o1 M d → reached o M' d.
Proof.
  intros Ho HM (o' & ? & ? & ? & ? & ? & n & (Hn & Hb & Hc) & Hq). exists o'. split; [lia|].
  split_and!; [done..|]. exists n. split; [|done]. split_and!; [done|lia|done].
Qed.
Lemma tickCapacity_pos : 0 < tickCapacity.
Proof. pose proof (os_batch Hr). pose proof (os_sequence Hr). unfold tickCapacity, maxPagesPerTick. lia. Qed.
Lemma pass_of {P : db → Prop} s :
  (RunOnce r Background s).1 = None ∧ turns (world (base (RunOnce r Background s).2)) = [] ∧
    P (tables (world (base (RunOnce r Background s).2))) →
  turns (world (base (pass r Background s).2)) = [] ∧ P (tables (world (base (pass r Background s).2))).
Proof.
  unfold pass. rewrite run_bind. destruct (RunOnce r Background s) as [e s']. cbn [fst snd]. by intros (-> & ? & ?).
Qed.
Lemma pass_alone o M :
  alone (reached o M) (pass r Background) (λ _, reached o (Z.max 0 (M - tickCapacity))).
Proof.
  intros s Ht (o1 & Ho & He & ? & ? & ? & ?). apply pass_of.
  destruct (RunOnce_alone o1 M s) as (? & ? & ?); [by auto using elected_electable..|].
  split_and!; [done|done|]. by eapply reached_weaken.
Qed.
Lemma runLoop_alone wait rounds : ticking wait → ∀ o M,
  0 <= M →
  alone (reached o M) (runLoop r wait rounds Background)
    (λ x d, x = None ∧ reached o (Z.max 0 (M - Z.of_nat rounds * tickCapacity)) d).
Proof.
  intros Hw o. pose proof tickCapacity_pos.
  induction rounds as [|rounds IH]; intros M HM; cbn [runLoop].
  { apply alone_ret. intros d Hd. split; [done|]. eapply reached_weaken; [done| |exact Hd]. lia. }
  eapply alone_bind with (R := λ b d, b = true ∧ reached o M d).
  { apply settled_alone, settled_up. split; [apply still_lift; apply Hw|]. intros k. apply (Hw Background). }
  intros ?. apply alone_pure. intros ->. cbn [negb].
  eapply alone_bind; [apply ctxErr_alone|]. intros ?. apply alone_pure. intros ->. cbn [isNil negb].
  eapply alone_bind; [apply pass_alone|]. intros ?. eapply alone_post; [apply IH; lia|].
  intros x d [-> Hd]. split; [done|]. eapply reached_weaken; [done| |exact Hd]. lia.
Qed.
Lemma Run_alone wait rounds o M s :
  let w := world (base s) in let d := tables w in
  ticking wait → 0 <= M →
  turns w = [] → electable w → log_ok d → readable d → (∃ u, offsets d !! name r = Some (o, u)) →
  ahead o M (messages d) (counter d) →
  let s' := (Run r wait rounds Background s).2 in
  (Run r wait rounds Background s).1 = None ∧ turns (world (base s')) = [] ∧
  reached o (Z.max 0 (M - Z.of_nat (Datatypes.S rounds) * tickCapacity)) (tables (world (base s'))).
Proof.
  intros w d Hw HM Ht He Hok Hrd Ho Ha s'. unfold s'. clear s'. pose proof tickCapacity_pos.
  destruct (pass_of (P := reached o (Z.max 0 (M - tickCapacity))) s) as [Ht1 Hd1]; [by apply RunOnce_alone|].
  destruct (runLoop_alone wait rounds Hw o (Z.max 0 (M - tickCapacity)) ltac:(lia) _ Ht1 Hd1) as (Ht2 & Hx & Hd2).
  assert (E : Run r wait rounds Background s = runLoop r wait rounds Background (pass r Background s).2).
  { unfold Run. rewrite run_bind.
    assert ((up (lift now) s).2 = s) as -> by (by destruct s as [[] ?]).
    rewrite run_bind. assert (up (ctxErr Background) s = (@None err, s)) as -> by (by destruct s as [[] ?]). cbn [fst snd isNil negb].
    rewrite run_bind. set (m := pass r Background s).
    assert ((pass r Background ;; runLoop r wait rounds Background) s = runLoop r wait rounds Background m.2) as ->
      by by rewrite run_bind.
    destruct (runLoop _ _ _ _ _) as [x s2]. cbn [fst snd] in *. by rewrite Hx. }
  rewrite E. split_and!; [done|done|]. eapply reached_weaken; [done| |exact Hd2]. lia.
Qed.
Lemma run_result n wait rounds s o u :
  name r = n → ticking wait →
  let w := world (base s) in let d := tables w in
  turns w = [] → electable w → log_ok d → readable d → numberable d → offsets d !! n = Some (o, u) →
  let '(x, s') := Run r wait rounds Background s in
  let d' := tables (world (base s')) in
  x = None ∧ ∃ o' u', offsets d' !! n = Some (o', u') ∧ o <= o' ∧
    backlog o' d' <= Z.max 0 (backlog o d - Z.of_nat (Datatypes.S rounds) * tickCapacity) ∧
    (backlog o d <= Z.of_nat (Datatypes.S rounds) * tickCapacity → caught_up o' d').
Proof.
  intros <- Hw w d Ht He Hok Hrd Hnum Ho.
  pose proof (Run_alone wait rounds o (backlog o d) s Hw (backlog_nonneg _ _) Ht He Hok Hrd
    (ex_intro _ u Ho) (ahead_backlog _ _ Hnum)) as Hrun. cbv zeta in Hrun.
  destruct (Run r wait rounds Background s) as [x s']. cbn [fst snd] in Hrun.
  destruct Hrun as (-> & _ & o' & Hoo & _ & _ & _ & (u' & Hu') & Ha%backlog_ahead).
  split; [done|]. exists o', u'. split_and!; [done..|]. intros Henough. apply backlog_zero. lia.
Qed.
End healthy.

(** ** The relays that [NewRelay] makes *)
Section constructed.
Context `{UrlStruct} `{GoJson} `{Uuid} `{Planner}.
Lemma NewRelay_on_store render holder n sender window batch o r :
  NewRelay render holder n (Some relay_store) sender (relay_capabilities window batch) o = inl r →
  SequenceBatchSize o < 2^63 → on_store r.
Proof.
  intros (_ & Es & Hl & Hq & Hf & Hw & Hk & Eb & _ & _ & _ & _ & _ & Hfen & ? & ? & ? & ? & Hsw)%NewRelay_parts Hb.
  split; try done.
  - destruct (ls (leader r)) as [l|] eqn:E; [right|left; auto]. by injection (Hl l eq_refl) as <-.
  - intros q Hq'%Hq. by injection Hq'.
  - intros f Hf'%Hf. by injection Hf'.
  - intros w Hw'. pose proof (Hw w Hw') as Ew. injection Ew as <-. exists window. split; [done|].
    specialize (Hsw _ Hw'). lia.
  - intros k. rewrite Hk. by intros [= <-].
  - lia.
Qed.

(** C6: a healthy relay catches up: a relay built on this store that can take its
    lock, whose sender confirms and to which no reply is lost, is after any
    number of rounds of a run still running, and each of its ticks has numbered
    and delivered what a tick has the pages for: however long the log, the rows
    the group has ahead of it went down by that much per round, and once the
    rounds suffice every row of the log is numbered, at or below the group's
    position. *)
Theorem run_catches_up render holder n sender window batch opt r wait rounds s o u :
  NewRelay render holder n (Some relay_store) sender (relay_capabilities window batch) opt = inl r →
  SequenceBatchSize opt < 2^63 → confirming (lane r) → ticking wait →
  let w := world (base s) in let d := tables w in
  turns w = [] → electable r w → log_ok d → readable d → numberable r d → offsets d !! n = Some (o, u) →
  let '(x, s') := Run r wait rounds Background s in
  let d' := tables (world (base s')) in
  x = None ∧ ∃ o' u', offsets d' !! n = Some (o', u') ∧ o <= o' ∧
    backlog o' d' <= Z.max 0 (backlog o d - Z.of_nat (S rounds) * tickCapacity r) ∧
    (backlog o d <= Z.of_nat (S rounds) * tickCapacity r → caught_up o' d').
Proof.
  intros Hnew Hb Hl Hw w d Ht He Hok Hrd Hnum Ho.
  pose proof (NewRelay_parts _ _ _ _ _ _ _ _ Hnew) as [En _].
  by eapply run_result; [eapply NewRelay_on_store|..].
Qed.
End constructed.
