(* ===== verification/TidbDemo.v ===== *)
(** * Concrete runs of the TiDB store

    Instances small enough to compute with, the sequenced-log relay running on
    the TiDB store, and the witnesses of the store's theorems. *)
From S2P Require Import Prelude Errors GoLib Event Json Envelope Bound Relay Scenario Notify Leader Lane RelayCfg Sequence TidbDb TidbLog Tidb TidbProps TidbContract.
From stdpp Require Import sorting.
#[local] Open Scope Z_scope.

(** A UUID's text is its sixteen bytes; deletes go in table order. *)
#[export] Instance text_uuid : Uuid.
Proof.
  refine {| uuid_Parse s := if len s =? 16 then inl s else inr (New "invalid UUID length");
            uuid_String b := b;
            uuid_FromBytes b := if len b =? 16 then inl b else inr (New "invalid UUID") |}.
  - intros s b. destruct (Z.eqb_spec (len s) 16); [|done]. by intros [= <-].
  - intros b Hb. by rewrite Hb.
Defined.
#[export] Instance table_order : Planner.
Proof. refine {| scan l := l |}. done. Defined.

Definition demo_message (id : string) : Message :=
  mkMessage id 0 (Some demo_metadata) (Some "payload"%string) 0.
Definition ev1 : string := "event-0000000001".
Definition ev2 : string := "event-0000000002".
Definition demo_sess : sess := mkSess migrated Second (mkConn false false) [].

(** Two events, the later-started transaction first, are published, sequenced
    and a group joins at the start. *)
Definition demo_calls : list call :=
  [CCreate 20 (demo_message ev1); CCreate 10 (demo_message ev2); CSequence 100;
   CCommit "books" 0; CTryAcquire "lock" "me" (30 * Second)].
Definition demo_run : sess := (performs Background demo_calls demo_sess).2.

Example demo_run_log :
  r_event <$> messages (tables demo_run) = [ev1; ev2] ∧ seqs (tables demo_run) = [2; 1].
Proof. by vm_compute. Qed.
Lemma demo_run_reachable : reachable (tables demo_run).
Proof.
  destruct (performs_steps Background demo_calls) with (s := demo_sess) as [Hst _];
    [|constructor|exact Hst].
  repeat constructor; vm_compute; intuition congruence.
Qed.
Lemma demo_run_ok : log_ok (tables demo_run).
Proof. eapply steps_log_ok, demo_run_reachable. apply migrated_ok. Qed.

(** *** The relay on the store: one tick delivers both events in the order their
    transactions started, commits position 2 under the fence, and leaves the
    group there. *)
Definition confirm (ctx : cx) (md : option Metadata) (data : option string) : M sess error :=
  mret None.
Definition tidb_relay : (Sequence.Relay sess) + err :=
  NewRelay (λ _, ""%string) "me" "books" (Some relay_store) (Some confirm)
    (relay_capabilities defaultRetentionWindow None) defaultOptions.
Definition tidb_tick : option (list string * option (Z * Z)) :=
  match tidb_relay with
  | inr _ => None
  | inl r =>
      let s := (RunOnce r Background
                  (mkSeqst (mkCore demo_run [] freshTracker false false) 0 0 false)).2 in
      Some (MsgID <$> disposed (trace (base s)), offsets (tables (world (base s))) !! "books"%string)
  end.
Example tidb_tick_delivers : tidb_tick = Some ([ev2; ev1], Some (2, Second)).
Proof. by vm_compute. Qed.

(** ** Witnesses *)
Lemma calls_refine_log_witness :
  log_ok (tables (performs Background demo_calls demo_sess).2).
Proof.
  apply (calls_refine_log Background demo_calls demo_sess).
  - repeat constructor; vm_compute; intuition congruence.
  - constructor.
  - apply rtc_refl.
Defined.
Definition demo_row : row :=
  mkRow 2 (Some 1) 10 ev2
    (match MarshalMetadata (Some demo_metadata) with inl j => j | inr _ => JNull end)
    "payload" Second Second.
Lemma demo_row_in : demo_row ∈ messages (tables demo_run).
Proof. apply (list_elem_of_lookup_2 _ 1%nat). by vm_compute. Qed.
(** Later an event of an earlier transaction is published and sequenced. *)
Definition ev3 : string := "event-0000000003".
Definition demo_later : sess :=
  (performs Background [CCreate 5 (demo_message ev3); CSequence 100] demo_run).2.
Lemma demo_later_steps : steps (tables demo_run) (tables demo_later).
Proof.
  destruct (performs_steps Background [CCreate 5 (demo_message ev3); CSequence 100]) with (s := demo_run)
    as [Hst _]; [|by vm_compute|exact Hst].
  repeat constructor; vm_compute; intuition congruence.
Qed.
Example demo_later_log : seqs (tables demo_later) = [2; 1; 3].
Proof. by vm_compute. Qed.
Lemma no_row_behind_witness :
  demo_row ∈ messages (tables demo_later) ∧ demo_row ∈ messages (tables demo_run).
Proof.
  assert (Hin : demo_row ∈ messages (tables demo_later)).
  { apply (list_elem_of_lookup_2 _ 1%nat). by vm_compute. }
  split; [exact Hin|]. apply (no_row_behind (tables demo_run) (tables demo_later) demo_row 1);
    [apply demo_run_reachable|apply demo_later_steps|exact Hin|done|by vm_compute].
Defined.
Definition demo_swept : db :=
  match q_sweep (2 * Second) 10 (tables demo_run) with inl (d, _) => d | inr _ => migrated end.
Lemma only_consumed_removed_witness :
  (∃ r', r' ∈ messages demo_swept ∧ same_row r' demo_row ∧
     (r_seq demo_row ≠ None → r_seq r' = r_seq demo_row)) ∨
  (∃ cutoff limit s, ASweep (2 * Second) 10 = ASweep cutoff limit ∧ r_seq demo_row = Some s ∧
     r_create demo_row < cutoff ∧ offsets (tables demo_run) ≠ ∅ ∧
     ∀ name l u, offsets (tables demo_run) !! name = Some (l, u) → s <= l).
Proof.
  apply only_consumed_removed; [apply demo_run_ok| |apply demo_row_in].
  apply step_sweep with (n := 0). by vm_compute.
Defined.
Lemma watermark_monotone_witness :
  ∃ l u, offsets (upsert (mkConn false false) (tables demo_run) "books" 2 5).1 !! "books"%string
    = Some (l, u) ∧ 0 <= l.
Proof.
  apply (watermark_monotone (tables demo_run) _ "books" 0 Second); [|by vm_compute].
  apply rtc_once. exists (ACommit "books" 2 5). split; [|done].
  apply step_commit with (c := mkConn false false) (n := 2). by vm_compute.
Defined.
Lemma CommitOffsetFenced_contract_witness :
  (CommitOffsetFenced Background "books" "lock" "other" 2 demo_run).1 ≠ inl true.
Proof.
  apply (CommitOffsetFenced_contract Background "books" "lock" "other" 2 demo_run);
    [by vm_compute|constructor|by vm_compute].
Defined.
Lemma TryAcquireLeaderLock_spec_witness :
  TryAcquireLeaderLock Background "lock" "other" Second demo_run = (inl false, demo_run).
Proof.
  rewrite (TryAcquireLeaderLock_spec Background "lock" "other" Second demo_run); by vm_compute.
Defined.
Lemma lock_exclusive_witness :
  (TryAcquireLeaderLock Background "lock" "other" Second demo_run).1 ≠ inl true.
Proof.
  apply (lock_exclusive Background "lock" "other" "me" (31 * Second) Second demo_run);
    [by vm_compute|constructor|by vm_compute|done|by vm_compute].
Defined.
(** A session with both events pending. *)
Definition demo_pending : sess :=
  (performs Background [CCreate 20 (demo_message ev1); CCreate 10 (demo_message ev2)] demo_sess).2.
Lemma demo_pending_ok : log_ok (tables demo_pending).
Proof.
  eapply steps_log_ok; [apply migrated_ok|].
  destruct (performs_steps Background
    [CCreate 20 (demo_message ev1); CCreate 10 (demo_message ev2)]) with (s := demo_sess)
    as [Hst _]; [by repeat constructor|constructor|exact Hst].
Qed.
Lemma SequenceMessages_assigns_witness :
  (SequenceMessages Background 100 demo_pending).1 = inl 2.
Proof.
  destruct (SequenceMessages_assigns Background 100 demo_pending 1) as [-> _];
    [by vm_compute|by vm_compute|apply demo_pending_ok|lia|by vm_compute..].
Defined.
Lemma demo_run_uuids : Forall (λ r, len (r_event r) = 16) (messages (tables demo_run)).
Proof. apply (bool_decide_unpack _). by vm_compute. Qed.
Lemma ListMessages_page_witness :
  let '(ms, e) := (ListMessages Background 0 10 demo_run).1 in
  ∃ front rest, ztake 10 (above 0 (tables demo_run)) = front ++ rest ∧ Forall2 decodes ms front ∧
    StronglySorted by_seq front ∧
    (e = None ∧ rest = [] ∧ (zlen ms = 10 ∨ Forall2 decodes ms (above 0 (tables demo_run))) ∨
     poison_at e rest) ∧
    ∀ r q m, r ∈ messages (tables demo_run) → r_seq r = Some q → 0 < q → m ∈ ms → q <= Seq m →
      r ∈ front.
Proof.
  apply (ListMessages_page Background 0 10 demo_run);
    [by vm_compute|by vm_compute|lia|apply demo_run_ok|apply demo_run_uuids].
Defined.
Lemma demo_metadata_carried : carried demo_metadata.
Proof.
  split; [repeat constructor|by vm_compute|].
  apply map_Forall_insert_2; [|apply map_Forall_singleton]; by split_and!; vm_compute.
Qed.
Lemma CreateOutboxMessage_spec_witness :
  ∃ doc, UnmarshalMetadata (Some doc) = inl (stored demo_metadata) ∧
  let d := tables demo_run in
  let new := mkRow (next_id d) None 30 ev1 doc "payload" (time demo_run) (Event.Time demo_metadata) in
  let '(r, s') := CreateOutboxMessage 30 Background (demo_message ev1) demo_run in
  if bool_decide (30 = 0) then r ≠ None ∧ Is r ErrAlreadyPublished = false ∧ s' = demo_run
  else if existsb (λ x, String.eqb (r_event x) ev1) (messages d)
  then Is r ErrAlreadyPublished = true ∧ s' = demo_run
  else r = None ∧
       s' = with_tables demo_run
              (mkDb (messages d ++ [new]) (next_id d + 1) (sequencers d) (offsets d) (locks d)).
Proof.
  apply (CreateOutboxMessage_spec 30 Background (demo_message ev1) demo_metadata ev1 demo_run);
    [by vm_compute|by vm_compute|done|by vm_compute|apply demo_metadata_carried| |by vm_compute].
  intros u [= <-] _. exists "urn:schema"%string. split_and!; [done|done|]. intros _. by eexists.
Defined.
Lemma InitOffsetLatest_spec_witness :
  InitOffsetLatest Background "books" demo_run = (inl 0, demo_run).
Proof.
  destruct (InitOffsetLatest_spec Background "books" demo_run) as [-> _]; by vm_compute.
Defined.
