(* ===== verification/TidbTxDemo.v ===== *)
(** * A sequencing transaction in company, computed

    Two events are pending. Between the statements of the transaction a third
    one is published, with an earlier tx_start_ts, and another group commits its
    position; the transaction numbers the two and the third stays pending. The
    witness of [TidbTx]. *)
From S2P Require Import Prelude Errors GoLib Event Json Envelope Bound Relay Scenario TidbDb TidbLog TidbTx Tidb TidbDemo.
#[local] Open Scope Z_scope.

Definition insert (ts : Z) (event : string) (d : db) : db :=
  match q_insert ts event JNull (Some "x"%string) Second Second d with inl (d', _) => d' | inr _ => d end.
Definition two_pending : db := insert 10 ev2 (insert 20 ev1 migrated).
Definition third_published : db := insert 5 "event-0000000003" two_pending.
Definition other_commits (d : db) : db := (upsert (mkConn false false) d "other" 0 Second).1.
Definition numbered_two : db :=
  sees (mkWrites (numbered 1 (page 10 two_pending)) (Some 3)) (other_commits third_published).
Example numbered_two_log :
  (λ r, (r_event r, r_seq r)) <$> messages numbered_two =
    [(ev1, Some 2); (ev2, Some 1); ("event-0000000003"%string, None)] ∧
  counter numbered_two = Some 3.
Proof. by vm_compute. Qed.

Lemma insert_step ts event d :
  (∃ d', q_insert ts event JNull (Some "x"%string) Second Second d = inl (d', tt)) →
  ∃ a, step a d (insert ts event d) ∧ ∀ l, a ≠ ASequence l.
Proof.
  intros [d' E]. unfold insert. rewrite E. eexists. split; [by constructor|done].
Qed.
Lemma two_pending_ok : log_ok two_pending.
Proof.
  eapply steps_log_ok; [apply migrated_ok|]. unfold two_pending.
  destruct (insert_step 20 ev1 migrated) as (a & Ha & _); [eexists; by vm_compute|].
  destruct (insert_step 10 ev2 (insert 20 ev1 migrated)) as (b & Hb & _); [eexists; by vm_compute|].
  eapply rtc_l; [by exists a|]. eapply rtc_once. by exists b.
Qed.
Lemma tx_run : rtc (tx_step 10) (two_pending, Begun) (numbered_two, Committed 2).
Proof.
  eapply rtc_l; [by eapply tx_lock; vm_compute|].
  eapply rtc_l; [by eapply tx_assign; vm_compute|].
  destruct (insert_step 5 "event-0000000003" two_pending) as (a & Ha & Hns); [eexists; by vm_compute|].
  eapply rtc_l; [eapply tx_other; [exact Ha|destruct a; try done; by edestruct Hns]|].
  eapply rtc_l; [by eapply tx_bump; vm_compute|].
  eapply rtc_l; [apply (tx_other _ (ACommit "other" 0 Second) _ (other_commits third_published)); [|done]|].
  { apply (step_commit (mkConn false false) _ _ _ _ _ 1). by vm_compute. }
  apply rtc_once. apply tx_commit.
Qed.

Lemma sequencing_serializes_witness :
  ∃ d1 d2, steps two_pending d1 ∧ q_sequence 10 d1 = inl (d2, 2) ∧ publications d2 numbered_two.
Proof.
  apply (sequencing_serializes 10 two_pending numbered_two 2); [apply two_pending_ok|by vm_compute|apply tx_run].
Defined.
