(* ===== verification/GroupDemo.v ===== *)
(** * Two relays of one group on the TiDB store, and the witnesses of [Group]

    The first relay has a sender that is down: it delivers nothing and commits
    nothing. The second one, with a publisher committing a third event between
    its statements, delivers the two events of the log and commits position 2. *)
From S2P Require Import Prelude Errors GoLib Event Json Envelope Bound Relay Scenario Notify Leader Lane RelayCfg Sequence SequenceFacts Safety SequenceDelivery TidbDb TidbLog Tidb TidbProps TidbContract TidbDelivery TidbDemo Group.
#[local] Open Scope Z_scope.

Definition down (ctx : cx) (md : option Metadata) (data : option string) : M sess error :=
  mret (Some (New "down")).
Definition make_relay (holder : string) sender : Sequence.Relay sess + err :=
  NewRelay (λ _, ""%string) holder "books" (Some relay_store) (Some sender)
    (relay_capabilities defaultRetentionWindow None) defaultOptions.
Definition no_wait (c : cx) : M sess bool := mret false.

(** A turn in which a third event is published. *)
Definition ev3 : string := "event-0000000003".
Definition publish_third (d : db) : db :=
  match q_insert 30 ev3 JNull (Some "x"%string) Second Second d with inl (d', _) => d' | inr _ => d end.
Definition start (s : sess) : seqst sess := mkSeqst (mkCore s [] freshTracker false false) 0 0 false.
Definition run_with (wait : cx → M sess bool) (rounds : nat) (x : Sequence.Relay sess + err) (s : sess) : seqst sess :=
  match x with inl r => (Run r wait rounds Background (start s)).2 | inr _ => start s end.
Definition run_of : Sequence.Relay sess + err → sess → seqst sess := run_with no_wait 1.
Definition first_run : seqst sess := run_of (make_relay "one" down) demo_run.
Definition busy : sess :=
  mkSess (tables (world (base first_run))) (time demo_run) (link demo_run)
    [mkTurn id Reply 1; mkTurn publish_third Reply 1; mkTurn id Reply 1].
Definition second_run : seqst sess := run_of (make_relay "two" confirm) busy.

Definition demo_delivered : list Message := disposed (trace (base second_run)).
Example demo_group_run :
  disposed (trace (base first_run)) = [] ∧ MsgID <$> demo_delivered = [ev2; ev1] ∧
  offsets (tables (world (base second_run))) !! "books"%string = Some (2, Second + 3) ∧
  r_event <$> messages (tables (world (base second_run))) = [ev1; ev2; ev3].
Proof. by vm_compute. Qed.

(** The accounts follow the first row of the log. *)
Definition demo_group (D : Message → Prop) : account := mkAccount "books" 0 true D (λ r, r = demo_row).
Definition demo_account : account := demo_group (λ m, m ∈ demo_delivered).

Lemma demo_opened D : opened (demo_group D) (tables demo_run).
Proof.
  split_and!; [apply demo_run_ok|apply demo_run_uuids| |].
  - vm_compute. intuition congruence.
  - intros r ->. apply demo_row_in.
Qed.
Lemma demo_detached_lane x r :
  (x = down ∨ x = confirm) → Sender (lane r) = x → Batch (lane r) = None → Poison (lane r) = None →
  detached_lane (lane r).
Proof.
  intros Hx E Hb Hp. split; [rewrite E; by destruct Hx as [->| ->]|by rewrite Hb|by rewrite Hp].
Qed.

(** One run of a relay made here is a step of the group. *)
Lemma demo_step D wait rounds holder sender s d :
  (sender = down ∨ sender = confirm) → (∀ c, detached (wait c)) →
  Forall (λ t, how t = Reply ∧ ∀ d, group_run (demo_group D) d (others t d)) (turns s) →
  Forall D (disposed (trace (base (run_with wait rounds (make_relay holder sender) s)))) →
  group_run (demo_group D) (tables (world (base (run_with wait rounds (make_relay holder sender) s)))) d →
  group_run (demo_group D) (tables s) d.
Proof.
  intros Hsd Hw Ht HD Hgo. unfold run_with in *. destruct (make_relay holder sender) as [r|e] eqn:E; [|done].
  rewrite Forall_forall in Ht.
  destruct (NewRelay_parts _ _ _ _ _ _ _ _ E) as (_&_&_&_&_&_&_&_&_&(sd & [= <-] & Hsend)&Hb&Hp&Hok&_).
  apply (run_relay (demo_group D) r wait rounds Background (start s) (trace (base (Run r wait rounds Background (start s)).2))).
  - by eapply (NewRelay_on_tidb (demo_group D)).
  - done.
  - by eapply demo_detached_lane.
  - done.
  - done.
  - by intros t [-> _]%Ht.
  - by intros t d' [_ ?]%Ht.
  - done.
  - done.
  - done.
Qed.
Lemma demo_turns : Forall (λ t, how t = Reply ∧ ∀ d, group_run demo_account d (others t d)) (turns busy).
Proof.
  repeat constructor; simpl. intros d. unfold publish_third.
  destruct (q_insert _ _ _ _ _ _ d) as [[d' []]|] eqn:E; [|constructor].
  eapply run_step; [by eapply step_publish|done|constructor].
Qed.
Lemma demo_quiet : turns demo_run = [].
Proof. by vm_compute. Qed.
Lemma tables_mkSess d t c ts : tables (mkSess d t c ts) = d.
Proof. done. Qed.
Lemma busy_tables : tables busy = tables (world (base first_run)).
Proof. exact (tables_mkSess _ _ _ _). Qed.
Lemma demo_runs : group_run demo_account (tables demo_run) (tables (world (base second_run))).
Proof.
  pose proof (demo_step (λ m, m ∈ demo_delivered) no_wait 1 "one" down demo_run (tables (world (base second_run)))) as H1.
  pose proof (demo_step (λ m, m ∈ demo_delivered) no_wait 1 "two" confirm busy (tables (world (base second_run)))) as H2.
  fold run_of in H1, H2. fold first_run in H1. fold second_run in H2. rewrite busy_tables in H2.
  fold demo_account in H1, H2.
  apply H1; clear H1.
  - by left.
  - done.
  - rewrite demo_quiet. constructor.
  - by vm_compute; constructor.
  - apply H2; clear H2; [by right|done|apply demo_turns| |constructor].
    apply Forall_forall. intros m Hm. exact Hm.
Qed.

Lemma watermark_delivered_witness : ∃ m, m ∈ demo_delivered ∧ accounts_for m demo_row.
Proof.
  apply (watermark_delivered demo_account (tables demo_run) (tables (world (base second_run))) 2 (Second + 3) demo_row 1);
    [apply demo_opened|apply demo_runs|by vm_compute| |done|vm_compute; intuition congruence].
  apply (list_elem_of_lookup_2 _ 1%nat). by vm_compute.
Defined.
Lemma demo_beyond D : beyond (demo_group D) demo_row.
Proof. intros s Hs. vm_compute in Hs. injection Hs as <-. by vm_compute. Qed.
Lemma no_event_lost_witness :
  (∃ r, r ∈ messages (tables (world (base second_run))) ∧ same_row r demo_row) ∨
  ∃ r s m, same_row r demo_row ∧ r_seq r = Some s ∧ 0 < s ∧ m ∈ demo_delivered ∧ accounts_for m r.
Proof.
  apply (no_event_lost demo_account (tables demo_run) (tables (world (base second_run))) demo_row);
    [apply demo_opened|done|done|apply demo_beyond|apply demo_runs].
Defined.
