(* ===== verification/HealthyDemo.v ===== *)
(** * A run that catches up, computed

    Two events are numbered and a third waits for its number; the group stands
    at the start. Two ticks of a relay whose sender confirms have taken it to
    the end; the witness of [Healthy]. *)
From S2P Require Import Prelude Errors GoLib Event Json Envelope Bound Relay Scenario Notify Leader Lane RelayCfg Sequence TidbDb TidbLog Tidb TidbProps TidbContract TidbDelivery TidbDemo Group GroupDemo Steady Healthy.
#[local] Open Scope Z_scope.

Definition waiting_calls : list call := demo_calls ++ [CCreate 30 (demo_message ev3)].
Definition waiting : sess := (performs Background waiting_calls demo_sess).2.
(** The ticker's channel is ready. *)
Definition on_tick (c : cx) : M sess bool := mret true.
Lemma on_tick_ticking : ticking on_tick.
Proof. by intros c. Qed.
Definition waiting_end : db :=
  match make_relay "me" confirm with
  | inl r => tables (world (base (Run r on_tick 1 Background (start waiting)).2))
  | inr _ => migrated
  end.
Example waiting_log :
  seqs (tables waiting) = [2; 1] ∧ npending (tables waiting) = 1%nat ∧
  seqs waiting_end = [2; 1; 3] ∧ (offsets waiting_end !! "books"%string) = Some (3, Second).
Proof. by vm_compute. Qed.

Lemma waiting_ok : log_ok (tables waiting).
Proof.
  eapply steps_log_ok; [apply migrated_ok|].
  destruct (performs_steps Background waiting_calls) with (s := demo_sess) as [Hst _];
    [|constructor|exact Hst].
  repeat constructor; vm_compute; intuition congruence.
Qed.
(** [readable], as a test. *)
Definition row_reads (x : row) : bool :=
  (len (r_event x) =? 16) && match UnmarshalMetadata (Some (r_meta x)) with inl _ => true | inr _ => false end.
Lemma row_reads_readable d : forallb row_reads (messages d) = true → readable d.
Proof.
  unfold readable. rewrite forallb_forall, Forall_forall. intros Hd x Hx%list_elem_of_In%Hd.
  apply andb_true_iff in Hx as [Hlen%Z.eqb_eq Hm]. destruct (UnmarshalMetadata _) as [md|]; [eauto|done].
Qed.
Lemma waiting_readable : readable (tables waiting).
Proof. apply row_reads_readable. by vm_compute. Qed.
Lemma confirm_confirming (l : Lane sess Z) : Sender l = confirm → Batch l = None → confirming l.
Proof. intros E Eb. split; [by rewrite E|by rewrite E|by rewrite Eb..]. Qed.

(** What the numbers of the tick depend on in the relay. *)
Definition sizes (r : Sequence.Relay sess) : string * string * (Z * Z) * (bool * bool) :=
  (name r, LockName (leader r), (BatchSize (opts r), SequenceBatchSize (opts r)),
   (if sequencer r is Some _ then true else false, if ls (leader r) is Some _ then true else false)).
Lemma made_sizes holder :
  match make_relay holder confirm with inl r => Some (sizes r) | inr _ => None end =
  Some ("books", "books", (100, 1000), (true, true))%string.
Proof. by vm_compute. Qed.
(** A relay made here can take a lock nobody has or whose lease has run out. *)
Lemma made_electable holder r w :
  make_relay holder confirm = inl r →
  (locks (tables w) !! "books" = None ∨ ∃ h e, locks (tables w) !! "books" = Some (h, e) ∧ e < time w)%string →
  (∃ next, counter (tables w) = Some next ∧ next + Z.of_nat (npending (tables w)) < 2^63) →
  numberable r (tables w) ∧ electable r w ∧ tickCapacity r = 6400.
Proof.
  intros E Hf Hn. pose proof (made_sizes holder) as Hs. rewrite E in Hs. unfold sizes in Hs.
  unfold make_relay in E. pose proof (NewRelay_parts _ _ _ _ _ _ _ _ E) as (_ & _ & Hl & _).
  injection Hs as En Elk Eb Esb Eq Els. split_and!.
  - split; [done|]. intros Hq. by rewrite Hq in Eq.
  - right. destruct (ls (leader r)) as [l|]; [|discriminate Els]. split.
    + f_equal. symmetry. by injection (Hl l eq_refl) as <-.
    + rewrite Elk. destruct Hf as [?|(h & e & ? & ?)]; [by left|right]. exists h, e. split; [done|by left].
  - unfold tickCapacity. by rewrite Eb, Esb.
Qed.

Lemma run_catches_up_witness :
  ∃ o, 0 <= o ∧ (∃ u, offsets waiting_end !! "books"%string = Some (o, u)) ∧ caught_up o waiting_end.
Proof.
  pose proof (made_sizes "me") as Hmade. unfold waiting_end.
  destruct (make_relay "me" confirm) as [r|e] eqn:E; [clear Hmade|discriminate Hmade].
  destruct (made_electable _ r waiting E) as (Hnum & Hel & Hcap); [left; by vm_compute|exists 3; by vm_compute|].
  unfold make_relay in E. pose proof (NewRelay_parts _ _ _ _ _ _ _ _ E) as Hp.
  destruct Hp as (_ & _ & _ & _ & _ & _ & _ & _ & _ & (sd & [= <-] & Hs) & Hb & _).
  pose proof (run_catches_up _ _ _ _ _ _ _ r on_tick 1 (start waiting) 0 Second E) as Hrun.
  destruct (Run r on_tick 1 Background (start waiting)) as [x s'].
  destruct Hrun as (_ & o & u & Hu & Ho & _ & Hc).
  - done.
  - by apply confirm_confirming.
  - exact on_tick_ticking.
  - by vm_compute.
  - exact Hel.
  - exact waiting_ok.
  - exact waiting_readable.
  - exact Hnum.
  - by vm_compute.
  - exists o. split_and!; [exact Ho|by exists u|]. apply Hc. rewrite Hcap. by vm_compute.
Defined.
