(* ===== verification/Takeover.v ===== *)
(** * Another relay takes over

    [Group] says that no run of a group's relays passes an event over, whatever
    their statements meet; [Healthy] says that a relay which nothing disturbs
    gets to the end of the log. Together: whatever the relays of a group did
    before they went away, and wherever they stopped, one healthy relay that can
    take the lock completes the delivery of every event of the log past the
    position the group began at. *)
From S2P Require Import Prelude Errors GoLib Event Json Envelope Bound Relay Scenario Notify Leader Lane RelayCfg Sequence SequenceFacts Safety Steady SequenceDelivery TidbDb TidbLog Tidb TidbProps TidbContract TidbDelivery Group Healthy.
#[local] Open Scope Z_scope.

Section takeover.
Context `{UrlStruct} `{GoJson} `{Uuid} `{Planner}.
Context (G : account).
#[local] Notation group_run := (group_run G).

Lemma group_run_trans d1 d2 d3 : group_run d1 d2 → group_run d2 d3 → group_run d1 d3.
Proof.
  induction 1 as [|a d d1 d2 Hs Ha _ IH|]; intros Hgo; [done|by eapply run_step; eauto|].
  eapply run_relay; eauto.
Qed.

(** A select that takes the ticker's arm has no business with the session. *)
Lemma ticking_detached wait c : ticking wait → detached (wait c).
Proof. intros Hw w. destruct (proj1 (Hw c) w). done. Qed.

(** A run of a relay that nothing disturbs is a run of the group. *)
Lemma quiet_group_run (r : Sequence.Relay sess) wait rounds s k :
  on_tidb G r → hooks_ok (lane r) → detached_lane (lane r) → ticking wait → turns (world (base s)) = [] →
  trace (base (Run r wait rounds Background s).2) = trace (base s) ++ k →
  Forall (delivered G) (disposed k) →
  group_run (tables (world (base s))) (tables (world (base (Run r wait rounds Background s).2))).
Proof.
  intros Hr Hok Hl Hw Ht Hk HD. eapply (run_relay G r wait rounds Background s k); try done.
  - intros c. by apply ticking_detached.
  - rewrite Ht. by intros t ?%elem_of_nil.
  - rewrite Ht. by intros t d ?%elem_of_nil.
  - constructor.
Qed.

(** Where a group is caught up, whatever is kept was delivered. *)
Lemma caught_up_delivered p o u d r0 :
  log_safe G p d → joined G = true → followed G r0 → beyond G r0 →
  offsets d !! group G = Some (o, u) → caught_up o d →
  ∃ row q, same_row row r0 ∧ r_seq row = Some q ∧ began G < q ∧ accounted G row.
Proof.
  intros [_ _ _ Hw _ Hk] Hj Hf Ha Ho Hc.
  destruct (Hk Hj r0 Hf Ha) as [(row & Hrow & Hsame & Hah)|Hgone]; [|exact Hgone].
  destruct (Hc row Hrow) as (q & Hq & Hle). exists row, q. specialize (Hah q Hq). split_and!; [done..|].
  destruct (Hw o u Ho) as [_ Hacc]. eapply Hacc; eauto with lia.
Qed.

(** C3: every event is delivered in the end. After any run of the relays of a
    registered group, let a relay made by [NewRelay] run on this store: able to
    take the lock, with a sender that confirms, undisturbed, on a log of which
    every row decodes, for enough rounds for what the group has ahead of it.
    Then every event that was in the log when the account was opened, past the
    position the group began at, has been disposed of by one of the relays,
    before or after the takeover: sent as the message its row decodes to under
    the number it was given, or parked under that number. *)
Theorem every_event_delivered render holder sender window batch opt r wait rounds s k d r0 :
  opened G d → joined G = true → followed G r0 → beyond G r0 →
  let w := world (base s) in
  group_run d (tables w) →
  NewRelay render holder (group G) (Some relay_store) sender (relay_capabilities window batch) opt = inl r →
  SequenceBatchSize opt < 2^63 → confirming (lane r) → detached_lane (lane r) → ticking wait →
  turns w = [] → electable r w → readable (tables w) → numberable r (tables w) →
  (∀ o u, offsets (tables w) !! group G = Some (o, u) →
     backlog o (tables w) <= Z.of_nat (S rounds) * tickCapacity r) →
  trace (base (Run r wait rounds Background s).2) = trace (base s) ++ k →
  Forall (delivered G) (disposed k) →
  ∃ row q m, same_row row r0 ∧ r_seq row = Some q ∧ began G < q ∧ delivered G m ∧ accounts_for m row.
Proof.
  intros [Hb Hs]%opened_safe Hj Hf Ha0 w Hrun Hnew Hbig Hl Hdl Hw Ht He Hrd Hnum Henough Hk HD.
  pose proof (NewRelay_parts _ _ _ _ _ _ _ _ Hnew) as (En&_&_&_&_&_&_&Esb&_&_&_&_&Hok&_&_&Hpos&_).
  pose proof (group_run_safe G d (tables w) 0 Hb Hrun Hs) as [Hlok _ _ _ Hjoin _].
  destruct (Hjoin Hj) as (o & u & Ho & _).
  assert (Hon : on_tidb G r).
  { eapply NewRelay_on_tidb; [exact Hnew| |by intros]. unfold in64. rewrite Esb in Hpos. lia. }
  pose proof (quiet_group_run r wait rounds s k Hon Hok Hdl Hw Ht Hk HD) as Hquiet.
  pose proof (group_run_safe G d _ 0 Hb (group_run_trans _ _ _ Hrun Hquiet) Hs) as Hafter.
  pose proof (run_result r (NewRelay_on_store _ _ _ _ _ _ _ _ Hnew Hbig) Hl (group G) wait rounds s o u
    En Hw Ht He Hlok Hrd Hnum Ho) as Hres.
  destruct (Run r wait rounds Background s) as [x s']. destruct Hres as (_ & o' & u' & Ho' & _ & _ & Hc).
  destruct (caught_up_delivered 0 o' u' _ r0 Hafter Hj Hf Ha0 Ho') as (row & q & ? & ? & ? & m & ? & ?).
  - by apply Hc, (Henough o u).
  - exists row, q, m. done.
Qed.
End takeover.
