(* ===== verification/TakeoverDemo.v ===== *)
(** * A takeover, computed

    The first relay takes the lock, cannot deliver and goes away without a
    release; an hour later, when its lease has run out, another one starts. The
    witness of [Takeover]. *)
From S2P Require Import Prelude Errors GoLib Event Json Envelope Bound Relay Scenario Notify Leader Lane RelayCfg Sequence Safety TidbDb TidbLog Tidb TidbProps TidbContract TidbDelivery TidbDemo Group GroupDemo Steady Healthy HealthyDemo Takeover.
#[local] Open Scope Z_scope.

Definition gone_run : seqst sess := run_with on_tick 0 (make_relay "one" down) demo_run.
Definition left_behind : sess :=
  mkSess (tables (world (base gone_run))) (time demo_run + Hour) (link demo_run) [].
Definition taken_run : seqst sess := run_with on_tick 0 (make_relay "three" confirm) left_behind.
Definition taken_over (m : Message) : Prop := m ∈ disposed (trace (base taken_run)).

Example takeover_demo :
  (locks (tables left_behind) !! "books" = Some ("one", 61 * Second) ∧
   locks (tables (world (base taken_run))) !! "books" = Some ("three", Hour + 61 * Second))%string ∧
  disposed (trace (base gone_run)) = [] ∧ MsgID <$> disposed (trace (base taken_run)) = [ev2; ev1].
Proof. by vm_compute. Qed.

Lemma left_behind_runs : group_run (demo_group taken_over) (tables demo_run) (tables left_behind).
Proof.
  unfold left_behind. rewrite tables_mkSess. unfold gone_run. apply (demo_step taken_over on_tick 0 "one" down).
  - by left.
  - done.
  - rewrite demo_quiet. constructor.
  - by vm_compute; constructor.
  - constructor.
Qed.
Lemma left_behind_readable : readable (tables left_behind).
Proof. apply row_reads_readable. by vm_compute. Qed.

Lemma left_behind_backlog o u :
  offsets (tables left_behind) !! "books"%string = Some (o, u) →
  backlog o (tables left_behind) <= Z.of_nat 1 * 6400.
Proof.
  assert (offsets (tables left_behind) !! "books"%string = Some (0, Second)) as -> by (by vm_compute).
  intros [= <- <-]. by vm_compute.
Qed.

Lemma every_event_delivered_witness :
  ∃ row q m, same_row row demo_row ∧ r_seq row = Some q ∧ 0 < q ∧ taken_over m ∧ accounts_for m row.
Proof.
  pose proof (made_sizes "three") as Hmade.
  destruct (make_relay "three" confirm) as [r|e] eqn:E; [clear Hmade|discriminate Hmade].
  destruct (made_electable _ r left_behind E) as (Hnum & Hel & Hcap).
  { right. exists "one"%string, (61 * Second). by vm_compute. }
  { exists 3. by vm_compute. }
  unfold make_relay in E. pose proof (NewRelay_parts _ _ _ _ _ _ _ _ E) as Hp.
  destruct Hp as (_ & _ & _ & _ & _ & _ & _ & _ & _ & (sd & [= <-] & Hs) & Hb & Hpo & _).
  apply (every_event_delivered (demo_group taken_over) (λ _, ""%string) "three" (Some confirm) defaultRetentionWindow None defaultOptions r on_tick 0 (start left_behind)
    (trace (base taken_run)) (tables demo_run) demo_row).
  - apply demo_opened.
  - done.
  - done.
  - apply demo_beyond.
  - exact left_behind_runs.
  - exact E.
  - done.
  - by apply confirm_confirming.
  - eapply demo_detached_lane; [by right|done..].
  - exact on_tick_ticking.
  - exact eq_refl.
  - exact Hel.
  - exact left_behind_readable.
  - exact Hnum.
  - rewrite Hcap. exact left_behind_backlog.
  - unfold taken_run, run_with, make_relay. rewrite E. reflexivity.
  - apply Forall_forall. intros m Hm. exact Hm.
Defined.
