(* ===== verification/Stream.v ===== *)
(** * relay/stream: the change-stream relay

    [stream.go] (options, construction), [bounded.go] (the operation budget) and
    [run.go] (one leader-gated drain window, the run loop). The store, the
    cursor it opens and the sender are arguments; every theorem holds for any
    of them. *)
From S2P Require Import Prelude Errors GoLib Event Bound Relay Scenario Notify Leader Lane RelayCfg.

(** ** Interfaces *)

(** [Event]: a decoded insert, its resume token and commit time. *)
Definition Event `{UrlLib} : Type := option Message * string * Z.

(** [Stream]: an open cursor; [Next] returns the event, ok and the error. *)
Record Stream `{UrlLib} (W : Type) := mkStream {
  Next : cx → M W (option Event * bool * error);
  Checkpoint : M W (string * Z * bool);
  Close : cx → M W error }.
#[global] Arguments mkStream {_ _} _ _ _.
#[global] Arguments Next {_ _} _.
#[global] Arguments Checkpoint {_ _} _.
#[global] Arguments Close {_ _} _.

Record Store `{UrlLib} (W : Type) := mkStore {
  LoadToken : cx → string → M W (res (string * Z));
  SaveToken : cx → string → string → Z → M W (res bool);
  Watch : cx → string → Z → M W (res (Stream W)) }.
#[global] Arguments mkStore {_ _} _ _ _.
#[global] Arguments LoadToken {_ _} _.
#[global] Arguments SaveToken {_ _} _.
#[global] Arguments Watch {_ _} _.

(** [IndexEnsurer], as its one method. *)
Definition IndexEnsurer (W : Type) : Type := cx → M W error.

Record options `{UrlLib} (W : Type) := mkOptions {
  oLease : Lease; oOps : Ops; oHooks : Hooks W; DrainWindow : Z; TokenBatchSize : Z }.
#[global] Arguments mkOptions {_ _} _ _ _ _ _.
#[global] Arguments oLease {_ _} _.
#[global] Arguments oOps {_ _} _.
#[global] Arguments oHooks {_ _} _.
#[global] Arguments DrainWindow {_ _} _.
#[global] Arguments TokenBatchSize {_ _} _.
Definition defaultOptions `{UrlLib} {W} : options W :=
  mkOptions DefaultLease DefaultOps DefaultHooks Second 100.

(** A relay as constructed; what its run changes is [strst]. *)
Record Relay `{UrlLib} (W : Type) := mkRelay {
  name : string;
  store : Store W;
  opts : options W;
  leader : Elector W;
  reporter : Reporter;
  lane : Lane W string;
  ensurer : option (IndexEnsurer W) }.
#[global] Arguments mkRelay {_ _} _ _ _ _ _ _ _.
#[global] Arguments name {_ _} _.
#[global] Arguments store {_ _} _.
#[global] Arguments opts {_ _} _.
#[global] Arguments leader {_ _} _.
#[global] Arguments reporter {_ _} _.
#[global] Arguments lane {_ _} _.
#[global] Arguments ensurer {_ _} _.

(** The runtime fields of [Relay]; [loc] is all of them but the shared part. *)
Record loc `{UrlLib} (W : Type) := mkLoc {
  stream : option (Stream W);
  committedCT : Z;
  lastSavedTok : string;
  baselineTok : string;
  baselineCT : Z;
  clockOffset : Z;
  clockCalibrated : bool;
  calibratedHead : Z }.
#[global] Arguments mkLoc {_ _} _ _ _ _ _ _ _ _.
#[global] Arguments stream {_ _} _.
#[global] Arguments committedCT {_ _} _.
#[global] Arguments lastSavedTok {_ _} _.
#[global] Arguments baselineTok {_ _} _.
#[global] Arguments baselineCT {_ _} _.
#[global] Arguments clockOffset {_ _} _.
#[global] Arguments clockCalibrated {_ _} _.
#[global] Arguments calibratedHead {_ _} _.
Record strst `{UrlLib} (W : Type) := mkStrst { base : core W string; local : loc W }.
#[global] Arguments mkStrst {_ _} _ _.
#[global] Arguments base {_ _} _.
#[global] Arguments local {_ _} _.

(** ** Keys of the stuck-lane tracker *)
Definition stuckKey (resumeToken id : string) : string :=
  if negb (String.eqb resumeToken "") then resumeToken
  else if negb (String.eqb id "") then id
  else "".
Definition identified (key : string) : bool := negb (String.eqb key "").
Definition stuckLabel (key id : string) : string :=
  if String.eqb key "" then "unidentifiable event"
  else if String.eqb key id then "event " +:+ id
  else "resume token " +:+ key.

(** ** Construction *)
Definition NewRelay `{UrlLib} {W} (holder name : string) (st : option (Store W))
    (sender : option (cx → option Metadata → option string → M W error))
    (ls : option (LeaderStore W)) (ie : option (IndexEnsurer W)) (o : options W) : Relay W + err :=
  match ValidateName name with Some e => inr e | None =>
  match ValidateDeps (if st is Some _ then true else false)
          (if sender is Some _ then true else false) with Some e => inr e | None =>
  match st, sender with
  | Some st, Some sender =>
  if DrainWindow o <=? 0 then inr (New "DrainWindow must be > 0")
  else if TokenBatchSize o <=? 0 then inr (New "TokenBatchSize must be > 0")
  else
  let '(lease, lerr) := Lease_Validate (oLease o) name (DrainWindow o) in
  match lerr with Some e => inr e | None =>
  match Ops_Validate (oOps o) (DrainWindow o) (LeaseTTL lease) with Some e => inr e | None =>
  match Hooks_Validate (oHooks o) with Some e => inr e | None =>
  match ElectorOf lease ls holder with inr e => inr e | inl elector =>
  let rep := Hooks_Reporter (oHooks o) (OpTimeout (oOps o)) in
  inl (mkRelay name st
         (mkOptions lease (oOps o) (oHooks o) (DrainWindow o) (TokenBatchSize o)) elector rep
         (mkLane rep sender None (HPoisonHandler (oHooks o)) (HUnsendable (oHooks o))
            stuckLabel (Some identified) (OpTimeout (oOps o))) ie)
  end end end end
  | _, _ => inr (New "unreachable")
  end end end.

(** ** run.go *)
Section run.
Context `{UrlLib} {W : Type} `{Host W}.
#[local] Abbreviation S := (strst W).
Context (r : Relay W).
(** The select on the backoff timer and the context. *)
Context (wait : cx → M W unit).

Definition up {A} (m : M (core W string) A) : M S A := λ s,
  ((m (base s)).1, mkStrst (m (base s)).2 (local s)).
Definition here {A} (f : loc W → A) : M S A := gets (λ s, f (local s)).
Definition set (f : loc W → loc W) : M S unit := modify (λ s, mkStrst (base s) (f (local s))).

Definition optimeout : Z := OpTimeout (oOps (opts r)).
Definition sleep (ctx : cx) : M S unit := up (lift (wait ctx)).

(** bounded.go: [boundedStore] and [boundedStream]. *)
Definition bounded {A} (budget : Z → cx → Z → cx) (ctx : cx) (call : cx → M W A) : M S (cx * A) :=
  t ← up (lift now);
  let c := budget t ctx optimeout in
  a ← up (lift (call c));
  mret (c, a).
Definition bLoadToken (ctx : cx) : M S (res (string * Z)) :=
  x ← bounded Call ctx (λ c, LoadToken (store r) c (name r));
  up (emit (ELoadToken x.2)) ;; mret x.2.
Definition bSaveToken (ctx : cx) (tok : string) (ct : Z) : M S (res bool) :=
  x ← bounded Commit ctx (λ c, SaveToken (store r) c (name r) tok ct);
  up (emit (ESaveToken x.1 tok ct x.2)) ;; mret x.2.
Definition bWatch (ctx : cx) (tok : string) : M S (res (Stream W)) :=
  x ← bounded Call ctx (λ c, Watch (store r) c tok (DrainWindow (opts r)));
  up (emit (EWatch tok (resErr x.2))) ;; mret x.2.
Definition bNext (st : Stream W) (ctx : cx) : M S (option Event * bool * error) :=
  x ← bounded Call ctx (Next st);
  up (emit (ENext x.2.1.1 x.2.1.2 x.2.2)) ;; mret x.2.
Definition checkpoint (st : Stream W) : M S (string * Z * bool) :=
  x ← up (lift (Checkpoint st));
  up (emit (ECheckpoint x.1.1 x.1.2 x.2)) ;; mret x.

Definition closeStream (ctx : cx) : M S unit :=
  cur ← here stream;
  match cur with
  | None => skip
  | Some st =>
      t ← up (lift now);
      let c := shutdownStep t ctx in
      e ← up (lift (Close st c));
      up (emit (EClose c e)) ;;
      match e with
      | Some _ => up (emit (ELog Warn "close stream"))
      | None => skip
      end ;;
      set (λ l, mkLoc None (committedCT l) (lastSavedTok l) (baselineTok l) (baselineCT l)
                  (clockOffset l) (clockCalibrated l) (calibratedHead l))
  end.

Definition staleToken : err := New "resume token rejected as stale; another writer holds a newer position".
Definition saveToken (ctx : cx) (tok : string) (ct : Z) : M S error :=
  x ← bSaveToken ctx tok ct;
  match x with
  | inr e => mret (Some e)
  | inl false =>
      up (emit (ELog Warn "resume token rejected as stale")) ;;
      up (Error (reporter r) staleToken) ;;
      mret None
  | inl true =>
      set (λ l, mkLoc (stream l) ct tok "" 0
                  (clockOffset l) (clockCalibrated l) (calibratedHead l)) ;;
      mret None
  end.

Definition calibrateClock (head : Z) : M S unit :=
  prev ← here calibratedHead;
  if (head =? 0) || negb (prev <? head) then skip
  else
    t ← up (lift now);
    set (λ l, mkLoc (stream l) (committedCT l) (lastSavedTok l) (baselineTok l) (baselineCT l)
                (head - t) true head).

Definition serverNow : M S (Z * bool) :=
  cal ← here clockCalibrated;
  off ← here clockOffset;
  t ← up (lift now);
  mret (if negb cal then (t, false) else (t + off, true)).
Definition committedTokenAge : M S Z :=
  ct ← here committedCT;
  if ct =? 0 then mret 0
  else
    x ← serverNow;
    let age := (x : Z * bool).1 - ct in
    mret (if age <? 0 then 0 else age).

(** *** drainWindow *)
(** The loop's variables. *)
Record window := mkWindow {
  wSent : Z; wHandled : Z; wStopped : bool; wAdvanced : bool; wCaughtUp : bool;
  wTok : string; wCT : Z }.
Definition opened : window := mkWindow 0 0 false false false "" 0.
Definition stop (w : window) : window :=
  mkWindow (wSent w) (wHandled w) true (wAdvanced w) (wCaughtUp w) (wTok w) (wCT w).

(** The park of a poison event that the gate lets through: [None] without one,
    else the handler's error. *)
Definition parkPoison (ctx : cx) (e : err) : M S (option error) :=
  match As asStreamDecode (Some e), Poison (lane r) with
  | Some (_, id, tok, _), Some _ =>
      if String.eqb tok "" then mret None
      else
        dead ← up (ctxErr ctx);
        if negb (isNil dead) then mret None
        else
          pe ← up (Park (lane r) ctx (stuckKey tok id) (mkMessage id 0 None None 0) e);
          mret (Some pe)
  | _, _ => mret None
  end.

(** A [Next] error the lane cannot get past: escalate a poison, persist the
    prefix, return the error. *)
Definition failWindow (ctx : cx) (w : window) (e : err) : M S error :=
  match As asStreamDecode (Some e) with
  | Some (_, id, tok, _) => up (LStuck (lane r) (stuckKey tok id) id e)
  | None => skip
  end ;;
  if wAdvanced w then
    se ← saveToken ctx (wTok w) (wCT w);
    match se with
    | Some se => mret (Join [Some e; Some se])
    | None => mret (Some e)
    end
  else mret (Some e).

(** The position after a parked poison: the token, and a commit time that never
    goes back. *)
Definition parkedAt (tok : string) (ct committed : Z) (w : window) : window :=
  mkWindow (wSent w) (wHandled w + 1) (wStopped w) true (wCaughtUp w) tok
    (if wCT w <? ct then ct else if wCT w =? 0 then committed else wCT w).

(** [inr]: the function returned this error. *)
Fixpoint drainLoop (st : Stream W) (n : nat) (ctx : cx) (w : window) : M S (window + error) :=
  match n with
  | O => mret (inl w)
  | Datatypes.S n =>
      dead ← up (ctxErr ctx);
      if negb (isNil dead) then mret (inl (stop w))
      else
        x ← bNext st ctx;
        let '(e, ok, err) := x : option Event * bool * error in
        match err with
        | Some er =>
            p ← parkPoison ctx er;
            match p, As asStreamDecode (Some er) with
            | Some None, Some (_, _, tok, ct) =>
                committed ← here committedCT;
                drainLoop st n ctx (parkedAt tok ct committed w)
            | Some (Some pe), _ => f ← failWindow ctx w (Joined [er; pe]); mret (inr f)
            | _, _ => f ← failWindow ctx w er; mret (inr f)
            end
        | None =>
            if negb ok then
              mret (inl (mkWindow (wSent w) (wHandled w) (wStopped w) (wAdvanced w) true (wTok w) (wCT w)))
            else
              match e with
              | Some (Some m, tok, ct) =>
                  d ← up (Send (lane r) ctx (stuckKey tok (MsgID m)) m);
                  match d with
                  | Sent => drainLoop st n ctx
                      (mkWindow (wSent w + 1) (wHandled w + 1) (wStopped w) true (wCaughtUp w) tok ct)
                  | Parked => drainLoop st n ctx
                      (mkWindow (wSent w) (wHandled w + 1) (wStopped w) true (wCaughtUp w) tok ct)
                  | Stopped | Canceled => mret (inl (stop w))
                  end
              | _ => mret (inr (Some (New "stream: Next returned ok with a nil event or message")))
              end
        end
  end.

(** The persist step of a window that ended, from the checkpoint it read. *)
Definition persist (ctx : cx) (w : window) (cpTok : string) (cpCT : Z) : M S error :=
  if wAdvanced w then saveToken ctx (wTok w) (wCT w)
  else if negb (wStopped w) then
    if String.eqb cpTok "" then mret None
    else
      last ← here lastSavedTok;
      if String.eqb cpTok last then
        set (λ l, mkLoc (stream l) cpCT (lastSavedTok l) (baselineTok l) (baselineCT l)
                    (clockOffset l) (clockCalibrated l) (calibratedHead l)) ;;
        mret None
      else saveToken ctx cpTok cpCT
  else mret None.

Definition drainWindow (st : Stream W) (ctx : cx) : M S error :=
  x ← drainLoop st (Z.to_nat (TokenBatchSize (opts r))) ctx opened;
  match x with
  | inr e => mret e
  | inl w =>
      cp ← (if wCaughtUp w && negb (wStopped w) then
              c ← checkpoint st;
              (if (c : string * Z * bool).2 then calibrateClock c.1.2 else skip) ;;
              mret (c.1.1, c.1.2)
            else mret (""%string, 0));
      let '(cpTok, cpCT) := cp : string * Z in
      e ← persist ctx w cpTok cpCT;
      match e with
      | Some e => mret (Some e)
      | None =>
          age ← committedTokenAge;
          let more := wStopped w || (wHandled w =? TokenBatchSize (opts r)) in
          up (Drained (reporter r) (wSent w) age more) ;;
          if wStopped w then closeStream Background ;; mret (Some (Sentinel ErrLaneStopped))
          else mret None
      end
  end.

(** *** RunOnce *)
(** Opening the cursor: the stored token, else the unpersisted baseline; a group
    without either records the cursor's initial position first. *)
Definition open (ctx : cx) : M S ((Stream W) + err) :=
  x ← bLoadToken ctx;
  match x with
  | inr e => mret (inr e)
  | inl (stored, storedCT) =>
      btok ← here baselineTok;
      bct ← here baselineCT;
      let '(token, ct) :=
        if String.eqb stored "" && negb (String.eqb btok "") then (btok, bct) else (stored, storedCT) in
      s ← bWatch ctx token;
      match s with
      | inr e => mret (inr e)
      | inl st =>
          set (λ l, mkLoc (Some st) ct stored (baselineTok l) (baselineCT l)
                      (clockOffset l) (clockCalibrated l) (calibratedHead l)) ;;
          if negb (String.eqb token "") then mret (inl st)
          else
            c ← checkpoint st;
            let '(btok, bct, serverTime) := c : string * Z * bool in
            if String.eqb btok "" then
              up (emit (ELog Warn "fresh consumer group has no resume baseline")) ;; mret (inl st)
            else
              set (λ l, mkLoc (stream l) (committedCT l) (lastSavedTok l) btok bct
                          (clockOffset l) (clockCalibrated l) (calibratedHead l)) ;;
              e ← saveToken ctx btok bct;
              match e with
              | Some e => mret (inr e)
              | None => (if serverTime then calibrateClock bct else skip) ;; mret (inl st)
              end
      end
  end.

Definition RunOnce (ctx : cx) : M S error :=
  x ← up (TryAcquire (leader r) ctx);
  match x with
  | inr e => mret (Some e)
  | inl isLeader =>
      up (Leadership (reporter r) isLeader) ;;
      if negb isLeader then closeStream Background ;; sleep ctx ;; mret None
      else
        cur ← here stream;
        st ← match cur with Some st => mret (inl st) | None => open ctx end;
        match st with
        | inr e => mret (Some e)
        | inl st => drainWindow st ctx
        end
  end.

(** *** Run *)
Definition ensureIndexes (ctx : cx) : M S unit :=
  match ensurer r with
  | None => skip
  | Some f =>
      e ← up (lift (f ctx));
      match e with
      | Some _ => up (emit (ELog Warn "could not ensure the store's retention indexes"))
      | None => skip
      end
  end.

(** [None]: still running after [rounds] passes. *)
Fixpoint runLoop (rounds : nat) (ctx : cx) : M S (option error) :=
  match rounds with
  | O => mret None
  | Datatypes.S rounds =>
      dead ← up (ctxErr ctx);
      if negb (isNil dead) then c ← up (ctxCause ctx); mret (Some c)
      else
        e ← RunOnce ctx;
        match e with
        | None => runLoop rounds ctx
        | Some er =>
            if Is e ErrLaneStopped then sleep ctx ;; runLoop rounds ctx
            else if Is e ErrInvalidated || Is e ErrHistoryLost then
              up (Error (reporter r) er) ;;
              up (emit (ELog LevelError "fatal stream error")) ;;
              mret (Some e)
            else
              dead ← up (ctxErr ctx);
              (if isNil dead then up (PassFailed (reporter r) er) else skip) ;;
              closeStream Background ;;
              sleep ctx ;;
              runLoop rounds ctx
        end
  end.
Definition Run (rounds : nat) (ctx : cx) : M S (option error) :=
  t0 ← up (lift now);
  let shutdown := ShutdownScope t0 in
  ensureIndexes ctx ;;
  res ← runLoop rounds ctx;
  match res with
  | None => mret None
  | Some c =>
      up (ReleaseLeadership (reporter r) shutdown (leader r)) ;;
      closeStream shutdown ;;
      mret (Some c)
  end.
End run.
