(* ===== verification/StreamProps.v ===== *)
(** * relay/stream: what a run does

    The events each operation of [Stream] appends to the log, and the properties
    of a drain window and of the run loop. *)
From S2P Require Import Prelude Errors GoLib Event Bound Relay Scenario Notify Leader Lane RelayCfg Stream.

#[export] Instance strst_traced `{UrlLib} {W} : Traced (strst W) := λ s, trace (base s).

(** ** Log vocabulary *)
Section log.
Context `{UrlLib}.

(** The message a poison event is parked as. *)
Definition stub (id : string) : Message := mkMessage id 0 None None 0.
(** What the cursor handed out: decoded events and events that failed to decode,
    with their resume tokens. *)
Definition pulled_ev (e : ev) : list (Message * string) :=
  match e with
  | ENext (Some (Some m, tok, _)) true None => [(m, tok)]
  | ENext _ _ (Some er) =>
      match As asStreamDecode (Some er) with Some (_, id, tok, _) => [(stub id, tok)] | None => [] end
  | _ => []
  end.
Definition pulled (l : list ev) : list (Message * string) := l ≫= pulled_ev.
Lemma pulled_app l k : pulled (l ++ k) = pulled l ++ pulled k.
Proof. apply bind_app. Qed.
Lemma pulled_cons e l : pulled (e :: l) = pulled_ev e ++ pulled l.
Proof. done. Qed.

Definition is_save (e : ev) : bool := match e with ESaveToken _ _ _ _ => true | _ => false end.
Definition no_save (k : list ev) : Prop := Forall (λ e, is_save e = false) k.
(** What may follow the deliveries of a window: saves of one token, and events
    that neither pull nor deliver. *)
Definition is_tail (tok : string) (e : ev) : bool :=
  match e with
  | ESaveToken _ t _ _ => String.eqb t tok
  | ECheckpoint _ _ _ | EClose _ _ => true
  | _ => is_signal e
  end.
Definition tailed (tok : string) (k : list ev) : Prop := Forall (λ e, is_tail tok e = true) k.
(** What precedes a window: no pull, no delivery. *)
Definition is_idle (e : ev) : bool :=
  match e with
  | ESend _ _ _ | ESendBatch _ _ _ _ | EPark _ _ _ _ | ENext _ _ _ => false
  | _ => true
  end.
Definition idle (k : list ev) : Prop := Forall (λ e, is_idle e = true) k.

Lemma idle_pulled k : idle k → pulled k = [].
Proof. induction 1 as [|e k He _ IH]; [done|]. rewrite pulled_cons, IH. by destruct e. Qed.
Lemma idle_disposed k : idle k → disposed k = [].
Proof. induction 1 as [|e k He _ IH]; [done|]. rewrite disposed_cons, IH. by destruct e. Qed.
Lemma tailed_idle tok k : tailed tok k → idle k.
Proof. intros Hk. eapply Forall_impl; [exact Hk|]. by intros []. Qed.
Lemma signals_tailed tok k : signals k → tailed tok k.
Proof. intros Hk. eapply Forall_impl; [exact Hk|]. by intros []. Qed.
Lemma signals_idle k : signals k → idle k.
Proof. intros Hk. eapply Forall_impl; [exact Hk|]. by intros []. Qed.
Lemma signals_no_save k : signals k → no_save k.
Proof. intros Hk. eapply Forall_impl; [exact Hk|]. by intros []. Qed.
Lemma lane_no_save k : lane_log k → no_save k.
Proof. intros Hk. eapply Forall_impl; [exact Hk|]. by intros []. Qed.
Lemma lane_pulled k : lane_log k → pulled k = [].
Proof. induction 1 as [|e k He _ IH]; [done|]. rewrite pulled_cons, IH. by destruct e. Qed.
End log.
#[export] Hint Resolve signals_tailed signals_idle signals_no_save lane_no_save tailed_idle : mdb.

(** ** Rules *)
Section rules.
Context `{UrlLib} {W : Type} `{Host W}.
#[local] Abbreviation S := (strst W).
Implicit Types (s : S).

Lemma del_str {A} (m : M (core W string) A) s (Q : A → list ev → S → Prop) :
  del m (base s) (λ a k b, Q a k (mkStrst b (local s))) → del (up m) s Q.
Proof. intros (k & Hk & HQ). exists k. split; [exact Hk|exact HQ]. Qed.
Lemma del_str_lift {A} (m : M W A) s (Q : A → list ev → S → Prop) :
  (∀ a s', local s' = local s → Q a [] s') → del (up (lift m)) s Q.
Proof. intros HQ. apply del_str, del_lift. intros. by apply HQ. Qed.
Lemma del_str_emit e s (Q : unit → list ev → S → Prop) :
  (∀ s', local s' = local s → Q tt [e] s') → del (up (emit e)) s Q.
Proof. intros HQ. apply del_str, del_emit. intros. by apply HQ. Qed.
Lemma del_str_ctxErr ctx s (Q : error → list ev → S → Prop) :
  (∀ e s', local s' = local s → (e ≠ None → cx_done ctx ≠ None) → Q e [] s') →
  del (up (ctxErr ctx)) s Q.
Proof.
  intros HQ. apply del_str. unfold ctxErr. del_run. apply HQ; [done|].
  unfold ErrAt, doneAt. by destruct (cx_done ctx).
Qed.
Lemma del_str_ctxCause ctx s (Q : error → list ev → S → Prop) :
  (∀ e s', local s' = local s → Q e [] s') → del (up (ctxCause ctx)) s Q.
Proof. intros HQ. apply del_str. unfold ctxCause. del_run. by apply HQ. Qed.
Lemma del_set f s (Q : unit → list ev → S → Prop) :
  (∀ s', local s' = f (local s) → Q tt [] s') → del (set f) s Q.
Proof. intros HQ. exists []. split; [symmetry; apply app_nil_r|]. by apply HQ. Qed.
Lemma del_here {A} (f : loc W → A) s (Q : A → list ev → S → Prop) :
  Q (f (local s)) [] s → del (here f) s Q.
Proof. intros HQ. by apply del_gets. Qed.
Lemma del_str_Error r e s (Q : unit → list ev → S → Prop) :
  (∀ k s', signals k → local s' = local s → Q tt k s') → del (up (Error r e)) s Q.
Proof.
  intros HQ. apply del_str. del_use Error_spec. intros [] k b [Hb ->]. apply HQ; [|done].
  destruct (hasOnError _); by repeat constructor.
Qed.
Lemma del_str_Drained r n a m s (Q : unit → list ev → S → Prop) :
  (∀ k s', signals k → local s' = local s → Q tt k s') → del (up (Drained r n a m)) s Q.
Proof.
  intros HQ. apply del_str. unfold Drained. destruct (hasOnDrained _); del_run; apply HQ; by repeat constructor.
Qed.
End rules.

Ltac rdel_leaf :=
  lazymatch goal with
  | |- del (up (lift _)) _ _ => apply del_str_lift; intros ? ? ?
  | |- del (up (emit _)) _ _ => apply del_str_emit; intros ? ?
  | |- del (up (ctxErr _)) _ _ => apply del_str_ctxErr; intros ? ? ? ?
  | |- del (up (ctxCause _)) _ _ => apply del_str_ctxCause; intros ? ? ?
  | |- del (set _) _ _ => apply del_set; intros ? ?
  | |- del (here _) _ _ => apply del_here
  | |- del (up (Error _ _)) _ _ => apply del_str_Error; intros ? ? ? ?
  | |- del (up (Drained _ _ _ _)) _ _ => apply del_str_Drained; intros ? ? ? ?
  | _ => del_step
  end.
Ltac rdel_run := repeat (rdel_leaf; cbn beta).

(** ** Operations *)
Section facts.
Context `{UrlLib} {W : Type} `{Host W}.
#[local] Abbreviation S := (strst W).
Context (r : Relay W).
Implicit Types (s : S).

Lemma str_bounded_spec {A} budget ctx (call : cx → M W A) s :
  del (bounded r budget ctx call) s (λ _ k s', k = [] ∧ local s' = local s).
Proof. unfold bounded. rdel_run. split; [done|congruence]. Qed.

(** The save: one store call; the trackers follow only a save the store
    confirmed. *)
Lemma saveToken_spec ctx tok ct s :
  del (saveToken r ctx tok ct) s (λ e k s', ∃ c x sig, k = ESaveToken c tok ct x :: sig ∧ signals sig ∧
    match x with
    | inr er => e = Some er ∧ local s' = local s
    | inl false => e = None ∧ local s' = local s
    | inl true => e = None ∧
        local s' = let l := local s in
          mkLoc (stream l) ct tok "" 0 (clockOffset l) (clockCalibrated l) (calibratedHead l)
    end).
Proof.
  unfold saveToken, bSaveToken. del_step. del_step. del_use str_bounded_spec.
  intros [c x] k s1 [-> Hs1]. rdel_run. cbn [snd]. destruct x as [[]|er]; rdel_run.
  - exists c, (inl true), []. split_and!; [done|apply signals_nil|done|].
    rewrite H2. simpl. by rewrite H1, Hs1.
  - eexists c, (inl false), _. split_and!; [reflexivity| |done|congruence].
    constructor; [done|]. by rewrite app_nil_r.
  - exists c, (inr er), []. split_and!; [done|apply signals_nil|done|congruence].
Qed.
Lemma saveToken_tailed ctx tok ct s :
  del (saveToken r ctx tok ct) s (λ _ k _, tailed tok k).
Proof.
  del_use saveToken_spec. intros e k s' (c & x & sig & -> & Hs & _).
  constructor; [simpl; apply String.eqb_refl|]. by apply signals_tailed.
Qed.

Lemma closeStream_spec ctx s :
  del (closeStream ctx) s (λ _ k s', (∀ tok, tailed tok k) ∧ no_save k ∧ stream (local s') = None).
Proof.
  unfold closeStream. rdel_run. destruct (stream (local s)) eqn:E.
  - rdel_run. destruct a0; rdel_run; (split_and!; [intros tok| |]);
      try (by repeat constructor); match goal with E : local ?x = _ |- stream (local ?x) = _ => by rewrite E end.
  - rdel_run. split_and!; [intros tok| |done]; constructor.
Qed.

Lemma bNext_spec st ctx s :
  del (bNext r st ctx) s (λ x k s', k = [ENext x.1.1 x.1.2 x.2] ∧ local s' = local s).
Proof.
  unfold bNext. del_step. del_use str_bounded_spec. intros [c x] k s1 [-> Hs1]. rdel_run.
  split; [done|congruence].
Qed.

Lemma Park_spec ctx pos msg cause (c : core W string) :
  Poison (lane r) ≠ None →
  del (Park (lane r) ctx pos msg cause) c (λ pe k _, lane_log k ∧
    disposed k = if pe is None then [msg] else []).
Proof.
  intros Hp. unfold Park. del_step. del_use MessageFailure_spec. intros pe k c1 [_ Hk].
  destruct (Poison (lane r)); [|done]. destruct Hk as [cx ->].
  pose proof (failure_report_signals (LReporter (lane r)) cause pe) as Hr.
  assert (Hl : lane_log (EPark cx msg cause pe :: failure_report (LReporter (lane r)) cause pe)).
  { constructor; [done|by apply signals_lane]. }
  assert (Hd : disposed (EPark cx msg cause pe :: failure_report (LReporter (lane r)) cause pe)
               = if pe is None then [msg] else []).
  { rewrite disposed_cons, (signals_disposed _ Hr). by destruct pe. }
  destruct pe as [pe|]; del_step; [by rewrite app_nil_r|].
  del_use LProgress_spec. intros _ k c2 (-> & _ & _). del_run. by rewrite !app_nil_r.
Qed.

Lemma str_parkPoison_spec ctx e s :
  del (parkPoison r ctx e) s (λ p k s', lane_log k ∧ local s' = local s ∧
    match p with
    | Some None => ∃ d id tok ct, As asStreamDecode (Some e) = Some (d, id, tok, ct) ∧
        tok ≠ ""%string ∧ disposed k = [stub id]
    | _ => disposed k = []
    end).
Proof.
  unfold parkPoison.
  destruct (As asStreamDecode (Some e)) as [[[[d id] tok] ct]|]; [|rdel_run; split_and!; [constructor|done|done]].
  destruct (Poison (lane r)) eqn:Ep; [|rdel_run; split_and!; [constructor|done|done]].
  destruct (String.eqb_spec tok ""); [rdel_run; split_and!; [constructor|done|done]|].
  rdel_run. destruct (negb _); [rdel_run; split_and!; [constructor|done|done]|].
  del_step. apply del_str. del_use Park_spec; [by rewrite Ep|]. intros pe k c [Hl Hd].
  rdel_run. rewrite app_nil_r. split_and!; [done|done|]. destruct pe; [done|].
  by exists d, id, tok, ct.
Qed.

Lemma failWindow_spec ctx w e s :
  del (failWindow r ctx w e) s (λ x k s', x ≠ None ∧ tailed (wTok w) k ∧ (wAdvanced w = false → no_save k)).
Proof.
  unfold failWindow. del_step.
  set (m := match As asStreamDecode (Some e) with Some _ => _ | None => _ end).
  assert (Hm : del m s (λ _ k s', signals k)).
  { subst m. destruct (As _ _) as [[[[d id] tok] ct]|]; [|rdel_run; apply signals_nil].
    apply del_str. del_use LStuck_spec. intros _ k c (_ & t & _ & ->). case_match; [|apply signals_nil].
    destruct (hasOnError _); by repeat constructor. }
  clearbody m. del_use Hm. intros _ k s1 Hk. destruct (wAdvanced w) eqn:Ea.
  - del_step. del_use saveToken_tailed. intros se k2 s2 Ht. destruct se; rdel_run; rewrite app_nil_r;
      (split_and!; [done| |done]); apply Forall_app_2; [by apply signals_tailed|done..|by apply signals_tailed|done].
  - rdel_run. rewrite app_nil_r. split_and!; [done|by apply signals_tailed|intros _; by apply signals_no_save].
Qed.

(** *** The loop of a window *)
Definition loop_log (w : window) (x : window + error) (k : list ev) : Prop :=
  ∃ k1 k2 (done rest : list (Message * string)) tok,
    k = k1 ++ k2 ∧ no_save k1 ∧ tailed tok k2 ∧
    pulled k1 = done ++ rest ∧ disposed k1 = done.*1 ∧
    match x with
    | inl w' => k2 = [] ∧ (wStopped w' = true ∨ rest = []) ∧
        (done = [] ∧ wTok w' = wTok w ∧ wAdvanced w' = wAdvanced w ∨
         wAdvanced w' = true ∧ last done.*2 = Some (wTok w'))
    | inr _ => no_save k2 ∨ last done.*2 = Some tok ∨ (done = [] ∧ wAdvanced w = true ∧ tok = wTok w)
    end.

(** One event disposed of before the rest of the loop. *)
Lemma loop_log_step w w1 x item k0 k :
  no_save k0 → pulled k0 = [item] → disposed k0 = [item.1] →
  wAdvanced w1 = true → wTok w1 = item.2 → loop_log w1 x k → loop_log w x (k0 ++ k).
Proof.
  intros Hn Hp Hd Ha Ht (k1 & k2 & done & rest & tok & -> & Hn1 & Htl & Hp1 & Hd1 & Hx).
  exists (k0 ++ k1), k2, (item :: done), rest, tok.
  split_and!; [by rewrite app_assoc|by apply Forall_app_2|done|by rewrite pulled_app, Hp, Hp1
    |by rewrite disposed_app, Hd, Hd1|].
  assert (Hlast : last (item :: done).*2 = Some (default item.2 (last done.*2))).
  { rewrite fmap_cons, last_cons. by destruct (last done.*2). }
  destruct x as [w'|e].
  - destruct Hx as (-> & Hr & [(-> & Htw & Haw)|(Haw & Hl)]).
    + split_and!; [done|done|]. right. simpl. split; congruence.
    + split_and!; [done|done|]. right. rewrite Hlast, Hl. done.
  - destruct Hx as [?|[Hl|(-> & _ & ->)]]; [by left| |].
    + right. left. rewrite Hlast, Hl. done.
    + right. left. simpl. congruence.
Qed.

(** The loop ends, with a last event at most that was not disposed of. *)
Lemma loop_log_end w w' k :
  no_save k → disposed k = [] → wTok w' = wTok w → wAdvanced w' = wAdvanced w →
  wStopped w' = true ∨ pulled k = [] → loop_log w (inl w') k.
Proof.
  intros Hn Hd Ht Ha Hs. exists k, [], [], (pulled k), ""%string.
  split_and!; [by rewrite app_nil_r|done|apply Forall_nil_2|done|done|done|done|by left].
Qed.
Lemma loop_log_fail w e k1 k2 :
  no_save k1 → disposed k1 = [] → tailed (wTok w) k2 → (wAdvanced w = false → no_save k2) →
  loop_log w (inr e) (k1 ++ k2).
Proof.
  intros Hn Hd Ht Ha. exists k1, k2, [], (pulled k1), (wTok w). split_and!; try done.
  destruct (wAdvanced w); auto.
Qed.

Lemma window_loop_spec st n ctx w s :
  hooks_ok (lane r) → del (drainLoop r st n ctx w) s (λ x k s', loop_log w x k).
Proof.
  intros Hok. revert w s. induction n as [|n IH]; intros w s; cbn [drainLoop].
  { rdel_run. apply loop_log_end; try done; [apply Forall_nil_2|by right]. }
  rdel_run. destruct (negb _).
  { rdel_run. apply loop_log_end; try done; [apply Forall_nil_2|by left]. }
  del_step. del_use bNext_spec. intros [[nx ok] er] k0 s1 [-> Hs1]. cbn [fst snd].
  destruct er as [er|].
  - (* the cursor failed *)
    del_step. del_use str_parkPoison_spec. intros p k1 s2 (Hl1 & Hs2 & Hp).
    assert (Hn : no_save (ENext nx ok (Some er) :: k1)) by (constructor; [done|by apply lane_no_save]).
    assert (Hfail : ∀ e', disposed k1 = [] →
      del (f ← failWindow r ctx w e'; mret (inr f)) s2
        (λ x k s', loop_log w x ([ENext nx ok (Some er)] ++ k1 ++ k))).
    { intros e' Hd. del_step. del_use failWindow_spec. intros f k2 s3 (_ & Ht & Ha). rdel_run.
      rewrite app_nil_r. apply (loop_log_fail w f (ENext nx ok (Some er) :: k1) k2); try done. }
    destruct p as [[pe|]|]; [by apply Hfail| |].
    + destruct Hp as (d & id & tok & ct & Has & Htok & Hd). rewrite Has. rdel_run.
      del_use IH. intros x k2 s3 Hx.
      apply (loop_log_step w _ x (stub id, tok) (ENext nx ok (Some er) :: k1) k2) in Hx; try done.
      * rewrite pulled_cons, lane_pulled, app_nil_r by done. unfold pulled_ev. rewrite Has.
        by destruct nx as [[[[] ?] ?]|], ok.
    + by apply Hfail.
  - destruct ok; cbn [negb]; cycle 1.
    { rdel_run. apply loop_log_end; try done; [by repeat constructor|].
      right. by destruct nx as [[[[] ?] ?]|]. }
    destruct nx as [[[[m|] tok] ct]|];
      [|rdel_run; by apply (loop_log_fail w _ [_] []); [repeat constructor| |constructor|constructor]..].
    del_step. apply del_str. del_use Send_disposed_lane; [done|]. intros d k1 c (Hl & Hd & _ & _).
    assert (Hn : no_save (ENext (Some (Some m, tok, ct)) true None :: k1))
      by (constructor; [done|by apply lane_no_save]).
    assert (Hp : pulled (ENext (Some (Some m, tok, ct)) true None :: k1) = [(m, tok)])
      by by rewrite pulled_cons, lane_pulled.
    destruct d; simpl in Hd.
    + del_use IH. intros x k2 s3 Hx. by eapply (loop_log_step w _ x (m, tok) (_ :: k1) k2) in Hx.
    + del_use IH. intros x k2 s3 Hx. by eapply (loop_log_step w _ x (m, tok) (_ :: k1) k2) in Hx.
    + rdel_run. rewrite app_nil_r. apply loop_log_end; try done. by left.
    + rdel_run. rewrite app_nil_r. apply loop_log_end; try done. by left.
Qed.

(** *** The window *)
Lemma calibrateClock_spec head s :
  del (calibrateClock head) s (λ _ k s', k = [] ∧ baselineTok (local s') = baselineTok (local s) ∧
    stream (local s') = stream (local s)).
Proof.
  unfold calibrateClock. rdel_run. destruct (_ || _); rdel_run; [done|].
  match goal with E : local ?x = _ |- context [local ?x] => rewrite E end. simpl.
  match goal with E : local ?x = _ |- context [local ?x] => rewrite E end. done.
Qed.
Lemma checkpoint_spec st s :
  del (checkpoint st) s (λ x k s', k = [ECheckpoint x.1.1 x.1.2 x.2] ∧ local s' = local s).
Proof. unfold checkpoint. rdel_run. split; [done|congruence]. Qed.
Lemma committedTokenAge_spec s :
  del committedTokenAge s (λ age k s', 0 <= age ∧ k = [] ∧ local s' = local s).
Proof.
  unfold committedTokenAge, serverNow. rdel_run. destruct (_ =? 0); rdel_run; [done|].
  split_and!; [|done|congruence]. case_match; lia.
Qed.
Lemma persist_spec ctx w tok ct s :
  del (persist r ctx w tok ct) s (λ e k s', tailed (if wAdvanced w then wTok w else tok) k ∧
    (wAdvanced w = false → wStopped w = true → no_save k)).
Proof.
  unfold persist. destruct (wAdvanced w).
  { del_use saveToken_tailed. by intros. }
  destruct (wStopped w); cbn [negb]; [rdel_run; split; intros; constructor|].
  destruct (String.eqb tok ""); [rdel_run; split; intros; constructor|]. rdel_run.
  destruct (String.eqb tok _); [rdel_run; split; intros; constructor|].
  del_use saveToken_tailed. by intros.
Qed.

Definition window_log (k : list ev) : Prop :=
  ∃ k1 k2 (done rest : list (Message * string)) tok,
    k = k1 ++ k2 ∧ no_save k1 ∧ tailed tok k2 ∧
    pulled k1 = done ++ rest ∧ disposed k1 = done.*1 ∧
    (no_save k2 ∨ last done.*2 = Some tok ∨ (done = [] ∧ rest = [])).

Lemma drainWindow_spec st ctx s :
  hooks_ok (lane r) → del (drainWindow r st ctx) s (λ e k s', window_log k).
Proof.
  intros Hok. unfold drainWindow. del_step. del_use window_loop_spec; [done|]. intros x k s1 Hx.
  destruct Hx as (k1 & k2 & done & rest & tok & -> & Hn1 & Ht & Hp & Hd & Hx).
  destruct x as [w|e]; rdel_run.
  2: { rewrite app_nil_r. exists k1, k2, done, rest, tok. split_and!; try done.
       destruct Hx as [?|[?|(_ & Ha & _)]]; [by left|by right; left|discriminate Ha]. }
  destruct Hx as (-> & Hr & Hw). rewrite app_nil_r.
  set (T := λ cp : string, if wAdvanced w then wTok w else cp).
  set (cpm := if wCaughtUp w && _ then _ else _).
  assert (Hcp : del cpm s1 (λ _ k _, (∀ tok, tailed tok k) ∧ no_save k)).
  { subst cpm. destruct (_ && _); [|rdel_run; split; [intros tok'|]; constructor].
    del_step. del_use checkpoint_spec. intros c k s2 [-> _].
    assert (Hc : del (if c.2 then calibrateClock c.1.2 else skip) s2 (λ _ k _, k = [])).
    { destruct c.2; [|by rdel_run]. del_use calibrateClock_spec. by intros _ k3 s3 [-> _]. }
    del_step. del_use Hc. intros _ k3 s3 ->. rdel_run. by repeat constructor. }
  clearbody cpm. del_use Hcp. intros [cpTok cpCT] k3 s2 [Hk3 Hk3']. del_step.
  del_use persist_spec. intros e k4 s3 [Hk4 Hk4']. fold (T cpTok) in Hk4.
  assert (Hdone : ∀ k5, tailed (T cpTok) k5 → no_save k5 → window_log (k1 ++ k3 ++ k4 ++ k5)).
  { intros k5 Hk5 Hk5'. exists k1, (k3 ++ k4 ++ k5), done, rest, (T cpTok).
    split_and!; try done; [apply Forall_app_2; [apply Hk3|by apply Forall_app_2]|]. unfold T in *.
    destruct Hw as [(-> & _ & Ha)|(Ha & Hl)]; simpl in Ha; rewrite Ha in *; [|by right; left].
    destruct Hr as [Hst| ->]; [|by right; right]. left.
    apply Forall_app_2; [done|]. apply Forall_app_2; [by apply Hk4'|done]. }
  destruct e as [e|]; rdel_run.
  { apply (Hdone []); constructor. }
  del_use committedTokenAge_spec. intros age k5 s4 (_ & -> & _). rdel_run.
  destruct (wStopped w); rdel_run.
  - del_use closeStream_spec. intros _ k6 s6 (Hk6 & Hk6' & _). rdel_run.
    cbn [app]. rewrite app_nil_r.
    apply Hdone; apply Forall_app_2; [by apply signals_tailed|apply Hk6|by apply signals_no_save|done].
  - cbn [app]. rewrite app_nil_r. apply Hdone; [by apply signals_tailed|by apply signals_no_save].
Qed.

(** *** Opening the cursor *)
Definition resumed (s : S) (k : list ev) (s' : S) : Prop :=
  (∀ tok e, EWatch tok e ∈ k → ∃ stored ct, ELoadToken (inl (stored, ct)) ∈ k ∧
     tok = if String.eqb stored "" then baselineTok (local s) else stored) ∧
  (∀ c tok ct er, ESaveToken c tok ct (inr er) ∈ k → baselineTok (local s') = tok).

Lemma tailed_not_watch tok k t e : tailed tok k → EWatch t e ∈ k → False.
Proof. unfold tailed. rewrite Forall_forall. intros Hk Hin. by specialize (Hk _ Hin). Qed.

Lemma open_spec ctx s :
  del (open r ctx) s (λ x k s', idle k ∧ resumed s k s').
Proof.
  unfold open, bLoadToken, bWatch. del_step. del_step. del_use str_bounded_spec.
  intros [c0 [[stored sct]|er]] k0 s0 [-> Hs0]; rdel_run; cbn [snd]; rdel_run.
  2: { split; [by repeat constructor|]. cbn [app].
       split; intros *; intros Hin%list_elem_of_singleton; discriminate Hin. }
  set (pick := if String.eqb stored "" && _ then _ else _).
  assert (Hpick : pick.1 = if String.eqb stored "" then baselineTok (local s) else stored).
  { subst pick. rewrite H1, Hs0. destruct (String.eqb_spec stored "") as [->|]; simpl; [|done].
    destruct (String.eqb_spec (baselineTok (local s)) ""); simpl; congruence. }
  destruct pick as [token ct]. simpl in Hpick. del_step. del_step.
  del_use str_bounded_spec. intros [c1 w] k1 s1 [-> Hs1]. rdel_run. cbn [snd].
  assert (Hbase : ∀ k se, idle k → (∀ t e, EWatch t e ∈ k → False) →
    (∀ c tok ct er, ESaveToken c tok ct (inr er) ∈ k → baselineTok (local se) = tok) →
    let k' := ELoadToken (inl (stored, sct)) :: EWatch token (resErr w) :: k in
    idle k' ∧ resumed s k' se).
  { intros k se Hi Hw Hsv k'. split; [by repeat constructor|]. split.
    - intros tok e [|[[= -> ->]|Hin]%elem_of_cons]%elem_of_cons; [done| |by destruct (Hw tok e)].
      exists stored, sct. split; [left|done].
    - intros c tok ct' er [|[|Hin]%elem_of_cons]%elem_of_cons; [done|done|by eapply Hsv]. }
  destruct w as [st|er]; rdel_run; cycle 1.
  { apply (Hbase []); [constructor|by intros ?? ?%elem_of_nil|by intros ???? ?%elem_of_nil]. }
  destruct (negb _); rdel_run.
  { apply (Hbase []); [constructor|by intros ?? ?%elem_of_nil|by intros ???? ?%elem_of_nil]. }
  del_use checkpoint_spec. intros [[btok bct] srv] k2 s3 [-> Hs3]. cbn [fst snd].
  destruct (String.eqb btok ""); rdel_run.
  { apply (Hbase [_; _]); [by repeat constructor| |]; intros *; rewrite !elem_of_cons, elem_of_nil; naive_solver. }
  del_use saveToken_spec. intros e k3 s5 (c & x & sig & -> & Hsig & Hx).
  assert (Hfin : ∀ k se, k = [] → baselineTok (local se) = baselineTok (local s5) →
    let k' := ELoadToken (inl (stored, sct)) :: EWatch token None ::
              ECheckpoint btok bct srv :: (ESaveToken c btok bct x :: sig) ++ k in
    idle k' ∧ resumed s k' se).
  { intros k se -> Hb k'. unfold k'. rewrite app_nil_r.
    apply (Hbase (ECheckpoint btok bct srv :: ESaveToken c btok bct x :: sig)).
    - constructor; [done|]. constructor; [done|]. by apply signals_idle.
    - intros t e' [|[|Hin]%elem_of_cons]%elem_of_cons; [done..|].
      by eapply tailed_not_watch, Hin; apply (signals_tailed "").
    - intros c' tok ct' er [|[Heq|Hin]%elem_of_cons]%elem_of_cons; [done| |].
      + injection Heq as -> -> -> <-. destruct Hx as [_ Hx]. rewrite Hb, Hx.
        match goal with E : local ?y = mkLoc _ _ _ btok _ _ _ _ |- context [local ?y] => by rewrite E end.
      + exfalso. unfold signals in Hsig. rewrite Forall_forall in Hsig. by specialize (Hsig _ Hin). }
  destruct e as [e|]; rdel_run.
  - by apply (Hfin [] s5).
  - destruct srv; rdel_run.
    + del_use calibrateClock_spec. intros _ k s6 (-> & Hb & _). rdel_run. by apply (Hfin [] s6).
    + by apply (Hfin [] s5).
Qed.

(** *** One pass *)
Context (wait : cx → M W unit).
Definition pass_log (k : list ev) : Prop :=
  ∃ k0 k1, k = k0 ++ k1 ∧ idle k0 ∧ (k1 = [] ∨ window_log k1).
Lemma pass_log_idle k : idle k → pass_log k.
Proof. intros Hk. exists k, []. rewrite app_nil_r. auto. Qed.

Lemma elect_idle ctx s :
  del (up (TryAcquire (leader r) ctx)) s (λ _ k s', idle k ∧ local s' = local s).
Proof.
  apply del_str. del_use TryAcquire_spec. intros x k c (_ & _ & Hk). split; [|done].
  destruct (ls (leader r)); [destruct Hk as (t & -> & _)|destruct Hk as [-> _]]; by repeat constructor.
Qed.
Lemma Leadership_idle b s :
  del (up (Leadership (reporter r) b)) s (λ _ k s', idle k ∧ local s' = local s).
Proof.
  apply del_str. del_use Leadership_spec. intros x k c (_ & _ & _ & ->). split; [|done].
  destruct (Bool.eqb _ _); [constructor|]. destruct (hasOnLeadership _); by repeat constructor.
Qed.

Lemma pass_spec ctx s :
  hooks_ok (lane r) → del (RunOnce r wait ctx) s (λ _ k _, pass_log k).
Proof.
  intros Hok. unfold RunOnce. del_step. del_use elect_idle. intros x k0 s0 [Hk0 Hs0].
  destruct x as [b|er]; [|rdel_run; rewrite app_nil_r; by apply pass_log_idle].
  del_step. del_use Leadership_idle. intros _ k1 s1 [Hk1 Hs1].
  destruct b; cbn [negb]; cycle 1.
  { del_step. del_use closeStream_spec. intros _ k2 s2 (Ht & _ & _). unfold sleep. rdel_run.
    rewrite !app_nil_r. apply pass_log_idle. repeat apply Forall_app_2; [done|done|].
    eapply tailed_idle, (Ht ""%string). }
  rdel_run.
  set (opening := match stream (local s1) with Some st => _ | None => _ end).
  assert (Ho : del opening s1 (λ _ k _, idle k)).
  { subst opening. destruct (stream (local s1)); [rdel_run; constructor|].
    del_use open_spec. by intros ??? [? _]. }
  clearbody opening. del_use Ho. intros st k2 s2 Hk2. cbn [app].
  destruct st as [st|er]; [|rdel_run; rewrite app_nil_r; apply pass_log_idle; by repeat apply Forall_app_2].
  del_use drainWindow_spec; [done|]. intros e k3 s3 Hk3. exists (k0 ++ k1 ++ k2), k3.
  split_and!; [by rewrite <-!app_assoc|by repeat apply Forall_app_2|by right].
Qed.
End facts.

(** A split of a log at a save lies in the part before the window or in its tail. *)
Lemma app_save_split `{UrlLib} (k1 k2 l1 l2 : list ev) e :
  k1 ++ k2 = l1 ++ e :: l2 →
  (∃ l, k1 = l1 ++ e :: l) ∨ (∃ l, l1 = k1 ++ l ∧ k2 = l ++ e :: l2).
Proof.
  intros Heq. apply app_eq_inv in Heq as [(l & -> & Hk2)|(l & -> & Hk2)].
  - destruct l as [|x l]; simpl in Hk2.
    + right. exists []. rewrite !app_nil_r. by split; [|symmetry].
    + injection Hk2 as -> ->. left. eauto.
  - right. eauto.
Qed.

Lemma closeStream_flags `{UrlLib} {W} `{Host W} ctx (s : strst W) :
  let s' := (closeStream ctx s).2 in
  isLeader (base s') = isLeader (base s) ∧ wasLeader (base s') = wasLeader (base s).
Proof.
  unfold closeStream. rewrite run_bind. destruct (here stream s) as [[st|] s1] eqn:E; injection E as Es <-.
  - cbn [fst snd]. rewrite !run_bind. cbn [fst snd up lift base local].
    destruct (Close st _ _) as [[e|] w]; done.
  - done.
Qed.

(** ** Properties *)
Section properties.
Context `{UrlLib} {W : Type} `{Host W}.
Implicit Types (r : Relay W) (s : strst W).

(** C13: in every pass, when the relay saves a resume token, either the cursor
    has handed out nothing yet (a baseline, or the checkpoint of an empty
    window), or it is the token of the last event disposed of, and the events
    disposed of, by a confirmed send or a confirmed park, are exactly the events
    handed out up to that one, in order. *)
Theorem RunOnce_saves_after_disposal r wait ctx s :
  hooks_ok (lane r) →
  del (RunOnce r wait ctx) s (λ _ k _,
    ∀ l1 c tok ct x l2, k = l1 ++ ESaveToken c tok ct x :: l2 →
    ∃ done rest, pulled l1 = done ++ rest ∧ disposed l1 = done.*1 ∧
      (last done.*2 = Some tok ∨ (done = [] ∧ rest = []))).
Proof.
  intros Hok. del_use pass_spec; [done|]. intros e k s' (k0 & k1 & -> & Hk0 & Hk1) l1 c tok ct x l2 Heq.
  assert (Hidle : ∀ l, k0 = l1 ++ l → ∃ done rest, pulled l1 = done ++ rest ∧ disposed l1 = done.*1 ∧
      (last done.*2 = Some tok ∨ (done = [] ∧ rest = []))).
  { intros l ->. apply Forall_app in Hk0 as [Hl _]. exists [], [].
    rewrite idle_pulled, idle_disposed by done. auto. }
  apply app_save_split in Heq as [(l & Hl)|(l & -> & Heq)]; [by eapply Hidle, Hl|].
  destruct Hk1 as [->|(w1 & w2 & done & rest & T & -> & Hn & Ht & Hp & Hd & Hw)]; [by destruct l|].
  apply app_save_split in Heq as [(l' & ->)|(l' & -> & ->)].
  { apply Forall_app in Hn as [_ Hn]. by apply Forall_cons in Hn as [? _]. }
  apply Forall_app in Ht as [Ht1 Ht2]. apply Forall_cons in Ht2 as [Htok _].
  apply String.eqb_eq in Htok as ->. exists done, rest.
  rewrite !pulled_app, !disposed_app, (idle_pulled k0), (idle_disposed k0) by done.
  rewrite (idle_pulled l'), (idle_disposed l'), !app_nil_r by (by eapply tailed_idle).
  split_and!; [done|done|]. destruct Hw as [Hw|[Hw|Hw]]; [|by left|by right].
  apply Forall_app in Hw as [_ Hw]. by apply Forall_cons in Hw as [? _].
Qed.

(** A stream is opened at the stored token, or, while the store has none, at
    the baseline this process has established and not yet managed to persist;
    and a baseline whose save fails is kept for the next open, so that a reopen
    never becomes a later "now". *)
Theorem open_resumes r ctx s :
  del (open r ctx) s (λ _ k s',
    (∀ tok e, EWatch tok e ∈ k → ∃ stored ct, ELoadToken (inl (stored, ct)) ∈ k ∧
       tok = if String.eqb stored "" then baselineTok (local s) else stored) ∧
    (∀ c tok ct er, ESaveToken c tok ct (inr er) ∈ k → baselineTok (local s') = tok)).
Proof. eapply del_mono; [apply open_spec|]. intros x k s' [_ Hr]. exact Hr. Qed.

(** The local position follows the store, never ahead of it: a save moves
    the committed time, the last saved token and drops the in-memory baseline
    exactly when the store confirms it; a failed save is returned, and a save
    rejected as stale is reported but is no error; neither moves anything. *)
Theorem saveToken_confirmed r ctx tok ct s :
  del (saveToken r ctx tok ct) s (λ e k s', ∃ c x sig, k = ESaveToken c tok ct x :: sig ∧ signals sig ∧
    match x with
    | inr er => e = Some er ∧ local s' = local s
    | inl false => e = None ∧ local s' = local s
    | inl true => e = None ∧
        local s' = mkLoc (stream (local s)) ct tok "" 0 (clockOffset (local s))
                     (clockCalibrated (local s)) (calibratedHead (local s))
    end).
Proof. apply saveToken_spec. Qed.

(** [Run] returns only when its context is done or the stream is beyond
    repair (invalidated, or its history lost); whichever it is, leadership is
    given up, the last reported state is not leading, and the cursor is gone. *)
Theorem Run_exit r wait rounds ctx s :
  let '(res, s') := Run r wait rounds ctx s in ∀ c, res = Some c →
    (cx_done ctx ≠ None ∨ Is c ErrInvalidated = true ∨ Is c ErrHistoryLost = true) ∧
    isLeader (base s') = false ∧ wasLeader (base s') = false ∧ stream (local s') = None.
Proof.
  assert (Hdone : ∀ s, (up (ctxErr ctx) s).1 ≠ None → cx_done ctx ≠ None).
  { intros s1. destruct (del_str_ctxErr ctx s1 (λ e _ _, e ≠ None → cx_done ctx ≠ None)) as (k & _ & Hq); auto. }
  assert (Hloop : ∀ s c, (runLoop r wait rounds ctx s).1 = Some c →
    cx_done ctx ≠ None ∨ Is c ErrInvalidated = true ∨ Is c ErrHistoryLost = true).
  { induction rounds as [|n IH]; intros s1 c; cbn [runLoop]; [done|].
    rewrite run_bind. specialize (Hdone s1). destruct (up (ctxErr ctx) s1) as [dead s2]. cbn [fst snd] in *.
    destruct dead as [d|]; cbn [isNil negb]; [intros _; left; by apply Hdone|].
    rewrite run_bind. destruct (RunOnce r wait ctx s2) as [[er|] s3]; cbn [fst snd]; [|apply IH].
    destruct (Is (Some er) ErrLaneStopped); [rewrite run_bind; apply IH|].
    destruct (Is (Some er) ErrInvalidated || Is (Some er) ErrHistoryLost) eqn:Ef.
    - rewrite !run_bind. intros [= <-]. right. by apply orb_true_iff in Ef.
    - rewrite !run_bind. apply IH. }
  unfold Run. rewrite !run_bind. destruct (ensureIndexes _ _ _) as [[] s1]. cbn [fst snd].
  specialize (Hloop s1). destruct (runLoop r wait rounds ctx s1) as [[c|] s2]; cbn [fst snd] in *; [|done].
  rewrite !run_bind. set (sd := ShutdownScope _).
  destruct (del_str (ReleaseLeadership (reporter r) sd (leader r)) s2
    (λ _ _ s', isLeader (base s') = false ∧ wasLeader (base s') = false)) as (k1 & _ & Hl).
  { del_use ReleaseLeadership_spec. by intros _ k c' (_ & ? & ?). }
  destruct (up (ReleaseLeadership (reporter r) sd (leader r)) s2) as [[] s3]. cbn [fst snd] in *.
  destruct (closeStream_spec sd s3) as (k2 & _ & _ & _ & Hs).
  pose proof (closeStream_flags sd s3) as Hf.
  destruct (closeStream sd s3) as [[] s4]. cbn [fst snd] in *. rewrite run_ret.
  intros c' [= <-]. destruct Hf as [-> ->]. split_and!; [by apply Hloop|apply Hl|apply Hl|done].
Qed.
End properties.

(** ** A concrete relay *)
(** The cursor hands out what is in the feed, then nothing. *)
Record feed := mkFeed { clk : Z; items : list (option Event * bool * error); saved : list string }.
#[export] Instance feed_host : Host feed := λ w, (clk w, w).
Definition demo_next (ctx : cx) : M feed (option Event * bool * error) := λ w,
  match items w with
  | [] => ((None, false, None), w)
  | x :: l => (x, mkFeed (clk w + Second) l (saved w))
  end.
Definition demo_cursor : Stream feed :=
  mkStream demo_next (mret ("head"%string, Second, true)) (λ _, mret None).
Definition demo_save (ctx : cx) (name tok : string) (ct : Z) : M feed (res bool) := λ w,
  (inl true, mkFeed (clk w) (items w) (saved w ++ [tok])).
Definition demo_store : Store feed :=
  mkStore (λ _ _, mret (inl (""%string, 0))) demo_save (λ _ _ _, mret (inl demo_cursor)).
(** It confirms every message but one with the payload bad. *)
Definition demo_send (ctx : cx) (md : option Metadata) (data : option string) : M feed error :=
  mret (match data with Some "bad"%string => Some (New "down") | _ => None end).
Definition demo_relay : Relay feed :=
  match NewRelay "holder" "books" (Some demo_store) (Some demo_send) None None
          (mkOptions (mkLease (60 * Second) "" true) DefaultOps DefaultHooks Second 100) with
  | inl r => r
  | inr _ => mkRelay "" demo_store defaultOptions (NewElector None "" "" 0) (mkReporter no_signals 0)
               (mkLane (mkReporter no_signals 0) demo_send None None None stuckLabel None 0) None
  end.
Definition demo_event (id tok data : string) : option Event * bool * error :=
  (Some (Some (mkMessage id 0 None (Some data) 0), tok, Second), true, None).
Definition demo_strst : strst feed :=
  mkStrst (mkCore (mkFeed 1000 [demo_event "id-1" "t1" "ok"; demo_event "id-2" "t2" "ok";
                                demo_event "id-3" "t3" "bad"; demo_event "id-4" "t4" "ok"] [])
             [] freshTracker false false)
    (mkLoc None 0 "" "" 0 0 false 0).

(** The baseline, then the token of the last confirmed event; the lane stops at
    the third. *)
Example demo_pass :
  let '(e, s) := RunOnce demo_relay (λ _, skip) Background demo_strst in
  e = Some (Sentinel ErrLaneStopped) ∧ saved (world (base s)) = ["head"; "t2"]%string ∧
  MsgID <$> disposed (trace (base s)) = ["id-1"; "id-2"]%string ∧ stream (local s) = None.
Proof. by vm_compute. Qed.

Lemma RunOnce_saves_after_disposal_witness :
  del (RunOnce demo_relay (λ _, skip) Background) demo_strst (λ _ k _,
    ∀ l1 c tok ct x l2, k = l1 ++ ESaveToken c tok ct x :: l2 →
    ∃ done rest, pulled l1 = done ++ rest ∧ disposed l1 = done.*1 ∧
      (last done.*2 = Some tok ∨ (done = [] ∧ rest = []))).
Proof. apply (RunOnce_saves_after_disposal demo_relay). by vm_compute. Defined.
