(* ===== verification/StreamDelivery.v ===== *)
(** * relay/stream: at-least-once delivery, against any change stream

    [ChangeLog] is what the store, its cursors, the sender and the hooks owe the
    relay, in terms of the store's [Safe]: a cursor opened at a safe token is
    safe, it stays so and its token becomes safe when the event it hands out is
    disposed of, and a save keeps every claim provided the token it saves is one.
    In return every pass and every run of a relay that has a position, in the
    store or as a baseline it could not persist yet, keeps the stream safe: it
    never saves a token and never goes on with a cursor that is past an event
    nobody disposed of. *)
From S2P Require Import Prelude Errors GoLib Event Bound Relay Scenario Notify Leader Lane RelayCfg Stream StreamProps Safety.

(** What a store can claim: [Base], its rows are in order; [Tok t], resuming
    after [t] passes over nothing; [Cur st], neither does going on with [st];
    [Stored], the group has a stored position. *)
Inductive point `{UrlLib} (W : Type) := Base | Tok (t : string) | Cur (st : Stream W) | Stored.
#[global] Arguments Base {_ _}.
#[global] Arguments Tok {_ _} _.
#[global] Arguments Cur {_ _} _.
#[global] Arguments Stored {_ _}.

(** Errors that do not ask [Run] to reopen without closing. *)
Definition ordinary (e : err) : Prop := is_err e ErrLaneStopped = false.
(** Errors that do not say that a document is absent, either. *)
Definition plain_fault (e : err) : Prop := ordinary e ∧ is_err e ErrNoDocuments = false.
Definition ordinary_cx (ctx : cx) : Prop := plain_fault (cx_err ctx).
Lemma ordinary_cx_err ctx : ordinary_cx ctx → ordinary (cx_err ctx).
Proof. by intros []. Qed.
Lemma ordinary_Call t ctx ttl : ordinary_cx ctx → ordinary_cx (Call t ctx ttl).
Proof. intros Hc. unfold Call, WithTimeout, earlier. repeat case_match; done. Qed.
Lemma ordinary_Commit t ctx ttl : ordinary_cx (Commit t ctx ttl).
Proof.
  unfold Commit, ordinary_cx, WithTimeout, earlier, WithoutCancel. simpl. repeat case_match; done.
Qed.
Lemma ordinary_Joined a b : ordinary a → ordinary b → ordinary (Joined [a; b]).
Proof. unfold ordinary. simpl. by intros -> ->. Qed.

Section relay.
Context `{UrlLib} {W : Type} `{!Safety (point W) W} `{Host W}.
#[local] Abbreviation S := (strst W).
#[export] Instance strst_situated : Situated W S := λ s, world (base s).
Context (r : Relay W) (D : Message → Prop) (valid : Stream W → Prop).
Implicit Types (s : S).

(** ** The interface: [valid] are the cursors the store hands out *)
(** A call on a cursor keeps every claim but the one on the cursor. *)
Definition cursor_call {A} (m : M W A) : Prop := ∀ p, (∀ st, p ≠ Cur st) → keeps (Safe p) m.
Record ChangeLog : Prop := mkChangeLog {
  cl_lane : harmless_lane (lane r);
  cl_leader : harmless_elector (leader r);
  cl_ensurer f c : ensurer r = Some f → harmless (f c);
  cl_base p w : Safe p w → Safe Base w;
  cl_load c : harmless (LoadToken (store r) c (name r));
  cl_load_at c w tok ct : ordinary_cx c → Safe Base w → (LoadToken (store r) c (name r) w).1 = inl (tok, ct) →
    let w' := (LoadToken (store r) c (name r) w).2 in
    (tok ≠ ""%string → Safe (Tok tok) w') ∧ (Safe Stored w' → tok ≠ ""%string);
  cl_watch c tok n : cursor_call (Watch (store r) c tok n);
  cl_watch_at c tok n w st : tok ≠ ""%string → Safe (Tok tok) w →
    (Watch (store r) c tok n w).1 = inl st → valid st ∧ Safe (Cur st) (Watch (store r) c tok n w).2;
  cl_next st c : valid st → cursor_call (Next st c);
  cl_next_at st c w e ok er w' : valid st → Safe (Cur st) w → Next st c w = ((e, ok, er), w') →
    match er with
    | None =>
        (ok = false → Safe (Cur st) w') ∧
        (∀ m tok ct, ok = true → e = Some (Some m, tok, ct) → D m → Safe (Cur st) w' ∧ Safe (Tok tok) w')
    | Some er =>
        (ordinary_cx c → ordinary er) ∧
        ∀ d id tok ct, As asStreamDecode (Some er) = Some (d, id, tok, ct) → tok ≠ ""%string →
          D (stub id) → Safe (Cur st) w' ∧ Safe (Tok tok) w'
    end;
  cl_checkpoint st : valid st → harmless (Checkpoint st);
  cl_checkpoint_at st w tok ct b w' : valid st → Safe (Cur st) w → Checkpoint st w = ((tok, ct, b), w') →
    tok ≠ ""%string → Safe (Tok tok) w';
  cl_close st c : valid st → cursor_call (Close st c);
  cl_save c tok ct p w : Safe (Tok tok) w → Safe p w → Safe p (SaveToken (store r) c (name r) tok ct w).2;
  cl_save_at c tok ct w : Safe (Tok tok) w →
    match SaveToken (store r) c (name r) tok ct w with
    | (inl true, w') => Safe Stored w'
    | (inl false, _) => True
    | (inr e, _) => ordinary_cx c → ordinary e
    end;
  cl_poison h c m x w e : Poison (lane r) = Some h → (h c m x w).1 = Some e → ordinary e }.

(** ** Quiet steps: calm, and leaving the cursor and the baseline alone *)
Definition quiet : relation S := λ s s',
  calm s s' ∧ stream (local s') = stream (local s) ∧ baselineTok (local s') = baselineTok (local s).
#[export] Instance quiet_preorder : PreOrder quiet.
Proof.
  split; [intros s; by split_and!|]. intros s1 s2 s3 (? & ? & ?) (? & ? & ?).
  split_and!; [by etrans|congruence..].
Qed.
Lemma quiet_up {A} (m : M (core W string) A) : respects calm m → respects quiet (up m).
Proof. intros Hm s. split_and!; [exact (Hm (base s))|done..]. Qed.
Lemma quiet_set f : (∀ l, stream (f l) = stream l ∧ baselineTok (f l) = baselineTok l) → respects quiet (set f).
Proof.
  intros Hf s. split; [|apply Hf]. split; [exists []; symmetry; apply app_nil_r|done].
Qed.
Lemma quiet_here {A} (f : loc W → A) : respects quiet (here f).
Proof. apply respects_gets; apply _. Qed.

(** ** The state between passes *)
(** The relay has a position to come back to. *)
Definition rooted s : Prop :=
  SafeAt Base s ∧ (baselineTok (local s) ≠ ""%string → SafeAt (Tok (baselineTok (local s))) s) ∧
  (SafeAt Stored s ∨ baselineTok (local s) ≠ ""%string) ∧
  (∀ st, stream (local s) = Some st → valid st).
Definition settled s : Prop :=
  rooted s ∧ ∀ st, stream (local s) = Some st → SafeAt (Cur st) s.
(** [C] is what the cursor's claim depends on. *)
Definition running (st : Stream W) (C : Prop) s : Prop :=
  rooted s ∧ stream (local s) = Some st ∧ (C → SafeAt (Cur st) s).
Definition stable (P : S → Prop) : Prop := ∀ s s', quiet s s' → P s → P s'.

Lemma stable_safe p : stable (SafeAt p).
Proof. intros s s' (Hc & _) Hs. by eapply SafeAt_calm. Qed.
Lemma stable_if (C : Prop) (P : S → Prop) : stable P → stable (λ s, C → P s).
Proof. intros HP s s' Hq HC ?. eapply HP; eauto. Qed.
Lemma stable_const (C : Prop) : stable (λ _, C).
Proof. by intros s s' _. Qed.
Lemma stable_and P Q : stable P → stable Q → stable (λ s, P s ∧ Q s).
Proof. intros HP HQ s s' Hq [??]. split; [by eapply HP|by eapply HQ]. Qed.
Lemma stable_rooted : stable rooted.
Proof.
  intros s s' (Hc & Es & Eb) (Hb & Ht & Hj & Hv). unfold rooted. rewrite Eb, Es.
  split_and!; [by eapply SafeAt_calm|intros ?; eapply SafeAt_calm; eauto| |done].
  destruct Hj; [left|by right]. by eapply SafeAt_calm.
Qed.
Lemma stable_running st C : stable (running st C).
Proof.
  intros s s' Hq (Hr & Hs & HC). split_and!; [by eapply stable_rooted| |].
  - destruct Hq as (_ & -> & _). done.
  - intros ?. eapply stable_safe; eauto.
Qed.
Lemma stable_settled : stable settled.
Proof.
  intros s s' Hq [Hr Hs]. split; [by eapply stable_rooted|]. intros st Hst.
  eapply stable_safe; [done|]. apply Hs. destruct Hq as (_ & Eq & _). congruence.
Qed.
Lemma running_settled st C s : running st C s → C → settled s.
Proof. intros (Hr & Hs & HC) ?. split; [done|]. intros st' Hst'. replace st' with st by congruence. auto. Qed.
End relay.
#[export] Hint Resolve stable_safe stable_if stable_const stable_and stable_rooted stable_running
  stable_settled : safe.

Ltac str_quiet_step :=
  lazymatch goal with
  | |- respects quiet (up (lift _)) => apply quiet_up, calm_lift; solve [eauto with safe]
  | |- respects quiet (up (emit _)) => apply quiet_up, calm_emit
  | |- respects quiet (up _) => apply quiet_up; solve [eauto with safe]
  | |- respects quiet (set _) => apply quiet_set; by intros []
  | |- respects quiet (here _) => apply quiet_here
  | |- respects quiet (mbind _ _) => apply respects_bind; [apply _| |intros ?]
  | |- respects quiet (mret _) => apply respects_ret; apply _
  | |- respects quiet skip => apply respects_skip; apply _
  | |- respects quiet (match _ with _ => _ end) => case_match
  | |- respects quiet (let _ := _ in _) => cbv zeta
  end.
Ltac str_quiet := repeat str_quiet_step; try solve [eauto with safe].

Section guarded.
Context `{UrlLib} {W : Type} `{!Safety (point W) W} `{Host W}.
#[local] Abbreviation S := (strst W).
Context (r : Relay W) (D : Message → Prop) (valid : Stream W → Prop) (Hr : ChangeLog r D valid).
#[local] Abbreviation rooted := (rooted valid).
#[local] Abbreviation settled := (settled valid).
#[local] Abbreviation running := (running valid).
Implicit Types (s : S).

#[local] Definition lane_ok := cl_lane r D valid Hr.
#[local] Definition leader_ok := cl_leader r D valid Hr.
#[local] Definition now_ok : harmless now := hl_now _ lane_ok.
#[local] Definition ensurer_ok := cl_ensurer r D valid Hr.
#[local] Hint Resolve lane_ok leader_ok now_ok ensurer_ok : safe.

(** ** Rules *)
Lemma guards_quiet {A} (m : M S A) (P : S → Prop) :
  respects quiet m → stable P → guards D P m (λ _, P).
Proof.
  intros Hm HP s. destruct (Hm s) as [[[l Hl] Hc] Hq]. exists l. split; [done|]. intros _ ?.
  eapply HP; [|done]. split; [split; [eauto|done]|done].
Qed.
Lemma del_quiet {A} (m : M S A) s Q :
  respects quiet m → del m s Q → del m s (λ a k s', Q a k s' ∧ quiet s s').
Proof. intros Hm (k & Hk & HQ). exists k. auto. Qed.
Lemma guards_and {A} (m : M S A) (P P' : S → Prop) (Q Q' : A → S → Prop) :
  guards D P m Q → guards D P' m Q' → guards D (λ s, P s ∧ P' s) m (λ a s, Q a s ∧ Q' a s).
Proof.
  intros Hm Hm' s. destruct (Hm s) as (k & Hk & HQ), (Hm' s) as (k' & Hk' & HQ').
  assert (k' = k) as -> by (apply (app_inv_head (tr s)); congruence).
  exists k. split; [done|]. intros ? [? ?]. auto.
Qed.
Lemma guards_keep {A} (C : Prop) (m : M S A) (P : S → Prop) (Q : A → S → Prop) :
  guards D P m Q → guards D (λ s, C ∧ P s) m (λ a s, C ∧ Q a s).
Proof. intros Hm s. destruct (Hm s) as (k & Hk & HQ). exists k. split; [done|]. intros ? [? ?]. auto. Qed.
Lemma guards_lift {A} (m : M W A) (P : S → Prop) (Q : A → S → Prop) :
  (∀ s s' a, P s → local s' = local s → m (world (base s)) = (a, world (base s')) → Q a s') →
  guards D P (up (lift m)) Q.
Proof.
  intros HQ s. exists []. split; [symmetry; apply app_nil_r|]. intros _ HP.
  eapply HQ; [exact HP|done|apply surjective_pairing].
Qed.
Lemma guards_call {A} budget ctx (call : cx → M W A) (P : S → Prop) (Q : A → S → Prop) :
  stable P →
  (∀ t s s' a, P s → local s' = local s →
     call (budget t ctx (optimeout r)) (world (base s)) = (a, world (base s')) → Q a s') →
  guards D P (bounded r budget ctx call) (λ x, Q x.2).
Proof.
  intros HP HQ. unfold bounded. eapply guards_bind; [apply guards_quiet; [str_quiet|done]|].
  intros t. cbv zeta. eapply guards_bind; [apply guards_lift, (HQ t)|].
  intros a. by apply guards_ret.
Qed.
(** A claim the call keeps, with the local state that only the relay changes. *)
Lemma safe_call {A} (m : M W A) a p s s' :
  keeps (Safe p) m → m (world (base s)) = (a, world (base s')) → SafeAt p s → SafeAt p s'.
Proof.
  intros Hm E Hs. specialize (Hm (world (base s)) Hs). by rewrite E in Hm.
Qed.
Lemma rooted_step s s' :
  local s' = local s → (∀ p, (∀ st, p ≠ Cur st) → SafeAt p s → SafeAt p s') → rooted s → rooted s'.
Proof.
  intros El Hk (Hb & Ht & Hj & Hv). unfold StreamDelivery.rooted. rewrite El.
  split_and!; [by apply Hk|intros ?; apply Hk; auto|destruct Hj; [left; by apply Hk|by right]|done].
Qed.
Lemma rooted_call {A} (m : M W A) a s s' :
  cursor_call m → local s' = local s → m (world (base s)) = (a, world (base s')) → rooted s → rooted s'.
Proof. intros Hm El E. apply rooted_step; [done|]. intros p Hp. eapply safe_call; [by apply Hm|done]. Qed.
Lemma guards_set f (P Q : S → Prop) :
  (∀ s s', P s → world (base s') = world (base s) → local s' = f (local s) → Q s') →
  guards D P (set f) (λ _, Q).
Proof. intros HQ s. exists []. split; [symmetry; apply app_nil_r|]. intros _ HP. by apply (HQ s). Qed.
Lemma guards_here {A} (f : loc W → A) (P : S → Prop) :
  guards D P (here f) (λ v s, P s ∧ f (local s) = v).
Proof. intros s. exists []. split; [symmetry; apply app_nil_r|]. by intros _ ?. Qed.
(** A computation that is not reached. *)
Definition grows : relation S := λ s s', ∃ l, tr s' = tr s ++ l.
#[local] Instance grows_preorder : PreOrder grows.
Proof.
  split; [intros s; exists []; by rewrite app_nil_r|].
  intros s1 s2 s3 [l1 E1] [l2 E2]. exists (l1 ++ l2). by rewrite E2, E1, app_assoc.
Qed.
Lemma quiet_grows {A} (m : M S A) : respects quiet m → respects grows m.
Proof. intros Hm s. destruct (Hm s) as [[? _] _]. done. Qed.
Lemma guards_absurd {A} (m : M S A) (P : S → Prop) (Q : A → S → Prop) :
  respects grows m → (∀ s, ¬ P s) → guards D P m Q.
Proof. intros Hm HP s. destruct (Hm s) as [l Hl]. exists l. split; [done|]. intros _ Hs. by apply HP in Hs. Qed.
Lemma guards_grows {A} (m : M S A) P Q : guards D P m Q → respects grows m.
Proof. intros Hm s. destruct (Hm s) as (l & Hl & _). by exists l. Qed.
(** A precondition that says which computation runs. *)
Lemma guards_given {A} (C : Prop) (m : M S A) (P : S → Prop) (Q : A → S → Prop) :
  respects grows m → (∀ s, P s → C) → (C → guards D P m Q) → guards D P m Q.
Proof.
  intros Hm HC HQ s. destruct (Hm s) as [l Hl]. exists l. split; [done|]. intros HD HP.
  destruct (HQ (HC s HP) s) as (l' & Hl' & Hpost).
  assert (l' = l) as -> by (apply (app_inv_head (tr s)); congruence). auto.
Qed.
Lemma del_grows {A} (m : M S A) (Q : S → A → list ev → S → Prop) :
  (∀ s, del m s (Q s)) → respects grows m.
Proof. intros Hm s. destruct (Hm s) as (l & ? & _). by exists l. Qed.
Lemma guards_skip (P : S → Prop) (Q : unit → S → Prop) : (∀ s, P s → Q tt s) → guards D P skip Q.
Proof. intros HQ s. exists []. split; [symmetry; apply app_nil_r|]. intros _. apply HQ. Qed.
Lemma harmless_cursor {A} (m : M W A) : harmless m → cursor_call m.
Proof. intros Hm p _. apply Hm. Qed.
#[local] Hint Resolve harmless_cursor : safe.

(** ** The cursor's calls *)
(** The position a window has reached is safe to come back to. *)
Definition reached (w : window) s : Prop := wAdvanced w = true → SafeAt (Tok (wTok w)) s.
Lemma stable_reached w : stable (reached w).
Proof. unfold reached. eauto with safe. Qed.
#[local] Hint Resolve stable_reached : safe.

(** What the cursor's answer is good for. *)
Definition handed (st : Stream W) (x : option Event * bool * error) s : Prop :=
  match x.2 with
  | None =>
      (x.1.2 = false → SafeAt (Cur st) s) ∧
      (∀ m tok ct, x.1.2 = true → x.1.1 = Some (Some m, tok, ct) → D m → SafeAt (Cur st) s ∧ SafeAt (Tok tok) s)
  | Some er => ordinary er ∧
      ∀ d id tok ct, As asStreamDecode (Some er) = Some (d, id, tok, ct) → tok ≠ ""%string →
        D (stub id) → SafeAt (Cur st) s ∧ SafeAt (Tok tok) s
  end.
Lemma stable_handed st x : stable (handed st x).
Proof.
  intros s s' Hq. pose proof (λ p, stable_safe p s s' Hq) as Hs. unfold handed.
  destruct x.2; intros [Ha Hb]; (split; [by auto|]); intros *; intros ???;
    (edestruct Hb; [done..|]); split; auto.
Qed.
#[local] Hint Resolve stable_handed : safe.

Lemma bNext_guards st ctx w :
  valid st → ordinary_cx ctx →
  guards D (λ s, running st True s ∧ reached w s) (bNext r st ctx)
    (λ x s, running st False s ∧ reached w s ∧ handed st x s).
Proof.
  intros Hv Hctx. unfold bNext. eapply guards_bind.
  { apply (guards_call _ _ _ _ (λ x s, running st False s ∧ reached w s ∧ handed st x s)); [by eauto with safe|].
    intros t s s' [[e ok] er] [(Hro & Hst & Hc) Hw] El E. specialize (Hc I).
    pose proof (cl_next r D valid Hr st (Call t ctx (optimeout r)) Hv) as Hk. split; [|split].
    - split_and!; [by eapply rooted_call|by rewrite El|done].
    - intros Ha. eapply safe_call; [by apply Hk|done|auto].
    - pose proof (cl_next_at r D valid Hr _ _ _ _ _ _ _ Hv Hc E) as Hx. unfold handed. cbn [fst snd].
      destruct er as [er|]; [|done]. destruct Hx as [Ho Hx].
      split; [by apply Ho, ordinary_Call|exact Hx]. }
  intros x. eapply guards_bind; [apply guards_quiet; [str_quiet|eauto with safe]|].
  intros []. by apply guards_ret.
Qed.
Lemma checkpoint_guards st (P : S → Prop) :
  valid st → stable P →
  guards D (λ s, running st True s ∧ P s) (checkpoint st)
    (λ x s, (running st True s ∧ P s) ∧ (x.1.1 ≠ ""%string → SafeAt (Tok x.1.1) s)).
Proof.
  intros Hv HP. pose proof (cl_checkpoint r D valid Hr st Hv) as Hh.
  eapply guards_pre; [apply guards_and|intros s Hs; split; [exact Hs|exact Hs]].
  { apply guards_quiet; [unfold checkpoint; str_quiet|]. eauto with safe. }
  unfold checkpoint. eapply guards_bind.
  { apply (guards_lift _ _ (λ x s, x.1.1 ≠ ""%string → SafeAt (Tok x.1.1) s)).
    intros s s' [[tok ct] b] [(_ & _ & Hc) _] _ E Ht. by eapply (cl_checkpoint_at r D valid Hr); [exact Hv|apply Hc|..]. }
  intros x. eapply guards_bind; [apply guards_quiet; [str_quiet|eauto with safe]|].
  intros []. by apply guards_ret.
Qed.

(** ** Saving *)
Lemma bSaveToken_guards ctx tok ct st C :
  guards D (λ s, running st C s ∧ SafeAt (Tok tok) s) (bSaveToken r ctx tok ct)
    (λ x s, running st C s ∧ match x with
                             | inl true => SafeAt Stored s
                             | inl false => True
                             | inr e => ordinary e
                             end).
Proof.
  set (Q := λ (x : res bool) s, running st C s ∧ _).
  assert (HQ : ∀ x, stable (Q x)).
  { intros [[]|e]; apply stable_and; eauto with safe. }
  unfold bSaveToken. eapply guards_bind.
  { apply (guards_call _ _ _ _ Q); [eauto with safe|].
    intros t s s' x [(Hro & Hst & Hc) Ht] El E. set (c := Commit t ctx _) in E.
    assert (Hk : ∀ p, SafeAt p s → SafeAt p s').
    { intros p Hp. pose proof (cl_save r D valid Hr c tok ct p (world (base s)) Ht Hp) as Hx. by rewrite E in Hx. }
    split; [split_and!|].
    - by eapply rooted_step; [|intros p _; apply Hk|].
    - by rewrite El.
    - auto.
    - pose proof (cl_save_at r D valid Hr c tok ct (world (base s)) Ht) as Hx. rewrite E in Hx.
      destruct x as [[]|e]; [done|done|]. by apply Hx, ordinary_Commit. }
  intros x. eapply guards_bind; [apply guards_quiet; [str_quiet|apply HQ]|]. intros []. by apply guards_ret.
Qed.
Lemma saveToken_guards ctx tok ct st C :
  guards D (λ s, running st C s ∧ SafeAt (Tok tok) s) (saveToken r ctx tok ct)
    (λ x s, running st C s ∧ ∀ e, x = Some e → ordinary e).
Proof.
  unfold saveToken. eapply guards_bind; [apply bSaveToken_guards|]. intros [[]|e]; cbv beta.
  - eapply (guards_bind _ _ _ _ (λ _, running st C)); [|intros ?; by apply guards_ret].
    apply guards_set. intros s s' (((Hb & _ & _ & Hv) & Hst & Hc) & Hj) Ew El.
    unfold StreamDelivery.running, StreamDelivery.rooted, SafeAt, situation, strst_situated in *. rewrite Ew, El. simpl.
    split_and!; [done|done|by left|done|done|done].
  - eapply guards_pre with (P' := running st C); [|by intros s []].
    eapply guards_bind; [apply guards_quiet; [str_quiet|eauto with safe]|]. intros ?.
    eapply guards_bind; [apply guards_quiet; [str_quiet|eauto with safe]|]. intros ?. by apply guards_ret.
  - apply guards_ret. intros s [??]. split; [done|]. by intros ? [= <-].
Qed.

(** ** Parking and sending *)
Definition all_ordinary (e : error) : Prop := ∀ x, e = Some x → ordinary x.
Lemma lift_yields {A} (m : M W A) V : yields m V → yields (S := core W string) (lift m) V.
Proof. intros Hm s. apply Hm. Qed.
Lemma up_yields {A} (m : M (core W string) A) V : yields m V → yields (up m) V.
Proof. intros Hm s. apply Hm. Qed.
Lemma Park_ordinary ctx pos msg cause :
  yields (S := core W string) (Park (lane r) ctx pos msg cause) all_ordinary.
Proof.
  unfold Park. eapply yields_bind.
  - unfold MessageFailure. eapply (yields_bind _ _ all_ordinary).
    + destruct (Poison (lane r)) as [h|] eqn:Eh; [|by apply yields_ret].
      apply yields_after. intros c. eapply yields_bind; [apply (lift_yields _ all_ordinary)|].
      { intros w e He. by eapply (cl_poison r D valid Hr h). }
      intros pe Hpe. apply yields_after. intros ?. by apply yields_ret.
    + intros pe Hpe. apply yields_after. intros ?. by apply yields_ret.
  - intros [e|] He; [by apply yields_ret|]. apply yields_after. intros ?. by apply yields_ret.
Qed.
Lemma parkPoison_ordinary ctx e :
  yields (parkPoison r ctx e) (λ p, ∀ pe, p = Some pe → all_ordinary pe).
Proof.
  unfold parkPoison. destruct (As _ _) as [[[[? ?] ?] ?]|]; [|by apply yields_ret].
  destruct (Poison _); [|by apply yields_ret]. destruct (String.eqb _ _); [by apply yields_ret|].
  apply yields_after. intros dead. destruct (negb _); [by apply yields_ret|].
  eapply yields_bind; [apply up_yields, Park_ordinary|]. intros pe Hpe. apply yields_ret. by intros ? [= <-].
Qed.
Lemma parkPoison_quiet ctx e : respects quiet (parkPoison r ctx e).
Proof. unfold parkPoison. str_quiet. Qed.
Lemma str_parkPoison_guards ctx e P :
  stable P → guards D P (parkPoison r ctx e) (λ p s, P s ∧
    (p = Some None → ∃ d id tok ct, As asStreamDecode (Some e) = Some (d, id, tok, ct) ∧
       tok ≠ ""%string ∧ D (stub id)) ∧
    ∀ pe, p = Some (Some pe) → ordinary pe).
Proof.
  intros HP s. pose proof (parkPoison_ordinary ctx e s) as Ho.
  destruct (del_quiet _ s _ (parkPoison_quiet ctx e) (str_parkPoison_spec r ctx e s)) as (k & Hk & (_ & _ & Hp) & Hq).
  exists k. split; [exact Hk|]. intros HD ?. split; [by eapply HP|]. split; [|intros pe E; by eapply Ho].
  intros E. rewrite E in Hp. destruct Hp as (d & id & tok & ct & He & Ht & Hd). rewrite Hd in HD.
  exists d, id, tok, ct. split_and!; [done|done|by apply Forall_inv in HD].
Qed.
Lemma Send_guards ctx pos m P :
  hooks_ok (lane r) → stable P →
  guards D P (up (Send (lane r) ctx pos m)) (λ d s, P s ∧ (d = Sent ∨ d = Parked → D m)).
Proof.
  intros Hok HP s.
  assert (Hd : del (up (Send (lane r) ctx pos m)) s
    (λ d k _, disposed k = if decide (d = Sent ∨ d = Parked) then [m] else [])).
  { apply del_str. del_use Send_disposed_lane; [done|]. by intros d k c (_ & ? & _). }
  apply del_quiet in Hd as (k & Hk & Hd & Hq); [|str_quiet]. exists k. split; [exact Hk|].
  intros HD ?. split; [by eapply HP|]. intros Hs. rewrite Hd, decide_True in HD by done.
  by apply Forall_inv in HD.
Qed.

(** ** A window *)
#[local] Definition failing (st : Stream W) (x : error) s : Prop :=
  running st False s ∧ ∃ e, x = Some e ∧ ordinary e.
Lemma failWindow_guards ctx w e st :
  guards D (λ s, ordinary e ∧ running st False s ∧ reached w s) (failWindow r ctx w e) (failing st).
Proof.
  unfold failWindow. eapply guards_bind; [apply guards_quiet; [str_quiet|eauto with safe]|].
  intros ?. destruct (wAdvanced w) eqn:Ea; [|apply guards_ret; intros s (? & ? & _); split; eauto].
  eapply guards_bind.
  { eapply guards_pre; [apply (guards_keep (ordinary e)), (saveToken_guards ctx (wTok w) (wCT w) st False)|].
    intros s (? & ? & Hw). split_and!; [done|done|by apply Hw]. }
  intros [se|]; apply guards_ret; intros s (? & ? & Hse); (split; [done|]); [|by eexists].
  eexists. split; [done|]. apply ordinary_Joined; [done|by apply Hse].
Qed.

(** The loop either ends at a position that is safe to come back to, with a
    cursor that is safe to go on with unless the lane stopped, or fails. *)
#[local] Definition loop_post (st : Stream W) (x : window + error) s : Prop :=
  match x with
  | inl w => running st (wStopped w = false) s ∧ reached w s
  | inr e => failing st e s
  end.
Lemma failed_loop ctx w e st (P : S → Prop) :
  (∀ s, P s → ordinary e ∧ running st False s ∧ reached w s) →
  guards D P (f ← failWindow r ctx w e; mret (inr f)) (loop_post st).
Proof.
  intros HP. eapply guards_bind; [eapply guards_pre; [apply failWindow_guards|exact HP]|].
  intros f. by apply guards_ret.
Qed.
Lemma str_drainLoop_guards st n ctx w :
  valid st → hooks_ok (lane r) → ordinary_cx ctx → wStopped w = false →
  guards D (λ s, running st True s ∧ reached w s) (drainLoop r st n ctx w) (loop_post st).
Proof.
  intros Hv Hok Hctx. revert w. induction n as [|n IH]; intros w Hns; cbn [drainLoop].
  { apply guards_ret. intros s [(? & ? & ?) ?]. split; [split_and!; auto|done]. }
  eapply guards_bind; [apply guards_quiet; [str_quiet|eauto with safe]|]. intros dead.
  destruct (negb _); [apply guards_ret; intros s [(? & ? & ?) ?]; split; [split_and!; auto|done]|].
  eapply guards_bind; [by apply bNext_guards|]. intros [[e ok] er].
  assert (Hgo : ∀ w', wStopped w' = false →
    guards D (λ s, running st False s ∧ SafeAt (Cur st) s ∧ SafeAt (Tok (wTok w')) s)
      (drainLoop r st n ctx w') (loop_post st)).
  { intros w' Hw'. eapply guards_pre; [by apply IH|]. intros s ((? & ? & ?) & ? & ?).
    split; [by split_and!|by intros _]. }
  destruct er as [er|].
  - eapply guards_bind; [apply str_parkPoison_guards; eauto with safe|].
    assert (Hfail : guards D (λ s, (running st False s ∧ reached w s ∧ handed st (e, ok, Some er) s))
        (f ← failWindow r ctx w er; mret (inr f)) (loop_post st)).
    { apply failed_loop. by intros s (? & ? & ? & _). }
    intros [[pe|]|]; cbn beta.
    + apply failed_loop. intros s ((? & ? & ? & _) & _ & Hpe). split; [|done].
      apply ordinary_Joined; [done|by apply Hpe].
    + destruct (As asStreamDecode (Some er)) as [[[[d id] tok] ct]|] eqn:Ed.
      2: { eapply guards_pre; [exact Hfail|by intros s [? _]]. }
      eapply guards_bind; [apply guards_quiet; [str_quiet|]|intros committed; cbv beta].
      { apply stable_and; [eauto with safe|]. apply stable_and; eauto with safe. }
      eapply guards_pre; [by apply Hgo|]. intros s ((Hrun & _ & _ & Hd) & Hp & _).
      destruct (Hp eq_refl) as (d' & id' & tok' & ct' & [= <- <- <- <-] & Ht & Hdd).
      destruct (Hd _ _ _ _ Ed Ht Hdd). by split_and!.
    + eapply guards_pre; [exact Hfail|by intros s [? _]].
  - destruct ok; cbn [negb]; cycle 1.
    { apply guards_ret. intros s ((? & ? & _) & Hw & [Hc _]). split; [split_and!; auto|exact Hw]. }
    destruct e as [[[[m|] tok] ct]|];
      [|apply guards_ret; intros s (? & _); split; [done|by eexists]..].
    eapply guards_bind; [apply Send_guards; eauto with safe|]. intros d.
    assert (Hnext : ∀ w', wStopped w' = false → wTok w' = tok → d = Sent ∨ d = Parked →
      guards D (λ s, (running st False s ∧ reached w s ∧ handed st (Some (Some m, tok, ct), true, None) s) ∧
          (d = Sent ∨ d = Parked → D m))
        (drainLoop r st n ctx w') (loop_post st)).
    { intros w' Hw' Et Hd. eapply guards_pre; [by apply Hgo|].
      intros s ((? & _ & _ & Hh) & HD). specialize (HD Hd). rewrite Et.
      destruct (Hh m tok ct eq_refl eq_refl HD). by split_and!. }
    destruct d; [apply Hnext; auto..| |]; apply guards_ret; intros s (((? & ? & _) & ? & _) & _);
      (split; [by split_and!|done]).
Qed.

(** The window saves a safe position and goes on, or fails. *)
Lemma persist_guards ctx st w tok ct :
  guards D (λ s, (running st (wStopped w = false) s ∧ reached w s) ∧
       (wStopped w = false → tok ≠ ""%string → SafeAt (Tok tok) s)) (persist r ctx w tok ct)
    (λ x s, running st (wStopped w = false) s ∧ all_ordinary x).
Proof.
  unfold persist. destruct (wAdvanced w) eqn:Ea.
  { eapply guards_pre; [apply saveToken_guards|]. intros s [[? Hw] _]. split; [done|by apply Hw]. }
  destruct (wStopped w); cbn [negb]; [by apply guards_ret; intros s [[? _] _]|].
  destruct (String.eqb_spec tok ""); [by apply guards_ret; intros s [[? _] _]|].
  set (P := λ s, running st (false = false) s ∧ SafeAt (Tok tok) s).
  eapply guards_pre with (P' := P); [|by intros s [[? _] Ht]; split; [|by apply Ht]].
  assert (stable P) by (apply stable_and; eauto with safe).
  eapply guards_bind; [by apply guards_quiet; [str_quiet|]|]. intros last.
  destruct (String.eqb tok last); [|apply saveToken_guards].
  eapply guards_bind; [by apply guards_quiet; [str_quiet|]|]. intros ?.
  apply guards_ret. by intros s [? _].
Qed.
Lemma calibrateClock_quiet head : respects quiet (calibrateClock head).
Proof. unfold calibrateClock. str_quiet. Qed.
Lemma committedTokenAge_quiet : respects quiet committedTokenAge.
Proof. unfold committedTokenAge, serverNow. str_quiet. Qed.
#[local] Hint Resolve calibrateClock_quiet committedTokenAge_quiet : safe.

(** A cursor that is closed is no claim any more. *)
Lemma closeStream_guards ctx : guards D rooted (closeStream ctx) (λ _, settled).
Proof.
  unfold closeStream. eapply guards_bind; [apply guards_here|]. intros [st|]; cbv beta.
  2: { apply guards_skip. intros s [? E]. split; [done|]. congruence. }
  apply guards_given with (C := valid st); [|intros s [(_ & _ & _ & Hv) ?]; by apply Hv|intros Hv].
  { eapply del_grows. intros s. rdel_run. instantiate (1 := λ _ _ _ _, True). by destruct a0; rdel_run. }
  eapply guards_pre with (P' := rooted); [|by intros s []].
  eapply guards_bind; [apply guards_quiet; [str_quiet|eauto with safe]|]. intros t.
  eapply guards_bind; [apply (guards_lift _ _ (λ _, rooted))|intros e].
  { intros s s' e ? El E. by eapply rooted_call; [apply (cl_close r D valid Hr), Hv|..]. }
  eapply guards_bind; [apply guards_quiet; [str_quiet|eauto with safe]|]. intros ?.
  eapply guards_bind; [apply guards_quiet; [str_quiet|eauto with safe]|]. intros ?.
  apply guards_set. intros s s' (Hb & Ht & Hj & _) Ew El.
  unfold StreamDelivery.settled, StreamDelivery.rooted, SafeAt, situation, strst_situated in *.
  rewrite Ew, El. by split_and!.
Qed.

(** What a pass leaves: a settled state, or an error after which [Run] closes
    the cursor. *)
Definition pass_post (x : error) s : Prop :=
  settled s ∨ rooted s ∧ ∃ e, x = Some e ∧ ordinary e.
Lemma drainWindow_guards st ctx :
  valid st → hooks_ok (lane r) → ordinary_cx ctx →
  guards D (running st True) (drainWindow r st ctx) pass_post.
Proof.
  intros Hv Hok Hctx. unfold drainWindow. eapply guards_bind.
  { eapply guards_pre; [by apply str_drainLoop_guards|]. intros s ?. split; [done|]. by intros [=]. }
  intros [w|e]; cbv beta; [|apply guards_ret; intros s ((? & _) & ?); by right].
  set (P := λ s, running st (wStopped w = false) s ∧ reached w s).
  assert (stable P) by (apply stable_and; eauto with safe).
  eapply (guards_bind _ _ _ _ (λ cp s, P s ∧ (wStopped w = false → cp.1 ≠ ""%string → SafeAt (Tok cp.1) s))).
  { destruct (wCaughtUp w && negb (wStopped w)) eqn:Ec; [|by apply guards_ret].
    apply andb_true_iff in Ec as [_ Hst%negb_true_iff].
    eapply guards_bind.
    { eapply guards_pre; [apply (checkpoint_guards st (reached w)); eauto with safe|].
      intros s [(? & ? & Hc) ?]. split; [split_and!; auto|done]. }
    intros c. eapply guards_bind; [apply guards_quiet; [str_quiet|]|intros ?; apply guards_ret].
    { apply stable_and; [apply stable_and; eauto with safe|]. apply stable_if; eauto with safe. }
    intros s [[(? & ? & Hc) ?] Ht]. split; [|auto]. split; [split_and!; auto|done]. }
  intros [cpTok cpCT]. eapply guards_bind; [apply persist_guards|].
  intros [e|].
  { apply guards_ret. intros s [Hrun He]. right. split; [apply Hrun|]. eexists. split; [done|]. by apply He. }
  eapply guards_pre with (P' := running st (wStopped w = false)); [|by intros s []].
  eapply guards_bind; [apply guards_quiet; [str_quiet|eauto with safe]|]. intros age.
  eapply guards_bind; [apply guards_quiet; [str_quiet|eauto with safe]|]. intros ?.
  destruct (wStopped w); [|apply guards_ret; intros s Hrun; left; by eapply running_settled].
  eapply guards_bind; [eapply guards_pre; [apply closeStream_guards|by intros s (? & _)]|].
  intros ?. apply guards_ret. intros s ?. by left.
Qed.

(** ** Opening, a pass, a run *)
(** The relay without a cursor, at a token it may resume after. *)
#[local] Definition resting s : Prop := rooted s ∧ stream (local s) = None.
Lemma resting_settled s : resting s → settled s.
Proof. intros [? E]. split; [done|]. congruence. Qed.
Lemma stable_resting : stable resting.
Proof. intros s s' Hq [Hs E]. split; [by eapply stable_rooted|]. destruct Hq as (_ & -> & _). done. Qed.
#[local] Hint Resolve stable_resting : safe.
#[local] Definition loaded (x : res (string * Z)) s : Prop :=
  resting s ∧ match x with
              | inl (tok, _) => (tok ≠ ""%string → SafeAt (Tok tok) s) ∧ (tok ≠ ""%string ∨ baselineTok (local s) ≠ ""%string)
              | inr _ => True
              end.
Lemma stable_loaded x : stable (loaded x).
Proof.
  intros s s' Hq [Hs Hx]. split; [by eapply stable_resting|]. destruct x as [[tok ct]|]; [|done].
  pose proof (stable_safe (Tok tok) s s' Hq). destruct Hq as (_ & _ & ->), Hx. auto.
Qed.
Lemma bLoadToken_guards ctx : ordinary_cx ctx → guards D resting (bLoadToken r ctx) loaded.
Proof.
  intros Hctx. unfold bLoadToken. eapply guards_bind.
  { apply (guards_call _ _ _ _ loaded); [eauto with safe|].
    intros t s s' x [Hs Est] El E. set (c := Call t ctx _) in E.
    assert (Hs' : rooted s') by (eapply rooted_call; [apply harmless_cursor, (cl_load r D valid Hr)|done..]).
    split; [split; [done|by rewrite El]|]. destruct x as [[tok ct]|]; [|done].
    pose proof (cl_load_at r D valid Hr c (world (base s)) tok ct (ordinary_Call t ctx _ Hctx) (proj1 Hs)) as Hx.
    rewrite E in Hx. destruct (Hx eq_refl) as [Ht Hj]. split; [exact Ht|].
    destruct Hs' as (_ & _ & [?|?] & _); [left; by apply Hj|by right]. }
  intros x. eapply guards_bind; [apply guards_quiet; [str_quiet|apply stable_loaded]|].
  intros ?. by apply guards_ret.
Qed.
#[local] Definition watching (x : res (Stream W)) s : Prop :=
  resting s ∧ ∀ st, x = inl st → valid st ∧ SafeAt (Cur st) s.
Lemma bWatch_guards ctx tok :
  guards D (λ s, tok ≠ ""%string ∧ resting s ∧ SafeAt (Tok tok) s) (bWatch r ctx tok) watching.
Proof.
  unfold bWatch. eapply guards_bind.
  { apply (guards_call _ _ _ _ watching); [eauto with safe|].
    intros t s s' x (Ht & [Hs Est] & Htok) El E. set (c := Call t ctx _) in E. split; [split; [|by rewrite El]|].
    - by eapply rooted_call; [apply (cl_watch r D valid Hr)|..].
    - intros st ->. pose proof (cl_watch_at r D valid Hr c tok (DrainWindow (opts r)) (world (base s)) st Ht Htok) as Hx.
      rewrite E in Hx. by apply Hx. }
  intros x. eapply guards_bind; [apply guards_quiet; [str_quiet|]|intros ?; by apply guards_ret].
  intros s s' Hq [? Hc]. split; [by eapply stable_resting|]. intros st Ex.
  destruct (Hc st Ex). split; [done|]. by eapply stable_safe.
Qed.
#[local] Definition opened_at (x : Stream W + err) s : Prop :=
  match x with inl st => running st True s | inr _ => settled s end.
Lemma open_guards ctx : ordinary_cx ctx → guards D resting (open r ctx) opened_at.
Proof.
  intros Hctx. unfold open. eapply guards_bind; [by apply bLoadToken_guards|]. intros [[stored sct]|e]; cbv beta.
  2: { apply guards_ret. intros s [? _]. by apply resting_settled. }
  eapply guards_bind; [apply guards_here|]. intros btok. cbv beta.
  eapply (guards_bind _ _ _ _ (λ _ s, loaded (inl (stored, sct)) s ∧ baselineTok (local s) = btok)).
  { intros s. exists []. split; [symmetry; apply app_nil_r|]. by intros _ ?. }
  intros bct. set (pick := if String.eqb stored "" && _ then _ else _).
  assert (Hp : ∀ s, loaded (inl (stored, sct)) s ∧ baselineTok (local s) = btok →
    pick.1 ≠ ""%string ∧ resting s ∧ SafeAt (Tok pick.1) s).
  { intros s [[[(? & Hb & ? & ?) ?] [Ht Hj]] <-]. unfold pick.
    destruct (String.eqb_spec stored "") as [->|], (String.eqb_spec (baselineTok (local s)) "") as [E|]; simpl.
    - by destruct Hj.
    - split_and!; [done|by split|auto].
    - split_and!; [done|by split|auto].
    - split_and!; [done|by split|auto]. }
  destruct pick as [token ct]. cbn [fst] in Hp.
  eapply guards_bind.
  { eapply guards_pre; [apply (guards_keep (token ≠ ""%string)), (bWatch_guards ctx token)|].
    intros s (? & ? & ?)%Hp. by split_and!. }
  intros [st|e]; cbv beta; [|apply guards_ret; intros s (_ & ? & _); by apply resting_settled].
  eapply (guards_bind _ _ _ _ (λ _ s, token ≠ ""%string ∧ running st True s)).
  { apply guards_set. intros s s' (Hne & [(Hb & Ht & Hj & _) _] & Hc) Ew El. destruct (Hc st eq_refl).
    unfold StreamDelivery.running, StreamDelivery.rooted, SafeAt, situation, strst_situated in *.
    rewrite Ew, El. split_and!; try done. by intros st' [= <-]. }
  intros ?. destruct (String.eqb_spec token "") as [->|]; cbn [negb]; [|by apply guards_ret; intros s [_ ?]].
  apply guards_absurd; [|by intros s []].
  apply respects_bind; [apply _|apply (del_grows _ (λ _ _ _ _, True)); intros s; unfold checkpoint; by rdel_run|].
  intros [[b bc] srv]. destruct (String.eqb b ""); [apply quiet_grows; str_quiet|].
  apply respects_bind; [apply _|intros s; exists []; symmetry; apply app_nil_r|]. intros ?.
  apply respects_bind; [apply _|eapply guards_grows, (saveToken_guards ctx b bc st False)|].
  intros [e|]; [|apply quiet_grows; str_quiet]. apply respects_ret, _.
Qed.

Lemma str_RunOnce_guards wait ctx :
  (∀ c, harmless (wait c)) → hooks_ok (lane r) → ordinary_cx ctx →
  guards D settled (RunOnce r wait ctx) pass_post.
Proof.
  intros Hw Hok Hctx. unfold RunOnce.
  eapply guards_bind; [apply guards_quiet; [str_quiet|apply stable_settled]|].
  intros [leads|e]; [|apply guards_ret; intros s ?; by left].
  eapply guards_bind; [apply guards_quiet; [str_quiet|apply stable_settled]|]. intros ?.
  destruct leads; cbn [negb]; cycle 1.
  { eapply guards_bind; [eapply guards_pre; [apply closeStream_guards|by intros s []]|]. intros ?.
    eapply guards_bind; [apply guards_quiet; [unfold sleep; str_quiet|apply stable_settled]|]. intros ?.
    apply guards_ret. intros s ?. by left. }
  eapply guards_bind; [apply guards_here|]. intros cur. cbv beta.
  eapply (guards_bind _ _ _ _ opened_at).
  { destruct cur as [st|].
    - apply guards_ret. intros s [[? Hc] E]. split_and!; auto.
    - eapply guards_pre; [by apply open_guards|]. intros s [[? _] ?]. by split. }
  intros [st|e]; cbv beta; [|apply guards_ret; intros s ?; by left].
  apply guards_given with (C := valid st); [|intros s ((_ & _ & _ & Hv) & ? & _); by apply Hv|].
  - eapply del_grows. intros s. by apply drainWindow_spec.
  - intros Hv. by apply drainWindow_guards.
Qed.

Lemma str_runLoop_guards wait rounds ctx :
  (∀ c, harmless (wait c)) → hooks_ok (lane r) → ordinary_cx ctx →
  guards D settled (runLoop r wait rounds ctx) (λ _, rooted).
Proof.
  intros Hw Hok Hctx. induction rounds as [|n IH]; cbn [runLoop]; [apply guards_ret; by intros s []|].
  eapply guards_bind; [apply guards_quiet; [str_quiet|apply stable_settled]|]. intros dead.
  destruct (negb _).
  { eapply guards_bind; [apply guards_quiet; [str_quiet|apply stable_settled]|]. intros ?.
    apply guards_ret. by intros s []. }
  eapply guards_bind; [by apply str_RunOnce_guards|]. intros [er|].
  2: { eapply guards_pre; [exact IH|]. intros s [?|(_ & e & [=] & _)]. done. }
  assert (Hpr : ∀ s, pass_post (Some er) s → rooted s) by by intros s [[? _]|[? _]].
  destruct (Is (Some er) ErrLaneStopped) eqn:El.
  { eapply guards_pre with (P' := settled).
    - eapply guards_bind; [apply guards_quiet; [unfold sleep; str_quiet|apply stable_settled]|].
      intros ?. exact IH.
    - intros s [?|(_ & e & [= <-] & He)]; [done|]. unfold ordinary in He. simpl in El. congruence. }
  eapply guards_pre; [|exact Hpr]. destruct (_ || _).
  - eapply guards_bind; [apply guards_quiet; [str_quiet|eauto with safe]|]. intros ?.
    eapply guards_bind; [apply guards_quiet; [str_quiet|eauto with safe]|]. intros ?. by apply guards_ret.
  - eapply guards_bind; [apply guards_quiet; [str_quiet|eauto with safe]|]. intros d.
    eapply guards_bind; [apply guards_quiet; [str_quiet|eauto with safe]|]. intros ?.
    eapply guards_bind; [apply closeStream_guards|]. intros ?.
    eapply guards_bind; [apply guards_quiet; [unfold sleep; str_quiet|eauto with safe]|]. intros ?. exact IH.
Qed.
(** A run of the relay never gives up a claim on what it has saved. *)
Lemma str_Run_guards wait rounds ctx :
  (∀ c, harmless (wait c)) → hooks_ok (lane r) → ordinary_cx ctx →
  guards D settled (Run r wait rounds ctx) (λ _, rooted).
Proof.
  intros Hw Hok Hctx. unfold Run.
  eapply guards_bind; [apply guards_quiet; [str_quiet|apply stable_settled]|]. intros t0. cbv zeta.
  eapply guards_bind; [apply guards_quiet; [unfold ensureIndexes; str_quiet|apply stable_settled]|]. intros ?.
  eapply guards_bind; [by apply str_runLoop_guards|]. intros [c|]; [|by apply guards_ret].
  eapply guards_bind; [apply guards_quiet; [str_quiet|eauto with safe]|]. intros ?.
  eapply guards_bind; [apply closeStream_guards|]. intros ?. apply guards_ret. by intros s [].
Qed.
End guarded.
