(* ===== verification/Amqp.v ===== *)
(** * amqp091-go and amqpx, as far as the RabbitMQ transport uses them

    The client libraries are not in the repository: the class [Amqp] has their
    operations, and [attempts] what the code relies on of
    [amqpx.Client.Process]. The rest is the state of the transport's own code:
    the outside world, and the local part [loc] with the log of every call that
    left the transport, with its answer. *)
From S2P Require Import Prelude Errors GoLib Event Bound Relay.

(** ** Messages *)

(** [amqp.Table]; a nil table is an empty one to every reader. *)
#[global] Abbreviation Table := (gmap string goval).
Record Publishing := mkPublishing {
  PHeaders : Table; PType : string; PContentType : string; PContentEncoding : string;
  PDeliveryMode : Z; PBody : option string }.
Record Delivery := mkDelivery {
  DHeaders : Table; DType : string; DContentType : string; DContentEncoding : string;
  DDeliveryMode : Z; DBody : option string; DMessageId : string; DTag : Z }.
Record Return := mkReturn { ReplyCode : Z; ReplyText : string }.

(** A Go channel of returns: what is buffered, and whether it is closed. *)
Record retchan := mkRetchan { buffered : list Return; closed : bool }.
(** A receive with a default branch: [None] is the default, [ok] false the zero
    value of a closed channel. *)
Definition tryRecv (c : retchan) : option (Return * bool) * retchan :=
  match buffered c with
  | r :: b => (Some (r, true), mkRetchan b (closed c))
  | [] => (if closed c then Some (mkReturn 0 "", false) else None, c)
  end.

(** ** The client libraries *)

(** The arguments of the declarations that set up a topology. *)
Inductive declaration :=
| ExchangeDeclare (name kind : string)
| QueueDeclare (name : string) (args : Table)
| QueueBind (name key exchange : string).

Definition err_ErrPoolTimeout : sentinel := ErrOther "connpool.ErrPoolTimeout".

Class Amqp (W : Type) := {
  am_host :: Host W;
  (** [Client.Process]: runs a command on a channel of a pooled connection. *)
  Process {X : Type} : cx → (cx → nat → M (W * X) error) → M (W * X) error;
  (** [Channel.PublishWithDeferredConfirmWithContext]: the confirmation's tag. *)
  PublishDeferred : nat → cx → string → string → bool → Publishing → M W (res Z);
  PublishWithContext : nat → cx → string → string → Publishing → M W error;
  (** [DeferredConfirmation.WaitContext] *)
  WaitContext : nat → Z → cx → M W (res bool);
  (** The [select] on a running [Channel.Confirm]: its answer, or [None] when
      the context ended first. *)
  confirmOrDone : nat → cx → M W (option error);
  (** Whether a [Channel.Confirm] that was left running has ended by now. *)
  confirmEnded : nat → M W (option error);
  IsClosed : nat → M W bool;
  (** The channel [Channel.NotifyReturn] registered. *)
  NotifyReturn : nat → M W unit;
  returnsOf : nat → W → retchan;
  setReturns : nat → retchan → W → W;
  Declares : nat → declaration → M W error;
  (** [Delivery.Ack(false)], [Reject(requeue)] and [Nack(false, requeue)]. *)
  Ack : Z → M W error;
  Reject : Z → bool → M W error;
  Nack : Z → bool → M W error;
  (** [time.NewTimer] and the wait for it or for the context. *)
  sleep : Z → cx → M W unit;
  (** [Client.ConsumeWithDrain] on a queue, with a consumer tag and a prefetch. *)
  ConsumeWithDrain {X : Type} : cx → string → string → Z →
    (cx → nat → Delivery → M (W * X) error) → M (W * X) error }.

(** ** The log *)
Inductive aev `{UrlLib} :=
| AConfirmSelect (ch : nat)
| APublish (ch : nat) (exchange key : string) (mandatory : bool) (p : Publishing) (r : res Z)
| AConfirmed (ch : nat) (tag : Z) (r : res bool)
| ALocked (ch : nat) (left : list Return)    (* the returns a drain left behind *)
| AReturned (ch : nat) (seen : list Return)  (* the returns a look at the watch found *)
| APlain (ch : nat) (exchange key : string) (p : Publishing) (r : error)
| ADeclared (d : declaration) (r : error)
| AProcessed (md : Metadata) (data : option string) (r : error)
| AAck (tag : Z) (r : error)
| AReject (tag : Z) (requeue : bool) (r : error)
| ANack (tag : Z) (requeue : bool) (r : error)
| ACtxErr (ctx : cx) (r : error)
| ASleep (d : Z)
| AErrorf (what : string).

(** ** The transport's own state *)

(** [publish.channelState]; a wait channel is its number. *)
Record channelState := mkChannelState {
  inFlight : option nat; enabled : bool; cerr : error; returnsOnce : bool }.
Definition freshState : channelState := mkChannelState None false None false.

Record loc `{UrlLib} := mkLoc {
  alog : list aev;
  state : gmap nat channelState;    (* publish.Confirms *)
  chans : nat;                      (* wait channels made so far *)
  acked : Z }.                      (* the variable of publishPipelined *)
#[global] Arguments mkLoc {_} _ _ _ _.
Definition start `{UrlLib} : loc := mkLoc [] ∅ O 0.

Section state.
Context `{UrlLib} {W : Type} `{!Amqp W}.
#[local] Abbreviation S := (W * loc)%type.

Definition ext {A} (m : M W A) : M S A := zoom fst (λ w s, (w, s.2)) m.
Definition emit (e : aev) : M S unit :=
  modify (λ s, (s.1, mkLoc (alog s.2 ++ [e]) (state s.2) (chans s.2) (acked s.2))).
Definition set_state (f : gmap nat channelState → gmap nat channelState) : M S unit :=
  modify (λ s, (s.1, mkLoc (alog s.2) (f (state s.2)) (chans s.2) (acked s.2))).
Definition set_acked (n : Z) : M S unit :=
  modify (λ s, (s.1, mkLoc (alog s.2) (state s.2) (chans s.2) n)).
Definition makeChan : M S nat :=
  λ s, (chans s.2, (s.1, mkLoc (alog s.2) (state s.2) (Datatypes.S (chans s.2)) (acked s.2))).
(** A call whose answer goes to the log, and a context asked for its error. *)
Definition call {A} (m : M W A) (e : A → aev) : M S A :=
  a ← ext m; emit (e a) ;; mret a.
Definition ctxErr (ctx : cx) : M S error :=
  call (t ← now; mret (ErrAt ctx t)) (ACtxErr ctx).
End state.

(** The calls of the client library and of the processor, each logged as what it
    was. *)
Abbreviation doPublish ch ctx ex key mand p :=
  (call (PublishDeferred ch ctx ex key mand p) (APublish ch ex key mand p)).
Abbreviation doPublishPlain ch ctx ex key p :=
  (call (PublishWithContext ch ctx ex key p) (APlain ch ex key p)).
Abbreviation doWait ch tag ctx := (call (WaitContext ch tag ctx) (AConfirmed ch tag)).
Abbreviation doDeclare ch d := (call (Declares ch d) (ADeclared d)).
Abbreviation doAck tag := (call (Ack tag) (AAck tag)).
Abbreviation doReject tag requeue := (call (Reject tag requeue) (AReject tag requeue)).
Abbreviation doNack tag requeue := (call (Nack tag requeue) (ANack tag requeue)).
Abbreviation doProcess processor ctx md data := (call (processor ctx md data) (AProcessed md data)).

(** ** What Process does

    The command runs any number of times, each time on some channel, possibly
    of a fresh connection, with any time passing in between; a further run
    follows only a failed one. The result is nil exactly when the last run's
    is; with no run at the end it is an error. *)
Section process.
Context {W X : Type}.
Inductive attempts (cmd : cx → nat → M (W * X) error) : W * X → error → W * X → Prop :=
| attempts_refused w w' x e : attempts cmd (w, x) (Some e) (w', x)
| attempts_last w w1 w2 x x' c ch r r' :
    cmd c ch (w1, x) = (r, (w2, x')) → isNil r' = isNil r →
    attempts cmd (w, x) r' (w2, x')
| attempts_again w w1 x c ch e s r' s' :
    cmd c ch (w1, x) = (Some e, s) → attempts cmd s r' s' →
    attempts cmd (w, x) r' s'.

(** Deliveries are handed to the handler one at a time, each with a context and
    a channel and to completion, until the client stops; it stops after a
    handler's error. *)
Inductive consumed (handler : cx → nat → Delivery → M (W * X) error) :
    W * X → list (cx * nat * Delivery) → error → W * X → Prop :=
| consumed_end w w' x r : consumed handler (w, x) [] r (w', x)
| consumed_failed w w1 x c ch d e s r :
    handler c ch d (w1, x) = (Some e, s) → consumed handler (w, x) [(c, ch, d)] r s
| consumed_next w w1 x c ch d s ds r s' :
    handler c ch d (w1, x) = (None, s) → consumed handler s ds r s' →
    consumed handler (w, x) ((c, ch, d) :: ds) r s'.
End process.
(** [handed]: the deliveries a subscription hands over, in order. *)
Class AmqpLaws (W : Type) `{!Amqp W} := {
  handed {X : Type} : cx → string → string → Z → (cx → nat → Delivery → M (W * X) error) →
    W * X → list (cx * nat * Delivery);
  process_runs {X} ctx (cmd : cx → nat → M (W * X) error) s :
    attempts cmd s (Process ctx cmd s).1 (Process ctx cmd s).2;
  consume_runs {X} ctx q tag n (handler : cx → nat → Delivery → M (W * X) error) s :
    consumed handler s (handed ctx q tag n handler s) (ConsumeWithDrain ctx q tag n handler s).1
      (ConsumeWithDrain ctx q tag n handler s).2 }.

(** ** The log as a measure of a run *)
Section trace.
Context `{UrlLib} {W : Type} `{!Amqp W}.
#[local] Abbreviation S := (W * loc)%type.

(** [logs m s Q]: running [m] from [s] appends some entries to the log, and [Q]
    holds of the result, those entries, and the state it ends in. *)
Definition logs {A} (m : M S A) (s : S) (Q : A → list aev → S → Prop) : Prop :=
  ∃ k, alog (m s).2.2 = alog s.2 ++ k ∧ Q (m s).1 k (m s).2.

Lemma logs_ret {A} (a : A) s (Q : A → list aev → S → Prop) : Q a [] s → logs (mret a) s Q.
Proof. intros HQ. exists []. by rewrite app_nil_r. Qed.
Lemma logs_bind {A B} (m : M S A) (f : A → M S B) s Q :
  logs m s (λ a k s', logs (f a) s' (λ b k' s'', Q b (k ++ k') s'')) → logs (m ≫= f) s Q.
Proof.
  intros (l & Hl & k & Hk & HQ). exists (l ++ k). split; [|exact HQ].
  change ((m ≫= f) s) with (f (m s).1 (m s).2). by rewrite Hk, Hl, app_assoc.
Qed.
Lemma logs_mono {A} (m : M S A) s (P Q : A → list aev → S → Prop) :
  logs m s P → (∀ a k s', P a k s' → Q a k s') → logs m s Q.
Proof. intros (l & Hl & HP) HPQ. exists l. auto. Qed.
Lemma logs_ext {A} (m : M W A) s (Q : A → list aev → S → Prop) :
  (∀ a w, Q a [] (w, s.2)) → logs (ext m) s Q.
Proof. intros HQ. exists []. rewrite app_nil_r. split; [done|apply HQ]. Qed.
Lemma logs_ext_exact {A} (m : M W A) s (Q : A → list aev → S → Prop) :
  Q (m s.1).1 [] ((m s.1).2, s.2) → logs (ext m) s Q.
Proof. intros HQ. exists []. rewrite app_nil_r. by split. Qed.
Lemma logs_emit e s (Q : unit → list aev → S → Prop) :
  Q tt [e] (emit e s).2 → logs (emit e) s Q.
Proof. intros HQ. by exists [e]. Qed.
Lemma logs_call {A} (m : M W A) (e : A → aev) s (Q : A → list aev → S → Prop) :
  (∀ a w, Q a [e a] (w, mkLoc (alog s.2 ++ [e a]) (state s.2) (chans s.2) (acked s.2))) →
  logs (call m e) s Q.
Proof. intros HQ. exists [e (m s.1).1]. split; [done|apply HQ]. Qed.
Lemma logs_ctxErr ctx s (Q : error → list aev → S → Prop) :
  (∀ t w, Q (ErrAt ctx t) [ACtxErr ctx (ErrAt ctx t)]
     (w, mkLoc (alog s.2 ++ [ACtxErr ctx (ErrAt ctx t)]) (state s.2) (chans s.2) (acked s.2))) →
  logs (ctxErr ctx) s Q.
Proof.
  intros HQ. destruct s as [w l]. exists [ACtxErr ctx (ErrAt ctx (now w).1)]. split; [done|apply HQ].
Qed.

(** A command all of whose runs log [P]: either nothing ran and there is an
    error, or the log ends in the entries of the last run, and the result is
    nil exactly when that run's is. *)
Lemma attempts_logs cmd (P : error → list aev → S → Prop) s r s' :
  (∀ c ch s, logs (cmd c ch) s P) → attempts cmd s r s' →
  (s'.2 = s.2 ∧ isNil r = false) ∨
  ∃ k1 k2 r1 w, alog s'.2 = alog s.2 ++ k1 ++ k2 ∧ P r1 k2 (w, s'.2) ∧ isNil r = isNil r1.
Proof.
  intros Hcmd. induction 1 as [w w' x e|w w1 w2 x x' c ch r r' Hrun Hr|w w1 x c ch e s r' s' Hrun _ IH].
  - by left.
  - right. destruct (Hcmd c ch (w1, x)) as (k & Hk & HP). rewrite Hrun in Hk, HP.
    exists [], k, r, w2. by split_and!.
  - right. destruct (Hcmd c ch (w1, x)) as (k & Hk & HP). rewrite Hrun in Hk, HP. simpl in *.
    destruct IH as [[-> Hr]|(k1 & k2 & r1 & w2 & Hl & HP2 & Hr)].
    + exists [], k, (Some e), s.1. split_and!; [done|by destruct s|done].
    + exists (k ++ k1), k2, r1, w2. split_and!; try done. by rewrite Hl, Hk, !app_assoc.
Qed.
End trace.

Ltac logs_step :=
  lazymatch goal with
  | |- logs (mbind _ _) _ _ => apply logs_bind
  | |- logs (mret _) _ _ => apply logs_ret
  | |- logs (emit _) _ _ => apply logs_emit
  | |- logs (call _ _) _ _ => apply logs_call; intros ??
  | |- logs (ctxErr _) _ _ => apply logs_ctxErr; intros ??
  | |- logs (ext _) _ _ => apply logs_ext; intros ??
  end.
Tactic Notation "logs_use" uconstr(lem) := eapply logs_mono; [eapply lem|cbn beta].
