(* ===== verification/Publish.v ===== *)
(** * rabbitmq/internal/publish: publisher confirms, per channel

    The confirm-mode handshake and the watch for returned publishes. [Enable] is
    cut at its critical sections, [enter], [finish] and [leave]: the sequential
    reading of the function composes them, and so does the transition system of
    any number of callers, the goroutine of the handshake, and their contexts
    ([Handshake]). *)
From S2P Require Import Prelude Errors GoLib Event Bound Relay Amqp.

(** ** The critical sections of Enable *)
Inductive entry := Answered (r : error) | Started (wait : nat) | Joined_ (wait : nat).

(** Up to the first unlock; [w] is the channel [make] would return. *)
Definition enter (w : nat) (st : channelState) : entry * channelState :=
  if enabled st then (Answered None, st)
  else match cerr st with
  | Some e => (Answered (Some e), st)
  | None =>
      match inFlight st with
      | None => (Started w, mkChannelState (Some w) (enabled st) (cerr st) (returnsOnce st))
      | Some v => (Joined_ v, st)
      end
  end.
(** The goroutine, once [ch.Confirm] answered [r]. *)
Definition finish (r : error) (st : channelState) : channelState :=
  match r with
  | Some e => mkChannelState None (enabled st) (Some (wrapf "enable publisher confirms" e))
                (returnsOnce st)
  | None => mkChannelState None true (cerr st) (returnsOnce st)
  end.
(** After the wait. *)
Definition leave (st : channelState) : error :=
  match cerr st with
  | Some e => Some e
  | None =>
      if enabled st then None
      else Some (New "enable publisher confirms: handshake state was reset for this channel")
  end.

(** ** The sequential reading *)
Section confirms.
Context `{UrlLib} {W : Type} `{!Amqp W}.
#[local] Abbreviation S := (W * loc)%type.

Fixpoint evictClosed (chs : list nat) : M S unit :=
  match chs with
  | [] => skip
  | ch :: chs =>
      b ← ext (IsClosed ch);
      (if (b : bool) then set_state (delete ch) else skip) ;; evictClosed chs
  end.
Definition stateFor (ch : nat) : M S channelState :=
  m ← gets (λ s : S, state s.2);
  match (m : gmap nat channelState) !! ch with
  | Some st => mret st
  | None =>
      evictClosed (map_to_list (m : gmap nat channelState)).*1 ;;
      set_state <[ch := freshState]> ;;
      mret freshState
  end.
Definition update (ch : nat) (f : channelState → channelState) : M S unit :=
  set_state (alter f ch).

(** A handshake an earlier caller gave up on may have ended since. *)
Definition settle (ch : nat) (st : channelState) : M S channelState :=
  match inFlight st with
  | None => mret st
  | Some _ =>
      r ← ext (confirmEnded ch);
      match r with
      | Some r => update ch (finish r) ;; mret (finish r st)
      | None => mret st
      end
  end.

Definition Enable (ctx : cx) (ch : nat) : M S error :=
  st ← stateFor ch;
  st ← settle ch st;
  w ← makeChan;
  let '(how, st') := enter w st in
  update ch (λ _, st') ;;
  let wait :=
    o ← ext (confirmOrDone ch ctx);
    match o with
    | None => mret (Some (wrapf "enable publisher confirms" (cx_err ctx)))
    | Some r => update ch (finish r) ;; mret (leave (finish r st'))
    end in
  match how with
  | Answered r => mret r
  | Started _ => emit (AConfirmSelect ch) ;; wait
  | Joined_ _ => wait
  end.

(** ** The watch for returns *)
Definition Returns (ch : nat) : M S unit :=
  st ← stateFor ch;
  if returnsOnce (st : channelState) then skip
  else ext (NotifyReturn ch) ;;
       update ch (λ st, mkChannelState (inFlight st) (enabled st) (cerr st) true).

(** [drain] on a channel nobody writes to meanwhile; one round per receive. *)
Fixpoint drainLoop (rounds : nat) (c : retchan) : retchan :=
  match rounds with
  | O => c
  | Datatypes.S rounds =>
      match tryRecv c with
      | (Some (_, true), c) => drainLoop rounds c
      | (Some (_, false), c) | (None, c) => c
      end
  end.
Definition drain (c : retchan) : retchan := drainLoop (Datatypes.S (length (buffered c))) c.
Definition Lock (ch : nat) : M S unit :=
  c ← ext (λ w, let c := drain (returnsOf ch w) in (c, setReturns ch c w));
  emit (ALocked ch (buffered c)).

Definition Took (ch : nat) : M S (option Return) :=
  x ← ext (λ w, let seen := returnsOf ch w in
                let '(r, c) := tryRecv seen in ((buffered seen, r), setReturns ch c w));
  let '(seen, r) := x : list Return * option (Return * bool) in
  emit (AReturned ch seen) ;;
  match r with
  | Some (ret, true) => mret (Some ret)
  | _ => mret None
  end.

(** *** Lemmas *)
Lemma set_state_logs f s (Q : unit → list aev → S → Prop) :
  Q tt [] (set_state f s).2 → logs (set_state f) s Q.
Proof. intros HQ. exists []. by rewrite app_nil_r. Qed.
Lemma evictClosed_logs chs s (Q : unit → list aev → S → Prop) :
  (∀ s', acked s'.2 = acked s.2 → Q tt [] s') → logs (evictClosed chs) s Q.
Proof.
  revert s. induction chs as [|ch chs IH]; intros s HQ; simpl.
  - exists []. rewrite app_nil_r. split; [done|by apply HQ].
  - logs_step. logs_step. logs_step. destruct a.
    + apply set_state_logs, IH. intros s' Hs'. by apply HQ.
    + exists []. split; [by rewrite app_nil_r|]. apply IH. intros s' Hs'. by apply HQ.
Qed.
Lemma stateFor_logs ch s (Q : channelState → list aev → S → Prop) :
  (∀ st s', acked s'.2 = acked s.2 → Q st [] s') → logs (stateFor ch) s Q.
Proof.
  intros HQ. unfold stateFor. logs_step. exists []. split; [by rewrite app_nil_r|]. simpl.
  case_match; [by apply logs_ret, HQ|].
  logs_step. apply evictClosed_logs. intros s1 H1. logs_step. apply set_state_logs.
  apply logs_ret, HQ. by simpl.
Qed.
Lemma settle_logs ch st s (Q : channelState → list aev → S → Prop) :
  (∀ st s', acked s'.2 = acked s.2 → Q st [] s') → logs (settle ch st) s Q.
Proof.
  intros HQ. unfold settle. case_match; [|by apply logs_ret, HQ].
  logs_step. logs_step. destruct a; [|by apply logs_ret, HQ].
  logs_step. apply set_state_logs, logs_ret, HQ. done.
Qed.

(** Negotiating confirms publishes nothing. *)
Definition handshake_only (k : list aev) : Prop := ∀ e, e ∈ k → ∃ ch, e = AConfirmSelect ch.
Lemma Enable_logs ctx ch s (Q : error → list aev → S → Prop) :
  (∀ r k s', handshake_only k → acked s'.2 = acked s.2 → Q r k s') → logs (Enable ctx ch) s Q.
Proof.
  intros HQ. unfold Enable. logs_step. apply stateFor_logs. intros st0 s0 H0.
  logs_step. apply settle_logs. intros st s1 H1. logs_step.
  exists []. split; [by rewrite app_nil_r|]. destruct (enter _ st) as [how st'].
  logs_step. apply set_state_logs. simpl.
  assert (Hw : ∀ k s2, handshake_only k → acked s2.2 = acked s.2 →
    logs (o ← ext (confirmOrDone ch ctx);
          match o with
          | None => mret (Some (wrapf "enable publisher confirms" (cx_err ctx)))
          | Some r => update ch (finish r) ;; mret (leave (finish r st'))
          end) s2 (λ b k' s'', Q b (k ++ k') s'')).
  { intros k s2 Hk Ha. logs_step. logs_step. rewrite app_nil_l || idtac. destruct a.
    - logs_step. apply set_state_logs, logs_ret. rewrite !app_nil_r. by apply HQ.
    - apply logs_ret. rewrite app_nil_r. by apply HQ. }
  destruct how.
  - apply logs_ret, HQ; [by intros e ?%elem_of_nil|]. simpl. congruence.
  - logs_step. logs_step. apply Hw; [|simpl; congruence].
    intros e ->%list_elem_of_singleton. eauto.
  - apply (Hw []); [by intros e ?%elem_of_nil|]. simpl. congruence.
Qed.

Lemma Returns_logs ch s (Q : unit → list aev → S → Prop) :
  (∀ s', Q tt [] s') → logs (Returns ch) s Q.
Proof.
  intros HQ. unfold Returns. logs_step. apply stateFor_logs. intros st s1 _.
  destruct (returnsOnce st); [exists []; rewrite app_nil_r; by split|].
  logs_step. logs_step. apply set_state_logs. apply HQ.
Qed.
(** On a channel not used before, a wait the context cuts short fails. *)
Lemma stateFor_fresh ch s (Q : channelState → list aev → S → Prop) :
  state s.2 !! ch = None → (∀ s', Q freshState [] s') → logs (stateFor ch) s Q.
Proof.
  intros Hs HQ. unfold stateFor. logs_step. exists []. split; [by rewrite app_nil_r|]. simpl.
  rewrite Hs. logs_step. apply evictClosed_logs. intros s1 _. logs_step. apply set_state_logs.
  apply logs_ret, HQ.
Qed.
Lemma Enable_cold ctx ch s (Q : error → list aev → S → Prop) :
  state s.2 !! ch = None → (∀ w, (confirmOrDone ch ctx w).1 = None) →
  (∀ e k s', handshake_only k → Q (Some e) k s') → logs (Enable ctx ch) s Q.
Proof.
  intros Hs Hc HQ. unfold Enable. logs_step. apply stateFor_fresh; [done|]. intros s1.
  logs_step. apply logs_ret. logs_step. exists []. rewrite app_nil_r. split; [done|]. simpl.
  logs_step. apply set_state_logs. logs_step. logs_step. logs_step.
  exists []. rewrite app_nil_r. split; [done|]. unfold ext, zoom. simpl. rewrite Hc.
  apply logs_ret, HQ. intros e ->%list_elem_of_singleton. eauto.
Qed.
Lemma drainLoop_enough n c : (length (buffered c) < n)%nat → drainLoop n c = mkRetchan [] (closed c).
Proof.
  revert c. induction n as [|n IH]; intros [b cl] Hb; simpl in *; [lia|].
  unfold tryRecv. destruct b as [|r b]; simpl in *; [by destruct cl|].
  rewrite IH; [done|simpl; lia].
Qed.
(** The claim of the watch leaves no return behind, and a look at it answers
    what it found: none only when there was none. *)
Lemma Lock_logs ch s (Q : unit → list aev → S → Prop) :
  (∀ s', Q tt [ALocked ch []] s') → logs (Lock ch) s Q.
Proof.
  intros HQ. unfold Lock. logs_step. apply logs_ext_exact. cbn zeta. cbn [fst snd].
  unfold drain. rewrite drainLoop_enough by lia. simpl. logs_step. apply HQ.
Qed.
Lemma Took_logs ch s (Q : option Return → list aev → S → Prop) :
  (∀ s', Q None [AReturned ch []] s') → (∀ r rs s', Q (Some r) [AReturned ch (r :: rs)] s') →
  logs (Took ch) s Q.
Proof.
  intros HN HS. unfold Took. logs_step. apply logs_ext_exact. cbn zeta. unfold tryRecv.
  destruct (buffered (returnsOf ch s.1)) as [|r rs] eqn:E; cbn [fst snd]; rewrite ?E.
  - destruct (closed _); cbn [fst snd]; logs_step; logs_step; apply logs_ret, HN.
  - logs_step. logs_step. apply logs_ret, HS.
Qed.
End confirms.

(** ** The handshake among concurrent callers

    One open channel, from its first use on: [stateFor] evicts a channel's state
    only once the channel is closed and another channel is used for the first
    time, and that eviction is not a transition here (it is part of the
    sequential reading, [evictClosed]). Callers enter [Enable], wait, and leave; the goroutine of a
    started handshake gets its answer, runs its critical section, and closes the
    wait channel as a step of its own. [replies] are the answers the broker
    gave. *)
Module Handshake.

Inductive caller := Waiting (w : nat) | Done (r : error) | GaveUp.
Record hs := mkHs {
  st : channelState; made : nat;
  running : list nat;      (* goroutines in ch.Confirm *)
  closing : list nat;      (* goroutines about to close their channel *)
  shut : list nat;         (* closed wait channels *)
  replies : list error;
  callers : gmap nat caller }.
Definition init : hs := mkHs freshState 0 [] [] [] [] ∅.

Inductive step : hs → hs → Prop :=
| step_enter h c :
    callers h !! c = None →
    step h (let '(how, st') := enter (made h) (st h) in
            mkHs st' (match how with Started _ => S (made h) | _ => made h end)
              (match how with Started w => w :: running h | _ => running h end)
              (closing h) (shut h) (replies h)
              (<[c := match how with Answered r => Done r | Started w | Joined_ w => Waiting w end]>
                 (callers h)))
| step_reply h w r :
    w ∈ running h →
    step h (mkHs (finish r (st h)) (made h) (filter (λ v, v ≠ w) (running h)) (w :: closing h)
              (shut h) (replies h ++ [r]) (callers h))
| step_close h w :
    w ∈ closing h →
    step h (mkHs (st h) (made h) (running h) (filter (λ v, v ≠ w) (closing h)) (w :: shut h)
              (replies h) (callers h))
| step_wake h c w :
    callers h !! c = Some (Waiting w) → w ∈ shut h →
    step h (mkHs (st h) (made h) (running h) (closing h) (shut h) (replies h)
              (<[c := Done (leave (st h))]> (callers h)))
| step_expire h c w :
    callers h !! c = Some (Waiting w) →
    step h (mkHs (st h) (made h) (running h) (closing h) (shut h) (replies h)
              (<[c := GaveUp]> (callers h))).
Definition reachable : hs → Prop := rtc step init.

(** What a caller is told when the broker answered [r]. *)
Definition told (r : error) : error := wrapf "enable publisher confirms" <$> r.

(** The three phases a channel goes through. *)
Inductive phase (h : hs) : Prop :=
| phase_idle :
    st h = freshState → made h = 0%nat → running h = [] → closing h = [] → shut h = [] →
    replies h = [] → callers h = ∅ → phase h
| phase_running :
    st h = mkChannelState (Some 0%nat) false None false → made h = 1%nat → running h = [0%nat] →
    closing h = [] → shut h = [] → replies h = [] →
    map_Forall (λ _ k, k = Waiting 0 ∨ k = GaveUp) (callers h) → phase h
| phase_over r :
    st h = finish r freshState → made h = 1%nat → running h = [] →
    (closing h = [0%nat] ∧ shut h = [] ∨ closing h = [] ∧ shut h = [0%nat]) →
    replies h = [r] →
    map_Forall (λ _ k, k = Waiting 0 ∨ k = GaveUp ∨ k = Done (told r)) (callers h) → phase h.

Lemma step_phase h h' : step h h' → phase h → phase h'.
Proof.
  intros Hs Hp. destruct Hs as [h c Hc|h w r Hw|h w Hw|h c w Hc Hw|h c w Hc];
    destruct Hp as [Hst Hm Hr Hcl Hsh Hrep Hcal|Hst Hm Hr Hcl Hsh Hrep Hcal
                   |r0 Hst Hm Hr Hcl Hsh Hcal]; rewrite ?Hst, ?Hm, ?Hr, ?Hrep.
  - apply phase_running; simpl; auto. rewrite Hcal.
    apply map_Forall_insert_2; [by left|apply map_Forall_empty].
  - apply phase_running; simpl; auto. apply map_Forall_insert_2; [by left|done].
  - eapply phase_over with r0; destruct r0; simpl; auto;
      (apply map_Forall_insert_2; [right; by right|done]).
  - rewrite Hr in Hw. by apply elem_of_nil in Hw.
  - rewrite Hr in Hw. apply list_elem_of_singleton in Hw as ->.
    apply phase_over with r; simpl; rewrite ?Hcl, ?Hsh; auto.
    eapply map_Forall_impl; [done|]. simpl. intros ?? [?|?]; auto.
  - rewrite Hr in Hw. by apply elem_of_nil in Hw.
  - rewrite Hcl in Hw. by apply elem_of_nil in Hw.
  - rewrite Hcl in Hw. by apply elem_of_nil in Hw.
  - destruct Hcl as [[Hcl Hsh']|[Hcl _]]; rewrite Hcl in Hw; [|by apply elem_of_nil in Hw].
    apply list_elem_of_singleton in Hw as ->.
    apply phase_over with r0; simpl; rewrite ?Hcl, ?Hsh'; auto.
  - rewrite Hcal in Hc. by rewrite lookup_empty in Hc.
  - rewrite Hsh in Hw. by apply elem_of_nil in Hw.
  - apply phase_over with r0; simpl; auto. apply map_Forall_insert_2; [|done].
    right; right. by destruct r0.
  - rewrite Hcal in Hc. by rewrite lookup_empty in Hc.
  - apply phase_running; simpl; auto. apply map_Forall_insert_2; [by right|done].
  - apply phase_over with r0; simpl; auto. apply map_Forall_insert_2; [auto|done].
Qed.
Lemma reachable_phase h : reachable h → phase h.
Proof.
  unfold reachable. intros Hr. assert (phase init) as Hp by by apply phase_idle.
  revert Hp. generalize init Hr. clear Hr. intros h0. induction 1; [done|].
  intros. eauto using step_phase.
Qed.

(** C21: whatever the interleaving of callers, contexts and the broker's answer,
    at most one confirm.select is ever issued on a channel; a caller that does
    not give up is told exactly the broker's one answer (nil only when the
    broker accepted), and never that the state was reset; and callers blocked
    once the answer is in are answered as soon as they run. *)
Theorem handshake_once h :
  reachable h →
  (made h <= 1)%nat ∧ (length (replies h) <= made h)%nat ∧
  (∀ c r, callers h !! c = Some (Done r) → ∃ r0, replies h = [r0] ∧ r = told r0) ∧
  (∀ c w, callers h !! c = Some (Waiting w) → w ∈ shut h →
     ∃ r0, replies h = [r0] ∧ leave (st h) = told r0).
Proof.
  intros [Hst Hm Hr Hcl Hsh Hrep Hcal|Hst Hm Hr Hcl Hsh Hrep Hcal
         |r0 Hst Hm Hr Hcl Hrep Hcal]%reachable_phase; rewrite Hm, Hrep; simpl.
  - split_and!; try lia; rewrite Hcal; intros ??; by rewrite lookup_empty.
  - split_and!; try lia.
    + intros c r Hc. destruct (Hcal _ _ Hc); simplify_eq.
    + intros c w Hc. rewrite Hsh. by intros ?%elem_of_nil.
  - split_and!; try lia.
    + intros c r Hc. destruct (Hcal _ _ Hc) as [?|[?|?]]; simplify_eq. eauto.
    + intros c w Hc _. exists r0. split; [done|]. rewrite Hst. by destruct r0.
Qed.

(** Two callers share one handshake, which the broker refuses. *)
Definition refusal : err := New "confirm.select refused".
Definition demo : hs :=
  mkHs (finish (Some refusal) freshState) 1 [] [] [0%nat] [Some refusal]
    (<[0%nat := Done (told (Some refusal))]> {[0%nat := Waiting 0; 1%nat := Waiting 0]}).
Lemma demo_reachable : reachable demo.
Proof.
  unfold reachable.
  eapply rtc_l; [by apply (step_enter _ 1)|]. eapply rtc_l; [by apply (step_enter _ 0)|].
  eapply rtc_l; [apply (step_reply _ 0 (Some refusal)); by left|].
  eapply rtc_l; [apply (step_close _ 0); by left|].
  eapply rtc_l; [apply (step_wake _ 0 0); [done|by left]|]. apply rtc_refl.
Qed.
Lemma handshake_once_witness :
  reachable demo ∧ ∃ r0, replies demo = [r0] ∧ told (Some refusal) = told r0.
Proof.
  split; [exact demo_reachable|].
  exact (proj1 (proj2 (proj2 (handshake_once demo demo_reachable))) 0%nat _ eq_refl).
Defined.
End Handshake.
