(* ===== verification/RabbitSend.v ===== *)
(** * rabbitmq/sender.go: publishing, one event at a time and in batches

    A command run by [Process] may run again on a fresh connection, so the
    variables it assigns are part of the state ([acked] of [publishPipelined]). *)
From S2P Require Import Prelude Errors GoLib Event Bound Relay Lane Amqp Publish.

Definition DeliveryModeTransient : Z := 1.
Definition DeliveryModePersistent : Z := 2.
Definition ErrUnroutable : sentinel := ErrOther "rabbitmq.ErrUnroutable".

(** [rabbitmq.Marshaler], the publishing half. *)
Definition Marshal_ `{UrlLib} : Type := Metadata → option string → res Publishing.
Record senderOptions `{UrlLib} := mkSenderOptions {
  deliveryMode : Z; marshaler : Marshal_; useConfirms : bool; mandatory : bool }.
#[global] Arguments mkSenderOptions {_} _ _ _ _.
Definition defaultSenderOptions `{UrlLib} (messageMarshal : Marshal_) : senderOptions :=
  mkSenderOptions DeliveryModePersistent messageMarshal true false.
Definition WithTransientDeliveryMode `{UrlLib} (o : senderOptions) : senderOptions :=
  mkSenderOptions DeliveryModeTransient (marshaler o) (useConfirms o) (mandatory o).
Definition WithMessageMarshaler `{UrlLib} (m : Marshal_) (o : senderOptions) : senderOptions :=
  mkSenderOptions (deliveryMode o) m (useConfirms o) (mandatory o).
Definition WithoutPublisherConfirms `{UrlLib} (o : senderOptions) : senderOptions :=
  mkSenderOptions (deliveryMode o) (marshaler o) false (mandatory o).
Definition WithMandatoryPublish `{UrlLib} (o : senderOptions) : senderOptions :=
  mkSenderOptions (deliveryMode o) (marshaler o) (useConfirms o) true.
Definition NewSender `{UrlLib} (messageMarshal : Marshal_)
    (opts : list (senderOptions → senderOptions)) : senderOptions :=
  foldl (λ o opt, opt o) (defaultSenderOptions messageMarshal) opts.

Record preparedPublish := mkPrepared {
  exchange : string; routingKey : string; publishing : Publishing }.

Definition poolExhaustionHint (e : error) : error :=
  match e with
  | Some e' => if is_err e' err_ErrPoolTimeout
               then Some (wrapf "every connection in the amqpx pool is busy" e') else e
  | None => None
  end.

Section sender.
Context `{UrlLib} {W : Type} `{!Amqp W}.
#[local] Abbreviation S := (W * loc)%type.
Context (o : senderOptions).

Definition Setup (ctx : cx) (serviceName : string) : M S error :=
  if mandatory o && negb (useConfirms o)
  then mret (Some (New "rabbitmq: WithMandatoryPublish requires publisher confirms"))
  else
    e ← Process ctx (λ _ ch,
      r ← doDeclare ch (ExchangeDeclare serviceName "topic");
      mret (wrapf "declare exchange" <$> r));
    mret (poolExhaustionHint e).

Definition prepare (meta : Metadata) (data : option string) : res preparedPublish :=
  match marshaler o meta data with
  | inr e => inr (wrapf "marshal to rabbitmq message" e)
  | inl mess =>
      let mess := mkPublishing (PHeaders mess) (PType mess) (PContentType mess)
                    (PContentEncoding mess) (deliveryMode o) (PBody mess) in
      match SplitType (Type_ meta) with
      | inr e => inr e
      | inl (exchange, routingKey) => inl (mkPrepared exchange routingKey mess)
      end
  end.

(** The publish and the wait of one message, in the shape both paths log it. *)
Definition publishOne (ctx : cx) (ch : nat) (mand : bool) (p : preparedPublish) : M S (res Z) :=
  doPublish ch ctx (exchange p) (routingKey p) mand (publishing p).
Definition waitOne (ctx : cx) (ch : nat) (tag : Z) : M S (res bool) :=
  doWait ch tag ctx.
Definition notConfirmed : err :=
  New "publish was not confirmed by the broker (nacked, or the channel closed)".

(** The command of [Send]. *)
Definition sendOn (p : preparedPublish) (ctx : cx) (ch : nat) : M S error :=
  dead ← ctxErr ctx;
  match dead with
  | Some e => mret (Some e)
  | None =>
      if negb (useConfirms o) then
        r ← doPublishPlain ch ctx (exchange p) (routingKey p) (publishing p);
        mret (wrapf "publish to exchange" <$> r)
      else
        e ← Enable ctx ch;
        match e with
        | Some e => mret (Some e)
        | None =>
            (if mandatory o then Returns ch ;; Lock ch else skip) ;;
            conf ← publishOne ctx ch (mandatory o) p;
            match conf with
            | inr e => mret (Some (wrapf "publish to exchange" e))
            | inl tag =>
                ok ← waitOne ctx ch tag;
                match ok with
                | inr e => mret (Some (wrapf "await publisher confirm" e))
                | inl ok =>
                    ret ← (if mandatory o then Took ch else mret None);
                    match ret with
                    | Some _ => mret (Some (wrapf "returned" (Sentinel ErrUnroutable)))
                    | None => mret (if (ok : bool) then None else Some notConfirmed)
                    end
                end
            end
        end
  end.

Definition Send (ctx : cx) (meta : Metadata) (data : option string) : M S error :=
  match prepare meta data with
  | inr e => mret (Some e)
  | inl p => e ← Process ctx (sendOn p); mret (poolExhaustionHint e)
  end.

Fixpoint sendSerial (ctx : cx) (i : Z) (msgs : list (Metadata * option string)) :
    M S (Z * error) :=
  match msgs with
  | [] => mret (i, None)
  | (meta, data) :: msgs =>
      e ← Send ctx meta data;
      match e with
      | Some e => mret (i, Some e)
      | None => sendSerial ctx (i + 1) msgs
      end
  end.

(** The publish loop, stopping at the first failure, and the collect loop,
    stopping at the first message without a positive confirm. *)
Fixpoint publishAll (ctx : cx) (ch : nat) (ps : list preparedPublish) :
    M S (list (preparedPublish * Z) * error) :=
  match ps with
  | [] => mret ([], None)
  | p :: ps =>
      r ← publishOne ctx ch false p;
      match r with
      | inr e => mret ([], Some (wrapf "publish to exchange" e))
      | inl tag =>
          x ← publishAll ctx ch ps;
          let '(cs, e) := x : list (preparedPublish * Z) * error in mret ((p, tag) :: cs, e)
      end
  end.
Fixpoint collect (ctx : cx) (ch : nat) (i : Z) (cs : list (preparedPublish * Z)) : M S error :=
  match cs with
  | [] => mret None
  | (p, tag) :: cs =>
      ok ← waitOne ctx ch tag;
      match ok with
      | inr e => mret (Some (wrapf "await publisher confirm" e))
      | inl false => mret (Some notConfirmed)
      | inl true => set_acked (i + 1) ;; collect ctx ch (i + 1) cs
      end
  end.

(** The command of [publishPipelined]. *)
Definition pipelineOn (prepared : list preparedPublish) (ctx : cx) (ch : nat) : M S error :=
  set_acked 0 ;;
  dead ← ctxErr ctx;
  match dead with
  | Some e => mret (Some e)
  | None =>
      e ← Enable ctx ch;
      match e with
      | Some e => mret (Some e)
      | None =>
          x ← publishAll ctx ch prepared;
          let '(confirm, pubErr) := x : list (preparedPublish * Z) * error in
          ackErr ← collect ctx ch 0 confirm;
          match ackErr with
          | Some e => mret (Some e)
          | None => mret pubErr
          end
      end
  end.
Definition publishPipelined (ctx : cx) (prepared : list preparedPublish) : M S (Z * error) :=
  set_acked 0 ;;
  procErr ← Process ctx (pipelineOn prepared);
  n ← gets (λ s : S, acked s.2);
  mret (n, poolExhaustionHint procErr).

Fixpoint prepareAll (msgs : list (Metadata * option string)) : list preparedPublish * error :=
  match msgs with
  | [] => ([], None)
  | (meta, data) :: msgs =>
      match prepare meta data with
      | inr e => ([], Some e)
      | inl p => let '(ps, e) := prepareAll msgs in (p :: ps, e)
      end
  end.
Definition SendBatch (ctx : cx) (msgs : list (Metadata * option string)) : M S (Z * error) :=
  if zlen msgs =? 0 then mret (0, None)
  else if negb (useConfirms o) || mandatory o then sendSerial ctx 0 msgs
  else
    let '(prepared, prepErr) := prepareAll msgs in
    if zlen prepared =? 0 then mret (0, prepErr)
    else
      x ← publishPipelined ctx prepared;
      let '(sent, err) := x : Z * error in
      match err with
      | Some _ => mret (sent, err)
      | None => mret (sent, prepErr)
      end.
End sender.

(** ** What stands behind an acknowledged message *)
Section receipts.
Context `{UrlLib}.
Context (o : senderOptions).
Implicit Types (ct : nat * Z) (k : list aev).

(** A message went out on a channel, where its confirm has a tag: its publish,
    and the broker's positive answer to the wait for that tag. *)
Definition published (p : preparedPublish) ct : aev :=
  APublish ct.1 (exchange p) (routingKey p) (mandatory o) (publishing p) (inl ct.2).
Definition confirmedAt ct : aev := AConfirmed ct.1 ct.2 (inl true).
(** The receipt of one message: under mandatory publishing the watch for
    returns was claimed and drained before, and found empty after. *)
Definition receipt (p : preparedPublish) ct : list aev :=
  (if mandatory o then [ALocked ct.1 []] else []) ++ [published p ct; confirmedAt ct] ++
  (if mandatory o then [AReturned ct.1 []] else []).

(** The log has a receipt of each message: as many publishes and as many
    confirms, both in the order of the messages, and for each message its own
    confirm after its own publish. *)
Definition backed (ps : list preparedPublish) (cts : list (nat * Z)) k : Prop :=
  zip_with published ps cts `sublist_of` k ∧ (confirmedAt <$> cts) `sublist_of` k ∧
  Forall2 (λ p ct, receipt p ct `sublist_of` k) ps cts.

Lemma backed_nil k : backed [] [] k.
Proof. split_and!; [apply sublist_nil_l..|constructor]. Qed.
Lemma backed_mono ps cts k l : k `sublist_of` l → backed ps cts k → backed ps cts l.
Proof.
  intros Hkl (H1 & H2 & H3). split_and!; [by etrans..|].
  eapply Forall2_impl; [exact H3|]. intros p ct Hs. exact (transitivity Hs Hkl).
Qed.
Lemma receipt_pair p ct : [published p ct; confirmedAt ct] `sublist_of` receipt p ct.
Proof. unfold receipt. by apply sublist_inserts_l, sublist_inserts_r. Qed.
Lemma backed_cons p ct ps cts k0 k :
  backed ps cts k → backed (p :: ps) (ct :: cts) (k0 ++ receipt p ct ++ k).
Proof.
  intros (H1 & H2 & H3). pose proof (receipt_pair p ct) as Hr.
  assert (∀ e l, [e] `sublist_of` receipt p ct → l `sublist_of` k →
    (e :: l) `sublist_of` (k0 ++ receipt p ct ++ k)) as Hc.
  { intros e l He Hl. apply sublist_inserts_l. by apply (sublist_app [e]). }
  split_and!.
  - apply Hc; [|done]. etrans; [|exact Hr]. apply sublist_skip, sublist_nil_l.
  - apply Hc; [|done]. etrans; [|exact Hr]. by apply sublist_cons.
  - constructor; [by apply sublist_inserts_l, sublist_inserts_r|].
    eapply Forall2_impl; [exact H3|]. intros. by do 2 apply sublist_inserts_l.
Qed.
(** All published on one channel, then all confirmed. *)
Lemma backed_pipe ch ps tags k0 k1 k2 :
  mandatory o = false → length ps = length tags →
  backed ps (pair ch <$> tags)
    (k0 ++ zip_with published ps (pair ch <$> tags) ++ k1 ++ (confirmedAt <$> (pair ch <$> tags)) ++ k2).
Proof.
  intros Hm Hlen. set (cts := pair ch <$> tags).
  assert (length ps = length cts) as Hlen' by (unfold cts; by rewrite length_fmap).
  assert (∀ l1 l2, l1 `sublist_of` zip_with published ps cts → l2 `sublist_of` (confirmedAt <$> cts) →
    (l1 ++ l2) `sublist_of`
      (k0 ++ zip_with published ps cts ++ k1 ++ (confirmedAt <$> cts) ++ k2)) as Hsub.
  { intros l1 l2 H1 H2. apply sublist_inserts_l, sublist_app; [done|].
    by apply sublist_inserts_l, sublist_inserts_r. }
  split_and!.
  - rewrite <-(app_nil_r (zip_with _ _ _)) at 1. apply Hsub; [done|apply sublist_nil_l].
  - apply (Hsub []); [apply sublist_nil_l|done].
  - apply Forall2_same_length_lookup_2; [done|]. intros i p ct Hp Hct.
    unfold receipt. rewrite Hm. apply (Hsub [_] [_]); apply singleton_sublist_l.
    + apply list_elem_of_lookup. exists i. by rewrite lookup_zip_with, Hp, Hct.
    + apply list_elem_of_fmap. exists ct. split; [done|]. by apply list_elem_of_lookup_2 with i.
Qed.
End receipts.

Section facts.
Context `{UrlLib} {W : Type} `{!Amqp W}.
#[local] Abbreviation S := (W * loc)%type.
Context (o : senderOptions).
Implicit Types (s : S).

Lemma set_acked_logs n s (Q : unit → list aev → S → Prop) :
  Q tt [] (set_acked n s).2 → logs (set_acked n) s Q.
Proof. intros HQ. exists []. by rewrite app_nil_r. Qed.

(** The publish loop logs the publish of every message it returns a tag for. *)
Lemma publishAll_logs ctx ch ps s :
  mandatory o = false →
  logs (publishAll ctx ch ps) s (λ x k s',
    (∃ rest, ps = x.1.*1 ++ rest ∧ (x.2 = None ↔ rest = [])) ∧
    (∃ k1, k = ((λ c, published o c.1 (ch, c.2)) <$> x.1) ++ k1) ∧ acked s'.2 = acked s.2).
Proof.
  intros Hm. revert s. induction ps as [|p ps IH]; intros s; simpl.
  { apply logs_ret. split_and!; try done; by exists []. }
  logs_step. unfold publishOne. logs_step. simpl. destruct a as [tag|e].
  - logs_step. logs_use IH. intros [cs e] k s' ((rest & -> & Hr) & (k1 & ->) & Ha). simpl in *.
    apply logs_ret. simpl. rewrite app_nil_r. split_and!; [by exists rest| |done].
    exists k1. unfold published. simpl. by rewrite Hm.
  - apply logs_ret. simpl. split_and!; [by exists (p :: ps)|by eexists|done].
Qed.

(** The collect loop counts the positive confirms from the front. *)
Lemma collect_logs ctx ch i cs s :
  acked s.2 = i →
  logs (collect ctx ch i cs) s (λ r k s', ∃ done rest,
    cs = done ++ rest ∧ (r = None ↔ rest = []) ∧
    (∃ k1, k = ((λ c, confirmedAt (ch, c.2)) <$> done) ++ k1) ∧ acked s'.2 = i + zlen done).
Proof.
  revert i s. induction cs as [|[p tag] cs IH]; intros i s Hi; simpl.
  { apply logs_ret. exists [], []. rewrite zlen_nil. split_and!; try done; [by exists []|lia]. }
  logs_step. unfold waitOne. logs_step. simpl. destruct a as [[]|e].
  - logs_step. apply set_acked_logs. logs_use IH; [done|].
    intros r k s' (d & rest & -> & Hr & (k1 & ->) & Ha). exists ((p, tag) :: d), rest. rewrite zlen_cons.
    split_and!; [done|done|by exists k1|lia].
  - apply logs_ret. exists [], ((p, tag) :: cs). rewrite zlen_nil. split_and!; try done; [by eexists|simpl; lia].
  - apply logs_ret. exists [], ((p, tag) :: cs). rewrite zlen_nil. split_and!; try done; [by eexists|simpl; lia].
Qed.

(** One run of the pipelined command leaves a receipt for each message of the
    prefix it counts, and reports an error exactly when something is left. *)
Definition piped (ps : list preparedPublish) (r : error) (k : list aev) (s' : S) : Prop :=
  ∃ done rest cts, ps = done ++ rest ∧ (r = None ↔ rest = []) ∧ backed o done cts k ∧
    acked s'.2 = zlen done.
Lemma piped_none ps e k s' : ps ≠ [] → acked s'.2 = 0 → piped ps (Some e) k s'.
Proof. intros Hps Ha. exists [], ps, []. rewrite zlen_nil. split_and!; try done. apply backed_nil. Qed.
Lemma piped_of ch k (sent rest : list (preparedPublish * Z)) k1 k2 :
  mandatory o = false →
  backed o sent.*1 (pair ch <$> sent.*2)
    (k ++ ((λ c, published o c.1 (ch, c.2)) <$> sent ++ rest) ++ k1 ++
     ((λ c, confirmedAt (ch, c.2)) <$> sent) ++ k2).
Proof.
  intros Hm.
  assert (E1 : ((λ c, published o c.1 (ch, c.2)) <$> sent) =
          zip_with (published o) sent.*1 (pair ch <$> sent.*2)).
  { induction sent as [|[p t] l IH]; [done|]. simpl. by f_equal. }
  assert (E2 : ((λ c, confirmedAt (ch, c.2)) <$> sent) = confirmedAt <$> (pair ch <$> sent.*2)).
  { clear E1. induction sent as [|[p t] l IH]; [done|]. simpl. by f_equal. }
  rewrite fmap_app, E1, E2, <-app_assoc, (app_assoc _ k1).
  apply backed_pipe; [done|by rewrite !length_fmap].
Qed.
Lemma pipelineOn_logs ps ctx ch s :
  mandatory o = false → ps ≠ [] → logs (pipelineOn ps ctx ch) s (piped ps).
Proof.
  intros Hm Hps. unfold pipelineOn. logs_step. apply set_acked_logs. simpl.
  logs_step. logs_step. simpl.
  destruct (ErrAt ctx t) as [e|]; [by apply logs_ret, piped_none|].
  logs_step. apply Enable_logs. intros r k s1 _ Ha1. simpl in Ha1.
  destruct r as [e|]; [by apply logs_ret, piped_none|].
  logs_step. logs_use publishAll_logs; [done|]. intros [cs pe] k2 s2 ((rest & Hcs & Hr) & (k3 & ->) & Ha2).
  simpl in *. logs_step. logs_use (collect_logs ctx ch 0); [congruence|].
  intros r3 k4 s3 (d & rest3 & -> & Hr3 & (k5 & ->) & Ha3).
  pose proof (piped_of ch (ACtxErr ctx None :: k) d rest3 k3 (k5 ++ []) Hm) as Hb.
  assert (Hz : acked s3.2 = zlen d.*1) by (rewrite Ha3; unfold zlen; by rewrite length_fmap).
  rewrite fmap_app, <-app_assoc in Hcs.
  destruct r3 as [e|]; apply logs_ret; exists d.*1, (rest3.*1 ++ rest), (pair ch <$> d.*2);
    (split_and!; [done| |by rewrite <-!app_assoc; rewrite <-?app_assoc in Hb|done]).
  - split; [done|]. intros [->%fmap_nil_inv _]%app_nil. by apply Hr3.
  - rewrite (proj1 Hr3 eq_refl). exact Hr.
Qed.

Lemma poolExhaustionHint_nil e : isNil (poolExhaustionHint e) = isNil e.
Proof. destruct e; simpl; [by case_match|done]. Qed.

(** What a run of the command of [Send] that reports success leaves at the end
    of the log: the receipt of the message. *)
Definition confirmed (p : preparedPublish) (r : error) (k : list aev) : Prop :=
  r = None → ∃ k0 ct, k = k0 ++ receipt o p ct.
Lemma sendOn_logs p ctx ch s :
  useConfirms o = true → logs (sendOn o p ctx ch) s (λ r k _, confirmed p r k).
Proof.
  intros Hc. unfold sendOn. logs_step. logs_step. destruct (ErrAt ctx t); [by apply logs_ret|].
  rewrite Hc. simpl. logs_step. apply Enable_logs. intros r k s1 _ _.
  destruct r; [by apply logs_ret|]. logs_step.
  assert (Hw : ∀ s2, logs (if mandatory o then Returns ch ;; Lock ch else skip) s2
                       (λ _ k' _, k' = if mandatory o then [ALocked ch []] else [])).
  { intros s2. destruct (mandatory o); [|exists []; by rewrite app_nil_r].
    logs_step. apply Returns_logs. intros s3. by apply Lock_logs. }
  logs_use Hw. intros _ k' s2 Hk'. logs_step. unfold publishOne. logs_step. simpl.
  destruct a as [tag|e]; [|by apply logs_ret].
  logs_step. unfold waitOne. logs_step. simpl. destruct a as [ok|e]; [|by apply logs_ret].
  logs_step.
  assert (Ht : ∀ s3, logs (if mandatory o then Took ch else mret None) s3
     (λ r k' _, r = None → k' = if mandatory o then [AReturned ch []] else [])).
  { intros s3. destruct (mandatory o); [|by apply logs_ret]. by apply Took_logs. }
  logs_use Ht. intros ret k3 s3 Hk3. destruct ret; [by apply logs_ret|]. rewrite Hk3 by done.
  destruct ok; apply logs_ret; [|done]. intros _. exists (ACtxErr ctx None :: k), (ch, tag).
  rewrite Hk', app_nil_r. unfold receipt. simpl. done.
Qed.

Context `{!AmqpLaws W}.
Lemma Send_logs ctx meta data s :
  useConfirms o = true →
  logs (Send o ctx meta data) s (λ r k _,
    r = None → ∃ p, prepare o meta data = inl p ∧ confirmed p None k).
Proof.
  intros Hc. unfold Send. destruct (prepare o meta data) as [p|e]; [|by apply logs_ret].
  destruct (attempts_logs (sendOn o p) (λ r k _, confirmed p r k) _ _ _
    (λ c ch s, sendOn_logs p c ch s Hc) (process_runs ctx (sendOn o p) s))
    as [[Hs Hr]|(k1 & k2 & r1 & w & Hl & HP & Hr)].
  - exists []. rewrite run_bind, app_nil_r. simpl. split; [by rewrite Hs|]. intros Hn.
    by rewrite <-poolExhaustionHint_nil, Hn in Hr.
  - exists (k1 ++ k2). rewrite run_bind. simpl. split; [done|]. intros Hn.
    rewrite <-poolExhaustionHint_nil, Hn in Hr. destruct r1; [done|].
    exists p. split; [done|]. intros _. destruct (HP eq_refl) as (k0 & ct & ->).
    exists (k1 ++ k0), ct. by rewrite app_assoc.
Qed.

(** What is published for a message: as it marshals, in the delivery mode of the
    options, on the exchange and routing key its type splits into. *)
Definition addressed (m : Metadata * option string) (p : preparedPublish) : Prop :=
  ∃ mess, marshaler o m.1 m.2 = inl mess ∧ SplitType (Type_ m.1) = inl (exchange p, routingKey p) ∧
    publishing p = mkPublishing (PHeaders mess) (PType mess) (PContentType mess)
                     (PContentEncoding mess) (deliveryMode o) (PBody mess).
Lemma prepare_addressed meta data p : prepare o meta data = inl p → addressed (meta, data) p.
Proof.
  unfold prepare, addressed. simpl. destruct (marshaler o meta data) as [mess|]; [|done].
  destruct (SplitType (Type_ meta)) as [[ex key]|]; [|done]. intros [= <-]. by exists mess.
Qed.

(** With publisher confirms, [Send] reports success only when its last
    attempt published the marshaled event on the exchange and routing key its
    type splits into, and the broker's positive confirm of that publish was the
    last thing that happened, save for the look at the returns under mandatory
    publishing, which found none after an earlier one had been drained. *)
Theorem Send_confirmed ctx meta data s :
  useConfirms o = true → (Send o ctx meta data s).1 = None →
  ∃ p k ct, addressed (meta, data) p ∧
    alog (Send o ctx meta data s).2.2 = alog s.2 ++ k ++ receipt o p ct.
Proof.
  intros Hc Hn. destruct (Send_logs ctx meta data s Hc) as (k & Hk & HP).
  destruct (HP Hn) as (p & Hp & Hk0). destruct (Hk0 eq_refl) as (k0 & ct & ->).
  exists p, k0, ct. split; [by apply prepare_addressed|done].
Qed.

(** The answer the interface [eventbus.BatchSender] promises, and what stands
    behind its count. *)
Definition answered (msgs : list (Metadata * option string)) (x : Z * error) (k : list aev) : Prop :=
  ∃ sent rest ps cts, msgs = sent ++ rest ∧ x.1 = zlen sent ∧ (x.2 = None ↔ rest = []) ∧
    Forall2 addressed sent ps ∧ backed o ps cts k.

Lemma sendSerial_logs ctx i msgs s :
  useConfirms o = true →
  logs (sendSerial o ctx i msgs) s (λ x k _, answered msgs (x.1 - i, x.2) k).
Proof.
  intros Hc. revert i s. induction msgs as [|[meta data] msgs IH]; intros i s; simpl.
  { apply logs_ret. exists [], [], [], []. rewrite zlen_nil. simpl. split_and!; try done; try lia; apply backed_nil. }
  logs_step. logs_use (Send_logs ctx meta data); [done|]. intros r k s1 Hr. destruct r as [e|].
  - apply logs_ret. exists [], ((meta, data) :: msgs), [], []. rewrite zlen_nil.
    split_and!; try done; [simpl; lia|]. apply backed_nil.
  - destruct (Hr eq_refl) as (p & Hp & Hk). destruct (Hk eq_refl) as (k0 & ct & ->).
    logs_use IH. intros x k' s2 (sent & rest & ps & cts & -> & Hx & Hn & Hps & Hsub).
    exists ((meta, data) :: sent), rest, (p :: ps), (ct :: cts). rewrite zlen_cons. simpl in *.
    split_and!; [done|lia|done|constructor; [by apply prepare_addressed|done]|].
    rewrite <-app_assoc. by apply backed_cons.
Qed.

Lemma prepareAll_spec msgs :
  ∃ good rest, msgs = good ++ rest ∧
    Forall2 addressed good (prepareAll o msgs).1 ∧
    ((prepareAll o msgs).2 = None ↔ rest = []).
Proof.
  induction msgs as [|[meta data] msgs (good & rest & -> & Hg & Hn)]; simpl.
  { exists [], []. by split_and!. }
  destruct (prepare o meta data) as [p|e] eqn:Hp; simpl.
  - destruct (prepareAll o (good ++ rest)) as [ps e] eqn:He. simpl in *.
    exists ((meta, data) :: good), rest. split_and!; [done|constructor; [by apply prepare_addressed|done]|done].
  - exists [], ((meta, data) :: good ++ rest). by split_and!.
Qed.

Lemma publishPipelined_logs ctx ps s :
  mandatory o = false → ps ≠ [] →
  logs (publishPipelined ctx ps) s (λ x k _, ∃ done rest cts,
    ps = done ++ rest ∧ (x.2 = None ↔ rest = []) ∧ x.1 = zlen done ∧ backed o done cts k).
Proof.
  intros Hm Hps. unfold publishPipelined. logs_step. apply set_acked_logs.
  set (s1 := (set_acked 0 s).2).
  destruct (attempts_logs (pipelineOn ps) (piped ps) _ _ _
    (λ c ch s, pipelineOn_logs ps c ch s Hm Hps) (process_runs ctx (pipelineOn ps) s1))
    as [[Hs Hr]|(k1 & k2 & r1 & w & Hl & (d & rest & cts & Hd & Hn & Hk & Ha) & Hr)];
    rewrite <-poolExhaustionHint_nil in Hr.
  - exists []. rewrite run_bind, app_nil_r. simpl. split; [by rewrite Hs|].
    exists [], ps, []. rewrite Hs. split_and!; try done. split; [|done].
    intros Hp. by rewrite Hp in Hr.
  - exists (k1 ++ k2). rewrite run_bind. simpl. split; [by rewrite Hl|]. exists d, rest, cts. split_and!; try done.
    + rewrite <-Hn. destruct (poolExhaustionHint _), r1; naive_solver.
    + eapply backed_mono; [|exact Hk]. by apply sublist_inserts_l.
Qed.

(** C17: with publisher confirms, [SendBatch] keeps the contract of
    eventbus.BatchSender, whatever the broker, the connection pool and the
    retries do: the count is that of a prefix of the batch, the error is nil
    exactly when the prefix is the whole batch, and every message of the prefix
    has its receipt. As many publishes and as many positive confirms as messages
    are in the log, in the order of the prefix; each message, as marshaled, went
    out on the exchange and routing key its type splits into, and the broker
    then confirmed that very publish, on the channel and under the tag it had;
    under mandatory publishing no return came between the two. *)
Theorem SendBatch_contract ctx msgs s :
  useConfirms o = true →
  ∃ k, alog (SendBatch o ctx msgs s).2.2 = alog s.2 ++ k ∧
       answered msgs (SendBatch o ctx msgs s).1 k.
Proof.
  intros Hc. change (logs (SendBatch o ctx msgs) s (λ x k _, answered msgs x k)).
  unfold SendBatch. destruct (Z.eqb_spec (zlen msgs) 0) as [->%zlen_zero|Hne].
  { apply logs_ret. exists [], [], [], []. split_and!; try done. }
  rewrite Hc. simpl. destruct (mandatory o) eqn:Hm.
  { logs_use (sendSerial_logs ctx 0); [done|]. intros [n e] k s'. simpl. by rewrite Z.sub_0_r. }
  destruct (prepareAll_spec msgs) as (good & rest & Hgood & Hg & Hn).
  destruct (prepareAll o msgs) as [ps pe]. simpl in *.
  destruct (Z.eqb_spec (zlen ps) 0) as [->%zlen_zero|Hps].
  { apply logs_ret. apply Forall2_nil_inv_r in Hg as ->. exists [], rest, [], [].
    by split_and!. }
  logs_step. logs_use publishPipelined_logs; [done|by intros ->|].
  intros [n e] k s1 (d & r & cts & -> & Hr & Hx & Hsub). simpl in *.
  apply Forall2_app_inv_r in Hg as (sent & g2 & Hs & Hg2 & ->).
  assert (Hlen : n = zlen sent) by (rewrite Hx; unfold zlen; by rewrite (Forall2_length _ _ _ Hs)).
  destruct e as [e|]; apply logs_ret; rewrite app_nil_r;
    exists sent, (g2 ++ rest), d, cts; split_and!; try done; try by rewrite Hgood, app_assoc.
  - split; [done|]. intros [-> _]%app_nil. apply Forall2_nil_inv_l in Hg2 as ->.
    by destruct (proj2 Hr eq_refl).
  - rewrite (proj1 Hr eq_refl) in Hg2. apply Forall2_nil_inv_r in Hg2 as ->. simpl. by rewrite Hn.
Qed.
End facts.
