(* ===== verification/Consume.v ===== *)
(** * The RabbitMQ receivers

    internal/consume/consume.go (the per-delivery handler), receiver.go (the plain
    receiver and its acknowledge policy) and parkinglot/receiver.go (the
    parking-lot receiver). The subscriber's processor and the unmarshaler are
    arguments. *)
From S2P Require Import Prelude Errors GoLib Event Bound Relay Amqp Publish.
From Stdlib Require Import SpecFloat.

Definition DLXSuffix : string := ".dlx".
Definition preconditionFailedCode : Z := 406.
Definition asAmqp (e : err) : option Z :=
  match e with Typed (TAmqp code _) _ => Some code | _ => None end.
Definition DLXConflictError (e : err) : err :=
  match As asAmqp (Some e) with
  | Some code =>
      if code =? preconditionFailedCode
      then wrapf "declare exchange: it already exists with a different type" e
      else wrapf "declare exchange" e
  | None => wrapf "declare exchange" e
  end.
Definition DefaultPrefetchCount : Z := 16.

Definition HeaderString (v : option goval) : string * bool :=
  match v with
  | Some (GString s) | Some (GBytes s) => (s, true)
  | _ => (""%string, false)
  end.

Section consume.
Context `{UrlLib} {W : Type} `{!Amqp W}.
#[local] Abbreviation S := (W * loc)%type.

(** [eventbus.Processor] and the reading half of [rabbitmq.Marshaler]. *)
Definition Processor : Type := cx → Metadata → option string → M W error.
Definition Unmarshal_ : Type := Delivery → res (Metadata * option string).
(** An acknowledge policy. *)
Definition AckPolicy : Type := cx → nat → Delivery → error → M S error.

Record Spec := mkSpec {
  Queue : string; ConsumerTag : string; Prefetch : Z; SMarshaler : Unmarshal_; SLogger : bool }.

Definition checkPrefetch (configured : Z) : error :=
  if 0 <? configured then None else Some (New "WithPrefetchCount must be > 0").

Definition Requeue (d : Delivery) : M S unit :=
  doNack (DTag d) true ;; skip.

Definition processDelivery (ctx : cx) (spec : Spec) (d : Delivery) (processor : Processor) :
    M S error :=
  match SMarshaler spec d with
  | inl (md, data) => doProcess processor ctx md data
  | inr e =>
      (if SLogger spec then emit (AErrorf "unmarshaling event") else skip) ;;
      mret (Some (NewUnprocessableEventError e))
  end.

(** The handler [Run] gives to [ConsumeWithDrain]. *)
Definition handle (shutdownCtx : cx) (spec : Spec) (processor : Processor) (ack : AckPolicy)
    (groupCtx : cx) (ch : nat) (d : Delivery) : M S error :=
  dErr ← processDelivery groupCtx spec d processor;
  stopping ← ctxErr groupCtx;
  if negb (isNil stopping) then Requeue d ;; mret None
  else
    ackErr ← ack shutdownCtx ch d dErr;
    match ackErr with
    | Some e => Requeue d ;; mret (Some e)
    | None => mret None
    end.
Definition Run (shutdownCtx : cx) (spec : Spec) (processor : Processor) (ack : AckPolicy) :
    M S error :=
  match checkPrefetch (Prefetch spec) with
  | Some e => mret (Some e)
  | None => ConsumeWithDrain shutdownCtx (Queue spec) (ConsumerTag spec) (Prefetch spec)
              (handle shutdownCtx spec processor ack)
  end.

(** Declarations in sequence, up to the first that fails; each with the error
    it is reported as. *)
Fixpoint declareAll (ch : nat) (ds : list (declaration * (err → err))) : M S error :=
  match ds with
  | [] => mret None
  | (d, wrap) :: ds =>
      r ← doDeclare ch d;
      match r with
      | Some e => mret (Some (wrap e))
      | None => declareAll ch ds
      end
  end.
End consume.

(** eventbus.ServiceInfo *)
Definition ServiceInfo : Type := string * list string.
Definition bindings (queue : string) (infos : list ServiceInfo) : list (declaration * (err → err)) :=
  infos ≫= λ info, (λ ev, (QueueBind queue ev info.1, wrapf "bind queue")) <$> info.2.

(** ** receiver.go *)
Module Plain.
Record receiverOptions := mkOptions {
  incomingQueue : string; prefetchCount : Z; consumerTag : string;
  setupTopologyOn : bool; enableDLX : bool; requeueOnError : bool;
  requeueBackoffBase : Z; requeueBackoffMax : Z }.
Definition defaultRequeueBackoffBase : Z := 200000000.
Definition defaultRequeueBackoffMax : Z := 5 * Second.
Definition defaultReceiverOptions : receiverOptions :=
  mkOptions "" DefaultPrefetchCount "" false false true
    defaultRequeueBackoffBase defaultRequeueBackoffMax.
Definition deliveryCountHeader : string := "x-delivery-count".

Definition deliveryCount (d : Delivery) : Z :=
  let clamp := 64 in
  let norm n := if n <? 0 then 0 else if clamp <? n then clamp else n in
  match DHeaders d !! deliveryCountHeader with
  | Some (GInt n) | Some (GInt8 n) | Some (GInt16 n) | Some (GInt32 n) | Some (GInt64 n)
  | Some (GUint8 n) | Some (GUint16 n) | Some (GUint32 n) => norm n
  | Some (GUint64 v) => if clamp <? v then clamp else norm v
  | _ => 0
  end.

(** The loop of [requeueDelay]: [inr] is its early return. *)
Fixpoint delayLoop (n : nat) (delay max : Z) : Z + Z :=
  match n with
  | O => inl delay
  | S n => if max <=? delay then inr max else delayLoop n (wrap64 (delay * 2)) max
  end.
Definition requeueDelay (d : Delivery) (base max : Z) : Z :=
  if base <=? 0 then 0
  else
    let n := deliveryCount d in
    let n := if n <? 0 then 0 else n in
    match delayLoop (Z.to_nat n) base max with
    | inr m => m
    | inl delay => if (0 <? max) && (max <? delay) then max else delay
    end.

Section receiver.
Context `{UrlLib} {W : Type} `{!Amqp W}.
#[local] Abbreviation S := (W * loc)%type.

Definition doAcknowledge (o : receiverOptions) (ctx : cx) (_ : nat) (d : Delivery) (e : error) :
    M S error :=
  match e with
  | None =>
      r ← doAck (DTag d); mret (wrapf "ack delivery" <$> r)
  | Some e =>
      if IsUnprocessableEventError (Some e) then
        r ← doReject (DTag d) false;
        mret (wrapf "reject delivery" <$> r)
      else
        (if requeueOnError o then
           let w := requeueDelay d (requeueBackoffBase o) (requeueBackoffMax o) in
           if 0 <? w then ext (sleep w ctx) ;; emit (ASleep w) else skip
         else skip) ;;
        r ← doReject (DTag d) (requeueOnError o);
        mret (wrapf "reject delivery" <$> r)
  end.

Definition topology (o : receiverOptions) (infos : list ServiceInfo) :
    list (declaration * (err → err)) :=
  let dlx := incomingQueue o +:+ DLXSuffix in
  (if enableDLX o then
     [(ExchangeDeclare dlx "fanout", DLXConflictError);
      (QueueDeclare dlx ∅, wrapf "declare queue");
      (QueueBind dlx "" dlx, wrapf "bind queue")]
   else []) ++
  [(QueueDeclare (incomingQueue o)
      (if enableDLX o then {["x-dead-letter-exchange"%string := GString dlx]} else ∅),
    wrapf "declare queue")] ++
  bindings (incomingQueue o) infos.
Definition setupTopology (o : receiverOptions) (ch : nat) (infos : list ServiceInfo) : M S error :=
  declareAll ch (topology o infos).

(** [Setup] leaves the queue name and the consumer tag in the options; [xid] is
    the identifier it draws. *)
Definition configured (o : receiverOptions) (consumerName xid : string) : receiverOptions :=
  mkOptions (if String.eqb (incomingQueue o) "" then consumerName else incomingQueue o)
    (prefetchCount o) (consumerName +:+ "-" +:+ xid) (setupTopologyOn o) (enableDLX o)
    (requeueOnError o) (requeueBackoffBase o) (requeueBackoffMax o).
Definition Setup (o : receiverOptions) (ctx : cx) (consumerName xid : string)
    (infos : list ServiceInfo) : M S (receiverOptions * error) :=
  let o := configured o consumerName xid in
  if negb (setupTopologyOn o) then
    mret (o, if enableDLX o then Some (New "rabbitmq: WithDLX requires WithTopologySetup") else None)
  else
    e ← Process ctx (λ _ ch, setupTopology o ch infos);
    mret (o, e).

Definition Receive (o : receiverOptions) (m : Unmarshal_) (shutdownCtx : cx)
    (processor : Processor (W := W)) : M S error :=
  Run shutdownCtx (mkSpec (incomingQueue o) (consumerTag o) (prefetchCount o) m true) processor
    (doAcknowledge o).
End receiver.
End Plain.

(** ** parkinglot/receiver.go *)
Module ParkingLot.
Record receiverOptions := mkOptions {
  incomingQueue : string; waitQueue : string; parkingLotQueue : string; dlxExchange : string;
  prefetchCount : Z; consumerTag : string; setupTopologyOn : bool; setupBindingsOn : bool;
  maxRetries : Z; minRetryBackoff : Z }.
Definition defaultReceiverOptions : receiverOptions :=
  mkOptions "" "" "" "" DefaultPrefetchCount "" false false 3 (15 * Second).
Definition wait : string := "wait".
Definition retry : string := "retry".
Definition parkingLot : string := "parkingLot".
Definition parkConfirmTimeout : Z := 30 * Second.

Fixpoint tlookup (k : string) (t : list (string * goval)) : option goval :=
  match t with
  | [] => None
  | (k', v) :: t => if String.eqb k k' then Some v else tlookup k t
  end.

Definition deathCountString (s : string) : Z * bool :=
  match ParseInt s with Some n => (n, true) | None => (0, false) end.
Definition deathCountFloat (f : spec_float) : Z * bool :=
  match integral f with
  | Some z => if (z <? - 2^63) || (2^63 <=? z) then (0, false) else (z, true)
  | None => (0, false)
  end.
Definition deathCount (v : option goval) : Z * bool :=
  match v with
  | Some (GInt64 c) | Some (GInt32 c) | Some (GInt16 c) | Some (GInt8 c) | Some (GInt c)
  | Some (GUint32 c) | Some (GUint16 c) | Some (GUint8 c) => (c, true)
  | Some (GUint64 c) => if maxInt64 <? c then (maxInt64, true) else (c, true)
  | Some (GFloat64 f) | Some (GFloat32 f) => deathCountFloat f
  | Some (GString s) | Some (GBytes s) => deathCountString s
  | _ => (0, false)
  end.

Section receiver.
Context `{UrlLib} {W : Type} `{!Amqp W}.
#[local] Abbreviation S := (W * loc)%type.
Context (o : receiverOptions).

(** The loop over the entries of x-death, with the two variables it keeps. *)
Fixpoint deathLoop (firstDeathQueue : string) (death : list goval) (maxSeen : Z)
    (anyCount : bool) : M S bool :=
  match death with
  | [] =>
      if anyCount then
        (if maxRetries o <=? maxSeen then emit (AErrorf "x-first-death-queue matches no entry")
         else skip) ;;
        mret (maxRetries o <=? maxSeen)
      else mret false
  | GTable t :: death =>
      let '(count, countOK) := deathCount (tlookup "count" t) in
      let maxSeen := if countOK then Z.max maxSeen count else maxSeen in
      let anyCount := countOK || anyCount in
      if String.eqb (HeaderString (tlookup "queue" t)).1 firstDeathQueue then
        if countOK then mret (maxRetries o <=? count)
        else emit (AErrorf "unreadable x-death count") ;; mret false
      else deathLoop firstDeathQueue death maxSeen anyCount
  | _ :: death => deathLoop firstDeathQueue death maxSeen anyCount
  end.
Definition hasExceededRetryCount (d : Delivery) : M S bool :=
  match DHeaders d !! "x-death"%string with
  | Some (GList death) =>
      let firstDeathQueue := (HeaderString (DHeaders d !! "x-first-death-queue"%string)).1 in
      if String.eqb firstDeathQueue "" then mret false
      else deathLoop firstDeathQueue death 0 false
  | _ => mret false
  end.

(** The copy that is parked. *)
Definition parked (d : Delivery) : Publishing :=
  mkPublishing (DHeaders d) (DType d) (DContentType d) (DContentEncoding d) (DDeliveryMode d)
    (DBody d).

Definition putIntoParkingLot (ctx : cx) (ch : nat) (d : Delivery) : M S error :=
  t ← ext now;
  let pubCtx := WithTimeout t (WithoutCancel ctx) parkConfirmTimeout in
  e ← Enable ctx ch;
  match e with
  | Some e => mret (Some (wrapf "put into parking lot" e))
  | None =>
      Returns ch ;; Lock ch ;;
      conf ← doPublish ch pubCtx (dlxExchange o) parkingLot true (parked d);
      match conf with
      | inr e => mret (Some (wrapf "put into parking lot" e))
      | inl tag =>
          ok ← doWait ch tag pubCtx;
          match ok with
          | inr e => mret (Some (wrapf "await parking-lot publisher confirm" e))
          | inl acked =>
              ret ← Took ch;
              match ret with
              | Some _ => mret (Some (New "parking-lot publish was returned as unroutable"))
              | None =>
                  if negb acked then
                    mret (Some (New "parking-lot publish was not confirmed by the broker"))
                  else
                    e ← doAck (DTag d);
                    match e with
                    | Some _ => emit (AErrorf "parked delivery but could not ack the original")
                    | None => skip
                    end ;;
                    mret None
              end
          end
      end
  end.

Definition doAcknowledge (ctx : cx) (ch : nat) (d : Delivery) (e : error) : M S error :=
  match e with
  | None => r ← doAck (DTag d); mret (wrapf "ack delivery" <$> r)
  | Some e =>
      over ← (if IsUnprocessableEventError (Some e) then mret true else hasExceededRetryCount d);
      if over : bool then putIntoParkingLot ctx ch d
      else
        r ← doReject (DTag d) false;
        mret (wrapf "reject delivery" <$> r)
  end.

Definition topology : list (declaration * (err → err)) :=
  let q := wrapf "declare queue" in let b := wrapf "bind queue" in
  [(ExchangeDeclare (dlxExchange o) "topic", DLXConflictError);
   (QueueDeclare (waitQueue o)
      (<["x-dead-letter-exchange"%string := GString (dlxExchange o)]>
       (<["x-dead-letter-routing-key"%string := GString retry]>
        {["x-message-ttl"%string := GInt64 (Z.quot (minRetryBackoff o) 1000000)]})), q);
   (QueueDeclare (parkingLotQueue o) ∅, q);
   (QueueDeclare (incomingQueue o)
      (<["x-dead-letter-exchange"%string := GString (dlxExchange o)]>
       {["x-dead-letter-routing-key"%string := GString wait]}), q);
   (QueueBind (waitQueue o) wait (dlxExchange o), b);
   (QueueBind (incomingQueue o) retry (dlxExchange o), b);
   (QueueBind (parkingLotQueue o) parkingLot (dlxExchange o), b)].
Definition setupTopology (ch : nat) : M S error := declareAll ch topology.
Definition setupBindings (ch : nat) (infos : list ServiceInfo) : M S error :=
  declareAll ch (bindings (incomingQueue o) infos).

Definition Receive (m : Unmarshal_) (shutdownCtx : cx) (processor : Processor (W := W)) :
    M S error :=
  Run shutdownCtx (mkSpec (incomingQueue o) (consumerTag o) (prefetchCount o) m true) processor
    (λ ctx ch d dErr, e ← doAcknowledge ctx ch d dErr; mret (wrapf "do acknowledge" <$> e)).
End receiver.

Definition configured (o : receiverOptions) (consumerName xid : string) : receiverOptions :=
  let q := if String.eqb (incomingQueue o) "" then consumerName else incomingQueue o in
  mkOptions q (q +:+ ".wait") (q +:+ ".pl") (q +:+ DLXSuffix) (prefetchCount o)
    (consumerName +:+ "-" +:+ xid) (setupTopologyOn o) (setupBindingsOn o) (maxRetries o)
    (minRetryBackoff o).
Definition Setup `{UrlLib} {W} `{!Amqp W} (o : receiverOptions) (ctx : cx)
    (consumerName xid : string) (infos : list ServiceInfo) :
    M (W * loc) (receiverOptions * error) :=
  let o := configured o consumerName xid in
  if negb (setupTopologyOn o) && negb (setupBindingsOn o) then mret (o, None)
  else
    e ← Process ctx (λ _ ch,
      e ← (if setupTopologyOn o then setupTopology o ch else mret None);
      match e with
      | Some e => mret (Some e)
      | None => if setupBindingsOn o then setupBindings o ch infos else mret None
      end);
    mret (o, e).
End ParkingLot.
