(* ===== verification/RabbitProps.v ===== *)
(** * What the RabbitMQ receivers do with a delivery

    The pause before a requeue, the retry budget, and for both receivers: every
    delivery that is handed over is processed and then settled, as the policy
    says while the group runs and by a return to the queue once it stops. The
    policies are stated on the log of calls, apart from the code's own
    predicates: [unprocessable], [overspent], [paced], [copies]. *)
From S2P Require Import Prelude Errors GoLib Event Bound Relay Amqp Publish Consume.

(** ** The pacing of a requeue *)
Section pacing.
Import Plain.

Lemma deliveryCount_bounds d : 0 <= deliveryCount d <= 64.
Proof. unfold deliveryCount. repeat case_match; zbool; lia. Qed.

Lemma delayLoop_capped n delay max :
  0 < delay → 0 < max <= 2^62 →
  match delayLoop n delay max with inr m => m | inl z => Z.min max z end =
  Z.min max (delay * 2 ^ Z.of_nat n).
Proof.
  intros Hd Hm. revert delay Hd. induction n as [|n IH]; intros delay Hd; cbn [delayLoop].
  { by rewrite Z.mul_1_r. }
  assert (1 <= 2 ^ Z.of_nat n) by (apply (Z.pow_le_mono_r 2 0); lia).
  destruct (Z.leb_spec max delay).
  - rewrite Z.min_l; [done|]. rewrite Nat2Z.inj_succ, Z.pow_succ_r by lia. nia.
  - rewrite wrap64_id by (unfold in64; lia). rewrite IH by lia.
    f_equal. rewrite Nat2Z.inj_succ, Z.pow_succ_r by lia. lia.
Qed.

(** The pause before a transiently failed delivery goes back is the base
    doubled once per redelivery and capped at the maximum, for every positive
    base and every maximum up to 2^62 ns (146 years); the redelivery count is
    read from a header of any integer width and clamped to 64. *)
Theorem requeueDelay_capped d base max :
  0 < base → 0 < max <= 2^62 →
  requeueDelay d base max = Z.min max (base * 2 ^ deliveryCount d) ∧
  0 <= deliveryCount d <= 64.
Proof.
  intros Hb Hm. pose proof (deliveryCount_bounds d) as Hc. split; [|done].
  unfold requeueDelay. destruct (Z.leb_spec base 0); [lia|].
  destruct (Z.ltb_spec (deliveryCount d) 0); [lia|].
  pose proof (delayLoop_capped (Z.to_nat (deliveryCount d)) base max Hb Hm) as Hl.
  rewrite Z2Nat.id in Hl by lia. rewrite <-Hl. destruct (delayLoop _ _ _) as [z|m]; [|done].
  destruct (Z.ltb_spec 0 max); [|lia]. simpl. destruct (Z.ltb_spec max z); lia.
Qed.

(** Above that the doubling leaves the 64-bit range: with the largest maximum
    ("no cap") the delay of the 36th redelivery is negative, that is, none. *)
Lemma requeueDelay_overflow d :
  deliveryCount d = 36 → requeueDelay d defaultRequeueBackoffBase maxInt64 < 0.
Proof. intros Hc. unfold requeueDelay. rewrite Hc. by vm_compute. Qed.

Definition demo_delivery (n : Z) : Delivery :=
  mkDelivery {[deliveryCountHeader := GInt64 n]} "" "" "" 2 None "m-1" 1.
Lemma requeueDelay_capped_witness :
  requeueDelay (demo_delivery 3) defaultRequeueBackoffBase defaultRequeueBackoffMax =
  Z.min defaultRequeueBackoffMax (defaultRequeueBackoffBase * 2 ^ 3).
Proof.
  apply (requeueDelay_capped (demo_delivery 3) defaultRequeueBackoffBase defaultRequeueBackoffMax).
  - by vm_compute.
  - by vm_compute.
Defined.
End pacing.

(** ** The retry budget *)
Section budget.
Import ParkingLot.
Context `{UrlLib} {W : Type} `{!Amqp W}.
Context (o : receiverOptions).

(** The entries of x-death, and which of them names a queue. *)
Definition entries (death : list goval) : list (list (string * goval)) :=
  omap (λ v, match v with GTable t => Some t | _ => None end) death.
Definition names (q : string) (t : list (string * goval)) : bool :=
  String.eqb (HeaderString (tlookup "queue" t)).1 q.
Definition readable (t : list (string * goval)) (c : Z) : Prop :=
  deathCount (tlookup "count" t) = (c, true).

Lemma deathLoop_named q death m any s pre t post :
  entries death = pre ++ t :: post → Forall (λ t, names q t = false) pre → names q t = true →
  (deathLoop (W := W) o q death m any s).1 =
  (deathCount (tlookup "count" t)).2 && (maxRetries o <=? (deathCount (tlookup "count" t)).1).
Proof.
  intros He Hpre Ht. revert m any pre He Hpre.
  induction death as [|v death IH]; intros m any pre He Hpre; [by destruct pre|].
  destruct v as [| | | | | | | | | | | | | | | | | |l];
    try exact (IH m any pre He Hpre). cbn [deathLoop].
  change (l :: entries death = pre ++ t :: post) in He.
  destruct (deathCount (tlookup "count" l)) as [c ok] eqn:Hc.
  destruct pre as [|t' pre]; simpl in He; injection He as -> He.
  - fold (names q t). rewrite Ht, Hc. by destruct ok.
  - apply Forall_cons in Hpre as [Ht' Hpre]. fold (names q t'). rewrite Ht'. by apply IH with pre.
Qed.

Lemma deathLoop_unnamed q death m any s :
  Forall (λ t, names q t = false) (entries death) →
  (deathLoop (W := W) o q death m any s).1 = true ↔
  any = true ∧ maxRetries o <= m ∨
  ∃ t c, t ∈ entries death ∧ readable t c ∧ maxRetries o <= Z.max m c.
Proof.
  revert m any. induction death as [|v death IH]; intros m any Hall.
  { simpl. destruct any.
    - rewrite run_bind. cbn [fst]. rewrite <-Z.leb_le. split; [by left|].
      by intros [[_ ?]|(t & c & ?%elem_of_nil & _)].
    - split; [done|]. by intros [[? _]|(t & c & ?%elem_of_nil & _)]. }
  destruct v; try (apply IH; assumption). cbn [deathLoop].
  change (entries (GTable l :: death)) with (l :: entries death) in *.
  apply Forall_cons in Hall as [Hl Hall]. fold (names q l). rewrite Hl.
  destruct (deathCount (tlookup "count" l)) as [c ok] eqn:Hc. rewrite IH by done. unfold readable.
  split.
  - intros [[Ha Hm]|(t & c' & Ht & Hr & Hm)].
    + destruct ok; [right; exists l, c; rewrite Hc; split_and!; [by left|done|lia]|left; done].
    + destruct ok; [|right; exists t, c'; split_and!; [by right|done..]].
      destruct (Z.le_gt_cases (maxRetries o) (Z.max m c)).
      * right. exists l, c. split_and!; [by left|done|done].
      * right. exists t, c'. split_and!; [by right|done|lia].
  - intros [[-> Hm]|(t & c' & [->|Ht]%elem_of_cons & Hr & Hm)].
    + left. destruct ok; split; (done || lia).
    + rewrite Hc in Hr. injection Hr as -> ->. by left.
    + right. exists t, c'. split_and!; [done|done|]. destruct ok; lia.
Qed.

(** When a delivery has spent its retry budget: it names the queue of its first
    death, and the first entry of x-death for that queue, if there is one, has a
    readable count of at least [maxRetries]; when no entry is for that queue,
    some entry has. *)
Definition overspent (d : Delivery) : Prop :=
  match DHeaders d !! "x-death"%string with
  | Some (GList death) =>
      let q := (HeaderString (DHeaders d !! "x-first-death-queue"%string)).1 in
      q ≠ ""%string ∧
      ((∃ pre t post c, entries death = pre ++ t :: post ∧ Forall (λ t, names q t = false) pre ∧
          names q t = true ∧ readable t c ∧ maxRetries o <= c) ∨
       Forall (λ t, names q t = false) (entries death) ∧
         ∃ t c, t ∈ entries death ∧ readable t c ∧ maxRetries o <= Z.max 0 c)
  | _ => False
  end.
Lemma first_named q (l : list (list (string * goval))) :
  Forall (λ t, names q t = false) l ∨
  ∃ pre t post, l = pre ++ t :: post ∧ Forall (λ t, names q t = false) pre ∧ names q t = true.
Proof.
  induction l as [|t l [Hall|(pre & t' & post & -> & Hpre & Ht')]]; [by left|..];
    destruct (names q t) eqn:Ht.
  - right. by exists [], t, l.
  - left. by constructor.
  - right. by exists [], t, (pre ++ t' :: post).
  - right. exists (t :: pre), t', post. split_and!; [done|by constructor|done].
Qed.
Lemma first_named_unique q pre t post pre' t' post' :
  pre ++ t :: post = pre' ++ t' :: post' →
  Forall (λ t, names q t = false) pre → names q t = true →
  Forall (λ t, names q t = false) pre' → names q t' = true → t' = t.
Proof.
  revert pre'. induction pre as [|x pre IH]; intros [|x' pre'] E Hp Ht Hp' Ht'; simpl in E;
    injection E as Ex E; subst.
  - done.
  - apply Forall_cons in Hp' as [Hx _]. congruence.
  - apply Forall_cons in Hp as [Hx _]. congruence.
  - apply Forall_cons in Hp as [_ Hp], Hp' as [_ Hp']. eauto.
Qed.

(** The retry budget of the parking lot is spent exactly when that says so, so
    that it is bounded even for an event that carries another consumer's
    history. *)
Theorem hasExceededRetryCount_spec d s :
  (hasExceededRetryCount (W := W) o d s).1 = true ↔ overspent d.
Proof.
  unfold hasExceededRetryCount, overspent.
  destruct (DHeaders d !! "x-death"%string) as [[]|]; try done. cbv zeta.
  set (q := (HeaderString _).1). destruct (String.eqb_spec q "") as [E|Hne].
  { split; [done|]. by intros [? _]. }
  destruct (first_named q (entries l)) as [Hall|(pre & t & post & He & Hpre & Ht)].
  - rewrite deathLoop_unnamed by done. split.
    + intros [[? _]|Hex]; [done|]. split; [done|]. by right.
    + intros [_ [(pre & t & post & c & He & _ & Ht & _)|[_ Hex]]]; [|by right].
      rewrite He, Forall_app, Forall_cons in Hall. destruct Hall as (_ & Ht' & _). congruence.
  - rewrite (deathLoop_named _ _ _ _ _ _ _ _ He Hpre Ht). rewrite andb_true_iff, Z.leb_le. split.
    + intros [Hok Hle]. split; [done|]. left. exists pre, t, post, (deathCount (tlookup "count" t)).1.
      split_and!; try done. unfold readable. destruct (deathCount _). simpl in *. by subst.
    + intros [_ [(pre' & t' & post' & c & He' & Hpre' & Ht' & Hr & Hle)|[Hall _]]].
      * rewrite He in He'. rewrite (first_named_unique q _ _ _ _ _ _ He' Hpre Ht Hpre' Ht') in Hr.
        unfold readable in Hr. by rewrite Hr.
      * rewrite He, Forall_app, Forall_cons in Hall. destruct Hall as (_ & Ht' & _). congruence.
Qed.
End budget.

(** ** Every delivery is disposed of *)
Section dispositions.
Context `{UrlLib} {W : Type} `{!Amqp W}.
#[local] Abbreviation S := (W * loc)%type.

(** What was done with deliveries, in order. *)
Definition is_disposition (e : aev) : bool :=
  match e with AAck _ _ | AReject _ _ _ | ANack _ _ _ => true | _ => false end.
Definition dispositions (k : list aev) : list aev := filter is_disposition k.
Lemma dispositions_app k l : dispositions (k ++ l) = dispositions k ++ dispositions l.
Proof. apply filter_app. Qed.
Lemma dispositions_handshake k : handshake_only k → dispositions k = [].
Proof.
  induction k as [|e k IH]; intros Hk; [done|]. destruct (Hk e ltac:(by left)) as [ch ->].
  apply IH. intros e He. apply Hk. by right.
Qed.

(** An unprocessable event: an error with the type's mark anywhere in its tree. *)
Inductive unprocessable : err → Prop :=
| unprocessable_here es : unprocessable (Typed TUnprocessableEvent es)
| unprocessable_in e e' : e' ∈ unwrap e → unprocessable e' → unprocessable e.
Lemma IsUnprocessable_spec e : IsUnprocessableEventError (Some e) = true ↔ unprocessable e.
Proof.
  unfold IsUnprocessableEventError. cbn [As mbind option_bind].
  assert (Hgo : ∀ es, Forall (λ e, is_Some (find_err asUnprocessable e) ↔ unprocessable e) es →
    is_Some ((fix go (es : list err) : option unit :=
       match es with
       | [] => None
       | e :: es => match find_err asUnprocessable e with Some a => Some a | None => go es end
       end) es) ↔ ∃ e', e' ∈ es ∧ unprocessable e').
  { induction 1 as [|e0 es He _ IH]; [split; [by intros []|by intros (? & ?%elem_of_nil & _)]|].
    setoid_rewrite elem_of_cons. destruct (find_err asUnprocessable e0); [split; [|by eauto]|].
    - intros _. exists e0. split; [by left|]. apply He. by eexists.
    - rewrite IH. split; [intros (e' & ? & ?); eauto|]. intros (e' & [->|?] & Hu); [|eauto].
      by apply He in Hu as [??]. }
  transitivity (is_Some (find_err asUnprocessable e)).
  { change (As asUnprocessable (Some e)) with (find_err asUnprocessable e).
    destruct (find_err asUnprocessable e); split; eauto; [done|by intros []]. }
  assert (Hin : ∀ e es, unwrap e = es → (∀ es', e ≠ Typed TUnprocessableEvent es') →
    ((∃ e', e' ∈ es ∧ unprocessable e') ↔ unprocessable e)).
  { intros e0 es <- Hn. split; [intros (e' & ? & ?); by eapply unprocessable_in|].
    destruct 1 as [es'|e0 e' ? ?]; [by destruct (Hn es')|eauto]. }
  induction e as [sn|m es IH|es IH|t es IH].
  - simpl. split; [by intros []|]. inversion 1 as [|? ? Hx]; subst. by apply elem_of_nil in Hx.
  - rewrite <-(Hin (Errorf m es) es) by done. by apply Hgo.
  - rewrite <-(Hin (Joined es) es) by done. by apply Hgo.
  - destruct (decide (t = TUnprocessableEvent)) as [->|Ht].
    + split; [intros _; constructor|by eexists].
    + rewrite <-(Hin (Typed t es) es) by (done || by intros ? [= ? ?]). destruct t; try done; by apply Hgo.
Qed.
Lemma IsUnprocessable_false e : IsUnprocessableEventError (Some e) = false ↔ ¬ unprocessable e.
Proof. by rewrite <-IsUnprocessable_spec, not_true_iff_false. Qed.

(** The result of processing a delivery: the processor's, or an unprocessable
    event when the delivery does not decode. *)
Definition processed (spec : Spec) (d : Delivery) (k : list aev) (dErr : error) : Prop :=
  match SMarshaler spec d with
  | inl (md, data) => k = [AProcessed md data dErr]
  | inr _ => (∃ e, dErr = Some e ∧ unprocessable e) ∧ k ⊆ [AErrorf "unmarshaling event"]
  end.
Lemma processDelivery_logs ctx spec d (processor : Processor) s (Q : error → list aev → S → Prop) :
  (∀ dErr k s', processed spec d k dErr → dispositions k = [] → Q dErr k s') →
  logs (processDelivery ctx spec d processor) s Q.
Proof.
  intros HQ. unfold processDelivery, processed in *. destruct (SMarshaler spec d) as [[md data]|e].
  - logs_step. by apply HQ.
  - logs_step. destruct (SLogger spec).
    + logs_step. apply logs_ret. apply HQ; [|done]. split; [|done]. eexists. split; [done|constructor].
    + exists []. rewrite app_nil_r. split; [done|]. apply logs_ret, HQ; [|done].
      split; [eexists; split; [done|constructor]|]. intros x ?%elem_of_nil. done.
Qed.

(** The group's context was asked at some time, and answered [e]. *)
Definition asked (gc : cx) (e : error) (k : list aev) : Prop :=
  ∃ t, e = ErrAt gc t ∧ k = [ACtxErr gc e].
(** A delivery that was handed over is processed, then the group's context is
    asked. The delivery ends requeued, when the context has ended or when its
    policy failed, or disposed of as the policy says. *)
Definition requeued (tag : Z) (k : list aev) : Prop := ∃ x, k = [ANack tag true x].
Inductive settled (gc : cx) (policy : error → error → list aev → Prop) (spec : Spec) (d : Delivery)
    (r : error) (k : list aev) : Prop :=
| settled_stopping k0 kc k1 dErr e :
    k = k0 ++ kc ++ k1 → processed spec d k0 dErr → asked gc (Some e) kc → r = None →
    requeued (DTag d) k1 → settled _ _ _ _ _ _
| settled_failed k0 kc k1 k2 dErr :
    k = k0 ++ kc ++ k1 ++ k2 → processed spec d k0 dErr → asked gc None kc → policy dErr r k1 →
    r ≠ None → requeued (DTag d) k2 → settled _ _ _ _ _ _
| settled_done k0 kc k1 dErr :
    k = k0 ++ kc ++ k1 → processed spec d k0 dErr → asked gc None kc → policy dErr None k1 →
    r = None → settled _ _ _ _ _ _.

Lemma Requeue_logs d s (Q : unit → list aev → S → Prop) :
  (∀ k s', requeued (DTag d) k → Q tt k s') → logs (Requeue d) s Q.
Proof.
  intros HQ. unfold Requeue. logs_step. logs_step. exists []. rewrite app_nil_r.
  split; [done|]. apply HQ. by eexists.
Qed.
Lemma handle_logs sd spec (processor : Processor) ack (policy : nat → Delivery → _) gc ch d s :
  (∀ ctx ch d dErr s, logs (ack ctx ch d dErr) s (λ r k _, policy ch d dErr r k)) →
  logs (handle sd spec processor ack gc ch d) s (λ r k _, settled gc (policy ch d) spec d r k).
Proof.
  intros Hack. unfold handle. logs_step. apply processDelivery_logs. intros dErr k0 s0 Hp _.
  logs_step. logs_step. assert (Ha : asked gc (ErrAt gc t) [ACtxErr gc (ErrAt gc t)]) by (by exists t).
  destruct (ErrAt gc t) as [e|]; simpl.
  - logs_step. apply Requeue_logs. intros k1 s1 Hr. apply logs_ret. rewrite app_nil_r.
    by eapply (settled_stopping _ _ _ _ _ _ k0 [_] k1).
  - logs_step. logs_use Hack. intros r k1 s1 Hpol. destruct r as [er|].
    + logs_step. apply Requeue_logs. intros k2 s2 Hr. apply logs_ret. rewrite app_nil_r.
      by eapply (settled_failed _ _ _ _ _ _ k0 [_] k1 k2).
    + apply logs_ret. rewrite app_nil_r. by eapply (settled_done _ _ _ _ _ _ k0 [_] k1).
Qed.

(** The log of a subscription is that of its deliveries, one after the other. *)
Lemma consumed_logs (handler : cx → nat → Delivery → M S error)
    (P : cx → nat → Delivery → error → list aev → Prop) s ds r (s' : S) :
  (∀ c ch d s, logs (handler c ch d) s (λ r k _, P c ch d r k)) → consumed handler s ds r s' →
  ∃ ks, alog s'.2 = alog s.2 ++ concat ks ∧
    Forall2 (λ h k, ∃ r, P h.1.1 h.1.2 h.2 r k) ds ks.
Proof.
  intros Hh. induction 1 as [w w' x r|w w1 x c ch d e s r Hrun|w w1 x c ch d s ds r s' Hrun _ IH].
  - exists []. simpl. by rewrite app_nil_r.
  - destruct (Hh c ch d (w1, x)) as (k & Hk & HP). rewrite Hrun in Hk, HP.
    exists [k]. simpl in *. rewrite app_nil_r. split; [done|]. repeat constructor. eauto.
  - destruct (Hh c ch d (w1, x)) as (k & Hk & HP). rewrite Hrun in Hk, HP.
    destruct IH as (ks & Hl & HF). exists (k :: ks). simpl in *. rewrite Hl, Hk, app_assoc.
    split; [done|]. constructor; eauto.
Qed.

(** Every delivery a subscription hands over is settled. *)
Context `{!AmqpLaws W}.
Lemma Run_settles sd spec (processor : Processor) ack (policy : nat → Delivery → _) s :
  (∀ ctx ch d dErr s, logs (ack ctx ch d dErr) s (λ r k _, policy ch d dErr r k)) →
  0 < Prefetch spec →
  ∃ ks, alog (Run sd spec processor ack s).2.2 = alog s.2 ++ concat ks ∧
    Forall2 (λ '(gc, ch, d) k, ∃ r, settled gc (policy ch d) spec d r k)
      (handed sd (Queue spec) (ConsumerTag spec) (Prefetch spec) (handle sd spec processor ack) s) ks.
Proof.
  intros Hack Hp. unfold Run, checkPrefetch. destruct (Z.ltb_spec 0 (Prefetch spec)); [|lia].
  destruct (consumed_logs _ (λ gc ch d r k, settled gc (policy ch d) spec d r k) _ _ _ _
    (λ gc ch d s, handle_logs sd spec processor ack policy gc ch d s Hack)
    (consume_runs sd (Queue spec) (ConsumerTag spec) (Prefetch spec) (handle sd spec processor ack) s))
    as (ks & Hl & HF).
  exists ks. split; [exact Hl|]. eapply Forall2_impl; [exact HF|]. by intros [[??]?] k.
Qed.
End dispositions.

(** ** The plain receiver *)
Section plain.
Import Plain.
Context `{UrlLib} {W : Type} `{!Amqp W}.
#[local] Abbreviation S := (W * loc)%type.

(** A failure that is worth another attempt. *)
Definition retried (o : receiverOptions) (dErr : error) : Prop :=
  ∃ e, dErr = Some e ∧ ¬ unprocessable e ∧ requeueOnError o = true.
(** The acknowledgement of a delivery by its processing result, answered [x]. *)
Definition plain_verdict (o : receiverOptions) (tag : Z) (dErr x : error) (v : aev) : Prop :=
  match dErr with
  | None => v = AAck tag x
  | Some _ => ∃ again, v = AReject tag again x ∧ (again = true ↔ retried o dErr)
  end.
(** The pause before it: the base doubled once per redelivery, up to the
    maximum, when the delivery goes back to the queue, and none otherwise. *)
Definition paced (o : receiverOptions) (d : Delivery) (dErr : error) (w : Z) : Prop :=
  let base := requeueBackoffBase o in
  let max := requeueBackoffMax o in
  (¬ retried o dErr ∨ base <= 0 → w = 0) ∧
  (retried o dErr → 0 < base → 0 < max <= 2^62 → w = Z.min max (base * 2 ^ deliveryCount d)).
Definition plain_policy (o : receiverOptions) (d : Delivery) (dErr r : error) (k : list aev) : Prop :=
  ∃ w v x, k = (if 0 <? w then [ASleep w] else []) ++ [v] ∧ paced o d dErr w ∧
    plain_verdict o (DTag d) dErr x v ∧ (r = None ↔ x = None).
Lemma requeueDelay_paced o d dErr :
  retried o dErr → paced o d dErr (requeueDelay d (requeueBackoffBase o) (requeueBackoffMax o)).
Proof.
  intros Hr. split.
  - intros [?|Hb]; [done|]. unfold requeueDelay. by rewrite (proj2 (Z.leb_le _ _) Hb).
  - intros _ Hb Hm. by apply requeueDelay_capped.
Qed.
Lemma unpaced o d dErr : ¬ retried o dErr → paced o d dErr 0.
Proof. by intros Hn. Qed.
Lemma reject_logs o d e b w (s : S) (k : list aev) :
  paced o d (Some e) w → k = (if 0 <? w then [ASleep w] else []) → (b = true ↔ retried o (Some e)) →
  logs (r ← doReject (DTag d) b; mret (wrapf "reject delivery" <$> r)) s
    (λ r k' _, plain_policy o d (Some e) r (k ++ k')).
Proof.
  intros Hw -> Hb. logs_step. logs_step. apply logs_ret.
  exists w, (AReject (DTag d) b a), a. split_and!; [done|done| |by destruct a..]. by exists b.
Qed.
Lemma plain_policy_logs o ctx ch d dErr s :
  logs (Plain.doAcknowledge (W := W) o ctx ch d dErr) s (λ r k _, plain_policy o d dErr r k).
Proof.
  unfold Plain.doAcknowledge. destruct dErr as [e|].
  - destruct (IsUnprocessableEventError (Some e)) eqn:He.
    + apply IsUnprocessable_spec in He.
      assert (Hn : ¬ retried o (Some e)) by by intros (? & [= <-] & ? & _).
      apply (reject_logs o d e false 0 s []); [by apply unpaced|done|by split].
    + apply IsUnprocessable_false in He. logs_step. destruct (requeueOnError o) eqn:Ho.
      * assert (Hr : retried o (Some e)) by by exists e.
        pose proof (requeueDelay_paced o d (Some e) Hr) as Hw. destruct (0 <? _) eqn:Ew.
        -- logs_step. logs_step. logs_step. eapply reject_logs; [exact Hw|by rewrite Ew|done].
        -- exists []. rewrite app_nil_r. split; [done|].
           eapply (reject_logs o d e true); [exact Hw|by rewrite Ew|done].
      * assert (Hn : ¬ retried o (Some e)) by (intros (? & _ & _ & ?); congruence).
        exists []. rewrite app_nil_r. split; [done|].
        apply (reject_logs o d e false 0 _ []); [by apply unpaced|done|by split].
  - logs_step. logs_step. apply logs_ret. simpl. exists 0, (AAck (DTag d) a), a.
    split_and!; [done| |done|by destruct a..]. apply unpaced. by intros (? & ? & _).
Qed.

Context `{!AmqpLaws W}.
(** C26: the plain receiver leaves no delivery behind. Of every delivery the
    client hands over, in order: a decodable one is processed exactly once, an
    undecodable one counts as unprocessable; then the group's context is asked.
    While the group runs the delivery is acknowledged after success, rejected for
    good when unprocessable, and otherwise rejected with the requeue the options
    ask for (after the pause, when they do requeue), and it is returned to the
    queue as well when that acknowledgement failed; once the group is stopping,
    and only then, it is returned to the queue instead. Without a positive
    prefetch nothing is consumed, and an error says so. *)
Theorem plain_settles o m sd (processor : Processor) s :
  let spec := mkSpec (incomingQueue o) (consumerTag o) (prefetchCount o) m true in
  (0 < prefetchCount o →
     ∃ ks, alog (Plain.Receive o m sd processor s).2.2 = alog s.2 ++ concat ks ∧
       Forall2 (λ '(gc, ch, d) k, ∃ r, settled gc (plain_policy o d) spec d r k)
         (handed sd (incomingQueue o) (consumerTag o) (prefetchCount o)
            (handle sd spec processor (doAcknowledge o)) s) ks) ∧
  (prefetchCount o <= 0 →
     (Plain.Receive o m sd processor s).1 ≠ None ∧ (Plain.Receive o m sd processor s).2 = s).
Proof.
  intros spec. split; intros Hp; unfold Plain.Receive.
  - exact (Run_settles sd spec processor _ (λ _ d, plain_policy o d) s
      (λ ctx ch d dErr s, plain_policy_logs o ctx ch d dErr s) Hp).
  - unfold Run, checkPrefetch. simpl. by destruct (Z.ltb_spec 0 (prefetchCount o)); [lia|].
Qed.
End plain.

(** ** The parking-lot receiver *)
Section parkinglot.
Import ParkingLot.
Context `{UrlLib} {W : Type} `{!Amqp W}.
#[local] Abbreviation S := (W * loc)%type.

(** A copy of a delivery. *)
Definition copies (d : Delivery) (p : Publishing) : Prop :=
  PBody p = DBody d ∧ PHeaders p = DHeaders d ∧ PType p = DType d ∧ PContentType p = DContentType d ∧
  PContentEncoding p = DContentEncoding d ∧ PDeliveryMode p = DDeliveryMode d.
(** A confirmed, routed park, followed by the acknowledgement of the original:
    with the watch for returns claimed and drained, the copy is published, its
    own confirm arrives, the watch holds no return, and only then the original
    is acknowledged. *)
Definition park_then_ack (o : receiverOptions) (ch : nat) (d : Delivery) (k : list aev) : Prop :=
  ∃ k0 p tag x k1, copies d p ∧ k = k0 ++
    [ALocked ch [];
     APublish ch (dlxExchange o) parkingLot true p (inl tag);
     AConfirmed ch tag (inl true);
     AReturned ch [];
     AAck (DTag d) x] ++ k1 ∧
    dispositions k0 = [] ∧ dispositions k1 = [].
(** A park that failed: the handshake did, or the publish, or the wait for its
    confirm, or the confirm was negative, or the copy came back. *)
Definition park_failed (o : receiverOptions) (ch : nat) (d : Delivery) (k : list aev) : Prop :=
  ∃ k0 rest, k = k0 ++ rest ∧ dispositions k0 = [] ∧
    (rest = [] ∨ ∃ p x, copies d p ∧ let publish := APublish ch (dlxExchange o) parkingLot true p x in
       (∃ e, x = inr e ∧ rest = [ALocked ch []; publish]) ∨
       (∃ tag e, x = inl tag ∧ rest = [ALocked ch []; publish; AConfirmed ch tag (inr e)]) ∨
       (∃ tag ok seen, x = inl tag ∧
          rest = [ALocked ch []; publish; AConfirmed ch tag (inl ok); AReturned ch seen] ∧
          (ok = false ∨ seen ≠ []))).
Definition park_outcome (o : receiverOptions) (ch : nat) (d : Delivery) (r : error) (k : list aev) : Prop :=
  match r with None => park_then_ack o ch d k | Some _ => park_failed o ch d k end.
Lemma park_outcome_after o ch d r k0 k :
  dispositions k0 = [] → park_outcome o ch d r k → park_outcome o ch d r (k0 ++ k).
Proof.
  intros H0. destruct r as [e|]; simpl.
  - intros (k1 & rest & -> & H1 & Hr). exists (k0 ++ k1), rest. by rewrite app_assoc, dispositions_app, H0, H1.
  - intros (k1 & p & tag & x & k2 & Hc & -> & H1 & H2). exists (k0 ++ k1), p, tag, x, k2.
    by rewrite app_assoc, dispositions_app, H0, H1.
Qed.

Lemma putIntoParkingLot_logs o ctx ch d s :
  logs (putIntoParkingLot (W := W) o ctx ch d) s (λ r k _, park_outcome o ch d r k).
Proof.
  unfold putIntoParkingLot. logs_step. logs_step. rename a into t. logs_step. apply Enable_logs.
  intros r k s1 Hk _. apply dispositions_handshake in Hk.
  destruct r; [apply logs_ret; simpl; exists k, []; rewrite !app_nil_r; by split_and!; auto|].
  pose proof (conj eq_refl (conj eq_refl (conj eq_refl (conj eq_refl (conj eq_refl eq_refl))))
    : copies d (parked d)) as Hc.
  logs_step. apply Returns_logs. intros s2. logs_step. apply Lock_logs. intros s3.
  logs_step. logs_step. destruct a as [tag|e].
  2: { apply logs_ret. simpl. do 2 eexists. split_and!; [reflexivity|done|]. right. eexists _, _.
       split; [done|]. left. eauto. }
  logs_step. logs_step. destruct a as [ok|e].
  2: { apply logs_ret. simpl. do 2 eexists. split_and!; [reflexivity|done|]. right. eexists _, _.
       split; [done|]. right. left. eauto. }
  assert (Hret : ∀ e seen, ok = false ∨ seen ≠ [] → park_outcome o ch d (Some e)
    (k ++ [ALocked ch []; APublish ch (dlxExchange o) parkingLot true (parked d) (inl tag);
           AConfirmed ch tag (inl ok); AReturned ch seen])).
  { intros e seen Hs. do 2 eexists. split_and!; [reflexivity|done|]. right. eexists _, _.
    split; [done|]. do 2 right. by exists tag, ok, seen. }
  logs_step. apply Took_logs; intros.
  - destruct ok; [|apply logs_ret, Hret; by left].
    simpl. logs_step. logs_step. logs_step.
    assert (Hlast : ∀ x k1, dispositions k1 = [] → park_then_ack o ch d
      (k ++ [ALocked ch []; APublish ch (dlxExchange o) parkingLot true (parked d) (inl tag);
             AConfirmed ch tag (inl true); AReturned ch [];
             AAck (DTag d) x] ++ k1)) by (intros; by exists k, (parked d), tag, x, k1).
    destruct a as [e|].
    + logs_step. apply logs_ret. simpl. by apply (Hlast (Some e) [_]).
    + exists []. rewrite app_nil_r. split; [done|]. apply logs_ret. simpl. by apply (Hlast None []).
  - apply logs_ret, Hret. by right.
Qed.

(** What the policy does with a processing result. *)
Definition parking_policy (o : receiverOptions) (ch : nat) (d : Delivery) (dErr r : error) (k : list aev) : Prop :=
  match dErr with
  | None => ∃ x, k = [AAck (DTag d) x] ∧ (r = None ↔ x = None)
  | Some e =>
      park_outcome o ch d r k ∧
        (unprocessable e ∨ overspent o d) ∨
      ¬ unprocessable e ∧ ¬ overspent o d ∧
        ∃ k0 x, k = k0 ++ [AReject (DTag d) false x] ∧ dispositions k0 = [] ∧ (r = None ↔ x = None)
  end.

Lemma deathLoop_logs o q death m any s (Q : bool → list aev → S → Prop) :
  (∀ k s', dispositions k = [] → Q (deathLoop (W := W) o q death m any s).1 k s') →
  logs (deathLoop o q death m any) s Q.
Proof.
  revert m any. induction death as [|v death IH]; intros m any HQ; cbn [deathLoop] in *.
  - destruct any; [|by apply logs_ret, HQ]. logs_step. destruct (_ <=? _).
    + logs_step. by apply logs_ret, HQ.
    + exists []. rewrite app_nil_r. split; [done|]. by apply logs_ret, HQ.
  - destruct v; try exact (IH m any HQ).
    destruct (deathCount _) as [c ok]. destruct (String.eqb _ _); [|by apply IH].
    destruct ok; [by apply logs_ret, HQ|]. logs_step. logs_step. by apply logs_ret, HQ.
Qed.
Lemma hasExceeded_logs o d s :
  logs (hasExceededRetryCount (W := W) o d) s (λ b k _,
    dispositions k = [] ∧ (b = true ↔ overspent o d)).
Proof.
  assert (Hl : logs (hasExceededRetryCount (W := W) o d) s (λ b k _,
    dispositions k = [] ∧ b = (hasExceededRetryCount (W := W) o d s).1)).
  { unfold hasExceededRetryCount. destruct (DHeaders d !! _) as [[]|]; try by apply logs_ret.
    destruct (String.eqb _ _); [by apply logs_ret|]. by apply deathLoop_logs. }
  logs_use Hl. intros b k s' [Hk ->]. split; [done|]. apply hasExceededRetryCount_spec.
Qed.

Lemma parking_policy_logs o ctx ch d dErr s :
  logs (e ← ParkingLot.doAcknowledge (W := W) o ctx ch d dErr; mret (wrapf "do acknowledge" <$> e)) s
    (λ r k _, parking_policy o ch d dErr r k).
Proof.
  assert (Hpark : ∀ r, isNil (wrapf "do acknowledge" <$> r) = isNil r) by by intros [].
  logs_step. unfold ParkingLot.doAcknowledge. destruct dErr as [e|].
  - logs_step. assert (Hover : logs (if IsUnprocessableEventError (Some e) then mret true
        else hasExceededRetryCount o d) s (λ b k _, dispositions k = [] ∧
          (b = true → unprocessable e ∨ overspent o d) ∧
          (b = false → ¬ unprocessable e ∧ ¬ overspent o d))).
    { destruct (IsUnprocessableEventError (Some e)) eqn:Eu;
        [apply IsUnprocessable_spec in Eu; apply logs_ret; split_and!; by auto|].
      apply IsUnprocessable_false in Eu.
      logs_use hasExceeded_logs. intros b k s' [Hk Hb]. split_and!; [done|..]; intros ->.
      - right. by apply Hb.
      - split; [done|]. intros Hov%Hb. done. }
    logs_use Hover. intros b k s1 (Hk & Ht & Hf). destruct b.
    + logs_use putIntoParkingLot_logs. intros r k1 s2 Hr. apply logs_ret. rewrite app_nil_r.
      left. split; [|by apply Ht]. apply (park_outcome_after o ch d _ k k1 Hk). by destruct r.
    + logs_step. logs_step. apply logs_ret. simpl. apply logs_ret. rewrite app_nil_r.
      destruct (Hf eq_refl) as [He Hs]. right. split_and!; [done|done|].
      exists k, a. split_and!; [done|done|by destruct a].
  - logs_step. logs_step. apply logs_ret. simpl. apply logs_ret. exists a. by destruct a.
Qed.

Context `{!AmqpLaws W}.
(** C20: the parking-lot receiver never acknowledges a failed delivery away. Of
    every delivery handed over, while the group runs: success is acknowledged; a
    failure that is unprocessable, or has spent its retry budget, is acknowledged
    only right after a copy was published to the parking lot as mandatory, that
    publish was positively confirmed, and a look at the returns of the channel,
    drained before the publish, found none; any other failure is rejected into
    the wait queue; and when the park or the acknowledgement failed the delivery
    goes back to the queue. Once the group is stopping, and only then, it goes
    back to the queue whatever processing came to. *)
Theorem parkinglot_settles o m sd (processor : Processor) s :
  0 < prefetchCount o →
  let spec := mkSpec (incomingQueue o) (consumerTag o) (prefetchCount o) m true in
  ∃ ks, alog (ParkingLot.Receive o m sd processor s).2.2 = alog s.2 ++ concat ks ∧
    Forall2 (λ '(gc, ch, d) k, ∃ r, settled gc (parking_policy o ch d) spec d r k)
      (handed sd (incomingQueue o) (consumerTag o) (prefetchCount o)
         (handle sd spec processor
            (λ ctx ch d dErr, e ← doAcknowledge o ctx ch d dErr; mret (wrapf "do acknowledge" <$> e))) s) ks.
Proof.
  intros Hp spec. exact (Run_settles sd spec processor _ (parking_policy o) s
    (λ ctx ch d dErr s, parking_policy_logs o ctx ch d dErr s) Hp).
Qed.

(** Parking during the shutdown needs the channel to be in confirm mode
    already. [putIntoParkingLot] detaches the publish from the shutdown context,
    but negotiates confirms under that context: on a channel it has not used
    before, with the context canceled, the delivery is not parked, nothing is
    published, and the park is reported as failed. *)
Theorem park_after_shutdown o ctx ch d s :
  state s.2 !! ch = None →
  (∀ w, (confirmOrDone ch ctx w).1 = None) →
  ∃ k, alog (putIntoParkingLot (W := W) o ctx ch d s).2.2 = alog s.2 ++ k ∧
    (putIntoParkingLot (W := W) o ctx ch d s).1 ≠ None ∧ handshake_only k.
Proof.
  intros Hs Hc.
  change (logs (putIntoParkingLot (W := W) o ctx ch d) s (λ r k _, r ≠ None ∧ handshake_only k)).
  unfold putIntoParkingLot. logs_step. logs_step. logs_step. apply Enable_cold; [done|done|].
  intros e k s' Hk. apply logs_ret. by rewrite app_nil_r.
Qed.
End parkinglot.
