(* ===== verification/AmqpDemo.v ===== *)
(** * A concrete broker, and the witnesses of the RabbitMQ files

    One connection with one channel, which is never closed; the broker answers
    the publishes with the confirms it is given, and hands over the deliveries
    it is given. *)
From S2P Require Import Prelude Errors GoLib Event Bound Relay Scenario Lane Amqp Publish RabbitSend Consume RabbitProps.

Record broker := mkBroker { ticks : nat; answers : list bool; queue : list Delivery }.
#[export] Instance broker_host : Host broker := λ w, (Z.of_nat (ticks w), w).
Definition tick (w : broker) : broker := mkBroker (S (ticks w)) (answers w) (queue w).
Fixpoint hand_over {X} (handler : cx → nat → Delivery → M (broker * X) error) (ds : list Delivery) :
    M (broker * X) error :=
  match ds with
  | [] => mret None
  | d :: ds =>
      r ← handler Background O d;
      match r with Some e => mret (Some e) | None => hand_over handler ds end
  end.
#[export] Instance broker_amqp : Amqp broker := {|
  Process X ctx cmd := cmd ctx O;
  PublishDeferred ch ctx ex key mand p := λ w, (inl (Z.of_nat (ticks w)), tick w);
  PublishWithContext ch ctx ex key p := λ w, (None, tick w);
  WaitContext ch tag ctx := λ w,
    match answers w with
    | [] => (inl true, tick w)
    | b :: l => (inl b, mkBroker (S (ticks w)) l (queue w))
    end;
  confirmOrDone ch ctx := λ w, (if doneAt ctx (Z.of_nat (ticks w)) then None else Some None, tick w);
  confirmEnded ch := mret (Some None);
  IsClosed ch := mret false;
  NotifyReturn ch := mret tt;
  returnsOf ch w := mkRetchan [] false;
  setReturns ch c w := w;
  Declares ch d := mret None;
  Ack tag := mret None;
  Reject tag requeue := mret None;
  Nack tag requeue := mret None;
  sleep d ctx := λ w, (tt, tick w);
  ConsumeWithDrain X ctx q tag n handler := λ s, hand_over handler (queue s.1) s |}.
Fixpoint handed_over {X} (handler : cx → nat → Delivery → M (broker * X) error) (ds : list Delivery)
    (s : broker * X) : list (cx * nat * Delivery) :=
  match ds with
  | [] => []
  | d :: ds =>
      (Background, O, d) ::
        match handler Background O d s with
        | (Some _, _) => []
        | (None, s') => handed_over handler ds s'
        end
  end.
Lemma hand_over_consumed {X} handler ds (s : broker * X) :
  consumed handler s (handed_over handler ds s) (hand_over handler ds s).1 (hand_over handler ds s).2.
Proof.
  revert s. induction ds as [|d ds IH]; intros [w x]; [apply consumed_end|].
  cbn [hand_over handed_over]. rewrite run_bind.
  destruct (handler Background O d (w, x)) as [[e|] s'] eqn:E; simpl.
  - by eapply consumed_failed.
  - by eapply consumed_next.
Qed.
#[export, refine] Instance broker_laws : AmqpLaws broker := {|
  handed X ctx q tag n handler s := handed_over handler (queue s.1) s |}.
Proof.
  - intros X ctx cmd [w x]. unfold Process. simpl.
    destruct (cmd ctx O (w, x)) as [r [w2 x2]] eqn:E. by eapply attempts_last.
  - intros X ctx q tag n handler s. apply hand_over_consumed.
Defined.

(** ** The sender *)
Definition text_marshal : Marshal_ := λ md data,
  inl (mkPublishing ∅ (Type_ md) (DataContentType md) "" 0 data).
Definition pipelined : senderOptions := NewSender text_marshal [].
Definition one : Metadata * option string := (NewMetadata "books.v1.BookCreated", Some "1"%string).
Definition two : Metadata * option string := (NewMetadata "books.v1.BookSold", Some "2"%string).
Definition sender_start : broker * loc := (mkBroker 0 [true; false] [], start).

(** The broker confirms the first of two and refuses the second. *)
Example pipelined_run :
  (SendBatch pipelined Background [one; two] sender_start).1 = (1, Some notConfirmed).
Proof. reflexivity. Qed.
Lemma SendBatch_contract_witness :
  ∃ k, alog (SendBatch pipelined Background [one; two] sender_start).2.2 = alog sender_start.2 ++ k ∧
       answered pipelined [one; two] (SendBatch pipelined Background [one; two] sender_start).1 k.
Proof. apply (SendBatch_contract pipelined). reflexivity. Defined.
Lemma Send_confirmed_witness :
  ∃ p k ct, addressed pipelined one p ∧
    alog (Send pipelined Background one.1 one.2 sender_start).2.2 = alog sender_start.2 ++ k ++
      receipt pipelined p ct.
Proof. apply (Send_confirmed pipelined Background one.1 one.2); reflexivity. Defined.

(** ** The receivers *)
Definition text_unmarshal : Unmarshal_ := λ d,
  if String.eqb (DType d) "" then inr (New "required attribute 'type' is missing")
  else inl (NewMetadata (DType d), DBody d).
Definition failing : Processor (W := broker) := λ ctx md data, mret (Some (New "database timeout")).
Definition fresh_delivery : Delivery := mkDelivery ∅ "books.v1.BookSold" "" "" 2 None "m-1" 1.
Definition poison_delivery : Delivery := mkDelivery ∅ "" "" "" 2 None "m-2" 2.
Definition receiver_start : broker * loc := (mkBroker 0 [] [fresh_delivery; poison_delivery], start).
Definition lot : ParkingLot.receiverOptions :=
  ParkingLot.configured ParkingLot.defaultReceiverOptions "books" "x".

(** The transient failure goes to the wait queue, the poison to the lot. *)
Example lot_run :
  dispositions (alog (ParkingLot.Receive lot text_unmarshal Background failing receiver_start).2.2)
  = [AReject 1 false None; AAck 2 None].
Proof. reflexivity. Qed.
Definition lot_spec : Spec := mkSpec "books" "books-x" 16 text_unmarshal true.
Definition lot_handler : cx → nat → Delivery → M (broker * loc) error :=
  Consume.handle Background lot_spec failing
    (λ ctx ch d dErr, e ← ParkingLot.doAcknowledge lot ctx ch d dErr; mret (wrapf "do acknowledge" <$> e)).
(** Both deliveries are handed over. *)
Example lot_handed :
  handed Background "books" "books-x" 16 lot_handler receiver_start =
  [(Background, O, fresh_delivery); (Background, O, poison_delivery)].
Proof. reflexivity. Qed.
Lemma parkinglot_settles_witness :
  ∃ ks, alog (ParkingLot.Receive lot text_unmarshal Background failing receiver_start).2.2 =
      alog receiver_start.2 ++ concat ks ∧
    Forall2 (λ '(gc, ch, d) k, ∃ r, settled gc (parking_policy lot ch d) lot_spec d r k)
      (handed Background "books" "books-x" 16 lot_handler receiver_start) ks.
Proof. apply (parkinglot_settles lot). reflexivity. Defined.

Definition canceled : cx := Cx (Some 0) (Sentinel Errors.Canceled) (Sentinel Errors.Canceled).
Lemma park_after_shutdown_witness :
  ∃ k, alog (ParkingLot.putIntoParkingLot lot canceled O poison_delivery receiver_start).2.2 =
      alog receiver_start.2 ++ k ∧
    (ParkingLot.putIntoParkingLot lot canceled O poison_delivery receiver_start).1 ≠ None ∧
    handshake_only k.
Proof.
  apply (park_after_shutdown lot); [reflexivity|]. intros w. cbn. unfold doneAt, canceled. cbn [cx_done].
  destruct (Z.leb_spec 0 (Z.of_nat (ticks w))); [reflexivity|lia].
Defined.

(** Another consumer's history: no entry names the queue of the first death. *)
Definition death_table : list (string * goval) :=
  [("queue", GString "other"); ("count", GInt64 3)]%string.
Definition looped_delivery : Delivery :=
  mkDelivery (<["x-death"%string := GList [GTable death_table]]>
    {["x-first-death-queue"%string := GString "origin"]}) "books.v1.BookSold" "" "" 2 None "m-3" 3.
Example looped_parks : (ParkingLot.hasExceededRetryCount lot looped_delivery receiver_start).1 = true.
Proof. reflexivity. Qed.

Definition plain : Plain.receiverOptions := Plain.configured Plain.defaultReceiverOptions "books" "x".
(** The transient failure is paced and requeued, the poison rejected. *)
Example plain_run :
  dispositions (alog (Plain.Receive plain text_unmarshal Background failing receiver_start).2.2)
  = [AReject 1 true None; AReject 2 false None].
Proof. reflexivity. Qed.
Definition plain_spec : Spec := mkSpec "books" "books-x" 16 text_unmarshal true.
Definition plain_handler : cx → nat → Delivery → M (broker * loc) error :=
  Consume.handle Background plain_spec failing (Plain.doAcknowledge plain).
Lemma plain_settles_witness :
  ∃ ks, alog (Plain.Receive plain text_unmarshal Background failing receiver_start).2.2 =
      alog receiver_start.2 ++ concat ks ∧
    Forall2 (λ '(gc, ch, d) k, ∃ r, settled gc (plain_policy plain d) plain_spec d r k)
      (handed Background "books" "books-x" 16 plain_handler receiver_start) ks.
Proof. apply (plain_settles plain). reflexivity. Defined.
