(* ===== verification/Binary.v ===== *)
(** * rabbitmq/message/contentmode/binary: events as AMQP headers

    The core attributes travel as headers of their own name space, the
    extensions as the other headers. *)
From S2P Require Import Prelude Errors GoLib Event Json Relay Amqp Consume.

Definition hdrSpecVersion : string := "cloudEvents:specversion".
Definition hdrID : string := "cloudEvents:id".
Definition hdrSource : string := "cloudEvents:source".
Definition hdrSubject : string := "cloudEvents:subject".
Definition hdrTime : string := "cloudEvents:time".
Definition hdrDataSchema : string := "cloudEvents:dataschema".

Definition unsendable (cause : list err) : err :=
  Errorf "extension" (Sentinel ErrUnsendable :: cause).

Section binary.
Context `{UrlLib} `{GoJson}.

(** The headers of the core attributes; [time.RFC3339Nano] is the layout of
    [rfc3339]. *)
Definition coreHeaders (meta : Metadata) : Table :=
  let h : Table := <[hdrSpecVersion := GString (SpecVersion meta)]>
             (<[hdrID := GString (ID meta)]> {[hdrSource := GString (Source meta)]}) in
  let h := if String.eqb (Subject meta) "" then h else <[hdrSubject := GString (Subject meta)]> h in
  let h := match DataSchema meta with
           | Some u => <[hdrDataSchema := GString (url_String u)]> h
           | None => h
           end in
  if Time meta =? 0 then h else <[hdrTime := GString (rfc3339 (Time meta))]> h.

(** The loop over the extensions, in the order the map yields them. *)
Fixpoint addExtensions (l : list (string * goval)) (headers : Table) : res Table :=
  match l with
  | [] => inl headers
  | (k, v) :: l =>
      if ReservedExtensionName k then inr (unsendable [])
      else match ValidExtensionValue v with
      | Some e => inr (unsendable [e])
      | None =>
          if ShortStrTooLong k then inr (unsendable [])
          else addExtensions l (<[k := v]> headers)
      end
  end.
Definition marshalMetadata (meta : Metadata) : res Table :=
  addExtensions (map_to_list (default ∅ (Extensions meta))) (coreHeaders meta).

Definition Marshal (md : Metadata) (data : option string) : res Publishing :=
  match marshalMetadata md with
  | inr e => inr e
  | inl headers =>
      if ShortStrTooLong (Type_ md)
      then inr (wrapf "event type is over the AMQP limit" (Sentinel ErrUnsendable))
      else inl (mkPublishing headers (Type_ md) (DataContentType md) "" 0 data)
  end.

Definition require (headers : Table) (key : string) : res string :=
  let '(v, ok) := HeaderString (headers !! key) in
  if ok then inl v else inr (New "required attribute is missing").

Definition brokerDeathHeader (k : string) : bool :=
  String.eqb k "x-death" || HasPrefix k "x-first-death-" || HasPrefix k "x-last-death-".
Definition isExtension (k : string) (v : goval) : bool :=
  negb (HasPrefix k BinaryAttrPrefix || ReservedExtensionName k) && negb (brokerDeathHeader k) &&
  isNil (ValidExtensionValue v).

Definition readSubject (headers : Table) : string := (HeaderString (headers !! hdrSubject)).1.
Definition readTime (headers : Table) : res Z :=
  let '(v, ok) := HeaderString (headers !! hdrTime) in
  if negb ok then inl 0
  else if String.eqb v "" then inr (New "attribute 'time' is present but empty")
  else ewrap "parse attribute 'time'" (parse3339 v).
Definition readSchema (headers : Table) : res (option url) :=
  let '(v, ok) := HeaderString (headers !! hdrDataSchema) in
  if ok && negb (String.eqb v "") then
    ewrap "parse attribute 'dataschema'" (emap Some (url_Parse v))
  else inl None.
(** The map the loop fills, nil until the first entry. *)
Definition readExtensions (headers : Table) : option (gmap string goval) :=
  let m := filter (λ kv, isExtension kv.1 kv.2 = true) headers in
  if decide (m = ∅) then None else Some m.

Definition unmarshalMetadata (d : Delivery) : res Metadata :=
  let h := DHeaders d in
  if String.eqb (DType d) "" then inr (New "required attribute 'type' is missing")
  else
    ebind (require h hdrSpecVersion) (λ specVersion,
    ebind (require h hdrID) (λ id,
    ebind (require h hdrSource) (λ source,
    ebind (readTime h) (λ time,
    ebind (readSchema h) (λ schema,
    inl (mkMetadata specVersion (DType d) source (readSubject h) id time (readExtensions h)
           schema (DContentType d))))))).
Definition Unmarshal (d : Delivery) : res (Metadata * option string) :=
  match unmarshalMetadata d with
  | inr e => inr (wrapf "parse amqp delivery" e)
  | inl md => inl (md, DBody d)
  end.
End binary.

(** ** Round trip

    [wire] is what the AMQP field encoding does to a header value: it keeps
    text, as a string or as bytes, and a scalar stays one (an int comes back as
    an int32, a time without its fraction). *)
Class Wire := {
  wire : goval → goval;
  wire_text s : HeaderString (Some (wire (GString s))) = (s, true);
  wire_scalar v : ValidExtensionValue v = None → ValidExtensionValue (wire v) = None }.

Section roundtrip.
Context `{UrlLib} `{GoJson} `{Wire}.

Definition delivered (p : Publishing) (id : string) (tag : Z) : Delivery :=
  mkDelivery (wire <$> PHeaders p) (PType p) (PContentType p) (PContentEncoding p)
    (PDeliveryMode p) (PBody p) id tag.

(** The names of the broker's dead-letter bookkeeping. *)
Definition death_name (k : string) : bool :=
  String.eqb k "x-death" || String.prefix "x-first-death-" k || String.prefix "x-last-death-" k.
Lemma prefix_HasPrefix p s : HasPrefix s p = String.prefix p s.
Proof.
  unfold HasPrefix. revert s. induction p as [|c p IH]; intros [|d s]; simpl; try done.
  rewrite <-IH. destruct (Ascii.eqb_spec c d), (Ascii.ascii_dec c d); congruence || done.
Qed.
Lemma brokerDeathHeader_names k : brokerDeathHeader k = death_name k.
Proof. unfold brokerDeathHeader, death_name. by rewrite !prefix_HasPrefix. Qed.

(** The metadata a subscriber gets: the extensions as the wire leaves them,
    less those the publisher named like the broker's dead-letter bookkeeping,
    which are lost; the schema in its parsed form. *)
Definition received (md : Metadata) : Metadata :=
  mkMetadata (SpecVersion md) (Type_ md) (Source md) (Subject md) (ID md) (Time md)
    (let m := filter (λ kv, death_name kv.1 = false) (wire <$> default ∅ (Extensions md)) in
     if decide (m = ∅) then None else Some m)
    (match DataSchema md with
     | Some u => if String.eqb (url_String u) "" then None else
                   match url_Parse (url_String u) with inl p => Some p | inr _ => None end
     | None => None
     end)
    (DataContentType md).

(** An extension an AMQP header cannot carry. *)
Definition uncarried (k : string) (v : goval) : Prop :=
  ReservedExtensionName k = true ∨ ValidExtensionValue v ≠ None ∨ ShortStrTooLong k = true.
Lemma addExtensions_cases l h :
  match addExtensions l h with
  | inl h' => Forall (λ kv, ReservedExtensionName kv.1 = false ∧
                       ValidExtensionValue kv.2 = None ∧ ShortStrTooLong kv.1 = false) l ∧
              (NoDup l.*1 → h' = list_to_map l ∪ h)
  | inr e => is_err e ErrUnsendable = true ∧ ∃ kv, kv ∈ l ∧ uncarried kv.1 kv.2
  end.
Proof.
  assert (Hin : ∀ k v l, uncarried k v → ∃ kv : string * goval, kv ∈ (k, v) :: l ∧ uncarried kv.1 kv.2).
  { intros k v l' Hu. exists (k, v). by split; [left|]. }
  revert h. induction l as [|[k v] l IH]; intros h; simpl.
  - split; [constructor|]. by rewrite (left_id_L ∅ (∪)).
  - destruct (ReservedExtensionName k) eqn:Hr; [split; [done|]; apply Hin; by left|].
    destruct (ValidExtensionValue v) eqn:Hv; [split; [done|]; apply Hin; right; left; by rewrite Hv|].
    destruct (ShortStrTooLong k) eqn:Hs; [split; [done|]; apply Hin; right; by right|].
    specialize (IH (<[k := v]> h)). destruct (addExtensions l _).
    2: { destruct IH as (? & kv & ? & ?). split; [done|]. exists kv. by split; [right|]. }
    destruct IH as [Hl Hm]. split; [by constructor|].
    intros [Hk Hnd]%NoDup_cons. rewrite (Hm Hnd). simpl.
    etrans; [symmetry; apply insert_union_r|apply insert_union_l].
    by apply not_elem_of_list_to_map_1.
Qed.

(** What a header of the marshaled event is. *)
Lemma coreHeaders_prefixed meta :
  map_Forall (λ k _, HasPrefix k BinaryAttrPrefix = true) (coreHeaders meta).
Proof.
  unfold coreHeaders. repeat case_match;
    repeat (apply map_Forall_insert_2; [done|]); apply map_Forall_empty.
Qed.
Lemma prefixed_reserved k : HasPrefix k BinaryAttrPrefix = true → ReservedExtensionName k = true.
Proof. unfold ReservedExtensionName. by intros ->. Qed.

Context (md : Metadata) (h : Table).
Context (Hh : h = default ∅ (Extensions md) ∪ coreHeaders md).
Context (Hext : map_Forall (λ k v, ReservedExtensionName k = false ∧ ValidExtensionValue v = None)
                  (default ∅ (Extensions md))).

Lemma header_core k :
  ReservedExtensionName k = true → h !! k = coreHeaders md !! k.
Proof.
  intros Hk. rewrite Hh. apply lookup_union_r. apply eq_None_not_Some. intros [v Hv].
  destruct (Hext k v Hv). congruence.
Qed.
Lemma header_text k s :
  ReservedExtensionName k = true → coreHeaders md !! k = Some (GString s) →
  HeaderString ((wire <$> h) !! k) = (s, true).
Proof. intros Hk Hs. rewrite lookup_fmap, header_core, Hs by done. apply wire_text. Qed.
Lemma header_absent k :
  ReservedExtensionName k = true → coreHeaders md !! k = None →
  HeaderString ((wire <$> h) !! k) = (""%string, false).
Proof. intros Hk Hs. by rewrite lookup_fmap, header_core, Hs by done. Qed.

Lemma readExtensions_received : readExtensions (wire <$> h) = Extensions (received md).
Proof.
  unfold readExtensions, received. cbn [Extensions].
  assert (Hm : filter (λ kv : string * goval, isExtension kv.1 kv.2 = true) (wire <$> h) =
    filter (λ kv : string * goval, death_name kv.1 = false) (wire <$> default ∅ (Extensions md))).
  { apply map_eq. intros k. apply option_eq. intros v.
    rewrite !map_lookup_filter_Some, !lookup_fmap_Some. unfold isExtension. simpl.
    rewrite brokerDeathHeader_names. split.
    - intros [(w & <- & Hw) Hk]. rewrite !andb_true_iff, !negb_true_iff, orb_false_iff in Hk.
      destruct Hk as [[[Hp Hr] Hd] Hv]. split; [|done]. exists w. split; [done|].
      rewrite Hh, lookup_union_Some_raw in Hw. destruct Hw as [Hw|[_ Hw]]; [done|].
      apply (coreHeaders_prefixed md) in Hw. congruence.
    - intros [(w & <- & Hw) Hd]. destruct (Hext k w Hw) as [Hr Hv]. split.
      + exists w. split; [done|]. rewrite Hh. by apply lookup_union_Some_l.
      + rewrite Hd, Hr, (wire_scalar _ Hv). simpl.
        destruct (HasPrefix k BinaryAttrPrefix) eqn:Hp; [|done].
        apply prefixed_reserved in Hp. congruence. }
  by rewrite Hm.
Qed.

(** The core attributes, looked up by their headers. *)
Lemma core_lookups :
  coreHeaders md !! hdrSpecVersion = Some (GString (SpecVersion md)) ∧
  coreHeaders md !! hdrID = Some (GString (ID md)) ∧
  coreHeaders md !! hdrSource = Some (GString (Source md)) ∧
  coreHeaders md !! hdrSubject =
    (if String.eqb (Subject md) "" then None else Some (GString (Subject md))) ∧
  coreHeaders md !! hdrDataSchema = (λ u, GString (url_String u)) <$> DataSchema md ∧
  coreHeaders md !! hdrTime =
    (if Time md =? 0 then None else Some (GString (rfc3339 (Time md)))).
Proof.
  unfold coreHeaders. destruct (String.eqb _ _), (DataSchema md), (_ =? _); split_and!; reflexivity.
Qed.
End roundtrip.

Section codec.
Context `{UrlLib} `{GoJson} `{Wire}.

Lemma received_all md :
  map_Forall (λ k _, death_name k = false) (default ∅ (Extensions md)) →
  default ∅ (Extensions (received md)) = wire <$> default ∅ (Extensions md).
Proof.
  intros Hd. unfold received. cbn [Extensions].
  rewrite (map_filter_id _ (wire <$> default ∅ (Extensions md))).
  - by destruct (decide _) as [->|].
  - intros k v (w & <- & Hw)%lookup_fmap_Some. by apply (Hd k w).
Qed.
Lemma Marshal_cases md data :
  match Marshal md data with
  | inl p => p = mkPublishing (default ∅ (Extensions md) ∪ coreHeaders md) (Type_ md)
                   (DataContentType md) "" 0 data ∧
      map_Forall (λ k v, ReservedExtensionName k = false ∧ ValidExtensionValue v = None)
        (default ∅ (Extensions md))
  | inr e => is_err e ErrUnsendable = true ∧
      (ShortStrTooLong (Type_ md) = true ∨ ∃ k v, default ∅ (Extensions md) !! k = Some v ∧ uncarried k v)
  end.
Proof.
  unfold Marshal, marshalMetadata. set (ext := default ∅ (Extensions md)).
  pose proof (addExtensions_cases (map_to_list ext) (coreHeaders md)) as Hc.
  destruct (addExtensions _ _) as [h|e].
  2: { destruct Hc as (He & [k v] & Hkv%elem_of_map_to_list & Hr). split; [done|]. right. by exists k, v. }
  destruct Hc as [Hl Hh].
  rewrite Hh, list_to_map_to_list by apply NoDup_fst_map_to_list.
  destruct (ShortStrTooLong (Type_ md)); [split; [done|by left]|]. split; [done|].
  intros k v Hkv%elem_of_map_to_list. rewrite Forall_forall in Hl. by destruct (Hl _ Hkv) as (?&?&_).
Qed.

(** C28: binary mode round-trips, on an event with a type, a year of four digits
    and a schema that parses. An event the marshaler accepts is read back by the
    unmarshaler from the delivery the broker makes of it, with the payload and
    every core attribute unchanged, the schema as its text parses, and the
    extensions as the wire leaves them, except that an extension the publisher
    named like the broker's dead-letter bookkeeping (x-death, or a name that
    starts with x-first-death- or x-last-death-) is accepted and lost; without
    such a name all of them arrive. An event is refused only as unsendable, so
    that a relay can park it, and only for a type too long for AMQP or an
    extension no header can carry. *)
Theorem binary_roundtrip md data id tag :
  Type_ md ≠ ""%string → year_ok (Time md) = true →
  (∀ u, DataSchema md = Some u → url_String u ≠ ""%string → ∃ p, url_Parse (url_String u) = inl p) →
  match Marshal md data with
  | inl p => Unmarshal (delivered p id tag) = inl (received md, data) ∧
      (map_Forall (λ k _, death_name k = false) (default ∅ (Extensions md)) →
       default ∅ (Extensions (received md)) = wire <$> default ∅ (Extensions md))
  | inr e => Is (Some e) ErrUnsendable = true ∧
      (ShortStrTooLong (Type_ md) = true ∨ ∃ k v, default ∅ (Extensions md) !! k = Some v ∧ uncarried k v)
  end.
Proof.
  intros Ht Hy Hu. pose proof (Marshal_cases md data) as Hm.
  destruct (Marshal md data) as [p|e]; [|done]. destruct Hm as [-> Hext].
  split; [|apply received_all].
  set (h := default ∅ (Extensions md) ∪ coreHeaders md) in *.
  destruct (core_lookups md) as (H1' & H2 & H3 & H4 & H5 & H6).
  pose proof (header_text md h eq_refl Hext) as Htext.
  pose proof (header_absent md h eq_refl Hext) as Habs.
  unfold Unmarshal, unmarshalMetadata. simpl.
  destruct (String.eqb_spec (Type_ md) ""); [done|].
  unfold require. rewrite (Htext hdrSpecVersion _ eq_refl H1'), (Htext hdrID _ eq_refl H2), (Htext hdrSource _ eq_refl H3).
  assert (Htime : readTime (wire <$> h) = inl (Time md)).
  { unfold readTime. destruct (Z.eqb_spec (Time md) 0) as [E|E].
    - by rewrite (Habs hdrTime eq_refl H6), E.
    - rewrite (Htext hdrTime _ eq_refl H6). simpl. pose proof (parse_format _ Hy) as Hp.
      destruct (String.eqb_spec (rfc3339 (Time md)) "") as [E'|]; [|by rewrite Hp].
      rewrite E' in Hp. by destruct (parse_empty (Time md)). }
  assert (Hsub : readSubject (wire <$> h) = Subject md).
  { unfold readSubject. destruct (String.eqb_spec (Subject md) "") as [E|E].
    - by rewrite (Habs hdrSubject eq_refl H4).
    - by rewrite (Htext hdrSubject _ eq_refl H4). }
  assert (Hsch : readSchema (wire <$> h) = inl (DataSchema (received md))).
  { unfold readSchema. simpl. destruct (DataSchema md) as [u|].
    - rewrite (Htext hdrDataSchema _ eq_refl H5). simpl. destruct (String.eqb_spec (url_String u) ""); [done|].
      destruct (Hu u eq_refl) as [p Hp]; [done|]. by rewrite Hp.
    - by rewrite (Habs hdrDataSchema eq_refl H5). }
  rewrite (readExtensions_received md h eq_refl Hext). simpl. by rewrite Htime, Hsch, Hsub.
Qed.

(** A publisher's own extension can still be lost: a name of the dead-letter
    family passes every publish-time rule, and is dropped on receipt. *)
Lemma death_name_dropped :
  let k := "x-first-death-tenant"%string in
  ReservedExtensionName k = false ∧ ShortStrTooLong k = false ∧ isExtension k (GString "acme") = false.
Proof. by vm_compute. Qed.
End codec.
