(* ===== verification/Structured.v ===== *)
(** * rabbitmq/message/contentmode/structured: events as JSON envelopes

    The codec is github.com/json-iterator/go: [JsonIter] has the calls the
    marshaler makes, on JSON texts, and [JsonIterLaws] what it relies on of
    them. The payload travels as raw JSON text. *)
From S2P Require Import Prelude Errors GoLib Event Json Relay Scenario Amqp Consume Binary.

(** A value of the envelope before encoding: a string, raw JSON text, or an
    extension. *)
Inductive dtoval := DString (s : string) | DRaw (text : string) | DAny (v : goval).
Class JsonIter := {
  json_Valid : string → bool;
  json_Marshal : gmap string dtoval → res string;
  json_Unmarshal : string → res (gmap string string);     (* into map[string]RawMessage *)
  json_UnmarshalString : string → res string;
  json_UnmarshalAny : string → res goval }.

Definition errNotAString : sentinel := ErrOther "structured.errNotAString".
Definition bytesOf (data : option string) : string := default ""%string data.

(** The raw messages of a decoded envelope. *)
#[local] Abbreviation dto := (gmap string string).

Section structured.
Context `{UrlLib} `{GoJson} `{JsonIter}.

Definition coreDto (md : Metadata) (payload : string) : gmap string dtoval :=
  let dto : gmap string dtoval :=
    <["specversion"%string := DString (SpecVersion md)]> (<["id"%string := DString (ID md)]>
    (<["type"%string := DString (Type_ md)]> (<["source"%string := DString (Source md)]>
    {["data"%string := DRaw payload]}))) in
  let dto := if String.eqb (DataContentType md) "" then dto
             else <["datacontenttype"%string := DString (DataContentType md)]> dto in
  let dto := match DataSchema md with
             | Some u => <["dataschema"%string := DString (url_String u)]> dto
             | None => dto
             end in
  let dto := if String.eqb (Subject md) "" then dto else <["subject"%string := DString (Subject md)]> dto in
  if Time md =? 0 then dto else <["time"%string := DString (rfc3339 (Time md))]> dto.
Fixpoint addDto (l : list (string * goval)) (dto : gmap string dtoval) : res (gmap string dtoval) :=
  match l with
  | [] => inl dto
  | (k, v) :: l =>
      if ReservedExtensionName k then inr (unsendable []) else addDto l (<[k := DAny v]> dto)
  end.

Definition SMarshal (md : Metadata) (data : option string) : res Publishing :=
  let text := bytesOf data in
  if (0 <? len text) && negb (json_Valid text)
  then inr (wrapf "payload is not valid JSON" (Sentinel ErrUnsendable))
  else
    let payload := if len text =? 0 then "null"%string else text in
    match addDto (map_to_list (default ∅ (Extensions md))) (coreDto md payload) with
    | inr e => inr e
    | inl dto =>
        match json_Marshal dto with
        | inr e => inr (wrapf "marshal cloudevents envelope" e)
        | inl body => inl (mkPublishing ∅ (Type_ md) (DataContentType md) "" 0 (Some body))
        end
    end.

Definition decodeString (raw : string) : res string :=
  let trimmed := TrimSpace raw in
  if String.eqb trimmed "" || String.eqb trimmed "null" then inr (Sentinel errNotAString)
  else match trimmed with
  | String c _ =>
      if byte c =? 34 then ewrap "must be a string" (json_UnmarshalString trimmed)
      else if (byte c =? 123) || (byte c =? 91)
      then inr (New "must be a string, got an object or array")
      else inl trimmed
  | EmptyString => inr (Sentinel errNotAString)
  end.

(** The decoder consumes what it reads: each read returns the rest. *)
Definition srequire (d : dto) (key : string) : res (string * dto) :=
  match d !! key with
  | None => inr (New "required attribute is missing")
  | Some raw => ewrap "required attribute" (emap (λ v, (v, delete key d)) (decodeString raw))
  end.
Definition optional (d : dto) (key : string) : res (option string * dto) :=
  match d !! key with
  | None => inl (None, d)
  | Some raw =>
      let d := delete key d in
      match decodeString raw with
      | inr e => if is_err e errNotAString then inl (None, d) else inr (wrapf "attribute" e)
      | inl value => inl (if String.eqb value "" then None else Some value, d)
      end
  end.
(** The stricter treatment of time: only null is absent. *)
Definition stime (d : dto) : res (Z * dto) :=
  match d !! "time"%string with
  | None => inl (0, d)
  | Some raw =>
      let d := delete "time"%string d in
      match decodeString raw with
      | inr e => if is_err e errNotAString then inl (0, d) else inr (wrapf "attribute 'time'" e)
      | inl v => ewrap "parse attribute 'time'" (emap (λ t, (t, d)) (parse3339 v))
      end
  end.
Fixpoint anys (l : list (string * string)) : res (gmap string goval) :=
  match l with
  | [] => inl ∅
  | (k, raw) :: l =>
      ebind (ewrap "unmarshal extension attribute" (json_UnmarshalAny raw)) (λ v,
      emap <[k := v]> (anys l))
  end.
Definition rest (d : dto) : res (option (gmap string goval)) :=
  if decide (d = ∅) then inl None else emap Some (anys (map_to_list d)).

Definition SUnmarshal (d : Delivery) : res (Metadata * option string) :=
  ebind (ewrap "unmarshal cloudevents envelope" (json_Unmarshal (bytesOf (DBody d)))) (λ m,
  ebind (srequire m "specversion") (λ '(specVersion, m),
  ebind (srequire m "type") (λ '(type_, m),
  ebind (srequire m "id") (λ '(id, m),
  ebind (srequire m "source") (λ '(source, m),
  ebind (optional m "subject") (λ '(subject, m),
  ebind (stime m) (λ '(time, m),
  ebind (optional m "dataschema") (λ '(dataSchema, m),
  ebind (match dataSchema with
         | None => inl None
         | Some s => ewrap "parse attribute 'dataschema'" (emap Some (url_Parse s))
         end) (λ schema,
  ebind (optional m "datacontenttype") (λ '(dataContentType, m),
  match m !! "data"%string with
  | None => inr (New "required attribute 'data' is missing")
  | Some rawData =>
      ebind (rest (delete "data"%string m)) (λ ext,
      inl (mkMetadata specVersion type_ source (default ""%string subject) id time ext schema
             (default ""%string dataContentType), Some rawData))
  end)))))))))).

(** ** message/marshaler.go *)
Context `{Unicode}.
Definition isStructured (contentType : string) : bool :=
  let '(mode, subtype, ok) := ParseContentType contentType in
  ok && bool_decide (mode = StructuredMode) && String.eqb subtype "json".
Definition MMarshal (md : Metadata) (data : option string) : res Publishing :=
  if isStructured (DataContentType md) then SMarshal md data else Marshal md data.
Definition MUnmarshal (d : Delivery) : res (Metadata * option string) :=
  if isStructured (DContentType d) then SUnmarshal d else Unmarshal d.
End structured.

(** ** Round trip

    What json-iterator does with a document whose parts are JSON: well-formed
    keys and strings, valid raw text, extension values publish-time validation
    accepts. (A nil byte slice is not told from an empty one here and is written
    as null, so an empty one is left out.) The object comes back key by key: a
    string as a string, raw text as the same text up to the white space around
    it, but null as an empty raw message, and an extension as the value [reread]
    says. Of other documents, which the encoder may write without an error and
    nobody can decode, nothing is said. *)
Definition plain_value (v : goval) : Prop := ValidExtensionValue v = None ∧ v ≠ GBytes "".
Definition json_part `{JsonIter} (x : dtoval) : Prop :=
  match x with
  | DString s => Valid s
  | DRaw x => json_Valid x = true
  | DAny v => plain_value v
  end.
(** The text a raw JSON text is decoded to, less the space around it. *)
Definition raw_read (x : string) : string :=
  if String.eqb (TrimSpace x) "null" then ""%string else TrimSpace x.
Class JsonIterLaws `{JsonIter} := {
  json_Valid_null : json_Valid "null" = true;
  reread : goval → goval;
  json_reads (x : dtoval) (t : string) : Prop :=
    match x with
    | DString s => ∃ q, TrimSpace t = String (ascii_of_nat 34) q ∧ json_UnmarshalString (TrimSpace t) = inl s
    | DRaw x => TrimSpace t = raw_read x
    | DAny v => json_UnmarshalAny t = inl (reread v)
    end;
  json_roundtrip dto b : map_Forall (λ k x, Valid k ∧ json_part x) dto → json_Marshal dto = inl b →
    ∃ texts : gmap string string, json_Unmarshal b = inl texts ∧ ∀ k,
      match dto !! k, texts !! k with
      | None, None => True
      | Some x, Some t => json_reads x t
      | _, _ => False
      end }.

Section roundtrip.
Context `{UrlLib} `{GoJson} `{JsonIterLaws}.

Definition payloadText (data : option string) : string :=
  if len (bytesOf data) =? 0 then "null"%string else bytesOf data.
Definition sreceived (md : Metadata) : Metadata :=
  mkMetadata (SpecVersion md) (Type_ md) (Source md) (Subject md) (ID md) (Time md)
    (let m : gmap string goval := reread <$> default ∅ (Extensions md) in
     if decide (m = ∅) then None else Some m)
    (match DataSchema md with
     | Some u => if String.eqb (url_String u) "" then None else
                   match url_Parse (url_String u) with inl p => Some p | inr _ => None end
     | None => None
     end)
    (DataContentType md).

Lemma addDto_cases l (m : gmap string dtoval) :
  match addDto l m with
  | inl m' => Forall (λ kv, ReservedExtensionName kv.1 = false) l ∧
              (NoDup l.*1 → m' = list_to_map (prod_map id DAny <$> l) ∪ m)
  | inr e => is_err e ErrUnsendable = true ∧ ∃ kv, kv ∈ l ∧ ReservedExtensionName kv.1 = true
  end.
Proof.
  revert m. induction l as [|[k v] l IH]; intros m; simpl.
  - split; [constructor|]. by rewrite (left_id_L ∅ (∪)).
  - destruct (ReservedExtensionName k) eqn:Hr; [split; [done|]; exists (k, v); by split; [left|]|].
    specialize (IH (<[k := DAny v]> m)). destruct (addDto l _).
    2: { destruct IH as (? & kv & ? & ?). split; [done|]. exists kv. by split; [right|]. }
    destruct IH as [Hl Hm]. split; [by constructor|]. intros [Hk Hnd]%NoDup_cons.
    rewrite (Hm Hnd). etrans; [symmetry; apply insert_union_r|apply insert_union_l].
    apply not_elem_of_list_to_map_1. contradict Hk. by rewrite <-list_fmap_compose in Hk.
Qed.

Lemma anys_spec (l : list (string * string)) (g : string → goval) :
  (∀ k t, (k, t) ∈ l → json_UnmarshalAny t = inl (g k)) →
  anys l = inl (list_to_map ((λ kv, (kv.1, g kv.1)) <$> l)).
Proof.
  induction l as [|[k t] l IH]; intros Hl; simpl; [done|].
  rewrite (Hl k t) by by left. simpl. rewrite IH; [done|]. intros k' t' Hk. apply Hl. by right.
Qed.

(** The reads of one document whose core keys hold [md]. *)
Context (md : Metadata) (data : option string) (texts : gmap string string).
Let ext : gmap string goval := default ∅ (Extensions md).
Context (Hext : ∀ k v, ext !! k = Some v → ReservedExtensionName k = false).
Context (Htexts : ∀ k,
  match ((DAny <$> ext) ∪ coreDto md (payloadText data)) !! k, texts !! k with
  | None, None => True
  | Some x, Some t => json_reads x t
  | _, _ => False
  end).

Lemma core_key k :
  ReservedExtensionName k = true →
  ((DAny <$> ext) ∪ coreDto md (payloadText data)) !! k = coreDto md (payloadText data) !! k.
Proof.
  intros Hk. apply lookup_union_r. rewrite lookup_fmap. destruct (ext !! k) eqn:E; [|done].
  apply Hext in E. congruence.
Qed.
Lemma text_key k s :
  ReservedExtensionName k = true → coreDto md (payloadText data) !! k = Some (DString s) →
  ∃ t, texts !! k = Some t ∧ decodeString t = inl s.
Proof.
  intros Hk Hs. pose proof (Htexts k) as Ht. rewrite core_key, Hs in Ht by done.
  destruct (texts !! k) as [t|]; [|done]. exists t. split; [done|].
  destruct Ht as (q & Hq & Hd). unfold decodeString. rewrite Hd, Hq. simpl. done.
Qed.
Lemma absent_key k :
  ReservedExtensionName k = true → coreDto md (payloadText data) !! k = None → texts !! k = None.
Proof.
  intros Hk Hs. pose proof (Htexts k) as Ht. rewrite core_key, Hs in Ht by done.
  by destruct (texts !! k).
Qed.

Lemma dto_lookups :
  let d := coreDto md (payloadText data) in
  d !! "specversion"%string = Some (DString (SpecVersion md)) ∧
  d !! "type"%string = Some (DString (Type_ md)) ∧
  d !! "id"%string = Some (DString (ID md)) ∧
  d !! "source"%string = Some (DString (Source md)) ∧
  d !! "data"%string = Some (DRaw (payloadText data)) ∧
  d !! "subject"%string = (if String.eqb (Subject md) "" then None else Some (DString (Subject md))) ∧
  d !! "datacontenttype"%string =
    (if String.eqb (DataContentType md) "" then None else Some (DString (DataContentType md))) ∧
  d !! "dataschema"%string = (λ u, DString (url_String u)) <$> DataSchema md ∧
  d !! "time"%string = (if Time md =? 0 then None else Some (DString (rfc3339 (Time md)))).
Proof.
  simpl. unfold coreDto.
  destruct (String.eqb (Subject md) ""), (String.eqb (DataContentType md) ""), (DataSchema md), (_ =? _);
    split_and!; reflexivity.
Qed.
Lemma dto_reserved k v : coreDto md (payloadText data) !! k = Some v →
  k ∈ ["specversion"; "type"; "id"; "source"; "data"; "subject"; "datacontenttype"; "dataschema";
       "time"]%string.
Proof.
  revert k v. change (map_Forall (λ k _, k ∈ ["specversion"; "type"; "id"; "source"; "data"; "subject";
    "datacontenttype"; "dataschema"; "time"]%string) (coreDto md (payloadText data))).
  unfold coreDto. destruct (String.eqb (Subject md) ""), (String.eqb (DataContentType md) ""),
    (DataSchema md), (_ =? _);
    repeat (apply map_Forall_insert_2; [by repeat constructor|]); apply map_Forall_empty.
Qed.

(** An attribute that is there unless it is empty. *)
Definition spelled (d : dto) (key s : string) : Prop :=
  if String.eqb s "" then d !! key = None else ∃ t, d !! key = Some t ∧ decodeString t = inl s.
Lemma optional_spelled d key s :
  spelled d key s →
  optional d key = inl (if String.eqb s "" then None else Some s, delete key d).
Proof.
  unfold spelled, optional. destruct (String.eqb_spec s "") as [->|Hs].
  - intros Hk. by rewrite Hk, delete_id.
  - intros (t & -> & ->). by destruct (String.eqb_spec s "").
Qed.
Lemma srequire_spelled d key t s :
  d !! key = Some t → decodeString t = inl s → srequire d key = inl (s, delete key d).
Proof. unfold srequire. by intros -> ->. Qed.

(** The typed reads, on what earlier reads left of the document. *)
Lemma optional_key d key s :
  ReservedExtensionName key = true →
  coreDto md (payloadText data) !! key = (if String.eqb s "" then None else Some (DString s)) →
  d !! key = texts !! key →
  optional d key = inl (if String.eqb s "" then None else Some s, delete key d).
Proof.
  intros Hk Hs Hd. apply optional_spelled. unfold spelled. rewrite Hd.
  destruct (String.eqb_spec s ""); [by apply absent_key|by apply text_key].
Qed.
Lemma srequire_key d key s :
  ReservedExtensionName key = true → coreDto md (payloadText data) !! key = Some (DString s) →
  d !! key = texts !! key → srequire d key = inl (s, delete key d).
Proof.
  intros Hk Hs Hd. destruct (text_key key s Hk Hs) as (t & Ht & Hdt).
  eapply srequire_spelled; [|done]. by rewrite Hd.
Qed.
Lemma stime_key (d : dto) :
  year_ok (Time md) = true →
  d !! "time"%string = texts !! "time"%string → stime d = inl (Time md, delete "time"%string d).
Proof.
  intros Hy Hd. destruct dto_lookups as (_&_&_&_&_&_&_&_&Ht).
  unfold stime. rewrite Hd. destruct (Z.eqb_spec (Time md) 0) as [E|E].
  - rewrite (absent_key "time" eq_refl Ht), E, delete_id; [done|].
    by rewrite Hd, (absent_key "time" eq_refl Ht).
  - destruct (text_key "time" _ eq_refl Ht) as (t & -> & ->). by rewrite (parse_format _ Hy).
Qed.
Lemma schema_key (d : dto) :
  (∀ u, DataSchema md = Some u → url_String u ≠ ""%string → ∃ p, url_Parse (url_String u) = inl p) →
  d !! "dataschema"%string = texts !! "dataschema"%string →
  ∃ s, optional d "dataschema" = inl (s, delete "dataschema"%string d) ∧
    match s with
    | None => inl None
    | Some s => ewrap "parse attribute 'dataschema'" (emap Some (url_Parse s))
    end = inl (DataSchema (sreceived md)).
Proof.
  intros Hu Hd. destruct dto_lookups as (_&_&_&_&_&_&_&Hs&_). unfold sreceived. simpl.
  destruct (DataSchema md) as [u|]; simpl in Hs.
  - destruct (text_key "dataschema" _ eq_refl Hs) as (t & Ht & Hdt).
    exists (if String.eqb (url_String u) "" then None else Some (url_String u)).
    unfold optional. rewrite Hd, Ht, Hdt. split; [done|].
    destruct (String.eqb_spec (url_String u) ""); [done|]. destruct (Hu u eq_refl) as [p Hp]; [done|]. by rewrite Hp.
  - exists None. unfold optional. rewrite Hd, (absent_key "dataschema" eq_refl Hs). split; [|done].
    rewrite delete_id; [done|]. by rewrite Hd, (absent_key "dataschema" eq_refl Hs).
Qed.

Definition leftover : dto :=
  delete "data" (delete "datacontenttype" (delete "dataschema" (delete "time" (delete "subject"
    (delete "source" (delete "id" (delete "type" (delete "specversion" texts)))))))).
Lemma leftover_ext k :
  match ext !! k, leftover !! k with
  | Some v, Some t => json_UnmarshalAny t = inl (reread v)
  | None, None => True
  | _, _ => False
  end.
Proof.
  unfold leftover. destruct (ext !! k) as [v|] eqn:Hk.
  - pose proof (Hext k v Hk) as Hr.
    rewrite !lookup_delete_ne by (intros <-; discriminate Hr).
    pose proof (Htexts k) as Ht. rewrite (lookup_union_Some_l _ _ k (DAny v)) in Ht; [done|].
    by rewrite lookup_fmap, Hk.
  - repeat match goal with |- context [delete ?a _ !! k] =>
      destruct (decide (a = k)) as [<-|?]; [rewrite lookup_delete_eq|rewrite lookup_delete_ne by done] end;
      try done.
    pose proof (Htexts k) as Ht. destruct (texts !! k); [|done].
    rewrite lookup_union_r in Ht by by rewrite lookup_fmap, Hk.
    destruct (coreDto md _ !! k) as [x|] eqn:Hc; [|done]. apply dto_reserved in Hc.
    rewrite !elem_of_cons, elem_of_nil in Hc. naive_solver.
Qed.
Lemma rest_received : rest leftover = inl (Extensions (sreceived md)).
Proof.
  set (g k := reread (default GNil (ext !! k))).
  assert (Hany : anys (map_to_list leftover) = inl (reread <$> ext)).
  { rewrite (anys_spec _ g).
    - f_equal. apply map_eq. intros k. rewrite lookup_fmap.
      change ((λ kv, (kv.1, g kv.1)) <$> map_to_list leftover) with
        ((λ kv : string * string, (kv.1, g kv.1)) <$> map_to_list leftover).
      apply option_eq. intros v. rewrite <-elem_of_list_to_map.
      + rewrite list_elem_of_fmap. pose proof (leftover_ext k) as Hk. split.
        * intros ([k' t] & [= -> ->] & Ht%elem_of_map_to_list). simpl in *. rewrite Ht in Hk.
          unfold g. by destruct (ext !! k') as [w|].
        * destruct (ext !! k) as [w|] eqn:Hw; [|done]. intros [= <-].
          destruct (leftover !! k) as [t|] eqn:Ht; [|done]. exists (k, t). simpl.
          unfold g. rewrite Hw. split; [done|]. by apply elem_of_map_to_list.
      + rewrite <-list_fmap_compose. apply (NoDup_fst_map_to_list leftover).
    - intros k t Ht%elem_of_map_to_list. pose proof (leftover_ext k) as Hk. rewrite Ht in Hk.
      unfold g. by destruct (ext !! k). }
  unfold rest, sreceived. cbn [Extensions]. rewrite Hany. fold ext.
  destruct (decide (leftover = ∅)) as [E|E], (decide (reread <$> ext = ∅)) as [E'|E']; simpl; try done.
  - contradict E'. apply map_eq. intros k. pose proof (leftover_ext k) as Hk.
    rewrite E, lookup_empty in Hk. rewrite lookup_fmap, lookup_empty. by destruct (ext !! k).
  - contradict E. apply map_eq. intros k. pose proof (leftover_ext k) as Hk.
    assert (Hn : ext !! k = None).
    { apply (f_equal (.!! k)) in E'. rewrite lookup_fmap, lookup_empty in E'. by destruct (ext !! k). }
    rewrite Hn in Hk. rewrite lookup_empty. by destruct (leftover !! k).
Qed.
End roundtrip.

Section codec.
Context `{UrlLib} `{GoJson} `{JsonIterLaws}.

(** The document of an event. *)
Definition document (md : Metadata) (data : option string) : gmap string dtoval :=
  (DAny <$> (default ∅ (Extensions md) : gmap string goval)) ∪ coreDto md (payloadText data).
(** What makes an event unsendable in this mode: a payload that is no JSON, or an
    extension with a reserved name. *)
Definition refused (md : Metadata) (data : option string) : Prop :=
  bytesOf data ≠ ""%string ∧ json_Valid (bytesOf data) = false ∨
  ∃ k v, default ∅ (Extensions md) !! k = Some v ∧ ReservedExtensionName k = true.

Lemma len_zero s : len s = 0 ↔ s = ""%string.
Proof. unfold len. destruct s; simpl; split; intros; done || lia. Qed.
Lemma SMarshal_cases md data :
  match SMarshal md data with
  | inl p => ∃ b, PBody p = Some b ∧ json_Marshal (document md data) = inl b ∧
      json_Valid (payloadText data) = true ∧
      ∀ k v, (default ∅ (Extensions md) : gmap string goval) !! k = Some v →
        ReservedExtensionName k = false
  | inr e => is_err e ErrUnsendable = true ∧ refused md data ∨
      ∃ e', json_Marshal (document md data) = inr e' ∧ e = wrapf "marshal cloudevents envelope" e'
  end.
Proof.
  unfold SMarshal. fold (payloadText data). destruct (_ && negb _) eqn:Eg.
  { left. split; [done|]. left. apply andb_true_iff in Eg as [El Ev]. split; [|by apply negb_true_iff].
    intros E. by rewrite E in El. }
  assert (Hv : json_Valid (payloadText data) = true).
  { unfold payloadText. destruct (Z.eqb_spec (len (bytesOf data)) 0); [apply json_Valid_null|].
    destruct (Z.ltb_spec 0 (len (bytesOf data))); [|unfold len in *; lia]. simpl in Eg.
    by apply negb_false_iff in Eg. }
  set (ext := default ∅ (Extensions md)).
  pose proof (addDto_cases (map_to_list ext) (coreDto md (payloadText data))) as Hc.
  destruct (addDto _ _) as [m|e].
  2: { left. destruct Hc as (He & [k v] & Hkv%elem_of_map_to_list & Hr). split; [done|]. right. by exists k, v. }
  destruct Hc as [Hl Hm]. rewrite Hm by apply NoDup_fst_map_to_list.
  assert (Hx : list_to_map (prod_map id DAny <$> map_to_list ext) = DAny <$> ext).
  { by rewrite list_to_map_fmap, list_to_map_to_list. }
  rewrite Hx. unfold document. fold ext. destruct (json_Marshal _) as [b|e] eqn:Hb; [|right; eauto].
  exists b. split_and!; [done|done|done|]. intros k v Hkv%elem_of_map_to_list.
  rewrite Forall_forall in Hl. by apply (Hl _ Hkv).
Qed.

(** An event all of whose texts are well-formed, with a year of four digits, a
    schema that parses, and extensions as publish-time validation wants them. *)
Record well_formed (md : Metadata) : Prop := {
  wf_texts : Forall Valid ([SpecVersion md; Type_ md; Source md; Subject md; ID md; DataContentType md;
    rfc3339 (Time md)] ++ match DataSchema md with Some u => [url_String u] | None => [] end);
  wf_year : year_ok (Time md) = true;
  wf_schema : ∀ u, DataSchema md = Some u → url_String u ≠ ""%string →
    ∃ p, url_Parse (url_String u) = inl p;
  wf_ext : map_Forall (λ k v, Valid k ∧ plain_value v) (default ∅ (Extensions md)) }.
Lemma document_parts md data :
  well_formed md → json_Valid (payloadText data) = true →
  map_Forall (λ k x, Valid k ∧ json_part x) (document md data).
Proof.
  intros [Hv _ _ He] Hp. simpl in Hv. rewrite !Forall_cons in Hv. destruct Hv as (V1 & V2 & V3 & V4 & V5 & V6 & V7 & V8).
  unfold document. apply map_Forall_union_2.
  { intros k x Hx. apply lookup_fmap_Some in Hx as (v & <- & Hkv). by destruct (He k v Hkv). }
  unfold coreDto. destruct (String.eqb (DataContentType md) ""), (DataSchema md), (String.eqb (Subject md) ""),
    (Time md =? 0); try rewrite Forall_singleton in V8;
    repeat (apply map_Forall_insert_2; [by split|]); apply map_Forall_empty.
Qed.

End codec.
