(* ===== verification/CodecDemo.v ===== *)
(** * A concrete wire and envelope codec, and the witnesses of the marshalers *)
From S2P Require Import Prelude Errors GoLib Event Json Bound Relay Scenario Amqp Consume Binary Structured.

(** An AMQP codec that loses nothing. *)
#[export] Instance faithful_wire : Wire := {| wire v := v; wire_text s := eq_refl; wire_scalar v Hv := Hv |}.

Definition sale : Metadata :=
  mkMetadata "1.0" "books.v1.BookSold" "books" "" "id-1" Second
    (Some {["tenant"%string := GString "acme"; "x-last-death-note"%string := GString "lost"]})
    None "application/proto".
Lemma binary_roundtrip_witness :
  match Marshal sale (Some "payload"%string) with
  | inl p => Unmarshal (delivered p "m-1" 1) = inl (received sale, Some "payload"%string) ∧
      (map_Forall (λ k _, death_name k = false) (default ∅ (Extensions sale)) →
       default ∅ (Extensions (received sale)) = wire <$> default ∅ (Extensions sale))
  | inr e => Is (Some e) ErrUnsendable = true ∧
      (ShortStrTooLong (Type_ sale) = true ∨
       ∃ k v, default ∅ (Extensions sale) !! k = Some v ∧ uncarried k v)
  end.
Proof. apply (binary_roundtrip sale (Some "payload"%string) "m-1" 1); [discriminate|reflexivity|discriminate]. Defined.
(** The sale is accepted, and the extension with a dead-letter name is gone. *)
Example sale_received :
  match Marshal sale None with
  | inl p => match Unmarshal (delivered p "m-1" 1) with
             | inl (md, _) => map_to_list (default ∅ (Extensions md)) = [("tenant"%string, GString "acme")]
             | inr _ => False
             end
  | inr _ => False
  end.
Proof. by vm_compute. Qed.

(** ** An envelope codec: length-prefixed fields *)
Fixpoint ones (n : nat) (s : string) : string :=
  match n with O => String "0" s | S n => String "1" (ones n s) end.
Definition frame (s rest : string) : string := ones (String.length s) (s +:+ rest).
Fixpoint count (s : string) : option (nat * string) :=
  match s with
  | String "0" s => Some (O, s)
  | String "1" s => match count s with Some (n, s) => Some (S n, s) | None => None end
  | _ => None
  end.
Definition unframe (s : string) : option (string * string) :=
  match count s with Some (n, s) => Some (sfirst n s, sskip n s) | None => None end.
Lemma count_ones n s : count (ones n s) = Some (n, s).
Proof. induction n; simpl; [done|]. by rewrite IHn. Qed.
Lemma unframe_frame s t : unframe (frame s t) = Some (s, t).
Proof. unfold unframe, frame. by rewrite count_ones, sfirst_app, sskip_app. Qed.

Fixpoint frames (l : list (string * string)) : string :=
  match l with [] => "" | (k, t) :: l => frame k (frame t (frames l)) end.
Fixpoint unframes (n : nat) (s : string) : list (string * string) :=
  match n with
  | O => []
  | S n =>
      match unframe s with
      | Some (k, s) => match unframe s with Some (t, s) => (k, t) :: unframes n s | None => [] end
      | None => []
      end
  end.
Lemma length_frame s t : (String.length t < String.length (frame s t))%nat.
Proof.
  unfold frame. cut (∀ n u, (String.length u < String.length (ones n u))%nat).
  { intros Hn. specialize (Hn (String.length s) (s +:+ t)). rewrite slength_app in Hn. lia. }
  intros n u. induction n; simpl; lia.
Qed.
Lemma unframes_frames l n : (String.length (frames l) <= n)%nat → unframes n (frames l) = l.
Proof.
  revert n. induction l as [|[k t] l IH]; intros n Hn; simpl in *.
  - by destruct n.
  - pose proof (length_frame k (frame t (frames l))). pose proof (length_frame t (frames l)).
    destruct n as [|n]; [lia|]. simpl. rewrite !unframe_frame, IH; [done|lia].
Qed.

(** Strings between quotes, as long as nothing is trimmed; of the extensions,
    the strings. *)
Definition quoted (s : string) : string := String (ascii_of_nat 34) (s +:+ String (ascii_of_nat 34) "").
Definition dtext (v : dtoval) : option string :=
  match v with
  | DString s => if String.eqb (TrimSpace (quoted s)) (quoted s) then Some (quoted s) else None
  | DRaw t => Some t
  | DAny (GString s) => if String.eqb (TrimSpace (quoted s)) (quoted s) then Some (quoted s) else None
  | DAny _ => None
  end.
Definition unquote (t : string) : string :=
  match t with
  | String _ t => sfirst (String.length t - 1) t
  | EmptyString => ""
  end.
(** Null is decoded to nothing. *)
Definition raw (t : string) : string := if String.eqb (TrimSpace t) "null" then "" else t.
#[export] Instance framed_json : JsonIter := {|
  json_Valid t := negb (String.eqb (TrimSpace t) "");
  json_Marshal m :=
    match mapM (M := option) (λ kv, (λ t, (kv.1, t)) <$> dtext kv.2) (map_to_list m) with
    | Some l => inl (frames l)
    | None => inr (New "unsupported value")
    end;
  json_Unmarshal b := inl (raw <$> list_to_map (M := gmap string string) (unframes (String.length b) b));
  json_UnmarshalString t := inl (unquote t);
  json_UnmarshalAny t := inl (GString (unquote t)) |}.
Lemma unquote_quoted s : unquote (quoted s) = s.
Proof.
  unfold unquote, quoted. rewrite slength_app. simpl.
  replace (String.length s + 1 - 1)%nat with (String.length s) by lia. apply sfirst_app.
Qed.
Lemma raw_quoted s : TrimSpace (quoted s) = quoted s → raw (quoted s) = quoted s.
Proof. intros E. unfold raw. by rewrite E. Qed.
#[export] Instance framed_laws : JsonIterLaws.
Proof.
  refine {| reread v := v |}; [done|]. intros m b _. unfold json_Marshal, json_Unmarshal. simpl.
  destruct (mapM _ (map_to_list m)) as [l|] eqn:Hl; [|done]. intros [= <-].
  eexists. split; [done|]. rewrite unframes_frames by done. apply mapM_Some in Hl.
  assert (Hfst : l.*1 = (map_to_list m).*1).
  { clear -Hl. induction Hl as [|[k v] [k' t] ?? Hx _ IH]; simpl; [done|].
    cbn in Hx. destruct (dtext v); [|done]. injection Hx as -> ->. f_equal. exact IH. }
  intros k. rewrite lookup_fmap. destruct (m !! k) as [v|] eqn:Hk.
  - apply elem_of_map_to_list in Hk. apply list_elem_of_lookup in Hk as [i Hi].
    destruct (Forall2_lookup_l _ _ _ _ _ Hl Hi) as ([k' t] & Hit & Hx).
    apply list_elem_of_lookup_2 in Hit. cbn in Hx. destruct (dtext v) as [t'|] eqn:Hv; [|done]. injection Hx as <- <-.
    rewrite (elem_of_list_to_map_1 l k t'); [|by rewrite Hfst; apply NoDup_fst_map_to_list|done].
    cbn [fmap option_fmap option_map]. destruct v as [s|x|g]; cbn [dtext] in Hv.
    + destruct (String.eqb_spec (TrimSpace (quoted s)) (quoted s)) as [E|]; [|done].
      injection Hv as <-. rewrite raw_quoted by done. rewrite E. eexists. split; [reflexivity|].
      change (inl (unquote (quoted s)) = (inl s : res string)). by rewrite unquote_quoted.
    + injection Hv as <-. unfold raw, raw_read. by destruct (String.eqb (TrimSpace x) "null").
    + destruct g; try done. destruct (String.eqb_spec (TrimSpace (quoted s)) (quoted s)) as [E|]; [|done].
      injection Hv as <-. rewrite raw_quoted by done.
      change (inl (GString (unquote (quoted s))) = (inl (GString s) : res goval)). by rewrite unquote_quoted.
  - rewrite (not_elem_of_list_to_map_1 l k); [done|]. rewrite Hfst. intros (kv & -> & Hin)%list_elem_of_fmap.
    destruct kv as [k v]. apply elem_of_map_to_list in Hin. simpl in Hk. congruence.
Qed.

Definition structured_sale : Metadata :=
  mkMetadata "1.0" "books.v1.BookSold" "books" "s" "id-1" Second
    (Some {["tenant"%string := GString "acme"]}) None "application/cloudevents+json".
Example structured_sale_accepted :
  match SMarshal structured_sale (Some "{}"%string) with inl _ => True | inr _ => False end.
Proof. by vm_compute. Qed.
(** Text that is no JSON is refused, and an absent payload is read back empty. *)
Example no_json_refused :
  match SMarshal structured_sale (Some " "%string) with inr e => Is (Some e) ErrUnsendable | inl _ => false end = true.
Proof. by vm_compute. Qed.
Example absent_read_empty :
  match SMarshal structured_sale None with
  | inl p => match SUnmarshal (mkDelivery ∅ "" "" "" 2 (PBody p) "m-1" 1) with
             | inl (_, t) => t | inr _ => None end
  | inr _ => None
  end = Some ""%string.
Proof. by vm_compute. Qed.
