(* ===== verification/Mongo.v ===== *)
(** * transport/outbox/mongodb: the MongoDB stores and the change stream

    store.go and watch.go. The collections of one instance are [mdb]; every
    command of the code is the function on them the server runs atomically,
    and between two commands of a session others may commit, time passes, and
    a command can be refused or its reply lost, as in [Tidb]. Cursors, BSON and
    the transactions of the driver are parameters. *)
From S2P Require Import Prelude Errors GoLib Event Json Envelope Bound Relay Leader Notify Lane RelayCfg Stream.
#[local] Open Scope Z_scope.

(** ** Collections *)
Record outboxDoc := mkOutboxDoc {
  dID : string; dMetadata : option json; dData : option string; dCreateTime : Z }.
(** The ordering fields can be missing in rows this package did not write. *)
Record offsetDoc := mkOffsetDoc {
  resume_token : string; token_key : option string; cluster_time : option Z; update_time : Z }.
Record lockDoc := mkLockDoc { holder_id : option string; expire_time : option Z }.
(** The raw current document of a cursor, as far as it is looked into, and its
    decoding into [changeEvent]. *)
Record changeEvent := mkChangeEvent {
  ceID : string; OperationType : string; CommitT : Z; FullDocument : outboxDoc }.
Record rawChange := mkRawChange {
  rawID : option string; rawClusterTime : option Z; rawFullID : option string;
  decoded : changeEvent + err }.
(** [changes] is the server's log of the outbox collection as a change stream
    with the filter on insert and invalidate sees it: transactions that commit
    append to it, the commands below do not. *)
Record mdb := mkMdb {
  docs : list outboxDoc;
  changes : list rawChange;
  pending : gmap nat (list outboxDoc);     (* inserts of the running transactions *)
  offs : gmap string offsetDoc;
  lks : gmap string lockDoc;
  ttl_index : option Z }.
Definition with_pending (d : mdb) p := mkMdb (docs d) (changes d) p (offs d) (lks d) (ttl_index d).
Definition with_offs (d : mdb) o := mkMdb (docs d) (changes d) (pending d) o (lks d) (ttl_index d).
Definition with_lks (d : mdb) l := mkMdb (docs d) (changes d) (pending d) (offs d) l (ttl_index d).
Definition with_ttl (d : mdb) i := mkMdb (docs d) (changes d) (pending d) (offs d) (lks d) i.

Definition unixEpoch : Z := 62135596800 * Second.
(** A BSON date has milliseconds. *)
Definition bsonDate (t : Z) : Z := t / 1000000 * 1000000.
Definition Millisecond : Z := 1000000.

Definition mongoErr (code : Z) : err := Typed (TMongoCommand code []) [].
Definition duplicateKey : err := mongoErr 11000.
Definition asMongo (e : err) : option (Z * list string) :=
  match e with Typed (TMongoCommand c ls) _ => Some (c, ls) | _ => None end.

(** ** The commands *)
Definition command (A : Type) : Type := mdb → (mdb * A) + err.

(** InsertOne in a session's transaction. *)
Definition q_insertOne (sid : nat) (doc : outboxDoc) : command unit := λ d,
  match pending d !! sid with
  | None => inr (mongoErr 251)
  | Some l =>
      if existsb (λ x, String.eqb (dID x) (dID doc)) (docs d ++ l) then inr duplicateKey
      else inl (with_pending d (<[sid := l ++ [doc]]> (pending d)), tt)
  end.

(** The alternatives of SaveToken's guard, on a stored row. *)
Definition guardKeyed (key : string) (ct : Z) (r : offsetDoc) : bool :=
  match token_key r, cluster_time r with
  | Some k, _ => String.leb k key
  | None, Some c => c <=? ct
  | None, None => true
  end.
Definition guardCoarse (ct : Z) (r : offsetDoc) : bool :=
  match cluster_time r with Some c => c <=? ct | None => true end.
Definition q_saveToken (name token : string) (key : option string) (ct t : Z) : command unit := λ d,
  let row := mkOffsetDoc token key (Some (bsonDate ct)) (bsonDate t) in
  let ok r := match key with
              | Some key => guardKeyed key (bsonDate ct) r
              | None => guardCoarse (bsonDate ct) r
              end in
  match offs d !! name with
  | Some r => if ok r then inl (with_offs d (<[name := row]> (offs d)), tt) else inr duplicateKey
  | None => inl (with_offs d (<[name := row]> (offs d)), tt)
  end.
Definition q_findToken (name : string) : command offsetDoc := λ d,
  match offs d !! name with
  | Some row => inl (d, row)
  | None => inr (Sentinel ErrNoDocuments)
  end.
Definition q_deleteToken (name : string) : command unit := λ d,
  inl (with_offs d (delete name (offs d)), tt).

(** FindOneAndUpdate with the pipeline of TryAcquireLeaderLock, returning the
    holder after; [now] is the server's clock. The upsert runs the pipeline on a
    document without fields. *)
Definition canTake (holderID : string) (now : Z) (l : lockDoc) : bool :=
  bool_decide (holder_id l = Some holderID) || (default unixEpoch (expire_time l) <? now).
Definition q_acquire (name holderID : string) (millis now : Z) : command string := λ d,
  let l := default (mkLockDoc None None) (lks d !! name) in
  let after := if canTake holderID now l
               then mkLockDoc (Some holderID) (Some (now + millis * Millisecond)) else l in
  inl (with_lks d (<[name := after]> (lks d)), default ""%string (holder_id after)).
Definition q_release (name holderID : string) : command unit := λ d,
  match lks d !! name with
  | Some l => if bool_decide (holder_id l = Some holderID)
              then inl (with_lks d (delete name (lks d)), tt) else inl (d, tt)
  | None => inl (d, tt)
  end.

Definition indexOptionsConflictCode : Z := 85.
Definition q_createIndex (secs : Z) : command unit := λ d,
  match ttl_index d with
  | Some s => if s =? secs then inl (d, tt) else inr (mongoErr indexOptionsConflictCode)
  | None => inl (with_ttl d (Some secs), tt)
  end.

(** ** Sessions with the server *)
Inductive mfate := MReply | MRefused (e : err) | MLost (e : err).
Record mturn := mkMturn { mothers : mdb → mdb; mhow : mfate; passed : Z }.
(** [cursors] is the driver's: how far the change streams the client has open
    have been read. *)
Record msess := mkMsess {
  colls : mdb; hostTime : Z; serverTime : Z; mturns : list mturn; cursors : gmap nat nat }.
Definition with_colls (s : msess) (d : mdb) : msess :=
  mkMsess d (hostTime s) (serverTime s) (mturns s) (cursors s).
Definition mbegin (s : msess) : mfate * msess :=
  match mturns s with
  | [] => (MReply, s)
  | t :: ts => (mhow t, mkMsess (mothers t (colls s)) (hostTime s + passed t) (serverTime s + passed t) ts (cursors s))
  end.
(** [q] gets the server's clock ($$NOW). *)
Definition run {A} (ctx : cx) (q : Z → command A) : M msess (A + err) := λ s,
  match ErrAt ctx (hostTime s) with
  | Some e => (inr e, s)
  | None =>
      let '(f, s) := mbegin s in
      match f, q (bsonDate (serverTime s)) (colls s) with
      | MRefused e, _ => (inr e, s)
      | MReply, inl (d, a) => (inl a, with_colls s d)
      | MReply, inr e => (inr e, s)
      | MLost e, inl (d, _) => (inr e, with_colls s d)
      | MLost e, inr _ => (inr e, s)
      end
  end.
Definition hostNow : M msess Z := gets hostTime.
#[export] Instance msess_host : Host msess := hostNow.

(** ** The driver, as far as it is called for decisions *)
Class MongoDriver := {
  IsDuplicateKeyError : err → bool;
  duplicateKey_is : IsDuplicateKeyError duplicateKey = true;
  (** The hex payload under _data of a resume token, and fields of a raw
      change document. *)
  raw_data : string → option string }.

(** ** encoding/hex *)
Definition hexval (c : ascii) : option Z :=
  let b := byte c in
  if (48 <=? b) && (b <=? 57) then Some (b - 48)
  else if (97 <=? b) && (b <=? 102) then Some (b - 87)
  else if (65 <=? b) && (b <=? 70) then Some (b - 55)
  else None.
(** [hex.DecodeString] *)
Fixpoint DecodeString (s : string) : option (list Z) :=
  match s with
  | EmptyString => Some []
  | String a (String b s) =>
      match hexval a, hexval b, DecodeString s with
      | Some h, Some l, Some r => Some (16 * h + l :: r)
      | _, _, _ => None
      end
  | _ => None
  end.
Definition is_hex (c : ascii) : bool := if hexval c is Some _ then true else false.

Definition resumeTokenTimestampMarker : Z := 0x82.
(** [time.Unix(secs, 0)] as nanoseconds since the zero time. *)
Definition Unix (secs : Z) : Z := unixEpoch + secs * Second.

Section watch.
Context `{MongoDriver}.

Definition clusterTimeFromToken (tok : string) : option Z :=
  match raw_data tok with
  | None => None
  | Some s =>
      match DecodeString s with
      | Some (m :: b1 :: b2 :: b3 :: b4 :: _) =>
          if m =? resumeTokenTimestampMarker
          then Some (Unix (((b1 * 256 + b2) * 256 + b3) * 256 + b4)) else None
      | _ => None
      end
  end.
Definition tokenKeyFromString (token : string) : option string :=
  match raw_data token with
  | None => None
  | Some s =>
      if String.eqb s "" then None
      else if negb (len s mod 2 =? 0) then None
      else if sforall is_hex s then Some (smap lower_byte s) else None
  end.

Definition changeStreamHistoryLostCode : Z := 286.
Definition nonResumableChangeStreamErrorLabel : string := "NonResumableChangeStreamError".
Definition isHistoryLost (e : err) : bool :=
  match As asMongo (Some e) with
  | Some (c, ls) => (c =? changeStreamHistoryLostCode) ||
                    existsb (String.eqb nonResumableChangeStreamErrorLabel) ls
  | None => false
  end.
End watch.

(** ** store.go: construction *)
Record config := mkConfig { prefix : string; retention : Z }.
Definition Day : Z := 24 * 60 * Minute.
Definition defaultRetention : Z := 7 * Day.
(** The option panics on a bad prefix: [None]. *)
Definition WithCollectionPrefix (p : string) : option (config → config) :=
  match ValidateInstancePrefix p with
  | Some _ => None
  | None => Some (λ c, mkConfig p (retention c))
  end.
Definition WithRetention (d : Z) (c : config) : config := mkConfig (prefix c) d.
Definition newConfig (opts : list (config → config)) : config :=
  foldl (λ c opt, opt c) (mkConfig "" defaultRetention) opts.

Section store.
Context `{UrlStruct} `{GoJson} `{MongoDriver}.

(** ** The publish store: [bound] is its session, [ctxSess] the session the
    context carries *)
Definition TransactionRunning (sid : nat) : M msess bool :=
  gets (λ s, if pending (colls s) !! sid is Some _ then true else false).
Definition different (ctxSess : option nat) (sid : nat) : bool :=
  match ctxSess with Some c => negb (Nat.eqb c sid) | None => false end.

(** The session the insert joins. *)
Definition insertSession (bound ctxSess : option nat) : M msess (nat + err) :=
  match bound with
  | Some sid =>
      if different ctxSess sid then mret (inr (New "ctx carries a different session"))
      else
        b ← TransactionRunning sid;
        mret (if b : bool then inl sid else inr (New "bound session has no running transaction"))
  | None =>
      match ctxSess with
      | None => mret (inr (New "outbox: create message: no transaction"))
      | Some c =>
          b ← TransactionRunning c;
          mret (if b : bool then inl c else inr (New "outbox: create message: no transaction"))
      end
  end.
Definition CreateOutboxMessage (bound ctxSess : option nat) (ctx : cx) (msg : Message) : M msess error :=
  if String.eqb (MsgID msg) "" then mret (Some (New "outbox: message ID is empty"))
  else match ValidateMetadata (MsgMetadata msg) with
  | Some e => mret (Some e)
  | None =>
  if CreateTime msg =? 0 then mret (Some (New "outbox: message create time is zero"))
  else
    s ← insertSession bound ctxSess;
    match s with
    | inr e => mret (Some e)
    | inl sid =>
        match MarshalMetadata (MsgMetadata msg) with
        | inr e => mret (Some e)
        | inl meta =>
            r ← run ctx (λ _, q_insertOne sid
                  (mkOutboxDoc (MsgID msg) (Some meta) (Data msg) (bsonDate (CreateTime msg))));
            mret (match r : unit + err with inl _ => None | inr e => Some (wrapf "outbox: insert" e) end)
        end
    end
  end.

(** [WithSession], on the session a store is bound to. *)
Definition WithSession (bound sess : option nat) : option nat :=
  match sess with None => bound | Some _ => sess end.

(** [fn] gets the session its context carries and the one its store is bound
    to; [driverTx] is the driver's Session.WithTransaction, [StartSession] and
    [EndSession] the client's. *)
Definition runInSession (driverTx : nat → M msess error → M msess error)
    (bound : option nat) (sid : nat) (fn : option nat → option nat → M msess error) : M msess error :=
  b ← TransactionRunning sid;
  if b : bool then fn (Some sid) (WithSession bound (Some sid))
  else driverTx sid (fn (Some sid) (WithSession bound (Some sid))).
Definition WithTransaction (driverTx : nat → M msess error → M msess error)
    (StartSession : M msess (res nat)) (EndSession : nat → M msess unit)
    (bound ctxSess : option nat)
    (fn : option nat → option nat → M msess error) : M msess error :=
  match bound, ctxSess with
  | Some sid, _ =>
      if different ctxSess sid then mret (Some (New "ctx carries a different session"))
      else runInSession driverTx bound sid fn
  | None, Some c => runInSession driverTx bound c fn
  | None, None =>
      r ← StartSession;
      match r : res nat with
      | inr e => mret (Some (wrapf "outbox: start session" e))
      | inl sid => e ← runInSession driverTx bound sid fn; _ ← EndSession sid; mret e
      end
  end.

(** ** The relay store *)
Definition EnsureIndexes (c : config) (ctx : cx) : M msess error :=
  if negb (Z.rem (retention c) Second =? 0)
  then mret (Some (New "outbox: ensure ttl index: retention is not a whole number of seconds"))
  else
    let secs := Z.quot (retention c) Second in
    if (secs <? 1) || (MaxInt32 <? secs)
    then mret (Some (New "outbox: ensure ttl index: retention outside the TTL range"))
    else
      r ← run ctx (λ _, q_createIndex secs);
      mret (match r : unit + err with
            | inl _ => None
            | inr e => Some (wrapf "outbox: ensure ttl index" e)
            end).

Definition LoadToken (ctx : cx) (name : string) : M msess (res (string * Z)) :=
  r ← run ctx (λ _, q_findToken name);
  mret (match r : offsetDoc + err with
        | inl doc => inl (resume_token doc, default 0 (cluster_time doc))
        | inr e =>
            if is_err e ErrNoDocuments then inl (""%string, 0)
            else inr (wrapf "outbox: load token" e)
        end).
Definition SaveToken (ctx : cx) (name token : string) (clusterTime : Z) : M msess (res bool) :=
  if String.eqb token "" then mret (inr (New "outbox: save token: empty resume token"))
  else
    t ← hostNow;
    r ← run ctx (λ _, q_saveToken name token (tokenKeyFromString token) clusterTime t);
    mret (match r : unit + err with
          | inl _ => inl true
          | inr e => if IsDuplicateKeyError e then inl false
                     else inr (wrapf "outbox: save token" e)
          end).
Definition DeleteToken (ctx : cx) (name : string) : M msess error :=
  r ← run ctx (λ _, q_deleteToken name);
  mret (match r : unit + err with inl _ => None | inr e => Some (wrapf "outbox: delete token" e) end).

Definition TryAcquireLeaderLock (ctx : cx) (name holderID : string) (ttl : Z) : M msess (res bool) :=
  let millis := Z.max (Z.quot ttl Millisecond) 1 in
  r ← run ctx (λ now, q_acquire name holderID millis now);
  mret (match r : string + err with
        | inr e => if IsDuplicateKeyError e then inl false
                   else inr (wrapf "outbox: acquire lock" e)
        | inl holder => inl (String.eqb holder holderID)
        end).
Definition ReleaseLeaderLock (ctx : cx) (name holderID : string) : M msess error :=
  r ← run ctx (λ _, q_release name holderID);
  mret (match r : unit + err with inl _ => None | inr e => Some (wrapf "outbox: release lock" e) end).

Definition decodeMessage (doc : outboxDoc) : res Message :=
  match UnmarshalMetadata (dMetadata doc) with
  | inr e => inr e
  | inl md => inl (mkMessage (dID doc) 0 (Some md) (dData doc) (dCreateTime doc))
  end.

(** ** watch.go: the change stream *)

(** mongo.ChangeStream *)
Record cursor := mkCursor {
  TryNext : cx → M msess bool;
  csErr : M msess error;
  csID : M msess Z;
  Current : M msess rawChange;
  ResumeToken : M msess (option string);
  csClose : cx → M msess error }.

Definition decodeErrorFromRaw (raw : rawChange) (e : err) : err :=
  Typed (TStreamDecode (default ""%string (rawFullID raw)) (default ""%string (rawID raw))
           (match rawClusterTime raw with Some t => Unix t | None => 0 end)) [e].

Definition mNext (m : cursor) (ctx : cx) : M msess (option Event * bool * error) :=
  got ← TryNext m ctx;
  if negb got then
    e ← csErr m;
    match e with
    | None =>
        id ← csID m;
        if id =? 0 then mret (None, false, Some (New "outbox: change stream closed by the server"))
        else mret (None, false, None)
    | Some er =>
        if isHistoryLost er then mret (None, false, Some (Errorf "" [Sentinel ErrHistoryLost; er]))
        else mret (None, false, Some (wrapf "outbox: change stream next" er))
    end
  else
    raw ← Current m;
    match decoded raw with
    | inr e => mret (None, false, Some (decodeErrorFromRaw raw e))
    | inl ce =>
        if String.eqb (OperationType ce) "invalidate" then mret (None, false, Some (Sentinel ErrInvalidated))
        else match decodeMessage (FullDocument ce) with
        | inr e => mret (None, false,
            Some (Typed (TStreamDecode (dID (FullDocument ce)) (ceID ce) (Unix (CommitT ce))) [e]))
        | inl msg => mret (Some (Some msg, ceID ce, Unix (CommitT ce)), true, None)
        end
    end.
Definition mCheckpoint (m : cursor) : M msess (string * Z * bool) :=
  tok ← ResumeToken m;
  match tok : option string with
  | None => mret (""%string, 0, false)
  | Some tok =>
      match clusterTimeFromToken tok with
      | Some ct => mret (tok, ct, true)
      | None => t ← hostNow; mret (tok, t / Second * Second, false)
      end
  end.
Definition mClose (m : cursor) (ctx : cx) : M msess error :=
  e ← csClose m ctx; mret (wrapf "outbox: close change stream" <$> e).
Definition mStream (m : cursor) : Stream msess := mkStream (mNext m) (mCheckpoint m) (mClose m).

(** [open] is Collection.Watch with the filter on insert and invalidate: the
    resume point and the server-side await, when set. *)
Definition Watch (open : cx → option string → option Z → M msess (res cursor))
    (ctx : cx) (token : string) (maxAwait : Z) : M msess (res (Stream msess)) :=
  r ← open ctx (if String.eqb token "" then None else Some token)
        (if 0 <? maxAwait then Some maxAwait else None);
  mret (match r : res cursor with
        | inl cs => inl (mStream cs)
        | inr e => if isHistoryLost e then inr (Errorf "" [Sentinel ErrHistoryLost; e])
                   else inr (wrapf "outbox: open change stream" e)
        end).

Definition relay_store (open : cx → option string → option Z → M msess (res cursor)) : Store msess :=
  mkStore LoadToken SaveToken (Watch open).
Definition relay_leader : LeaderStore msess := mkLeaderStore TryAcquireLeaderLock ReleaseLeaderLock.
End store.
