(* ===== verification/MongoProps.v ===== *)
(** * The contract the MongoDB store gives the relay and the publisher

    What each command does to the collections however other sessions interleave
    and however its reply fares; the order of the token keys; the stream's
    classification of what the cursor yields; publishing inside a transaction. *)
From S2P Require Import Prelude Errors GoLib Event Json Envelope Bound Relay Leader Stream Mongo.
#[local] Open Scope Z_scope.

(** The collections as the next command finds them: others went first. *)
Definition mfound (s : msess) : mdb := colls (mbegin s).2.

Lemma with_colls_id s : with_colls s (colls s) = s.
Proof. by destruct s. Qed.

(** A command replies, or fails with or without having taken effect. *)
Lemma run_cases {A} ctx (q : Z → command A) s :
  ErrAt ctx (hostTime s) = None →
  let s0 := (mbegin s).2 in
  match q (bsonDate (serverTime s0)) (mfound s) with
  | inl (d, a) =>
      run ctx q s = (inl a, with_colls s0 d) ∨
      ∃ e, (mhow <$> head (mturns s) = Some (MLost e) ∨ mhow <$> head (mturns s) = Some (MRefused e)) ∧
           (run ctx q s = (inr e, with_colls s0 d) ∨ run ctx q s = (inr e, s0))
  | inr e => ∃ e', run ctx q s = (inr e', s0) ∧
      (e' = e ∨ mhow <$> head (mturns s) = Some (MLost e') ∨ mhow <$> head (mturns s) = Some (MRefused e'))
  end.
Proof.
  intros Hc s0. unfold run, s0, mfound. rewrite Hc. unfold mbegin.
  destruct (mturns s) as [|t ts] eqn:Et; simpl.
  - destruct (q _ _) as [[d a]|e]; [by left|]. exists e. by split; [|left].
  - destruct (q _ _) as [[d a]|e]; destruct (mhow t) as [|e'|e']; simpl.
    + by left.
    + right. exists e'. split; [by right|by right].
    + right. exists e'. split; [by left|by left].
    + exists e. by split; [|left].
    + exists e'. split; [done|]. right. by right.
    + exists e'. split; [done|]. right. by left.
Qed.

(** ** The order of token keys *)

(** Byte strings in the order of memcmp. *)
Fixpoint lexle (a b : list Z) : bool :=
  match a, b with
  | [], _ => true
  | _, [] => false
  | x :: a, y :: b => (x <? y) || ((x =? y) && lexle a b)
  end.

Definition hexdigit (h : Z) : ascii := ascii_of_nat (Z.to_nat (if h <? 10 then 48 + h else 87 + h)).
Lemma hexval_lower c h : hexval c = Some h → lower_byte c = hexdigit h ∧ 0 <= h < 16.
Proof.
  assert (Hall : (if hexval c is Some h
                  then Ascii.eqb (lower_byte c) (hexdigit h) && (0 <=? h) && (h <? 16) else true) = true)
    by (destruct c as [[] [] [] [] [] [] [] []]; vm_compute; reflexivity).
  intros Hh. rewrite Hh in Hall. zbool. split; [by apply Ascii.eqb_eq|lia].
Qed.
Lemma hexdigit_compare h l :
  0 <= h < 16 → 0 <= l < 16 → Ascii.compare (hexdigit h) (hexdigit l) = Z.compare h l.
Proof.
  intros Hh Hl.
  assert (Hall : forallb (λ h, forallb (λ l, bool_decide
    (Ascii.compare (hexdigit h) (hexdigit l) = Z.compare h l)) (seqZ 0 16)) (seqZ 0 16) = true)
    by (vm_compute; reflexivity).
  rewrite forallb_forall in Hall. specialize (Hall h (proj1 (list_elem_of_In _ _) (proj2 (elem_of_seqZ _ _ _) Hh))).
  rewrite forallb_forall in Hall. specialize (Hall l (proj1 (list_elem_of_In _ _) (proj2 (elem_of_seqZ _ _ _) Hl))).
  by apply bool_decide_eq_true in Hall.
Qed.
Lemma is_hex_Some c : is_hex c = true ↔ ∃ h, hexval c = Some h.
Proof. unfold is_hex. destruct (hexval c); split; try done; [eauto|by intros []]. Qed.

Lemma DecodeString_cons a b s bs :
  DecodeString (String a (String b s)) = Some bs ↔
  ∃ h l r, hexval a = Some h ∧ hexval b = Some l ∧ DecodeString s = Some r ∧ bs = 16 * h + l :: r.
Proof.
  change (DecodeString (String a (String b s))) with
    (match hexval a, hexval b, DecodeString s with
     | Some h, Some l, Some r => Some (16 * h + l :: r)
     | _, _, _ => None
     end).
  destruct (hexval a), (hexval b), (DecodeString s);
    (split; [intros [= <-]; by eauto 7|intros (?&?&?&?&?&?&?); congruence]).
Qed.
Lemma decode_leb s : ∀ bs s' bs', DecodeString s = Some bs → DecodeString s' = Some bs' →
  String.leb (smap lower_byte s) (smap lower_byte s') = lexle bs bs'.
Proof.
  revert s. fix IH 1. intros s bs s' bs' Hs Hs'.
  destruct s as [|a [|b s]]; [injection Hs as <-|done|].
  { simpl. by destruct (smap lower_byte s'). }
  apply DecodeString_cons in Hs as (h & l & r & (Ea & Hh)%hexval_lower & (Eb & Hl)%hexval_lower & Hr & ->).
  destruct s' as [|a' [|b' s']]; [injection Hs' as <-; done|done|].
  apply DecodeString_cons in Hs' as (h' & l' & r' & (Ea' & Hh')%hexval_lower & (Eb' & Hl')%hexval_lower & Hr' & ->).
  specialize (IH s r s' r' Hr Hr'). revert IH. unfold String.leb. simpl.
  rewrite Ea, Ea', Eb, Eb', !hexdigit_compare by done. intros IH.
  destruct (Z.compare_spec h h') as [->|?|?]; [destruct (Z.compare_spec l l') as [->|?|?]|..].
  - rewrite Z.ltb_irrefl, Z.eqb_refl. exact IH.
  - rewrite (proj2 (Z.ltb_lt _ _)) by lia. done.
  - rewrite (proj2 (Z.ltb_ge _ _)), (proj2 (Z.eqb_neq _ _)) by lia. done.
  - rewrite (proj2 (Z.ltb_lt _ _)) by lia. done.
  - rewrite (proj2 (Z.ltb_ge _ _)), (proj2 (Z.eqb_neq _ _)) by lia. done.
Qed.
Lemma DecodeString_bytes s bs : DecodeString s = Some bs → Forall (λ b, 0 <= b < 256) bs.
Proof.
  revert s bs. fix IH 1. intros [|a [|b s]] bs Hs; [by injection Hs as <-|done|].
  apply DecodeString_cons in Hs as (h & l & r & (_ & Hh)%hexval_lower & (_ & Hl)%hexval_lower & Hr & ->).
  constructor; [lia|]. by apply (IH s).
Qed.
(** The in-place check accepts what decoding accepts. *)
Lemma hex_in_place s :
  (len s mod 2 =? 0) && sforall is_hex s = if DecodeString s then true else false.
Proof.
  revert s. fix IH 1. intros [|a [|b s]]; [done|by simpl; destruct (is_hex a)|].
  specialize (IH s). simpl sforall. simpl DecodeString.
  assert (len (String a (String b s)) mod 2 = len s mod 2) as ->.
  { unfold len. simpl String.length. rewrite !Nat2Z.inj_succ.
    replace (Z.succ (Z.succ (Z.of_nat (String.length s)))) with (Z.of_nat (String.length s) + 1 * 2) by lia.
    by rewrite Z_mod_plus_full. }
  unfold is_hex at 1 2. destruct (hexval a), (hexval b), (DecodeString s);
    rewrite ?andb_false_r in *; try done; by rewrite <-?IH.
Qed.

Section contract.
Context `{UrlStruct} `{GoJson} `{MongoDriver}.

(** A refusal or a lost reply is not a duplicate-key error. *)
Definition honest (s : msess) : Prop :=
  Forall (λ t, match mhow t with
               | MReply => True
               | MRefused e | MLost e => IsDuplicateKeyError e = false
               end) (mturns s).
Lemma honest_head s e :
  honest s → mhow <$> head (mturns s) = Some (MLost e) ∨ mhow <$> head (mturns s) = Some (MRefused e) →
  IsDuplicateKeyError e = false.
Proof.
  unfold honest. destruct (mturns s) as [|t ts]; simpl; [by intros _ [|]|].
  intros [Ht _]%Forall_cons [[= E]|[= E]]; by rewrite E in Ht.
Qed.

(** ** The resume position *)

(** How positions of one group follow each other: in the order of the token
    keys where both rows have one, else of the coarse commit times. *)
Definition not_behind (r r' : offsetDoc) : Prop :=
  match token_key r, token_key r' with
  | Some k, Some k' => String.leb k k' = true
  | _, _ => match cluster_time r, cluster_time r' with
            | Some c, Some c' => c <= c'
            | _, _ => True
            end
  end.
Definition behind (ct : Z) (key : option string) (r : offsetDoc) : Prop :=
  match key, token_key r with
  | Some key, Some k => String.leb k key = false
  | _, _ => ∃ c, cluster_time r = Some c ∧ ct < c
  end.

Lemma q_saveToken_cases name token key ct t d :
  let new := mkOffsetDoc token key (Some (bsonDate ct)) (bsonDate t) in
  (q_saveToken name token key ct t d = inl (with_offs d (<[name := new]> (offs d)), tt) ∧
   ∀ row, offs d !! name = Some row → not_behind row new) ∨
  (q_saveToken name token key ct t d = inr duplicateKey ∧
   ∃ row, offs d !! name = Some row ∧ behind (bsonDate ct) key row).
Proof.
  intros new. unfold q_saveToken. fold new. destruct (offs d !! name) as [row|] eqn:E; [|by left].
  destruct key as [key|]; unfold guardKeyed, guardCoarse, not_behind, behind, new; simpl;
    destruct (token_key row) as [k|] eqn:Ek; destruct (cluster_time row) as [c|] eqn:Ec;
    try match goal with |- context [if ?b then _ else _] => destruct b eqn:Eb end;
    zbool; (left; split; [done|]; intros ? [= <-]; by rewrite ?Ek, ?Ec) ||
           (right; split; [done|]; exists row; rewrite ?Ek, ?Ec; eauto).
Qed.

(** C22: saving a resume token, whatever other relays commit around it and
    however its reply fares. True is answered only when the group's row holds
    exactly this token; false only when the group's row is untouched and ahead
    of it; no outcome moves the stored position back, touches another group or
    stores an empty token. *)
Theorem mongo_SaveToken_contract ctx name token ct s :
  ErrAt ctx (hostTime s) = None → honest s →
  let key := tokenKeyFromString token in
  let r := (SaveToken ctx name token ct s).1 in
  let after := colls (SaveToken ctx name token ct s).2 in
  (r = inl true → ∃ u, offs after !! name = Some (mkOffsetDoc token key (Some (bsonDate ct)) u)) ∧
  (r = inl false → after = mfound s ∧
     ∃ row, offs after !! name = Some row ∧ behind (bsonDate ct) key row) ∧
  (token = ""%string → after = colls s ∧ ∃ e, r = inr e) ∧
  (token ≠ ""%string → (∀ n, n ≠ name → offs after !! n = offs (mfound s) !! n) ∧
     ∀ row, offs (mfound s) !! name = Some row →
       ∃ row', offs after !! name = Some row' ∧ (row' = row ∨ not_behind row row')).
Proof.
  intros Hc Hh key r after. unfold r, after, SaveToken.
  destruct (String.eqb_spec token "") as [->|Hne]; [rewrite run_ret; by split_and!; eauto|].
  rewrite run_bind. unfold hostNow. rewrite run_gets. cbn [fst snd]. rewrite run_bind. fold key.
  pose proof (run_cases ctx (λ _, q_saveToken name token key ct (hostTime s)) s Hc) as Hr.
  cbn beta zeta in Hr. destruct (q_saveToken_cases name token key ct (hostTime s) (mfound s))
    as [[Hq Hb]|[Hq Hb]]; rewrite Hq in Hr.
  - destruct Hr as [-> | (e & He & [-> | ->])]; cbn [fst snd mret]; rewrite ?run_ret; cbn [fst snd];
      rewrite ?(honest_head s e Hh He); simpl; split_and!; try done; intros _;
      try (rewrite lookup_insert_eq; by eauto);
      (split; [intros n Hn; by rewrite ?lookup_insert_ne by done|]);
      intros row Hrow; rewrite ?lookup_insert_eq; eauto.
  - destruct Hr as (e & -> & He). cbn [fst snd]. rewrite run_ret. cbn [fst snd].
    destruct He as [-> | He]; [rewrite duplicateKey_is|rewrite (honest_head s e Hh He)];
      unfold mfound in *; split_and!; try done; eauto.
Qed.

(** The bytes of a resume token's payload. *)
Definition keyBytes (t : string) : option (list Z) := raw_data t ≫= DecodeString.

Lemma tokenKey_Some t k : tokenKeyFromString t = Some k →
  ∃ s bs, raw_data t = Some s ∧ DecodeString s = Some bs ∧ keyBytes t = Some bs ∧ k = smap lower_byte s.
Proof.
  unfold tokenKeyFromString, keyBytes. destruct (raw_data t) as [s|] eqn:E; [|done]. simpl.
  destruct (String.eqb s ""); [done|]. pose proof (hex_in_place s) as Hx.
  destruct (_ =? 0); [|done]. simpl in *. destruct (sforall _ _); [|done].
  destruct (DecodeString s) as [bs|] eqn:Eb; [|done]. intros [= <-]. by exists s, bs.
Qed.

(** C34: the stored ordering key. A token gets one exactly when its payload is
    nonempty hex, and comparing keys as strings is comparing the payloads byte
    by byte, so that a key order never contradicts the commit times the tokens
    embed. *)
Theorem tokenKey_order t t' k k' :
  tokenKeyFromString t = Some k → tokenKeyFromString t' = Some k' →
  ∃ b b', keyBytes t = Some b ∧ keyBytes t' = Some b' ∧
    String.leb k k' = lexle b b' ∧
    ∀ c c', clusterTimeFromToken t = Some c → clusterTimeFromToken t' = Some c' →
      String.leb k k' = true → c <= c'.
Proof.
  intros (s & b & Hs & Hb & Hk & ->)%tokenKey_Some (s' & b' & Hs' & Hb' & Hk' & ->)%tokenKey_Some.
  exists b, b'. rewrite (decode_leb s b s' b' Hb Hb'). split_and!; [done..|].
  unfold clusterTimeFromToken. rewrite Hs, Hs', Hb, Hb'.
  apply DecodeString_bytes in Hb, Hb'.
  destruct b as [|m [|x1 [|x2 [|x3 [|x4 b]]]]]; [done..|].
  destruct b' as [|m' [|y1 [|y2 [|y3 [|y4 b']]]]]; [done..|].
  intros c c'. case_match; [|done]. case_match; [|done]. zbool. subst m m'. intros [= <-] [= <-].
  rewrite !Forall_cons in Hb, Hb'. unfold Unix, Second. simpl.
  intros Hle. repeat (apply orb_true_iff in Hle as [Hle|Hle]; [zbool; lia|apply andb_true_iff in Hle as [? Hle]]).
  zbool. lia.
Qed.

(** ** Leadership *)

(** When a holder may have the lock: nobody has it, it is the holder's own, or
    its lease, whoever has it, ended before the server's time. *)
Definition free_for (h : string) (now : Z) (l : option lockDoc) : Prop :=
  match l with
  | None => unixEpoch < now
  | Some l =>
      holder_id l = Some h ∨
      match expire_time l with Some e => e < now | None => unixEpoch < now end
  end.
(** C33: the leader lock, on the server's clock alone. Whatever other relays
    commit before the election and however its reply fares: true is answered
    only when this holder has the lock until a later server time; a live lock of
    another holder is left exactly as it is and never granted; and an election
    whose reply arrives is granted whenever the lock is free at that time, that
    is, held by nobody or by this holder, or left by another holder whose lease
    has run out: the lock then is this holder's for the lease asked for (a
    millisecond at least), and nothing else has changed. *)
Theorem mongo_lock_contract ctx name h ttl s :
  ErrAt ctx (hostTime s) = None → h ≠ ""%string →
  let now := bsonDate (serverTime (mbegin s).2) in
  let r := (TryAcquireLeaderLock ctx name h ttl s).1 in
  let after := colls (TryAcquireLeaderLock ctx name h ttl s).2 in
  (r = inl true → ∃ e, lks after !! name = Some (mkLockDoc (Some h) (Some e)) ∧ now < e) ∧
  (∀ h' e, lks (mfound s) !! name = Some (mkLockDoc (Some h') (Some e)) → h' ≠ h → now <= e →
     r ≠ inl true ∧ after = mfound s) ∧
  ((mbegin s).1 = MReply → free_for h now (lks (mfound s) !! name) →
     r = inl true ∧
     after = with_lks (mfound s) (<[name := mkLockDoc (Some h)
               (Some (now + Z.max (Z.quot ttl Millisecond) 1 * Millisecond))]> (lks (mfound s)))).
Proof.
  intros Hc Hh now r after. unfold r, after, TryAcquireLeaderLock. rewrite run_bind.
  set (millis := Z.max (Z.quot ttl Millisecond) 1).
  pose proof (run_cases ctx (λ now, q_acquire name h millis now) s Hc) as Hr.
  assert (Hrun : (mbegin s).1 = MReply → run ctx (λ now, q_acquire name h millis now) s =
    match q_acquire name h millis now (mfound s) with
    | inl (d, a) => (inl a, with_colls (mbegin s).2 d) | inr e => (inr e, (mbegin s).2) end).
  { intros Ht. unfold run, now, mfound. rewrite Hc. destruct (mbegin s) as [f s1]. simpl in Ht. by subst f. }
  cbn beta zeta in Hr. fold now in Hr. unfold q_acquire in Hr at 1, Hrun at 2.
  set (l := default (mkLockDoc None None) (lks (mfound s) !! name)) in *.
  assert (Hlive : ∀ h' e, lks (mfound s) !! name = Some (mkLockDoc (Some h') (Some e)) →
    h' ≠ h → now <= e → canTake h now l = false ∧ holder_id l = Some h' ∧
    with_lks (mfound s) (<[name := l]> (lks (mfound s))) = mfound s).
  { intros h' e Hl Hne Hle. unfold l, canTake. rewrite Hl. simpl. split_and!; [|done|].
    - apply orb_false_iff. split; [apply bool_decide_eq_false; congruence|lia].
    - rewrite insert_id by done. by destruct (mfound s). }
  split_and!.
  - destruct Hr as [-> | (e & _ & [-> | ->])]; rewrite run_ret; cbn [fst snd];
      [|by destruct (IsDuplicateKeyError e)..].
    intros [= Hb]. apply String.eqb_eq in Hb. revert Hb. simpl. rewrite lookup_insert_eq.
    destruct (canTake h now l) eqn:Et; simpl.
    + intros _. eexists. split; [done|]. unfold Millisecond, millis. lia.
    + unfold canTake in Et. apply orb_false_iff in Et as [Et _]. apply bool_decide_eq_false in Et.
      destruct (holder_id l); simpl in *; congruence.
  - intros h' e Hl Hne Hle. destruct (Hlive h' e Hl Hne Hle) as (Et & El & Eid).
    rewrite Et, Eid, El in Hr.
    destruct Hr as [-> | (e' & _ & [-> | ->])]; rewrite run_ret; cbn [fst snd]; simpl;
      (split; [|done]); [|by destruct (IsDuplicateKeyError e')..].
    intros [= Hb]. apply String.eqb_eq in Hb. done.
  - intros Ht Hfree. rewrite (Hrun Ht), run_ret. cbn [fst snd].
    assert (canTake h now l = true) as ->.
    { unfold canTake, l, free_for in *. apply orb_true_iff.
      destruct (lks (mfound s) !! name) as [x|]; simpl.
      - destruct Hfree as [Hh'|Hex]; [left; by apply bool_decide_eq_true|right].
        apply Z.ltb_lt. by destruct (expire_time x).
      - right. by apply Z.ltb_lt. }
    simpl. by rewrite String.eqb_refl.
Qed.

(** ** Publishing *)

Lemma publish_joins bound ctxSess ctx msg s :
  ErrAt ctx (hostTime s) = None →
  (∀ md, MsgMetadata msg = Some md → carried md ∧ parseable (Event.DataSchema md)) →
  let '(r, s') := CreateOutboxMessage bound ctxSess ctx msg s in
  (docs (colls s') = docs (colls s) ∨ docs (colls s') = docs (mfound s)) ∧
  (r = None → ∃ sid md doc l,
     (bound = Some sid ∨ bound = None ∧ ctxSess = Some sid) ∧ (ctxSess = None ∨ ctxSess = Some sid) ∧
     pending (mfound s) !! sid = Some l ∧
     colls s' = with_pending (mfound s) (<[sid := l ++ [doc]]> (pending (mfound s))) ∧
     MsgMetadata msg = Some md ∧
     decodeMessage doc =
       inl (mkMessage (MsgID msg) 0 (Some (stored md)) (Data msg) (bsonDate (CreateTime msg)))) ∧
  (mturns s = [] → r ≠ None → s' = s).
Proof.
  intros Hc Hmd. unfold CreateOutboxMessage.
  destruct (String.eqb (MsgID msg) ""); [rewrite run_ret; by split_and!; eauto|].
  destruct (ValidateMetadata (MsgMetadata msg)) as [e|] eqn:Hv; [rewrite run_ret; by split_and!; eauto|].
  destruct (CreateTime msg =? 0); [rewrite run_ret; by split_and!; eauto|].
  destruct (MsgMetadata msg) as [md|] eqn:Em; [|done].
  destruct (Hmd md eq_refl) as [Hca Hpa].
  destruct (persisted md Hv Hca Hpa) as (meta & Hmeta & Hback & _).
  assert (Hs : (insertSession bound ctxSess s).2 = s ∧ ∀ sid,
    (insertSession bound ctxSess s).1 = inl sid →
    (bound = Some sid ∨ bound = None ∧ ctxSess = Some sid) ∧ (ctxSess = None ∨ ctxSess = Some sid)).
  { unfold insertSession, TransactionRunning, different.
    destruct bound as [b|], ctxSess as [c|]; try (destruct (Nat.eqb_spec c b)); simpl;
      rewrite ?run_bind, ?run_gets, ?run_ret; cbn [fst snd];
      (split; [by repeat case_match|]); intros sid; repeat case_match; intros [= <-];
      subst; simpl; eauto; congruence. }
  rewrite run_bind. destruct (insertSession bound ctxSess s) as [[sid|e] s1]; simpl in Hs;
    destruct Hs as [-> Hs]; cbn [fst snd]; [|rewrite run_ret; by split_and!; eauto].
  destruct (Hs sid eq_refl) as [Hs1 Hs2]. rewrite Hmeta, run_bind.
  set (doc := mkOutboxDoc _ _ _ _).
  pose proof (run_cases ctx (λ _, q_insertOne sid doc) s Hc) as Hr. cbn beta zeta in Hr.
  assert (Hdec : decodeMessage doc = inl (mkMessage (MsgID msg) 0 (Some (stored md)) (Data msg)
                                            (bsonDate (CreateTime msg)))).
  { unfold decodeMessage, doc. cbn [dMetadata]. by rewrite Hback. }
  unfold q_insertOne in Hr at 1. clearbody doc.
  destruct (pending (mfound s) !! sid) as [l|] eqn:El; [destruct (existsb _ _)|].
  2: { destruct Hr as [-> | (e & He & [-> | ->])]; rewrite run_ret; cbn [fst snd]; (split; [by right|]).
       - split; [|done]. intros _. exists sid, md, doc, l. by split_and!.
       - split; [done|]. intros Ht. rewrite Ht in He. by destruct He.
       - split; [done|]. intros Ht. rewrite Ht in He. by destruct He. }
  all: destruct Hr as (e & -> & He); rewrite run_ret; cbn [fst snd];
    split_and!; [by right|done|]; intros Ht _; unfold mbegin; by rewrite Ht.
Qed.

(** What a publish does, however its reply fares. Committed rows are never
    touched, so no event leaves without its transaction; a success has put
    exactly one row, of this message, among the inserts of a transaction that is
    running on the one session both the store and the context stand for, and
    that row decodes to the message with its metadata in stored form; without a
    fault, a failure has changed nothing. *)
Theorem mongo_publish bound ctxSess ctx msg s :
  ErrAt ctx (hostTime s) = None →
  (∀ md, MsgMetadata msg = Some md → carried md ∧ parseable (Event.DataSchema md)) →
  let '(r, s') := CreateOutboxMessage bound ctxSess ctx msg s in
  (docs (colls s') = docs (colls s) ∨ docs (colls s') = docs (mfound s)) ∧
  (r = None → ∃ sid md doc l,
     (bound = Some sid ∨ bound = None ∧ ctxSess = Some sid) ∧ (ctxSess = None ∨ ctxSess = Some sid) ∧
     pending (mfound s) !! sid = Some l ∧
     colls s' = with_pending (mfound s) (<[sid := l ++ [doc]]> (pending (mfound s))) ∧
     MsgMetadata msg = Some md ∧
     decodeMessage doc =
       inl (mkMessage (MsgID msg) 0 (Some (stored md)) (Data msg) (bsonDate (CreateTime msg)))) ∧
  (mturns s = [] → r ≠ None → s' = s).
Proof. apply publish_joins. Qed.

(** A transaction the caller already runs, on the bound session or the one
    the context carries, is joined: the body runs once, in it, and neither a
    second session nor a second transaction is started; two different sessions
    are refused before anything runs. *)
Theorem WithTransaction_joins driverTx StartSession EndSession bound ctxSess fn sid s :
  (bound = Some sid ∨ bound = None ∧ ctxSess = Some sid) →
  WithTransaction driverTx StartSession EndSession bound ctxSess fn s =
    if different ctxSess sid then (Some (New "ctx carries a different session"), s)
    else if pending (colls s) !! sid is Some _ then fn (Some sid) (Some sid) s
    else driverTx sid (fn (Some sid) (Some sid)) s.
Proof.
  intros [-> | [-> ->]]; unfold WithTransaction, runInSession.
  - destruct (different ctxSess sid); [done|].
    rewrite run_bind. unfold TransactionRunning. rewrite run_gets. cbn [fst snd].
    by destruct (pending (colls s) !! sid).
  - simpl. rewrite Nat.eqb_refl, run_bind. unfold TransactionRunning. rewrite run_gets. cbn [fst snd].
    by destruct (pending (colls s) !! sid).
Qed.

(** ** The retention index *)

(** The TTL index is created only with a number of seconds that is exactly
    the configured retention, at least one and within 32 bits; any other
    retention is refused before a command is sent; and an index that exists is
    never changed by it. *)
Theorem EnsureIndexes_exact c ctx s :
  ErrAt ctx (hostTime s) = None →
  let '(r, s') := EnsureIndexes c ctx s in
  (r = None → ∃ secs, ttl_index (colls s') = Some secs ∧ secs * Second = retention c ∧
     1 <= secs <= MaxInt32) ∧
  ((∀ secs, secs * Second = retention c → ¬ 1 <= secs <= MaxInt32) → r ≠ None ∧ s' = s) ∧
  (∀ secs, ttl_index (colls s) = Some secs → ttl_index (mfound s) = Some secs →
     ttl_index (colls s') = Some secs).
Proof.
  intros Hc. unfold EnsureIndexes.
  pose proof (Z.quot_rem' (retention c) Second) as Hqr.
  destruct (Z.eqb_spec (Z.rem (retention c) Second) 0) as [Hr0|Hr0]; cbn [negb];
    [|rewrite run_ret; split_and!; try done; intros secs0 Hs0; exfalso; apply Hr0; rewrite <-Hs0; apply Z.rem_mul; done].
  set (secs := Z.quot (retention c) Second) in *.
  destruct (_ || _) eqn:Eb; [rewrite run_ret; by split_and!|].
  assert (1 <= secs <= MaxInt32) by (zbool; lia).
  assert (secs * Second = retention c) by lia.
  rewrite run_bind. pose proof (run_cases ctx (λ _, q_createIndex secs) s Hc) as Hr.
  cbn beta zeta in Hr. unfold q_createIndex in Hr at 1.
  destruct (ttl_index (mfound s)) as [x|] eqn:Ex; [destruct (Z.eqb_spec x secs) as [->|]|].
  2: { destruct Hr as (e & -> & _). rewrite run_ret. cbn [fst snd]. split_and!; [done|naive_solver|].
       by intros ? _ [= <-]. }
  all: destruct Hr as [-> | (e & _ & [-> | ->])]; rewrite run_ret; cbn [fst snd];
    split_and!; try done; try naive_solver.
Qed.

(** ** The stream *)

(** C35: what the relay is told of each step of the cursor. An empty window only
    when the cursor yielded nothing, has no error and is still open; a document
    it yielded is never skipped: it is the event, a decoding error carrying the
    event's own resume position, or the invalidation of the stream; and a lost
    resume point is told apart from other failures. *)
Theorem Next_classifies m ctx s :
  let '(got, s1) := TryNext m ctx s in
  let '(ev, ok, e, s') := mNext m ctx s in
  if got : bool then
    let raw := (Current m s1).1 in
    match decoded raw with
    | inl ce =>
        let pos := Unix (CommitT ce) in
        if String.eqb (OperationType ce) "invalidate" then ev = None ∧ ok = false ∧ Is e ErrInvalidated = true
        else match decodeMessage (FullDocument ce) with
        | inl msg => ev = Some (Some msg, ceID ce, pos) ∧ ok = true ∧ e = None
        | inr why => ev = None ∧ ok = false ∧ Is e ErrPoisonEnvelope = is_err why ErrPoisonEnvelope ∧
            ∃ er, As asStreamDecode e = Some (er, dID (FullDocument ce), ceID ce, pos)
        end
    | inr _ => ev = None ∧ ok = false ∧
        ∃ er id ct, As asStreamDecode e = Some (er, id, default ""%string (rawID raw), ct)
    end
  else ev = None ∧ ok = false ∧
    match (csErr m s1).1 with
    | None => e = None ↔ (csID m (csErr m s1).2).1 ≠ 0
    | Some er => e ≠ None ∧ (isHistoryLost er = true → Is e ErrHistoryLost = true) ∧
        (isHistoryLost er = false → Is e ErrHistoryLost = is_err er ErrHistoryLost)
    end.
Proof.
  unfold mNext. rewrite run_bind. destruct (TryNext m ctx s) as [got s1]. cbn [fst snd].
  destruct got; cbn [negb].
  - rewrite run_bind. destruct (Current m s1) as [raw s2]. cbn [fst snd].
    destruct (decoded raw) as [ce|er]; [|rewrite run_ret; unfold decodeErrorFromRaw; by eauto 7].
    destruct (String.eqb _ _); [rewrite run_ret; by split_and!|].
    destruct (decodeMessage _) as [msg|why]; rewrite run_ret; split_and!; try done; [|by eexists].
    simpl. by rewrite orb_false_r.
  - rewrite run_bind. destruct (csErr m s1) as [[er|] s2]; cbn [fst snd].
    + destruct (isHistoryLost er); rewrite run_ret; split_and!; try done.
      intros _. simpl. by rewrite orb_false_r.
    + rewrite run_bind. destruct (csID m s2) as [id s3]. cbn [fst snd].
      destruct (Z.eqb_spec id 0); rewrite run_ret; by split_and!.
Qed.
End contract.
