(* ===== verification/MongoDelivery.v ===== *)
(** * At-least-once delivery on MongoDB

    What the MongoDB store claims of its log of changes: the token a group has
    stored covers only changes that were disposed of ([log_safe]). The store, with
    a driver whose cursors walk the log in order ([ChangeStreams]), is a
    [ChangeLog] for the relay, so a relay of the group keeps the claim, whatever
    others do between its commands. *)
From S2P Require Import Prelude Errors GoLib Event Json Envelope Bound Relay Scenario Notify Leader Lane RelayCfg Stream StreamProps Safety StreamDelivery Mongo MongoProps.
#[local] Open Scope Z_scope.

(** ** The driver's cursors *)

(** The resume token of a change. *)
Definition token_of (raw : rawChange) : option string :=
  match decoded raw with inl ce => Some (ceID ce) | inr _ => rawID raw end.

(** The changes of the collections are those of the others that had a turn. *)
Definition turned (s s' : msess) : Prop :=
  ∃ ts, mturns s = ts ++ mturns s' ∧ colls s' = foldl (λ d t, mothers t d) (colls s) ts.

Section cursors.
Context (open : cx → option string → option Z → M msess (res cursor)).
Definition is_open (cs : cursor) : Prop :=
  ∃ c tok n s s', open c tok n s = (inl cs, s').

(** What the relay relies on of change streams. [served] are the logs a server
    can have, in which no two changes share a token. A resume token has a place in
    the log, which the log's growth does not move, and a change's token lies right
    after it; a cursor opened after a token starts at its place, goes through the
    log change by change, and its own resume token is its position. The errors
    are the driver's. *)
Class ChangeStreams := {
  served : list rawChange → Prop;
  place : list rawChange → string → option nat;
  pos : cursor → gmap nat nat → nat;
  place_grows l l' t n : served l' → l `prefix_of` l' → place l t = Some n → place l' t = Some n;
  place_within l t n : place l t = Some n → (n <= length l)%nat;
  served_decodes l raw e : served l → raw ∈ l → decoded raw = inr e → ordinary e;
  place_change l n raw t : served l → l !! n = Some raw → token_of raw = Some t → place l t = Some (S n);
  open_turned c tok n s : turned s (open c tok n s).2;
  open_at c t n s cs i :
    (open c (Some t) n s).1 = inl cs → place (changes (colls (open c (Some t) n s).2)) t = Some i →
    pos cs (cursors (open c (Some t) n s).2) = i;
  next_turned cs c s : is_open cs → turned s (TryNext cs c s).2;
  next_at cs c s : is_open cs →
    let '(got, s') := TryNext cs c s in
    if got : bool then ∃ raw, Current cs s' = (raw, s') ∧
      changes (colls s') !! pos cs (cursors s) = Some raw ∧ pos cs (cursors s') = S (pos cs (cursors s))
    else pos cs (cursors s') = pos cs (cursors s) ∧
      (∀ er, (csErr cs s').1 = Some er → As asStreamDecode (Some er) = None ∧ (ordinary_cx c → ordinary er));
  err_turned cs s : is_open cs → turned s (csErr cs s).2 ∧ pos cs (cursors (csErr cs s).2) = pos cs (cursors s);
  id_turned cs s : is_open cs → turned s (csID cs s).2 ∧ pos cs (cursors (csID cs s).2) = pos cs (cursors s);
  token_turned cs s : is_open cs → ∀ cs', turned s (ResumeToken cs s).2 ∧
    pos cs' (cursors (ResumeToken cs s).2) = pos cs' (cursors s);
  token_at cs s t : is_open cs → (ResumeToken cs s).1 = Some t →
    place (changes (colls (ResumeToken cs s).2)) t = Some (pos cs (cursors (ResumeToken cs s).2));
  close_turned cs c s : is_open cs → turned s (csClose cs c s).2 }.
End cursors.
#[global] Arguments place {_ _} _ _.
#[global] Arguments pos {_ _} _ _.
#[global] Arguments served {_ _} _.
#[global] Arguments served_decodes {_ _}.
#[global] Arguments place_grows {_ _}.
#[global] Arguments place_within {_ _}.
#[global] Arguments place_change {_ _}.
#[global] Arguments open_turned {_ _}.
#[global] Arguments open_at {_ _}.
#[global] Arguments next_turned {_ _}.
#[global] Arguments next_at {_ _}.
#[global] Arguments err_turned {_ _}.
#[global] Arguments id_turned {_ _}.
#[global] Arguments token_turned {_ _}.
#[global] Arguments token_at {_ _}.
#[global] Arguments close_turned {_ _}.

(** ** The account of a group *)
Section account.
Context `{UrlStruct} `{GoJson} `{MongoDriver}.
Context {open : cx → option string → option Z → M msess (res cursor)} `{!ChangeStreams open}.

(** The group, how many changes lie before its account, and the messages its
    relays disposed of. *)
Record account := mkAccount { group : string; began : nat; delivered : Message → Prop }.
Context (G : account).

(** A change is accounted for by the message it decodes to, or as a poison event
    by the stub the handler takes. *)
Definition accounted (raw : rawChange) : Prop :=
  match decoded raw with
  | inl ce => match decodeMessage (FullDocument ce) with
              | inl m => delivered G m
              | inr _ => delivered G (stub (dID (FullDocument ce)))
              end
  | inr _ => delivered G (stub (default ""%string (rawFullID raw)))
  end.
Definition upto (d : mdb) (n : nat) : Prop :=
  (n <= length (changes d))%nat ∧
  ∀ j raw, (began G <= j < n)%nat → changes d !! j = Some raw → accounted raw.
Definition covered (d : mdb) (t : string) : Prop := ∃ n, place (changes d) t = Some n ∧ upto d n.
Definition log_safe (d : mdb) : Prop :=
  served (changes d) ∧
  ∃ row, offs d !! group G = Some row ∧ resume_token row ≠ ""%string ∧ covered d (resume_token row).
(** A change of the collections the group can live with. *)
Definition evolves (d d' : mdb) : Prop :=
  log_safe d → changes d `prefix_of` changes d' ∧ log_safe d'.
#[export] Instance evolves_preorder : PreOrder evolves.
Proof.
  split; [by intros d|]. intros d1 d2 d3 H12 H23 Hs. destruct (H12 Hs) as [? Hs2].
  destruct (H23 Hs2). split; [by etrans|done].
Qed.

Lemma upto_grows d d' n : changes d `prefix_of` changes d' → upto d n → upto d' n.
Proof.
  intros [l El] [Hn Hu]. split; [rewrite El, length_app; lia|]. intros j raw Hj Hl.
  apply (Hu j); [done|]. rewrite El, lookup_app_l in Hl by lia. done.
Qed.
Lemma upto_next d n raw :
  changes d !! n = Some raw → upto d n → accounted raw → upto d (S n).
Proof.
  intros Hl [Hn Hu] Ha. split; [apply lookup_lt_Some in Hl; lia|]. intros j raw' Hj Hl'.
  destruct (decide (j = n)) as [->|]; [congruence|]. apply (Hu j); [lia|done].
Qed.
Lemma covered_grows d d' t :
  served (changes d') → changes d `prefix_of` changes d' → covered d t → covered d' t.
Proof. intros Hsv Hp (n & Hn & Hu). exists n. split; [by eapply place_grows|by eapply upto_grows]. Qed.
(** A change and its token. *)
Lemma covered_next d n raw t :
  served (changes d) → changes d !! n = Some raw → token_of raw = Some t → upto d (S n) → covered d t.
Proof. intros Hsv Hl Ht Hu. exists (S n). split; [by eapply place_change|done]. Qed.

(** ** The claims *)
Definition decent (t : mturn) : Prop :=
  (∀ d, evolves d (mothers t d)) ∧
  match mhow t with MRefused e | MLost e => plain_fault e | MReply => True end.
Context (d0 : mdb).
#[local] Instance mongo_safety : Safety (point msess) msess := λ p s,
  changes d0 `prefix_of` changes (colls s) ∧ log_safe (colls s) ∧ Forall decent (mturns s) ∧
  match p with
  | Base | Stored => True
  | Tok t => covered (colls s) t
  | Cur st => ∃ cs, is_open open cs ∧ st = mStream cs ∧ upto (colls s) (pos cs (cursors s))
  end.

(** Others' turns keep the claims; so does what leaves a cursor where it is. *)
Lemma turned_evolves s s' :
  turned s s' → Forall decent (mturns s) → evolves (colls s) (colls s') ∧ Forall decent (mturns s').
Proof.
  intros (ts & -> & ->) [Hts Ht]%Forall_app. split; [|done].
  generalize (colls s) as d. clear -Hts. induction Hts as [|t ts [Hd _] _ IH]; intros d; simpl; [done|].
  etrans; [apply Hd|apply IH].
Qed.
Lemma turned_prefix s s' : turned s s' → Safe Base s → changes (colls s) `prefix_of` changes (colls s').
Proof. intros Ht (_ & Hl & Hd & _). destruct (turned_evolves s s' Ht Hd) as [Hev _]. by apply Hev. Qed.
Lemma turned_safe s s' p :
  turned s s' → (∀ cs, p = Cur (mStream cs) → pos cs (cursors s') = pos cs (cursors s)) →
  Safe p s → Safe p s'.
Proof.
  intros Ht Hpos (H0' & Hl & Hd & Hp). destruct (turned_evolves s s' Ht Hd) as [Hev Hd'].
  destruct (Hev Hl) as [Hpre Hl']. split_and!; [by etrans|done|done|].
  destruct p as [|t|st|]; [done|eapply covered_grows; [apply Hl'|done..]| |done].
  destruct Hp as (cs & Ho & -> & Hu). exists cs. split_and!; [done|done|].
  rewrite (Hpos cs eq_refl). by eapply upto_grows.
Qed.
Lemma turned_refl s : turned s s.
Proof. by exists []. Qed.

(** ** Commands *)
Lemma mbegin_turned s : turned s (mbegin s).2 ∧ cursors (mbegin s).2 = cursors s.
Proof.
  unfold turned, mbegin. destruct s as [c h v [|t ts] cu]; simpl; (split; [|done]); [by exists []|by exists [t]].
Qed.
Lemma mbegin_safe s p : Safe p s → Safe p (mbegin s).2.
Proof.
  destruct (mbegin_turned s) as [Ht Hc]. apply turned_safe; [done|]. intros cs _. by rewrite Hc.
Qed.
(** A command under the claims runs on collections that have them, if it runs. *)
Lemma run_claim {A} ctx (q : Z → command A) s :
  Safe Base s →
  let '(r, s') := run ctx q s in
  ∃ s0, (∀ p, Safe p s → Safe p s0) ∧
  ((∃ now d a, q now (colls s0) = inl (d, a) ∧ s' = with_colls s0 d ∧
      (r = inl a ∨ ∃ e, r = inr e ∧ plain_fault e)) ∨
   s' = s0 ∧ ∃ e, r = inr e ∧ (plain_fault e ∨ e = cx_err ctx ∨ ∃ now, q now (colls s0) = inr e)).
Proof.
  intros Hs. unfold run, ErrAt. destruct (doneAt _ _).
  { exists s. split; [done|]. right. eauto 10. }
  pose proof (mbegin_safe s) as Hb.
  assert (Hf : match (mbegin s).1 with MRefused e | MLost e => plain_fault e | MReply => True end).
  { destruct Hs as (_ & _ & Ht & _). unfold mbegin. destruct (mturns s); [done|]. by apply Forall_inv, proj2 in Ht. }
  destruct (mbegin s) as [f s0]. cbn [fst snd] in *. set (now := bsonDate _).
  destruct f as [|e|e].
  - destruct (q now (colls s0)) as [[d a]|e] eqn:E; exists s0; (split; [done|]); [left|right]; eauto 12.
  - exists s0. split; [done|]. right. eauto 10.
  - destruct (q now (colls s0)) as [[d a]|e'] eqn:E; exists s0; (split; [done|]); [left|right]; eauto 12.
Qed.

(** Commands that touch neither the log nor the positions. *)
Definition aside (d d' : mdb) : Prop := changes d' = changes d ∧ offs d' = offs d.
Lemma aside_safe s d p : aside (colls s) d → Safe p s → Safe p (with_colls s d).
Proof.
  intros [Ec Eo] (? & (? & row & Hr & Hne & Hcov) & ? & Hp).
  assert (Hcv : ∀ t, covered (colls s) t → covered d t) by (intros t; unfold covered, upto; by rewrite Ec).
  split_and!; simpl; [by rewrite Ec|split; [by rewrite Ec|exists row; rewrite Eo; eauto]|done|].
  destruct p as [|t|st|]; [done|auto| |done]. destruct Hp as (cs & ? & ? & Hu). exists cs.
  split_and!; [done|done|]. unfold upto in *. by rewrite Ec.
Qed.
Lemma safe_base p s : Safe p s → Safe Base s.
Proof. by intros (? & ? & ? & _). Qed.
Lemma harmless_run {A} ctx (q : Z → command A) :
  (∀ now d d' a, q now d = inl (d', a) → aside d d') → harmless (run ctx q).
Proof.
  intros Hq p s Hs. pose proof (run_claim ctx q s (safe_base _ _ Hs)) as Hr.
  destruct (run ctx q s) as [r s']. destruct Hr as (s0 & Hs0 & [(now & d & a & E & -> & _)|(-> & _)]); [|by apply Hs0].
  simpl. apply aside_safe; [by eapply Hq|by apply Hs0].
Qed.
Lemma reading_harmless {A} (f : msess → A) : harmless (gets f).
Proof. intros p. apply keeps_gets. Qed.
Lemma host_harmless : harmless (now : M msess Z).
Proof. apply reading_harmless. Qed.

Lemma acquire_aside n h ms now d d' a : q_acquire n h ms now d = inl (d', a) → aside d d'.
Proof. unfold q_acquire. by intros [= <- _]. Qed.
Lemma release_aside n h d d' a : q_release n h d = inl (d', a) → aside d d'.
Proof. unfold q_release. intros. by repeat case_match; simplify_eq. Qed.
Lemma createIndex_aside n d d' a : q_createIndex n d = inl (d', a) → aside d d'.
Proof. unfold q_createIndex. intros. by repeat case_match; simplify_eq. Qed.
Lemma findToken_aside n d d' a : q_findToken n d = inl (d', a) → aside d d'.
Proof. unfold q_findToken. destruct (offs d !! n); [|done]. by intros [= <- _]. Qed.

Lemma Acquire_harmless c n h t : harmless (TryAcquireLeaderLock c n h t).
Proof.
  unfold TryAcquireLeaderLock. apply harmless_bind; [|intros ?; apply harmless_ret].
  apply harmless_run. intros now d d' a. apply acquire_aside.
Qed.
Lemma Unlock_harmless c n h : harmless (ReleaseLeaderLock c n h).
Proof.
  unfold ReleaseLeaderLock. apply harmless_bind; [|intros ?; apply harmless_ret].
  apply harmless_run. intros now d d' a. apply release_aside.
Qed.
Lemma EnsureIndexes_harmless cf c : harmless (EnsureIndexes cf c).
Proof.
  unfold EnsureIndexes. destruct (negb _); [apply harmless_ret|]. destruct (_ || _); [apply harmless_ret|].
  apply harmless_bind; [|intros ?; apply harmless_ret]. apply harmless_run. intros now d d' a. apply createIndex_aside.
Qed.
Lemma Load_harmless c n : harmless (LoadToken c n).
Proof.
  unfold LoadToken. apply harmless_bind; [|intros ?; apply harmless_ret].
  apply harmless_run. intros now d d' a. apply findToken_aside.
Qed.

(** *** The stored position *)
Lemma Load_claim c s tok ct :
  ordinary_cx c → Safe Base s → (LoadToken c (group G) s).1 = inl (tok, ct) →
  tok ≠ ""%string ∧ Safe (Tok tok) (LoadToken c (group G) s).2.
Proof.
  intros [_ Hctx] Hs. unfold LoadToken. rewrite run_bind.
  pose proof (run_claim c (λ _, q_findToken (group G)) s Hs) as Hr.
  destruct (run _ _ s) as [r s']. rewrite run_ret. cbn [fst snd].
  destruct Hr as (s0 & Hs0 & Hr). specialize (Hs0 _ Hs).
  destruct Hs0 as (? & Hl & ? & _). pose proof Hl as (_ & row & Hrow & Hne & Hcov).
  unfold q_findToken in Hr. rewrite Hrow in Hr.
  destruct Hr as [(now & d & a & E & -> & Hr)|(-> & e & -> & He)].
  - injection E as <- <-. destruct Hr as [->|(e & -> & _ & He)]; [|by rewrite He].
    intros [= <- _]. split; [done|]. by split_and!.
  - destruct He as [[_ He]|[->|(now & Hq)]]; [by rewrite He|by rewrite Hctx|done].
Qed.
Lemma saved_safe s tok key ct t p :
  tok ≠ ""%string → Safe (Tok tok) s → Safe p s →
  Safe p (with_colls s (with_offs (colls s) (<[group G := mkOffsetDoc tok key ct t]> (offs (colls s))))).
Proof.
  intros Hne (? & [? _] & ? & Hcov) (_ & _ & _ & Hp). split_and!; simpl; [done| |done|].
  - split; [done|]. exists (mkOffsetDoc tok key ct t). simpl. rewrite lookup_insert_eq. by split_and!.
  - by destruct p.
Qed.
Lemma Save_claim c tok ct s :
  Safe (Tok tok) s →
  let '(r, s') := SaveToken c (group G) tok ct s in
  (∀ p, Safe p s → Safe p s') ∧
  match r with inr e => ordinary_cx c → ordinary e | inl _ => True end.
Proof.
  intros Hs. unfold SaveToken. destruct (String.eqb_spec tok "") as [->|Hne]; [by rewrite run_ret|].
  rewrite run_bind. unfold hostNow. rewrite run_gets. cbn [fst snd]. rewrite run_bind.
  set (key := tokenKeyFromString tok).
  pose proof (run_claim c (λ _, q_saveToken (group G) tok key ct (hostTime s)) s (safe_base _ _ Hs)) as Hr.
  destruct (run _ _ s) as [r s']. rewrite run_ret. cbn [fst snd].
  destruct Hr as (s0 & Hs0 & [(now & d & a & E & -> & Hr)|(-> & e & -> & He)]).
  - assert (∃ k' c' t', d = with_offs (colls s0) (<[group G := mkOffsetDoc tok k' c' t']> (offs (colls s0))))
      as (k' & c' & t' & ->).
    { destruct (q_saveToken_cases (group G) tok key ct (hostTime s) (colls s0)) as [[Hq _]|[Hq _]];
        cbv zeta in Hq; rewrite Hq in E; [|done]. injection E as <- _. eauto. }
    split; [intros p Hp; by apply saved_safe; [|apply Hs0|apply Hs0]|].
    destruct Hr as [->|(e & -> & He & _)]; [done|]. destruct (IsDuplicateKeyError e); [done|].
    intros _. unfold ordinary, wrapf. simpl. unfold ordinary in He. by rewrite He.
  - split; [done|]. destruct (IsDuplicateKeyError e) eqn:Ed; [done|]. intros Hc.
    assert (Ho : ordinary e); [|unfold ordinary, wrapf in *; simpl; by rewrite Ho].
    destruct He as [[? _]|[->|(now & Hq)]]; [done|by apply ordinary_cx_err|].
    destruct (q_saveToken_cases (group G) tok key ct (hostTime s) (colls s0)) as [[Hq' _]|[Hq' _]];
      cbv zeta in Hq'; rewrite Hq' in Hq; [done|]. injection Hq as <-. by rewrite duplicateKey_is in Ed.
Qed.

(** *** The cursor *)
Definition valid (st : Stream msess) : Prop := ∃ cs, is_open open cs ∧ st = mStream cs.

Lemma turned_trans s1 s2 s3 : turned s1 s2 → turned s2 s3 → turned s1 s3.
Proof.
  intros (t1 & E1 & C1) (t2 & E2 & C2). exists (t1 ++ t2).
  by rewrite E1, E2, C2, C1, app_assoc, foldl_app.
Qed.
Definition cursor_safe {A} (m : M msess A) : Prop := ∀ s, turned s (m s).2.
Lemma cursor_safe_call {A} (m : M msess A) : cursor_safe m → cursor_call m.
Proof. intros Hm p Hp s. apply turned_safe; [apply Hm|]. intros cs ->. by destruct (Hp (mStream cs)). Qed.
Lemma cursor_safe_bind {A B} (m : M msess A) (f : A → M msess B) :
  cursor_safe m → (∀ a, cursor_safe (f a)) → cursor_safe (m ≫= f).
Proof. intros Hm Hf s. eapply turned_trans; [apply Hm|apply Hf]. Qed.
Lemma cursor_safe_ret {A} (a : A) : cursor_safe (mret a).
Proof. intros s. apply turned_refl. Qed.
#[local] Hint Resolve cursor_safe_bind cursor_safe_ret : safe.

Lemma current_safe cs c s :
  is_open open cs → (TryNext cs c s).1 = true → (Current cs (TryNext cs c s).2).2 = (TryNext cs c s).2.
Proof.
  intros Ho Hg. pose proof (next_at cs c s Ho) as Hn. destruct (TryNext cs c s) as [got s']. simpl in *. subst got.
  destruct Hn as (raw & -> & _). done.
Qed.
Lemma mNext_turned cs c : is_open open cs → cursor_safe (mNext cs c).
Proof.
  intros Ho s. unfold mNext. rewrite run_bind. pose proof (next_turned cs c s Ho) as Ht.
  pose proof (current_safe cs c s Ho) as Hc.
  destruct (TryNext cs c s) as [[] s']; cbn [fst snd negb] in *; rewrite run_bind.
  - destruct (Current cs s') as [raw s2]. cbn [fst snd] in *. rewrite (Hc eq_refl).
    by repeat case_match; rewrite run_ret.
  - destruct (err_turned cs s' Ho) as [He _].
    assert (Hs : turned s (csErr cs s').2) by by eapply turned_trans.
    destruct (csErr cs s') as [[er|] s2]; cbn [fst snd] in *.
    { by case_match; rewrite run_ret. }
    destruct (id_turned cs s2 Ho) as [Hi _]. rewrite run_bind.
    destruct (_ =? 0); rewrite run_ret; by eapply turned_trans.
Qed.
(** Where a cursor stands after a call that leaves it in place. *)
Lemma cur_safe cs s s' :
  is_open open cs → turned s s' → Safe Base s → upto (colls s) (pos cs (cursors s)) →
  pos cs (cursors s') = pos cs (cursors s) → Safe (Cur (mStream cs)) s'.
Proof.
  intros Ho Ht Hs Hu Ep. destruct (turned_safe s s' Base Ht) as (? & ? & ? & _); [done|done|].
  split_and!; try done. exists cs. split_and!; [done|done|]. rewrite Ep.
  eapply upto_grows; [by eapply turned_prefix|done].
Qed.
(** Past the change it stands at. *)
Lemma change_safe cs s s' raw tok :
  is_open open cs → turned s s' → Safe Base s → upto (colls s) (pos cs (cursors s)) →
  changes (colls s') !! pos cs (cursors s) = Some raw → pos cs (cursors s') = S (pos cs (cursors s)) →
  accounted raw → token_of raw = Some tok → Safe (Cur (mStream cs)) s' ∧ Safe (Tok tok) s'.
Proof.
  intros Ho Ht Hs Hu Hl Ep Ha Htok. destruct (turned_safe s s' Base Ht) as (? & [? ?] & ? & _); [done|done|].
  assert (Hu' : upto (colls s') (S (pos cs (cursors s)))).
  { apply (upto_next _ _ raw); [done| |done]. eapply upto_grows; [by eapply turned_prefix|done]. }
  split; split_and!; try done; [|by eapply covered_next].
  exists cs. split_and!; [done|done|]. by rewrite Ep.
Qed.

(** The decoders are the standard library's and the driver's: their errors are
    not the relay's. *)
Context (Hlib : ∀ doc e, decodeMessage doc = inr e → ordinary e).
Lemma mNext_claim cs c s e ok er s' :
  is_open open cs → Safe Base s → upto (colls s) (pos cs (cursors s)) →
  mNext cs c s = ((e, ok, er), s') →
  match er with
  | None =>
      (ok = false → Safe (Cur (mStream cs)) s') ∧
      (∀ m tok ct, ok = true → e = Some (Some m, tok, ct) → delivered G m →
         Safe (Cur (mStream cs)) s' ∧ Safe (Tok tok) s')
  | Some er =>
      (ordinary_cx c → ordinary er) ∧
      ∀ d id tok ct, As asStreamDecode (Some er) = Some (d, id, tok, ct) → tok ≠ ""%string →
        delivered G (stub id) → Safe (Cur (mStream cs)) s' ∧ Safe (Tok tok) s'
  end.
Proof.
  intros Ho Hs Hu. unfold mNext. rewrite run_bind.
  pose proof (next_turned cs c s Ho) as Ht. pose proof (next_at cs c s Ho) as Hn.
  destruct (TryNext cs c s) as [[] s1]; cbn [fst snd negb] in *; rewrite run_bind.
  - destruct Hn as (raw & -> & Hl & Ep). cbn [fst snd].
    assert (Hdec : ∀ e, decoded raw = inr e → ordinary e).
    { intros er1. destruct (turned_safe s s1 Base Ht) as (_ & [Hsv _] & _); [done|done|].
      apply (served_decodes _ raw er1 Hsv). by eapply list_elem_of_lookup_2. }
    pose proof (λ tok, change_safe cs s s1 raw tok Ho Ht Hs Hu Hl Ep) as Hgo. unfold accounted, token_of in Hgo.
    destruct (decoded raw) as [ce|de].
    + destruct (String.eqb _ _); [by rewrite run_ret; intros [= <- <- <- <-]|].
      destruct (decodeMessage (FullDocument ce)) as [msg|why] eqn:Ed; rewrite run_ret; intros [= <- <- <- <-].
      * split; [done|]. intros m tok ct _ [= <- <- <-] HD. by apply Hgo.
      * split; [intros _; unfold ordinary; simpl; by rewrite (Hlib _ _ Ed)|].
        intros d id tok ct. simpl. intros [= <- <- <- <-] Htok HD. by apply Hgo.
    + rewrite run_ret. intros [= <- <- <- <-].
      split; [intros _; unfold ordinary; simpl; by rewrite (Hdec _ eq_refl)|].
      intros d id tok ct. simpl. intros [= <- <- <- <-] Htok HD. apply Hgo; [done|].
      by destruct (rawID raw).
  - destruct Hn as [Ep Herr]. destruct (err_turned cs s1 Ho) as [He Ep2].
    destruct (csErr cs s1) as [[er1|] s2]; cbn [fst snd] in *.
    + destruct (Herr _ eq_refl) as [Hf Hord]. unfold As in Hf. simpl in Hf.
      destruct (isHistoryLost er1); rewrite run_ret; intros [= <- <- <- <-];
        (split; [intros Hc; unfold ordinary; simpl; by rewrite (Hord Hc)|]);
        intros d id tok ct; simpl; by rewrite Hf.
    + rewrite run_bind. destruct (id_turned cs s2 Ho) as [Hi Ep3].
      destruct (csID cs s2) as [id s3]. cbn [fst snd] in *.
      destruct (id =? 0); rewrite run_ret; intros [= <- <- <- <-]; [done|]. split; [|done]. intros _.
      apply (cur_safe cs s); [done| |done|done|by rewrite Ep3, Ep2].
      eapply turned_trans; [exact Ht|]. by eapply turned_trans.
Qed.
Lemma mCheckpoint_harmless cs : is_open open cs → harmless (mCheckpoint cs).
Proof.
  intros Ho. unfold mCheckpoint. apply harmless_bind.
  - intros p s. destruct (token_turned cs s Ho cs) as [Ht _]. apply turned_safe; [done|].
    intros cs' _. by destruct (token_turned cs s Ho cs').
  - intros [tok|]; [|apply harmless_ret]. destruct (clusterTimeFromToken tok); [apply harmless_ret|].
    apply harmless_bind; [apply reading_harmless|intros ?; apply harmless_ret].
Qed.
Lemma mCheckpoint_claim cs s tok ct b s' :
  is_open open cs → Safe Base s → upto (colls s) (pos cs (cursors s)) →
  mCheckpoint cs s = ((tok, ct, b), s') → tok ≠ ""%string → Safe (Tok tok) s'.
Proof.
  intros Ho Hs Hu. unfold mCheckpoint. rewrite run_bind.
  destruct (token_turned cs s Ho cs) as [Ht Ep]. pose proof (λ t, token_at cs s t Ho) as Hat.
  destruct (ResumeToken cs s) as [[t|] s1]; cbn [fst snd] in *; [|by rewrite run_ret; intros [= <- <- <- <-]].
  assert (Hfin : Safe (Tok t) s1).
  { destruct (turned_safe s s1 Base Ht) as (? & ? & ? & _); [done|done|]. split_and!; try done.
    exists (pos cs (cursors s1)). split; [by apply Hat|]. rewrite Ep.
    eapply upto_grows; [by eapply turned_prefix|done]. }
  destruct (clusterTimeFromToken t); [by rewrite run_ret; intros [= <- <- <- <-]|].
  rewrite run_bind. unfold hostNow. rewrite run_gets, run_ret. cbn [fst snd]. by intros [= <- <- <- <-].
Qed.
Lemma Watch_turned c tok n : cursor_safe (Watch open c tok n).
Proof. unfold Watch. apply cursor_safe_bind; [intros s; apply open_turned|intros ?; apply cursor_safe_ret]. Qed.
Lemma Watch_claim c tok n s st :
  tok ≠ ""%string → Safe (Tok tok) s → (Watch open c tok n s).1 = inl st →
  valid st ∧ Safe (Cur st) (Watch open c tok n s).2.
Proof.
  intros Hne Hs. unfold Watch. destruct (String.eqb_spec tok ""); [done|]. rewrite run_bind, run_ret.
  set (w := if 0 <? n then Some n else None).
  pose proof (open_turned c (Some tok) w s) as Ht.
  pose proof (λ cs i, open_at c tok w s cs i) as Hat.
  destruct (open c (Some tok) w s) as [[cs|e] s1] eqn:E; cbn [fst snd] in *; [|by case_match].
  intros [= <-]. assert (Ho : is_open open cs) by by repeat eexists.
  split; [by eexists|]. destruct (turned_safe s s1 (Tok tok) Ht) as (? & ? & ? & i & Hi & Hu); [done|done|].
  split_and!; try done. exists cs. split_and!; [done|done|]. by rewrite (Hat cs i).
Qed.
Lemma mClose_turned cs c : is_open open cs → cursor_safe (mClose cs c).
Proof.
  intros Ho. unfold mClose. apply cursor_safe_bind; [intros s; by apply close_turned|intros ?; apply cursor_safe_ret].
Qed.

(** ** The relay on the store *)
Record on_mongo (r : Relay msess) : Prop := mkOnMongo {
  om_name : name r = group G;
  om_store : store r = relay_store open;
  om_leader st : ls (leader r) = Some st → st = relay_leader;
  om_ensurer f : ensurer r = Some f → ∃ c, f = EnsureIndexes c;
  om_poison h c m x w e : Poison (lane r) = Some h → (h c m x w).1 = Some e → ordinary e }.
Lemma mongo_change_log (r : Relay msess) :
  on_mongo r → harmless_lane (lane r) → ChangeLog r (delivered G) valid.
Proof.
  intros Hr Hl. split.
  - done.
  - split; [apply host_harmless| |]; intros st c n h; [intros t|]; intros Hst;
      rewrite (om_leader r Hr _ Hst); [apply Acquire_harmless|apply Unlock_harmless].
  - intros f c Hf. destruct (om_ensurer r Hr _ Hf) as [cf ->]. apply EnsureIndexes_harmless.
  - apply safe_base.
  - intros c. rewrite (om_store r Hr). apply Load_harmless.
  - intros c w tok ct Hs. rewrite (om_name r Hr), (om_store r Hr). intros Hres w'.
    by destruct (Load_claim c w tok ct Hs Hres).
  - intros c tok n. rewrite (om_store r Hr). apply cursor_safe_call, Watch_turned.
  - intros c tok n w st. rewrite (om_store r Hr). apply Watch_claim.
  - intros st c (cs & Ho & ->). by apply cursor_safe_call, mNext_turned.
  - intros st c w e ok er w' _ Hs E. pose proof (safe_base _ _ Hs) as Hb.
    destruct Hs as (_ & _ & _ & cs & Ho & -> & Hu). by eapply (mNext_claim cs c w).
  - intros st (cs & Ho & ->). by apply mCheckpoint_harmless.
  - intros st w tok ct b w' _ Hs E. pose proof (safe_base _ _ Hs) as Hb.
    destruct Hs as (_ & _ & _ & cs & Ho & -> & Hu). by eapply (mCheckpoint_claim cs w).
  - intros st c (cs & Ho & ->). by apply cursor_safe_call, mClose_turned.
  - intros c tok ct p w Ht Hp. rewrite (om_name r Hr), (om_store r Hr).
    pose proof (Save_claim c tok ct w Ht) as Hs. simpl. destruct (SaveToken _ _ _ _ w) as [x w'].
    by apply (proj1 Hs).
  - intros c tok ct w Ht. rewrite (om_name r Hr), (om_store r Hr).
    pose proof (Save_claim c tok ct w Ht) as Hs. simpl.
    destruct (SaveToken _ _ _ _ w) as [[[]|e] w']; destruct Hs as [Hs He]; [|done..].
    by destruct (Hs _ Ht) as (? & ? & ? & _).
  - apply (om_poison r Hr).
Qed.
End account.
