(* ===== verification/StreamGroup.v ===== *)
(** * Change-stream relays of one group side by side

    [group_run]: what may happen to the collections of an outbox in which any
    number of stream relays of one consumer group run, each command of each
    interleaved with the others, with transactions that commit, with the relays
    of other groups and with the TTL index. Nothing is assumed of leadership.
    Whatever happens, the position the group has stored covers only changes that
    one of them delivered or parked. *)
From S2P Require Import Prelude Errors GoLib Event Json Envelope Bound Relay Scenario Notify Leader Lane RelayCfg Stream StreamProps Safety StreamDelivery Mongo MongoProps MongoDelivery.
#[local] Open Scope Z_scope.

(** The user's code and the timer have no business with the store's session or
    its cursors; time may pass in them. *)
Definition detached {A} (m : M msess A) : Prop :=
  ∀ w, colls (m w).2 = colls w ∧ mturns (m w).2 = mturns w ∧ cursors (m w).2 = cursors w.
Record detached_lane `{UrlLib} (l : Lane msess string) : Prop := mkDetachedLane {
  dl_send c md d : detached (Sender l c md d);
  dl_batch b c ms : Batch l = Some b → detached (b c ms);
  dl_poison h c m x : Poison l = Some h → detached (h c m x) }.

(** A process that starts: no cursor, no baseline. *)
Definition starting `{UrlLib} (s : strst msess) : Prop :=
  stream (local s) = None ∧ baselineTok (local s) = ""%string.

Section construction.
Context `{UrlStruct} `{GoJson} `{MongoDriver}.
Lemma NewRelay_built {W} holder n st sender ls ie (o : options W) r :
  NewRelay holder n (Some st) sender ls ie o = inl r →
  name r = n ∧ store r = st ∧ (∀ l, Leader.ls (leader r) = Some l → ls = Some l) ∧ ensurer r = ie ∧
  (∃ sd, sender = Some sd ∧ Sender (lane r) = sd) ∧ Batch (lane r) = None ∧
  Poison (lane r) = HPoisonHandler (oHooks o) ∧ hooks_ok (lane r) ∧
  0 < TokenBatchSize (opts r) ∧ 0 < optimeout r ∧ 0 < ttl (leader r).
Proof.
  unfold NewRelay. destruct (ValidateName n); [done|]. destruct sender as [sd|]; [|done]. simpl ValidateDeps. cbn iota.
  destruct (_ <=? _); [done|]. destruct (Z.leb_spec (TokenBatchSize o) 0); [done|].
  pose proof (Lease_Validate_accepts (oLease o) n (DrainWindow o)) as [Hlease _].
  destruct (Lease_Validate_fields (oLease o) n (DrainWindow o)) as [Ettl _].
  destruct (Lease_Validate _ _ _) as [lease [er|]]; [done|]. destruct (Hlease eq_refl) as (_ & Httl & _).
  simpl in Ettl. destruct (Ops_Validate _ _ _) eqn:Eops; [done|]. apply Ops_Validate_accepts in Eops as (Hop & _).
  destruct (Hooks_Validate _) eqn:Eh; [done|].
  destruct (ElectorOf lease ls holder) as [el|] eqn:Eel; [|done].
  destruct (ElectorOf_fields _ _ _ _ Eel) as (Hel & Htt & _).
  intros [= <-]. unfold optimeout. simpl. rewrite Htt, Ettl. split_and!; eauto. intros Hu. unfold Hooks_Validate in Eh. simpl in *.
  by destruct (HUnsendable (oHooks o)), (HPoisonHandler (oHooks o)).
Qed.
End construction.

(** ** The decoder's errors

    are its own constants around those of net/url and time. *)
Section decoding.
Context `{UrlStruct} `{GoJson}.
Definition ordinary_res {A} (r : A + err) : Prop := ∀ e, r = inr e → ordinary e.
(** What the libraries owe: no error of theirs is the relay's ErrLaneStopped. *)
Record OrdinaryLibs : Prop := mkOrdinaryLibs {
  or_parse s : ordinary_res (url_Parse s);
  or_unmarshal j : ordinary_res (url_unmarshal j);
  or_time s : ordinary_res (parse3339 s) }.
Context (Hor : OrdinaryLibs).

Lemma ordinary_wrap m e : ordinary e → ordinary (wrapf m e).
Proof. unfold ordinary. simpl. by intros ->. Qed.
Lemma ores_ok {A} (a : A) : ordinary_res (inl a).
Proof. by intros e. Qed.
Lemma ores_wrap {A} m (r : A + err) : ordinary_res r → ordinary_res (ewrap m r).
Proof. destruct r; simpl; [done|]. intros Hr e' [= <-]. by apply ordinary_wrap, Hr. Qed.
Lemma ores_bind {A B} (r : A + err) (f : A → B + err) :
  ordinary_res r → (∀ a, ordinary_res (f a)) → ordinary_res (ebind r f).
Proof. intros Hr Hf. destruct r; [apply Hf|]. intros e' [= <-]. by apply Hr. Qed.
Lemma ores_map {A B} (f : A → B) (r : A + err) : ordinary_res r → ordinary_res (emap f r).
Proof. intros Hr. destruct r; [done|]. intros e' [= <-]. by apply Hr. Qed.
Create HintDb ores.
#[local] Hint Resolve ores_ok ores_wrap ores_map or_parse or_unmarshal or_time : ores.

Lemma unmarshalAny_ordinary j : ordinary_res (unmarshalAny j).
Proof.
  assert (Hf : ∀ f, ordinary_res (toFloat64 f)) by (intros f; unfold toFloat64; case_match; [done|by intros e [= <-]]).
  revert j. fix IH 1. intros [|b|z|f|f|s|l|l]; simpl; [apply ores_ok..|apply Hf|apply Hf|apply Hf|apply ores_ok| |].
  - match goal with |- ordinary_res (match ?g l with _ => _ end) => set (go := g) end.
    assert (Hgo : ordinary_res (go l)).
    { clear -IH. induction l as [|j l IHl]; simpl; [done|]. pose proof (IH j) as Hj.
      destruct (unmarshalAny j); [|intros e' [= <-]; by apply Hj].
      destruct (go l); [apply ores_ok|exact IHl]. }
    destruct (go l); [done|]. intros e' [= <-]. by apply Hgo.
  - match goal with |- ordinary_res (match ?g l [] with _ => _ end) => set (go := g) end.
    assert (Hgo : ∀ acc, ordinary_res (go l acc)).
    { clear -IH. induction l as [|[k j] l IHl]; intros acc; simpl; [done|]. pose proof (IH j) as Hj.
      destruct (unmarshalAny j); [apply IHl|]. intros e' [= <-]. by apply Hj. }
    specialize (Hgo []). destruct (go l []); [done|]. intros e' [= <-]. by apply Hgo.
Qed.
Lemma intoEntries_ordinary l m : ordinary_res (intoEntries m l).
Proof.
  revert m. induction l as [|[k j] l IH]; intros m; simpl; [done|].
  pose proof (unmarshalAny_ordinary j) as Hj. destruct (unmarshalAny j); [apply IH|].
  intros e' [= <-]. by apply Hj.
Qed.
Lemma readField_ordinary d k j : ordinary_res (readField d k j).
Proof.
  assert (Hs : ∀ o, ordinary_res (intoString o j)) by (intros o; destruct j; simpl; try done; by intros e [= <-]).
  assert (Ht : ∀ o, ordinary_res (intoTime o j)).
  { intros o. destruct j; simpl; try done; try (by intros e [= <-]). apply (or_time Hor). }
  assert (Hm : ∀ o, ordinary_res (intoMap o j)).
  { intros o. destruct j as [| | | | | | |l]; simpl; try done; try (by intros e [= <-]).
    pose proof (intoEntries_ordinary l (default ∅ o)) as Hl. destruct (intoEntries _ l); [done|].
    intros e' [= <-]. by apply Hl. }
  destruct d. unfold readField.
  repeat first [apply ores_ok|apply ores_map; solve [auto]|case_match].
Qed.
Lemma UnmarshalMetadata_ordinary b : ordinary_res (UnmarshalMetadata b).
Proof.
  assert (Hp : ∀ es, Forall ordinary es → ordinary (poison es)).
  { intros es Hes. unfold ordinary, poison. simpl. induction Hes as [|e es He _ IH]; [done|].
    simpl. unfold ordinary in He. rewrite He. exact IH. }
  assert (Hj : ∀ j, ordinary_res (UnmarshalJSON j)).
  { intros j. unfold UnmarshalJSON. apply ores_bind.
    - apply ores_wrap. destruct j as [| | | | | | |l]; try done; try (by intros e [= <-]).
      cbv zeta. generalize (mkMetadataJSON "" "" "" "" "" 0 None None "") as d.
      induction l as [|[k j] l IH]; intros d; [apply ores_ok|]. simpl. apply ores_bind; [apply readField_ordinary|apply IH].
    - intros d. apply ores_bind; [|intros ?; apply ores_ok]. unfold decodeDataSchema.
      destruct (in_DataSchema d) as [[]|]; try apply ores_ok;
        try (apply ores_bind; [apply ores_wrap, (or_unmarshal Hor)|intros ?; apply ores_ok]).
      destruct (String.eqb _ _); [apply ores_ok|]. apply ores_map, ores_wrap, (or_parse Hor). }
  unfold UnmarshalMetadata. destruct b as [j|]; [|intros e [= <-]; by apply Hp; repeat constructor].
  specialize (Hj j). destruct j; try (by intros e [= <-]; apply Hp);
    destruct (UnmarshalJSON _); try (destruct (_ =? 0)); try done; intros e' [= <-];
    apply Hp; repeat constructor; by apply Hj.
Qed.
Lemma decodeMessage_ordinary doc e : decodeMessage doc = inr e → ordinary e.
Proof.
  unfold decodeMessage. pose proof (UnmarshalMetadata_ordinary (dMetadata doc)) as Hm.
  destruct (UnmarshalMetadata _); [done|]. intros [= <-]. by apply Hm.
Qed.
End decoding.

Section group.
Context `{UrlStruct} `{GoJson} `{MongoDriver}.
Context {open : cx → option string → option Z → M msess (res cursor)} `{!ChangeStreams open}.
Context (Hlib : OrdinaryLibs).
Context (G : account).

(** What [NewRelay] builds on this store fits the group. *)
Lemma NewRelay_on_mongo holder sender cf o r :
  NewRelay holder (group G) (Some (relay_store open)) sender (Some relay_leader) (Some (EnsureIndexes cf)) o = inl r →
  (∀ h c m x w e, Poison (lane r) = Some h → (h c m x w).1 = Some e → ordinary e) →
  on_mongo (open := open) G r.
Proof.
  intros (En & Es & Hls & Hi & _)%NewRelay_built Hpo. split; [done|done| | |exact Hpo].
  - intros st Hst%Hls. congruence.
  - intros f. rewrite Hi. intros [= <-]. eauto.
Qed.

(** What others do: transactions commit, rows expire, other groups and locks
    change. *)
Definition elsewhere (d d' : mdb) : Prop :=
  changes d `prefix_of` changes d' ∧ (served (changes d) → served (changes d')) ∧
  offs d' !! group G = offs d !! group G.

Inductive group_run : mdb → mdb → Prop :=
| run_nil d : group_run d d
| run_step d d1 d2 : elsewhere d d1 → group_run d1 d2 → group_run d d2
| run_relay (r : Relay msess) wait rounds ctx s k d2 :
    on_mongo (open := open) G r → hooks_ok (lane r) → detached_lane (lane r) → (∀ c, detached (wait c)) →
    ordinary_cx ctx → starting s →
    (∀ t, t ∈ mturns (world (base s)) →
       match mhow t with MRefused e | MLost e => plain_fault e | MReply => True end) →
    (∀ t d, t ∈ mturns (world (base s)) → group_run d (mothers t d)) →
    trace (base (Run r wait rounds ctx s).2) = trace (base s) ++ k →
    Forall (delivered G) (disposed k) →
    group_run (colls (world (base (Run r wait rounds ctx s).2))) d2 →
    group_run (colls (world (base s))) d2.

Lemma apart_harmless d0 {A} (m : M msess A) :
  detached m → harmless (Safety0 := mongo_safety G d0) m.
Proof.
  intros Hm p w Hs. destruct (Hm w) as (E1 & E2 & E3). unfold Safe, mongo_safety in *.
  by rewrite E1, E2, E3.
Qed.
Lemma apart_lane_harmless d0 (l : Lane msess string) :
  detached_lane l → harmless_lane (Safety0 := mongo_safety G d0) l.
Proof.
  intros [Hs Hb Hp]. split.
  - by apply apart_harmless.
  - intros. by apply apart_harmless.
  - intros. eapply apart_harmless, Hb. done.
  - intros. eapply apart_harmless, Hp. done.
Qed.
Lemma elsewhere_evolves d d' : elsewhere d d' → evolves G d d'.
Proof.
  intros (Hp & Hsv & Eo) (Hs & row & Hr & Hne & Hc). specialize (Hsv Hs). split; [done|]. split; [done|]. exists row. rewrite Eo.
  split_and!; [done|done|by eapply covered_grows].
Qed.
Lemma group_run_evolves d d' : group_run d d' → evolves G d d'.
Proof.
  induction 1 as [d|d d1 d2 Hs _ IH|r wait rounds ctx s k d2 Hr Hok Hl Hw Hctx [Est Ebt] Hf _ Hoth Hk HD _ IH].
  - by intros ?.
  - etrans; [by apply elsewhere_evolves|done].
  - etrans; [|exact IH]. intros Hsafe. set (d0 := colls (world (base s))) in *.
    destruct (str_Run_guards (Safety0 := mongo_safety G d0) r (delivered G) (valid (open := open))) with (wait := wait) (rounds := rounds) (ctx := ctx) (s := s)
      as (k' & Hk' & Hpost).
    + apply (mongo_change_log G d0 (decodeMessage_ordinary Hlib) r Hr). by apply apart_lane_harmless.
    + intros c. by apply apart_harmless.
    + done.
    + done.
    + assert (k' = k) as ->.
      { apply (app_inv_head (trace (base s))). rewrite <-Hk. symmetry. exact Hk'. }
      destruct (Hpost HD) as ((Hpre & Hsafe' & _) & _); [|by split].
      split; [|by rewrite Est]. unfold rooted. rewrite Est, Ebt.
      assert (Hbase : SafeAt (Safety0 := mongo_safety G d0) Base s).
      { split_and!; [done|done| |done]. apply Forall_forall. intros t Ht. split; [|by apply Hf].
        intros d. by apply Hoth. }
      split_and!; [done|done|left; exact Hbase|done].
Qed.

(** The account is opened on a group that has a stored position, at its place. *)
Definition opened (d : mdb) : Prop :=
  served (changes d) ∧ ∃ row, offs d !! group G = Some row ∧ resume_token row ≠ ""%string ∧
    place (changes d) (resume_token row) = Some (began G).
Lemma opened_log_safe d : opened d → log_safe G d.
Proof.
  intros (Hsv & row & Hr & Hne & Hp). split; [done|]. exists row. split_and!; [done|done|]. exists (began G).
  split; [done|]. split; [by eapply place_within|]. intros; lia.
Qed.

(** C4: at-least-once delivery of change streams. In any run of the relays of a group
    with a stored position, the group keeps one, and every change of the outbox
    collection between the place where the account was opened and the place of
    the stored token was disposed of by one of the relays: the message sent is
    the one the change decodes to, or the change does not decode and its stub was
    parked. *)
Theorem token_delivered d d' :
  opened d → group_run d d' →
  ∃ row n, offs d' !! group G = Some row ∧ place (changes d') (resume_token row) = Some n ∧
    ∀ j raw, (began G <= j < n)%nat → changes d' !! j = Some raw → accounted G raw.
Proof.
  intros Ho%opened_log_safe Hrun. destruct (group_run_evolves d d' Hrun Ho) as [_ (_ & row & Hr & _ & n & Hn & _ & Hc)].
  eauto.
Qed.
End group.
