(* ===== verification/StreamHealthy.v ===== *)
(** * A healthy stream relay keeps up

    [StreamGroup] says that a stream relay passes over nothing; this file says
    that it gets on. Alone with a log of changes that decode, a driver that
    answers, a sender that confirms and a lock it can take, a relay stores after
    every window of a run the token of the last of the next TokenBatchSize
    changes, until it is at the end of the log. *)
From S2P Require Import Prelude Errors GoLib Event Json Envelope Bound Relay Scenario Notify Leader Lane RelayCfg Stream StreamProps Safety StreamDelivery Steady Mongo MongoProps MongoDelivery StreamGroup.
#[local] Open Scope Z_scope.

(** The session is as it was but for the time. *)
#[export] Instance msess_steady : Steady msess.
Proof.
  refine {| idle w w' := colls w' = colls w ∧ mturns w' = mturns w ∧ cursors w' = cursors w |}.
  - split; [by intros w|]. intros w1 w2 w3 (?&?&?) (?&?&?). split_and!; congruence.
  - by intros w.
Defined.

(** ** What is known of a driver that works *)
Section driver.
Context `{MongoDriver} (open : cx → option string → option Z → M msess (res cursor)) `{!ChangeStreams open}.
(** Nobody else has a turn and the context is live: a cursor opens at a token
    that has a place, hands out what lies past it, and at the end of the log has
    neither an error nor been closed. *)
Definition live (c : cx) (w : msess) : Prop := mturns w = [] ∧ ErrAt c (hostTime w) = None.
Class LiveStreams := {
  open_live c t n w i : live c w → served (changes (colls w)) → place (changes (colls w)) t = Some i →
    ∃ cs, (open c (Some t) n w).1 = inl cs;
  next_live cs c w : is_open open cs → live c w → (pos cs (cursors w) < length (changes (colls w)))%nat →
    (TryNext cs c w).1 = true;
  end_live cs c w w' : is_open open cs → live c w → TryNext cs c w = (false, w') →
    (csErr cs w').1 = None ∧ (csID cs (csErr cs w').2).1 ≠ 0 }.

(** Resume tokens have keys, in the order of their places. *)
Definition keyed (l : list rawChange) : Prop :=
  (∀ t i, place l t = Some i → ∃ k, tokenKeyFromString t = Some k) ∧
  ∀ t t' i j k k', place l t = Some i → place l t' = Some j → (i <= j)%nat →
    tokenKeyFromString t = Some k → tokenKeyFromString t' = Some k' → String.leb k k' = true.
End driver.
#[global] Arguments open_live {_ _ _}.
#[global] Arguments next_live {_ _ _}.
#[global] Arguments end_live {_ _ _}.
#[global] Arguments keyed {_ _ _}.

(** ** Triples *)
Section triples.
Context {S : Type}.
Definition triple {A} (P : S → Prop) (m : M S A) (Q : A → S → Prop) : Prop := ∀ s, P s → wp m Q s.
Lemma triple_bind {A B} (m : M S A) (f : A → M S B) P R Q :
  triple P m R → (∀ a, triple (R a) (f a) Q) → triple P (m ≫= f) Q.
Proof. intros Hm Hf s HP. apply wp_bind. eapply wp_mono; [by apply Hm|]. intros a s' HR. by apply Hf. Qed.
Lemma triple_ret {A} (a : A) (P : S → Prop) Q : (∀ s, P s → Q a s) → triple P (mret a) Q.
Proof. intros HQ s HP. by apply HQ. Qed.
Lemma triple_pre {A} (m : M S A) (P P' : S → Prop) Q :
  triple P' m Q → (∀ s, P s → P' s) → triple P m Q.
Proof. intros Hm HP s Hs. apply Hm; auto. Qed.
Lemma triple_post {A} (m : M S A) P (Q Q' : A → S → Prop) :
  triple P m Q' → (∀ a s, Q' a s → Q a s) → triple P m Q.
Proof. intros Hm HQ s Hs. apply HQ, Hm, Hs. Qed.
Lemma triple_pure {A} (C : Prop) (m : M S A) P Q : (C → triple P m Q) → triple (λ s, C ∧ P s) m Q.
Proof. intros Hm s [HC HP]. by apply Hm. Qed.
Lemma triple_some {A B} (P : B → S → Prop) (m : M S A) Q :
  (∀ b, triple (P b) m Q) → triple (λ s, ∃ b, P b s) m Q.
Proof. intros Hm s [b HP]. by apply (Hm b). Qed.
End triples.

(** ** The relay *)
Section healthy.
Context `{UrlStruct} `{GoJson} `{MongoDriver}.
Context {open : cx → option string → option Z → M msess (res cursor)} `{!ChangeStreams open} `{!LiveStreams open}.
#[local] Abbreviation S := (strst msess).
Context (r : Relay msess) (l : list rawChange).

(** A relay on the store of this package, as [NewRelay] makes it. *)
Record on_store : Prop := mkOnStore {
  os_store : store r = relay_store open;
  os_leader st : ls (leader r) = Some st → st = relay_leader;
  os_ensurer f : ensurer r = Some f → ∃ c, f = EnsureIndexes c;
  os_timeout : 0 < optimeout r;
  os_ttl : 0 < ttl (leader r);
  os_batch : 0 < TokenBatchSize (opts r) }.
Context (Hr : on_store) (Hl : confirming (lane r)).

(** A change that decodes to the message of an insert. *)
Definition deliverable (raw : rawChange) : Prop :=
  ∃ ce m, decoded raw = inl ce ∧ String.eqb (OperationType ce) "invalidate" = false ∧ ceID ce ≠ ""%string ∧
    decodeMessage (FullDocument ce) = inl m.
Context (Hsv : served l) (Hkey : keyed l) (Hall : Forall deliverable l).

(** The collections: the log is [l] and the group has stored the token of the
    place [n], with its key. *)
Definition stands (n : nat) (d : mdb) : Prop :=
  changes d = l ∧ ∃ row, offs d !! name r = Some row ∧ resume_token row ≠ ""%string ∧
    token_key row = tokenKeyFromString (resume_token row) ∧ place l (resume_token row) = Some n.
Definition held (d : mdb) : Prop :=
  ls (leader r) = None ∨ ∃ e, lks d !! LockName (leader r) = Some (mkLockDoc (Some (HolderID (leader r))) e).
Definition electable (w : msess) : Prop :=
  ls (leader r) = None ∨
  canTake (HolderID (leader r)) (bsonDate (serverTime w))
    (default (mkLockDoc None None) (lks (colls w) !! LockName (leader r))) = true.
(** At the place [n], with a cursor at [j] if any. *)
Definition at_place (n : nat) (w : msess) : Prop := mturns w = [] ∧ stands n (colls w) ∧ held (colls w).
Definition reading (cs : cursor) (n j : nat) (s : S) : Prop :=
  at_place n (world (base s)) ∧ stream (local s) = Some (mStream cs) ∧ is_open open cs ∧
  pos cs (cursors (world (base s))) = j.
Definition ready (n : nat) (s : S) : Prop :=
  at_place n (world (base s)) ∧ (stream (local s) = None ∨ ∃ cs, reading cs n n s).

(** Steps that leave the session and the cursor alone. *)
Definition rests : relation S := λ s s', still s s' ∧ stream (local s') = stream (local s).
#[local] Instance rests_preorder : PreOrder rests.
Proof.
  split; [intros s; split; [reflexivity|done]|]. intros s1 s2 s3 [? ?] [? ?]. split; [by etrans|congruence].
Qed.
Lemma rests_up {A} (m : M (core msess string) A) : respects still m → respects rests (up m).
Proof. intros Hm s. split; [exact (Hm (base s))|done]. Qed.
Lemma rests_set f : (∀ x, stream (f x) = stream x) → respects rests (set f).
Proof. intros Hf s. split; [unfold still; by apply reflexivity|apply Hf]. Qed.
Lemma rests_here {A} (f : loc msess → A) : respects rests (here f).
Proof. apply respects_gets; apply _. Qed.
Lemma at_place_rests n s s' : rests s s' → at_place n (world (base s)) → at_place n (world (base s')).
Proof. intros [(Ec & Et & _) _] (? & ? & ?). unfold at_place, situation, strst_situated in *. by rewrite Ec, Et. Qed.
Lemma reading_rests cs n j s s' : rests s s' → reading cs n j s → reading cs n j s'.
Proof.
  intros Hs (Ha & Est & Ho & Hp). pose proof (at_place_rests n s s' Hs Ha). destruct Hs as [(_ & _ & Eu) Es].
  unfold reading, situation, strst_situated in *. rewrite Es, Eu. by split_and!.
Qed.
Lemma ready_rests n s s' : rests s s' → ready n s → ready n s'.
Proof.
  intros Hs [Ha Hc]. split; [by eapply at_place_rests|]. destruct Hc as [Es|[cs Hrd]]; [left|right].
  - by rewrite (proj2 Hs).
  - exists cs. by eapply reading_rests.
Qed.
Lemma triple_rests {A} (m : M S A) (P : S → Prop) :
  respects rests m → (∀ s s', rests s s' → P s → P s') → triple P m (λ _, P).
Proof. intros Hm HP s Hs. eapply HP; [apply Hm|done]. Qed.
Lemma triple_reading {A} (m : M S A) cs n j : respects rests m → triple (reading cs n j) m (λ _, reading cs n j).
Proof. intros Hm. apply triple_rests; [done|]. intros s s'. apply reading_rests. Qed.

Lemma triple_settled {A} (m : M (core msess string) A) a cs n j :
  settled m a → triple (reading cs n j) (up m) (λ x s, x = a ∧ reading cs n j s).
Proof.
  intros [Hm Ha] s Hs. split; [apply Ha|]. eapply reading_rests; [|exact Hs]. by apply rests_up.
Qed.
Lemma triple_dead (P : S → Prop) :
  (∀ s s', rests s s' → P s → P s') → triple P (up (ctxErr Background)) (λ e s, e = None ∧ P s).
Proof. intros HP s Hs. split; [done|]. eapply HP; [|exact Hs]. apply rests_up. still_run. Qed.
Lemma up_ctxErr (s : S) : up (ctxErr Background) s = (None, s).
Proof. by destruct s as [[] ?]. Qed.
(** A bounded call of the store, under a live context. *)
Lemma triple_bounded {A} budget (call : cx → M msess A) (P : S → Prop) (Q : A → S → Prop) :
  (∀ t, ErrAt (budget t Background (optimeout r)) t = None) →
  (∀ c s, ErrAt c (hostTime (world (base s))) = None → P s →
     let '(a, w') := call c (world (base s)) in
     Q a (mkStrst (mkCore w' (trace (base s)) (stuck (base s)) (wasLeader (base s)) (isLeader (base s))) (local s))) →
  triple P (bounded r budget Background call) (λ x, Q x.2).
Proof.
  intros Hb Hc s HP. unfold wp, bounded. rewrite run_bind.
  change ((up (lift now) s).1) with (hostTime (world (base s))).
  set (c := budget (hostTime (world (base s))) Background (optimeout r)).
  assert (E : (up (lift now) s).2 = s) by by destruct s as [[] ?].
  rewrite E, run_bind. cbn [fst snd]. rewrite run_ret. cbn [fst snd].
  specialize (Hc c s (Hb _) HP). unfold up, lift. simpl. by destruct (call c (world (base s))).
Qed.
Lemma triple_tail {A} (m : M S unit) (a : A) (P : S → Prop) (Q : A → S → Prop) :
  respects rests m → (∀ s s', rests s s' → P s → P s') → (∀ s, P s → Q a s) → triple P (m ;; mret a) Q.
Proof.
  intros Hm HP HQ. eapply triple_bind; [by apply triple_rests|]. intros ?. by apply triple_ret.
Qed.

(** A command without others runs at once. *)
Lemma run_alone {A} c (q : Z → command A) w d a :
  live c w → q (bsonDate (serverTime w)) (colls w) = inl (d, a) → run c q w = (inl a, with_colls w d).
Proof. intros [Ht Hc] Hq. unfold run, mbegin. rewrite Hc, Ht. cbn iota zeta. by rewrite Hq. Qed.
Lemma turned_alone w w' : mturns w = [] → turned w w' → colls w' = colls w ∧ mturns w' = [].
Proof. intros Ht (ts & E & Ec). rewrite Ht in E. symmetry in E. apply app_eq_nil in E as [-> E]. by rewrite Ec, E. Qed.

(** *** Leadership *)
Lemma str_lock_alone c n h t w :
  live c w → canTake h (bsonDate (serverTime w)) (default (mkLockDoc None None) (lks (colls w) !! n)) = true →
  ∃ e, Mongo.TryAcquireLeaderLock c n h t w =
    (inl true, with_colls w (with_lks (colls w) (<[n := mkLockDoc (Some h) e]> (lks (colls w))))).
Proof.
  intros Hc Ht. unfold Mongo.TryAcquireLeaderLock. rewrite run_bind. eexists.
  erewrite (run_alone c _ w); [|done|]; last first.
  { unfold q_acquire. rewrite Ht. reflexivity. }
  simpl. by rewrite String.eqb_refl.
Qed.
Definition unlocked (K : mdb → Prop) : Prop := ∀ d x, K d → K (with_lks d x).
Lemma str_TryAcquire_alone K s :
  unlocked K → mturns (world (base s)) = [] → electable (world (base s)) → K (colls (world (base s))) →
  let '(x, s') := up (TryAcquire (leader r) Background) s in
  x = inl true ∧ mturns (world (base s')) = [] ∧ held (colls (world (base s'))) ∧ K (colls (world (base s'))) ∧
  cursors (world (base s')) = cursors (world (base s)) ∧ local s' = local s.
Proof.
  intros HK Ht He Hs. unfold TryAcquire, up. destruct (ls (leader r)) as [st|] eqn:Els.
  - destruct He as [?|He]; [congruence|]. rewrite (os_leader Hr st Els).
    rewrite !run_bind. set (w := world (base s)) in *.
    change ((lift now (base s)).1) with (hostTime w). change ((lift now (base s)).2) with (mkCore w
      (trace (base s)) (stuck (base s)) (wasLeader (base s)) (isLeader (base s))).
    set (c := Call (hostTime w) Background (ttl (leader r))).
    assert (live c w) as Hlive by (split; [done|apply live_Call, (os_ttl Hr)]).
    destruct (str_lock_alone c (lockName (leader r)) (holderID (leader r)) (ttl (leader r)) w Hlive He) as [e E].
    cbn [Leader.TryAcquireLeaderLock relay_leader]. unfold lift. cbn [world fst snd]. fold c. rewrite !E. simpl.
    split_and!; [done|done| |by apply HK|done|done].
    right. simpl. rewrite lookup_insert_eq. eauto.
  - simpl. split_and!; [done|done|by left|done|done|done].
Qed.
Lemma unlocked_stands n : unlocked (stands n).
Proof. by intros d x [? ?]. Qed.

(** *** The stored position *)
Lemma LoadToken_alone c n w :
  live c w → stands n (colls w) →
  ∃ tok ct, LoadToken c (name r) w = (inl (tok, ct), w) ∧ tok ≠ ""%string ∧ place l tok = Some n.
Proof.
  intros Hc (_ & row & Hrow & Hne & _ & Hp). unfold LoadToken. rewrite run_bind.
  erewrite (run_alone c _ w); [|done|unfold q_findToken; by rewrite Hrow]. rewrite run_ret. simpl.
  exists (resume_token row), (default 0 (cluster_time row)). split_and!; [by destruct w|done|done].
Qed.
(** A later place's token is saved. *)
Lemma SaveToken_alone c n j tok ct w :
  live c w → stands n (colls w) → tok ≠ ""%string → place l tok = Some j → (n <= j)%nat →
  ∃ d, SaveToken c (name r) tok ct w = (inl true, with_colls w d) ∧ stands j d ∧ lks d = lks (colls w).
Proof.
  intros Hc (El & row & Hrow & Hne & Hk & Hp) Htok Hj Hn. unfold SaveToken.
  destruct (String.eqb_spec tok ""); [done|]. rewrite run_bind. unfold hostNow. rewrite run_gets. cbn [fst snd].
  destruct Hkey as [Hex Hord]. destruct (Hex _ _ Hp) as [k Ek]. destruct (Hex _ _ Hj) as [k' Ek'].
  pose proof (Hord _ _ _ _ _ _ Hp Hj Hn Ek Ek') as Hle. rewrite Ek', run_bind.
  set (new := mkOffsetDoc tok (Some k') (Some (bsonDate ct)) (bsonDate (hostTime w))).
  exists (with_offs (colls w) (<[name r := new]> (offs (colls w)))).
  erewrite (run_alone c _ w); [|done|]; last first.
  { unfold q_saveToken. rewrite Hrow. unfold guardKeyed. rewrite Hk, Ek, Hle. reflexivity. }
  rewrite run_ret. simpl. split_and!; [done| |done]. split; [done|]. exists new. simpl.
  rewrite lookup_insert_eq. by split_and!.
Qed.
Lemma bLoadToken_alone n :
  triple (λ s, at_place n (world (base s)) ∧ stream (local s) = None) (bLoadToken r Background)
    (λ x s, (∃ tok ct, x = inl (tok, ct) ∧ tok ≠ ""%string ∧ place l tok = Some n) ∧
       at_place n (world (base s)) ∧ stream (local s) = None).
Proof.
  set (Q := λ (x : res (string * Z)) (s : S), (∃ tok ct, x = inl (tok, ct) ∧ tok ≠ ""%string ∧ place l tok = Some n) ∧
       at_place n (world (base s)) ∧ stream (local s) = None).
  unfold bLoadToken. rewrite (os_store Hr). eapply triple_bind.
  - apply (triple_bounded _ _ _ Q); [intros t; apply live_Call, (os_timeout Hr)|].
    intros c s Hc [(Ht & Hst & Hh) Es]. cbn [Stream.LoadToken relay_store].
    destruct (LoadToken_alone c n (world (base s)) (conj Ht Hc) Hst) as (tok & ct & -> & Hne & Hp).
    split; [eauto|]. by split_and!.
  - intros x. apply triple_tail; [apply rests_up; still_run| |done].
    intros s s' Hs (? & ? & Es). split_and!; [done|by eapply at_place_rests|]. by rewrite (proj2 Hs).
Qed.
Lemma saveToken_alone cs n j tok ct :
  tok ≠ ""%string → place l tok = Some j → (n <= j)%nat →
  triple (reading cs n j) (saveToken r Background tok ct) (λ e s, e = None ∧ reading cs j j s).
Proof.
  intros Hne Hp Hn. unfold saveToken.
  eapply triple_bind with (R := λ x s, x = inl true ∧ reading cs j j s).
  - unfold bSaveToken. rewrite (os_store Hr). eapply triple_bind.
    + apply (triple_bounded _ _ _ (λ x s, x = inl true ∧ reading cs j j s));
        [intros t; apply live_Call, (os_timeout Hr)|].
      intros c s Hc ((Ht & Hst & Hh) & Es & Ho & Hpos). cbn [Stream.SaveToken relay_store].
      destruct (SaveToken_alone c n j tok ct (world (base s)) (conj Ht Hc) Hst Hne Hp Hn) as (d & -> & Hd & El).
      split; [done|]. unfold reading, at_place. split_and!; [done|done| |done|done|done]. unfold held. simpl. by rewrite El.
    + intros x. apply triple_tail; [apply rests_up; still_run| |done].
      intros s s' Hs [-> Hrd]. split; [done|by eapply reading_rests].
  - intros x. apply triple_pure. intros ->. apply triple_tail; [by apply rests_set| |done].
    intros s s' Hs Hrd. by eapply reading_rests.
Qed.
(** *** The cursor *)
Lemma Watch_alone c tok k n w :
  live c w → changes (colls w) = l → tok ≠ ""%string → place l tok = Some n →
  ∃ cs w', Mongo.Watch open c tok k w = (inl (mStream cs), w') ∧ is_open open cs ∧
    colls w' = colls w ∧ mturns w' = [] ∧ pos cs (cursors w') = n.
Proof.
  intros Hc El Hne Hp. unfold Mongo.Watch. destruct (String.eqb_spec tok ""); [done|].
  set (a := if 0 <? k then _ else _). rewrite run_bind.
  destruct (open_live c tok a w n Hc) as [cs Ecs]; [by rewrite El|by rewrite El|].
  pose proof (turned_alone w _ (proj1 Hc) (open_turned c (Some tok) a w)) as [Ec Et].
  pose proof (open_at c tok a w cs n Ecs) as Hat. rewrite Ec, El in Hat.
  destruct (open c (Some tok) a w) as [x w'] eqn:E. simpl in *. subst x. exists cs, w'.
  split_and!; [done|by repeat eexists|done|done|by apply Hat].
Qed.
(** What [Next] answers at the place [j]. *)
Definition next_answer (j : nat) (x : option Event * bool * error) : Prop :=
  if decide (j < length l)%nat
  then ∃ m tok ct, x = (Some (Some m, tok, ct), true, None) ∧ tok ≠ ""%string ∧ place l tok = Some (Datatypes.S j)
  else x = (None, false, None).
Definition next_place (j : nat) : nat := Nat.min (Datatypes.S j) (length l).
Lemma mNext_alone cs c j w :
  live c w → changes (colls w) = l → is_open open cs → pos cs (cursors w) = j → (j <= length l)%nat →
  let '(x, w') := mNext cs c w in
  next_answer j x ∧ colls w' = colls w ∧ mturns w' = [] ∧ pos cs (cursors w') = next_place j.
Proof.
  intros Hc El Ho Hp Hj. unfold mNext, next_answer, next_place. rewrite run_bind.
  pose proof (turned_alone w _ (proj1 Hc) (next_turned cs c w Ho)) as [Ec Et].
  pose proof (next_live cs c w Ho Hc) as Hlive. pose proof (next_at cs c w Ho) as Hat.
  pose proof (λ w', end_live cs c w w' Ho Hc) as Hend. rewrite El, Hp in Hlive.
  destruct (TryNext cs c w) as [[] w1]; cbn [fst snd negb] in *.
  - destruct Hat as (raw & Hcur & Hraw & Hpos). rewrite Ec, El, Hp in Hraw.
    pose proof (lookup_lt_Some _ _ _ Hraw). rewrite run_bind, Hcur. cbn [fst snd].
    pose proof (proj1 (Forall_lookup _ _) Hall j raw Hraw) as (ce & m & Hd & Hop & Hid & Hm).
    rewrite Hd, Hop, Hm, run_ret, decide_True by done. split_and!; [|done|done|rewrite Hpos, Hp; lia].
    eexists m, (ceID ce), _. split_and!; [done|done|]. eapply (place_change l j raw); [done|done|].
    unfold token_of. by rewrite Hd.
  - destruct (Hend w1 eq_refl) as [He Hi]. rewrite run_bind.
    pose proof (err_turned cs w1 Ho) as [Ht2 Hp2]. pose proof (turned_alone w1 _ Et Ht2) as [Ec2 Et2].
    destruct (csErr cs w1) as [e w2]. cbn [fst snd] in *. subst e. rewrite run_bind.
    pose proof (id_turned cs w2 Ho) as [Ht3 Hp3]. pose proof (turned_alone w2 _ Et2 Ht3) as [Ec3 Et3].
    destruct (csID cs w2) as [i w3]. cbn [fst snd] in *. destruct (Z.eqb_spec i 0); [done|]. rewrite run_ret.
    destruct (decide (j < length l)%nat) as [Hlt|]; [by apply Hlive in Hlt|].
    split_and!; [done|congruence|done|]. destruct Hat as [Hp1 _]. rewrite Hp3, Hp2, Hp1, Hp. lia.
Qed.
Lemma mCheckpoint_alone cs n j s :
  reading cs n j s → let '(x, w') := mCheckpoint cs (world (base s)) in
  (x.1.1 = ""%string ∨ place l x.1.1 = Some j) ∧
  colls w' = colls (world (base s)) ∧ mturns w' = [] ∧ pos cs (cursors w') = j.
Proof.
  intros ((Ht & (El & _) & _) & _ & Ho & Hp). set (w := world (base s)) in *. unfold mCheckpoint. rewrite run_bind.
  destruct (token_turned cs w Ho cs) as [Htn Hpos]. pose proof (turned_alone w _ Ht Htn) as [Ec Et].
  pose proof (λ t, token_at cs w t Ho) as Hat.
  destruct (ResumeToken cs w) as [[t|] w1]; cbn [fst snd] in *; [|rewrite run_ret; split_and!; [by left|done|done|congruence]].
  specialize (Hat t eq_refl). rewrite Ec, El, Hpos, Hp in Hat.
  destruct (clusterTimeFromToken t); [rewrite run_ret; split_and!; [by right|done|done|congruence]|].
  rewrite run_bind. unfold hostNow. rewrite run_gets, run_ret. cbn [fst snd]. split_and!; [by right|done|done|congruence].
Qed.
(** A change of the world that the reader is not concerned with. *)
Lemma reading_world cs n j j' s w' tr st wl il :
  reading cs n j s → colls w' = colls (world (base s)) → mturns w' = [] → pos cs (cursors w') = j' →
  reading cs n j' (mkStrst (mkCore w' tr st wl il) (local s)).
Proof.
  intros ((_ & Hst & Hh) & Es & Ho & _) Ec Et Hp. unfold reading, at_place. simpl. rewrite Ec. by split_and!.
Qed.
(** *** Opening *)
Lemma open_alone n :
  triple (λ s, at_place n (world (base s)) ∧ stream (local s) = None) (Stream.open r Background)
    (λ x s, ∃ cs, x = inl (mStream cs) ∧ reading cs n n s).
Proof.
  unfold Stream.open. eapply triple_bind; [apply bLoadToken_alone|].
  intros x. apply triple_pure. intros (tok & ct & -> & Hne & Hp). cbn iota.
  eapply triple_bind; [apply triple_rests; [apply rests_here|]|].
  { intros s s' Hs [? Es]. split; [by eapply at_place_rests|]. by rewrite (proj2 Hs). }
  intros btok. eapply triple_bind; [apply triple_rests; [apply rests_here|]|].
  { intros s s' Hs [? Es]. split; [by eapply at_place_rests|]. by rewrite (proj2 Hs). }
  intros bct. assert (String.eqb tok "" = false) as Ene by by apply String.eqb_neq.
  rewrite Ene. cbn [andb]. cbn iota beta.
  eapply triple_bind with (R := λ x s, ∃ cs, x = inl (mStream cs) ∧ at_place n (world (base s)) ∧
    is_open open cs ∧ pos cs (cursors (world (base s))) = n).
  - unfold bWatch. rewrite (os_store Hr). eapply triple_bind.
    + apply (triple_bounded _ _ _ (λ x s, ∃ cs, x = inl (mStream cs) ∧ at_place n (world (base s)) ∧
        is_open open cs ∧ pos cs (cursors (world (base s))) = n)); [intros t; apply live_Call, (os_timeout Hr)|].
      intros c s Hc [(Ht & Hst & Hh) _]. cbn [Stream.Watch relay_store].
      destruct (Watch_alone c tok (DrainWindow (opts r)) n (world (base s)) (conj Ht Hc) (proj1 Hst) Hne Hp)
        as (cs & w' & -> & Ho & Ec & Et & Hpos).
      exists cs. split; [done|]. unfold at_place. simpl. rewrite Ec. by split_and!.
    + intros x. apply triple_tail; [apply rests_up; still_run| |done].
      intros s s' Hs (cs & -> & Ha & Ho & Hpos). exists cs. split_and!; [done|by eapply at_place_rests|done|].
      destruct Hs as [(_ & _ & Eu) _]. unfold situation, strst_situated in Eu. by rewrite Eu.
  - intros x. apply triple_some. intros cs. apply triple_pure. intros ->. cbn iota.
    eapply triple_bind with (R := λ _, reading cs n n).
    + intros s (Ha & Ho & Hpos). by split_and!.
    + intros ?. rewrite Ene. cbn [negb]. apply triple_ret. eauto.
Qed.

(** *** A window *)
(** The window has delivered from [n] up to [j], without a failure. *)
Definition window_at (n j : nat) (w : window) : Prop :=
  wStopped w = false ∧ (n <= j <= length l)%nat ∧
  if wAdvanced w then wTok w ≠ ""%string ∧ place l (wTok w) = Some j else j = n.
Lemma bNext_alone cs n j :
  (j <= length l)%nat →
  triple (reading cs n j) (bNext r (mStream cs) Background)
    (λ x s, next_answer j x ∧ reading cs n (next_place j) s).
Proof.
  intros Hj. unfold bNext. eapply triple_bind.
  - apply (triple_bounded _ _ _ (λ x s, next_answer j x ∧ reading cs n (next_place j) s));
      [intros t; apply live_Call, (os_timeout Hr)|].
    intros c s Hc Hs. pose proof Hs as ((Ht & (El & _) & _) & _ & Ho & Hp).
    pose proof (mNext_alone cs c j (world (base s)) (conj Ht Hc) El Ho Hp Hj) as Hn.
    change (Next (mStream cs) c) with (mNext cs c).
    destruct (mNext cs c (world (base s))) as [x w']. destruct Hn as (? & ? & ? & ?).
    split; [done|]. by eapply reading_world.
  - intros x. apply triple_tail; [apply rests_up; still_run| |done].
    intros s s' Hs [? ?]. split; [done|by eapply reading_rests].
Qed.
Lemma str_drainLoop_alone cs n k : ∀ j w,
  window_at n j w →
  triple (reading cs n j) (drainLoop r (mStream cs) k Background w)
    (λ x s, ∃ w', x = inl w' ∧ window_at n (Nat.min (j + k) (length l)) w' ∧
       reading cs n (Nat.min (j + k) (length l)) s).
Proof.
  induction k as [|k IH]; intros j w Hw; pose proof Hw as (Hst & Hj & Hadv); cbn [drainLoop].
  { rewrite Nat.add_0_r, Nat.min_l by lia. apply triple_ret. eauto. }
  eapply triple_bind; [apply (triple_settled _ None); by split|].
  intros ?. apply triple_pure. intros ->. cbn [isNil negb].
  eapply triple_bind; [apply bNext_alone; lia|]. intros x. apply triple_pure. unfold next_answer, next_place.
  destruct (decide (j < length l)%nat) as [Hlt|Hge].
  - intros (m & tok & ct & -> & Hne & Hp). cbn iota. rewrite Nat.min_l by lia.
    eapply triple_bind; [by apply triple_settled, settled_Send|]. intros ?. apply triple_pure. intros ->.
    replace (j + Datatypes.S k)%nat with (Datatypes.S j + k)%nat by lia. apply IH.
    split_and!; [done|lia..|]. by split.
  - intros ->. cbn iota. cbn [negb]. rewrite Nat.min_r by lia. assert (j = length l) as -> by lia.
    rewrite Nat.min_r by lia. apply triple_ret. intros s Hs. eexists. split_and!; [done| |done]. unfold window_at. simpl. split_and!; [done|lia..|done].
Qed.
Lemma checkpoint_alone cs n j :
  triple (reading cs n j) (checkpoint (mStream cs))
    (λ x s, (x.1.1 = ""%string ∨ place l x.1.1 = Some j) ∧ reading cs n j s).
Proof.
  unfold checkpoint. eapply triple_bind.
  - intros s Hs. unfold wp, up, lift. pose proof (mCheckpoint_alone cs n j s Hs) as Hc.
    change (Checkpoint (mStream cs)) with (mCheckpoint cs). simpl. instantiate (1 := λ x s,
      (x.1.1 = ""%string ∨ place l x.1.1 = Some j) ∧ reading cs n j s).
    destruct (mCheckpoint cs (world (base s))) as [x w']. destruct Hc as (? & ? & ? & ?).
    split; [done|]. by eapply reading_world.
  - intros x. apply triple_tail; [apply rests_up; still_run| |done].
    intros s s' Hs [? ?]. split; [done|by eapply reading_rests].
Qed.
Lemma rests_calibrateClock h : respects rests (calibrateClock h).
Proof.
  unfold calibrateClock. apply respects_bind; [apply _|apply rests_here|]. intros prev. case_match; [apply respects_skip; apply _|].
  apply respects_bind; [apply _|apply rests_up; still_run|]. intros t. by apply rests_set.
Qed.
Lemma rests_committedTokenAge : respects rests committedTokenAge.
Proof.
  unfold committedTokenAge, serverNow. apply respects_bind; [apply _|apply rests_here|]. intros ct.
  case_match; [apply respects_ret; apply _|].
  repeat (apply respects_bind; [apply _| |intros ?]); try apply rests_here; try apply respects_ret; try apply _.
  apply rests_up. still_run.
Qed.
(** At the end of a window the stored token is the one of the cursor's place. *)
Lemma persist_alone cs n j w tok ct :
  window_at n j w → tok = ""%string ∨ place l tok = Some j →
  triple (reading cs n j) (persist r Background w tok ct) (λ e s, e = None ∧ reading cs j j s).
Proof.
  intros (Hst & Hj & Hadv) Htok. unfold persist. rewrite Hst. cbn [negb]. destruct (wAdvanced w).
  - destruct Hadv as [Hne Hp]. apply saveToken_alone; [done|done|lia].
  - subst j. destruct (String.eqb_spec tok "") as [|Hne]; [by apply triple_ret|].
    destruct Htok as [?|Hp]; [done|].
    eapply triple_bind; [apply (triple_reading _ cs n n), rests_here|]. intros last. cbn beta.
    destruct (String.eqb tok last); [|by apply saveToken_alone].
    apply triple_tail; [by apply rests_set| |done]. intros s s'. apply reading_rests.
Qed.
Definition batch : nat := Z.to_nat (TokenBatchSize (opts r)).
Lemma drainWindow_alone cs n :
  (n <= length l)%nat →
  triple (reading cs n n) (drainWindow r (mStream cs) Background)
    (λ e s, e = None ∧ ready (Nat.min (n + batch) (length l)) s).
Proof.
  intros Hn. unfold drainWindow. fold batch. set (j := Nat.min (n + batch) (length l)).
  eapply triple_bind; [by apply str_drainLoop_alone|]. intros x. apply triple_some. intros w.
  apply triple_pure. intros ->. apply triple_pure. intros Hw. fold j in Hw |- *. cbn iota.
  eapply triple_bind with (R := λ cp s, (cp.1 = ""%string ∨ place l cp.1 = Some j) ∧ reading cs n j s).
  - destruct (_ && _); [|apply triple_ret; intros s Hs; split; [by left|done]]. eapply triple_bind; [apply checkpoint_alone|].
    intros c. apply triple_pure. intros Hc. eapply triple_bind with (R := λ _, reading cs n j).
    + apply triple_reading. case_match; [apply rests_calibrateClock|apply respects_skip; apply _].
    + intros ?. by apply triple_ret.
  - intros [tok ct]. apply triple_pure. cbn [fst]. intros Htok. cbn iota.
    eapply triple_bind; [by apply persist_alone|]. intros e. apply triple_pure. intros ->. cbn iota.
    eapply triple_bind; [apply (triple_reading _ cs j j), rests_committedTokenAge|]. intros age.
    eapply triple_bind; [apply (triple_reading _ cs j j), rests_up; still_run|]. intros ?.
    rewrite (proj1 Hw). apply triple_ret. intros s Hs. split; [done|]. split; [apply Hs|]. right. by exists cs.
Qed.

(** *** Passes *)
Lemma str_RunOnce_alone wait n s :
  (n <= length l)%nat → electable (world (base s)) → mturns (world (base s)) = [] → stands n (colls (world (base s))) →
  (stream (local s) = None ∨ ∃ cs, stream (local s) = Some (mStream cs) ∧ is_open open cs ∧
     pos cs (cursors (world (base s))) = n) →
  wp (RunOnce r wait Background) (λ e s', e = None ∧ ready (Nat.min (n + batch) (length l)) s') s.
Proof.
  intros Hn He Ht Hs Hcur. unfold RunOnce. apply wp_bind. unfold wp at 1.
  pose proof (str_TryAcquire_alone (stands n) s (unlocked_stands n) Ht He Hs) as Hx.
  destruct (up (TryAcquire (leader r) Background) s) as [x s1]. destruct Hx as (-> & Ht1 & Hh1 & Hs1 & Eu & El).
  cbn [fst snd]. assert (Hready : ready n s1).
  { split; [by split_and!|]. rewrite El. destruct Hcur as [?|(cs & Es & Ho & Hp)]; [by left|right].
    exists cs. unfold reading. rewrite El, Eu. by split_and!. }
  refine ((_ : triple (ready n) _ _) s1 Hready).
  eapply triple_bind.
  { apply triple_rests; [apply rests_up; still_run|]. intros s2 s3. apply ready_rests. }
  intros ?. cbn [negb]. intros s2 [Ha Hc]. apply wp_bind. unfold wp at 1, here. rewrite run_gets. cbn [fst snd].
  apply wp_bind. destruct Hc as [Es|(cs & Hrd)].
  - rewrite Es. eapply wp_mono; [by apply (open_alone n)|]. intros x s3 (cs & -> & Hrd). by apply drainWindow_alone.
  - pose proof Hrd as (_ & -> & _). unfold wp at 1. rewrite run_ret. cbn [fst snd]. by apply drainWindow_alone.
Qed.

Lemma held_electable w : held (colls w) → electable w.
Proof.
  intros [?|[e E]]; [by left|right]. rewrite E. simpl. unfold canTake. simpl.
  by rewrite bool_decide_eq_true_2.
Qed.
Lemma ready_RunOnce wait n s :
  (n <= length l)%nat → ready n s →
  wp (RunOnce r wait Background) (λ e s', e = None ∧ ready (Nat.min (n + batch) (length l)) s') s.
Proof.
  intros Hn ((Ht & Hst & Hh) & Hc). apply str_RunOnce_alone; [done|by apply held_electable|done|done|].
  destruct Hc as [?|(cs & _ & ? & ? & ?)]; [by left|right; eauto].
Qed.
Lemma str_runLoop_alone wait rounds : ∀ n s,
  (n <= length l)%nat → ready n s →
  wp (runLoop r wait rounds Background) (λ x s', x = None ∧ ready (Nat.min (n + rounds * batch) (length l)) s') s.
Proof.
  induction rounds as [|k IH]; intros n s Hn Hs; cbn [runLoop].
  { rewrite Nat.mul_0_l, Nat.add_0_r, Nat.min_l by lia. by split. }
  apply wp_bind. eapply wp_mono; [apply (triple_dead (ready n)); [apply ready_rests|exact Hs]|].
  intros ? s1 [-> Hs1]. cbn [isNil negb]. apply wp_bind. eapply wp_mono; [by apply ready_RunOnce|].
  intros ? s2 [-> Hs2]. cbn iota. eapply wp_mono; [apply (IH (Nat.min (n + batch) (length l))); [lia|exact Hs2]|].
  intros x s3 [-> Hs3]. split; [done|].
  by replace (Nat.min (n + Datatypes.S k * batch) (length l))
    with (Nat.min (Nat.min (n + batch) (length l) + k * batch) (length l)) by lia.
Qed.

(** The first pass may have to take the lock; [Run] ensures the index before. *)
Lemma EnsureIndexes_alone cf n c w :
  live c w → stands n (colls w) → electable w →
  let w' := (EnsureIndexes cf c w).2 in
  mturns w' = [] ∧ stands n (colls w') ∧ electable w' ∧ cursors w' = cursors w.
Proof.
  intros Hc Hs He. assert (Hbase : mturns w = [] ∧ stands n (colls w) ∧ electable w ∧ cursors w = cursors w)
    by (split_and!; [apply Hc|done..]).
  unfold EnsureIndexes. destruct (negb _); [done|]. cbv zeta. destruct (_ || _); [done|]. rewrite run_bind, run_ret.
  destruct Hc as [Ht Hlive]. unfold run, mbegin. rewrite Hlive, Ht. cbn iota zeta. unfold q_createIndex.
  destruct (ttl_index (colls w)) as [z|]; [destruct (z =? _)|]; simpl;
    (split_and!; [done|apply Hs|apply He|done]).
Qed.
Lemma str_Run_alone wait rounds n s :
  (n <= length l)%nat → electable (world (base s)) → mturns (world (base s)) = [] → stands n (colls (world (base s))) →
  stream (local s) = None →
  wp (Run r wait (Datatypes.S rounds) Background)
    (λ x s', x = None ∧ ready (Nat.min (n + Datatypes.S rounds * batch) (length l)) s') s.
Proof.
  intros Hn He Ht Hs Es. unfold Run.
  apply wp_bind. change (wp (up (lift now)) ?Q s) with (Q (hostTime (world (base s))) (up (lift now) s).2).
  assert (E : (up (lift now) s).2 = s) by by destruct s as [[] ?]. rewrite E. cbv beta zeta. clear E.
  set (before := λ s, mturns (world (base s)) = [] ∧ stands n (colls (world (base s))) ∧
    electable (world (base s)) ∧ stream (local s) = None).
  assert (Hens : wp (ensureIndexes r Background) (λ _, before) s).
  { unfold ensureIndexes. destruct (ensurer r) as [f|] eqn:Ef; [|by split_and!].
    destruct (os_ensurer Hr f Ef) as [cf ->]. apply wp_bind. unfold wp at 1, up, lift. simpl.
    pose proof (EnsureIndexes_alone cf n Background (world (base s))) as (? & ? & ? & _); [by split|done|done|].
    destruct (EnsureIndexes cf Background (world (base s))) as [[e|] w']; by split_and!. }
  apply wp_bind. eapply wp_mono; [exact Hens|]. intros [] s1 (Ht1 & Hs1 & He1 & Es1).
  apply wp_bind. eapply (wp_mono _ (λ x s', x = None ∧ ready (Nat.min (n + Datatypes.S rounds * batch) (length l)) s'));
    [|intros ? s2 [-> Hs2]; by split].
  cbn [runLoop]. apply wp_bind. unfold wp at 1. rewrite up_ctxErr. cbn [fst snd isNil negb]. apply wp_bind.
  eapply wp_mono; [apply (str_RunOnce_alone wait n); [done..|by left]|]. intros ? s2 [-> Hs2]. cbn iota.
  eapply wp_mono; [apply (str_runLoop_alone wait rounds (Nat.min (n + batch) (length l))); [lia|exact Hs2]|].
  intros x s3 [-> Hs3]. split; [done|].
  by replace (Nat.min (n + Datatypes.S rounds * batch) (length l))
    with (Nat.min (Nat.min (n + batch) (length l) + rounds * batch) (length l)) by lia.
Qed.
End healthy.

(** ** The relays that [NewRelay] makes *)
Section constructed.
Context `{UrlStruct} `{GoJson} `{MongoDriver}.
Context {open : cx → option string → option Z → M msess (res cursor)} `{!ChangeStreams open} `{!LiveStreams open}.
Lemma NewRelay_on_mongo_store holder n sender cf o r :
  NewRelay holder n (Some (relay_store open)) sender (Some relay_leader) (Some (EnsureIndexes cf)) o = inl r →
  name r = n ∧ on_store (open := open) r.
Proof.
  intros (En & Es & Hl & Hi & _ & _ & _ & _ & Hb & Ht & Httl)%NewRelay_built. split; [done|].
  split; [done| | |done..].
  - intros st Hst%Hl. congruence.
  - intros f. rewrite Hi. intros [= <-]. eauto.
Qed.

(** C7: a healthy stream relay keeps up: a relay built on this store that can take
    its lock, whose sender confirms, on a driver that works and with nobody else
    at work, is after k windows of a run still running, and its group has stored
    the token of the k * TokenBatchSize-th change past its position, or of the
    last one where the log is shorter. *)
Theorem run_keeps_up holder group sender cf opt r wait rounds s n :
  NewRelay holder group (Some (relay_store open)) sender (Some relay_leader) (Some (EnsureIndexes cf)) opt = inl r →
  confirming (lane r) →
  let w := world (base s) in let l := changes (colls w) in
  served (open := open) l → keyed (open := open) l → Forall deliverable l →
  mturns w = [] → electable r w → stream (local s) = None →
  (∃ row, offs (colls w) !! group = Some row ∧ resume_token row ≠ ""%string ∧
     token_key row = tokenKeyFromString (resume_token row) ∧ place (open := open) l (resume_token row) = Some n) →
  let '(x, s') := Run r wait (S rounds) Background s in
  x = None ∧ changes (colls (world (base s'))) = l ∧
  ∃ row, offs (colls (world (base s'))) !! group = Some row ∧
    place (open := open) l (resume_token row) =
      Some (Nat.min (n + S rounds * Z.to_nat (TokenBatchSize (opts r))) (length l)).
Proof.
  intros Hnew Hl w l Hsv Hk Hall Ht He Es Hrow. destruct (NewRelay_on_mongo_store _ _ _ _ _ _ Hnew) as [En Hr].
  pose proof (str_Run_alone r l Hr Hl Hsv Hk Hall wait rounds n s) as Hrun. unfold wp in Hrun.
  destruct (Run r wait (S rounds) Background s) as [x s']. cbn [fst snd] in Hrun.
  destruct Hrun as [-> ((_ & (El & row & Ho & _ & _ & Hp) & _) & _)]; [|done|done| |done|].
  - destruct Hrow as (row & _ & _ & _ & Hp). by eapply place_within.
  - split; [done|]. rewrite En. done.
  - split_and!; [done|done|]. exists row. rewrite En in Ho. by split.
Qed.
End constructed.
