(* ===== verification/MongoDemo.v ===== *)
(** * A MongoDB deployment in motion, and witnesses for its theorems *)
From S2P Require Import Prelude Errors GoLib Event Json Envelope Bound Relay Leader Scenario Stream Mongo MongoProps.
#[local] Open Scope Z_scope.

(** Tokens of this deployment are their payload behind a marker. *)
#[export] Instance text_tokens : MongoDriver.
Proof.
  refine {| IsDuplicateKeyError e :=
              match As asMongo (Some e) with Some (c, _) => c =? 11000 | None => false end;
            raw_data t := CutPrefix t "data:" |}.
  reflexivity.
Defined.

(** Commit times 1000 s and 1001 s after the epoch; the second token's two
    events differ only in the increment. *)
Definition tok_a : string := "data:82000003E800000001".
Definition tok_b : string := "data:82000003e900000001".
Definition tok_c : string := "data:82000003E900000002".
Example token_keys : map tokenKeyFromString [tok_a; tok_b; "data:8"; "data:8g"; "other"]
  = [Some "82000003e800000001"; Some "82000003e900000001"; None; None; None]%string.
Proof. reflexivity. Qed.

Definition fresh_mdb : mdb := mkMdb [] [] {[7%nat := []]} ∅ ∅ None.
Definition mongo_sess (ts : list mturn) : msess :=
  mkMsess fresh_mdb (unixEpoch + 1005 * Second) (unixEpoch + 1002 * Second) ts ∅.

(** Two leaders in turn: the stale one's earlier token of the same second is
    refused although the coarse commit times tie. *)
Definition two_saves : M msess (res bool * res bool * res bool) :=
  a ← SaveToken Background "books" tok_a (Unix 1000);
  c ← SaveToken Background "books" tok_c (Unix 1001);
  b ← SaveToken Background "books" tok_b (Unix 1001);
  mret (a, c, b).
Example stale_save_refused :
  (two_saves (mongo_sess [])).1 = (inl true, inl true, inl false) ∧
  resume_token <$> offs (colls (two_saves (mongo_sess [])).2) !! "books"%string = Some tok_c.
Proof. by vm_compute. Qed.

Definition mongo_saved : msess := (two_saves (mongo_sess [])).2.
Lemma mongo_SaveToken_contract_witness :
  colls (SaveToken Background "books" tok_b (Unix 1001) mongo_saved).2 = mfound mongo_saved.
Proof.
  refine (proj1 (proj1 (proj2 (mongo_SaveToken_contract Background "books" tok_b (Unix 1001) mongo_saved _ _)) _));
    [by vm_compute| |by vm_compute].
  unfold honest. assert (mturns mongo_saved = []) as -> by (vm_compute; reflexivity). constructor.
Defined.
Lemma tokenKey_order_witness :
  ∃ b b', keyBytes tok_a = Some b ∧ keyBytes tok_c = Some b' ∧
    String.leb "82000003e800000001" "82000003e900000002" = lexle b b' ∧
    ∀ c c', clusterTimeFromToken tok_a = Some c → clusterTimeFromToken tok_c = Some c' →
      String.leb "82000003e800000001" "82000003e900000002" = true → c <= c'.
Proof. apply (tokenKey_order tok_a tok_c); reflexivity. Defined.

(** The standby's host clock is an hour ahead; the lease is the server's. *)
Definition leading : msess := (TryAcquireLeaderLock Background "lock" "relay-1" (30 * Second) (mongo_sess [])).2.
Definition skewed : msess := mkMsess (colls leading) (hostTime leading + 3600 * Second) (serverTime leading) [] ∅.
Example leading_lock :
  lks (colls leading) !! "lock"%string = Some (mkLockDoc (Some "relay-1"%string) (Some (unixEpoch + 1032 * Second))).
Proof. by vm_compute. Qed.
Lemma mongo_lock_contract_witness :
  (TryAcquireLeaderLock Background "lock" "relay-2" (30 * Second) skewed).1 ≠ inl true.
Proof.
  apply (mongo_lock_contract Background "lock" "relay-2" (30 * Second) skewed)
    with (h' := "relay-1"%string) (e := unixEpoch + 1032 * Second); try done; by vm_compute.
Defined.

(** Once its lease has run out, the lock of another holder is taken over. *)
Example expired_taken_over :
  let s := mkMsess (colls leading) (unixEpoch + 2000 * Second) (unixEpoch + 2000 * Second) [] ∅ in
  (TryAcquireLeaderLock Background "lock" "relay-2" (30 * Second) s).1 = inl true.
Proof. by vm_compute. Qed.

Definition demo_msg : Message := mkMessage "ev-1" 0 (Some demo_metadata) (Some "payload"%string) (unixEpoch + 5).
Lemma demo_msg_text : ∀ md, MsgMetadata demo_msg = Some md → carried md ∧ parseable (Event.DataSchema md).
Proof. intros md [= <-]. split; [apply demo_carried|apply demo_parseable]. Qed.
Lemma mongo_publish_witness :
  ∃ sid md doc l, (Some 7%nat = Some sid ∨ Some 7%nat = None ∧ None = Some sid) ∧
     (@None nat = None ∨ None = Some sid) ∧
     pending (mfound (mongo_sess [])) !! sid = Some l ∧
     colls (CreateOutboxMessage (Some 7%nat) None Background demo_msg (mongo_sess [])).2
       = with_pending (mfound (mongo_sess [])) (<[sid := l ++ [doc]]> (pending (mfound (mongo_sess [])))) ∧
     MsgMetadata demo_msg = Some md ∧
     decodeMessage doc =
       inl (mkMessage (MsgID demo_msg) 0 (Some (stored md)) (Data demo_msg) (bsonDate (CreateTime demo_msg))).
Proof.
  pose proof (mongo_publish (Some 7%nat) None Background demo_msg (mongo_sess []) eq_refl demo_msg_text) as Hp.
  destruct (CreateOutboxMessage _ _ _ _ _) as [r s'] eqn:E.
  apply Hp. revert E. by vm_compute; intros [= <- _].
Defined.

(** A body run under an ambient transaction joins it. *)
Lemma WithTransaction_joins_witness :
  (WithTransaction (λ _ _, mret (Some (New "a second transaction"))) (mret (inr (New "a second session")))
     (λ _, mret tt) None (Some 7%nat)
     (λ c b, CreateOutboxMessage b c Background demo_msg) (mongo_sess [])).1 = None.
Proof. rewrite (WithTransaction_joins _ _ _ None (Some 7%nat) _ 7); [by vm_compute|by right]. Defined.

Lemma EnsureIndexes_exact_witness :
  ∃ secs, ttl_index (colls (EnsureIndexes (newConfig []) Background (mongo_sess [])).2) = Some secs ∧
    secs * Second = retention (newConfig []) ∧ 1 <= secs <= MaxInt32.
Proof.
  pose proof (EnsureIndexes_exact (newConfig []) Background (mongo_sess []) eq_refl) as He.
  destruct (EnsureIndexes _ _ _) as [r s'] eqn:E. apply He. revert E. by vm_compute; intros [= <- _].
Defined.
