(* ===== verification/StreamGroupDemo.v ===== *)
(** * A driver that walks the log, two stream relays, and the witness of [StreamGroup]

    The first relay has a sender that is down: it stops at the first event and
    stores nothing new. The second one, with a third event committed while it
    runs, delivers all three and stores the token of the last. *)
From S2P Require Import Prelude Errors GoLib Event Json Envelope Bound Relay Scenario Notify Leader Lane RelayCfg Stream StreamProps Safety StreamDelivery Mongo MongoProps MongoDemo MongoDelivery StreamGroup.
#[local] Open Scope Z_scope.

(** ** The driver *)
(** The token before the first change. *)
Definition head_token : string := "data:820000000000000000".
Definition index (t : string) (l : list rawChange) : option nat :=
  fst <$> list_find (λ raw, token_of raw = Some t) l.
Definition log_served (l : list rawChange) : Prop :=
  NoDup (omap token_of l) ∧ head_token ∉ omap token_of l ∧
  Forall (λ raw, ∀ e, decoded raw = inr e → ordinary e) l.
Definition log_place (l : list rawChange) (t : string) : option nat :=
  match index t l with
  | Some n => Some (S n)
  | None => if String.eqb t head_token then Some 0%nat else None
  end.
Definition no_change : rawChange := mkRawChange None None None (inr (New "no document")).
Definition set_cursor (k n : nat) (s : msess) : msess :=
  mkMsess (colls s) (hostTime s) (serverTime s) (mturns s) (<[k := n]> (cursors s)).
Definition log_cursor (k : nat) : cursor :=
  let at_ s := default 0%nat (cursors s !! k) in
  mkCursor
    (λ _ s, let s := (mbegin s).2 in
       if bool_decide (at_ s < length (changes (colls s)))%nat
       then (true, set_cursor k (S (at_ s)) s) else (false, s))
    (mret None) (mret (Z.of_nat k + 1))
    (gets (λ s, default no_change (changes (colls s) !! Nat.pred (at_ s))))
    (gets (λ s,
       let t := match at_ s with
                | O => head_token
                | S n => default ""%string (changes (colls s) !! n ≫= token_of)
                end in
       if bool_decide (log_place (changes (colls s)) t = Some (at_ s)) then Some t else None))
    (λ _, mret None).
Definition log_open (c : cx) (tok : option string) (n : option Z) : M msess (res cursor) := λ s,
  let s := (mbegin s).2 in
  let k := size (cursors s) in
  match tok with
  | None => (inl (log_cursor k), set_cursor k (length (changes (colls s))) s)
  | Some t =>
      match log_place (changes (colls s)) t with
      | Some i => (inl (log_cursor k), set_cursor k i s)
      | None => (inr (mongoErr changeStreamHistoryLostCode), s)
      end
  end.
(** The cursor's number, by which it is known to the driver. *)
Definition cursor_no (cs : cursor) : nat := Z.to_nat ((csID cs (mongo_sess [])).1 - 1).
Lemma cursor_no_log k : cursor_no (log_cursor k) = k.
Proof. unfold cursor_no. simpl. lia. Qed.
Lemma log_open_cursor c tok n s cs s' : log_open c tok n s = (inl cs, s') → ∃ k, cs = log_cursor k.
Proof. unfold log_open. repeat case_match; intros [= <- _]; eauto. Qed.

Lemma index_prefix l k t n : index t l = Some n → index t (l ++ k) = Some n.
Proof.
  unfold index. intros ([i x] & Hf & [= <-])%fmap_Some. by erewrite list_find_app_l.
Qed.
Lemma index_token l t n : index t l = Some n → t ∈ omap token_of l.
Proof.
  unfold index. intros ([i x] & (Hl & Ht & _)%list_find_Some & _)%fmap_Some.
  apply list_elem_of_omap. exists x. split; [by eapply list_elem_of_lookup_2|done].
Qed.
#[export] Instance log_streams : ChangeStreams log_open.
Proof.
  refine {| served := log_served; place := log_place;
            pos cs g := default 0%nat (g !! cursor_no cs) |}.
  - intros l l' t n (_ & Hh & _) [k ->]. unfold log_place.
    destruct (index t l) as [i|] eqn:E; [by rewrite (index_prefix _ _ _ _ E)|].
    destruct (String.eqb_spec t head_token) as [->|]; [|done]. intros [= <-].
    destruct (index head_token (l ++ k)) eqn:E'; [|done]. by apply index_token in E'.
  - intros l t n. unfold log_place, index.
    destruct (list_find _ l) as [[i x]|] eqn:E; simpl.
    + intros [= <-]. apply list_find_Some in E as (Hl%lookup_lt_Some & _). lia.
    + destruct (String.eqb _ _); [|done]. intros [= <-]. lia.
  - intros l raw e (_ & _ & Hd) Hin. rewrite Forall_forall in Hd. by apply Hd.
  - intros l n raw t (Hnd & _) Hl Ht. unfold log_place, index.
    assert (list_find (λ raw, token_of raw = Some t) l = Some (n, raw)) as ->; [|done].
    apply list_find_Some. split_and!; [done|done|]. intros j y Hy Hj Hty.
    rewrite <-(take_drop n l) in Hnd. rewrite omap_app, NoDup_app in Hnd. destruct Hnd as (_ & Hnd & _).
    apply (Hnd t); apply list_elem_of_omap; [exists y|exists raw]; (split; [|done]).
    + eapply list_elem_of_lookup_2. by rewrite lookup_take_lt.
    + eapply (list_elem_of_lookup_2 _ 0%nat). by rewrite lookup_drop, Nat.add_0_r.
  - intros c tok n s. pose proof (proj1 (mbegin_turned s)) as (ts & E1 & E2). exists ts.
    unfold log_open. by repeat case_match.
  - intros c t n s cs i. unfold log_open. destruct (log_place _ t) as [i'|] eqn:E; [|done].
    intros [= <-]. rewrite cursor_no_log. simpl. rewrite lookup_insert_eq. simpl. congruence.
  - intros cs c s (c0 & tok & n & s0 & s' & [k ->]%log_open_cursor).
    pose proof (proj1 (mbegin_turned s)) as (ts & E1 & E2). exists ts. simpl. by case_bool_decide.
  - intros cs c s (c0 & tok & n & s0 & s' & [k ->]%log_open_cursor). rewrite cursor_no_log. simpl.
    rewrite (proj2 (mbegin_turned s)). case_bool_decide as Hb; simpl.
    + rewrite lookup_insert_eq. simpl. apply lookup_lt_is_Some in Hb as [raw Hraw]. exists raw.
      split; [|done]. unfold gets. simpl. rewrite lookup_insert_eq. simpl. by rewrite Hraw.
    + split; [|done]. by rewrite (proj2 (mbegin_turned s)).
  - intros cs s (c0 & tok & n & s0 & s' & [k ->]%log_open_cursor). simpl. split; [by exists []|done].
  - intros cs s (c0 & tok & n & s0 & s' & [k ->]%log_open_cursor). simpl. split; [by exists []|done].
  - intros cs s (c0 & tok & n & s0 & s' & [k ->]%log_open_cursor) cs'. simpl. split; [by exists []|done].
  - intros cs s t (c0 & tok & n & s0 & s' & [k ->]%log_open_cursor). rewrite cursor_no_log. simpl.
    by case_bool_decide; intros [= <-].
  - intros cs c s (c0 & tok & n & s0 & s' & [k ->]%log_open_cursor). by exists [].
Defined.

(** ** The scenario *)
Definition demo_change (id tok : string) (t : Z) (meta : option json) : rawChange :=
  mkRawChange (Some tok) (Some t) (Some id)
    (inl (mkChangeEvent tok "insert" t (mkOutboxDoc id meta (Some "payload"%string) (unixEpoch + 5)))).
Definition good_meta : option json :=
  match MarshalMetadata (Some demo_metadata) with inl j => Some j | inr _ => None end.
Definition c1 : rawChange := demo_change "ev-1" tok_a 1000 good_meta.
(** An event whose metadata does not decode. *)
Definition c2 : rawChange := demo_change "ev-2" tok_b 1001 (Some JNull).
Definition c3 : rawChange := demo_change "ev-3" tok_c 1001 good_meta.
Definition with_changes (d : mdb) (l : list rawChange) : mdb :=
  mkMdb (docs d) l (pending d) (offs d) (lks d) (ttl_index d).
(** The group stored the head of the empty log; two events came since. *)
Definition stored_head : mdb :=
  with_changes (colls (SaveToken Background "books" head_token (Unix 0) (mongo_sess [])).2) [c1; c2].
Definition third (d : mdb) : mdb :=
  if bool_decide (tok_c ∈ omap token_of (changes d)) then d else with_changes d (changes d ++ [c3]).

Definition sender_down (ctx : cx) (md : option Metadata) (data : option string) : M msess error :=
  mret (Some (New "down")).
Definition sender_up (ctx : cx) (md : option Metadata) (data : option string) : M msess error := mret None.
Definition take_all (ctx : cx) (m : Message) (e : err) : M msess error := mret None.
Definition no_wait (c : cx) : M msess unit := mret tt.
Definition demo_options : options msess :=
  mkOptions DefaultLease DefaultOps (mkHooks no_signals (Some take_all) None) Second 100.
Definition make_relay (holder : string) sender : Relay msess + err :=
  NewRelay holder "books" (Some (relay_store log_open)) (Some sender) (Some relay_leader)
    (Some (EnsureIndexes (newConfig [])))
    demo_options.
Definition start (s : msess) : strst msess :=
  mkStrst (mkCore s [] freshTracker false false) (mkLoc None 0 "" "" 0 0 false 0).
Definition run_of (x : Relay msess + err) (s : msess) : strst msess :=
  match x with inl r => (Run r no_wait 1 Background (start s)).2 | inr _ => start s end.
Definition before (d : mdb) (ts : list mturn) : msess :=
  mkMsess d (unixEpoch + 2000 * Second) (unixEpoch + 2000 * Second) ts ∅.
Definition first_run : strst msess := run_of (make_relay "one" sender_down) (before stored_head []).
Definition busy_turns : list mturn :=
  [mkMturn id MReply (60 * Second); mkMturn id MReply Second; mkMturn id MReply Second;
   mkMturn third MReply Second; mkMturn id MReply Second].
Definition second_run : strst msess :=
  run_of (make_relay "two" sender_up) (before (colls (world (base first_run))) busy_turns).
Definition demo_disposed : list Message := disposed (trace (base second_run)).
Example demo_runs_log :
  disposed (trace (base first_run)) = [] ∧ MsgID <$> demo_disposed = ["ev-1"; "ev-2"; "ev-3"]%string ∧
  MsgMetadata <$> demo_disposed = [Some (stored demo_metadata); None; Some (stored demo_metadata)] ∧
  resume_token <$> offs (colls (world (base second_run))) !! "books"%string = Some tok_c.
Proof. by vm_compute. Qed.

Definition demo_group (D : Message → Prop) : account := mkAccount "books" 0 D.
Definition demo_account : account := demo_group (λ m, m ∈ demo_disposed).
Lemma demo_libs : OrdinaryLibs.
Proof.
  split; [done|by intros j e [= <-]|]. intros s e. simpl. unfold time_parse.
  repeat case_match; by intros [= <-].
Qed.
Lemma demo_served l :
  Forall (λ raw, raw ∈ [c1; c2; c3]) l → NoDup (omap token_of l) → served (open := log_open) l.
Proof.
  intros Hl Hnd. rewrite Forall_forall in Hl.
  assert (Hc : ∀ raw, raw ∈ l → token_of raw ≠ Some head_token ∧ ∀ e, decoded raw ≠ inr e).
  { intros raw Hin%Hl. by set_unfold in Hin; destruct Hin as [->|[->|[->|[]]]]. }
  split_and!; [done| |].
  - intros (raw & Hin & Ht)%list_elem_of_omap. by apply (Hc raw Hin).
  - apply Forall_forall. intros raw Hin e He. by destruct (Hc raw Hin) as [_ Hx]; apply Hx in He.
Qed.
Lemma third_elsewhere d : elsewhere (open := log_open) demo_account d (third d).
Proof.
  unfold third. case_bool_decide as Hin; [done|]. split_and!; [by exists [c3]| |done].
  intros (Hnd & Hh & Hd). simpl. unfold served, log_streams, log_served. rewrite omap_app. simpl.
  split_and!.
  - apply NoDup_app. split_and!; [done| |apply NoDup_singleton]. intros t Ht Htc%list_elem_of_singleton.
    by subst.
  - intros [?|Htc%list_elem_of_singleton]%elem_of_app; [done|by vm_compute in Htc].
  - apply Forall_app. split; [done|]. by repeat constructor.
Qed.
Lemma stream_opened : opened (open := log_open) demo_account stored_head.
Proof.
  split.
  - apply demo_served; [by repeat constructor; set_solver|]. apply (bool_decide_unpack _). by vm_compute.
  - eexists. split; [by vm_compute|]. by vm_compute.
Qed.
Lemma demo_relay_fits D holder sender r :
  (sender = sender_down ∨ sender = sender_up) → make_relay holder sender = inl r →
  on_mongo (open := log_open) (demo_group D) r ∧ hooks_ok (lane r) ∧ detached_lane (lane r).
Proof.
  intros Hsd E. unfold make_relay in E.
  pose proof (NewRelay_built _ _ _ _ _ _ _ _ E) as (_ & _ & _ & _ & (sd & [= <-] & Hsend) & Hb & Hp & Hok & _).
  split_and!; [|done|].
  - apply (NewRelay_on_mongo (demo_group D) _ _ _ _ _ E). rewrite Hp. by intros h c m x w er [= <-].
  - split; [rewrite Hsend; by destruct Hsd as [->| ->]|by rewrite Hb|rewrite Hp; by intros h c m x [= <-]].
Qed.
Lemma start_run D d d2 (r : Relay msess) rounds ts :
  on_mongo (open := log_open) (demo_group D) r → hooks_ok (lane r) → detached_lane (lane r) →
  Forall (λ t, mhow t = MReply ∧ ∀ d, group_run (open := log_open) (demo_group D) d (mothers t d)) ts →
  let x := (Run r no_wait rounds Background (start (before d ts))).2 in
  Forall D (disposed (trace (base x))) →
  group_run (open := log_open) (demo_group D) (colls (world (base x))) d2 →
  group_run (open := log_open) (demo_group D) d d2.
Proof.
  intros Hr Hok Hl Ht x HD Hgo. rewrite Forall_forall in Ht.
  apply (run_relay (demo_group D) r no_wait rounds Background (start (before d ts)) (trace (base x)));
    [exact Hr|exact Hok|exact Hl|by intros c w|done|done| | | |exact HD|exact Hgo].
  - by intros t [-> _]%Ht.
  - by intros t d' [_ ?]%Ht.
  - assert (trace (base (start (before d ts))) = []) as -> by reflexivity. by rewrite app_nil_l.
Qed.
Lemma stream_step D holder sender d ts d2 x :
  x = run_of (make_relay holder sender) (before d ts) →
  (sender = sender_down ∨ sender = sender_up) →
  Forall (λ t, mhow t = MReply ∧ ∀ d, group_run (open := log_open) (demo_group D) d (mothers t d)) ts →
  Forall D (disposed (trace (base x))) →
  group_run (open := log_open) (demo_group D) (colls (world (base x))) d2 →
  group_run (open := log_open) (demo_group D) d d2.
Proof.
  intros -> Hsd Ht. unfold run_of. destruct (make_relay holder sender) as [r|e] eqn:E; [|by intros _].
  destruct (demo_relay_fits D holder sender r Hsd E) as (Hr & Hok & Hl). by apply start_run.
Qed.
Lemma stream_runs : group_run (open := log_open) demo_account stored_head (colls (world (base second_run))).
Proof.
  assert (E1 : first_run = run_of (make_relay "one" sender_down) (before stored_head [])) by (unfold first_run; reflexivity).
  assert (E2 : second_run = run_of (make_relay "two" sender_up) (before (colls (world (base first_run))) busy_turns))
    by (unfold second_run; reflexivity).
  pose proof (stream_step (λ m, m ∈ demo_disposed) _ _ _ _ (colls (world (base second_run))) _ E1) as H1.
  pose proof (stream_step (λ m, m ∈ demo_disposed) _ _ _ _ (colls (world (base second_run))) _ E2) as H2. clear E1 E2.
  fold demo_account in H1, H2.
  apply H1; clear H1; [by left|constructor|by vm_compute; constructor|].
  apply H2; clear H2; [by right| | |constructor].
  - repeat constructor; simpl. intros d. eapply run_step; [apply third_elsewhere|constructor].
  - apply Forall_forall. intros m Hm. exact Hm.
Qed.

Lemma token_delivered_witness :
  ∃ row n, offs (colls (world (base second_run))) !! "books"%string = Some row ∧
    place (open := log_open) (changes (colls (world (base second_run)))) (resume_token row) = Some n ∧
    ∀ j raw, (0 <= j < n)%nat → changes (colls (world (base second_run))) !! j = Some raw →
      accounted demo_account raw.
Proof.
  apply (token_delivered (open := log_open) demo_libs demo_account stored_head);
    [apply stream_opened|apply stream_runs].
Defined.
