(* ===== verification/StreamHealthyDemo.v ===== *)
(** * A stream relay that keeps up, computed

    Two changes past the stored token, the driver of [StreamGroupDemo], a sender
    that confirms: the witness of [StreamHealthy]. *)
From S2P Require Import Prelude Errors GoLib Event Json Envelope Bound Relay Scenario Notify Leader Lane RelayCfg Stream StreamProps Safety StreamDelivery Steady Mongo MongoProps MongoDemo MongoDelivery StreamGroup StreamGroupDemo StreamHealthy.
#[local] Open Scope Z_scope.

#[export] Instance log_live : LiveStreams log_open.
Proof.
  split.
  - intros c t n w i [Ht _] _ Hp. unfold log_open, mbegin. rewrite Ht. cbn [snd].
    change (log_place (changes (colls w)) t = Some i) in Hp. rewrite Hp. simpl. eauto.
  - intros cs c w (c0 & tok & n & s0 & s' & [k ->]%log_open_cursor) [Ht _]. simpl. rewrite cursor_no_log.
    unfold mbegin. rewrite Ht. cbn [snd]. intros Hlt. by rewrite bool_decide_eq_true_2.
  - intros cs c w w' (c0 & tok & n & s0 & s' & [k ->]%log_open_cursor) _ _. simpl. split; [done|lia].
Qed.

Definition two_changes : list rawChange := [c1; c3].
Definition behind : mdb := with_changes stored_head two_changes.
Definition caught_run : option error * strst msess :=
  match make_relay "up" sender_up with
  | inl r => Run r no_wait 2 Background (start (before behind []))
  | inr _ => (None, start (before behind []))
  end.
Example caught_run_log :
  MsgID <$> disposed (trace (base caught_run.2)) = ["ev-1"; "ev-3"]%string ∧
  resume_token <$> offs (colls (world (base caught_run.2))) !! "books"%string = Some tok_c.
Proof. by vm_compute. Qed.

Lemma two_places t i :
  log_place two_changes t = Some i →
  (t, i) ∈ [(head_token, 0%nat); (tok_a, 1%nat); (tok_c, 2%nat)].
Proof.
  unfold log_place, index, two_changes. simpl.
  destruct (decide (token_of c1 = Some t)) as [E|_]; [injection E as <-; intros [= <-]; set_solver|].
  destruct (decide (token_of c3 = Some t)) as [E|_]; [injection E as <-; intros [= <-]; set_solver|].
  simpl. destruct (String.eqb_spec t head_token) as [->|]; [intros [= <-]; set_solver|done].
Qed.
Lemma two_keyed : keyed (open := log_open) two_changes.
Proof.
  split.
  - intros t i Hp%two_places. set_unfold in Hp. destruct Hp as [[= -> ->]|[[= -> ->]|[[= -> ->]|[]]]]; eexists; by vm_compute.
  - intros t t' i j k k' Hp%two_places Hp'%two_places. set_unfold in Hp. set_unfold in Hp'.
    destruct Hp as [[= -> ->]|[[= -> ->]|[[= -> ->]|[]]]]; destruct Hp' as [[= -> ->]|[[= -> ->]|[[= -> ->]|[]]]];
      intros Hij [= <-] [= <-]; first [by vm_compute|lia].
Qed.
Lemma two_deliverable : Forall deliverable two_changes.
Proof. repeat constructor; do 2 eexists; (split_and!; [reflexivity|done|done|by vm_compute]). Qed.
Lemma sender_up_confirming (l : Lane msess string) : Sender l = sender_up → Batch l = None → confirming l.
Proof. intros E Eb. split; [by rewrite E|by rewrite E|by rewrite Eb..]. Qed.
(** What the pace of the run depends on in the relay. *)
Definition pace (r : Relay msess) : Z * string := (TokenBatchSize (opts r), LockName (leader r)).
Example caught_relay :
  match make_relay "up" sender_up with inl r => Some (pace r) | inr _ => None end = Some (100, "books"%string).
Proof. by vm_compute. Qed.
Lemma behind_electable (r : Relay msess) :
  LockName (leader r) = "books"%string → electable r (before behind []).
Proof. intros E. right. rewrite E. by vm_compute. Qed.
Lemma behind_log : changes (colls (before behind [])) = two_changes.
Proof. done. Qed.

Lemma run_keeps_up_witness :
  caught_run.1 = None ∧ ∃ row, offs (colls (world (base caught_run.2))) !! "books"%string = Some row ∧
    place (open := log_open) two_changes (resume_token row) = Some 2%nat.
Proof.
  pose proof caught_relay as Hp. unfold caught_run. destruct (make_relay "up" sender_up) as [r|e] eqn:E; [|discriminate Hp].
  unfold pace in Hp. injection Hp as Eb Elk. unfold make_relay in E.
  pose proof (NewRelay_built _ _ _ _ _ _ _ _ E) as (_ & _ & _ & _ & (sd & [= <-] & Hsend) & Hbat & _).
  pose proof (run_keeps_up (open := log_open) _ _ _ _ _ r no_wait 1 (start (before behind [])) 0%nat E) as Hrun.
  destruct (Run r no_wait 2 Background (start (before behind []))) as [x s'].
  destruct Hrun as (-> & _ & row & Hrow & Hpl).
  - by apply sender_up_confirming.
  - apply demo_served; [repeat constructor; set_solver|]. apply (bool_decide_unpack _). by vm_compute.
  - exact two_keyed.
  - exact two_deliverable.
  - done.
  - by apply behind_electable.
  - done.
  - eexists. split_and!; by vm_compute.
  - split; [done|]. exists row. split; [exact Hrow|]. rewrite Eb in Hpl. exact Hpl.
Defined.
