(* ===== verification/StreamTakeover.v ===== *)
(** * Another stream relay takes over

    The counterpart of [Takeover] for change streams: whatever the relays of a
    group did before they went away, one healthy stream relay that can take the
    lock completes the delivery of every change of the outbox collection. *)
From S2P Require Import Prelude Errors GoLib Event Json Envelope Bound Relay Scenario Notify Leader Lane RelayCfg Stream StreamProps Safety StreamDelivery Steady Mongo MongoProps MongoDelivery StreamGroup StreamHealthy.
#[local] Open Scope Z_scope.

Section takeover.
Context `{UrlStruct} `{GoJson} `{MongoDriver}.
Context {open : cx → option string → option Z → M msess (res cursor)} `{!ChangeStreams open} `{!LiveStreams open}.
Context (Hlib : OrdinaryLibs).
Context (G : account).
#[local] Notation group_run := (group_run (open := open) G).

Lemma str_group_run_trans d1 d2 d3 : group_run d1 d2 → group_run d2 d3 → group_run d1 d3.
Proof.
  induction 1 as [|d d1 d2 Hs _ IH|]; intros Hgo; [done|by eapply run_step; eauto|].
  eapply run_relay; eauto.
Qed.

(** A run of a relay that nothing disturbs is a run of the group. *)
Lemma str_quiet_group_run (r : Relay msess) wait rounds s k :
  on_mongo (open := open) G r → hooks_ok (lane r) → detached_lane (lane r) → (∀ c, detached (wait c)) →
  starting s → mturns (world (base s)) = [] →
  trace (base (Run r wait rounds Background s).2) = trace (base s) ++ k →
  Forall (delivered G) (disposed k) →
  group_run (colls (world (base s))) (colls (world (base (Run r wait rounds Background s).2))).
Proof.
  intros Hr Hok Hl Hw Hst Ht Hk HD. eapply (run_relay G r wait rounds Background s k); try done.
  - rewrite Ht. by intros t ?%elem_of_nil.
  - rewrite Ht. by intros t d ?%elem_of_nil.
  - constructor.
Qed.

(** Where the stored token is the last one, everything was disposed of. *)
Lemma last_token_accounted d row :
  log_safe (open := open) G d → offs d !! group G = Some row →
  place (open := open) (changes d) (resume_token row) = Some (length (changes d)) →
  ∀ j raw, (began G <= j)%nat → changes d !! j = Some raw → accounted G raw.
Proof.
  intros (_ & row' & Hrow & _ & n & Hn & _ & Hacc) Ho Hp j raw Hj Hraw. simplify_eq.
  eapply Hacc; [|exact Hraw]. split; [done|]. by eapply lookup_lt_Some.
Qed.

(** C5: every change is delivered in the end. After any run of the stream relays of
    a group, let a relay made by [NewRelay] start on this store: able to take the
    lock, with a sender that confirms, on a driver that works, undisturbed, in a
    log of which every change decodes, for enough windows for the changes past
    the stored token. Then every change from the place where the account was
    opened to the end of the log was delivered by one of the relays, before or
    after the takeover. *)
Theorem every_change_delivered holder sender cf opt r wait rounds s k d :
  opened (open := open) G d →
  let w := world (base s) in let l := changes (colls w) in
  group_run d (colls w) →
  NewRelay holder (group G) (Some (relay_store open)) sender (Some relay_leader) (Some (EnsureIndexes cf)) opt = inl r →
  (∀ h c m x w e, Poison (lane r) = Some h → (h c m x w).1 = Some e → ordinary e) →
  confirming (lane r) → detached_lane (lane r) → (∀ c, detached (wait c)) →
  keyed (open := open) l → Forall deliverable l → mturns w = [] → electable r w → starting s →
  (∀ row n, offs (colls w) !! group G = Some row → place (open := open) l (resume_token row) = Some n →
     token_key row = tokenKeyFromString (resume_token row) ∧
     (length l <= n + S rounds * Z.to_nat (TokenBatchSize (opts r)))%nat) →
  trace (base (Run r wait (S rounds) Background s).2) = trace (base s) ++ k →
  Forall (delivered G) (disposed k) →
  ∀ j raw, (began G <= j)%nat → l !! j = Some raw → accounted G raw.
Proof.
  intros Ho%opened_log_safe w l Hrun Hnew Hpo Hl Hdl Hw Hkey Hall Ht He Hst Hrow Hk HD.
  pose proof (NewRelay_built _ _ _ _ _ _ _ _ Hnew) as (_&_&_&_&_&_&_&Hok&_).
  pose proof (NewRelay_on_mongo G _ _ _ _ _ Hnew Hpo) as Hon.
  destruct (NewRelay_on_mongo_store _ _ _ _ _ _ Hnew) as [En Hr].
  pose proof (str_quiet_group_run r wait (S rounds) s k Hon Hok Hdl Hw Hst Ht Hk HD) as Hquiet.
  destruct (group_run_evolves Hlib G d (colls w) Hrun Ho) as [_ Hsafe].
  destruct (group_run_evolves Hlib G _ _ Hquiet Hsafe) as [_ Hafter].
  destruct Hsafe as (Hsv & row & Hr0 & Hne & n & Hn & Hle & _). destruct (Hrow row n Hr0 Hn) as [Hkr Henough].
  pose proof (str_Run_alone r l Hr Hl Hsv Hkey Hall wait rounds n s Hle He Ht) as Hres.
  unfold wp in Hres. destruct (Run r wait (S rounds) Background s) as [x s']. cbn [fst snd] in *.
  destruct Hres as [_ ((_ & (El & row' & Ho' & _ & _ & Hp) & _) & _)]; [|apply Hst|].
  { split; [done|]. exists row. rewrite En. by split_and!. }
  rewrite En in Ho'. rewrite Nat.min_r in Hp by exact Henough. rewrite <-El in Hp |- *.
  by eapply last_token_accounted.
Qed.
End takeover.
