(* ===== verification/StreamTakeoverDemo.v ===== *)
(** * A takeover of a stream, computed

    The first relay takes the lock, cannot deliver and goes away without a
    release; when its lease has run out another one starts. The witness of
    [StreamTakeover]. *)
From S2P Require Import Prelude Errors GoLib Event Json Envelope Bound Relay Scenario Notify Leader Lane RelayCfg Stream StreamProps Safety StreamDelivery Steady Mongo MongoProps MongoDemo MongoDelivery StreamGroup StreamGroupDemo StreamHealthy StreamHealthyDemo StreamTakeover.
#[local] Open Scope Z_scope.

Definition gone_run : strst msess := run_of (make_relay "one" sender_down) (before behind []).
(** The collections it leaves, an hour later. *)
Definition left_behind : msess :=
  mkMsess (colls (world (base gone_run))) (unixEpoch + 2000 * Second + 3600 * Second)
    (unixEpoch + 2000 * Second + 3600 * Second) [] ∅.
Definition taken_run : strst msess :=
  match make_relay "up" sender_up with
  | inl r => (Run r no_wait 1 Background (start left_behind)).2
  | inr _ => start left_behind
  end.
Definition taken_over (m : Message) : Prop := m ∈ disposed (trace (base taken_run)).
Example str_takeover_demo :
  (holder_id <$> lks (colls left_behind) !! "books" = Some (Some "one") ∧
   holder_id <$> lks (colls (world (base taken_run))) !! "books" = Some (Some "up"))%string ∧
  disposed (trace (base gone_run)) = [] ∧ MsgID <$> disposed (trace (base taken_run)) = ["ev-1"; "ev-3"]%string.
Proof. by vm_compute. Qed.

Lemma behind_served : served (open := log_open) two_changes.
Proof. apply demo_served; [repeat constructor; set_solver|]. apply (bool_decide_unpack _). by vm_compute. Qed.
Lemma behind_opened : opened (open := log_open) (demo_group taken_over) behind.
Proof. split; [exact behind_served|]. eexists. split; [by vm_compute|]. by vm_compute. Qed.
Lemma str_left_behind_runs : group_run (open := log_open) (demo_group taken_over) behind (colls left_behind).
Proof.
  assert (E : gone_run = run_of (make_relay "one" sender_down) (before behind [])) by (unfold gone_run; reflexivity).
  pose proof (stream_step taken_over _ _ _ _ (colls left_behind) _ E) as Hstep. clear E.
  apply Hstep; clear Hstep; [by left|constructor|by vm_compute; constructor|].
  unfold left_behind. cbn [colls]. constructor.
Qed.
Lemma left_behind_log : changes (colls left_behind) = two_changes.
Proof. by vm_compute. Qed.
Lemma left_behind_electable (r : Relay msess) :
  LockName (leader r) = "books"%string → electable r left_behind.
Proof. intros E. right. rewrite E. unfold canTake. apply orb_true_intro. right. by vm_compute. Qed.
Lemma left_behind_position row n :
  offs (colls left_behind) !! "books"%string = Some row → place (open := log_open) (changes (colls left_behind)) (resume_token row) = Some n →
  token_key row = tokenKeyFromString (resume_token row) ∧ (length (changes (colls left_behind)) <= n + 1 * Z.to_nat 100)%nat.
Proof.
  rewrite left_behind_log. intros Hrow _. split; [|unfold two_changes; simpl; lia]. revert Hrow.
  assert ((λ x, bool_decide (token_key x = tokenKeyFromString (resume_token x))) <$>
    offs (colls left_behind) !! "books"%string = Some true) as E by (by vm_compute).
  intros Hrow. rewrite Hrow in E. injection E as E. exact (bool_decide_eq_true_1 _ E).
Qed.

Lemma every_change_delivered_witness :
  accounted (demo_group taken_over) c1 ∧ accounted (demo_group taken_over) c3.
Proof.
  pose proof caught_relay as Hp. destruct (make_relay "up" sender_up) as [r|e] eqn:E; [|discriminate Hp].
  unfold pace in Hp. injection Hp as Eb Elk.
  destruct (demo_relay_fits taken_over "up" sender_up r (or_intror eq_refl) E) as (Hon & _ & Hdl).
  unfold make_relay in E.
  pose proof (NewRelay_built _ _ _ _ _ _ _ _ E) as (_ & _ & _ & _ & (sd & [= <-] & Hsend) & Hbat & _).
  enough (Hall : ∀ j raw, (0 <= j)%nat → changes (colls left_behind) !! j = Some raw →
    accounted (demo_group taken_over) raw).
  { rewrite left_behind_log in Hall. split; [exact (Hall 0%nat c1 (le_n 0) eq_refl)|exact (Hall 1%nat c3 (le_S _ _ (le_n 0)) eq_refl)]. }
  apply (every_change_delivered (open := log_open) demo_libs (demo_group taken_over) "up" (Some sender_up) (newConfig []) demo_options r no_wait 0
    (start left_behind) (trace (base taken_run)) behind).
  - exact behind_opened.
  - exact str_left_behind_runs.
  - exact E.
  - exact (om_poison _ _ Hon).
  - by apply sender_up_confirming.
  - exact Hdl.
  - by intros c w.
  - exact (eq_ind_r _ two_keyed left_behind_log).
  - exact (eq_ind_r _ two_deliverable left_behind_log).
  - exact eq_refl.
  - by apply left_behind_electable.
  - by split.
  - rewrite Eb. exact left_behind_position.
  - unfold taken_run, make_relay. rewrite E. reflexivity.
  - apply Forall_forall. intros m Hm. exact Hm.
Defined.
