(* ===== verification/Codec.v ===== *)
(** * encoding: the codec registry and the two protobuf codecs

    encoding.go, json/protojson.go, proto/proto.go. The protobuf library is a
    parameter: Go's [any] as a codec sees it, the type assertion to
    [proto.Message], and the two wire formats. [Unmarshal] writes through the
    message it is given, also when it fails half-way. *)
From S2P Require Import Prelude Errors GoLib Event.

Class Protobuf := {
  Any : Type;
  PMessage : Type;
  (** [v.(proto.Message)], and [v] after a write through that message. *)
  as_message : Any → option PMessage;
  with_message : Any → PMessage → Any;
  proto_Marshal : PMessage → option string + err;
  proto_Unmarshal : option string → PMessage → PMessage * error;
  protojson_Marshal : PMessage → option string + err;
  protojson_Unmarshal : bool → option string → PMessage → PMessage * error }.

(** What the codecs rely on: a message of the same type is read back as an equal
    one ([proto.Equal]). *)
Class ProtobufLaws `{Protobuf} := {
  mtype : PMessage → string;
  PEqual : PMessage → PMessage → Prop;
  proto_back m b m0 : proto_Marshal m = inl b → mtype m0 = mtype m →
    ∃ m', proto_Unmarshal b m0 = (m', None) ∧ PEqual m m';
  protojson_back m b m0 : protojson_Marshal m = inl b → mtype m0 = mtype m →
    ∃ m', protojson_Unmarshal true b m0 = (m', None) ∧ PEqual m m' }.

Section encoding.
Context `{Unicode} `{Protobuf}.

Record Codec := mkCodec {
  Name : string;
  Marshal : Any → option string + err;
  Unmarshal : option string → Any → Any * error }.
#[local] Abbreviation registry := (gmap string Codec).

Definition ErrUnknownCodec : sentinel := ErrOther "encoding.ErrUnknownCodec".

(** [None]: a panic. *)
Definition RegisterCodec (codec : option Codec) (registeredCodecs : registry) : option registry :=
  match codec with
  | None => None
  | Some codec =>
      if String.eqb (Name codec) "" then None
      else
        let contentSubtype := ToLower (Name codec) in
        Some (<[contentSubtype := codec]> registeredCodecs)
  end.
Definition GetCodec (registeredCodecs : registry) (contentSubtype : string) : Codec + err :=
  match registeredCodecs !! contentSubtype with
  | Some codec => inl codec
  | None => inr (Sentinel ErrUnknownCodec)
  end.

(** The shape both codecs share, over a wire format. *)
Definition jsonName : string := "json".
Definition jsonCodec : Codec :=
  mkCodec jsonName
    (λ v, match as_message v with
          | None => inr (New "failed to marshal, want proto.Message")
          | Some m => ewrap "json codec: marshal" (protojson_Marshal m)
          end)
    (λ data v, match as_message v with
          | None => (v, Some (New "failed to unmarshal, want proto.Message"))
          | Some m =>
              let '(m, e) := protojson_Unmarshal true data m in
              (with_message v m, wrapf "json codec: unmarshal" <$> e)
          end).
Definition protoName : string := "proto".
Definition protoCodec : Codec :=
  mkCodec protoName
    (λ v, match as_message v with
          | None => inr (New "failed to marshal, want proto.Message")
          | Some m => ewrap "proto codec: marshal" (proto_Marshal m)
          end)
    (λ data v, match as_message v with
          | None => (v, Some (New "failed to unmarshal, want proto.Message"))
          | Some m =>
              let '(m, e) := proto_Unmarshal data m in
              (with_message v m, wrapf "proto codec: unmarshal" <$> e)
          end).

(** The registry after the package initialisers eventbus imports, and after the
    registrations of a program. *)
Definition init : option registry :=
  RegisterCodec (Some jsonCodec) ∅ ≫= RegisterCodec (Some protoCodec).
Definition registrations (cs : list Codec) : option registry :=
  foldl (λ reg c, reg ≫= RegisterCodec (Some c)) init cs.
End encoding.
#[global] Arguments Codec {_}.
#[global] Arguments registrations {_ _}.

(** ** Lemmas *)
Section facts.
Context `{Unicode} `{Protobuf}.

Lemma init_codecs : init = Some {["json"%string := jsonCodec; "proto"%string := protoCodec]}.
Proof.
  unfold init, RegisterCodec. simpl. unfold protoName, jsonName.
  rewrite !lower_ascii_fix by done. reflexivity.
Qed.

(** A codec is found under the lower-cased name it gave. *)
Definition keyed (reg : gmap string Codec) : Prop :=
  ∀ k c, reg !! k = Some c → k = ToLower (Name c) ∧ Name c ≠ ""%string.
Lemma RegisterCodec_keyed c reg reg' : keyed reg → RegisterCodec c reg = Some reg' → keyed reg'.
Proof.
  intros Hk. unfold RegisterCodec. destruct c as [c|]; [|done].
  destruct (String.eqb_spec (Name c) ""); [done|]. intros [= <-] k c'.
  rewrite lookup_insert_Some. intros [[<- <-]|[_ ?]]; [done|by apply Hk].
Qed.
Lemma registrations_keyed cs reg : registrations cs = Some reg → keyed reg.
Proof.
  unfold registrations. revert reg.
  assert (Hi : ∀ r, init = Some r → keyed r).
  { unfold init. intros r. destruct (RegisterCodec (Some jsonCodec) ∅) as [r0|] eqn:E; [|done].
    apply RegisterCodec_keyed. revert E.
    apply RegisterCodec_keyed. intros k c Hkc. by rewrite lookup_empty in Hkc. }
  revert Hi. generalize init. induction cs as [|c cs IH]; simpl; intros o Ho; [done|].
  apply IH. intros r. destruct o as [r0|]; [|done]. exact (RegisterCodec_keyed (Some c) r0 r (Ho _ eq_refl)).
Qed.

(** Where the entries of a registry come from. *)
Definition known (cs : list Codec) (reg : gmap string Codec) : Prop :=
  (∀ k c, reg !! k = Some c → k = "json"%string ∧ c = jsonCodec ∨ k = "proto"%string ∧ c = protoCodec ∨ c ∈ cs) ∧
  is_Some (reg !! "json"%string) ∧ is_Some (reg !! "proto"%string).
Lemma RegisterCodec_known cs c reg reg' :
  known cs reg → RegisterCodec (Some c) reg = Some reg' → known (cs ++ [c]) reg'.
Proof.
  intros (Hk & Hj & Hp). unfold RegisterCodec. destruct (String.eqb _ _); [done|]. intros [= <-].
  split_and!; [|by apply lookup_insert_is_Some'; right..].
  intros k c'. rewrite lookup_insert_Some, elem_of_app, list_elem_of_singleton.
  intros [[_ <-]|[_ Hkc]]; [auto|]. destruct (Hk k c' Hkc) as [?|[?|?]]; auto.
Qed.
Lemma registrations_known cs reg : registrations cs = Some reg → known cs reg.
Proof.
  unfold registrations. rewrite init_codecs. revert reg. induction cs as [|c cs IH] using rev_ind; intros reg.
  - intros [= <-]. split_and!; [|by eexists..].
    intros k c [[<- <-]|[_ [<- <-]%lookup_singleton_Some]]%lookup_insert_Some; auto.
  - rewrite foldl_app. simpl. destruct (foldl _ _ cs) as [r|]; [|done].
    intros Hr. by apply (RegisterCodec_known cs c r), Hr; apply IH.
Qed.
End facts.
