(* ===== verification/Publisher.v ===== *)
(** * eventbus: the publisher and the outbox's publisher factory

    eventbus/publisher.go and publisher_interceptor.go, and
    transport/outbox/factory.go over the sender of [Envelope]. A publish option
    is a function of the metadata it edits; the options of the package are of
    this kind. An interceptor is any program of the world, and gets of the
    publisher it is handed what the innermost call reads ([impl]). *)
From S2P Require Import Prelude Errors GoLib Event Bound Relay Envelope Codec.
#[local] Open Scope Z_scope.

Section publisher.
Context `{UrlLib} `{Unicode} `{Protobuf} {W : Type} `{Host W}.
(** The codecs registered when the program's initialisers have run. *)
Context (registeredCodecs : gmap string Codec).

(** eventbus.Sender *)
Definition Sender : Type := cx → option Metadata → option string → M W error.

Definition PublishOption : Type := Metadata → Metadata.
Definition IDGenerator : Type := M W (string + err).
(** [newRandom] is github.com/google/uuid's NewRandom, as text. *)
Definition generateUUIDv4 (newRandom : M W (string + err)) : IDGenerator :=
  r ← newRandom;
  mret (ewrap "eventbus: generate uuid v4 event id" (r : string + err)).

Definition WithEventID (id : string) : PublishOption := λ m,
  mkMetadata (SpecVersion m) (Type_ m) (Source m) (Subject m) id (Time m) (Extensions m)
    (DataSchema m) (DataContentType m).
Definition WithEventContentType (contentType : string) : PublishOption := λ m,
  mkMetadata (SpecVersion m) (Type_ m) (Source m) (Subject m) (ID m) (Time m) (Extensions m)
    (DataSchema m) (ToLower contentType).
Definition WithEventSource (source : string) : PublishOption := λ m,
  mkMetadata (SpecVersion m) (Type_ m) source (Subject m) (ID m) (Time m) (Extensions m)
    (DataSchema m) (DataContentType m).
Definition WithEventSubject (subject : string) : PublishOption := λ m,
  mkMetadata (SpecVersion m) (Type_ m) (Source m) subject (ID m) (Time m) (Extensions m)
    (DataSchema m) (DataContentType m).
Definition WithEventDataSchema (schema : option url) : PublishOption := λ m,
  mkMetadata (SpecVersion m) (Type_ m) (Source m) (Subject m) (ID m) (Time m) (Extensions m)
    schema (DataContentType m).
Definition WithEventExtension (name : string) (value : goval) : PublishOption := λ m,
  mkMetadata (SpecVersion m) (Type_ m) (Source m) (Subject m) (ID m) (Time m)
    (Some (<[name := value]> (default ∅ (Extensions m)))) (DataSchema m) (DataContentType m).
Definition WithEventTime (t : Z) : PublishOption := λ m,
  mkMetadata (SpecVersion m) (Type_ m) (Source m) (Subject m) (ID m) t (Extensions m)
    (DataSchema m) (DataContentType m).

(** What [publish] reads of a [PublisherImpl]. *)
Record impl := mkImpl {
  sender : Sender;
  idGenerator : IDGenerator;
  defaultContentType : string;
  defaultCodec : option Codec }.
Definition PublishFn : Type := cx → string → Any → impl → list PublishOption → M W error.
Definition PublisherInterceptor : Type :=
  cx → string → Any → impl → PublishFn → list PublishOption → M W error.

Record publisherOptions := mkPublisherOptions {
  publishOptions : list PublishOption;
  chainInterceptors : list PublisherInterceptor;
  interceptor : option PublisherInterceptor;
  optIDGenerator : IDGenerator }.
Definition PublisherOption : Type := publisherOptions → publisherOptions.
Definition defaultPublisherOptions (newRandom : M W (string + err)) : publisherOptions :=
  mkPublisherOptions [] [] None (generateUUIDv4 newRandom).
Definition WithDefaultPublishOptions (pos : list PublishOption) : PublisherOption := λ o,
  mkPublisherOptions (publishOptions o ++ pos) (chainInterceptors o) (interceptor o) (optIDGenerator o).
Definition WithPublisherContentType (t : string) : PublisherOption :=
  WithDefaultPublishOptions [WithEventContentType t].
Definition WithIDGenerator (gen : option IDGenerator) : PublisherOption := λ o,
  match gen with
  | Some gen => mkPublisherOptions (publishOptions o) (chainInterceptors o) (interceptor o) gen
  | None => o
  end.
Definition WithPublisherInterceptor (f : option PublisherInterceptor) : PublisherOption := λ o,
  mkPublisherOptions (publishOptions o) (chainInterceptors o) f (optIDGenerator o).
Definition WithChainPublisherInterceptor (ints : list PublisherInterceptor) : PublisherOption := λ o,
  mkPublisherOptions (publishOptions o) (chainInterceptors o ++ ints) (interceptor o) (optIDGenerator o).

(** ** Interceptor chains *)

(** [chainInvoker interceptors curr finalInvoker], on the interceptors after
    [curr]. *)
Fixpoint chainInvoker (rest : list PublisherInterceptor) (finalInvoker : PublishFn) : PublishFn :=
  match rest with
  | [] => finalInvoker
  | i :: rest => λ ctx name e p opts, i ctx name e p (chainInvoker rest finalInvoker) opts
  end.
Definition chainPublisherInterceptors (o : publisherOptions) : option PublisherInterceptor :=
  let interceptors := match interceptor o with
                      | Some i => i :: chainInterceptors o
                      | None => chainInterceptors o
                      end in
  match interceptors with
  | [] => None
  | [i] => Some i
  | i :: rest => Some (λ ctx name e p invoker opts, i ctx name e p (chainInvoker rest invoker) opts)
  end.

(** ** Construction *)
Definition completeMetadata (m : Metadata) : M W Metadata :=
  let m := if String.eqb (DataContentType m) ""
           then mkMetadata (SpecVersion m) (Type_ m) (Source m) (Subject m) (ID m) (Time m)
                  (Extensions m) (DataSchema m) (ContentType protoName)
           else m in
  let m := if String.eqb (Source m) "" then WithEventSource "protoevent-go" m else m in
  if Time m =? 0 then t ← now; mret (WithEventTime t m) else mret m.

Definition zeroMetadata : Metadata := mkMetadata "" "" "" "" "" 0 None None "".
Definition resolveDefaultCodec (opts : list PublishOption) : M W (string * option Codec) :=
  md ← completeMetadata (foldl (λ m opt, opt m) zeroMetadata opts);
  let '(subtype, ok) := ContentSubtype (DataContentType md) in
  if negb ok then mret (""%string, None)
  else match GetCodec registeredCodecs subtype with
       | inr _ => mret (""%string, None)
       | inl codec => mret (DataContentType md, Some codec)
       end.

Record PublisherImpl := mkPublisherImpl { pimpl : impl; options : publisherOptions }.
Definition NewPublisher (newRandom : M W (string + err)) (sender : Sender)
    (opts : list PublisherOption) : M W PublisherImpl :=
  let options := foldl (λ o opt, opt o) (defaultPublisherOptions newRandom) opts in
  r ← resolveDefaultCodec (publishOptions options);
  let '(ct, codec) := r : string * option Codec in
  mret (mkPublisherImpl (mkImpl sender (optIDGenerator options) ct codec)
          (mkPublisherOptions (publishOptions options) (chainInterceptors options)
             (chainPublisherInterceptors options) (optIDGenerator options))).

(** ** Publishing *)
Definition codecFor (p : impl) (contentType : string) : Codec + err :=
  let full :=
    let '(contentSubtype, ok) := ContentSubtype contentType in
    if negb ok then inr (New "unsupported content type")
    else ewrap "eventbus: publish" (GetCodec registeredCodecs contentSubtype) in
  match defaultCodec p with
  | Some codec => if String.eqb contentType (defaultContentType p) then inl codec else full
  | None => full
  end.

Definition publishExtension (k : string) (v : goval) : error :=
  if ReservedExtensionName k
  then Some (New "eventbus: publish: extension collides with a core CloudEvents attribute")
  else wrapf "eventbus: publish: extension" <$> ValidExtensionValue v.
(** The loop over the map, in whatever order it is visited. *)
Fixpoint publishExtensions (l : list (string * goval)) : error :=
  match l with
  | [] => None
  | (k, v) :: l => match publishExtension k v with Some e => Some e | None => publishExtensions l end
  end.

Definition dropEmptySchema (m : Metadata) : Metadata :=
  match DataSchema m with
  | Some u => if String.eqb (url_String u) "" then WithEventDataSchema None m else m
  | None => m
  end.

(** The event's ID, when no option set one. *)
Definition mintID (p : impl) (md : Metadata) : M W (Metadata + err) :=
  if String.eqb (ID md) "" then
    id ← idGenerator p;
    mret (match id : string + err with
          | inl id => inl (WithEventID id md)
          | inr er => inr (wrapf "generate event id" er)
          end)
  else mret (inl md).
Definition publish : PublishFn := λ ctx name e p opts,
  match SplitType name with
  | inr er => mret (Some (wrapf "eventbus: publish" er))
  | inl _ =>
      let md := foldl (λ m opt, opt m) (NewMetadata name) opts in
      r ← mintID p md;
      match r : Metadata + err with
      | inr er => mret (Some er)
      | inl md =>
          md ← completeMetadata md;
          let md := dropEmptySchema md in
          match publishExtensions (map_to_list (default ∅ (Extensions md))) with
          | Some er => mret (Some er)
          | None =>
              match codecFor p (DataContentType md) with
              | inr er => mret (Some er)
              | inl codec =>
                  match Marshal codec e with
                  | inr er => mret (Some (wrapf "marshal" er))
                  | inl data =>
                      er ← sender p ctx (Some md) data;
                      mret (wrapf "send" <$> er)
                  end
              end
          end
      end
  end.

(** [combine] copies; without mutation it is concatenation. *)
Definition combine (o1 o2 : list PublishOption) : list PublishOption :=
  match o1, o2 with
  | [], _ => o2
  | _, [] => o1
  | _, _ => o1 ++ o2
  end.
Definition Publish (p : PublisherImpl) (ctx : cx) (name : string) (e : Any)
    (opts : list PublishOption) : M W error :=
  let opts := combine (publishOptions (options p)) opts in
  match interceptor (options p) with
  | Some i => i ctx name e (pimpl p) publish opts
  | None => publish ctx name e (pimpl p) opts
  end.

(** ** transport/outbox/factory.go *)
Record factoryOptions := mkFactoryOptions {
  publisherOpts : list PublisherOption;
  senderOpts : list (senderOptions (W:=W) → senderOptions (W:=W)) }.
Definition FactoryOption : Type := factoryOptions → factoryOptions.
Definition WithPublisherOptions (opts : list PublisherOption) : FactoryOption := λ o,
  mkFactoryOptions (publisherOpts o ++ opts) (senderOpts o).
Definition WithSenderOptions (opts : list (senderOptions (W:=W) → senderOptions (W:=W))) : FactoryOption := λ o,
  mkFactoryOptions (publisherOpts o) (senderOpts o ++ opts).
(** [create] is the generated constructor of the typed publisher. *)
Record PublisherFactory (T : Type) := mkPublisherFactory {
  foptions : factoryOptions;
  create : PublisherImpl → T }.
Definition NewPublisherFactory {T} (create : PublisherImpl → T) (opts : list FactoryOption) : PublisherFactory T :=
  mkPublisherFactory T (foldl (λ o opt, opt o) (mkFactoryOptions [] []) opts) create.
Definition Create {T} (newRandom : M W (string + err)) (f : PublisherFactory T) (store : OutboxStore) : M W T :=
  let s := NewSender store (senderOpts (foptions T f)) in
  p ← NewPublisher newRandom (SenderSend s) (publisherOpts (foptions T f));
  mret (create T f p).
End publisher.
