(* ===== verification/Subscriber.v ===== *)
(** * eventbus: the subscriber

    eventbus/subscriber.go, subscriber_interceptor.go. Handlers
    and interceptors are programs of the world; each call of one ends by
    returning an error or by panicking. The mutex serialises registrations, so
    a registration is one step. *)
From S2P Require Import Prelude Errors GoLib Event Bound Codec.

(** How a call of the program's own code ends. *)
Inductive outcome := Returned (e : error) | Panicked (value : string).

Section subscriber.
Context `{UrlLib} `{Unicode} `{Protobuf} {W : Type}.
Context (registeredCodecs : gmap string Codec).

(** The context of a delivery, as a handler sees it. *)
Record hctx := mkHctx { hctx_cx : cx; hctx_values : context }.

Definition Handler : Type := hctx → Any → M W outcome.
Definition SubscriberInterceptor : Type := hctx → Metadata → Any → Handler → M W outcome.
(** The decoder a handler gets writes through its argument. *)
Definition EventHandler : Type :=
  hctx → Metadata → (Any → Any * error) → option SubscriberInterceptor → M W outcome.

(** ** subscriber_interceptor.go *)
Record subscriberOptions := mkSubscriberOptions {
  interceptor : option SubscriberInterceptor;
  chainInterceptors_ : list SubscriberInterceptor }.
Definition SubscriberOption : Type := subscriberOptions → subscriberOptions.
Definition defaultSubscriberOptions : subscriberOptions := mkSubscriberOptions None [].
Definition WithSubscriberInterceptor (f : option SubscriberInterceptor) : SubscriberOption := λ o,
  mkSubscriberOptions f (chainInterceptors_ o).
Definition WithChainSubscriberInterceptor (ints : list SubscriberInterceptor) : SubscriberOption := λ o,
  mkSubscriberOptions (interceptor o) (chainInterceptors_ o ++ ints).

(** [chainHandler interceptors curr md finalHandler], on the interceptors after
    [curr]. *)
Fixpoint chainHandler (rest : list SubscriberInterceptor) (md : Metadata) (finalHandler : Handler) : Handler :=
  match rest with
  | [] => finalHandler
  | i :: rest => λ ctx e, i ctx md e (chainHandler rest md finalHandler)
  end.
Definition chainInterceptors (i : SubscriberInterceptor) (rest : list SubscriberInterceptor) : SubscriberInterceptor :=
  λ ctx md e handler, i ctx md e (chainHandler rest md handler).
Definition chainSubscriberInterceptors (o : subscriberOptions) : option SubscriberInterceptor :=
  let interceptors := match interceptor o with
                      | Some i => i :: chainInterceptors_ o
                      | None => chainInterceptors_ o
                      end in
  match interceptors with
  | [] => None
  | [i] => Some i
  | i :: rest => Some (chainInterceptors i rest)
  end.

(** ** subscriber.go *)
Record EventDesc := mkEventDesc { EventName : string }.
Record ServiceDesc := mkServiceDesc { ServiceName : string; Events : list EventDesc; SDMetadata : string }.
Definition eventDesc (sd : ServiceDesc) (name : string) : option EventDesc :=
  List.find (λ ed, String.eqb (EventName ed) name) (Events sd).

Record eventInfo := mkEventInfo { handler : EventHandler }.
Record serviceInfo := mkServiceInfo { events : gmap string eventInfo; mdata : string }.
Record Subscriber := mkSubscriber {
  sname : string;
  opts : subscriberOptions;
  services : gmap string serviceInfo;
  serve : bool }.
Definition NewSubscriber (name : string) (os : list SubscriberOption) : Subscriber :=
  let o := foldl (λ o opt, opt o) defaultSubscriberOptions os in
  mkSubscriber name (mkSubscriberOptions (chainSubscriberInterceptors o) (chainInterceptors_ o)) ∅ false.

(** The panic, if any, and the subscriber it leaves: a caller may recover. *)
Definition register (s : Subscriber) (sd : ServiceDesc) (ed : EventDesc) (h : EventHandler)
    : Subscriber * option string :=
  if serve s then (s, Some "Subscriber.RegisterHandler after Subscriber.Subscribe"%string)
  else
    let put svcs := mkSubscriber (sname s) (opts s) svcs (serve s) in
    let svc := match services s !! ServiceName sd with
               | Some svc => svc
               | None => mkServiceInfo ∅ (SDMetadata sd)
               end in
    match events svc !! EventName ed with
    | Some _ =>
        (put (<[ServiceName sd := svc]> (services s)),
         Some "Subscriber.RegisterHandler found duplicate service registration"%string)
    | None =>
        (put (<[ServiceName sd :=
                mkServiceInfo (<[EventName ed := mkEventInfo h]> (events svc)) (mdata svc)]> (services s)),
         None)
    end.
Definition RegisterHandler (s : Subscriber) (sd : ServiceDesc) (eventName : string) (h : EventHandler)
    : Subscriber * option string :=
  match eventDesc sd eventName with
  | None => (s, Some "event not found"%string)
  | Some ed => register s sd ed h
  end.

(** In whatever order the maps are visited. *)
Definition ServiceInfo : Type := string * list string.
Definition GetServiceInfo (s : Subscriber) : list ServiceInfo :=
  map (λ kv : string * serviceInfo, (kv.1, (map_to_list (events kv.2)).*1)) (map_to_list (services s)).

Definition dispatch (s : Subscriber) (ctx : hctx) (md : Metadata) (df : Any → Any * error)
    (ei : eventInfo) : M W error :=
  r ← handler ei ctx md df (interceptor (opts s));
  mret (match r : outcome with
        | Returned e => e
        | Panicked _ => Some (NewUnprocessableEventError (New "panic in handler"))
        end).

Definition decoder (md : Metadata) (data : option string) : Any → Any * error := λ v,
  let '(contentSubtype, valid) := ContentSubtype (DataContentType md) in
  if negb valid then (v, Some (NewUnprocessableEventError (New "invalid content type")))
  else match GetCodec registeredCodecs contentSubtype with
       | inr e => (v, Some (NewUnprocessableEventError (wrapf "get codec" e)))
       | inl codec =>
           let '(v, e) := Unmarshal codec data v in
           (v, (λ e, NewUnprocessableEventError (wrapf "unmarshalling event data" e)) <$> e)
       end.
Definition process (s : Subscriber) (ctx : cx) (md : Metadata) (data : option string) : M W error :=
  match SplitType (Type_ md) with
  | inr e => mret (Some (NewUnprocessableEventError e))
  | inl (service, eventName) =>
      match services s !! service with
      | None => mret (Some (NewUnprocessableEventError (New "subscription not found")))
      | Some srv =>
          match events srv !! eventName with
          | None => mret (Some (NewUnprocessableEventError (New "subscription not found")))
          | Some ei =>
              let ctx := mkHctx ctx (NewIncomingContext (mkContext _ None) md) in
              dispatch s ctx md (decoder md data) ei
          end
      end
  end.

(** eventbus.Receiver, with its optional Setuper. *)
Definition Processor : Type := cx → Metadata → option string → M W error.
Record Receiver := mkReceiver {
  Receive : cx → Processor → M W error;
  Setup : option (cx → string → list ServiceInfo → M W error) }.
(** From here on registration panics: the subscriber is serving. *)
Definition serving (s : Subscriber) : Subscriber := mkSubscriber (sname s) (opts s) (services s) true.
Definition Subscribe (s : Subscriber) (ctx : cx) (r : Receiver) : Subscriber * M W error :=
  let s := serving s in
  (s,
   let receive :=
     e ← Receive r ctx (process s);
     mret (wrapf "eventbus: subscribe" <$> e) in
   match Setup r with
   | None => receive
   | Some setup =>
       e ← setup ctx (sname s) (GetServiceInfo s);
       match e : error with
       | Some e => mret (Some (wrapf "eventbus: subscribe: setup topology" e))
       | None => receive
       end
   end).
End subscriber.
