(* ===== verification/BusProps.v ===== *)
(** * The eventbus: what is published, and how it is dispatched

    What the transport is handed by a publish, the memoised codec, interceptor
    chains, registration and dispatch, and the composition of both sides. *)
From S2P Require Import Prelude Errors GoLib Event Bound Relay Envelope Codec Publisher Subscriber.
#[local] Open Scope Z_scope.

Section publisher.
Context `{UrlLib} `{Unicode} `{Protobuf} {W : Type} `{Host W}.
Context (reg : gmap string Codec).

(** ** The memoised codec *)

(** The codec of a content type, looked up afresh. *)
Definition resolve (ct : string) : Codec + err :=
  let '(sub, ok) := ContentSubtype ct in
  if negb ok then inr (New "unsupported content type")
  else ewrap "eventbus: publish" (GetCodec reg sub).
(** A memo that is a fresh look-up's answer. *)
Definition memo_ok (p : impl (W:=W)) : Prop :=
  ∀ codec, defaultCodec p = Some codec → resolve (defaultContentType p) = inl codec.

Lemma resolveDefaultCodec_ok opts s ct codec :
  (resolveDefaultCodec reg opts s).1 = (ct, Some codec) → resolve ct = inl codec.
Proof.
  unfold resolveDefaultCodec, resolve. rewrite run_bind.
  destruct (completeMetadata _ s) as [md s']. cbn [fst snd].
  destruct (ContentSubtype (DataContentType md)) as [sub ok] eqn:E.
  destruct ok; cbn [negb]; [|by rewrite run_ret].
  destruct (GetCodec reg sub) as [c|e] eqn:Eg; rewrite run_ret; simpl; [|done].
  intros [= <- <-]. by rewrite E, Eg.
Qed.
Lemma NewPublisher_memo newRandom send opts s :
  memo_ok (pimpl (NewPublisher reg newRandom send opts s).1).
Proof.
  unfold NewPublisher. rewrite run_bind.
  destruct (resolveDefaultCodec _ _ s) as [[ct codec] s'] eqn:E. cbn [fst snd]. rewrite run_ret.
  intros c Hc. simpl in *. subst codec. apply (resolveDefaultCodec_ok (publishOptions
    (foldl (λ o opt, opt o) (defaultPublisherOptions newRandom) opts)) s). by rewrite E.
Qed.
Lemma codecFor_resolve p ct : memo_ok p → codecFor reg p ct = resolve ct.
Proof.
  intros Hm. unfold codecFor. destruct (defaultCodec p) as [c|] eqn:E; [|done].
  destruct (String.eqb_spec ct (defaultContentType p)) as [->|]; [|done]. symmetry. by apply Hm.
Qed.

(** The memo of the publisher's codec is invisible: for every configuration
    and every content type the publisher encodes with the codec a fresh look-up
    in the registry finds, or fails as it does. *)
Theorem codecFor_memo newRandom send opts s ct :
  codecFor reg (pimpl (NewPublisher reg newRandom send opts s).1) ct = resolve ct.
Proof. apply codecFor_resolve, NewPublisher_memo. Qed.

(** ** What a publish hands the transport *)

(** [md] is what a publish of [name] under [opts] may send. *)
Definition asked (name : string) (opts : list PublishOption) : Metadata :=
  foldl (λ m opt, opt m) (NewMetadata name) opts.
Record prepared (name : string) (opts : list PublishOption) (md : Metadata) : Prop := {
  prep_name : ∃ svc ev, SplitType name = inl (svc, ev);
  prep_type : Type_ md = Type_ (asked name opts);
  prep_version : SpecVersion md = SpecVersion (asked name opts);
  prep_subject : Subject md = Subject (asked name opts);
  prep_extensions : Extensions md = Extensions (asked name opts);
  prep_id : ID (asked name opts) ≠ ""%string → ID md = ID (asked name opts);
  prep_source : Source md = (if String.eqb (Source (asked name opts)) "" then "protoevent-go"%string
                             else Source (asked name opts));
  prep_content : DataContentType md = (if String.eqb (DataContentType (asked name opts)) ""
                                       then "application/proto"%string
                                       else DataContentType (asked name opts));
  prep_time : Time (asked name opts) ≠ 0 → Time md = Time (asked name opts);
  prep_schema : match DataSchema md with
                | Some u => url_String u ≠ ""%string ∧ DataSchema (asked name opts) = Some u
                | None => default ""%string (url_String <$> DataSchema (asked name opts)) = ""%string
                end;
  prep_valid : ∀ k v, default ∅ (Extensions md) !! k = Some v →
    ReservedExtensionName k = false ∧ ValidExtensionValue v = None }.

Lemma publishExtensions_None l :
  publishExtensions l = None ↔
  Forall (λ kv, ReservedExtensionName kv.1 = false ∧ ValidExtensionValue kv.2 = None) l.
Proof.
  induction l as [|[k v] l IH]; simpl; [done|]. rewrite Forall_cons, <-IH. simpl.
  unfold publishExtension. destruct (ReservedExtensionName k); [by split; [|intros [[]]]|].
  destruct (ValidExtensionValue v); simpl; [by split; [|intros [[]]]|]. tauto.
Qed.

Definition with_sender (p : impl) (send : Sender) : impl (W:=W) :=
  mkImpl send (idGenerator p) (defaultContentType p) (defaultCodec p).

Lemma mintID_spec (p : impl) (a : Metadata) (s : W) :
  (∃ er s1, mintID p a s = (inr er, s1)) ∨
  ∃ id s1, mintID p a s = (inl (WithEventID id a), s1) ∧ (ID a ≠ ""%string → id = ID a).
Proof.
  unfold mintID. destruct (String.eqb_spec (ID a) "") as [Hid|Hid].
  - rewrite run_bind. destruct (idGenerator p s) as [[id|er] s1]; cbn [fst snd]; rewrite run_ret; eauto.
    right. by exists id, s1.
  - right. exists (ID a), s. rewrite run_ret. split; [|done]. by destruct a.
Qed.

(** What completion leaves alone, and what it fills in. *)
Definition completed (m m' : Metadata) : Prop :=
  SpecVersion m' = SpecVersion m ∧ Type_ m' = Type_ m ∧ Subject m' = Subject m ∧ ID m' = ID m ∧
  Extensions m' = Extensions m ∧ (Time m ≠ 0 → Time m' = Time m) ∧
  Source m' = (if String.eqb (Source m) "" then "protoevent-go"%string else Source m) ∧
  DataContentType m' = (if String.eqb (DataContentType m) "" then "application/proto"%string
                        else DataContentType m).
Lemma completeMetadata_spec (m : Metadata) (s : W) :
  completed m (completeMetadata m s).1 ∧ DataSchema (completeMetadata m s).1 = DataSchema m.
Proof.
  unfold completeMetadata, completed. destruct (String.eqb (DataContentType m) ""); simpl;
    destruct (String.eqb (Source m) ""); simpl;
    destruct (Z.eqb_spec (Time m) 0); rewrite ?run_bind, ?run_ret; simpl; by split_and!.
Qed.
Lemma dropEmptySchema_spec m0 (m : Metadata) :
  completed m0 m →
  completed m0 (dropEmptySchema m) ∧
  match DataSchema (dropEmptySchema m) with
  | Some u => url_String u ≠ ""%string ∧ DataSchema m = Some u
  | None => default ""%string (url_String <$> DataSchema m) = ""%string
  end.
Proof.
  unfold dropEmptySchema, completed. destruct (DataSchema m) as [u|] eqn:Eu; simpl; [|by rewrite Eu].
  destruct (String.eqb_spec (url_String u) ""); simpl; by rewrite ?Eu.
Qed.
Lemma prepared_intro name opts id md1 :
  (∃ svc ev, SplitType name = inl (svc, ev)) →
  (ID (asked name opts) ≠ ""%string → id = ID (asked name opts)) →
  completed (WithEventID id (asked name opts)) md1 → DataSchema md1 = DataSchema (asked name opts) →
  publishExtensions (map_to_list (default ∅ (Extensions (dropEmptySchema md1)))) = None →
  prepared name opts (dropEmptySchema md1).
Proof.
  intros Hn Hid Hc Hds Hext. apply dropEmptySchema_spec in Hc as [Hc Hs].
  rewrite publishExtensions_None, Forall_forall in Hext.
  destruct Hc as (?&?&?&Hi&?&?&?&?). rewrite Hds in Hs. simpl in *.
  split; try done.
  - intros Hne. rewrite Hi. by apply Hid.
  - intros k v Hkv. by apply (Hext (k, v)), elem_of_map_to_list.
Qed.

(** A publish moves the world as the clock, the id generator and the transport do. *)
Lemma publish_respects (R : relation W) `{!PreOrder R} ctx name e p opts :
  respects R now → respects R (idGenerator p) → (∀ c md d, respects R (sender p c md d)) →
  respects R (publish reg ctx name e p opts).
Proof.
  intros Hn Hg Hs. unfold publish, mintID, completeMetadata.
  repeat first [apply respects_ret; apply _|assumption|apply Hs|apply respects_bind; [apply _| |intros ?]|
    case_match].
Qed.
Lemma NewPublisher_respects (R : relation W) `{!PreOrder R} newRandom send os :
  respects R now → respects R (NewPublisher reg newRandom send os).
Proof.
  intros Hn. unfold NewPublisher, resolveDefaultCodec, completeMetadata.
  repeat first [apply respects_ret; apply _|assumption|apply respects_bind; [apply _| |intros ?]|case_match].
Qed.
Lemma publish_cases ctx name e p opts s :
  memo_ok p →
  (∃ er s1, ∀ send, publish reg ctx name e (with_sender p send) opts s = (Some er, s1)) ∨
  (∃ md data s1 codec,
     (∀ send, publish reg ctx name e (with_sender p send) opts s =
        (wrapf "send" <$> (send ctx (Some md) data s1).1, (send ctx (Some md) data s1).2)) ∧
     prepared name opts md ∧
     resolve (DataContentType md) = inl codec ∧ Marshal codec e = inl data).
Proof.
  intros Hm. unfold publish. destruct (SplitType name) as [[svc ev]|er] eqn:Hsplit; [|left; by do 2 eexists].
  fold (asked name opts).
  destruct (mintID_spec p (asked name opts) s) as [(er & s1 & Hg)|(id & s1 & Hg & Hid)].
  { left. exists er, s1. intros send. rewrite run_bind.
    change (mintID (with_sender p send)) with (mintID p). by rewrite Hg. }
  destruct (completeMetadata_spec (WithEventID id (asked name opts)) s1) as [Hc Hds].
  destruct (completeMetadata _ s1) as [md1 s2] eqn:Ec. cbn [fst] in Hc, Hds.
  (* the part before the transport is called *)
  assert (Hstep : ∀ send, publish reg ctx name e (with_sender p send) opts s =
    match publishExtensions (map_to_list (default ∅ (Extensions (dropEmptySchema md1)))) with
    | Some er => (Some er, s2)
    | None => match codecFor reg p (DataContentType (dropEmptySchema md1)) with
              | inr er => (Some er, s2)
              | inl codec => match Marshal codec e with
                | inr er => (Some (wrapf "marshal" er), s2)
                | inl data => (er ← send ctx (Some (dropEmptySchema md1)) data; mret (wrapf "send" <$> er)) s2
                end
              end
    end).
  { intros send. unfold publish. rewrite Hsplit. fold (asked name opts). rewrite run_bind.
    change (mintID (with_sender p send)) with (mintID p). rewrite Hg. cbn [fst snd].
    rewrite run_bind, Ec. cbn [fst snd].
    change (codecFor reg (with_sender p send)) with (codecFor reg p).
    destruct (publishExtensions _); [done|]. destruct (codecFor _ _ _); [|done].
    by destruct (Marshal _ _). }
  unfold publish in Hstep. rewrite Hsplit in Hstep. fold (asked name opts) in Hstep.
  destruct (publishExtensions _) as [er|] eqn:Hext; [left; by eauto|].
  destruct (codecFor reg p _) as [codec|er] eqn:Hcf; [|left; by eauto].
  destruct (Marshal codec e) as [data|er] eqn:Hmar; [|left; by eauto].
  right. exists (dropEmptySchema md1), data, s2, codec. split_and!; [|eapply prepared_intro; eauto| |done].
  - intros send. rewrite Hstep. by rewrite run_bind, run_ret.
  - by rewrite <-(codecFor_resolve p).
Qed.
(** A publish either fails without the transport being called, or calls it
    exactly once and answers with its answer; what it then sends is the event's
    name, options applied in order, with a source, a content type, a schema with
    a text or none, and only usable extensions, and the payload is the event in
    the codec that the very content type sent names. *)
Theorem publish_sends_once ctx name e p opts s :
  memo_ok p →
  (∃ er s1, ∀ send, publish reg ctx name e (with_sender p send) opts s = (Some er, s1)) ∨
  (∃ md data s1 codec,
     (∀ send, publish reg ctx name e (with_sender p send) opts s =
        (wrapf "send" <$> (send ctx (Some md) data s1).1, (send ctx (Some md) data s1).2)) ∧
     prepared name opts md ∧
     resolve (DataContentType md) = inl codec ∧ Marshal codec e = inl data).
Proof. apply publish_cases. Qed.
End publisher.

(** C40: codecs are well keyed. Whatever codecs a program registers after the two
    built-in ones, a content type that resolves names its codec: its subtype is
    the lower-cased name the codec gave, which is not empty; and the two built-in
    codecs answer to their names unless the program replaced them. *)
Theorem registry_well_keyed `{UrlLib} `{Unicode} `{Protobuf} cs reg :
  registrations cs = Some reg →
  (∀ ct codec, resolve reg ct = inl codec →
     ContentSubtype ct = (ToLower (Name codec), true) ∧ Name codec ≠ ""%string) ∧
  (∀ k c, reg !! k = Some c → k = "json"%string ∧ c = jsonCodec ∨ k = "proto"%string ∧ c = protoCodec ∨ c ∈ cs) ∧
  is_Some (reg !! "json"%string) ∧ is_Some (reg !! "proto"%string).
Proof.
  intros Hreg. pose proof (registrations_keyed cs reg Hreg) as Hk. split.
  { intros ct codec. unfold resolve, GetCodec. destruct (ContentSubtype ct) as [sub ok].
    destruct ok; cbn [negb]; [|done]. destruct (reg !! sub) as [c|] eqn:Ec; [|done].
    intros [= <-]. destruct (Hk sub c Ec) as [-> Hn]. done. }
  clear Hk. by apply registrations_known.
Qed.

(** ** Interceptor chains *)
Section chains.
Context `{UrlLib} `{Unicode} `{Protobuf} {W : Type} `{Host W}.
Context (reg : gmap string Codec).

(** The interceptors of a configuration, outermost first: the single one, then
    the chained ones, each in the order they were given. *)
Definition pub_interceptors (o : publisherOptions (W:=W)) : list PublisherInterceptor :=
  match Publisher.interceptor o with Some i => [i] | None => [] end ++ Publisher.chainInterceptors o.
Definition around (i : PublisherInterceptor (W:=W)) (next : PublishFn) : PublishFn :=
  λ ctx name e p opts, i ctx name e p next opts.
Definition sub_interceptors (o : subscriberOptions (W:=W)) : list SubscriberInterceptor :=
  match interceptor o with Some i => [i] | None => [] end ++ chainInterceptors_ o.
Definition handled (md : Metadata) (i : SubscriberInterceptor (W:=W)) (next : Handler) : Handler :=
  λ ctx e, i ctx md e next.

Lemma chainInvoker_foldr rest fin : chainInvoker rest fin = foldr around fin rest.
Proof. induction rest as [|i rest IH]; simpl; [done|]. by rewrite <-IH. Qed.
Lemma chainHandler_foldr rest md fin : chainHandler rest md fin = foldr (handled md) fin rest.
Proof. induction rest as [|i rest IH]; simpl; [done|]. by rewrite <-IH. Qed.

(** Interceptors, of the publisher and of the subscriber, run as a fold
    around the final call: every one of them, outermost the single one and then
    the chain in order, each handed exactly the rest as its continuation. *)
Theorem chains_fold :
  (∀ newRandom send opts s ctx name e pos,
    let o := foldl (λ o opt, opt o) (defaultPublisherOptions newRandom) opts in
    let '(p, s1) := NewPublisher reg newRandom send opts s in
    Publish reg p ctx name e pos s1 =
      foldr around (publish reg) (pub_interceptors o) ctx name e (pimpl p) (publishOptions o ++ pos) s1) ∧
  (∀ name os ctx md e fin,
    let o := foldl (λ o opt, opt o) defaultSubscriberOptions os in
    match interceptor (opts (NewSubscriber name os)) with
    | Some i => i ctx md e fin
    | None => fin ctx e
    end = foldr (handled md) fin (sub_interceptors o) ctx e).
Proof.
  split.
  - intros newRandom send opts s ctx name e pos o. unfold NewPublisher. fold o.
    rewrite run_bind. destruct (resolveDefaultCodec _ _ s) as [[ct codec] s1]. cbn [fst snd].
    rewrite run_ret. unfold Publish. simpl.
    assert (combine (publishOptions o) pos = publishOptions o ++ pos) as ->.
    { unfold combine. destruct (publishOptions o), pos; simpl; by rewrite ?app_nil_r. }
    unfold chainPublisherInterceptors, pub_interceptors.
    destruct (Publisher.interceptor o) as [i|], (Publisher.chainInterceptors o) as [|j [|k l]]; simpl;
      rewrite <-?chainInvoker_foldr; done.
  - intros name os ctx md e fin o. unfold NewSubscriber. fold o. simpl.
    unfold chainSubscriberInterceptors, sub_interceptors, chainInterceptors.
    destruct (interceptor o) as [i|], (chainInterceptors_ o) as [|j [|k l]]; simpl;
      rewrite <-?chainHandler_foldr; done.
Qed.
End chains.

(** ** Registration and dispatch *)
Section subscriber.
Context `{UrlLib} `{Unicode} `{Protobuf} {W : Type}.
Context (reg : gmap string Codec).

Definition registered (s : Subscriber (W:=W)) (svc ev : string) : option eventInfo :=
  services s !! svc ≫= λ si, events si !! ev.

(** A registration as a program makes it. *)
Definition registration : Type := ServiceDesc * string * EventHandler (W:=W).
Definition registers (s : Subscriber) (rs : list registration) : Subscriber :=
  foldl (λ s '(sd, ev, h), (RegisterHandler s sd ev h).1) s rs.

(** One registration. It is refused, with a panic, when the service does not
    declare the event, when the subscriber serves, or when the event has a
    handler, and then changes no handler; otherwise the event's handler is the
    given one and no other event's changes. *)
Theorem RegisterHandler_spec s sd ev h :
  let '(s', panic) := RegisterHandler s sd ev h in
  let declared := existsb (λ ed, String.eqb (EventName ed) ev) (Events sd) in
  (panic = None ↔ declared = true ∧ serve s = false ∧ registered s (ServiceName sd) ev = None) ∧
  (panic ≠ None → ∀ svc ev', registered s' svc ev' = registered s svc ev') ∧
  (panic = None → ∀ svc ev', registered s' svc ev' =
     if bool_decide (svc = ServiceName sd ∧ ev' = ev) then Some (mkEventInfo h)
     else registered s svc ev') ∧
  opts s' = opts s ∧ serve s' = serve s ∧ sname s' = sname s.
Proof.
  unfold RegisterHandler, eventDesc.
  assert (Hex : existsb (λ ed, String.eqb (EventName ed) ev) (Events sd) =
    if List.find (λ ed, String.eqb (EventName ed) ev) (Events sd) then true else false).
  { induction (Events sd) as [|ed l IH]; simpl; [done|]. by destruct (String.eqb _ _). }
  rewrite Hex. clear Hex. destruct (List.find _ _) as [ed|] eqn:Ef; [|by split_and!; [split; [|intros [? _]]|..]].
  apply find_some in Ef as [_ Ef%String.eqb_eq]. unfold register. rewrite Ef.
  destruct (serve s) eqn:Es; [by split_and!; [split; [|intros (_ & ? & _)]|..]|].
  unfold registered. destruct (services s !! ServiceName sd) as [si|] eqn:Esi; simpl.
  - destruct (events si !! ev) as [ei|] eqn:Ei; simpl.
    + split_and!; [split; [done|]; by intros (_ & _ & ?)| |done..].
      intros _ svc ev'. destruct (decide (svc = ServiceName sd)) as [->|];
        [by rewrite lookup_insert_eq, Esi|by rewrite lookup_insert_ne].
    + split_and!; [by split| done| |done..]. intros _ svc ev'.
      destruct (decide (svc = ServiceName sd)) as [->|];
        [rewrite ?lookup_insert_eq, ?Esi|rewrite ?lookup_insert_ne by done]; simpl.
      * destruct (decide (ev' = ev)) as [->|]; [rewrite lookup_insert_eq|rewrite lookup_insert_ne by done];
          case_bool_decide; naive_solver.
      * case_bool_decide; naive_solver.
  - rewrite lookup_empty. simpl. split_and!; [by split| done| |done..]. intros _ svc ev'.
    destruct (decide (svc = ServiceName sd)) as [->|];
      [rewrite ?lookup_insert_eq, ?Esi|rewrite ?lookup_insert_ne by done]; simpl.
    * destruct (decide (ev' = ev)) as [->|];
        [rewrite lookup_insert_eq|rewrite lookup_insert_ne, lookup_empty by done]; case_bool_decide; naive_solver.
    * case_bool_decide; naive_solver.
Qed.

(** The topology a transport is asked to set up names exactly the events
    that dispatch finds a handler for, each service once and each of its events
    once. *)
Theorem GetServiceInfo_spec s :
  NoDup (GetServiceInfo s).*1 ∧
  (∀ svc evs, (svc, evs) ∈ GetServiceInfo s → NoDup evs) ∧
  ∀ svc ev, (∃ evs, (svc, evs) ∈ GetServiceInfo s ∧ ev ∈ evs) ↔ is_Some (registered s svc ev).
Proof.
  assert (Hfst : (GetServiceInfo s).*1 = (map_to_list (services s)).*1).
  { unfold GetServiceInfo. change (map ?f ?l) with (f <$> l). by rewrite <-list_fmap_compose. }
  assert (Hin : ∀ svc evs, (svc, evs) ∈ GetServiceInfo s ↔
    ∃ si, services s !! svc = Some si ∧ evs = (map_to_list (events si)).*1).
  { intros svc evs. unfold GetServiceInfo. rewrite list_elem_of_fmap. split.
    - intros ([k si] & [= -> ->] & Hk%elem_of_map_to_list). eauto.
    - intros (si & Hsi & ->). exists (svc, si). split; [done|]. by apply elem_of_map_to_list. }
  split_and!.
  - rewrite Hfst. apply NoDup_fst_map_to_list.
  - intros svc evs (si & _ & ->)%Hin. apply NoDup_fst_map_to_list.
  - intros svc ev. unfold registered. split.
    + intros (evs & (si & Hsi & ->)%Hin & ([k ei] & -> & Hk%elem_of_map_to_list)%list_elem_of_fmap).
      rewrite Hsi. simpl. eauto.
    + destruct (services s !! svc) as [si|] eqn:Hsi; [|by intros []]. simpl. intros [ei Hei].
      exists ((map_to_list (events si)).*1). rewrite Hin. split; [eauto|].
      apply list_elem_of_fmap. exists (ev, ei). split; [done|]. by apply elem_of_map_to_list.
Qed.

(** C37: one delivery. The handler registered for the event's service and name
    is called, exactly once, with the metadata in its context; its answer is the
    answer, and a panic of it is contained as an unprocessable event; an event
    with a malformed type or without a handler is unprocessable and runs no code
    of the program. *)
Theorem process_spec (s : Subscriber) ctx md data w :
  match SplitType (Type_ md) with
  | inl (svc, ev) =>
      match registered s svc ev with
      | Some ei =>
          let '(r, w') := handler ei (mkHctx ctx (mkContext _ (Some md))) md (decoder reg md data)
                            (interceptor (opts s)) w in
          (process reg s ctx md data w).2 = w' ∧
          match r with
          | Returned e => (process reg s ctx md data w).1 = e
          | Panicked _ => IsUnprocessableEventError (process reg s ctx md data w).1 = true
          end
      | None => (process reg s ctx md data w).2 = w ∧
                IsUnprocessableEventError (process reg s ctx md data w).1 = true
      end
  | inr _ => (process reg s ctx md data w).2 = w ∧
             IsUnprocessableEventError (process reg s ctx md data w).1 = true ∧
             Is (process reg s ctx md data w).1 ErrUnsendable = true
  end.
Proof.
  unfold process. destruct (SplitType (Type_ md)) as [[svc ev]|e] eqn:E.
  2: { rewrite run_ret. simpl. rewrite orb_false_r. split_and!; [done|done|].
       pose proof E as He. unfold SplitType in He. destruct (_ || _); [|done]. by injection He as <-. }
  unfold registered. destruct (services s !! svc) as [si|]; [|done].
  change (Some si ≫= (λ si, events si !! ev)) with (events si !! ev).
  destruct (events si !! ev) as [ei|]; [|done].
  unfold dispatch, NewIncomingContext. cbv zeta. rewrite run_bind.
  destruct (handler ei _ _ _ _ w) as [[e|v] w']; cbn [fst snd]; by rewrite run_ret.
Qed.
End subscriber.

(** ** Both sides *)
Section bus.
Context `{UrlLib} `{Unicode} `{Protobuf} `{!ProtobufLaws} {W : Type} `{Host W}.
Context (reg : gmap string Codec).

Lemma decodes e m md data v m0 codec :
  resolve reg (DataContentType md) = inl codec → codec = protoCodec ∨ codec = jsonCodec →
  as_message e = Some m → Marshal codec e = inl data →
  as_message v = Some m0 → mtype m0 = mtype m →
  ∃ m', decoder reg md data v = (with_message v m', None) ∧ PEqual m m'.
Proof.
  intros Hr Hcodec He Hmar Hv Hty.
  unfold resolve in Hr. unfold decoder. destruct (ContentSubtype _) as [sub ok].
  destruct ok; cbn [negb] in *; [|done]. destruct (GetCodec reg sub) as [c|]; [|done].
  injection Hr as ->.
  destruct Hcodec as [-> | ->]; simpl in *; rewrite He in Hmar; rewrite Hv.
  - destruct (proto_Marshal m) as [b|] eqn:Eb; [|done]. injection Hmar as <-.
    destruct (proto_back m b m0 Eb Hty) as (m' & -> & Heq). simpl. eauto.
  - destruct (protojson_Marshal m) as [b|] eqn:Eb; [|done]. injection Hmar as <-.
    destruct (protojson_back m b m0 Eb Hty) as (m' & -> & Heq). simpl. eauto.
Qed.

(** C24: what is published is what is handled. Take a publisher and a subscriber
    under the registry of the two codecs, and an event that is a message. A
    publish that calls its transport hands over metadata and a payload such that
    processing them, on any later world, calls the handler registered for the
    event's service and name, with that metadata and a decoder that fills any
    message of the event's type with an equal message, without an error. *)
Theorem published_is_handled newRandom send os s name e m opts ctx :
  (∀ k c, reg !! k = Some c → c = protoCodec ∨ c = jsonCodec) →
  as_message e = Some m → Type_ (asked name opts) = name →
  let p := pimpl (NewPublisher reg newRandom send os s).1 in
  (∃ er s1, ∀ send, publish reg ctx name e (with_sender p send) opts s = (Some er, s1)) ∨
  (∃ md data s1 svc ev dec,
     (∀ send, publish reg ctx name e (with_sender p send) opts s =
        (wrapf "send" <$> (send ctx (Some md) data s1).1, (send ctx (Some md) data s1).2)) ∧
     SplitType name = inl (svc, ev) ∧
     (∀ v m0, as_message v = Some m0 → mtype m0 = mtype m →
        ∃ m', dec v = (with_message v m', None) ∧ PEqual m m') ∧
     ∀ (sub : Subscriber (W:=W)) ei ctx' w, registered sub svc ev = Some ei →
       process reg sub ctx' md data w =
         let '(r, w') := handler ei (mkHctx ctx' (mkContext _ (Some md))) md dec (interceptor (Subscriber.opts sub)) w in
         (match r with
          | Returned e => e
          | Panicked _ => Some (NewUnprocessableEventError (New "panic in handler"))
          end, w')).
Proof.
  intros Hreg He Hty p.
  destruct (publish_cases reg ctx name e p opts s (NewPublisher_memo reg newRandom send os s))
    as [Hl|(md & data & s1 & codec & Hsend & Hp & Hr & Hmar)]; [by left|right].
  destruct (prep_name _ _ _ Hp) as (svc & ev & Hsplit).
  assert (Hcodec : codec = protoCodec ∨ codec = jsonCodec).
  { revert Hr. unfold resolve, GetCodec. destruct (ContentSubtype _) as [sub ok]. destruct ok; cbn [negb]; [|done].
    destruct (reg !! sub) as [c|] eqn:Ec; simpl; [|done]. intros [= <-]. by apply (Hreg sub). }
  exists md, data, s1, svc, ev, (decoder reg md data). split_and!; [done|done| |].
  - intros v m0. by apply (decodes e m md data v m0 codec).
  - intros sub ei ctx' w Hei. unfold process. rewrite (prep_type _ _ _ Hp), Hty, Hsplit.
    unfold registered in Hei. destruct (services sub !! svc) as [si|]; [|done]. simpl in Hei. rewrite Hei.
    unfold dispatch, NewIncomingContext. cbv zeta. rewrite run_bind.
    destruct (handler ei _ _ _ _ w) as [[er|v] w']; cbn [fst snd]; by rewrite run_ret.
Qed.
End bus.
