(* ===== verification/OutboxBus.v ===== *)
(** * Publishing through the outbox, end to end

    The typed publisher of the factory, over the outbox sender, over the
    session-bound MongoDB store. *)
From S2P Require Import Prelude Errors GoLib Event Json Bound Relay Envelope Codec Publisher BusProps Mongo MongoProps.
#[local] Open Scope Z_scope.

Section outbox.
Context `{UrlStruct} `{GoJson} `{MongoDriver} `{Unicode} `{Protobuf}.
Context (reg : gmap string Codec).

(** The publisher of a factory, for a transaction's store. *)
Definition factory (os : list (PublisherOption (W:=msess))) : PublisherFactory (PublisherImpl (W:=msess)) :=
  NewPublisherFactory (λ p, p) [WithPublisherOptions os].
Definition txPublisher newRandom os (bound ctxSess : option nat) : M msess PublisherImpl :=
  Create reg newRandom (factory os) (CreateOutboxMessage bound ctxSess).

Lemma txPublisher_impl newRandom os bound ctxSess s :
  let send := SenderSend (NewSender (CreateOutboxMessage bound ctxSess) []) in
  txPublisher newRandom os bound ctxSess s = NewPublisher reg newRandom send os s.
Proof.
  unfold txPublisher, Create. simpl. rewrite run_bind.
  by destruct (NewPublisher _ _ _ _ s).
Qed.
Lemma NewPublisher_sender newRandom send os s :
  let p := pimpl (NewPublisher reg newRandom send os s).1 in with_sender (W:=msess) p send = p.
Proof.
  unfold NewPublisher. rewrite run_bind. by destruct (resolveDefaultCodec _ _ s) as [[ct codec] s1].
Qed.

(** What may happen to the session while the event is prepared: time passes. *)
Definition only_time : relation msess := λ w w',
  colls w' = colls w ∧ mturns w' = mturns w ∧ hostTime w <= hostTime w'.
#[local] Instance only_time_preorder : PreOrder only_time.
Proof.
  split; [intros w; split_and!; done || lia|]. intros w1 w2 w3 (E1 & E2 & E3) (F1 & F2 & F3).
  split_and!; [congruence|congruence|lia].
Qed.
Lemma now_only_time : respects only_time (now : M msess Z).
Proof. intros w. reflexivity. Qed.
Lemma only_time_found w w' : only_time w w' → mfound w' = mfound w.
Proof. intros (Hc & Ht & _). unfold mfound, mbegin. rewrite Ht, <-Hc. by destruct (mturns w). Qed.

(** C23: a publish inside a transaction, from the store as it was before the
    publisher was made to the store after the publish. The insert is the one
    statement that is sent: before it the session's other writers may take a
    turn ([mfound]). When the typed publisher of a transaction's store answers
    success, what they left is changed in exactly one way: the session's
    running transaction has one more row, at its end; rows committed, offsets,
    locks and the inserts of other transactions are as they were. The row is
    the event's: keyed by the event's ID and dated by the clock no earlier than the start, it decodes
    to the prepared metadata in stored form and to the event in the codec its
    content type names. *)
Theorem outbox_publish newRandom os bound ctxSess ctx name e opts s p s0 s' :
  (∀ t, ErrAt ctx t = None) →
  (∀ md, prepared name opts md → carried md ∧ parseable (Event.DataSchema md)) →
  txPublisher newRandom os bound ctxSess s = (p, s0) →
  respects only_time (idGenerator (pimpl p)) →
  publish reg ctx name e (pimpl p) opts s0 = (None, s') →
  ∃ md data codec sid l doc t,
    prepared name opts md ∧ resolve reg (DataContentType md) = inl codec ∧ Marshal codec e = inl data ∧
    (bound = Some sid ∨ bound = None ∧ ctxSess = Some sid) ∧
    pending (mfound s) !! sid = Some l ∧
    colls s' = with_pending (mfound s) (<[sid := l ++ [doc]]> (pending (mfound s))) ∧
    decodeMessage doc = inl (mkMessage (ID md) 0 (Some (stored md)) data (bsonDate t)) ∧ hostTime s <= t.
Proof.
  intros Hctx Htext. rewrite txPublisher_impl.
  set (send := SenderSend _). pose proof (NewPublisher_sender newRandom send os s) as Hsend.
  pose proof (NewPublisher_memo reg newRandom send os s) as Hmemo.
  pose proof (NewPublisher_respects reg only_time newRandom send os now_only_time s) as R0.
  intros Hnew Hgen Ep. rewrite Hnew in Hsend, Hmemo, R0. cbn [fst snd] in *.
  rewrite <-Hsend in Ep.
  destruct (publish_cases reg ctx name e (pimpl p) opts s0 Hmemo)
    as [(er & s1 & Hl)|(md & data & s1 & codec & Hs & Hp & Hr & Hm)]; [by rewrite Hl in Ep|].
  assert (only_time s s1) as R1.
  { etrans; [exact R0|]. pose proof (publish_respects reg only_time ctx name e
      (with_sender (pimpl p) (λ _ _ _, mret None)) opts now_only_time Hgen
      (λ _ _ _, respects_ret only_time None) s0) as R1.
    by rewrite Hs in R1. }
  rewrite Hs in Ep. unfold send, SenderSend in Ep. rewrite run_bind in Ep. simpl in Ep.
  destruct (String.eqb (ID md) ""); [by rewrite run_ret in Ep|].
  rewrite run_bind in Ep. unfold now, msess_host, hostNow in Ep. rewrite run_gets in Ep. cbn [fst snd] in Ep.
  pose proof (publish_joins bound ctxSess ctx (mkMessage (ID md) 0 (Some md) data (hostTime s1)) s1 (Hctx _))
    as Hj.
  destruct (CreateOutboxMessage _ _ _ _ s1) as [r' s2]. simpl in Ep. destruct r'; [done|].
  injection Ep as ->. destruct Hj as (_ & Hj & _).
  { intros md' [= <-]. by apply Htext. }
  destruct (Hj eq_refl) as (sid & md' & doc & l & Hb & _ & Hl & Hpend & [= <-] & Hdec).
  rewrite (only_time_found _ _ R1) in Hl, Hpend.
  exists md, data, codec, sid, l, doc, (hostTime s1). split_and!; try done. apply R1.
Qed.
End outbox.
