(* ===== verification/Gochan.v ===== *)
(** * transport/gochan: the in-process transport

    transport.go, sender.go and receiver.go. The two ends run concurrently: a
    state holds the buffered channel, the shutdown signal and the position of
    every Send and Receive call that was made, and a step moves one of them past
    one operation on a channel, or ends a context, or closes the transport.
    Where Go's select picks among the cases that are ready, the step names the
    case it takes, so a theorem over all step sequences holds for every choice
    and every interleaving. *)
From S2P Require Import Prelude Errors GoLib Event.
#[local] Open Scope Z_scope.

Definition ErrNilContext : sentinel := ErrOther "gochan.ErrNilContext".
Definition ErrNilMetadata : sentinel := ErrOther "gochan.ErrNilMetadata".
Definition defaultChanDepth : nat := 20.

Section gochan.
Context `{UrlLib}.

Record message := mkMessage { meta : Metadata; data : option string }.

(** Where a Send call is: before the first select, at the second, returned. *)
Inductive spc := SCheck | SSelect | SDone (r : error).
(** Where a Receive call is: before its two selects, with a message it took and
    has yet to give to the processor, inside the processor, or in [drain] after
    Close. *)
Inductive rpc :=
| RPre | RSelect | RTaken (m : message) (draining : bool) | RBusy (m : message) (draining : bool)
| DPre | DTry | RDone (r : error).

(** Contexts are named; [canceled] has the ones that are done, with their error. *)
Record call := mkCall { cctx : nat; cmsg : message; cpc : spc }.
Record sendReceiver := mkSR {
  ch : list message;
  done : bool;
  canceled : gmap nat err;
  sends : list call;
  receives : list (nat * rpc);
  onErr : bool;                        (* an error handler is installed *)
  (* what happened, oldest first *)
  accepted : list message;             (* a Send put it in the channel *)
  taken : list message;                (* a Receive took it out of the channel *)
  handed : list message;               (* the processor was called on it *)
  replies : list (message * error);    (* what the processor answered *)
  reported : list (message * err) }.   (* what the error handler was told *)
Definition New (onErr : bool) : sendReceiver := mkSR [] false ∅ [] [] onErr [] [] [] [] [].

(** ** What one call does next *)

(** [Send] on entry, up to its first select: nil arguments are refused. *)
Definition Send (ctx : option nat) (md : option Metadata) (data : option string) : call + err :=
  match ctx, md with
  | None, _ => inr (Sentinel ErrNilContext)
  | Some _, None => inr (Sentinel ErrNilMetadata)
  | Some c, Some md => inl (mkCall c (mkMessage md data) SCheck)
  end.
Definition Receive (ctx : option nat) : (nat * rpc) + err :=
  match ctx with None => inr (Sentinel ErrNilContext) | Some c => inl (c, RPre) end.

(** The case a select takes. *)
Inductive case := CDone | CClosed | CChan | CDefault.

(** A result, and the message the call put in the channel. *)
Definition send_step (s : sendReceiver) (c : call) (k : case) : option (spc * option message) :=
  match cpc c, k with
  | SCheck, CClosed => if done s then Some (SDone (Some (Sentinel ErrClosed)), None) else None
  | SCheck, CDefault => if done s then None else Some (SSelect, None)
  | SSelect, CDone =>
      match canceled s !! cctx c with Some e => Some (SDone (Some e), None) | None => None end
  | SSelect, CClosed => if done s then Some (SDone (Some (Sentinel ErrClosed)), None) else None
  | SSelect, CChan =>
      if Nat.ltb (length (ch s)) defaultChanDepth then Some (SDone None, Some (cmsg c)) else None
  | _, _ => None
  end.

(** The next position, what is left in the channel, and the failure reported;
    [e] is what the processor answers. *)
Definition recv_step (s : sendReceiver) (ctx : nat) (p : rpc) (k : case) (e : error)
    : option (rpc * list message * option (message * err)) :=
  let cancel := match canceled s !! ctx with
                | Some e => Some (RDone (Some e), ch s, None)
                | None => None
                end in
  let returned (m : message) := match e with
                                | Some er => if onErr s then Some (m, er) else None
                                | None => None
                                end in
  match p, k with
  | RPre, CDone => cancel
  | RPre, CDefault => if cancel then None else Some (RSelect, ch s, None)
  | RSelect, CDone => cancel
  | RSelect, CClosed => if done s then Some (DPre, ch s, None) else None
  | RSelect, CChan => match ch s with m :: rest => Some (RTaken m false, rest, None) | [] => None end
  | RTaken m b, CDefault => Some (RBusy m b, ch s, None)
  | RBusy m false, CDefault => Some (RPre, ch s, returned m)
  | RBusy m true, CDefault => Some (DPre, ch s, returned m)
  | DPre, CDone => cancel
  | DPre, CDefault => if cancel then None else Some (DTry, ch s, None)
  | DTry, CChan => match ch s with m :: rest => Some (RTaken m true, rest, None) | [] => None end
  | DTry, CDefault => match ch s with [] => Some (RDone None, ch s, None) | _ :: _ => None end
  | _, _ => None
  end.

(** ** The transport *)
Inductive act :=
| ASend (ctx : option nat) (md : option Metadata) (data : option string)
| AReceive (ctx : option nat)
| ASendStep (i : nat) (k : case)
| ARecvStep (i : nat) (k : case) (e : error)
| ACancel (ctx : nat) (e : err)
| AClose.

(** The message a Receive has in hand, and the one its processor is running on. *)
Definition holding (p : rpc) : list message := match p with RTaken m _ => [m] | _ => [] end.
Definition handling (p : rpc) : list message := match p with RBusy m _ => [m] | _ => [] end.

(** One step. Of the history, the messages taken are what the channel lost, a
    processor is called where its run begins, and answers where it ends. *)
Definition step (s : sendReceiver) (a : act) : option sendReceiver :=
  let '(mkSR c d x ss rs h acc tak han ans rep) := s in
  match a with
  | ASend ctx md data =>
      match Send ctx md data with
      | inl call => Some (mkSR c d x (ss ++ [call]) rs h acc tak han ans rep)
      | inr _ => Some s
      end
  | AReceive ctx =>
      match Receive ctx with
      | inl r => Some (mkSR c d x ss (rs ++ [r]) h acc tak han ans rep)
      | inr _ => Some s
      end
  | ASendStep i k =>
      match ss !! i with
      | None => None
      | Some call =>
          match send_step s call k with
          | None => None
          | Some (pc, put) =>
              let ss := <[i := mkCall (cctx call) (cmsg call) pc]> ss in
              match put with
              | Some m => Some (mkSR (c ++ [m]) d x ss rs h (acc ++ [m]) tak han ans rep)
              | None => Some (mkSR c d x ss rs h acc tak han ans rep)
              end
          end
      end
  | ARecvStep i k e =>
      match rs !! i with
      | None => None
      | Some (ctx, p) =>
          match recv_step s ctx p k e with
          | None => None
          | Some (p', c', fail) =>
              Some (mkSR c' d x ss (<[i := (ctx, p')]> rs) h acc
                      (tak ++ take (length c - length c') c)
                      (han ++ handling p')
                      (ans ++ ((λ m, (m, e)) <$> handling p))
                      (rep ++ match fail with Some f => [f] | None => [] end))
          end
      end
  | ACancel ctx e =>
      Some (mkSR c d (match x !! ctx with Some _ => x | None => <[ctx := e]> x end) ss rs h
              acc tak han ans rep)
  | AClose => Some (mkSR c true x ss rs h acc tak han ans rep)
  end.
Definition steps (s : sendReceiver) (l : list act) : option sendReceiver :=
  foldl (λ s a, s ≫= λ s, step s a) (Some s) l.
Definition stepping : relation sendReceiver := λ s s', ∃ a, step s a = Some s'.
End gochan.
