(* ===== verification/GochanProps.v ===== *)
(** * The in-process transport: order, completeness, shutdown *)
From S2P Require Import Prelude Errors GoLib Event Gochan.
#[local] Open Scope Z_scope.

Section props.
Context `{UrlLib}.

(** The messages whose Send returned nil. *)
Definition ok_send (c : call) : option message :=
  match cpc c with SDone None => Some (cmsg c) | _ => None end.
Definition sent (s : sendReceiver) : list message := omap ok_send (sends s).

Lemma omap_insert {A B} (f : A → option B) (l : list A) i x y :
  l !! i = Some x → f x = None →
  omap f (<[i := y]> l) ≡ₚ omap f l ++ match f y with Some b => [b] | None => [] end.
Proof.
  revert i. induction l as [|a l IH]; intros [|i] Hi Hx; [done..| |].
  - injection Hi as ->. simpl. rewrite Hx. destruct (f y); [apply Permutation_cons_append|by rewrite app_nil_r].
  - simpl in *. specialize (IH i Hi Hx). destruct (f a); simpl; [by constructor|done].
Qed.

Lemma send_step_pending s c k pc put : send_step s c k = Some (pc, put) → ok_send c = None.
Proof. unfold send_step, ok_send. by destruct (cpc c) as [| |[]]. Qed.
Lemma send_step_put s c k pc put :
  send_step s c k = Some (pc, put) →
  put = (if pc is SDone None then Some (cmsg c) else None) ∧
  (put ≠ None → (length (ch s) < defaultChanDepth)%nat).
Proof.
  unfold send_step. destruct (cpc c), k; try done.
  - destruct (done s); [|done]. by intros [= <- <-].
  - destruct (done s); [done|]. by intros [= <- <-].
  - destruct (canceled s !! _); [|done]. by intros [= <- <-].
  - destruct (done s); [|done]. by intros [= <- <-].
  - destruct (Nat.ltb_spec (length (ch s)) defaultChanDepth); [|done]. by intros [= <- <-].
Qed.
(** What one step of a Receive does with messages: what leaves the channel is in
    hand, what was in hand is given to the processor, and a failure the processor
    answers is reported to the error handler, if there is one. *)
Definition failure (onErr : bool) (r : message * error) : option (message * err) :=
  match r.2 with Some er => if onErr then Some (r.1, er) else None | None => None end.
Lemma recv_step_moves s ctx p k e p' c' fail :
  recv_step s ctx p k e = Some (p', c', fail) →
  let out := take (length (ch s) - length c') (ch s) in
  ch s = out ++ c' ∧ out ++ holding p = holding p' ++ handling p' ∧ (handling p = [] ∨ handling p' = []) ∧
  match fail with Some f => [f] | None => [] end =
    omap (failure (onErr s)) ((λ m, (m, e)) <$> handling p).
Proof.
  unfold recv_step. destruct p as [| |m b|m []| | |], k; try done; repeat case_match; intros; simplify_eq/=;
    rewrite ?Nat.sub_diag, ?take_0; try (split_and!; auto; fail);
    rewrite Nat.sub_succ_l, Nat.sub_diag by lia; simpl; by split_and!; auto.
Qed.

(** The messages in hand, and those the processor is running on. *)
Definition in_hand (s : sendReceiver) : list message := receives s ≫= λ r, holding r.2.
Definition in_process (s : sendReceiver) : list message := receives s ≫= λ r, handling r.2.
Lemma bind_insert {A B} (f : A → list B) (l : list A) i x y :
  l !! i = Some x → (<[i := y]> l ≫= f) ++ f x ≡ₚ (l ≫= f) ++ f y.
Proof.
  revert i. induction l as [|a l IH]; intros [|i] Hi; [done..| |].
  - injection Hi as ->. cbn. solve_Permutation.
  - cbn. rewrite <-!app_assoc. by rewrite (IH i).
Qed.

(** What holds of the transport in every state. *)
Record inv (s : sendReceiver) : Prop := {
  inv_order : accepted s = taken s ++ ch s;
  inv_depth : (length (ch s) <= defaultChanDepth)%nat;
  inv_sent : sent s ≡ₚ accepted s;
  inv_taken : taken s ≡ₚ handed s ++ in_hand s;
  inv_single : (length (receives s) <= 1)%nat → taken s = handed s ++ in_hand s;
  inv_replies : handed s ≡ₚ (replies s).*1 ++ in_process s;
  inv_reported : reported s = omap (failure (onErr s)) (replies s) }.

Lemma inv_New h : inv (New h).
Proof. split; simpl; try done. lia. Qed.
Lemma inv_step s a s' : inv s → step s a = Some s' → inv s'.
Proof.
  intros Hi. pose proof Hi as [Ho Hd Hs Ht H1 Hr Hrep].
  destruct s as [c d x ss rs h acc tak han ans rep]. unfold in_hand, in_process in *. simpl in *.
  destruct a as [ctx md dt|ctx|i k|i k e|ctx er|]; simpl.
  - destruct (Send ctx md dt) as [call|] eqn:E; intros [= <-]; [|done]. split; simpl; try done.
    unfold sent in *. simpl in *. rewrite omap_app, Hs. simpl.
    assert (ok_send call = None) as ->.
    { destruct ctx, md; simplify_eq/=. done. }
    by rewrite app_nil_r.
  - destruct (Receive ctx) as [[c0 p]|] eqn:E; intros [= <-]; [|done].
    assert (p = RPre) as -> by (by destruct ctx; simplify_eq/=).
    split; unfold in_hand, in_process; simpl; rewrite ?bind_app; simpl; rewrite ?app_nil_r; try done.
    rewrite length_app. simpl. intros Hle. apply H1. lia.
  - destruct (ss !! i) as [call|] eqn:Ei; [|done]. destruct (send_step _ call k) as [[pc put]|] eqn:E; [|done].
    pose proof (send_step_pending _ _ _ _ _ E) as Hpend. apply send_step_put in E as [Hput Hlen]. simpl in Hlen.
    pose proof (omap_insert ok_send ss i call (mkCall (cctx call) (cmsg call) pc) Ei Hpend) as Hom.
    unfold ok_send at 3 in Hom. simpl in Hom. unfold sent in *. simpl in *.
    destruct put as [m|]; intros [= <-]; split; simpl; try done.
    + by rewrite Ho, app_assoc.
    + rewrite length_app. specialize (Hlen ltac:(done)). simpl. lia.
    + unfold sent. simpl. rewrite Hom. destruct pc as [| |[|]]; try done. injection Hput as ->. by rewrite Hs.
    + unfold sent. simpl. rewrite Hom. destruct pc as [| |[|]]; try done; by rewrite app_nil_r.
  - destruct (rs !! i) as [[ctx p]|] eqn:Ei; [|done].
    destruct (recv_step _ ctx p k e) as [[[p' c'] fail]|] eqn:E; [|done]. intros [= <-].
    apply recv_step_moves in E as (Hc & Hm & Hx & Hf). simpl in *.
    set (out := take (length c - length c') c) in *.
    pose proof (bind_insert (λ r, holding r.2) rs i (ctx, p) (ctx, p') Ei) as Hh.
    pose proof (bind_insert (λ r, handling r.2) rs i (ctx, p) (ctx, p') Ei) as Hg. simpl in Hh, Hg.
    split; unfold in_hand, in_process; simpl.
    + by rewrite Ho, Hc, app_assoc.
    + rewrite Hc, length_app in Hd. lia.
    + done.
    + apply (Permutation_app_inv_r (holding p)). rewrite <-!app_assoc, Hh, Hm.
      rewrite Ht. solve_Permutation.
    + rewrite length_insert. intros Hle. specialize (H1 Hle).
      destruct rs as [|r []]; [done| |simpl in Hle; lia]. destruct i; [|done]. injection Ei as ->.
      simpl in *. rewrite app_nil_r in *. rewrite H1, <-app_assoc.
      assert (holding p ++ out = out ++ holding p) as ->.
      { destruct p, out as [|? []]; simpl in *; simplify_list_eq; try done; by destruct p'. }
      rewrite Hm. destruct p'; simpl; by rewrite ?app_nil_r, <-?app_assoc.
    + assert (((λ m, (m, e)) <$> handling p).*1 = handling p) as E1 by by destruct p.
      rewrite fmap_app, E1. apply (Permutation_app_inv_r (handling p)).
      rewrite <-!app_assoc, Hg, Hr. solve_Permutation.
    + by rewrite omap_app, Hrep, Hf.
  - by intros [= <-].
  - by intros [= <-].
Qed.
Lemma inv_reachable h s : rtc stepping (New h) s → inv s.
Proof.
  intros Hr. remember (New h) as s0 eqn:E. assert (inv s0) as Hi by (subst; apply inv_New). clear E.
  induction Hr as [|s1 s2 s3 [a Ha] _ IH]; [done|]. apply IH. by eapply inv_step.
Qed.

(** C25: in every state the transport can reach, under every interleaving of
    Sends, Receives, cancellations and closing: the messages whose Send returned
    nil are exactly those accepted; they leave the buffer, which stays within its
    depth, in the order they were accepted, none skipped; each message that left
    it has been given to the processor, once, or is in the hand of a Receive
    whose next step gives it, so that none is dropped; with one Receive the
    processor gets them in that order; the processor has answered for each
    message it was given, or is running on it; and its failures, those and no
    others, are reported when an error handler is installed. *)
Theorem gochan_fifo h s :
  rtc stepping (New h) s →
  sent s ≡ₚ accepted s ∧ accepted s = taken s ++ ch s ∧
  (length (ch s) <= defaultChanDepth)%nat ∧
  taken s ≡ₚ handed s ++ in_hand s ∧
  ((length (receives s) <= 1)%nat → taken s = handed s ++ in_hand s) ∧
  handed s ≡ₚ (replies s).*1 ++ in_process s ∧
  reported s = omap (failure (onErr s)) (replies s) ∧
  (∀ i ctx m b e, receives s !! i = Some (ctx, RTaken m b) →
     ∃ s', step s (ARecvStep i CDefault e) = Some s' ∧ handed s' = handed s ++ [m]).
Proof.
  intros [? ? ? ? ? ? ?]%inv_reachable. split_and!; try done. intros i ctx m b e Hi.
  destruct s as [c d x ss rs hh acc tak han ans rep]. simpl in *. rewrite Hi. simpl. by eexists.
Qed.

(** ** Shutdown *)

(** A Send that was past its first select when the transport closed. *)
Definition racing (c : call) : bool := match cpc c with SSelect => true | _ => false end.
Definition quiet (s : sendReceiver) : Prop :=
  done s = true ∧ Forall (λ c, racing c = false) (sends s).

Lemma done_step s a s' : step s a = Some s' → done s = true → done s' = true.
Proof.
  destruct s as [c d x ss rs h acc tak han ans rep]. destruct a; simpl; repeat case_match; intros; by simplify_eq/=.
Qed.
(** Once the transport is closed a Send only ever leaves its first select with
    an error. *)
Lemma send_step_closed s c k pc put :
  send_step s c k = Some (pc, put) → done s = true → racing c = false →
  put = None ∧ pc = SDone (Some (Sentinel ErrClosed)).
Proof.
  unfold send_step, racing. intros H1 Hd Hr. destruct (cpc c), k; try done; rewrite Hd in H1; simpl in *;
    by simplify_eq/=.
Qed.
Lemma quiet_step s a s' : step s a = Some s' → quiet s → quiet s' ∧ accepted s' = accepted s.
Proof.
  intros Hs [Hd Hq]. pose proof (done_step _ _ _ Hs Hd) as Hd'.
  destruct s as [c d x ss rs h acc tak han ans rep]. simpl in *. subst d. destruct a as [ctx md dt|ctx|i k|i k e|ctx er|]; simpl in Hs.
  - destruct (Send ctx md dt) as [call|] eqn:E; simplify_eq/=; [|done]. split; [|done]. split; [done|]. simpl.
    apply Forall_app. split; [done|]. apply Forall_singleton. destruct ctx, md; by simplify_eq/=.
  - destruct (Receive ctx); by simplify_eq/=.
  - destruct (ss !! i) as [call|] eqn:Ei; [|done]. destruct (send_step _ call k) as [[pc put]|] eqn:E; [|done].
    pose proof (Forall_lookup_1 _ _ _ _ Hq Ei) as Hcall.
    apply send_step_closed in E as [-> ->]; [|done..]. simplify_eq/=. split; [|done]. split; [done|]. simpl.
    by apply Forall_insert.
  - destruct (rs !! i) as [[ctx p]|]; [|done]. destruct (recv_step _ ctx p k e) as [[[p' c'] fail]|]; [|done].
    by simplify_eq/=.
  - by simplify_eq/=.
  - by simplify_eq/=.
Qed.
Lemma quiet_steps s s' : rtc stepping s s' → quiet s → quiet s' ∧ accepted s' = accepted s.
Proof.
  induction 1 as [|s1 s2 s3 [a Ha] _ IH]; [done|]. intros Hq.
  destruct (quiet_step _ _ _ Ha Hq) as [Hq2 <-]. by apply IH.
Qed.

(** A Send that begins after Close is never accepted: in every later state it
    waits at its first select or has returned ErrClosed. *)
Theorem closed_refuses s s' i c :
  done s = true → rtc stepping s s' →
  (length (sends s) <= i)%nat → sends s' !! i = Some c →
  cpc c = SCheck ∨ cpc c = SDone (Some (Sentinel ErrClosed)).
Proof.
  intros Hd Hr Hi. revert c.
  assert (∀ s, rtc stepping s s' → done s = true →
    ∀ n, (∀ i c, (n <= i)%nat → sends s !! i = Some c → cpc c = SCheck ∨ cpc c = SDone (Some (Sentinel ErrClosed))) →
    ∀ i c, (n <= i)%nat → sends s' !! i = Some c → cpc c = SCheck ∨ cpc c = SDone (Some (Sentinel ErrClosed))) as Hg.
  { clear. intros s. induction 1 as [|s1 s2 s3 [a Ha] _ IH]; intros Hd n Hn; [exact Hn|].
    apply IH; [by eapply done_step|]. intros j call Hj Hcall.
    destruct s1 as [c d x ss rs h acc tak han ans rep]. simpl in *. subst d.
    destruct a as [ctx md dt|ctx|i k|i k e|ctx er|]; simpl in Ha.
    - destruct (Send ctx md dt) as [call'|] eqn:E; simplify_eq/=; [|by eapply Hn].
      apply lookup_app_Some in Hcall as [Hcall|[_ Hcall]]; [by eapply Hn|].
      apply list_lookup_singleton_Some in Hcall as [_ <-]. destruct ctx, md; simplify_eq/=. by left.
    - destruct (Receive ctx); simplify_eq/=; by eapply Hn.
    - destruct (ss !! i) as [call'|] eqn:Ei; [|done].
      destruct (send_step _ call' k) as [[pc put]|] eqn:E; [|done].
      assert (Hss : <[i := mkCall (cctx call') (cmsg call') pc]> ss !! j = Some call)
        by (by destruct put; simplify_eq/=).
      clear Ha. destruct (decide (i = j)) as [<-|Hne]; [|rewrite list_lookup_insert_ne in Hss by done; by eapply Hn].
      rewrite list_lookup_insert_eq in Hss by by eapply lookup_lt_Some. injection Hss as <-. simpl.
      right. destruct (Hn i call' Hj Ei) as [Hpc|Hpc].
      + by apply send_step_closed in E as [_ ->]; unfold racing; rewrite ?Hpc.
      + unfold send_step in E. rewrite Hpc in E. by destruct k.
    - destruct (rs !! i) as [[ctx p]|]; [|done].
      destruct (recv_step _ ctx p k e) as [[[p' c'] fail]|]; simplify_eq/=. by eapply Hn.
    - simplify_eq/=. by eapply Hn.
    - simplify_eq/=. by eapply Hn. }
  intros c. eapply (Hg s Hr Hd (length (sends s))); [|done].
  intros j c' Hj Hc'. apply lookup_lt_Some in Hc'. lia.
Qed.

(** How a subscription ends. Whatever the processor answers, Receive returns
    only with its context's error, or nil once the transport is closed with
    nothing left in the buffer at that moment; and when no Send was still racing
    the close, nothing is accepted after it, so every message that was ever
    accepted has been given to the processor or is in the hand of another
    Receive. *)
Theorem receive_ends h s i ctx p k e s' r :
  rtc stepping (New h) s → step s (ARecvStep i k e) = Some s' →
  receives s !! i = Some (ctx, p) → receives s' !! i = Some (ctx, RDone r) →
  match r with
  | Some er => canceled s !! ctx = Some er
  | None => ch s = [] ∧ (p = DTry) ∧
      (quiet s → ∀ s2, rtc stepping s' s2 → accepted s2 ≡ₚ handed s ++ in_hand s)
  end.
Proof.
  intros Hreach Hs Hp Hp'. pose proof (inv_reachable h s Hreach) as [Ho _ _ Ht _ _ _].
  assert (Hq : quiet s → ∀ s2, rtc stepping s' s2 → accepted s2 = accepted s).
  { intros Hq s2 H2. destruct (quiet_step _ _ _ Hs Hq) as [Hq' <-]. by apply quiet_steps. }
  destruct s as [c d x ss rs hh acc tak han ans rep]. simpl in *. rewrite Hp in Hs.
  destruct (recv_step _ ctx p k e) as [[[p' c'] fail]|] eqn:E; [|done]. injection Hs as <-. simpl in Hp'.
  rewrite list_lookup_insert_eq in Hp' by by eapply lookup_lt_Some. injection Hp' as ->.
  assert (Hcase : match r with Some er => x !! ctx = Some er | None => c = [] ∧ p = DTry end).
  { unfold recv_step in E. simpl in E. destruct p as [| |m b|m []| | |], k; try done; simpl in E;
      repeat case_match; by simplify_eq/=. }
  destruct r as [er|]; [done|]. destruct Hcase as [-> ->]. split_and!; [done|done|].
  intros Hqq s2 H2. rewrite (Hq Hqq s2 H2), Ho, app_nil_r. exact Ht.
Qed.

(** The schedule: a Send passes its first select, the transport closes, a
    Receive drains the empty buffer and returns, and the Send's second select
    takes the channel. *)
Definition late_send (md : Metadata) : list act :=
  [ASend (Some 0%nat) (Some md) None; AReceive (Some 1%nat); ASendStep 0 CDefault; AClose;
   ARecvStep 0 CDefault None; ARecvStep 0 CClosed None; ARecvStep 0 CDefault None;
   ARecvStep 0 CDefault None; ASendStep 0 CChan].

(** A Send racing Close can be accepted after the last Receive has drained
    the buffer and returned nil: Send answers nil and the message is never
    delivered by that Receive. *)
Theorem close_race_loses md :
  let m := mkMessage md None in
  match steps (New false) (late_send md) with
  | Some s =>
      cpc <$> sends s = [SDone None] ∧ receives s = [(1%nat, RDone None)] ∧
      accepted s = [m] ∧ handed s = [] ∧ ch s = [m]
  | None => False
  end.
Proof. by vm_compute. Qed.
End props.
