(* ===== verification/Metrics.v ===== *)
(** * prometheus: the metrics seams

    prometheus.go: the collectors and their registration, and the three seams
    that record into them. The client library is a parameter: registering a
    collector, and the operations on a metric with its label values. *)
From S2P Require Import Prelude Errors GoLib Event Bound Relay Json Codec Publisher Subscriber.
From Stdlib Require Import SpecFloat.
#[local] Open Scope Z_scope.

(** [Duration.Seconds]: whole seconds plus the fraction, in float64. *)
Definition Seconds (d : Z) : spec_float :=
  SFadd 53 1024 (float64_of_Z (Z.quot d Second))
    (SFdiv 53 1024 (float64_of_Z (Z.rem d Second)) (float64_of_Z Second)).

(** The collectors of [Metrics], in the order they are registered. *)
Inductive metric :=
| publishTotal | publishDuration | handleTotal | handleDuration | handleInFlight
| relaySentTotal | relayLagSeconds | relayBacklog | relayErrorsTotal
| sequencedTotal | sweptTotal | sweptLast | relayLeader.
#[export] Instance metric_eq_dec : EqDecision metric.
Proof. solve_decision. Defined.
Definition collectors : list metric :=
  [publishTotal; publishDuration; handleTotal; handleDuration; handleInFlight; relaySentTotal;
   relayLagSeconds; relayBacklog; relayErrorsTotal; sequencedTotal; sweptTotal; sweptLast; relayLeader].
Inductive kind := CounterVec | HistogramVec | GaugeVec.
Definition desc (m : metric) : kind * string * list string :=
  match m with
  | publishTotal => (CounterVec, "publish_total", ["event"; "result"])
  | publishDuration => (HistogramVec, "publish_duration_seconds", ["event"])
  | handleTotal => (CounterVec, "handle_total", ["event"; "result"])
  | handleDuration => (HistogramVec, "handle_duration_seconds", ["event"])
  | handleInFlight => (GaugeVec, "handle_in_flight", ["event"])
  | relaySentTotal => (CounterVec, "outbox_relay_sent_total", ["group"])
  | relayLagSeconds => (GaugeVec, "outbox_relay_lag_seconds", ["group"])
  | relayBacklog => (GaugeVec, "outbox_relay_backlog", ["group"])
  | relayErrorsTotal => (CounterVec, "outbox_relay_errors_total", ["group"])
  | sequencedTotal => (CounterVec, "outbox_sequenced_total", ["group"])
  | sweptTotal => (CounterVec, "outbox_swept_total", ["group"])
  | sweptLast => (GaugeVec, "outbox_swept_last", ["group"])
  | relayLeader => (GaugeVec, "outbox_relay_leader", ["group"])
  end%string.

(** github.com/prometheus/client_golang. *)
Class Prom (W : Type) := {
  Register : string → kind * string * list string → list spec_float → M W error;
  Inc : metric → list string → M W unit;
  Dec : metric → list string → M W unit;
  Add : metric → list string → spec_float → M W unit;
  Set_ : metric → list string → spec_float → M W unit;
  Observe : metric → list string → spec_float → M W unit }.

Section metrics.
Context `{UrlLib} `{Unicode} `{Protobuf} {W : Type} `{Host W} `{!Prom W}.

(** ** Construction *)
Definition defaultNamespace : string := "protoevent".
Record options := mkOptions { namespace : string; buckets : list spec_float }.
Definition WithNamespace (ns : string) (o : options) : options := mkOptions ns (buckets o).
Definition WithBuckets (b : list spec_float) (o : options) : options := mkOptions (namespace o) b.
Fixpoint registerAll (o : options) (ms : list metric) : M W error :=
  match ms with
  | [] => mret None
  | m :: ms =>
      e ← Register (namespace o) (desc m) (if (desc m).1.1 is HistogramVec then buckets o else []);
      match e : error with
      | Some e => mret (Some (wrapf "prometheus: register" e))
      | None => registerAll o ms
      end
  end.
Definition New_ (reg : bool) (DefBuckets : list spec_float) (opts : list (options → options)) : M W error :=
  if negb reg then mret (Some (New "prometheus: New requires a non-nil Registerer"))
  else registerAll (foldl (λ o opt, opt o) (mkOptions defaultNamespace DefBuckets) opts) collectors.

(** ** The seams *)
Definition resultLabel (e : error) : string := if e is Some _ then "error" else "ok".
Definition boolToFloat (b : bool) : spec_float := float64_of_Z (if b then 1 else 0).

Definition PublisherInterceptor_ : PublisherInterceptor (W:=W) := λ ctx name e p pf opts,
  start ← now;
  err ← pf ctx name e p opts;
  _ ← Inc publishTotal [name; resultLabel err];
  t ← now;
  _ ← Observe publishDuration [name] (Seconds (t - start));
  mret err.

(** The deferred decrement runs however the handler ends. *)
Definition SubscriberInterceptor_ : SubscriberInterceptor (W:=W) := λ ctx md e handler,
  let name := Type_ md in
  _ ← Inc handleInFlight [name];
  start ← now;
  r ← handler ctx e;
  _ ← match r : outcome with
      | Returned err =>
          _ ← Inc handleTotal [name; resultLabel err];
          t ← now;
          Observe handleDuration [name] (Seconds (t - start))
      | Panicked _ => skip
      end;
  _ ← Dec handleInFlight [name];
  mret r.

(** The observer of the relay [name]: what it does on each of the relay's
    signals. *)
Definition RelayObserver (name : string) (s : ev) : M W unit :=
  match s with
  | EOnDrained count age more =>
      _ ← Add relaySentTotal [name] (float64_of_Z count);
      _ ← Set_ relayLagSeconds [name] (Seconds age);
      Set_ relayBacklog [name] (boolToFloat more)
  | EOnError _ => Inc relayErrorsTotal [name]
  | EOnSequenced count => Add sequencedTotal [name] (float64_of_Z count)
  | EOnSwept count =>
      _ ← Add sweptTotal [name] (float64_of_Z count);
      Set_ sweptLast [name] (float64_of_Z count)
  | EOnLeadership b => Set_ relayLeader [name] (boolToFloat b)
  | _ => skip
  end.

(** ** What they promise *)

(** Of the client library: its operations do not touch the rest of the world
    ([view]), nor does reading the clock; a gauge moves by one. *)
Class PromLaws (V : Type) := {
  view : W → V;
  inflight : W → string → Z;
  view_now w : view (now w).2 = view w;
  view_Inc m l w : view (Inc m l w).2 = view w;
  view_Dec m l w : view (Dec m l w).2 = view w;
  view_Observe m l f w : view (Observe m l f w).2 = view w;
  inflight_now w n : inflight (now w).2 n = inflight w n;
  inflight_Inc m l w n : inflight (Inc m l w).2 n =
    inflight w n + (if bool_decide (m = handleInFlight ∧ l = [n]) then 1 else 0);
  inflight_Dec m l w n : inflight (Dec m l w).2 n =
    inflight w n - (if bool_decide (m = handleInFlight ∧ l = [n]) then 1 else 0);
  inflight_Observe m l f w n : m ≠ handleInFlight → inflight (Observe m l f w).2 n = inflight w n }.

(** The metrics never change what they observe: the publish they wrap is called
    once, in a world that differs only in its metrics, and its answer is the
    answer. *)
Theorem publisher_transparent `{!PromLaws V} ctx name e p pf opts w :
  ∃ w1, view w1 = view w ∧
    (PublisherInterceptor_ ctx name e p pf opts w).1 = (pf ctx name e p opts w1).1 ∧
    view (PublisherInterceptor_ ctx name e p pf opts w).2 = view (pf ctx name e p opts w1).2.
Proof.
  exists (now w).2. split; [apply view_now|]. unfold PublisherInterceptor_. rewrite run_bind.
  destruct (now w) as [start w1]. cbn [fst snd]. rewrite run_bind.
  destruct (pf ctx name e p opts w1) as [err w2]. cbn [fst snd].
  rewrite !run_bind, run_ret. split; [done|]. simpl.
  by rewrite view_Observe, view_now, view_Inc.
Qed.

(** The metrics around a handler never change what it does or how it ends,
    and the gauge of running handlers is exact: a handler that leaves the gauge
    as it finds it is seen leaving it, also when it panics. *)
Theorem subscriber_transparent `{!PromLaws V} ctx md e (handler : Handler (W:=W)) w :
  let name := Type_ md in
  (∀ w1, inflight (handler ctx e w1).2 name = inflight w1 name) →
  ∃ w1, view w1 = view w ∧ inflight w1 name = inflight w name + 1 ∧
    let '(r, w') := SubscriberInterceptor_ ctx md e handler w in
    r = (handler ctx e w1).1 ∧ view w' = view (handler ctx e w1).2 ∧
    inflight w' name = inflight w name.
Proof.
  intros name Hh. set (w0 := (Inc handleInFlight [name] w).2).
  exists (now w0).2. rewrite view_now, inflight_now. unfold w0 at 1 2.
  rewrite view_Inc, inflight_Inc, bool_decide_eq_true_2 by done. split; [done|]. split; [done|].
  unfold SubscriberInterceptor_. fold name. rewrite run_bind. fold w0. rewrite run_bind.
  specialize (Hh (now w0).2). assert (Hw0 : inflight (now w0).2 name = inflight w name + 1).
  { rewrite inflight_now. unfold w0. by rewrite inflight_Inc, bool_decide_eq_true_2. }
  destruct (now w0) as [start w1]. cbn [fst snd] in *. rewrite run_bind.
  destruct (handler ctx e w1) as [r w2]. cbn [fst snd] in *. rewrite run_bind.
  assert (Hin : ∀ w, inflight (Dec handleInFlight [name] w).2 name = inflight w name - 1).
  { intros w'. by rewrite inflight_Dec, bool_decide_eq_true_2. }
  destruct r as [err|v]; rewrite !run_bind, run_ret; simpl; rewrite Hin, view_Dec.
  - rewrite view_Observe, view_now, view_Inc, inflight_Observe, inflight_now, inflight_Inc by done.
    rewrite bool_decide_eq_false_2 by by intros [? _]. split_and!; [done|done|lia].
  - split_and!; [done|done|lia].
Qed.
End metrics.
