(* ===== verification/BusDemo.v ===== *)
(** * The eventbus and the in-process transport in motion, with witnesses *)
From S2P Require Import Prelude Errors GoLib Event Json Bound Relay Envelope Scenario Codec Publisher Subscriber BusProps Mongo MongoProps MongoDemo OutboxBus Gochan GochanProps Metrics.
#[local] Open Scope Z_scope.

(** A message is its type and its one field; both formats write the field. *)
#[export] Instance text_proto : Protobuf := {|
  Any := option (string * string);
  PMessage := string * string;
  as_message v := v;
  with_message _ m := Some m;
  proto_Marshal m := inl (Some m.2);
  proto_Unmarshal b m := ((m.1, default ""%string b), None);
  protojson_Marshal m := inl (Some m.2);
  protojson_Unmarshal _ b m := ((m.1, default ""%string b), None) |}.
#[export] Instance text_proto_laws : ProtobufLaws.
Proof.
  refine {| mtype m := m.1; PEqual := eq |}.
  - intros [t f] b [t0 f0] [= <-] [= ->]. simpl. eauto.
  - intros [t f] b [t0 f0] [= <-] [= ->]. simpl. eauto.
Defined.

Definition codecs : gmap string Codec := {["json"%string := jsonCodec; "proto"%string := protoCodec]}.
Example codecs_init : Codec.init = Some codecs.
Proof. apply init_codecs. Qed.
Lemma codecs_two k c : codecs !! k = Some c → c = protoCodec ∨ c = jsonCodec.
Proof.
  unfold codecs. intros [[_ <-]|[_ [_ <-]%lookup_singleton_Some]]%lookup_insert_Some; auto.
Qed.

(** A program that brings its own codec, under a name in capitals. *)
Definition own_codec : Codec := mkCodec "Avro" (λ v, inr (Errors.New "unsupported")) (λ d v, (v, None)).
Lemma registry_well_keyed_witness :
  ∃ reg, registrations [own_codec] = Some reg ∧
    (∀ ct codec, resolve reg ct = inl codec →
       ContentSubtype ct = (ToLower (Name codec), true) ∧ Name codec ≠ ""%string) ∧
    ContentSubtype "application/AVRO" = (ToLower (Name own_codec), true).
Proof.
  exists (<["avro"%string := own_codec]> codecs).
  assert (registrations [own_codec] = Some (<["avro"%string := own_codec]> codecs)) as Hr.
  { unfold registrations. rewrite init_codecs. reflexivity. }
  split; [exact Hr|]. split; [apply (registry_well_keyed [own_codec] _ Hr)|reflexivity].
Defined.

Definition book : Any := Some ("books.v1.BookCreated", "Dune")%string.
Definition demo_opts : list PublishOption :=
  [WithEventID "id-1"; WithEventSource "books"; WithEventContentType "application/json; charset=utf-8";
   WithEventDataSchema (Some "urn:schema"%string); WithEventExtension "tenant" (GString "acme");
   WithEventTime Second].
(** [script] is the world of [Scenario]; no ID is minted here. *)
Definition no_random : M script (string + err) := mret (inr (Errors.New "no entropy")).
Definition quiet_sender : Sender (W:=script) := λ _ _ _, mret None.

(** ** The subscriber *)
Definition books_desc : ServiceDesc := mkServiceDesc "books.v1" [mkEventDesc "BookCreated"; mkEventDesc "BookSold"] "books.proto".
(** Decodes, and panics on an event without a subject. *)
Definition book_handler : EventHandler (W:=script) := λ ctx md dec inter,
  mret (if String.eqb (Subject md) "" then Panicked "no subject" else Returned (dec (Some ("books.v1.BookCreated", ""))).2)%string.
Definition book_sub : Subscriber (W:=script) :=
  (RegisterHandler (NewSubscriber "shop" []) books_desc "BookCreated" book_handler).1.
Example book_sub_info : GetServiceInfo book_sub = [("books.v1", ["BookCreated"])]%string.
Proof. by vm_compute. Qed.
Example registered_twice : (RegisterHandler book_sub books_desc "BookCreated" book_handler).2 ≠ None.
Proof. by vm_compute. Qed.

(** ** Witnesses *)
Definition start : script := mkScript 0 [].
Lemma publish_sends_once_witness :
  (∃ er s1, ∀ send, publish codecs Background "books.v1.BookCreated" book
     (with_sender (pimpl (NewPublisher codecs no_random quiet_sender [] start).1) send) demo_opts start = (Some er, s1)) ∨
  (∃ md data s1 codec,
     (∀ send, publish codecs Background "books.v1.BookCreated" book
        (with_sender (pimpl (NewPublisher codecs no_random quiet_sender [] start).1) send) demo_opts start =
        (wrapf "send" <$> (send Background (Some md) data s1).1, (send Background (Some md) data s1).2)) ∧
     prepared "books.v1.BookCreated" demo_opts md ∧
     resolve codecs (DataContentType md) = inl codec ∧ Codec.Marshal codec book = inl data).
Proof. apply publish_sends_once, NewPublisher_memo. Defined.
Lemma published_is_handled_witness :
  (∃ er s1, ∀ send, publish codecs Background "books.v1.BookCreated" book
     (with_sender (pimpl (NewPublisher codecs no_random quiet_sender [] start).1) send) demo_opts start = (Some er, s1)) ∨
  (∃ svc ev (dec : Any → Any * error), SplitType "books.v1.BookCreated" = inl (svc, ev) ∧
     ∃ m', dec (Some ("books.v1.BookCreated", "")%string) = (Some m', None) ∧
           ("books.v1.BookCreated", "Dune")%string = m').
Proof.
  destruct (published_is_handled codecs no_random quiet_sender [] start "books.v1.BookCreated" book
    ("books.v1.BookCreated", "Dune")%string demo_opts Background)
    as [Hl|(md & data & s1 & svc & ev & dec & _ & Hsplit & Hdec & _)];
    [apply codecs_two|done|by vm_compute|left; exact Hl|right].
  exists svc, ev, dec. split; [exact Hsplit|]. by apply (Hdec _ ("books.v1.BookCreated", "")%string).
Defined.
(** On this publisher it is the second case, down to the handler. *)
Example book_arrives s :
  let send : Sender := λ _ md data, process codecs book_sub Background (default zeroMetadata md) data in
  let p := pimpl (NewPublisher codecs no_random send [] s).1 in
  (publish codecs Background "books.v1.BookCreated" book p (WithEventSubject "dune" :: demo_opts) s).1 = None ∧
  (publish codecs Background "books.v1.BookCreated" book p demo_opts s).1 ≠ None.
Proof. by vm_compute. Qed.

Lemma demo_text md :
  prepared "books.v1.BookCreated" demo_opts md → carried md ∧ parseable (Event.DataSchema md).
Proof.
  intros [_ Ht Hv Hsu Hx Hi Hso Hct Htm Hs _].
  specialize (Hi ltac:(by vm_compute)). specialize (Htm ltac:(by vm_compute)).
  destruct md as [sv ty so su i t ex ds ct]. simpl in *. subst. split.
  - split; [repeat constructor|by vm_compute|]. simpl.
    apply map_Forall_insert_2; [by split_and!; vm_compute|apply map_Forall_empty].
  - destruct ds as [u|]; simpl in *; [|by vm_compute in Hs]. destruct Hs as [_ [= <-]].
    intros u [= <-] _. exists "urn:schema"%string. split_and!; [done|done|]. intros _. by eexists.
Qed.
Definition no_random_m : M msess (string + err) := mret (inr (Errors.New "no entropy")).
Definition tx_pub : PublisherImpl * msess := txPublisher codecs no_random_m [] (Some 7%nat) None (mongo_sess []).
Lemma tx_returns_nil :
  (publish codecs Background "books.v1.BookCreated" book (pimpl tx_pub.1) demo_opts tx_pub.2).1 = None.
Proof. by vm_compute. Qed.
Lemma tx_generator : respects only_time (idGenerator (pimpl tx_pub.1)).
Proof. intros w. change (only_time w w). unfold only_time. split_and!; [done|done|lia]. Qed.
Lemma outbox_publish_witness :
  ∃ s' md data codec sid l doc t,
    prepared "books.v1.BookCreated" demo_opts md ∧ resolve codecs (DataContentType md) = inl codec ∧
    Codec.Marshal codec book = inl data ∧
    (Some 7%nat = Some sid ∨ Some 7%nat = None ∧ None = Some sid) ∧
    pending (mfound (mongo_sess [])) !! sid = Some l ∧
    colls s' = with_pending (mfound (mongo_sess [])) (<[sid := l ++ [doc]]> (pending (mfound (mongo_sess [])))) ∧
    decodeMessage doc = inl (Relay.mkMessage (ID md) 0 (Some (stored md)) data (bsonDate t)) ∧
    hostTime (mongo_sess []) <= t.
Proof.
  pose proof (λ s', outbox_publish codecs no_random_m [] (Some 7%nat) None Background "books.v1.BookCreated" book
    demo_opts (mongo_sess []) tx_pub.1 tx_pub.2 s' (λ _, eq_refl) demo_text (surjective_pairing tx_pub) tx_generator) as Ho.
  pose proof tx_returns_nil as Hr. revert Ho Hr.
  generalize (publish codecs Background "books.v1.BookCreated" book (pimpl tx_pub.1) demo_opts tx_pub.2).
  intros [r s'] Ho Hr. simpl in Hr. subst r. exists s'. by apply Ho.
Defined.

(** *** The in-process transport *)
Definition ev_a : Metadata := WithEventID "a" (NewMetadata "books.v1.BookCreated").
Definition ev_b : Metadata := WithEventID "b" (NewMetadata "books.v1.BookCreated").
(** Two Sends, one delivery that fails, then the transport closes. *)
Definition two_sends : list act :=
  [ASend (Some 0%nat) (Some ev_a) None; ASend (Some 0%nat) (Some ev_b) None; AReceive (Some 1%nat);
   ASendStep 0 CDefault; ASendStep 0 CChan; ASendStep 1 CDefault; ASendStep 1 CChan;
   ARecvStep 0 CDefault None; ARecvStep 0 CChan None; ARecvStep 0 CDefault None;
   ARecvStep 0 CDefault (Some (Errors.New "handler")); AClose;
   ARecvStep 0 CDefault None; ARecvStep 0 CClosed None; ARecvStep 0 CDefault None;
   ARecvStep 0 CChan None; ARecvStep 0 CDefault None; ARecvStep 0 CDefault None; ARecvStep 0 CDefault None].
Definition at_two : sendReceiver := default (New true) (steps (New true) two_sends).
Lemma steps_reach (s : sendReceiver) l s' : steps s l = Some s' → rtc stepping s s'.
Proof.
  unfold steps. revert s. induction l as [|a l IH]; intros s; simpl; [by intros [= <-]; apply rtc_refl|].
  destruct (step s a) as [s1|] eqn:E.
  - intros Hl. eapply rtc_l; [by exists a|by apply IH].
  - assert (∀ l, foldl (λ (s : option sendReceiver) a, s ≫= λ s, step s a) None l = None) as Hn
      by (intros k; induction k; done).
    by rewrite Hn.
Qed.
Lemma at_two_reached : rtc stepping (New true) at_two.
Proof. apply steps_reach with (l := two_sends). by vm_compute. Qed.
Lemma gochan_fifo_witness :
  meta <$> handed at_two = [ev_a; ev_b] ∧ length (reported at_two) = 1%nat ∧
  taken at_two = handed at_two ++ in_hand at_two.
Proof.
  split; [by vm_compute|]. split; [by vm_compute|].
  apply (gochan_fifo true at_two at_two_reached). apply Nat.leb_le. by vm_compute.
Defined.
Lemma closed_refuses_witness :
  let s' := default at_two (steps at_two [ASend (Some 0%nat) (Some ev_a) None; ASendStep 2 CClosed]) in
  ∀ c, sends s' !! 2%nat = Some c → cpc c = SCheck ∨ cpc c = SDone (Some (Sentinel ErrClosed)).
Proof.
  intros s' c. apply (closed_refuses at_two s' 2 c).
  - by vm_compute.
  - apply steps_reach with (l := [ASend (Some 0%nat) (Some ev_a) None; ASendStep 2 CClosed]). by vm_compute.
  - vm_compute. lia.
Defined.
Lemma receive_ends_witness :
  ch at_two = [] ∧ DTry = DTry ∧
    (quiet at_two → ∀ s2, rtc stepping (default at_two (step at_two (ARecvStep 0 CDefault None))) s2 →
       accepted s2 ≡ₚ handed at_two ++ in_hand at_two).
Proof.
  apply (receive_ends true at_two 0 1 DTry CDefault None _ None at_two_reached); by vm_compute.
Defined.

(** ** The metrics *)
Record meters := mkMeters { mticks : nat; running : gmap string Z }.
#[export] Instance meters_host : Host meters := λ w, (Z.of_nat (mticks w), w).
Definition move (by_ : Z) (m : metric) (l : list string) : M meters unit := λ w,
  match m, l with
  | handleInFlight, [n] => (tt, mkMeters (mticks w) (<[n := default 0 (running w !! n) + by_]> (running w)))
  | _, _ => (tt, w)
  end.
#[export] Instance meters_prom : Prom meters := {|
  Register _ _ _ := mret None;
  Inc := move 1;
  Dec := move (-1);
  Add _ _ _ := skip;
  Set_ _ _ _ := skip;
  Observe _ _ _ := skip |}.
Lemma move_running b m l w n :
  default 0 (running (move b m l w).2 !! n) =
    default 0 (running w !! n) + (if bool_decide (m = handleInFlight ∧ l = [n]) then b else 0).
Proof.
  destruct (decide (m = handleInFlight)) as [->|Hm].
  2: { rewrite bool_decide_eq_false_2 by naive_solver. destruct m, l as [|? []]; simpl; lia || done. }
  destruct l as [|k [|k' l]]; [rewrite bool_decide_eq_false_2 by naive_solver; simpl; lia| |
    rewrite bool_decide_eq_false_2 by naive_solver; simpl; lia].
  cbn [move snd running].
  destruct (decide (k = n)) as [->|Hne].
  - rewrite lookup_insert_eq, bool_decide_eq_true_2 by done. simpl. lia.
  - rewrite lookup_insert_ne, bool_decide_eq_false_2 by naive_solver. lia.
Qed.
Lemma move_ticks b m l w : mticks (move b m l w).2 = mticks w.
Proof. by destruct m, l as [|? []]. Qed.
#[export] Instance meters_laws : PromLaws (W:=meters) nat.
Proof.
  refine {| view := mticks; inflight w n := default 0 (running w !! n) |}; try done.
  - intros. apply move_ticks.
  - intros. apply move_ticks.
  - intros. apply move_running.
  - intros m l w n. etrans; [apply (move_running (-1))|]. case_bool_decide; lia.
Defined.
Definition idle : meters := mkMeters O ∅.
(** A handler that panics while it is counted as running. *)
Lemma subscriber_transparent_witness :
  ∃ w1 : meters, view w1 = view idle ∧ inflight w1 "books.v1.BookSold" = inflight idle "books.v1.BookSold" + 1 ∧
    let '(r, w') := SubscriberInterceptor_ (mkHctx Background (mkContext _ None)) (NewMetadata "books.v1.BookSold")
                      book (λ _ _, mret (Panicked "nil map")) idle in
    r = Panicked "nil map" ∧ view w' = view w1 ∧
    inflight w' "books.v1.BookSold" = inflight idle "books.v1.BookSold".
Proof.
  exact (subscriber_transparent (mkHctx Background (mkContext _ None)) (NewMetadata "books.v1.BookSold") book
    (λ _ _, mret (Panicked "nil map")) idle (λ _, eq_refl)).
Defined.
