(* ===== verification/RabbitBus.v ===== *)
(** * A subscriber behind the RabbitMQ receiver

    The processor of [Subscriber] under the handler of [Consume]: what one
    delivery comes to, from the broker to the program's handler and back. *)
From S2P Require Import Prelude Errors GoLib Event Bound Relay Amqp Publish Consume RabbitProps Codec Subscriber BusProps.

Section rabbit.
Context `{UrlLib} `{Unicode} `{Protobuf} {W : Type} `{!Amqp W}.
#[local] Abbreviation S := (W * loc)%type.
Context (reg : gmap string Codec).

Lemma logs_call_exact {A} (m : M W A) (e : A → aev) (s : S) (Q : A → list aev → S → Prop) :
  (∀ l, Q (m s.1).1 [e (m s.1).1] ((m s.1).2, l)) → logs (call m e) s Q.
Proof. intros HQ. exists [e (m s.1).1]. split; [done|apply HQ]. Qed.

(** What the processor answers for a delivery. *)
Definition given_up (dErr : error) : Prop := ∃ e, dErr = Some e ∧ unprocessable e.
Lemma given_up_spec dErr : IsUnprocessableEventError dErr = true → given_up dErr.
Proof. destruct dErr as [e|]; [|done]. intros ?%IsUnprocessable_spec. by exists e. Qed.
Definition answers (sub : Subscriber (W:=W)) (gc : cx) (md : Metadata) (data : option string) (w : W)
    (dErr : error) : Prop :=
  match SplitType (Type_ md) with
  | inl (svc, ev) =>
      match registered sub svc ev with
      | Some ei =>
          match (handler ei (mkHctx gc (mkContext _ (Some md))) md (decoder reg md data)
                   (interceptor (opts sub)) w).1 with
          | Returned e => dErr = e
          | Panicked _ => given_up dErr
          end
      | None => given_up dErr
      end
  | inr _ => given_up dErr
  end.
Lemma process_answers sub gc md data w : answers sub gc md data w (process reg sub gc md data w).1.
Proof.
  unfold answers, process, registered. destruct (SplitType (Type_ md)) as [[svc ev]|e]; [|by apply given_up_spec].
  destruct (services sub !! svc) as [si|]; [|by apply given_up_spec].
  change (Some si ≫= (λ si, events si !! ev)) with (events si !! ev).
  destruct (events si !! ev) as [ei|]; [|by apply given_up_spec]. unfold dispatch, NewIncomingContext. cbv zeta.
  rewrite run_bind. destruct (handler ei _ _ _ _ w) as [[e|v] w']; [done|by apply given_up_spec].
Qed.

(** C36: one delivery, from the broker to the program's handler and back. A
    decodable delivery is processed once, in the world it is handed over in: the
    registered handler's answer is what is logged and acted upon. Right after
    that the group's context is asked. If it has ended by then, and only in that
    case, the delivery goes back to the queue whatever the answer was. Otherwise
    success is acknowledged, an event that is malformed, without a handler, or
    whose handler panicked is rejected for good at once (it never goes back to
    the queue it would crash on again), and any other failure is rejected with
    the requeue the options ask for, after the pause they ask for ([plain_policy]);
    the delivery is returned to the queue as well when that acknowledgement
    failed. *)
Theorem delivery_disposed o sd q tag n m sub gc ch d s md data :
  m d = inl (md, data) →
  let stop := ErrAt gc (now (process reg sub gc md data s.1).2).1 in
  logs (Consume.handle sd (mkSpec q tag n m true) (process reg sub) (Plain.doAcknowledge o) gc ch d) s
    (λ r k _, ∃ dErr k1, k = AProcessed md data dErr :: ACtxErr gc stop :: k1 ∧
       answers sub gc md data s.1 dErr ∧
       match stop with
       | Some _ => r = None ∧ requeued (DTag d) k1
       | None =>
           ∃ k2 k3, k1 = k2 ++ k3 ∧ plain_policy o d dErr r k2 ∧
             (if r then requeued (DTag d) k3 else k3 = [])
       end).
Proof.
  intros Hm stop. unfold Consume.handle, processDelivery. simpl SMarshaler. rewrite Hm.
  logs_step. apply logs_call_exact. intros l1. pose proof (process_answers sub gc md data s.1) as Ha.
  subst stop. destruct (process reg sub gc md data s.1) as [dErr w1]. cbn [fst snd] in *.
  logs_step. apply logs_call_exact. intros l2. rewrite run_bind. cbn [fst snd].
  change ((mret (ErrAt gc (now w1).1) : M W error) (now w1).2).1 with (ErrAt gc (now w1).1).
  destruct (ErrAt gc (now w1).1) as [e|]; cbn [isNil negb].
  - logs_step. apply Requeue_logs. intros k1 s2 Hr. apply logs_ret. rewrite app_nil_r.
    exists dErr, k1. by split_and!.
  - logs_step. eapply logs_mono; [apply plain_policy_logs|]. cbn beta. intros r k1 s2 Hpol.
    destruct r as [er|].
    + logs_step. apply Requeue_logs. intros k3 s3 Hr. apply logs_ret. rewrite app_nil_r.
      exists dErr, (k1 ++ k3). split_and!; [done|done|]. by exists k1, k3.
    + apply logs_ret. rewrite app_nil_r. exists dErr, k1. split_and!; [done|done|].
      exists k1, []. by rewrite app_nil_r.
Qed.
End rabbit.
