(* ===== verification/RabbitBusDemo.v ===== *)
(** * A subscriber on the demonstration broker *)
From S2P Require Import Prelude Errors GoLib Event Bound Relay Scenario Amqp Publish Consume RabbitProps AmqpDemo Codec Subscriber BusProps BusDemo RabbitBus.

(** Its handler panics on every event it is handed. *)
Definition crashing : EventHandler (W:=broker) := λ ctx md dec inter, mret (Panicked "nil map").
Definition crash_sub : Subscriber (W:=broker) :=
  (RegisterHandler (NewSubscriber "shop" []) books_desc "BookSold" crashing).1.
Definition requeueing : Plain.receiverOptions :=
  Plain.mkOptions "books" 16 "tag" false false true Second (5 * Second).

(** The event is rejected for good although the options ask for a requeue; so is
    the poison one. *)
Example crash_rejected :
  dispositions (alog (Plain.Receive requeueing text_unmarshal Background
    (process codecs crash_sub) receiver_start).2.2)
  = [AReject 1 false None; AReject 2 false None].
Proof. by vm_compute. Qed.

Lemma delivery_disposed_witness :
  let stop := ErrAt Background (now (process codecs crash_sub Background
                (NewMetadata "books.v1.BookSold") None receiver_start.1).2).1 in
  logs (Consume.handle Background (mkSpec "books" "tag" 16 text_unmarshal true) (process codecs crash_sub)
          (Plain.doAcknowledge requeueing) Background O fresh_delivery) receiver_start
    (λ r k _, ∃ dErr k1,
       k = AProcessed (NewMetadata "books.v1.BookSold") None dErr :: ACtxErr Background stop :: k1 ∧
       answers codecs crash_sub Background (NewMetadata "books.v1.BookSold") None receiver_start.1 dErr ∧
       match stop with
       | Some _ => r = None ∧ requeued 1 k1
       | None =>
           ∃ k2 k3, k1 = k2 ++ k3 ∧ plain_policy requeueing fresh_delivery dErr r k2 ∧
             (if r then requeued 1 k3 else k3 = [])
       end).
Proof. apply (delivery_disposed codecs requeueing). reflexivity. Defined.
