(* ===== verification/Options.v ===== *)
(** * The functional options of the relays and the receivers

    The With* setters of relay/sequence/sequence.go, relay/stream/stream.go,
    rabbitmq/receiver.go and parkinglot/receiver.go: each updates one part of the
    options record, and a constructor folds them over the defaults. The
    marshaler and the logger of a receiver are arguments of the functions that
    use them. *)
From S2P Require Import Prelude Errors GoLib Event Bound Relay Notify Leader Lane RelayCfg Sequence Stream Amqp Publish Consume.
#[local] Open Scope Z_scope.

(** ** What both relays share: the promoted fields *)
Definition setLeaseTTL (d : Z) (l : Lease) : Lease := mkLease d (LeaderLockName l) (LeaderElectionDisabled l).
Definition setLockName (s : string) (l : Lease) : Lease := mkLease (LeaseTTL l) s (LeaderElectionDisabled l).
Definition disableElection (l : Lease) : Lease := mkLease (LeaseTTL l) (LeaderLockName l) true.
Section hooks.
Context `{UrlLib} {W : Type}.
Definition setObserver (obs : Observer) (h : Hooks W) : Hooks W := mkHooks obs (HPoisonHandler h) (HUnsendable h).
Definition setPoison (p : option PoisonHandler) (h : Hooks W) : Hooks W := mkHooks (HObserver h) p (HUnsendable h).
Definition setUnsendable (f : option (err → bool)) (h : Hooks W) : Hooks W := mkHooks (HObserver h) (HPoisonHandler h) f.
End hooks.

Module SequenceOptions.
Section options.
Context `{UrlLib} {W : Type}.
Import Sequence.
Definition Option_ : Type := options W → options W.
Definition onLease (f : Lease → Lease) : Option_ := λ '(mkOptions l o h b sb p sd fc sf rc rd ri rb),
  mkOptions (f l) o h b sb p sd fc sf rc rd ri rb.
Definition onHooks (f : Hooks W → Hooks W) : Option_ := λ '(mkOptions l o h b sb p sd fc sf rc rd ri rb),
  mkOptions l o (f h) b sb p sd fc sf rc rd ri rb.
Definition WithBatchSize (size : Z) : Option_ := λ '(mkOptions l o h b sb p sd fc sf rc rd ri rb),
  mkOptions l o h size sb p sd fc sf rc rd ri rb.
Definition WithSequenceBatchSize (size : Z) : Option_ := λ '(mkOptions l o h b sb p sd fc sf rc rd ri rb),
  mkOptions l o h b size p sd fc sf rc rd ri rb.
Definition WithPollInterval (d : Z) : Option_ := λ '(mkOptions l o h b sb p sd fc sf rc rd ri rb),
  mkOptions l o h b sb d sd fc sf rc rd ri rb.
Definition WithLeaseTTL (ttl : Z) : Option_ := onLease (setLeaseTTL ttl).
Definition WithOpTimeout (d : Z) : Option_ := λ '(mkOptions l o h b sb p sd fc sf rc rd ri rb),
  mkOptions l (mkOps d) h b sb p sd fc sf rc rd ri rb.
Definition WithLeaderLockName (name : string) : Option_ := onLease (setLockName name).
Definition WithoutLeaderElection : Option_ := onLease disableElection.
Definition WithoutSequencer : Option_ := λ '(mkOptions l o h b sb p sd fc sf rc rd ri rb),
  mkOptions l o h b sb p true fc sf rc rd ri rb.
Definition WithoutFencedCommit : Option_ := λ '(mkOptions l o h b sb p sd fc sf rc rd ri rb),
  mkOptions l o h b sb p sd true sf rc rd ri rb.
Definition WithStartFromBeginning : Option_ := λ '(mkOptions l o h b sb p sd fc sf rc rd ri rb),
  mkOptions l o h b sb p sd fc true rc rd ri rb.
Definition WithObserver (obs : Observer) : Option_ := onHooks (setObserver obs).
Definition WithPoisonHandler (h : option PoisonHandler) : Option_ := onHooks (setPoison h).
Definition WithUnsendableClassifier (f : option (err → bool)) : Option_ := onHooks (setUnsendable f).
Definition WithoutRetention : Option_ := λ '(mkOptions l o h b sb p sd fc sf rc rd ri rb),
  mkOptions l o h b sb p sd fc sf rc true ri rb.
Definition WithRetention (sweepInterval sweepBatch : Z) : Option_ :=
  λ '(mkOptions l o h b sb p sd fc sf rc rd ri rb),
  mkOptions l o h b sb p sd fc sf true rd sweepInterval sweepBatch.
End options.
End SequenceOptions.

Module StreamOptions.
Section options.
Context `{UrlLib} {W : Type}.
Import Stream.
Definition Option_ : Type := options W → options W.
Definition onLease (f : Lease → Lease) : Option_ := λ '(mkOptions l o h w b), mkOptions (f l) o h w b.
Definition onHooks (f : Hooks W → Hooks W) : Option_ := λ '(mkOptions l o h w b), mkOptions l o (f h) w b.
Definition WithDrainWindow (d : Z) : Option_ := λ '(mkOptions l o h w b), mkOptions l o h d b.
Definition WithLeaseTTL (d : Z) : Option_ := onLease (setLeaseTTL d).
Definition WithOpTimeout (d : Z) : Option_ := λ '(mkOptions l o h w b), mkOptions l (mkOps d) h w b.
Definition WithLeaderLockName (s : string) : Option_ := onLease (setLockName s).
Definition WithoutLeaderElection : Option_ := onLease disableElection.
Definition WithTokenBatchSize (n : Z) : Option_ := λ '(mkOptions l o h w b), mkOptions l o h w n.
Definition WithObserver (obs : Observer) : Option_ := onHooks (setObserver obs).
Definition WithPoisonHandler (h : option PoisonHandler) : Option_ := onHooks (setPoison h).
Definition WithUnsendableClassifier (f : option (err → bool)) : Option_ := onHooks (setUnsendable f).
End options.
End StreamOptions.

Module PlainOptions.
Import Plain.
Definition ReceiverOption : Type := receiverOptions → receiverOptions.
Definition WithIncomingQueue (queue : string) : ReceiverOption := λ '(mkOptions _ n t s x r b m),
  mkOptions queue n t s x r b m.
Definition WithTopologySetup : ReceiverOption := λ '(mkOptions q n t _ x r b m), mkOptions q n t true x r b m.
Definition WithRequeue : ReceiverOption := λ '(mkOptions q n t s x _ b m), mkOptions q n t s x true b m.
Definition WithoutRequeue : ReceiverOption := λ '(mkOptions q n t s x _ b m), mkOptions q n t s x false b m.
Definition WithDLX : ReceiverOption := λ '(mkOptions q n t s _ r b m), mkOptions q n t s true r b m.
Definition WithPrefetchCount (c : Z) : ReceiverOption := λ '(mkOptions q _ t s x r b m), mkOptions q c t s x r b m.
Definition WithRequeueBackoff (base max : Z) : ReceiverOption := λ '(mkOptions q n t s x r _ _),
  mkOptions q n t s x r base max.
Definition NewReceiver (opts : list ReceiverOption) : receiverOptions :=
  foldl (λ o opt, opt o) defaultReceiverOptions opts.
End PlainOptions.

Module LotOptions.
Import ParkingLot.
Definition ReceiverOption : Type := receiverOptions → receiverOptions.
Definition WithIncomingQueue (queue : string) : ReceiverOption := λ '(mkOptions _ w p x n t s b r d),
  mkOptions queue w p x n t s b r d.
Definition WithMaxRetries (k : Z) : ReceiverOption := λ '(mkOptions q w p x n t s b _ d),
  mkOptions q w p x n t s b k d.
Definition WithMinRetryBackoff (d : Z) : ReceiverOption := λ '(mkOptions q w p x n t s b r _),
  mkOptions q w p x n t s b r d.
Definition WithTopologySetup : ReceiverOption := λ '(mkOptions q w p x n t _ b r d),
  mkOptions q w p x n t true b r d.
Definition WithBindingsSetup : ReceiverOption := λ '(mkOptions q w p x n t s _ r d),
  mkOptions q w p x n t s true r d.
Definition WithPrefetchCount (c : Z) : ReceiverOption := λ '(mkOptions q w p x _ t s b r d),
  mkOptions q w p x c t s b r d.
Definition NewReceiver (opts : list ReceiverOption) : receiverOptions :=
  foldl (λ o opt, opt o) defaultReceiverOptions opts.
End LotOptions.

(** ** What the constructors accept *)

(** A change-stream relay with its three durations set, and otherwise the
    defaults, is constructed exactly when every budget fits the next one: a
    drain window inside half the lease and inside one operation, and both
    together inside the lease (as 64-bit durations). *)
Section accepts.
#[local] Arguments Z.ltb : simpl never.
#[local] Arguments Z.leb : simpl never.
#[local] Arguments Z.quot : simpl never.
#[local] Arguments wrap64 : simpl never.
#[local] Arguments MaxNameLen : simpl never.
#[local] Arguments len : simpl never.
Context `{UrlLib} {W : Type}.
Import StreamOptions.
Theorem stream_accepts holder name (st : Stream.Store W) send ls ie window lease op :
  name ≠ ""%string → len name <= MaxNameLen →
  let o := foldl (λ o opt, opt o) Stream.defaultOptions [WithDrainWindow window; WithLeaseTTL lease; WithOpTimeout op] in
  (∃ r, Stream.NewRelay holder name (Some st) (Some send) (Some ls) ie o = inl r) ↔
  0 < window ∧ 0 < lease ∧ window < Z.quot lease 2 ∧ window < op ∧ wrap64 (window + op) < lease.
Proof.
  intros Hne Hlen o. apply String.eqb_neq in Hne.
  assert (MaxNameLen <? len name = false) as HL by (apply Z.ltb_ge; lia).
  unfold o, Stream.NewRelay, ValidateName, ValidateDeps. rewrite Hne, HL. simpl.
  destruct (Z.leb_spec window 0); simpl; [split; [by intros []|lia]|].
  unfold Lease_Validate. simpl. rewrite HL.
  destruct (Z.leb_spec lease 0); simpl; [split; [by intros []|lia]|].
  destruct (Z.leb_spec (Z.quot lease 2) window); simpl; [split; [by intros []|lia]|].
  unfold Ops_Validate. simpl.
  destruct (Z.leb_spec op 0); simpl; [split; [by intros []|lia]|].
  destruct (Z.leb_spec op window); simpl; [split; [by intros []|lia]|].
  destruct (Z.leb_spec lease (wrap64 (window + op))); simpl; [split; [by intros []|lia]|].
  split; [intros _; lia|]. intros _. unfold ElectorOf. simpl. eauto.
Qed.
End accepts.
