(* ===== verification/Migrate.v ===== *)
(** * tidb: the embedded migrations and their application

    tidb/embed.go and tidbmigrate/tidbmigrate.go. The embedded files are a list
    of paths with their text; golang-migrate and database/sql are a parameter. *)
From S2P Require Import Prelude Errors GoLib Event Envelope.
#[local] Open Scope Z_scope.

(** ** strings.NewReplacer: one pass, at each position the first pair, in
    argument order, whose old string starts there *)
Fixpoint firstMatch (pairs : list (string * string)) (s : string) : option (string * string * string) :=
  match pairs with
  | [] => None
  | (old, new) :: pairs =>
      match CutPrefix s old with Some rest => Some (old, new, rest) | None => firstMatch pairs s end
  end.
Fixpoint replaceAll (fuel : nat) (pairs : list (string * string)) (s : string) : string :=
  match fuel, s with
  | O, _ | _, EmptyString => s
  | S n, String c s' =>
      match firstMatch pairs s with
      | Some (_, new, rest) => new +:+ replaceAll n pairs rest
      | None => String c (replaceAll n pairs s')
      end
  end.
(** Every step consumes a byte when no old string is empty. *)
Definition Replace (pairs : list (string * string)) (s : string) : string :=
  replaceAll (String.length s) pairs s.

(** ** embed.go *)
Definition baseMessagesTable : string := "outbox_messages".
Definition baseOffsetsTable : string := "outbox_offsets".
Definition baseSequencersTable : string := "outbox_sequencers".
Definition baseLocksTable : string := "relay_locks".
Definition tables : list string := [baseMessagesTable; baseOffsetsTable; baseSequencersTable; baseLocksTable].
Definition tablePairs (prefix : string) : list (string * string) := (λ t, (t, prefix +:+ t)) <$> tables.
Definition files : Type := list (string * string).
Definition PrefixedMigrations (Migrations : files) (prefix : string) : files + err :=
  match ValidateInstancePrefix prefix with
  | Some e => inr e
  | None => inl (prod_map id (Replace (tablePairs prefix)) <$> Migrations)
  end.

(** ** tidbmigrate.go *)
Record config := mkConfig { prefix : string; prefixSet : bool }.
Definition WithTablePrefix (p : string) (c : config) : config := mkConfig p true.

Definition ErrNoChange : sentinel := ErrOther "migrate.ErrNoChange".
(** Connections and migrators are handles; closing a migrator closes its
    driver's connection. *)
Class MigrateLib (W : Type) := {
  iofs_New : files → M W (nat + err);
  db_Conn : M W (nat + err);
  conn_Exec : nat → string → M W error;
  conn_Close : nat → M W error;
  WithConnection : nat → option string → M W (nat + err);
  NewWithInstance : nat → nat → M W (nat + err);
  Up : nat → M W error;
  m_Close : nat → M W error }.

(** What [Apply] does with the resources it holds. *)
Inductive mev := MConn (conn : nat) | MConnClose (conn : nat) | MMigrator (m conn : nat) | MMigratorClose (m : nat)
| MUp (m : nat) (src : files).

Section apply.
Context {W : Type} `{!MigrateLib W}.
#[local] Abbreviation S := (W * list mev)%type.
Definition lib {A} (m : M W A) : M S A := zoom fst (λ w s, (w, s.2)) m.
Definition note (e : mev) : M S unit := modify (λ s, (s.1, s.2 ++ [e])).
Definition closeConn (conn : nat) : M S unit := _ ← lib (conn_Close conn); note (MConnClose conn).

Definition checkMultiStatements (conn : nat) : M S error :=
  e ← lib (conn_Exec conn "SELECT 1; SELECT 1");
  mret (wrapf "outbox: migrate: the DSN must set multiStatements=true" <$> e).
Definition Apply (Migrations : files) (opts : list (config → config)) : M S error :=
  let c := foldl (λ c opt, opt c) (mkConfig "" false) opts in
  match (if prefixSet c then PrefixedMigrations Migrations (prefix c) else inl Migrations) with
  | inr e => mret (Some (wrapf "outbox: migrate" e))
  | inl source =>
      let table := if prefixSet c then Some (prefix c +:+ "schema_migrations") else None in
      src ← lib (iofs_New source);
      match src : nat + err with
      | inr e => mret (Some (wrapf "outbox: migrate: open source" e))
      | inl src =>
          conn ← lib db_Conn;
          match conn : nat + err with
          | inr e => mret (Some (wrapf "outbox: migrate: acquire conn" e))
          | inl conn =>
              _ ← note (MConn conn);
              e ← checkMultiStatements conn;
              match e : error with
              | Some e => _ ← closeConn conn; mret (Some e)
              | None =>
                  drv ← lib (WithConnection conn table);
                  match drv : nat + err with
                  | inr e => _ ← closeConn conn; mret (Some (wrapf "outbox: migrate: create driver" e))
                  | inl drv =>
                      m ← lib (NewWithInstance src drv);
                      match m : nat + err with
                      | inr e => _ ← closeConn conn; mret (Some (wrapf "outbox: migrate: create migrator" e))
                      | inl m =>
                          _ ← note (MMigrator m conn);
                          e ← lib (Up m);
                          _ ← note (MUp m source);
                          _ ← lib (m_Close m);
                          _ ← note (MMigratorClose m);
                          mret (match e : error with
                                | Some e => if is_err e ErrNoChange then None
                                            else Some (wrapf "outbox: migrate: apply" e)
                                | None => None
                                end)
                      end
                  end
              end
          end
      end
  end.

Lemma run_lib {A} (m : M W A) (s : S) : lib m s = ((m s.1).1, ((m s.1).2, s.2)).
Proof. reflexivity. Qed.
Lemma run_note e (s : S) : note e s = (tt, (s.1, s.2 ++ [e])).
Proof. reflexivity. Qed.
Ltac mig := 
  repeat (rewrite ?run_bind, ?run_lib, ?run_note, ?run_ret; cbn [fst snd app fmap option_fmap option_map]).

(** The run of a migration. It succeeds only after the migrations of exactly
    the configured instance were applied or were already; an invalid prefix, an
    empty one that was passed explicitly included, touches nothing; and the
    connection it took is closed exactly once on every path, by itself or by the
    migrator it was given to. *)
Theorem Apply_contract Migrations opts (w : W) :
  let c := foldl (λ c opt, opt c) (mkConfig "" false) opts in
  let '(r, (w', k)) := Apply Migrations opts (w, []) in
  (prefixSet c = true → ValidateInstancePrefix (prefix c) ≠ None → r ≠ None ∧ w' = w ∧ k = []) ∧
  (r = None → ∃ m source, MUp m source ∈ k ∧
     (if prefixSet c then PrefixedMigrations Migrations (prefix c) = inl source else source = Migrations)) ∧
  (k = [] ∨ (∃ conn, k = [MConn conn; MConnClose conn]) ∨
   ∃ conn m source, k = [MConn conn; MMigrator m conn; MUp m source; MMigratorClose m]).
Proof.
  intros c. unfold Apply. fold c.
  assert (Hsrc : match (if prefixSet c then PrefixedMigrations Migrations (prefix c) else inl Migrations) with
    | inr e => prefixSet c = true
    | inl source => (prefixSet c = true → ValidateInstancePrefix (prefix c) = None) ∧
        (if prefixSet c then PrefixedMigrations Migrations (prefix c) = inl source else source = Migrations)
    end).
  { destruct (prefixSet c); [|done]. unfold PrefixedMigrations.
    destruct (ValidateInstancePrefix (prefix c)) eqn:Ev; [done|]. done. }
  destruct (if prefixSet c then _ else _) as [source|e]; [|rewrite run_ret; by split_and!; [| |left]].
  destruct Hsrc as [Hv Hs].
  assert (Hbad : ∀ (P : Prop), prefixSet c = true → ValidateInstancePrefix (prefix c) ≠ None → P).
  { intros P Hp Hne. by rewrite Hv in Hne. }
  mig. destruct (iofs_New source w) as [[src|e] w1]; mig; [|by split_and!; [apply Hbad| |left]].
  destruct (db_Conn w1) as [[conn|e] w2]; mig; [|by split_and!; [apply Hbad| |left]].
  unfold checkMultiStatements, closeConn. mig.
  destruct (conn_Exec conn _ w2) as [[e|] w3]; mig;
    [destruct (conn_Close conn w3) as [x w4]; mig; by split_and!; [apply Hbad| |right; left; eexists]|].
  set (table := if prefixSet c then _ else _).
  destruct (WithConnection conn table w3) as [[drv|e] w4]; mig;
    [|destruct (conn_Close conn w4) as [x w5]; mig; by split_and!; [apply Hbad| |right; left; eexists]].
  destruct (NewWithInstance src drv w4) as [[m|e] w5]; mig;
    [|destruct (conn_Close conn w5) as [x w6]; mig; by split_and!; [apply Hbad| |right; left; eexists]].
  destruct (Up m w5) as [e w6]; mig. destruct (m_Close m w6) as [x w7]; mig.
  split_and!; [apply Hbad| |right; right; by do 3 eexists].
  intros _. exists m, source. split; [set_solver|done].
Qed.
End apply.

(** ** The rewritten files *)
Definition segment : Type := string * bool.   (* a table name, or a byte between them *)
Definition original (l : list segment) : string := foldr (λ (x : segment) s, x.1 +:+ s) ""%string l.
Definition rewritten (p : string) (l : list segment) : string :=
  foldr (λ (x : segment) s, (if x.2 then p +:+ x.1 else x.1) +:+ s) ""%string l.

Lemma firstMatch_Some pairs s old new rest :
  firstMatch pairs s = Some (old, new, rest) → (old, new) ∈ pairs ∧ s = (old +:+ rest).
Proof.
  induction pairs as [|[o n] pairs IH]; simpl; [done|]. destruct (CutPrefix s o) as [r|] eqn:E.
  - intros [= -> -> ->]. apply CutPrefix_Some in E. split; [by left|done].
  - intros Hm%IH. split; [right; apply Hm|apply Hm].
Qed.

(** The rewriting of a migration for a prefix. The text falls into table
    names and single bytes at which no table name starts; each name gets the
    prefix, once, and everything else is kept. *)
Theorem Replace_tables p s :
  ∃ l : list segment, original l = s ∧ Replace (tablePairs p) s = rewritten p l ∧
    (∀ (pre post : list segment) (t : string) (b : bool), l = pre ++ (t, b) :: post →
       if b : bool then t ∈ tables
       else String.length t = 1%nat ∧ ∀ n, n ∈ tables → CutPrefix (t +:+ original post) n = None).
Proof.
  unfold Replace. generalize (le_n (String.length s)). generalize (String.length s) at 2 3.
  intros n. revert s. induction n as [|n IH]; intros s Hn.
  { destruct s; simpl in Hn; [|lia]. exists []. split_and!; [done|done|]. by intros [|? ?] ? ? ? ?. }
  destruct s as [|c s]. { exists []. split_and!; [done|done|]. by intros [|? ?] ? ? ? ?. }
  cbn [replaceAll]. destruct (firstMatch (tablePairs p) (String c s)) as [[[old new] rest]|] eqn:E.
  - apply firstMatch_Some in E as [Hin Heq]. unfold tablePairs in Hin.
    apply list_elem_of_fmap in Hin as (t & [= -> ->] & Ht).
    assert (String.length rest <= n)%nat as Hr.
    { apply (f_equal String.length) in Heq. rewrite slength_app in Heq. simpl in Heq, Hn.
      assert (0 < String.length t)%nat; [|lia].
      unfold tables in Ht. rewrite !elem_of_cons in Ht.
      by destruct Ht as [->|[->|[->|[->|?%elem_of_nil]]]]; vm_compute; lia. }
    destruct (IH rest Hr) as (l & Ho & Hrep & Hl). exists ((t, true) :: l).
    change (original ((t, true) :: l)) with (t +:+ original l).
    change (rewritten p ((t, true) :: l)) with ((p +:+ t) +:+ rewritten p l). rewrite Ho, Hrep.
    split_and!; [done|done|]. intros [|x pre] post t' b Heq'; simpl in Heq'; simplify_eq; [done|by eapply Hl].
  - simpl in Hn. destruct (IH s ltac:(lia)) as (l & Ho & Hrep & Hl).
    exists ((String c "", false) :: l).
    change (original ((String c "", false) :: l)) with (String c (original l)).
    change (rewritten p ((String c "", false) :: l)) with (String c (rewritten p l)). rewrite Ho, Hrep. split_and!; [done|done|].
    intros [|x pre] post t' b Heq'; simpl in Heq'; simplify_eq; [|by eapply Hl].
    split; [done|]. intros n' Hn'. clear -E Hn'. unfold tablePairs in E.
    induction tables as [|t ts IHt]; [by apply elem_of_nil in Hn'|]. cbn [firstMatch fmap list_fmap] in E.
    destruct (CutPrefix (String c (original post)) t) eqn:Ec; [done|].
    apply elem_of_cons in Hn' as [->|?]; [done|by apply IHt].
Qed.

Example rewritten_ddl :
  Replace (tablePairs "orders_") "CREATE TABLE outbox_messages (id BIGINT); DROP TABLE relay_locks;"
  = "CREATE TABLE orders_outbox_messages (id BIGINT); DROP TABLE orders_relay_locks;"%string.
Proof. reflexivity. Qed.
