(* ===== verification/Instances.v ===== *)
(** * Several outboxes in one schema

    [WithTablePrefix] makes an outbox instance of four tables whose names carry
    the prefix. [schema]: the tables of a TiDB schema by name; [relayTables]: the
    names [buildRelayQueries] puts in its statements (the statements are in
    [TidbDb]); [NewStore] and [NewRelayStore]: the constructors, by the tables
    they address. Every other file models the tables of one
    instance; the theorem here is why that is enough: in any interleaving of the
    statements of any number of instances, each instance goes through steps of
    its own log, and no other table of the schema changes. *)
From S2P Require Import Prelude Errors GoLib Event Json Envelope Migrate TidbDb TidbLog Tidb.
#[local] Open Scope Z_scope.

(** ** Prefixed names *)
Section names.
Definition revs (s : string) : list ascii := reverse (String.list_ascii_of_string s).
Lemma revs_app s t : revs (s +:+ t) = revs t ++ revs s.
Proof.
  unfold revs. rewrite <-reverse_app. f_equal. induction s as [|c s IH]; [done|]. simpl. by rewrite IH.
Qed.
Lemma revs_inj s t : revs s = revs t → s = t.
Proof.
  unfold revs. intros E%(inj reverse). by rewrite <-(String.string_of_list_ascii_of_string s),
    <-(String.string_of_list_ascii_of_string t), E.
Qed.
(** No name ends in another one. *)
Definition suffix_free (bases : list string) : Prop :=
  Forall (λ b, Forall (λ b', revs b `prefix_of` revs b' → b = b') bases) bases.
#[global] Instance suffix_free_dec bases : Decision (suffix_free bases).
Proof. unfold suffix_free. apply _. Defined.
Lemma prefixed_inj bases p q b b' :
  suffix_free bases → b ∈ bases → b' ∈ bases → p +:+ b = (q +:+ b')%string → p = q ∧ b = b'.
Proof.
  unfold suffix_free. intros Hs Hb Hb' E. apply (f_equal revs) in E. rewrite !revs_app in E.
  rewrite Forall_forall in Hs.
  pose proof (Hs _ Hb) as H1. pose proof (Hs _ Hb') as H2. rewrite Forall_forall in H1, H2.
  assert (b = b') as <-.
  { destruct (prefix_weak_total (revs b) (revs b') (revs b ++ revs p)) as [Hp|Hp].
    - by apply prefix_app_r.
    - rewrite E. by apply prefix_app_r.
    - by apply H1.
    - symmetry. by apply H2. }
  split; [|done]. by apply app_inv_head, revs_inj in E.
Qed.
End names.

(** How the server compares table names: byte for byte or, as TiDB does, without
    regard to case. A name of lower-case letters and underscores stands for
    itself. *)
Definition lowerName (s : string) : bool := sforall (λ c, (97 <=? byte c) && (byte c <=? 122) || (byte c =? 95)) s.
Class NameFold := {
  fold_name : string → string;
  fold_app s t : fold_name (s +:+ t) = (fold_name s +:+ fold_name t)%string;
  fold_lower s : lowerName s = true → fold_name s = s }.

(** ** store.go: the table names of an instance *)
Record tableNames := mkNames { nMessages : string; nOffsets : string; nSequencers : string; nLocks : string }.
Definition relayTables (c : Tidb.config) : tableNames :=
  mkNames (Tidb.prefix c +:+ baseMessagesTable) (Tidb.prefix c +:+ baseOffsetsTable)
    (Tidb.prefix c +:+ baseSequencersTable) (Tidb.prefix c +:+ baseLocksTable).
(** The relay store: its tables and its retention window. *)
Definition NewRelayStore (opts : list (Tidb.config → Tidb.config)) : tableNames * Z :=
  let c := Tidb.newConfig opts in (relayTables c, Tidb.window c).
(** The publish store: the table it inserts into. *)
Definition NewStore (opts : list (Tidb.config → Tidb.config)) : string :=
  let c := Tidb.newConfig opts in Tidb.prefix c +:+ baseMessagesTable.
Definition nameList (n : tableNames) : list string := [nMessages n; nOffsets n; nSequencers n; nLocks n].

(** ** The tables of a schema *)
Inductive table :=
| TMessages (rows : list row) (auto : Z)
| TOffsets (rows : gmap string (Z * Z))
| TSequencers (rows : gmap string Z)
| TLocks (rows : gmap string (string * Z)).
Abbreviation schema := (gmap string table).

Section schema.
Context `{NameFold} `{Planner}.
Implicit Types (n : tableNames) (s : schema) (d : db).

Definition at_table (s : schema) (name : string) : option table := s !! fold_name name.
(** The instance behind four names: [None] when a statement would answer that a
    table does not exist or has other columns. *)
Definition instance (n : tableNames) (s : schema) : option db :=
  match at_table s (nMessages n), at_table s (nOffsets n), at_table s (nSequencers n), at_table s (nLocks n) with
  | Some (TMessages l i), Some (TOffsets o), Some (TSequencers q), Some (TLocks k) => Some (mkDb l i q o k)
  | _, _, _, _ => None
  end.
Definition install (n : tableNames) (d : db) (s : schema) : schema :=
  <[fold_name (nMessages n) := TMessages (messages d) (next_id d)]>
  (<[fold_name (nOffsets n) := TOffsets (offsets d)]>
  (<[fold_name (nSequencers n) := TSequencers (sequencers d)]>
  (<[fold_name (nLocks n) := TLocks (locks d)]> s))).

(** One statement of one instance, whichever. *)
Definition instance_step (s s' : schema) : Prop := ∃ c a d d',
  instance (relayTables c) s = Some d ∧ step a d d' ∧ s' = install (relayTables c) d' s.

Lemma bases_suffix_free : suffix_free Migrate.tables.
Proof. apply (bool_decide_unpack _). by vm_compute. Qed.
Lemma name_of c x :
  x ∈ nameList (relayTables c) ↔ ∃ b, b ∈ Migrate.tables ∧ x = (Tidb.prefix c +:+ b)%string.
Proof.
  unfold nameList, Migrate.tables. simpl. rewrite !elem_of_cons. setoid_rewrite elem_of_cons.
  repeat setoid_rewrite elem_of_cons. split.
  - intros [->|[->|[->|[->|[]%elem_of_nil]]]]; eauto 8.
  - intros (b & [->|[->|[->|[->|[]%elem_of_nil]]]] & ->); eauto 8.
Qed.
Lemma fold_base b : b ∈ Migrate.tables → fold_name b = b.
Proof.
  intros Hb. apply fold_lower. assert (Forall (λ b, lowerName b = true) Migrate.tables) as Hall
    by (apply (bool_decide_unpack _); by vm_compute).
  rewrite Forall_forall in Hall. auto.
Qed.
(** Two instances share no table unless their prefixes are the same name. *)
Lemma names_inj c c' b b' :
  b ∈ Migrate.tables → b' ∈ Migrate.tables →
  fold_name (Tidb.prefix c +:+ b) = fold_name (Tidb.prefix c' +:+ b') →
  fold_name (Tidb.prefix c) = fold_name (Tidb.prefix c') ∧ b = b'.
Proof.
  intros Hb Hb'. rewrite !fold_app, (fold_base b Hb), (fold_base b' Hb').
  exact (prefixed_inj _ _ _ _ _ bases_suffix_free Hb Hb').
Qed.

Lemma names_nodup c : NoDup (fold_name <$> nameList (relayTables c)).
Proof.
  assert (NoDup Migrate.tables) as Hnd by (apply (bool_decide_unpack _); by vm_compute).
  change (nameList (relayTables c)) with
    ((λ b, Tidb.prefix c +:+ b)%string <$> [baseMessagesTable; baseOffsetsTable; baseSequencersTable; baseLocksTable]).
  rewrite <-list_fmap_compose. apply NoDup_fmap_2_strong; [|exact Hnd].
  intros b b' Hb Hb' E. by apply (names_inj c c).
Qed.
Lemma install_lookup n d s k :
  install n d s !! k =
    if decide (fold_name (nMessages n) = k) then Some (TMessages (messages d) (next_id d))
    else if decide (fold_name (nOffsets n) = k) then Some (TOffsets (offsets d))
    else if decide (fold_name (nSequencers n) = k) then Some (TSequencers (sequencers d))
    else if decide (fold_name (nLocks n) = k) then Some (TLocks (locks d)) else s !! k.
Proof. unfold install. by rewrite !lookup_insert. Qed.
(** An instance is what was installed last. *)
Lemma instance_install c d s : instance (relayTables c) (install (relayTables c) d s) = Some d.
Proof.
  pose proof (names_nodup c) as Hnd. unfold instance, at_table. rewrite !install_lookup.
  unfold nameList in Hnd. simpl in Hnd. rewrite !NoDup_cons, !not_elem_of_cons in Hnd.
  destruct Hnd as ((? & ? & ? & _) & (? & ? & _) & (? & _) & _).
  simpl. repeat case_decide; try congruence. by destruct d.
Qed.
(** Other tables are as they were. *)
Lemma install_other n d s k :
  k ∉ (fold_name <$> nameList n) → install n d s !! k = s !! k.
Proof.
  unfold nameList. simpl. rewrite !not_elem_of_cons. intros (? & ? & ? & ? & _).
  unfold install. by rewrite !lookup_insert_ne by congruence.
Qed.
Lemma instance_other c c' d s :
  fold_name (Tidb.prefix c) ≠ fold_name (Tidb.prefix c') →
  instance (relayTables c) (install (relayTables c') d s) = instance (relayTables c) s.
Proof.
  intros Hne. assert (∀ x, x ∈ nameList (relayTables c) →
    install (relayTables c') d s !! fold_name x = s !! fold_name x) as Hx.
  { intros x (b & Hb & ->)%name_of. apply install_other. intros (y & E & (b' & Hb' & ->)%name_of)%list_elem_of_fmap.
    apply Hne. by apply (names_inj c c' b b'). }
  unfold instance, at_table. rewrite !Hx; [done|..]; unfold nameList; set_solver.
Qed.
(** Prefixes that the server takes for one name are one instance. *)
Lemma instance_same c c' :
  fold_name (Tidb.prefix c) = fold_name (Tidb.prefix c') →
  instance (relayTables c) = instance (relayTables c') ∧
  install (relayTables c) = install (relayTables c').
Proof.
  intros E. unfold instance, install, at_table, relayTables. simpl. rewrite !fold_app, E. done.
Qed.

(** C31: outbox instances are independent: in any interleaving of the statements
    of any number of instances of one schema, whatever their prefixes, each
    instance that is installed goes through steps of its own log and no others,
    so that what is proved of one instance's tables holds of it in company; its
    publish store and its relay store, made with the same options, are on the
    same messages table; and no table of the schema that is not an instance's is
    touched. *)
Theorem instances_independent s s' opts d :
  rtc instance_step s s' → instance (NewRelayStore opts).1 s = Some d →
  (∃ d', instance (NewRelayStore opts).1 s' = Some d' ∧ steps d d' ∧ (reachable d → reachable d' ∧ log_ok d')) ∧
  NewStore opts = nMessages (NewRelayStore opts).1 ∧
  (∀ k, (∀ c, k ∉ (fold_name <$> nameList (relayTables c))) → s' !! k = s !! k).
Proof.
  intros Hrun Hd. set (c := newConfig opts). change (NewRelayStore opts).1 with (relayTables c) in *.
  split_and!; [|done|].
  - assert (∃ d', instance (relayTables c) s' = Some d' ∧ steps d d') as (d' & ? & Hst).
    { clear -Hrun Hd. revert d Hd.
      induction Hrun as [s|s s1 s' (c' & a & d0 & d1 & Hd0 & Ha & ->) _ IH]; intros d Hd; [by exists d|].
      destruct (decide (fold_name (Tidb.prefix c) = fold_name (Tidb.prefix c'))) as [E|Hne].
      - destruct (instance_same c c' E) as [Ei Eo]. rewrite Ei in Hd. assert (d0 = d) as -> by congruence.
        destruct (IH d1) as (d' & ? & ?); [rewrite Ei; apply instance_install|].
        exists d'. split; [done|]. eapply rtc_l; [by eexists|done].
      - apply IH. by rewrite instance_other. }
    exists d'. split_and!; [done|done|]. intros Hre. assert (reachable d') as Hre' by (unfold reachable, steps in *; by etrans).
    split; [done|]. eapply steps_log_ok, Hre'. apply migrated_ok.
  - intros k Hk. clear Hd. induction Hrun as [s|s s1 s' (c' & a & d0 & d1 & Hd0 & Ha & ->) _ IH]; [done|].
    rewrite IH. by apply install_other.
Qed.
End schema.

(** ** Concrete servers and a run *)
#[export] Instance exact_names : NameFold.
Proof. by refine {| fold_name s := s |}. Defined.
(** TiDB: [lower_case_table_names] is 2, names are compared in lower case. *)
Definition caseless_names : NameFold.
Proof.
  refine {| fold_name := smap lower_byte |}.
  - intros s t. induction s as [|c s IH]; [done|]. simpl. by rewrite IH.
  - intros s. unfold lowerName. induction s as [|c s IH]; [done|]. simpl.
    intros [Hc Hs]%andb_true_iff. rewrite (IH Hs). f_equal. unfold lower_byte, is_upper.
    destruct (Z.leb_spec 65 (byte c)), (Z.leb_spec (byte c) 90); simpl; [zbool; lia|done..].
Defined.
#[local] Instance in_order : Planner.
Proof. by refine {| scan l := l |}. Defined.
Definition plain : tableNames := relayTables (newConfig []).
Definition orders_config : Tidb.config := mkConfig "orders_" defaultRetentionWindow.
Definition orders : tableNames := relayTables orders_config.
Definition two_outboxes : schema := install plain migrated (install orders migrated ∅).
Definition published (id : string) : db :=
  match q_insert 7 id JNull (Some "x"%string) 1 1 migrated with inl (d, _) => d | inr _ => migrated end.
Definition after_publishing : schema := install orders (published "b") (install plain (published "a") two_outboxes).
Example two_logs :
  r_event <$> default [] (messages <$> instance plain after_publishing) = ["a"%string] ∧
  r_event <$> default [] (messages <$> instance orders after_publishing) = ["b"%string].
Proof. by vm_compute. Qed.
Lemma instances_independent_witness :
  (∃ d', instance plain after_publishing = Some d' ∧ steps migrated d' ∧
    (reachable migrated → reachable d' ∧ log_ok d')) ∧ NewStore [] = nMessages plain.
Proof.
  destruct (instances_independent two_outboxes after_publishing [] migrated) as (Hd & Hn & _).
  - eapply rtc_l; [|apply rtc_once].
    + exists (newConfig []), (APublish 7 "a" JNull (Some "x"%string) 1 1), migrated, (published "a").
      split_and!; [by vm_compute|by apply step_publish; vm_compute|done].
    + exists orders_config, (APublish 7 "b" JNull (Some "x"%string) 1 1), migrated, (published "b").
      split_and!; [by vm_compute|by apply step_publish; vm_compute|done].
  - by vm_compute.
  - by split.
Defined.

(** Two valid prefixes that differ in case only are one instance on TiDB. *)
Example case_twins :
  ValidateInstancePrefix "Orders_" = None ∧ ValidateInstancePrefix "orders_" = None ∧
  fold_name (NameFold := caseless_names) "Orders_" = fold_name (NameFold := caseless_names) "orders_".
Proof. by vm_compute. Qed.
